(* ===== verification/_CoqProject ===== *)
-Q . S2P
Prelude.v
Consts.v
Layout.v
Hash.v
Spec.v
Segment.v
Shm.v
ShmInv.v
ShmProbe.v
ShmOps.v
SeqCount.v
ShmWrite.v
ShmCompact.v
ShmRefine.v
ShmCommit.v
ShmTrace.v
ShmSafety.v
WrapLoss.v
SegmentThms.v
Cache.v
CacheThms.v
Preload.v
Identity.v
Names.v
World.v
Wp.v
Disk.v
DiskInv.v
Publish.v
Sem.v
SemInv.v
SemThms.v
Attach.v
Store.v
ParseInt.v
ParseIntInv.v
Lib.v
WriteOut.v
CommitInv.v
CommitThms.v
LoadInv.v
CreateInv.v
AttachInv.v
DiskOps.v
StoreInv.v
ClearInv.v
GetallInv.v
InitThms.v
StoreThms.v
LibThms.v
Race.v
RaceInv.v
RaceOps.v
RaceThms.v
Paths.v
Helper.v
HelperThms.v
Killed.v
KilledThms.v
Locking.v
LockingInv.v
LockingCode.v
LockingSys.v
LockingThms.v
Typed.v
Survivors.v
KilledDeep.v
Custody.v
CustodyCode.v
CustodySys.v
CustodyThms.v
Reads.v
