(* ===== verification/Prelude.v ===== *)
(** * libnvram-rs: a verified model of the shared-memory NVRAM store

    The library keeps a router's settings in three tiers: a shared-memory
    segment every process maps (src/src/shm.rs), private copies of what a
    process has read (src/src/cache.rs), and one file per key under the store
    root (src/src/disk.rs).  A [set] goes to the segment and is seen by every
    process at once; a [commit] writes what the disk is owed; [init] fills a
    fresh segment from the files at boot.  Writers serialise on a SysV
    semaphore (src/src/sem.rs), readers take no lock but check two counters.
    store.rs puts the tiers together and lib.rs is the C interface.

    ** The model, file by file

    The mapped object (shm.rs, hash.rs, consts.rs).
    - Consts, Hash, Layout: the constants, the key hash at 64 bits, the
      [repr(C)] offsets and sizes of the mapping.
    - Segment: the structs as records of atomic cells and a byte arena; a
      segment operation is a [prog], a sequence of loads, stores, atomic
      updates and copies.  [run] executes one with nothing in between.
    - Shm: every method of [Segment] as such a program, with the names of the
      source: [probe], [read_value], [put], [remove], [compact], [clear],
      [for_each_live], [commit_snapshot], [commit_writeback], [repair_seq]...
    - Spec: the abstract store, a finite map from keys to a value or a pending
      deletion with its dirty flag.
    - ShmInv ([wf], the invariant; [view], the map a segment stands for),
      ShmProbe, ShmOps, SeqCount, ShmWrite, ShmCompact, ShmRefine, ShmCommit,
      ShmTrace (sequences of operations), ShmSafety (bounds), Identity (the
      header fields no operation touches), Preload: the lemmas about them.
    - SegmentThms, WrapLoss: the theorems.
    - Race, RaceInv, RaceOps, RaceThms: the lock-free read against a writer,
      one memory access at a time; Killed, KilledThms: a writer that stops
      between two of them; Survivors: histories of whole and killed operations;
      KilledDeep: one that stops inside a compaction or a [clear].
    - Typed: the types of the cells, and that every access respects them.
    The process cache (cache.rs).
    - Cache: entries over an explicit heap of buffers, for any [Allocator];
      CacheThms: when a pointer handed to C is good.
    The operating system (std::fs, SysV semaphores, POSIX shared memory).
    - World: [call]s, trees of them ([io]), a world that answers ([handle]) and
      their execution ([exec]); Wp: a program logic with an invariant that
      holds after every call, which is what crash safety needs.
    The code that talks to it.
    - Names, Disk (disk.rs); Sem (sem.rs); Attach (the life of the segment,
      shm.rs); Store (store.rs); ParseInt, Lib (lib.rs); Paths (paths.rs);
      Helper (src/src/bin/nvram-testhelper.rs and the test support).
    - DiskInv, Publish, DiskOps, SemInv, WriteOut, CommitInv, LoadInv,
      CreateInv, AttachInv, StoreInv, ClearInv, GetallInv, ParseIntInv: the
      lemmas; CommitThms, InitThms, StoreThms, SemThms, LibThms, HelperThms:
      the theorems.
    The system.
    - Locking: any number of processes with the kernel's semaphores, undo
      entries and segment names between them; one step is one system call, one
      access of a segment program, a start, or a death at any point.
      LockingInv: what a process knows at each point of its program ([belief])
      and the calls it may make then ([obeys]); LockingCode: the code of Store,
      Attach and Lib obeys; LockingSys: beliefs hold in every reachable state;
      LockingThms: the theorems.
    - Custody: what a process may do to a shared object and what it must know
      before ([minds]), what the programs it is given rest on ([modest]);
      CustodyCode: the code of Store, Attach and Lib minds; CustodySys: so every
      object of the system is what whole operations made of it, or one process
      is in the middle of the next; CustodyThms: the theorem.
    - Reads: a lock-free read by one of the processes.

    ** What the theorems show

    - The segment implements the abstract store: [put_refines],
      [remove_refines], [read_value_refines], [compact_preserves],
      [probe_finds_exactly]; every reachable segment is well-formed
      ([reachable_wf]); a [put] fails only for lack of room
      ([put_fails_only_when_full]); readers never leave the mapping, whatever
      the cells hold ([readers_stay_in_bounds], [layout_sound]).
    - Concurrency: a lock-free read is linearizable against writers interleaved
      access by access ([read_value_linearizable]) and against everything the
      processes of a running system do meanwhile
      ([system_reads_linearizable]), but for a reclaimed tombstone
      ([read_value_may_return_anothers_value]); a counter that
      stands still means a value that has not changed ([counter_tracks_value]);
      a writer killed at any access leaves every other key readable and its
      own at worst empty ([killed_writer_mangles_nothing]) and a segment the
      survivors can go on with ([survivors_carry_on]), unless it is inside a
      compaction or a [clear], where settings may be lost
      ([killed_compaction_forgets_everything]) but no wrong value appears
      ([killed_anywhere_invents_nothing]); its death may also
      hide a later [set] from the disk ([killed_put_defeats_the_next]); the
      counter it leaves odd is put right ([repair_restores_reads],
      [get_survives_dead_writer]).
    - Locks: one holder at a time, free again at its death ([locks_exclude]);
      whoever writes to a ready segment holds the writer lock, so writers are
      serialised ([writers_serialised]), and each shared object is at every
      moment the result of whole operations, plus part of one at most
      ([segments_are_serial]); no deadlock ([locks_make_progress]),
      but a creator that dies in the middle of [sem_get] leaves a lock nobody
      will ever take ([dead_creator_wedges_writers]).
    - Types: operations keep every cell and byte in its type and every access
      inside its array, at every access ([writers_stay_typed]).
    - Dirty flags: a snapshot is exact, a write-back never clears the flag of
      a change it has not written ([commit_snapshot_exact],
      [writeback_strands_nothing]), and besides what other processes do in the
      meantime a whole commit changes nothing else ([commit_retires_written]).
    - Durability: at every moment of a commit a power loss leaves each key old
      or new ([commit_crash_safe]); a commit that reports success is on the
      device ([commit_success_durable]) and the next boot's [init] restores it
      ([reboot_restores_commit]); [write_atomic_is_atomic].
    - Bringing the store up: [init_all_or_nothing], also from a directory too
      big for the segment; [attach_accepts_exactly], also of a segment that is
      finished while we wait;
      what it does not promise: [concurrent_init_splits_the_store],
      [init_skips_unreadable_files].
    - The process store: [get_never_stale], [set_stores], [unset_removes],
      [clear_empties_both], [getall_packs_live_pairs], the updates and the
      listing to the exclusion of any other effect on the segment; the pointers it hands
      out: [pointer_survives_one_change], [install_hands_out],
      [cache_never_leaks].
    - The interface: [nvram_set_get_roundtrip], [nvram_null_arguments],
      [valid_key_storable], [parse_int_roundtrip], [parse_int_overflow]; two
      processes: [set_visible_to_next_process].
    - Termination: [lock_terminates].  Every other loop is a structural fold
      or has the source's own bound, so the definitions are total.

    ** Choices

    - Integers are [Z] at the source's width, with the wrap-around written out
      ([u32], [u64], [wadd]); the target is 64-bit and the build a release
      one, where arithmetic wraps.
    - Fuel: [probe_loop] has [MAX_PROBES] rounds and [read_loop] has
      [MAX_SEQ_RETRIES], as in the code.  The two [EINTR] loops are unbounded
      in the code; [lock_terminates] shows that any fuel above the number of
      interruptions gives their result, and no theorem assumes more than that.
      A [digits] printer has ten or twenty digits, enough for its type.
    - Failures: each call consumes one element of the world's fault script, so
      a theorem about every world is about every pattern of failures, short
      writes and interruptions included.
    - Other processes: writers are serialised ([writers_serialised], over the
      system of Locking, where the arguments of the calls and all answers of
      the system are arbitrary) and a segment that nobody is writing to is the
      result of whole operations ([segments_are_serial]), so between two of our
      critical sections it undergoes whole operations ([w_others], and
      [ShmTrace.op]); they take their turn when we take a lock.  [acts w w' o]
      are their operations on object [o] between two worlds, so a theorem can
      say what is left of the segment besides them.  A turn may also finish a
      half-built segment ([Open]), which only a process that attaches to it
      can observe: [attach_accepts_exactly].  Two calls of
      [init] are interleaved step by step in InitThms, a reader and a writer
      access by access in Race.
    - Power loss: the directory remembers its contents since the last flush
      and which files' data are on the device; [survives] is what may be found.
    - A compaction can lose a live key ([WrapLoss]); theorems through a
      compaction that need it not to say so ([no_wrap], [compact_safe]).

    ** Not modelled

    What the survivors make of a segment whose writer was killed inside a
    compaction, a [clear] or the reuse of a tombstone, beyond the next read
    ([killed_anywhere_invents_nothing]); [segments_are_serial] and
    [system_reads_linearizable] are about runs without such deaths, in which a
    copy into or out of the arena is one step (in Race it goes byte by byte).
    Memory fences and orderings weaker than interleaving: every access takes
    effect at once, in program order.  Unmapping, symbolic links, permissions,
    the time a pause takes, what is written to stderr.  Two processes acting on
    the store directory at the same time, other than what a fault script can
    express.  The integration tests (src/tests) were read for what the code is
    meant to do. *)

(** ** This file

    Bytes, machine integers, arrays and the lemmas and tactics the other files
    share. *)

From Stdlib Require Export ZArith Lia.
From stdpp Require Export base numbers gmap list.

#[global] Open Scope Z_scope.

(** * Bytes and machine integers *)

(** A byte string: every element is meant to lie in [0, 256). *)
Abbreviation bytes := (list Z).

(** [x as u32], [x as u64]: truncation to the width. *)
Definition u32 (z : Z) : Z := z mod 2 ^ 32.
Definition u64 (z : Z) : Z := z mod 2 ^ 64.

(** [a + b] on [usize]/[u64] in a release build (64-bit target): it wraps. *)
Definition wadd (a b : Z) : Z := u64 (a + b).

(** [slice.len()] *)
Definition len (bs : bytes) : Z := Z.of_nat (length bs).

(** * Results

    [Result<A, ()>] of the source. *)
Inductive result (A : Type) : Type :=
| Ok (a : A)
| Err.
Arguments Ok {A} a.
Arguments Err {A}.

Definition is_ok {A} (r : result A) : bool :=
  match r with Ok _ => true | Err => false end.

(** [Option::ok_or(())] *)
Definition ok_or {A} (o : option A) : result A :=
  match o with Some a => Ok a | None => Err end.

(** * Zero-filled arrays

    A fixed-size array in freshly truncated shared memory reads zero
    everywhere until written.  It is kept sparsely: an index without a
    binding holds the all-zero element.  Indices out of the array's range are
    never used by the program, which the bounds theorems establish. *)
Section arrays.
Context {A : Type}.

Definition arr_get (d : A) (m : gmap Z A) (i : Z) : A := default d (m !! i).
Definition arr_set (m : gmap Z A) (i : Z) (a : A) : gmap Z A := <[i := a]> m.

Lemma arr_get_set_eq d m i a : arr_get d (arr_set m i a) i = a.
Proof. unfold arr_get, arr_set. by rewrite lookup_insert_eq. Qed.

Lemma arr_get_set_ne d m i j a :
  i <> j -> arr_get d (arr_set m i a) j = arr_get d m j.
Proof. intros H. unfold arr_get, arr_set. by rewrite lookup_insert_ne. Qed.

Lemma arr_get_set d m i j a :
  arr_get d (arr_set m i a) j = if decide (i = j) then a else arr_get d m j.
Proof.
  case_decide as H; [subst; apply arr_get_set_eq | by apply arr_get_set_ne].
Qed.

Lemma arr_get_empty d i : arr_get d ∅ i = d.
Proof. done. Qed.
End arrays.

(** [copy_nonoverlapping] into and out of a byte array. *)
Fixpoint mem_write (m : gmap Z Z) (off : Z) (bs : bytes) : gmap Z Z :=
  match bs with
  | [] => m
  | b :: bs' => mem_write (arr_set m off b) (off + 1) bs'
  end.

Fixpoint mem_read_nat (m : gmap Z Z) (off : Z) (n : nat) : bytes :=
  match n with
  | O => []
  | S n' => arr_get 0 m off :: mem_read_nat m (off + 1) n'
  end.

Definition mem_read (m : gmap Z Z) (off n : Z) : bytes :=
  mem_read_nat m off (Z.to_nat n).

(** * Automation

    [nvram] holds the facts that close the side conditions of the
    components (ranges, lengths); [nvram_simpl] the rewrites that compute
    reads of freshly written cells. *)
Create HintDb nvram.
Create Rewrite HintDb nvram_simpl.

(** Split the conjunctions and existentials of the context. *)
Ltac split_hyps :=
  repeat match goal with
         | H : _ /\ _ |- _ => destruct H
         | H : exists _, _ |- _ => destruct H
         end.

(** Case analysis on the first [if]/[match] scrutinee of the goal or of [H]. *)
Ltac case_if :=
  match goal with
  | |- context [if ?b then _ else _] => destruct b eqn:?
  end.

(** Turn the boolean comparisons of the code into propositions. *)
Ltac bool_to_prop :=
  rewrite ?andb_true_iff, ?andb_false_iff, ?orb_true_iff, ?orb_false_iff,
    ?negb_true_iff, ?negb_false_iff, ?Z.eqb_eq, ?Z.eqb_neq, ?Z.ltb_lt,
    ?Z.ltb_ge, ?Z.leb_le, ?Z.leb_gt, ?Z.gtb_lt, ?Z.geb_le in *.

(** * Lemmas on integers and lengths *)
Lemma len_nonneg bs : 0 <= len bs.
Proof. unfold len. lia. Qed.

Lemma len_nil : len [] = 0.
Proof. done. Qed.

Lemma len_cons b bs : len (b :: bs) = 1 + len bs.
Proof. unfold len. simpl. lia. Qed.

Lemma len_app bs cs : len (bs ++ cs) = len bs + len cs.
Proof. unfold len. rewrite length_app. lia. Qed.

Lemma u64_small z : 0 <= z < 2 ^ 64 -> u64 z = z.
Proof. apply Z.mod_small. Qed.

Lemma u32_small z : 0 <= z < 2 ^ 32 -> u32 z = z.
Proof. apply Z.mod_small. Qed.

Lemma u64_range z : 0 <= u64 z < 2 ^ 64.
Proof. apply Z.mod_pos_bound. lia. Qed.

Lemma u32_range z : 0 <= u32 z < 2 ^ 32.
Proof. apply Z.mod_pos_bound. lia. Qed.

Lemma wadd_small a b : 0 <= a + b < 2 ^ 64 -> wadd a b = a + b.
Proof. apply u64_small. Qed.

#[export] Hint Resolve len_nonneg u64_range u32_range : nvram.
#[export] Hint Rewrite @arr_get_set_eq len_nil len_cons len_app : nvram_simpl.

(** * Lemmas on byte arrays *)
Lemma mem_read_nat_length m off n : length (mem_read_nat m off n) = n.
Proof. revert off; induction n; intros off; simpl; auto. Qed.

Lemma mem_read_len m off n : 0 <= n -> len (mem_read m off n) = n.
Proof. intros H. unfold len, mem_read. rewrite mem_read_nat_length. lia. Qed.

Lemma mem_write_get_out m off bs i :
  i < off \/ off + len bs <= i ->
  arr_get 0 (mem_write m off bs) i = arr_get 0 m i.
Proof.
  revert m off; induction bs as [|b bs IH]; intros m off Hi; [done|].
  rewrite len_cons in Hi. pose proof (len_nonneg bs). simpl.
  rewrite IH by lia. apply arr_get_set_ne. lia.
Qed.

Lemma mem_read_nat_ext m m' off n :
  (forall i, off <= i < off + Z.of_nat n -> arr_get 0 m i = arr_get 0 m' i) ->
  mem_read_nat m off n = mem_read_nat m' off n.
Proof.
  revert off; induction n as [|n IH]; intros off Hext; [done|]. simpl.
  f_equal; [apply Hext; lia | apply IH; intros; apply Hext; lia].
Qed.

Lemma mem_read_ext m m' off n :
  (forall i, off <= i < off + n -> arr_get 0 m i = arr_get 0 m' i) ->
  mem_read m off n = mem_read m' off n.
Proof. intros H. apply mem_read_nat_ext. intros i Hi. apply H. lia. Qed.

(** A write leaves every disjoint region alone. *)
Lemma mem_read_write_disjoint m o bs off n :
  off + n <= o \/ o + len bs <= off ->
  mem_read (mem_write m o bs) off n = mem_read m off n.
Proof.
  intros H. apply mem_read_ext. intros i Hi. apply mem_write_get_out. lia.
Qed.

(** Reading back what was just written. *)
Lemma mem_read_write_same m off bs :
  mem_read (mem_write m off bs) off (len bs) = bs.
Proof.
  unfold mem_read, len. rewrite Nat2Z.id.
  revert m off; induction bs as [|b bs IH]; intros m off; [done|]. simpl.
  f_equal; [|apply IH].
  rewrite mem_write_get_out by lia. apply arr_get_set_eq.
Qed.

Lemma mem_read_zero m off : mem_read m off 0 = [].
Proof. done. Qed.

(** * Membership at the end of a list *)
Lemma elem_snoc_l {A} (x y : A) l : x ∈ l -> x ∈ l ++ [y].
Proof. intros H. apply elem_of_app. by left. Qed.

Lemma elem_snoc_r {A} (y : A) l : y ∈ l ++ [y].
Proof. apply elem_of_app. right. by apply list_elem_of_singleton. Qed.

Lemma elem_snoc {A} (x y : A) l : x ∈ l ++ [y] -> x ∈ l \/ x = y.
Proof. intros [H|H]%elem_of_app; [by left|right]. by apply list_elem_of_singleton. Qed.

Lemma elem_middle {A} (y : A) l1 l2 : y ∈ l1 ++ y :: l2.
Proof. apply elem_of_app. right. apply list_elem_of_here. Qed.

#[export] Hint Resolve elem_snoc_l elem_snoc_r elem_middle : nvram.

(** * [lo..hi], the indices of a [for] loop *)
Fixpoint count (lo : Z) (n : nat) : list Z :=
  match n with O => [] | S n' => lo :: count (lo + 1) n' end.

Definition range (lo hi : Z) : list Z := count lo (Z.to_nat (hi - lo)).

(** stdpp's list has the lemmas; this one is linear in its length. *)
Lemma range_seqZ lo hi : range lo hi = seqZ lo (hi - lo).
Proof.
  unfold range. generalize (hi - lo) as n; intros n. destruct (decide (n < 0)) as [Hn|Hn].
  { rewrite seqZ_nil by lia. by replace (Z.to_nat n) with O by lia. }
  rewrite <- (Z2Nat.id n) at 2 by lia. generalize (Z.to_nat n) as m; clear n Hn; intros m.
  revert lo; induction m as [|m IH]; intros lo; [done|].
  cbn [count]. rewrite (seqZ_cons lo) by lia. rewrite IH. unfold Z.succ.
  by replace (Z.pred (Z.of_nat (S m))) with (Z.of_nat m) by lia.
Qed.

Lemma elem_of_range i lo hi : i ∈ range lo hi <-> lo <= i < hi.
Proof. rewrite range_seqZ, elem_of_seqZ. lia. Qed.

Lemma NoDup_range lo hi : NoDup (range lo hi).
Proof. rewrite range_seqZ. apply NoDup_seqZ. Qed.

Lemma range_lookup lo hi k (y : Z) : range lo hi !! k = Some y -> y = lo + Z.of_nat k.
Proof. rewrite range_seqZ. by intros [-> _]%lookup_seqZ. Qed.

(** * Sums over an index range *)
Definition zsum (f : Z -> Z) (l : list Z) : Z := foldr (fun i a => f i + a) 0 l.

Lemma zsum_ext f g l : (forall i, i ∈ l -> f i = g i) -> zsum f l = zsum g l.
Proof.
  induction l as [|x l IH]; intros H; [done|]. simpl.
  rewrite H by set_solver. f_equal. apply IH. set_solver.
Qed.

Lemma zsum_app f l1 l2 : zsum f (l1 ++ l2) = zsum f l1 + zsum f l2.
Proof. induction l1 as [|x l1 IH]; simpl; lia. Qed.

Lemma zsum_nonneg f l : (forall i, i ∈ l -> 0 <= f i) -> 0 <= zsum f l.
Proof.
  induction l as [|x l IH]; intros H; simpl; [lia|].
  specialize (H x ltac:(set_solver)) as Hx.
  assert (0 <= zsum f l) by (apply IH; set_solver). lia.
Qed.

(** Changing the summand at one index changes the sum by the difference. *)
Lemma zsum_update f g l i :
  NoDup l -> i ∈ l -> (forall j, j ∈ l -> j <> i -> f j = g j) ->
  zsum g l = zsum f l - f i + g i.
Proof.
  induction 1 as [|x l Hx Hnd IH]; [set_solver|]. intros Hi Hext. simpl.
  apply elem_of_cons in Hi as [->|Hi].
  - rewrite (zsum_ext g f l); [lia|]. intros j Hj. symmetry.
    apply Hext; [set_solver|]. intros ->. done.
  - assert (x <> i) by (intros ->; done).
    rewrite (Hext x ltac:(set_solver) ltac:(done)), IH; [lia|done|].
    intros j Hj Hne. apply Hext; [set_solver|done].
Qed.

Lemma zsum_0 f l : (forall i, i ∈ l -> f i = 0) -> zsum f l = 0.
Proof.
  intros H. rewrite (zsum_ext f (fun _ => 0) l H). clear H.
  induction l; simpl; lia.
Qed.
