(* ===== verification/Consts.v ===== *)
(** Compile-time layout and compatibility constants (src/src/consts.rs). *)

From S2P Require Import Prelude.

(** ** ABI *)
Definition E_SUCCESS : Z := 1.
Definition E_FAILURE : Z := 0.
Definition NVRAM_SPACE : Z := 1024 * 1024.
(** ['A' as c_int], ['B' as c_int] *)
Definition IPC_KEY : Z := 65.
Definition COMMIT_IPC_KEY : Z := 66.

(** ** Segment layout *)
Definition SHM_MAGIC : Z := 0x4E56524D.
Definition SHM_VERSION : Z := 2.
Definition REATTACH_INTERVAL : Z := 16.
Definition SLOTS : Z := 4096.
Definition INDEX_SLOTS : Z := 8192.
Definition ARENA_SIZE : Z := NVRAM_SPACE.
Definition COMPACT_GARBAGE_DIVISOR : Z := 4.
Definition MAX_PROBES : Z := 64.
Definition MAX_SEQ_RETRIES : Z := 1000.

(** ** Entry states and flags (src/src/shm.rs) *)
Definition ST_EMPTY : Z := 0.
Definition ST_LIVE : Z := 1.
Definition ST_TOMB : Z := 2.
Definition FL_DIRTY : Z := 1.
