(* ===== verification/Layout.v ===== *)
(** The layout of the mapping, which two builds of the library share.

    [repr(C)] places fields in declaration order, each at the next multiple
    of its alignment, and rounds the size up to the largest alignment. *)

From S2P Require Import Prelude Consts.

Record field := mkField { fd_size : Z; fd_align : Z }.

Definition align_up (o a : Z) : Z := (o + a - 1) / a * a.

(** Offsets of the fields from [o] on, and the end of the last one. *)
Fixpoint place (o : Z) (fs : list field) : list Z * Z :=
  match fs with
  | [] => ([], o)
  | f :: fs' =>
    let o := align_up o (fd_align f) in
    let (os, e) := place (o + fd_size f) fs' in
    (o :: os, e)
  end.

Definition align_of (fs : list field) : Z := foldr (fun f a => Z.max (fd_align f) a) 1 fs.
Definition size_of (fs : list field) : Z := align_up (snd (place 0 fs)) (align_of fs).

Definition u32_field : field := mkField 4 4.
Definition u64_field : field := mkField 8 8.

(** [IndexEntry]: hash; key_off, key_len, val_off, val_len, state, flags. *)
Definition entry_fields : list field :=
  [u64_field; u32_field; u32_field; u32_field; u32_field; u32_field; u32_field].

(** [Header]: magic, version, ready, _pad0; store_dev, arena_seq, global_gen,
    arena_used, arena_garbage, _reserved, _pad1; slots. *)
Definition header_fields : list field :=
  [u32_field; u32_field; u32_field; u32_field;
   u64_field; u64_field; u64_field; u64_field; u64_field; u64_field; u64_field;
   mkField (8 * SLOTS) 8].

Definition HEADER_SIZE : Z := size_of header_fields.
Definition INDEX_SIZE : Z := INDEX_SLOTS * size_of entry_fields.
Definition SEGMENT_SIZE : Z := HEADER_SIZE + INDEX_SIZE + ARENA_SIZE.

(** Byte offset of field [n] of bucket [i], and of arena byte [x]. *)
Definition entry_offset (i : Z) (n : nat) : Z :=
  HEADER_SIZE + i * size_of entry_fields + nth n (fst (place 0 entry_fields)) 0.
Definition arena_offset (x : Z) : Z := HEADER_SIZE + INDEX_SIZE + x.

Lemma entry_places : place 0 entry_fields = ([0; 8; 12; 16; 20; 24; 28], 32).
Proof. reflexivity. Qed.

Lemma header_size : HEADER_SIZE = 72 + SLOTS * 8.
Proof. reflexivity. Qed.

Lemma entry_size : size_of entry_fields = 32.
Proof. reflexivity. Qed.

Lemma entry_offset_cases i n :
  (n < 7)%nat ->
  exists o, entry_offset i n = 32840 + i * 32 + o /\
    (n = 0%nat /\ o = 0 \/ n = 1%nat /\ o = 8 \/ n = 2%nat /\ o = 12 \/ n = 3%nat /\ o = 16 \/
     n = 4%nat /\ o = 20 \/ n = 5%nat /\ o = 24 \/ n = 6%nat /\ o = 28).
Proof.
  intros Hn. eexists. unfold entry_offset. rewrite entry_places, entry_size, header_size.
  split; [reflexivity|]. do 7 (destruct n as [|n]; [simpl; lia|]). lia.
Qed.

(** Consider each field in turn. *)
Ltac case_split H :=
  destruct H as [[-> ->]|[[-> ->]|[[-> ->]|[[-> ->]|[[-> ->]|[[-> ->]|[-> ->]]]]]]];
  cbn [Nat.eqb]; try lia.

(** C38: the layout the compile-time assertions pin: sizes and alignments of
    the two structs, the arena's alignment, and what they are for - every
    field of every bucket lies naturally aligned between the header and the
    arena, no two of them overlap, and every arena byte lies inside the
    mapping. *)
Theorem layout_sound :
  size_of entry_fields = 32 /\ align_of entry_fields = 8 /\
  HEADER_SIZE = 72 + SLOTS * 8 /\ align_of header_fields = 8 /\
  (HEADER_SIZE + INDEX_SIZE) mod 8 = 0 /\
  (forall i n, 0 <= i < INDEX_SLOTS -> (n < 7)%nat ->
     let sz := if (n =? 0)%nat then 8 else 4 in
     HEADER_SIZE <= entry_offset i n /\ entry_offset i n + sz <= HEADER_SIZE + INDEX_SIZE /\
     entry_offset i n mod sz = 0 /\
     forall i' n', 0 <= i' < INDEX_SLOTS -> (n' < 7)%nat ->
       (i, n) <> (i', n') -> entry_offset i n <= entry_offset i' n' ->
       entry_offset i n + sz <= entry_offset i' n') /\
  (forall x, 0 <= x < ARENA_SIZE -> HEADER_SIZE + INDEX_SIZE <= arena_offset x < SEGMENT_SIZE).
Proof.
  split_and!; try reflexivity.
  - intros i n Hi Hn. cbv zeta. destruct (entry_offset_cases i n Hn) as (o & -> & Ho).
    rewrite header_size. unfold INDEX_SIZE. rewrite entry_size.
    unfold SLOTS, INDEX_SLOTS in *. split_and!.
    + case_split Ho.
    + case_split Ho.
    + case_split Ho; Z.div_mod_to_equations; lia.
    + intros i' n' Hi' Hn'. destruct (entry_offset_cases i' n' Hn') as (o' & -> & Ho').
      intros Hne Hle. case_split Ho; case_split Ho';
        (assert (i <> i' \/ i = i') as [|<-] by lia; [lia|]); try lia; by destruct Hne.
  - intros x Hx. unfold arena_offset, SEGMENT_SIZE, INDEX_SIZE.
    rewrite header_size, entry_size. unfold SLOTS, INDEX_SLOTS in *. lia.
Qed.
