(* ===== verification/Hash.v ===== *)
(** The key hash (src/src/hash.rs): FNV-1a's loop over 64-bit words. *)

From S2P Require Import Prelude Consts.

Definition FNV_OFFSET : Z := 0xcbf29ce484222325.
Definition FNV_MULT : Z := 0x1000000001b3.

(** One round: [h ^= b as u64; h = h.wrapping_mul(...)]. *)
Definition fnv_step (h b : Z) : Z := u64 (Z.lxor h b * FNV_MULT).

Definition fnv1a (bs : bytes) : Z :=
  let h := foldl fnv_step FNV_OFFSET bs in
  if h =? 0 then 1 else h.

(** The FNV-1a function as published: the 64-bit FNV prime is 2^40 + 0x1b3. *)
Definition FNV_PRIME_64 : Z := 2 ^ 40 + 0x1b3.
Definition fnv1a_reference (bs : bytes) : Z :=
  foldl (fun h b => u64 (Z.lxor h b * FNV_PRIME_64)) FNV_OFFSET bs.

Lemma fnv_fold_range bs h : 0 <= h < 2 ^ 64 -> 0 <= foldl fnv_step h bs < 2 ^ 64.
Proof.
  revert h; induction bs as [|b bs IH]; intros h Hh; [done|].
  apply IH. apply u64_range.
Qed.

Lemma fnv1a_range bs : 0 < fnv1a bs < 2 ^ 64.
Proof.
  assert (0 <= FNV_OFFSET < 2 ^ 64) as H0 by (unfold FNV_OFFSET; lia).
  pose proof (fnv_fold_range bs FNV_OFFSET H0) as H. unfold fnv1a.
  destruct (Z.eqb_spec (foldl fnv_step FNV_OFFSET bs) 0); lia.
Qed.
#[export] Hint Resolve fnv1a_range : nvram.

(** ** One round loses nothing of the state

    The multiplier is odd, hence invertible modulo 2^64. *)
Definition FNV_MULT_INV : Z := 0xb46dd957aff6957b.

Lemma fnv_mult_inv x : u64 (u64 (x * FNV_MULT) * FNV_MULT_INV) = u64 x.
Proof.
  unfold u64. rewrite Z.mul_mod_idemp_l by lia. rewrite <- Z.mul_assoc.
  rewrite <- (Z.mul_mod_idemp_r x) by lia.
  change ((FNV_MULT * FNV_MULT_INV) mod 2 ^ 64) with 1. by rewrite Z.mul_1_r.
Qed.

Lemma lxor_u64 a b :
  0 <= a < 2 ^ 64 -> 0 <= b < 2 ^ 64 -> u64 (Z.lxor a b) = Z.lxor a b.
Proof.
  intros Ha Hb. unfold u64. apply Z.bits_inj'. intros n Hn.
  rewrite Z.testbit_mod_pow2, Z.lxor_spec by lia.
  destruct (Z.ltb_spec n 64); [done|]. simpl.
  rewrite <- (Z.mod_small a (2 ^ 64)), <- (Z.mod_small b (2 ^ 64)) by lia.
  rewrite !Z.mod_pow2_bits_high by lia. done.
Qed.

Lemma fnv_step_inj h1 h2 b :
  0 <= b < 256 -> 0 <= h1 < 2 ^ 64 -> 0 <= h2 < 2 ^ 64 ->
  fnv_step h1 b = fnv_step h2 b -> h1 = h2.
Proof.
  intros Hb H1 H2 H. unfold fnv_step in H.
  apply (f_equal (fun h => u64 (h * FNV_MULT_INV))) in H.
  rewrite !fnv_mult_inv, !lxor_u64 in H by lia.
  apply (f_equal (fun h => Z.lxor h b)) in H.
  by rewrite !Z.lxor_assoc, Z.lxor_nilpotent, !Z.lxor_0_r in H.
Qed.
