(* ===== verification/Spec.v ===== *)
(** The abstract store the shared segment implements.

    A finite map from keys to what the store remembers of them: a live value
    or a pending deletion, and whether the disk still owes the change. *)

From S2P Require Import Prelude.

Module Spec.

Abbreviation item := (option bytes * bool)%type.
Abbreviation store := (gmap bytes item).

(** The value a reader gets. *)
Definition get (m : store) (key : bytes) : option bytes := m !! key ≫= fst.

(** Does the disk owe a change of [key]? *)
Definition dirty (m : store) (key : bytes) : bool :=
  match m !! key with Some (_, d) => d | None => false end.

(** Storing a value a key already has changes nothing, not even its flag. *)
Definition put (key val : bytes) (d : bool) (m : store) : store :=
  if bool_decide (get m key = Some val) then m
  else <[key := (Some val, d || dirty m key)]> m.

(** A deletion that nothing owes the disk leaves no trace. *)
Definition unset (d : bool) (key : bytes) (m : store) : store :=
  if d || dirty m key then <[key := (None, true)]> m else delete key m.

Definition remove (key : bytes) (d : bool) (m : store) : bool * store :=
  match get m key with
  | Some _ => (true, unset d key m)
  | None => (false, m)
  end.

(** The disk has caught up with [key]. *)
Definition clean (key : bytes) (m : store) : store :=
  partial_alter
    (fun o => match o with Some (Some v, _) => Some (Some v, false) | _ => None end) key m.

(** ** Laws *)
Lemma get_put key val d m : get (put key val d m) key = Some val.
Proof.
  unfold put. case_bool_decide as E; [done|]. unfold get. by rewrite lookup_insert_eq.
Qed.

Lemma get_put_ne key key' val d m : key <> key' -> get (put key val d m) key' = get m key'.
Proof.
  intros H. unfold put. case_bool_decide; [done|]. unfold get. by rewrite lookup_insert_ne.
Qed.

Lemma put_lookup_ne key key' val d m :
  key <> key' -> put key val d m !! key' = m !! key'.
Proof. intros H. unfold put. case_bool_decide; [done|]. by rewrite lookup_insert_ne. Qed.

Lemma dirty_put key val m :
  get m key <> Some val -> dirty (put key val true m) key = true.
Proof.
  intros H. unfold put. rewrite bool_decide_eq_false_2 by done.
  unfold dirty. by rewrite lookup_insert_eq.
Qed.

Lemma get_remove key d m : get (snd (remove key d m)) key = None.
Proof.
  unfold remove. destruct (get m key) eqn:E; [|done]. simpl. unfold unset, get.
  case_match; [by rewrite lookup_insert_eq|by rewrite lookup_delete_eq].
Qed.

Lemma remove_lookup_ne key key' d m :
  key <> key' -> snd (remove key d m) !! key' = m !! key'.
Proof.
  intros H. unfold remove. destruct (get m key); [|done]. simpl. unfold unset.
  case_match; [by rewrite lookup_insert_ne|by rewrite lookup_delete_ne].
Qed.
End Spec.
