(* ===== verification/Segment.v ===== *)
(** The mapped object of src/src/shm.rs and the programs that run on it.

    [Header], [IndexEntry] and [Segment] are the structs of the source.
    Every field of the two structs is an atomic cell, so the code's accesses
    are loads, stores and read-modify-writes of [cell]s, plus the plain
    [copy_nonoverlapping] copies in and out of the byte arena.  A [prog] is a
    sequence of such accesses; [run] executes it with nothing in between,
    which is how a holder of the writer lock sees its own operations. *)

From S2P Require Import Prelude Consts.

(** * The structs *)

Record IndexEntry := mkEntry {
  e_hash : Z;
  e_key_off : Z;
  e_key_len : Z;
  e_val_off : Z;
  e_val_len : Z;
  e_state : Z;
  e_flags : Z
}.

Record Header := mkHeader {
  h_magic : Z;
  h_version : Z;
  h_ready : Z;
  h_store_dev : Z;
  h_arena_seq : Z;
  h_global_gen : Z;
  h_arena_used : Z;
  h_arena_garbage : Z;
  h_slots : gmap Z Z
}.

Record Segment := mkSegment {
  header : Header;
  index : gmap Z IndexEntry;
  arena : gmap Z Z
}.

#[export] Instance IndexEntry_eq_dec : EqDecision IndexEntry.
Proof. solve_decision. Defined.
#[export] Instance Header_eq_dec : EqDecision Header.
Proof. solve_decision. Defined.
#[export] Instance Segment_eq_dec : EqDecision Segment.
Proof. solve_decision. Defined.

(** What [ftruncate] leaves behind: zeroes everywhere. *)
Definition zero_entry : IndexEntry := mkEntry 0 0 0 0 0 0 0.
Definition zero_header : Header := mkHeader 0 0 0 0 0 0 0 0 ∅.
Definition zero_segment : Segment := mkSegment zero_header ∅ ∅.

Definition entry (s : Segment) (i : Z) : IndexEntry := arr_get zero_entry (index s) i.
Definition slot (s : Segment) (i : Z) : Z := arr_get 0 (h_slots (header s)) i.

(** * Atomic cells *)

Inductive cell : Type :=
| CMagic | CVersion | CReady | CStoreDev
| CArenaSeq | CGlobalGen | CArenaUsed | CArenaGarbage
| CSlot (i : Z)
| CHash (i : Z) | CKeyOff (i : Z) | CKeyLen (i : Z)
| CValOff (i : Z) | CValLen (i : Z) | CState (i : Z) | CFlags (i : Z).

#[export] Instance cell_eq_dec : EqDecision cell.
Proof. solve_decision. Defined.

Definition load (c : cell) (s : Segment) : Z :=
  match c with
  | CMagic => h_magic (header s)
  | CVersion => h_version (header s)
  | CReady => h_ready (header s)
  | CStoreDev => h_store_dev (header s)
  | CArenaSeq => h_arena_seq (header s)
  | CGlobalGen => h_global_gen (header s)
  | CArenaUsed => h_arena_used (header s)
  | CArenaGarbage => h_arena_garbage (header s)
  | CSlot i => slot s i
  | CHash i => e_hash (entry s i)
  | CKeyOff i => e_key_off (entry s i)
  | CKeyLen i => e_key_len (entry s i)
  | CValOff i => e_val_off (entry s i)
  | CValLen i => e_val_len (entry s i)
  | CState i => e_state (entry s i)
  | CFlags i => e_flags (entry s i)
  end.

Definition header_store (c : cell) (v : Z) (h : Header) : Header :=
  let '(mkHeader m ve r d a g u gb sl) := h in
  match c with
  | CMagic => mkHeader v ve r d a g u gb sl
  | CVersion => mkHeader m v r d a g u gb sl
  | CReady => mkHeader m ve v d a g u gb sl
  | CStoreDev => mkHeader m ve r v a g u gb sl
  | CArenaSeq => mkHeader m ve r d v g u gb sl
  | CGlobalGen => mkHeader m ve r d a v u gb sl
  | CArenaUsed => mkHeader m ve r d a g v gb sl
  | CArenaGarbage => mkHeader m ve r d a g u v sl
  | CSlot i => mkHeader m ve r d a g u gb (arr_set sl i v)
  | _ => h
  end.

Definition entry_store (c : cell) (v : Z) (e : IndexEntry) : IndexEntry :=
  let '(mkEntry h ko kl vo vl st fl) := e in
  match c with
  | CHash _ => mkEntry v ko kl vo vl st fl
  | CKeyOff _ => mkEntry h v kl vo vl st fl
  | CKeyLen _ => mkEntry h ko v vo vl st fl
  | CValOff _ => mkEntry h ko kl v vl st fl
  | CValLen _ => mkEntry h ko kl vo v st fl
  | CState _ => mkEntry h ko kl vo vl v fl
  | CFlags _ => mkEntry h ko kl vo vl st v
  | _ => e
  end.

(** The bucket a cell belongs to; header cells belong to none. *)
Definition cell_entry (c : cell) : option Z :=
  match c with
  | CHash i | CKeyOff i | CKeyLen i | CValOff i | CValLen i | CState i | CFlags i => Some i
  | _ => None
  end.

Definition store (c : cell) (v : Z) (s : Segment) : Segment :=
  match cell_entry c with
  | Some i => mkSegment (header s) (arr_set (index s) i (entry_store c v (entry s i))) (arena s)
  | None => mkSegment (header_store c v (header s)) (index s) (arena s)
  end.

Definition arena_write (off : Z) (bs : bytes) (s : Segment) : Segment :=
  mkSegment (header s) (index s) (mem_write (arena s) off bs).

(** * Programs over the segment *)

Inductive prog (A : Type) : Type :=
| PRet (a : A)
| PLoad (c : cell) (k : Z -> prog A)
| PStore (c : cell) (v : Z) (k : prog A)
| PRmw (c : cell) (f : Z -> Z) (k : Z -> prog A)
| PRead (off n : Z) (k : bytes -> prog A)
| PWrite (off : Z) (bs : bytes) (k : prog A).
Arguments PRet {A} a.
Arguments PLoad {A} c k.
Arguments PStore {A} c v k.
Arguments PRmw {A} c f k.
Arguments PRead {A} off n k.
Arguments PWrite {A} off bs k.

Fixpoint bind {A B} (m : prog A) (f : A -> prog B) : prog B :=
  match m with
  | PRet a => f a
  | PLoad c k => PLoad c (fun v => bind (k v) f)
  | PStore c v k => PStore c v (bind k f)
  | PRmw c g k => PRmw c g (fun v => bind (k v) f)
  | PRead off n k => PRead off n (fun b => bind (k b) f)
  | PWrite off bs k => PWrite off bs (bind k f)
  end.

Definition ret {A} (a : A) : prog A := PRet a.
Definition loadc (c : cell) : prog Z := PLoad c PRet.
Definition storec (c : cell) (v : Z) : prog unit := PStore c v (PRet tt).
(** [fetch_add], [fetch_or], [fetch_and]: one atomic access, the old value
    comes back. *)
Definition rmwc (c : cell) (f : Z -> Z) : prog Z := PRmw c f PRet.
Definition read_bytes (off n : Z) : prog bytes := PRead off n PRet.
Definition write_bytes (off : Z) (bs : bytes) : prog unit := PWrite off bs (PRet tt).

Declare Scope prog_scope.
Delimit Scope prog_scope with prog.
#[global] Open Scope prog_scope.

Notation "'let!' x ':=' m 'in' k" := (bind m (fun x => k))
  (at level 10, x binder, m at level 100, k at level 200) : prog_scope.
Notation "m ';!' k" := (bind m (fun _ => k))
  (at level 100, k at level 200, right associativity) : prog_scope.

(** [for x in l { body(x) }] *)
Fixpoint forM {X} (l : list X) (body : X -> prog unit) : prog unit :=
  match l with
  | [] => ret tt
  | x :: l' => body x ;! forM l' body
  end.

(** A loop that carries an accumulator. *)
Fixpoint foldM {X St} (l : list X) (st : St) (body : X -> St -> prog St) : prog St :=
  match l with
  | [] => ret st
  | x :: l' => let! st' := body x st in foldM l' st' body
  end.

(** Execution without interference. *)
Fixpoint run {A} (p : prog A) (s : Segment) : A * Segment :=
  match p with
  | PRet a => (a, s)
  | PLoad c k => run (k (load c s)) s
  | PStore c v k => run k (store c v s)
  | PRmw c f k => run (k (load c s)) (store c (f (load c s)) s)
  | PRead off n k => run (k (mem_read (arena s) off n)) s
  | PWrite off bs k => run k (arena_write off bs s)
  end.

(** * Laws of the memory and of [run] *)

Lemma entry_store_cell c v s i :
  entry (store c v s) i =
    if decide (cell_entry c = Some i) then entry_store c v (entry s i) else entry s i.
Proof.
  unfold store. destruct (cell_entry c) as [j|] eqn:Hc; [|by rewrite decide_False].
  unfold entry; simpl. rewrite arr_get_set.
  destruct (decide (j = i)) as [->|Hne]; [by rewrite decide_True|].
  rewrite decide_False; [done|]. congruence.
Qed.

Lemma slot_store_entry c v s i j : cell_entry c = Some i -> slot (store c v s) j = slot s j.
Proof. intros H. unfold store. by rewrite H. Qed.

Lemma header_store_entry c v s i : cell_entry c = Some i -> header (store c v s) = header s.
Proof. intros H. unfold store. by rewrite H. Qed.

Lemma arena_store c v s : arena (store c v s) = arena s.
Proof. unfold store. by destruct (cell_entry c). Qed.

Lemma run_bind {A B} (m : prog A) (f : A -> prog B) s :
  run (bind m f) s = run (f (fst (run m s))) (snd (run m s)).
Proof. revert s; induction m; intros s; simpl; auto. Qed.

Lemma bind_ret_r {A} (m : prog A) s : run (bind m PRet) s = run m s.
Proof. rewrite run_bind. simpl. by destruct (run m s). Qed.

Lemma run_ret {A} (a : A) s : run (ret a) s = (a, s).
Proof. done. Qed.
Lemma run_loadc c s : run (loadc c) s = (load c s, s).
Proof. done. Qed.
Lemma run_storec c v s : run (storec c v) s = (tt, store c v s).
Proof. done. Qed.
Lemma run_rmwc c f s : run (rmwc c f) s = (load c s, store c (f (load c s)) s).
Proof. done. Qed.
Lemma run_read_bytes off n s : run (read_bytes off n) s = (mem_read (arena s) off n, s).
Proof. done. Qed.
Lemma run_write_bytes off bs s : run (write_bytes off bs) s = (tt, arena_write off bs s).
Proof. done. Qed.

#[global] Arguments run : simpl never.
#[global] Arguments bind : simpl never.
#[global] Arguments ret : simpl never.
#[global] Arguments store : simpl never.

#[export] Hint Rewrite @run_bind @run_ret run_loadc run_storec run_rmwc
  run_read_bytes run_write_bytes : nvram_simpl.

(** Push [run] through the straight-line part of a program. *)
Ltac run_simpl :=
  repeat (first
    [ rewrite run_bind | rewrite run_ret | rewrite run_loadc | rewrite run_storec
    | rewrite run_rmwc | rewrite run_read_bytes | rewrite run_write_bytes ];
    cbn [fst snd]).

Lemma run_forM_cons {X} x (l : list X) body s :
  run (forM (x :: l) body) s = run (forM l body) (snd (run (body x) s)).
Proof. simpl. by rewrite run_bind. Qed.

Lemma run_foldM_cons {X St} x (l : list X) (st : St) body s :
  run (foldM (x :: l) st body) s =
    run (foldM l (fst (run (body x st) s)) body) (snd (run (body x st) s)).
Proof. simpl. by rewrite run_bind. Qed.

(** A loop whose rounds leave the segment alone is a fold. *)
Lemma run_foldM_pure {X St} (l : list X) (st : St) body (f : X -> St -> St) s :
  (forall x st, x ∈ l -> run (body x st) s = (f x st, s)) ->
  run (foldM l st body) s = (foldl (fun st x => f x st) st l, s).
Proof.
  revert st; induction l as [|x l IH]; intros st H; [done|].
  rewrite run_foldM_cons, H by set_solver. simpl. apply IH. set_solver.
Qed.

(** Induction over a loop: [P] holds of the visited prefix. *)
Lemma run_forM_ind {X} (P : list X -> Segment -> Prop) (l : list X) body s :
  P [] s ->
  (forall pre x post s, l = pre ++ x :: post -> P pre s ->
    P (pre ++ [x]) (snd (run (body x) s))) ->
  P l (snd (run (forM l body) s)).
Proof.
  intros H0 Hstep.
  assert (forall post pre s, l = pre ++ post -> P pre s ->
            P l (snd (run (forM post body) s))) as Hgen.
  { clear s H0. induction post as [|x post IH]; intros pre s Hl HP.
    - rewrite app_nil_r in Hl. by subst.
    - rewrite run_forM_cons. apply (IH (pre ++ [x])).
      + by rewrite <- app_assoc.
      + by apply (Hstep pre x post). }
  by apply (Hgen l []).
Qed.
