(* ===== verification/Shm.v ===== *)
(** The operations of [Segment] (src/src/shm.rs), one definition per method,
    as programs over the mapped object.  The callers hold the writer lock
    except where said; fences are no steps of their own in this model. *)

From S2P Require Import Prelude Consts Hash Segment.

(** * Accessors *)

Definition slot_of (hash : Z) : Z := Z.land hash (SLOTS - 1).

Definition slot_value (slot : Z) : prog Z := loadc (CSlot slot).

(** The buckets in the order [self.index().iter()] visits them. *)
Definition buckets : list Z := range 0 INDEX_SLOTS.
Definition slots : list Z := range 0 SLOTS.

(** [flags & FL_DIRTY != 0] *)
Definition has_dirty (flags : Z) : bool := negb (Z.land flags FL_DIRTY =? 0).

(** * Arena access *)

Definition arena_slice (off ln : Z) : prog (option bytes) :=
  if (ARENA_SIZE <? off) || (ARENA_SIZE <? ln) || (ARENA_SIZE <? wadd off ln)
  then ret None
  else let! out := read_bytes off ln in ret (Some out).

Definition arena_eq (off ln : Z) (want : bytes) : prog bool :=
  if negb (ln =? len want) || (ARENA_SIZE <? off) || (ARENA_SIZE <? wadd off ln)
  then ret false
  else let! have := read_bytes off ln in ret (bool_decide (have = want)).

Definition arena_alloc (bs : bytes) : prog (option Z) :=
  let! used := loadc CArenaUsed in
  let need := len bs in
  if ARENA_SIZE <? wadd used need then ret None
  else
    write_bytes used bs ;!
    storec CArenaUsed (wadd used need) ;!
    ret (Some (u32 used)).

(** * Index probe *)

(** The loop of [probe] from its [j]-th round on, [n] rounds left. *)
Fixpoint probe_loop (key : bytes) (hash start : Z) (free : option Z) (j : Z) (n : nat)
    : prog (option (Z * bool)) :=
  match n with
  | O => ret ((fun i => (i, false)) <$> free)
  | S n' =>
    let i := (start + j) mod INDEX_SLOTS in
    let! state := loadc (CState i) in
    if state =? ST_EMPTY then ret (Some (default i free, false))
    else
      let! h := loadc (CHash i) in
      let! eq :=
        if h =? hash then
          let! ko := loadc (CKeyOff i) in
          let! kl := loadc (CKeyLen i) in
          arena_eq ko kl key
        else ret false in
      if (eq : bool) then ret (Some (i, true))
      else
        let! free' :=
          if (state =? ST_TOMB) && bool_decide (free = None) then
            let! flags := loadc (CFlags i) in
            ret (if has_dirty flags then free else Some i)
          else ret free in
        probe_loop key hash start free' (j + 1) n'
  end.

Definition probe (key : bytes) (hash : Z) : prog (option (Z * bool)) :=
  probe_loop key hash (hash mod INDEX_SLOTS) None 0 (Z.to_nat MAX_PROBES).

(** * Read path *)

Inductive Read : Type :=
| Value (v : bytes)
| Absent
| Torn.

Definition is_odd (v : Z) : bool := Z.land v 1 =? 1.

(** Lock-free: the caller holds nothing. *)
Definition read_value (key : bytes) (hash : Z) : prog Read :=
  let slot := slot_of hash in
  let! s1 := loadc (CSlot slot) in
  let! a1 := loadc CArenaSeq in
  if is_odd s1 || is_odd a1 then ret Torn
  else
    let! found := probe key hash in
    let! out :=
      match found with
      | Some (i, true) =>
        let! state := loadc (CState i) in
        if state =? ST_LIVE then
          let! vo := loadc (CValOff i) in
          let! vl := loadc (CValLen i) in
          let! r := arena_slice vo vl in
          ret (match r with Some v => Value v | None => Torn end)
        else ret Absent
      | _ => ret Absent
      end in
    match out with
    | Torn => ret Torn
    | _ =>
      let! s2 := loadc (CSlot slot) in
      let! a2 := loadc CArenaSeq in
      if negb (s1 =? s2) || negb (a1 =? a2) then ret Torn else ret out
    end.

(** * Sequence counters *)

Definition next_odd (v : Z) : Z := Z.lor (wadd v 1) 1.
Definition next_even (v : Z) : Z := wadd (Z.lor v 1) 1.

Definition seq_begin (slot : Z) : prog unit :=
  let! v := loadc (CSlot slot) in
  storec (CSlot slot) (next_odd v).

Definition seq_end (slot : Z) : prog unit :=
  let! v := loadc (CSlot slot) in
  storec (CSlot slot) (next_even v) ;!
  rmwc CGlobalGen (fun g => wadd g 1) ;!
  ret tt.

Definition arena_begin : prog unit :=
  let! v := loadc CArenaSeq in
  storec CArenaSeq (next_odd v).

Definition arena_end : prog unit :=
  let! v := loadc CArenaSeq in
  storec CArenaSeq (next_even v).

Definition repair_cell (c : cell) (repaired : bool) : prog bool :=
  let! v := loadc c in
  if is_odd v then storec c (next_even v) ;! ret true else ret repaired.

Definition repair_seq (slot : Z) : prog bool :=
  foldM [CSlot slot; CArenaSeq] false repair_cell.

Definition poison_slot (hash : Z) : prog unit :=
  let! v := loadc (CSlot (slot_of hash)) in
  storec (CSlot (slot_of hash)) (Z.lor v 1).

(** * Housekeeping *)

(** The stores that reset one bucket, in [compact] and in [clear]. *)
Definition wipe_entry (i : Z) : prog unit :=
  storec (CState i) ST_EMPTY ;!
  storec (CHash i) 0 ;!
  storec (CFlags i) 0 ;!
  storec (CKeyOff i) 0 ;!
  storec (CKeyLen i) 0 ;!
  storec (CValOff i) 0 ;!
  storec (CValLen i) 0.

Definition wipe : prog unit :=
  forM buckets wipe_entry ;!
  storec CArenaUsed 0 ;!
  storec CArenaGarbage 0.

Record Keep := mkKeep {
  k_key : bytes;
  k_val : option bytes;
  k_flags : Z
}.

(** One round of the snapshot loop of [compact]. *)
Definition keep_entry (i : Z) (keep : list Keep) : prog (list Keep) :=
  let! state := loadc (CState i) in
  if state =? ST_EMPTY then ret keep
  else
    let! flags := loadc (CFlags i) in
    if (state =? ST_TOMB) && negb (has_dirty flags) then ret keep
    else
      let! ko := loadc (CKeyOff i) in
      let! kl := loadc (CKeyLen i) in
      let! key := arena_slice ko kl in
      match key with
      | None => ret keep
      | Some key =>
        let! val :=
          if state =? ST_LIVE then
            let! vo := loadc (CValOff i) in
            let! vl := loadc (CValLen i) in
            arena_slice vo vl
          else ret None in
        ret (keep ++ [mkKeep key val flags])
      end.

(** One round of the re-insertion loop of [compact]. *)
Definition reinsert (k : Keep) : prog unit :=
  let hash := fnv1a (k_key k) in
  let! r := probe (k_key k) hash in
  match r with
  | None => ret tt
  | Some (i, _) =>
    let! ko := arena_alloc (k_key k) in
    match ko with
    | None => ret tt
    | Some key_off =>
      storec (CKeyOff i) key_off ;!
      storec (CKeyLen i) (u32 (len (k_key k))) ;!
      storec (CHash i) hash ;!
      storec (CFlags i) (k_flags k) ;!
      match k_val k with
      | Some v =>
        let! vo := arena_alloc v in
        match vo with
        | None => ret tt
        | Some val_off =>
          storec (CValOff i) val_off ;!
          storec (CValLen i) (u32 (len v)) ;!
          storec (CState i) ST_LIVE
        end
      | None =>
        storec (CValOff i) 0 ;!
        storec (CValLen i) 0 ;!
        storec (CState i) ST_TOMB
      end
    end
  end.

Definition compact : prog unit :=
  let! keep := foldM buckets [] keep_entry in
  arena_begin ;!
  wipe ;!
  forM keep reinsert ;!
  arena_end.

Definition ensure_space (need : Z) : prog (result unit) :=
  let! used := loadc CArenaUsed in
  if wadd used need <=? ARENA_SIZE then
    let! garbage := loadc CArenaGarbage in
    (if ARENA_SIZE / COMPACT_GARBAGE_DIVISOR <? garbage then compact else ret tt) ;!
    ret (Ok tt)
  else
    compact ;!
    let! used := loadc CArenaUsed in
    ret (if ARENA_SIZE <? wadd used need then Err else Ok tt).

(** Empty the store completely. *)
Definition clear : prog unit :=
  arena_begin ;!
  wipe ;!
  arena_end ;!
  forM slots (fun i => let! v := loadc (CSlot i) in storec (CSlot i) (next_even v)) ;!
  rmwc CGlobalGen (fun g => wadd g 1) ;!
  ret tt.

(** * Write path *)

Definition put_locked (i : Z) (found : bool) (key val : bytes) (hash : Z) (dirty : bool)
    : prog (result unit) :=
  let! vo := arena_alloc val in
  match vo with
  | None => ret Err
  | Some val_off =>
    let! r :=
      if found then
        let! state := loadc (CState i) in
        (if state =? ST_LIVE then
           let! vl := loadc (CValLen i) in
           rmwc CArenaGarbage (fun g => wadd g vl) ;! ret tt
         else ret tt) ;!
        ret (Ok tt)
      else
        let! ko := arena_alloc key in
        match ko with
        | None => ret Err
        | Some key_off =>
          storec (CKeyOff i) key_off ;!
          storec (CKeyLen i) (u32 (len key)) ;!
          storec (CHash i) hash ;!
          ret (Ok tt)
        end in
    match r with
    | Err => ret Err
    | Ok _ =>
      storec (CValLen i) 0 ;!
      storec (CValOff i) val_off ;!
      storec (CValLen i) (u32 (len val)) ;!
      (if dirty then rmwc (CFlags i) (fun f => Z.lor f FL_DIRTY) ;! ret tt else ret tt) ;!
      storec (CState i) ST_LIVE ;!
      ret (Ok tt)
    end
  end.

(** Does the segment already hold exactly this value?  The test [put] opens
    with. *)
Definition holds_value (key val : bytes) (hash : Z) : prog bool :=
  let! r := probe key hash in
  match r with
  | Some (i, true) =>
    let! state := loadc (CState i) in
    if state =? ST_LIVE then
      let! vo := loadc (CValOff i) in
      let! vl := loadc (CValLen i) in
      arena_eq vo vl val
    else ret false
  | _ => ret false
  end.

Definition put (key val : bytes) (dirty : bool) : prog (result unit) :=
  let hash := fnv1a key in
  let slot := slot_of hash in
  let! same := holds_value key val hash in
  if (same : bool) then ret (Ok tt)
  else
    let! space := ensure_space (wadd (len key) (len val)) in
    match space with
    | Err => ret Err
    | Ok _ =>
      let! r := probe key hash in
      match r with
      | None => ret Err
      | Some (i, found) =>
        seq_begin slot ;!
        let! res := put_locked i found key val hash dirty in
        seq_end slot ;!
        ret res
      end
    end.

Definition remove (key : bytes) (dirty : bool) : prog bool :=
  let hash := fnv1a key in
  let slot := slot_of hash in
  let! r := probe key hash in
  match r with
  | None | Some (_, false) => ret false
  | Some (i, true) =>
    let! state := loadc (CState i) in
    if negb (state =? ST_LIVE) then ret false
    else
      seq_begin slot ;!
      let! vl := loadc (CValLen i) in
      rmwc CArenaGarbage (fun g => wadd g vl) ;!
      storec (CValLen i) 0 ;!
      (if dirty then rmwc (CFlags i) (fun f => Z.lor f FL_DIRTY) ;! ret tt else ret tt) ;!
      storec (CState i) ST_TOMB ;!
      seq_end slot ;!
      ret true
  end.

(** * Enumeration *)

(** The callback of [for_each_live] is [f], its captured state [St]. *)
Definition visit_live {St} (f : bytes -> bytes -> St -> St) (i : Z) (st : St) : prog St :=
  let! state := loadc (CState i) in
  if negb (state =? ST_LIVE) then ret st
  else
    let! ko := loadc (CKeyOff i) in
    let! kl := loadc (CKeyLen i) in
    let! key := arena_slice ko kl in
    match key with
    | None => ret st
    | Some key =>
      let! vo := loadc (CValOff i) in
      let! vl := loadc (CValLen i) in
      let! val := arena_slice vo vl in
      ret (match val with None => st | Some val => f key val st end)
    end.

Definition for_each_live {St} (f : bytes -> bytes -> St -> St) (st : St) : prog St :=
  foldM buckets st (visit_live f).

(** * Commit *)

Record Pending := mkPending {
  p_key : bytes;
  p_val : option bytes;
  p_hash : Z;
  p_seen : Z
}.

(** One round of [commit_snapshot]; [needs_write] is the caller's question to
    the disk about a clean key. *)
Definition snapshot_entry (needs_write : bytes -> Z -> bool) (i : Z) (out : list Pending)
    : prog (list Pending) :=
  let! state := loadc (CState i) in
  if state =? ST_EMPTY then ret out
  else
    let! flags := loadc (CFlags i) in
    let dirty := has_dirty flags in
    if (state =? ST_TOMB) && negb dirty then ret out
    else
      let! ko := loadc (CKeyOff i) in
      let! kl := loadc (CKeyLen i) in
      let! key := arena_slice ko kl in
      match key with
      | None => ret out
      | Some key =>
        let hash := fnv1a key in
        let! seen := slot_value (slot_of hash) in
        if state =? ST_LIVE then
          let! vl := loadc (CValLen i) in
          if negb dirty && negb (needs_write key vl) then ret out
          else
            let! vo := loadc (CValOff i) in
            let! val := arena_slice vo vl in
            ret (match val with
                 | None => out
                 | Some v => out ++ [mkPending key (Some v) hash seen]
                 end)
        else ret (out ++ [mkPending key None hash seen])
      end.

Definition commit_snapshot (needs_write : bytes -> Z -> bool) : prog (list Pending) :=
  foldM buckets [] (snapshot_entry needs_write).

(** [!FL_DIRTY] on 32 bits. *)
Definition NOT_FL_DIRTY : Z := 2 ^ 32 - 1 - FL_DIRTY.

Definition writeback_one (p : Pending) : prog unit :=
  let! now := slot_value (slot_of (p_hash p)) in
  if negb (now =? p_seen p) then ret tt
  else
    let! r := probe (p_key p) (p_hash p) in
    match r with
    | Some (i, true) => rmwc (CFlags i) (fun f => Z.land f NOT_FL_DIRTY) ;! ret tt
    | _ => ret tt
    end.

Definition commit_writeback (done : list Pending) : prog unit := forM done writeback_one.
