(* ===== verification/ShmInv.v ===== *)
(** What a consistent segment is, and what it means.

    [wf] is the invariant every operation on the segment preserves; [view]
    is the map the segment stands for: the live keys with their values, and
    the pending deletions, each with its dirty flag. *)

From S2P Require Import Prelude Consts Hash Segment Shm.

(** * Reading a segment *)

Definition used (s : Segment) : Z := h_arena_used (header s).
Definition garbage (s : Segment) : Z := h_arena_garbage (header s).

Definition state_of (s : Segment) (i : Z) : Z := e_state (entry s i).

Definition key_of (s : Segment) (i : Z) : bytes :=
  mem_read (arena s) (e_key_off (entry s i)) (e_key_len (entry s i)).
Definition val_of (s : Segment) (i : Z) : bytes :=
  mem_read (arena s) (e_val_off (entry s i)) (e_val_len (entry s i)).

Definition in_index (i : Z) : Prop := 0 <= i < INDEX_SLOTS.

(** The [j]-th bucket a lookup of [key] visits. *)
Definition probe_at (key : bytes) (j : Z) : Z :=
  (fnv1a key mod INDEX_SLOTS + j) mod INDEX_SLOTS.

(** What bucket [i] tells about its key: a live value or a pending deletion.
    A committed deletion tells nothing. *)
Abbreviation item := (option bytes * bool)%type.

Definition record (s : Segment) (i : Z) : option (bytes * item) :=
  let e := entry s i in
  if e_state e =? ST_LIVE then
    Some (key_of s i, (Some (val_of s i), has_dirty (e_flags e)))
  else if (e_state e =? ST_TOMB) && has_dirty (e_flags e) then
    Some (key_of s i, (None, true))
  else None.

Definition view (s : Segment) : gmap bytes item :=
  list_to_map (omap (record s) buckets).

(** Arena bytes bucket [i] refers to. *)
Definition footprint (s : Segment) (i : Z) : Z :=
  let e := entry s i in
  (if e_state e =? ST_EMPTY then 0 else e_key_len e) +
  (if e_state e =? ST_LIVE then e_val_len e else 0).

(** * The invariant *)

Record entry_ok (s : Segment) (i : Z) : Prop := mk_entry_ok {
  ok_state : state_of s i = ST_EMPTY \/ state_of s i = ST_LIVE \/ state_of s i = ST_TOMB;
  ok_flags : e_flags (entry s i) = 0 \/ e_flags (entry s i) = FL_DIRTY;
  ok_empty : state_of s i = ST_EMPTY -> e_flags (entry s i) = 0;
  ok_key : state_of s i <> ST_EMPTY ->
    0 <= e_key_off (entry s i) /\ 0 <= e_key_len (entry s i) /\
    e_key_off (entry s i) + e_key_len (entry s i) <= used s;
  ok_hash : state_of s i <> ST_EMPTY -> e_hash (entry s i) = fnv1a (key_of s i);
  ok_val : state_of s i = ST_LIVE ->
    0 <= e_val_off (entry s i) /\ 0 <= e_val_len (entry s i) /\
    e_val_off (entry s i) + e_val_len (entry s i) <= used s
}.

(** Bucket [i] is one a lookup of [key] reaches. *)
Definition reachable (s : Segment) (key : bytes) (i : Z) : Prop :=
  exists j, 0 <= j < MAX_PROBES /\ i = probe_at key j /\
    forall j', 0 <= j' < j -> state_of s (probe_at key j') <> ST_EMPTY.

(** The counter of garbage bytes only tells when to compact; nothing relies on
    its value, which a writer killed in an update leaves too high. *)
Record wf (s : Segment) : Prop := mk_wf {
  wf_used : 0 <= used s <= ARENA_SIZE;
  wf_account : zsum (footprint s) buckets <= used s;
  wf_entry : forall i, in_index i -> entry_ok s i;
  wf_chain : forall i, in_index i -> state_of s i <> ST_EMPTY -> reachable s (key_of s i) i;
  wf_unique : forall i j, in_index i -> in_index j ->
    state_of s i <> ST_EMPTY -> state_of s j <> ST_EMPTY ->
    key_of s i = key_of s j -> i = j
}.

(** No bucket holds [key]. *)
Definition no_key (s : Segment) (key : bytes) : Prop :=
  forall i, in_index i -> state_of s i <> ST_EMPTY -> key_of s i <> key.

(** A bucket [put] may take for a new key. *)
Definition claimable (s : Segment) (i : Z) : Prop :=
  state_of s i = ST_EMPTY \/
  (state_of s i = ST_TOMB /\ has_dirty (e_flags (entry s i)) = false).

(** * Facts about buckets and flags *)

Lemma buckets_in i : i ∈ buckets <-> in_index i.
Proof. apply elem_of_range. Qed.

Lemma buckets_NoDup : NoDup buckets.
Proof. apply NoDup_range. Qed.

Lemma probe_at_range key j : in_index (probe_at key j).
Proof. unfold in_index, probe_at. apply Z.mod_pos_bound. unfold INDEX_SLOTS. lia. Qed.

Lemma buckets_lookup k (y : Z) : buckets !! k = Some y -> y = Z.of_nat k.
Proof. apply (range_lookup 0 INDEX_SLOTS). Qed.

(** The list of all 8192 buckets is only used through the facts above. *)
#[global] Opaque buckets.

(** Within the probe window no bucket is visited twice. *)
Lemma probe_at_inj key j j' :
  0 <= j < MAX_PROBES -> 0 <= j' < MAX_PROBES -> probe_at key j = probe_at key j' -> j = j'.
Proof.
  unfold probe_at, MAX_PROBES, INDEX_SLOTS. intros H H' E.
  pose proof (Z.mod_pos_bound (fnv1a key) 8192 ltac:(lia)).
  pose proof (Z.div_mod (fnv1a key mod 8192 + j) 8192 ltac:(lia)).
  pose proof (Z.div_mod (fnv1a key mod 8192 + j') 8192 ltac:(lia)). lia.
Qed.

Lemma has_dirty_0 : has_dirty 0 = false.
Proof. done. Qed.
Lemma has_dirty_1 : has_dirty FL_DIRTY = true.
Proof. done. Qed.

#[export] Hint Resolve probe_at_range : nvram.
#[export] Hint Rewrite has_dirty_0 has_dirty_1 : nvram_simpl.

Lemma record_key s i k r : record s i = Some (k, r) -> key_of s i = k.
Proof. unfold record. repeat case_match; naive_solver. Qed.

Lemma record_nonempty s i k r : record s i = Some (k, r) -> state_of s i <> ST_EMPTY.
Proof.
  unfold record, state_of. intros H E. rewrite E in H. done.
Qed.

Lemma record_empty s i : state_of s i = ST_EMPTY -> record s i = None.
Proof. unfold record, state_of. by intros ->. Qed.

Lemma record_claimable s i : claimable s i -> record s i = None.
Proof.
  intros [H|[H D]]; [by apply record_empty|].
  unfold record, state_of in *. by rewrite H, D.
Qed.

(** * The view through its records *)

Lemma records_NoDup s : wf s -> NoDup (omap (record s) buckets).*1.
Proof.
  intros Hwf.
  assert (forall l, NoDup l -> (forall i, i ∈ l -> in_index i) ->
            NoDup (omap (record s) l).*1) as Hgen.
  { induction 1 as [|i l Hi Hnd IH]; intros Hin; [constructor|]. simpl.
    destruct (record s i) as [[k r]|] eqn:E; [|apply IH; set_solver].
    simpl. constructor; [|apply IH; set_solver].
    intros Hk. apply list_elem_of_fmap in Hk as ([k' r'] & -> & Hk).
    apply list_elem_of_omap in Hk as (j & Hj & Ej). simpl in *.
    apply Hi. replace i with j; [done|].
    apply (wf_unique s Hwf); [apply Hin; set_solver..| | |].
    - by eapply record_nonempty.
    - by eapply record_nonempty.
    - apply record_key in E, Ej. congruence. }
  apply Hgen; [apply buckets_NoDup|]. intros i. apply buckets_in.
Qed.

(** The view has exactly the records of the buckets. *)
Lemma view_lookup s k r :
  wf s -> view s !! k = Some r <-> exists i, in_index i /\ record s i = Some (k, r).
Proof.
  intros Hwf. unfold view.
  rewrite <- elem_of_list_to_map by by apply records_NoDup.
  rewrite list_elem_of_omap. split; intros (i & Hi & E); exists i; split; auto.
  - by apply buckets_in.
  - by apply buckets_in.
Qed.

Lemma view_none s k :
  wf s -> no_key s k -> view s !! k = None.
Proof.
  intros Hwf Hk. destruct (view s !! k) eqn:E; [|done].
  apply view_lookup in E as (i & Hi & E); [|done].
  exfalso. eapply (Hk i); eauto using record_nonempty, record_key.
Qed.

(** The bucket that holds a key decides what the view says about it. *)
Lemma view_at s i :
  wf s -> in_index i -> state_of s i <> ST_EMPTY ->
  view s !! key_of s i = snd <$> record s i.
Proof.
  intros Hwf Hi Hne. destruct (record s i) as [[k r]|] eqn:E; simpl.
  - apply view_lookup; [done|]. exists i. split; [done|].
    rewrite E. f_equal. f_equal. by apply record_key in E.
  - destruct (view s !! key_of s i) eqn:V; [|done].
    apply view_lookup in V as (j & Hj & V); [|done].
    assert (j = i) as ->; [|congruence].
    apply (wf_unique s Hwf); eauto using record_nonempty, record_key.
Qed.

(** * Reading through the writes of a program *)

Lemma entry_store_same c v s i :
  cell_entry c = Some i -> entry (store c v s) i = entry_store c v (entry s i).
Proof. intros H. by rewrite entry_store_cell, decide_True. Qed.

Lemma entry_store_other c v s i :
  cell_entry c <> Some i -> entry (store c v s) i = entry s i.
Proof. intros H. by rewrite entry_store_cell, decide_False. Qed.

Lemma used_store c v s : c <> CArenaUsed -> used (store c v s) = used s.
Proof.
  intros H. unfold used, store. destruct (header s) eqn:E.
  destruct c; simpl; rewrite ?E; done.
Qed.

Lemma used_store_same v s : used (store CArenaUsed v s) = v.
Proof. unfold used, store. simpl. by destruct (header s). Qed.

Lemma garbage_store c v s : c <> CArenaGarbage -> garbage (store c v s) = garbage s.
Proof.
  intros H. unfold garbage, store. destruct (header s) eqn:E.
  destruct c; simpl; rewrite ?E; done.
Qed.

Lemma garbage_store_same v s : garbage (store CArenaGarbage v s) = v.
Proof. unfold garbage, store. simpl. by destruct (header s). Qed.

Lemma slot_store c v s i : c <> CSlot i -> slot (store c v s) i = slot s i.
Proof.
  intros H. unfold slot, store. destruct (header s) eqn:E.
  destruct c as [| | | | | | | |j| | | | | | |]; simpl; rewrite ?E; try done.
  simpl. apply arr_get_set_ne. congruence.
Qed.

Lemma slot_store_same v s i : slot (store (CSlot i) v s) i = v.
Proof. unfold slot, store. simpl. destruct (header s). simpl. apply arr_get_set_eq. Qed.

Lemma entry_arena_write off bs s i : entry (arena_write off bs s) i = entry s i.
Proof. done. Qed.
Lemma used_arena_write off bs s : used (arena_write off bs s) = used s.
Proof. done. Qed.
Lemma garbage_arena_write off bs s : garbage (arena_write off bs s) = garbage s.
Proof. done. Qed.
Lemma slot_arena_write off bs s i : slot (arena_write off bs s) i = slot s i.
Proof. done. Qed.
Lemma arena_arena_write off bs s : arena (arena_write off bs s) = mem_write (arena s) off bs.
Proof. done. Qed.

(** Compute a read of a segment that stores and arena writes produced. *)
Ltac seg_simpl :=
  repeat first
    [ rewrite arena_store | rewrite arena_arena_write | rewrite entry_arena_write
    | rewrite used_arena_write | rewrite garbage_arena_write | rewrite slot_arena_write
    | rewrite used_store_same | rewrite used_store by discriminate
    | rewrite garbage_store_same | rewrite garbage_store by discriminate
    | rewrite entry_store_same by reflexivity
    | rewrite entry_store_other by (cbn [cell_entry]; congruence)
    | rewrite slot_store_same | rewrite slot_store by congruence ].

(** * Changing one bucket

    Every operation but [compact] and [clear] changes a single bucket and
    appends to the arena.  This is what such a change has to satisfy, and
    what it does to the view. *)
Section update.
Variables (s s' : Segment) (i : Z) (key : bytes).
Hypothesis Hwf : wf s.
Hypothesis Hi : in_index i.
Hypothesis Hother : forall j, j <> i -> entry s' j = entry s j.
Hypothesis Harena : forall x, 0 <= x < used s -> arr_get 0 (arena s') x = arr_get 0 (arena s) x.
Hypothesis Hused : used s <= used s' <= ARENA_SIZE.
Hypothesis Haccount : footprint s' i + used s <= footprint s i + used s'.
Hypothesis Hok : entry_ok s' i.
Hypothesis Hne : state_of s' i <> ST_EMPTY.
Hypothesis Hkey : key_of s' i = key.
Hypothesis Hreach : reachable s key i.
Hypothesis Hclaim :
  (state_of s i <> ST_EMPTY /\ key_of s i = key) \/ (claimable s i /\ no_key s key).

Lemma update_state j : j <> i -> state_of s' j = state_of s j.
Proof using Hother. intros Hj. unfold state_of. by rewrite Hother. Qed.

Lemma update_nonempty j : state_of s j <> ST_EMPTY -> state_of s' j <> ST_EMPTY.
Proof using Hother Hne.
  destruct (decide (j = i)) as [->|Hj]; [done|]. by rewrite update_state.
Qed.

Lemma update_key j :
  in_index j -> j <> i -> state_of s j <> ST_EMPTY -> key_of s' j = key_of s j.
Proof using Hother Harena Hwf.
  intros Hj Hji Hnej. unfold key_of. rewrite Hother by done.
  pose proof (ok_key _ _ (wf_entry s Hwf j Hj) Hnej).
  apply mem_read_ext. intros x Hx. apply Harena. lia.
Qed.

Lemma update_val j :
  in_index j -> j <> i -> state_of s j = ST_LIVE -> val_of s' j = val_of s j.
Proof using Hother Harena Hwf.
  intros Hj Hji Hl. unfold val_of. rewrite Hother by done.
  pose proof (ok_val _ _ (wf_entry s Hwf j Hj) Hl).
  apply mem_read_ext. intros x Hx. apply Harena. lia.
Qed.

Lemma update_record j : in_index j -> j <> i -> record s' j = record s j.
Proof using Hother Harena Hwf.
  intros Hj Hji. pose proof (update_key j Hj Hji) as Hk.
  pose proof (update_val j Hj Hji) as Hv. unfold record, state_of in *.
  rewrite Hother in * by done.
  destruct (Z.eqb_spec (e_state (entry s j)) ST_LIVE) as [El|].
  { rewrite Hv, Hk; [done| |done]. by rewrite El. }
  destruct (Z.eqb_spec (e_state (entry s j)) ST_TOMB) as [Et|]; [|done].
  simpl. rewrite Hk; [done|]. by rewrite Et.
Qed.

Lemma update_reachable k j : reachable s k j -> reachable s' k j.
Proof using Hother Hne.
  intros (x & Hx & -> & Hc). exists x. split_and!; [lia..|done|].
  intros j' Hj'. by apply update_nonempty, Hc.
Qed.

Lemma update_wf_entry j : in_index j -> entry_ok s' j.
Proof using Hother Harena Hwf Hok Hused.
  intros Hj. destruct (decide (j = i)) as [->|Hji]; [done|].
  destruct (wf_entry s Hwf j Hj) as [H1 H2 H3 H4 H5 H6].
  pose proof (update_key j Hj Hji) as Hk. unfold state_of in *.
  split; unfold state_of; rewrite Hother by done; auto.
  - intros E. specialize (H4 E). lia.
  - intros E. rewrite Hk by done. auto.
  - intros E. specialize (H6 E). lia.
Qed.

Lemma update_unique j :
  in_index j -> j <> i -> state_of s' j <> ST_EMPTY -> key_of s' j <> key.
Proof using Hother Harena Hwf Hi Hclaim.
  intros Hj Hji Hnej. rewrite update_state in Hnej by done.
  rewrite update_key by done. intros E.
  destruct Hclaim as [[Hnei Hki]|[_ Hno]].
  - apply Hji, (wf_unique s Hwf); congruence.
  - by apply (Hno j).
Qed.

Lemma update_wf : wf s'.
Proof using All.
  split.
  - pose proof (wf_used s Hwf). lia.
  - rewrite (zsum_update (footprint s) (footprint s') buckets i).
    + pose proof (wf_account s Hwf). lia.
    + apply buckets_NoDup.
    + by apply buckets_in.
    + intros j _ Hji. unfold footprint. by rewrite Hother.
  - apply update_wf_entry.
  - intros j Hj Hnej. destruct (decide (j = i)) as [->|Hji].
    + rewrite Hkey. by apply update_reachable.
    + rewrite update_state in Hnej by done. rewrite update_key by done.
      apply update_reachable. by apply (wf_chain s Hwf).
  - intros j j' Hj Hj' Hnej Hnej' E.
    destruct (decide (j = i)) as [->|Hji], (decide (j' = i)) as [->|Hji']; [done|..].
    + exfalso. apply (update_unique j'); congruence.
    + exfalso. apply (update_unique j); congruence.
    + rewrite !update_key in E by (done || by rewrite <- update_state).
      rewrite update_state in Hnej, Hnej' by done. by apply (wf_unique s Hwf).
Qed.

(** Only [key] is affected, and it takes the bucket's new record. *)
Lemma update_view : view s' = partial_alter (fun _ => snd <$> record s' i) key (view s).
Proof using All.
  apply map_eq. intros k. destruct (decide (k = key)) as [->|Hk].
  - rewrite lookup_partial_alter_eq. rewrite <- Hkey.
    apply view_at; [apply update_wf|done..].
  - rewrite lookup_partial_alter_ne by done. apply option_eq. intros r.
    rewrite !view_lookup by (done || apply update_wf).
    split; intros (j & Hj & E); exists j; (split; [done|]).
    + rewrite <- update_record; [done..|]. intros ->.
      apply record_key in E. congruence.
    + rewrite update_record; [done..|]. intros ->. destruct Hclaim as [[_ Hki]|[Hc _]].
      * apply record_key in E. congruence.
      * by rewrite record_claimable in E.
Qed.

Lemma update_bucket r :
  snd <$> record s' i = r -> wf s' /\ view s' = partial_alter (fun _ => r) key (view s).
Proof using All. intros <-. split; [apply update_wf|apply update_view]. Qed.
End update.
