(* ===== verification/ShmProbe.v ===== *)
(** The index probe finds a key's bucket, or a bucket to put it in.

    [probe] is compared with the scan of the whole index that [no_key] and
    [key_of] describe: under the invariant, the early exits of the linear
    probe (first empty bucket, [MAX_PROBES] rounds) lose nothing. *)

From S2P Require Import Prelude Consts Hash Segment Shm ShmInv.

(** * Arena accesses in range *)

Lemma run_arena_slice s off ln :
  0 <= off -> 0 <= ln -> off + ln <= ARENA_SIZE ->
  run (arena_slice off ln) s = (Some (mem_read (arena s) off ln), s).
Proof.
  intros Ho Hl H. unfold arena_slice.
  assert (ARENA_SIZE < 2 ^ 64) by done. rewrite wadd_small by lia.
  destruct (Z.ltb_spec ARENA_SIZE off), (Z.ltb_spec ARENA_SIZE ln),
    (Z.ltb_spec ARENA_SIZE (off + ln)); try lia.
  simpl. by run_simpl.
Qed.

Lemma run_arena_eq s off ln want :
  0 <= off -> 0 <= ln -> off + ln <= ARENA_SIZE ->
  run (arena_eq off ln want) s = (bool_decide (mem_read (arena s) off ln = want), s).
Proof.
  intros Ho Hl H. unfold arena_eq.
  assert (ARENA_SIZE < 2 ^ 64) by done. rewrite wadd_small by lia.
  destruct (Z.eqb_spec ln (len want)) as [E|E]; simpl.
  - destruct (Z.ltb_spec ARENA_SIZE off), (Z.ltb_spec ARENA_SIZE (off + ln)); try lia.
    simpl. by run_simpl.
  - rewrite run_ret. f_equal. symmetry. apply bool_decide_eq_false_2.
    intros <-. apply E. by rewrite mem_read_len.
Qed.

(** Whatever the offsets, these accesses leave the segment alone. *)
Lemma run_arena_slice_state s off ln : snd (run (arena_slice off ln) s) = s.
Proof. unfold arena_slice. case_match; by run_simpl. Qed.

(** * One round of the probe *)

Section probe.
Variable s : Segment.
Hypothesis Hwf : wf s.

(** The comparison [probe] makes at bucket [i]. *)
Definition probe_matches (key : bytes) (i : Z) : prog bool :=
  let! h := loadc (CHash i) in
  if h =? fnv1a key then
    let! ko := loadc (CKeyOff i) in
    let! kl := loadc (CKeyLen i) in
    arena_eq ko kl key
  else ret false.

Lemma run_probe_matches key i :
  in_index i -> state_of s i <> ST_EMPTY ->
  run (probe_matches key i) s = (bool_decide (key_of s i = key), s).
Proof.
  intros Hi Hne. unfold probe_matches. run_simpl.
  pose proof (wf_entry s Hwf i Hi) as Hok. pose proof (wf_used s Hwf).
  pose proof (ok_key _ _ Hok Hne). pose proof (ok_hash _ _ Hok Hne) as Hh.
  cbn [load]. rewrite Hh. destruct (Z.eqb_spec (fnv1a (key_of s i)) (fnv1a key)) as [E|E].
  - run_simpl. cbn [load]. rewrite run_arena_eq by lia. done.
  - rewrite run_ret. f_equal. symmetry. apply bool_decide_eq_false_2. congruence.
Qed.

(** What a finished probe has established. *)
Definition probe_post (key : bytes) (r : option (Z * bool)) : Prop :=
  match r with
  | Some (i, true) => in_index i /\ state_of s i <> ST_EMPTY /\ key_of s i = key
  | Some (i, false) =>
      in_index i /\ claimable s i /\ no_key s key /\ reachable s key i
  | None => no_key s key /\
      forall j, 0 <= j < MAX_PROBES -> ~ claimable s (probe_at key j)
  end.

(** Nothing found before round [j] of the probe for [key]. *)
Definition passed (key : bytes) (j : Z) : Prop :=
  forall j', 0 <= j' < j ->
    state_of s (probe_at key j') <> ST_EMPTY /\ key_of s (probe_at key j') <> key.

Definition free_ok (key : bytes) (j : Z) (free : option Z) : Prop :=
  match free with
  | Some i => claimable s i /\ exists j', 0 <= j' < j /\ i = probe_at key j'
  | None => forall j', 0 <= j' < j -> ~ claimable s (probe_at key j')
  end.

Lemma passed_no_key key j :
  0 <= j -> passed key j ->
  (j = MAX_PROBES \/ state_of s (probe_at key j) = ST_EMPTY) -> no_key s key.
Proof.
  intros H0 Hp Hj i Hi Hne Hk.
  destruct (wf_chain s Hwf i Hi Hne) as (ji & Hji & Ei & Hc). rewrite Hk in *.
  destruct (decide (ji < j)) as [Hlt|Hge].
  - destruct (Hp ji ltac:(lia)) as [_ Hkey]. apply Hkey. by rewrite <- Ei.
  - destruct Hj as [->|Hempty]; [lia|].
    destruct (decide (ji = j)) as [->|]; [by rewrite Ei in Hne|].
    apply (Hc j); [lia|done].
Qed.

Lemma passed_reachable key j j' :
  passed key j -> 0 <= j' <= j -> j' < MAX_PROBES -> reachable s key (probe_at key j').
Proof.
  intros Hp Hj Hm. exists j'. split; [lia|]. split; [done|].
  intros k Hk. apply Hp. lia.
Qed.

(** ** The loop *)

Lemma run_probe_loop key n j free :
  0 <= j -> j + Z.of_nat n = MAX_PROBES -> passed key j -> free_ok key j free ->
  exists r,
    run (probe_loop key (fnv1a key) (fnv1a key mod INDEX_SLOTS) free j n) s = (r, s) /\
    probe_post key r.
Proof.
  revert j free; induction n as [|n IH]; intros j free H0 Hj Hp Hf.
  { exists ((fun i => (i, false)) <$> free). split; [done|].
    assert (j = MAX_PROBES) as -> by lia.
    assert (no_key s key) by (eapply passed_no_key; eauto).
    destruct free as [i|]; simpl in *; [|by split].
    destruct Hf as (Hc & j' & Hj' & ->).
    split_and!; auto using probe_at_range. eapply passed_reachable; eauto; lia. }
  simpl. fold (probe_at key j). set (i := probe_at key j).
  assert (in_index i) as Hi by apply probe_at_range.
  run_simpl. cbn [load]. fold (state_of s i).
  destruct (Z.eqb_spec (state_of s i) ST_EMPTY) as [He|Hne].
  { exists (Some (default i free, false)). split; [done|].
    assert (no_key s key) by (eapply passed_no_key; eauto).
    destruct free as [i'|]; simpl in *.
    - destruct Hf as (Hc & j' & Hj' & ->).
      split_and!; auto using probe_at_range. eapply passed_reachable; eauto; lia.
    - split_and!; auto. { by left. } eapply passed_reachable; eauto; lia. }
  run_simpl. pose proof (run_probe_matches key i Hi Hne) as Hm.
  unfold probe_matches in Hm. revert Hm. run_simpl. intros Hm. rewrite Hm. cbn [fst snd].
  case_bool_decide as Hk.
  { exists (Some (i, true)). by split. }
  pose proof (ok_state _ _ (wf_entry s Hwf i Hi)) as Hst.
  assert (passed key (j + 1)) as Hp'.
  { intros j' Hj'. destruct (decide (j' = j)) as [->|]; [done|]. apply Hp. lia. }
  assert (free_ok key (j + 1) free \/ free = None) as Hf'.
  { destruct free; [left|by right]. destruct Hf as (Hc & j' & Hj' & ->).
    split; [done|]. exists j'. split; [lia|done]. }
  assert (~ claimable s i -> free_ok key (j + 1) free) as Hskip.
  { intros Hc. destruct free as [|]; [by destruct Hf'|]. intros j' Hj'.
    destruct (decide (j' = j)) as [->|]; [done|]. apply Hf. lia. }
  destruct (Z.eqb_spec (state_of s i) ST_TOMB) as [Ht|Ht]; simpl.
  2: { run_simpl. apply IH; try done; [lia..|]. apply Hskip. intros [|[]]; congruence. }
  case_bool_decide as Hfree; subst; run_simpl.
  2: { apply IH; try done; [lia..|]. by destruct Hf'. }
  cbn [load]. destruct (has_dirty (e_flags (entry s i))) eqn:Hd.
  - apply IH; try done; [lia..|]. apply Hskip. intros [|[]]; congruence.
  - apply IH; try done; [lia..|]. split; [by right|].
    exists j. split; [lia|done].
Qed.
End probe.

Arguments probe_post : simpl never.

(** Probing changes nothing, and its answer is the one a scan of the whole
    index would give. *)
Lemma run_probe s key :
  wf s -> exists r, run (probe key (fnv1a key)) s = (r, s) /\ probe_post s key r.
Proof.
  intros Hwf. unfold probe. apply run_probe_loop; try done.
  - intros j' Hj'. lia.
  - intros j' Hj'. lia.
Qed.

(** The two outcomes, by whether the key has a bucket. *)
Lemma run_probe_found s key i :
  wf s -> in_index i -> state_of s i <> ST_EMPTY -> key_of s i = key ->
  run (probe key (fnv1a key)) s = (Some (i, true), s).
Proof.
  intros Hwf Hi Hne Hk. destruct (run_probe s key Hwf) as (r & -> & Hr).
  destruct r as [[i' [|]]|]; unfold probe_post in Hr.
  - destruct Hr as (Hi' & Hne' & Hk').
    assert (i' = i) as -> by (apply (wf_unique s Hwf); congruence). done.
  - destruct Hr as (_ & _ & Hno & _). by destruct (Hno i).
  - destruct Hr as [Hno _]. by destruct (Hno i).
Qed.

Lemma run_probe_missing s key :
  wf s -> no_key s key ->
  exists r, run (probe key (fnv1a key)) s = (r, s) /\
    match r with
    | Some (i, found) => found = false /\ in_index i /\ claimable s i /\ reachable s key i
    | None => forall j, 0 <= j < MAX_PROBES -> ~ claimable s (probe_at key j)
    end.
Proof.
  intros Hwf Hno. destruct (run_probe s key Hwf) as (r & Hrun & Hr).
  exists r. split; [done|]. destruct r as [[i [|]]|]; unfold probe_post in Hr.
  - destruct Hr as (Hi & Hne & Hk). by destruct (Hno i).
  - destruct Hr as (? & ? & _ & ?). auto.
  - apply Hr.
Qed.

(** Either some bucket holds the key or none does. *)
Lemma key_cases s key :
  (exists i, in_index i /\ state_of s i <> ST_EMPTY /\ key_of s i = key) \/ no_key s key.
Proof.
  destruct (decide (Exists (fun i => state_of s i <> ST_EMPTY /\ key_of s i = key) buckets))
    as [H|H].
  - left. apply Exists_exists in H as (i & Hi & Hne & Hk).
    exists i. rewrite buckets_in in Hi. auto.
  - right. intros i Hi Hne Hk. apply H. apply Exists_exists. exists i.
    split; [by rewrite buckets_in|done].
Qed.
