(* ===== verification/ShmOps.v ===== *)
(** Single-bucket operations: [put_locked], [remove], flag updates.

    Each one is run to its final segment, which is an instance of the
    one-bucket change of [ShmInv]; what it does to the [view] follows. *)

From S2P Require Import Prelude Consts Hash Segment Shm ShmInv ShmProbe.

(** * Segments with the same data

    The sequence counters and the generation carry no data: two segments that
    differ only there are equivalent. *)

Record same_data (s s' : Segment) : Prop := mk_same_data {
  same_index : forall i, entry s' i = entry s i;
  same_arena : arena s' = arena s;
  same_used : used s' = used s;
  same_garbage : garbage s' = garbage s
}.

#[export] Instance same_data_equivalence : Equivalence same_data.
Proof.
  split.
  - by split.
  - intros s s' []. split; auto.
  - intros s1 s2 s3 [] []. split; intros; congruence.
Qed.

#[export] Instance entry_proper : Proper (same_data ==> eq ==> eq) entry.
Proof. intros s s' [H1 _ _ _] i ? <-. by rewrite H1. Qed.

#[export] Instance key_of_proper : Proper (same_data ==> eq ==> eq) key_of.
Proof. intros s s' [H1 H2 _ _] i ? <-. unfold key_of. by rewrite H1, H2. Qed.

#[export] Instance val_of_proper : Proper (same_data ==> eq ==> eq) val_of.
Proof. intros s s' [H1 H2 _ _] i ? <-. unfold val_of. by rewrite H1, H2. Qed.

#[export] Instance state_of_proper : Proper (same_data ==> eq ==> eq) state_of.
Proof. intros s s' [H1 _ _ _] i ? <-. unfold state_of. by rewrite H1. Qed.

#[export] Instance record_proper : Proper (same_data ==> eq ==> eq) record.
Proof.
  intros s s' Hs i ? <-. unfold record.
  by rewrite (same_index _ _ Hs), (key_of_proper _ _ Hs i i), (val_of_proper _ _ Hs i i).
Qed.

#[export] Instance view_proper : Proper (same_data ==> eq) view.
Proof.
  intros s s' Hs. unfold view. f_equal. apply list_omap_ext.
  apply Forall2_same_length_lookup_2; [done|]. intros i x y Hx Hy.
  assert (x = y) as -> by congruence. by apply record_proper.
Qed.

Lemma same_data_wf s s' : same_data s s' -> wf s -> wf s'.
Proof.
  intros Hs Hwf.
  assert (forall i, state_of s' i = state_of s i) as Hst
    by (intros; symmetry; by apply state_of_proper).
  assert (forall i, key_of s' i = key_of s i) as Hk
    by (intros; symmetry; by apply key_of_proper).
  destruct Hs as [He _ Hu Hg]. split.
  - rewrite Hu. apply (wf_used s Hwf).
  - rewrite (zsum_ext (footprint s') (footprint s)), Hu; [apply (wf_account s Hwf)|].
    intros i _. unfold footprint. by rewrite He.
  - intros i Hi. destruct (wf_entry s Hwf i Hi) as [H1 H2 H3 H4 H5 H6].
    split; rewrite ?Hst, ?Hk, ?He, ?Hu; done.
  - intros i Hi. rewrite Hst, Hk. intros Hne.
    destruct (wf_chain s Hwf i Hi Hne) as (j & Hj & E & Hc).
    exists j. split_and!; [lia..|done|]. intros j'. rewrite Hst. apply Hc.
  - intros i j Hi Hj. rewrite !Hst, !Hk. by apply (wf_unique s Hwf).
Qed.

#[export] Instance wf_proper : Proper (same_data ==> iff) wf.
Proof. intros s s' Hs. split; apply same_data_wf; [done|by symmetry]. Qed.

(** * One-bucket effects *)

Definition aseq (s : Segment) : Z := h_arena_seq (header s).

(** [s'] is [s] with bucket [i] replaced by [e], the arena by [m], and the
    bookkeeping set; no sequence counter moves. *)
Record changed (s s' : Segment) (i : Z) (e : IndexEntry) (u g : Z) (m : gmap Z Z) : Prop :=
  mk_changed {
    ch_entry : entry s' i = e;
    ch_other : forall j, j <> i -> entry s' j = entry s j;
    ch_used : used s' = u;
    ch_garbage : garbage s' = g;
    ch_arena : arena s' = m;
    ch_slot : forall k, slot s' k = slot s k;
    ch_aseq : aseq s' = aseq s
  }.

Lemma aseq_store c v s : c <> CArenaSeq -> aseq (store c v s) = aseq s.
Proof.
  intros H. unfold aseq, store. destruct (header s) eqn:E.
  destruct c; simpl; rewrite ?E; done.
Qed.

Lemma aseq_store_same v s : aseq (store CArenaSeq v s) = v.
Proof. unfold aseq, store. simpl. by destruct (header s). Qed.

(** Stores to the counters keep the data. *)
Lemma same_data_store c v s :
  match c with CSlot _ | CArenaSeq | CGlobalGen => True | _ => False end ->
  same_data s (store c v s).
Proof.
  intros Hc. destruct c; try done; split; intros; by seg_simpl.
Qed.

Lemma aseq_arena_write off bs s : aseq (arena_write off bs s) = aseq s.
Proof. done. Qed.

(** Discharge a [changed] goal about an explicit final segment. *)
Ltac solve_changed :=
  split; intros;
    repeat first [rewrite aseq_store by discriminate | rewrite aseq_arena_write]; seg_simpl;
    try done.

Lemma run_arena_alloc s bs :
  0 <= used s -> used s + len bs <= ARENA_SIZE ->
  run (arena_alloc bs) s =
    (Some (used s), store CArenaUsed (used s + len bs) (arena_write (used s) bs s)).
Proof.
  intros H0 H. unfold arena_alloc. run_simpl. cbn [load]. fold (used s).
  pose proof (len_nonneg bs). assert (ARENA_SIZE < 2 ^ 32) by done.
  rewrite wadd_small by lia.
  destruct (Z.ltb_spec ARENA_SIZE (used s + len bs)); [lia|].
  run_simpl. by rewrite u32_small by lia.
Qed.

Definition set_dirty (dirty : bool) (flags : Z) : Z :=
  if dirty then Z.lor flags FL_DIRTY else flags.

Lemma footprint_nonneg s i : wf s -> in_index i -> 0 <= footprint s i.
Proof.
  intros Hwf Hi. pose proof (wf_entry s Hwf i Hi) as Hok.
  pose proof (ok_key _ _ Hok) as Hk. pose proof (ok_val _ _ Hok) as Hv.
  unfold footprint, state_of in *.
  destruct (Z.eqb_spec (e_state (entry s i)) ST_EMPTY),
    (Z.eqb_spec (e_state (entry s i)) ST_LIVE); try specialize (Hk ltac:(done));
    try specialize (Hv ltac:(done)); lia.
Qed.

Lemma run_put_locked_found s i key val dirty :
  wf s -> in_index i -> used s + len val <= ARENA_SIZE ->
  exists s', run (put_locked i true key val (fnv1a key) dirty) s = (Ok tt, s') /\
    let e := entry s i in
    changed s s' i
      (mkEntry (e_hash e) (e_key_off e) (e_key_len e) (used s) (len val) ST_LIVE
         (set_dirty dirty (e_flags e)))
      (used s + len val)
      (if state_of s i =? ST_LIVE then wadd (garbage s) (e_val_len e) else garbage s)
      (mem_write (arena s) (used s) val).
Proof.
  intros Hwf Hi Hu. pose proof (wf_used s Hwf). pose proof (len_nonneg val).
  assert (ARENA_SIZE < 2 ^ 32) by done.
  pose proof (ok_val _ _ (wf_entry s Hwf i Hi)) as Hv.
  unfold put_locked. run_simpl. rewrite run_arena_alloc by lia.
  cbn [fst snd]. run_simpl. unfold state_of in *.
  destruct (entry s i) as [h ko kl vo vl st fl] eqn:E. cbn [e_state] in *.
  cbn [load]. seg_simpl. rewrite E. cbn [e_state].
  rewrite (u32_small (len val)) by lia.
  destruct (Z.eqb_spec st ST_LIVE) as [El|El].
  - cbn [e_val_len e_val_off] in Hv. specialize (Hv El).
    run_simpl. cbn [load]. seg_simpl. rewrite E. cbn [e_val_len].
    change (h_arena_garbage (header ?x)) with (garbage x). seg_simpl.
    destruct dirty; run_simpl; eexists; (split; [reflexivity|]); cbn [load];
      solve_changed; rewrite ?E; done.
  - run_simpl. destruct dirty; run_simpl; eexists; (split; [reflexivity|]); cbn [load];
      solve_changed; rewrite ?E; done.
Qed.

Lemma run_put_locked_new s i key val dirty :
  wf s -> used s + len val + len key <= ARENA_SIZE ->
  exists s', run (put_locked i false key val (fnv1a key) dirty) s = (Ok tt, s') /\
    let e := entry s i in
    changed s s' i
      (mkEntry (fnv1a key) (used s + len val) (len key) (used s) (len val) ST_LIVE
         (set_dirty dirty (e_flags e)))
      (used s + len val + len key)
      (garbage s)
      (mem_write (mem_write (arena s) (used s) val) (used s + len val) key).
Proof.
  intros Hwf Hu. pose proof (wf_used s Hwf).
  pose proof (len_nonneg val). pose proof (len_nonneg key).
  assert (ARENA_SIZE < 2 ^ 32) by done.
  unfold put_locked. run_simpl. rewrite run_arena_alloc by lia.
  cbn [fst snd]. run_simpl. rewrite run_arena_alloc by (seg_simpl; lia).
  cbn [fst snd]. run_simpl. seg_simpl.
  rewrite (u32_small (len val)), (u32_small (len key)) by lia.
  destruct (entry s i) as [h ko kl vo vl st fl] eqn:E.
  destruct dirty; run_simpl; eexists; (split; [reflexivity|]); cbn [load];
    solve_changed; rewrite ?E; done.
Qed.

(** The stores [remove] makes between [seq_begin] and [seq_end]. *)
Definition remove_body (i : Z) (dirty : bool) : prog unit :=
  let! vl := loadc (CValLen i) in
  rmwc CArenaGarbage (fun g => wadd g vl) ;!
  storec (CValLen i) 0 ;!
  (if dirty then rmwc (CFlags i) (fun f => Z.lor f FL_DIRTY) ;! ret tt else ret tt) ;!
  storec (CState i) ST_TOMB.

Lemma run_remove_body s i dirty :
  wf s -> in_index i -> state_of s i = ST_LIVE ->
  exists s', run (remove_body i dirty) s = (tt, s') /\
    let e := entry s i in
    changed s s' i
      (mkEntry (e_hash e) (e_key_off e) (e_key_len e) (e_val_off e) 0 ST_TOMB
         (set_dirty dirty (e_flags e)))
      (used s) (wadd (garbage s) (e_val_len e)) (arena s).
Proof.
  intros Hwf Hi Hl. pose proof (wf_used s Hwf).
  assert (ARENA_SIZE < 2 ^ 32) by done.
  pose proof (ok_val _ _ (wf_entry s Hwf i Hi) Hl).
  unfold remove_body. run_simpl. cbn [load]. fold (garbage s).
  destruct (entry s i) as [h ko kl vo vl st fl] eqn:E.
  destruct dirty; run_simpl; eexists; (split; [reflexivity|]); cbn [load e_val_len];
    solve_changed; rewrite ?E; done.
Qed.

(** Clearing the dirty bit of one bucket, as [commit_writeback] does. *)
Lemma run_clear_dirty s i :
  wf s -> in_index i ->
  exists s', run (rmwc (CFlags i) (fun f => Z.land f NOT_FL_DIRTY) ;! ret tt) s = (tt, s') /\
    let e := entry s i in
    changed s s' i
      (mkEntry (e_hash e) (e_key_off e) (e_key_len e) (e_val_off e) (e_val_len e)
         (e_state e) 0)
      (used s) (garbage s) (arena s).
Proof.
  intros Hwf Hi. pose proof (ok_flags _ _ (wf_entry s Hwf i Hi)) as Hf.
  run_simpl. eexists. split; [reflexivity|]. cbn [load].
  destruct (entry s i) as [h ko kl vo vl st fl] eqn:E. cbn [e_flags] in *.
  assert (Z.land fl NOT_FL_DIRTY = 0) as -> by (by destruct Hf as [->| ->]).
  solve_changed; rewrite ?E; done.
Qed.

(** * What the effects do to the view *)

Lemma has_dirty_set dirty flags :
  flags = 0 \/ flags = FL_DIRTY ->
  (set_dirty dirty flags = 0 \/ set_dirty dirty flags = FL_DIRTY) /\
  has_dirty (set_dirty dirty flags) = dirty || has_dirty flags.
Proof. intros [->| ->]; destruct dirty; simpl; auto. Qed.

