(* ===== verification/SeqCount.v ===== *)
(** The sequence counters: parity and progress of [next_odd]/[next_even].

    The parity is derived from the old value, so a counter a dead writer left
    odd is put right by the next writer ([next_even] of anything is even),
    and every bracket of [seq_begin]/[seq_end] moves the counter forward. *)

From S2P Require Import Prelude Consts Hash Segment Shm ShmInv ShmOps.

Lemma lor_1 v : Z.lor v 1 = if Z.odd v then v else v + 1.
Proof.
  assert (Z.lor v 1 = 2 * (v / 2) + 1) as ->.
  { apply Z.bits_inj'. intros n Hn. rewrite Z.lor_spec.
    destruct (Z.eq_dec n 0) as [->|].
    - rewrite Z.testbit_odd_0. by rewrite orb_true_r.
    - replace n with (Z.succ (n - 1)) by lia.
      rewrite Z.testbit_odd_succ, <- Z.div2_div, Z.div2_spec, Z.shiftr_spec by lia.
      replace (n - 1 + 1) with (Z.succ (n - 1)) by lia.
      change 1 with (2 * 0 + 1) at 2.
      rewrite Z.testbit_odd_succ, Z.testbit_0_l by lia. by rewrite orb_false_r. }
  pose proof (Zdiv.Zmod_odd v). pose proof (Z.div_mod v 2 ltac:(lia)).
  destruct (Z.odd v); lia.
Qed.

Lemma is_odd_odd v : is_odd v = Z.odd v.
Proof.
  unfold is_odd. change 1 with (Z.ones 1) at 1. rewrite Z.land_ones by lia.
  change (2 ^ 1) with 2. rewrite Zdiv.Zmod_odd. by destruct (Z.odd v).
Qed.

Lemma u64_odd v : Z.odd (u64 v) = Z.odd v.
Proof.
  unfold u64. rewrite Zdiv.Zmod_eq_full by lia. rewrite Z.odd_sub, Z.odd_mul.
  change (Z.odd (2 ^ 64)) with false. rewrite andb_false_r. apply xorb_false_r.
Qed.

Lemma odd_lor_1 v : Z.odd (Z.lor v 1) = true.
Proof. rewrite lor_1. destruct (Z.odd v) eqn:E; [done|]. by rewrite Z.odd_add, E. Qed.

Lemma next_odd_odd v : is_odd (next_odd v) = true.
Proof. rewrite is_odd_odd. apply odd_lor_1. Qed.

Lemma next_even_even v : is_odd (next_even v) = false.
Proof.
  rewrite is_odd_odd. unfold next_even, wadd. rewrite u64_odd, Z.odd_add, odd_lor_1. done.
Qed.

Lemma next_odd_range v : 0 <= v < 2 ^ 64 - 2 -> v < next_odd v <= v + 2.
Proof.
  intros H. unfold next_odd. rewrite wadd_small by lia. rewrite lor_1.
  destruct (Z.odd (v + 1)); lia.
Qed.

Lemma next_even_range v : 0 <= v < 2 ^ 64 - 2 -> v < next_even v <= v + 2.
Proof.
  intros H. unfold next_even. rewrite lor_1.
  destruct (Z.odd v); rewrite wadd_small by lia; lia.
Qed.

(** One bracket: even again, and strictly forward. *)
Definition bump (v : Z) : Z := next_even (next_odd v).

Lemma bump_even v : is_odd (bump v) = false.
Proof. apply next_even_even. Qed.

Lemma bump_range v : 0 <= v < 2 ^ 64 - 4 -> v < bump v <= v + 4.
Proof.
  intros H. unfold bump. pose proof (next_odd_range v ltac:(lia)).
  pose proof (next_even_range (next_odd v) ltac:(lia)). lia.
Qed.

#[export] Hint Resolve next_odd_odd next_even_even bump_even : nvram.

(** * [slot_of] *)

Lemma slot_of_mod hash : slot_of hash = hash mod SLOTS.
Proof.
  unfold slot_of. change (SLOTS - 1) with (Z.ones 12). rewrite Z.land_ones by lia. done.
Qed.

Lemma slot_of_range hash : 0 <= slot_of hash < SLOTS.
Proof. rewrite slot_of_mod. apply Z.mod_pos_bound. done. Qed.
#[export] Hint Resolve slot_of_range : nvram.

(** The counter that covers a key. *)
Definition key_slot (key : bytes) : Z := slot_of (fnv1a key).

Lemma run_seq_begin k s :
  run (seq_begin k) s = (tt, store (CSlot k) (next_odd (slot s k)) s).
Proof. done. Qed.

Lemma run_seq_end k s :
  exists g, run (seq_end k) s =
    (tt, store CGlobalGen g (store (CSlot k) (next_even (slot s k)) s)).
Proof. unfold seq_end. run_simpl. eexists. done. Qed.

(** ** Repair *)

(** A counter once nothing can be writing: even. *)
Definition repaired (v : Z) : Z := if is_odd v then next_even v else v.

Lemma repaired_even v : is_odd (repaired v) = false.
Proof. unfold repaired. destruct (is_odd v) eqn:E; [apply next_even_even|done]. Qed.

Lemma run_repair_cell c b s :
  run (repair_cell c b) s =
    (is_odd (load c s) || b, if is_odd (load c s) then store c (next_even (load c s)) s else s).
Proof. unfold repair_cell. run_simpl. by destruct (is_odd (load c s)); run_simpl. Qed.

(** [repair_seq] makes both counters even, leaves an even one as it is,
    reports whether it had to do anything, and touches no data. *)
Lemma run_repair_seq k s :
  let r := run (repair_seq k) s in
  fst r = is_odd (slot s k) || is_odd (aseq s) /\
  slot (snd r) k = repaired (slot s k) /\ aseq (snd r) = repaired (aseq s) /\
  (forall j, j <> k -> slot (snd r) j = slot s j) /\ same_data s (snd r).
Proof.
  cbv zeta. unfold repair_seq. rewrite !run_foldM_cons, !run_repair_cell.
  cbn [fst snd foldM load]. rewrite run_ret. cbn [fst snd].
  change (h_arena_seq (header ?x)) with (aseq x). unfold repaired.
  destruct (is_odd (slot s k)) eqn:E1; rewrite ?aseq_store by discriminate;
    (destruct (is_odd (aseq s)) eqn:E2); split_and!; try done; intros;
    rewrite ?aseq_store_same, ?aseq_store by discriminate; seg_simpl; try done;
    rewrite <- ?same_data_store; done.
Qed.
