(* ===== verification/ShmWrite.v ===== *)
(** [put], [remove] and [read_value] refine the abstract store.

    The theorems are stated on [view]: what the operation does to the map
    the segment stands for, on every branch. *)

From S2P Require Import Prelude Consts Hash Spec Segment Shm ShmInv ShmProbe ShmOps.

(** * One-bucket effects on the view *)

Lemma dirty_at s i :
  wf s -> in_index i -> state_of s i <> ST_EMPTY ->
  Spec.dirty (view s) (key_of s i) = has_dirty (e_flags (entry s i)).
Proof.
  intros Hwf Hi Hne. unfold Spec.dirty. rewrite view_at by done.
  pose proof (ok_state _ _ (wf_entry s Hwf i Hi)) as Hst. unfold record, state_of in *.
  destruct (Z.eqb_spec (e_state (entry s i)) ST_LIVE) as [|Hl]; [done|].
  destruct Hst as [|[|Ht]]; [done..|]. rewrite Ht. simpl.
  by destruct (has_dirty (e_flags (entry s i))).
Qed.

Lemma get_at s i :
  wf s -> in_index i -> state_of s i <> ST_EMPTY ->
  Spec.get (view s) (key_of s i) =
    if state_of s i =? ST_LIVE then Some (val_of s i) else None.
Proof.
  intros Hwf Hi Hne. unfold Spec.get. rewrite view_at by done. unfold record, state_of.
  destruct (e_state (entry s i) =? ST_LIVE); [done|].
  by destruct ((e_state (entry s i) =? ST_TOMB) && has_dirty (e_flags (entry s i))).
Qed.

Lemma get_no_key s key : wf s -> no_key s key -> Spec.get (view s) key = None.
Proof. intros. unfold Spec.get. by rewrite view_none. Qed.

(** A key whose bucket is known is reachable there. *)
Lemma reachable_at s i key :
  wf s -> in_index i -> state_of s i <> ST_EMPTY -> key_of s i = key -> reachable s key i.
Proof. intros Hwf Hi Hne <-. by apply (wf_chain s Hwf). Qed.

Lemma mem_write_below m o bs x : x < o -> arr_get 0 (mem_write m o bs) x = arr_get 0 m x.
Proof. intros H. apply mem_write_get_out. lia. Qed.

(** Overwriting the value of a key that has a bucket. *)
Lemma put_found_effect s s' i key val dirty :
  wf s -> in_index i -> state_of s i <> ST_EMPTY -> key_of s i = key ->
  used s + len val <= ARENA_SIZE ->
  (let e := entry s i in
   changed s s' i
     (mkEntry (e_hash e) (e_key_off e) (e_key_len e) (used s) (len val) ST_LIVE
        (set_dirty dirty (e_flags e)))
     (used s + len val)
     (if state_of s i =? ST_LIVE then wadd (garbage s) (e_val_len e) else garbage s)
     (mem_write (arena s) (used s) val)) ->
  wf s' /\ view s' = <[key := (Some val, dirty || Spec.dirty (view s) key)]> (view s).
Proof.
  intros Hwf Hi Hne Hk Hu [He Ho Hus Hg Ha _ _].
  pose proof (wf_used s Hwf). pose proof (len_nonneg val).
  pose proof (wf_entry s Hwf i Hi) as Hok. pose proof (ok_key _ _ Hok Hne).
  pose proof (has_dirty_set dirty _ (ok_flags _ _ Hok)) as [Hf Hd].
  assert (key_of s' i = key) as Hk'.
  { rewrite <- Hk. unfold key_of. rewrite He, Ha. cbn. apply mem_read_write_disjoint. lia. }
  assert (record s' i = Some (key, (Some val, dirty || Spec.dirty (view s) key))) as Hr.
  { unfold record, val_of. rewrite Hk', He, Ha. cbn. rewrite mem_read_write_same, Hd.
    by rewrite <- Hk, dirty_at. }
  assert (forall x, 0 <= x < used s ->
            arr_get 0 (arena s') x = arr_get 0 (arena s) x) as Har.
  { intros x Hx. rewrite Ha. apply mem_write_below. lia. }
  assert (state_of s' i <> ST_EMPTY) as Hne' by (unfold state_of; by rewrite He).
  assert (entry_ok s' i) as Hok'.
  { split; unfold state_of; rewrite ?He, ?Hus, ?Hk'; cbn; try done; try lia; auto.
    intros _. rewrite <- Hk. by apply (ok_hash _ _ Hok). }
  assert (footprint s' i + used s <= footprint s i + used s') as Hacc.
  { pose proof (ok_val _ _ Hok) as Hv. unfold footprint, state_of in *. rewrite He, Hus. cbn.
    destruct (Z.eqb_spec (e_state (entry s i)) ST_EMPTY); [done|].
    destruct (Z.eqb_spec (e_state (entry s i)) ST_LIVE) as [El|]; [specialize (Hv El)|]; lia. }
  assert (reachable s key i) by by apply reachable_at.
  apply (update_bucket s s' i key) with (r := Some _);
    [done|done|done|done|lia|done|done|done|done|done|by left|by rewrite Hr].
Qed.

(** Taking an unused bucket for a new key, with a live value ([put],
    [compact]) or as a pending deletion ([compact]). *)
Section claim.
Variables (s s' : Segment) (i : Z) (key : bytes) (ov : option bytes) (fl : Z).
Let ov_len : Z := match ov with Some v => len v | None => 0 end.
Hypothesis Hwf : wf s.
Hypothesis Hi : in_index i.
Hypothesis Hclaim : claimable s i.
Hypothesis Hno : no_key s key.
Hypothesis Hreach : reachable s key i.
Hypothesis Hother : forall j, j <> i -> entry s' j = entry s j.
Hypothesis Harena : forall x, 0 <= x < used s -> arr_get 0 (arena s') x = arr_get 0 (arena s) x.
Hypothesis Hused : used s' = used s + len key + ov_len.
Hypothesis Hroom : used s' <= ARENA_SIZE.
Hypothesis Hhash : e_hash (entry s' i) = fnv1a key.
Hypothesis Hklen : e_key_len (entry s' i) = len key.
Hypothesis Hkoff : 0 <= e_key_off (entry s' i) <= used s' - len key.
Hypothesis Hkey : key_of s' i = key.
Hypothesis Hflags : e_flags (entry s' i) = fl.
Hypothesis Hfl : fl = 0 \/ fl = FL_DIRTY.
Hypothesis Hval :
  match ov with
  | Some v => state_of s' i = ST_LIVE /\ e_val_len (entry s' i) = len v /\
      0 <= e_val_off (entry s' i) <= used s' - len v /\ val_of s' i = v
  | None => state_of s' i = ST_TOMB
  end.

Lemma claim_state : state_of s' i = match ov with Some _ => ST_LIVE | None => ST_TOMB end.
Proof using Hval. clear ov_len Hused. destruct ov; [by destruct Hval|done]. Qed.

Lemma claim_entry_ok : entry_ok s' i.
Proof using Hval Hfl Hflags Hkey Hkoff Hklen Hhash Hwf Hused.
  pose proof claim_state as Hst. pose proof (len_nonneg key).
  split; rewrite ?Hflags, ?Hkey; auto.
  - rewrite Hst. destruct ov; auto.
  - rewrite Hst. by destruct ov.
  - rewrite Hklen. lia.
  - subst ov_len. destruct ov as [v|]; [|by rewrite Hst]. intros _.
    destruct Hval as (_ & -> & Hoff & _). pose proof (len_nonneg v). lia.
Qed.

Lemma claim_account :
  footprint s' i + used s <= footprint s i + used s'.
Proof using Hval Hclaim Hwf Hi Hused Hklen.
  pose proof (footprint_nonneg s i Hwf Hi). pose proof claim_state as Hst.
  rewrite Hused. unfold footprint at 1. unfold state_of in Hst. rewrite Hst, Hklen.
  subst ov_len. destruct ov as [v|]; simpl; [|lia].
  destruct Hval as (_ & -> & _). lia.
Qed.

Lemma claim_record :
  snd <$> record s' i =
    match ov with
    | Some v => Some (Some v, has_dirty fl)
    | None => if has_dirty fl then Some (None, true) else None
    end.
Proof using Hval Hflags.
  pose proof claim_state as Hst. unfold record. unfold state_of in Hst. rewrite Hst, Hflags.
  clear ov_len Hused. destruct ov as [v|]; simpl; [|by destruct (has_dirty fl)].
  destruct Hval as (_ & _ & _ & ->). done.
Qed.

Lemma claim_effect :
  wf s' /\ view s' =
    partial_alter
      (fun _ => match ov with
                | Some v => Some (Some v, has_dirty fl)
                | None => if has_dirty fl then Some (None, true) else None
                end) key (view s).
Proof using All.
  pose proof (len_nonneg key). pose proof (wf_used s Hwf).
  assert (0 <= ov_len) by (subst ov_len; destruct ov; [apply len_nonneg|done]).
  apply (update_bucket s s' i key); try done.
  - lia.
  - apply claim_account.
  - apply claim_entry_ok.
  - rewrite claim_state. by destruct ov.
  - by right.
  - apply claim_record.
Qed.
End claim.

Lemma claimable_flags s i :
  wf s -> in_index i -> claimable s i -> e_flags (entry s i) = 0.
Proof.
  intros Hwf Hi Hc. pose proof (wf_entry s Hwf i Hi) as Hok.
  destruct Hc as [He|[_ Hd]]; [by apply (ok_empty _ _ Hok)|].
  destruct (ok_flags _ _ Hok) as [E|E]; [done|]. by rewrite E in Hd.
Qed.

(** A new key, as [put_locked] writes it. *)
Lemma put_new_effect s s' i key val dirty :
  wf s -> in_index i -> claimable s i -> no_key s key -> reachable s key i ->
  used s + len val + len key <= ARENA_SIZE ->
  changed s s' i
    (mkEntry (fnv1a key) (used s + len val) (len key) (used s) (len val) ST_LIVE
       (set_dirty dirty (e_flags (entry s i))))
    (used s + len val + len key) (garbage s)
    (mem_write (mem_write (arena s) (used s) val) (used s + len val) key) ->
  wf s' /\ view s' = <[key := (Some val, dirty)]> (view s).
Proof.
  intros Hwf Hi Hc Hno Hr Hu [He Ho Hus Hg Ha _ _].
  pose proof (wf_used s Hwf). pose proof (len_nonneg val). pose proof (len_nonneg key).
  rewrite (claimable_flags s i Hwf Hi Hc) in He.
  assert (has_dirty (set_dirty dirty 0) = dirty) as Hd by by destruct dirty.
  pose proof (claim_effect s s' i key (Some val) (set_dirty dirty 0)) as Hce.
  cbv beta iota zeta in Hce. rewrite Hd in Hce.
  apply Hce; clear Hce; try done; unfold state_of, key_of, val_of; rewrite ?He, ?Hus, ?Ha; cbn;
    try lia; try done.
  - intros x Hx. rewrite !mem_write_below by lia. done.
  - apply mem_read_write_same.
  - destruct dirty; auto.
  - split_and!; try done; try lia. rewrite mem_read_write_disjoint by lia.
    apply mem_read_write_same.
Qed.

(** Turning a live key into a deletion. *)
Lemma remove_effect s s' i dirty :
  wf s -> in_index i -> state_of s i = ST_LIVE ->
  (let e := entry s i in
   changed s s' i
     (mkEntry (e_hash e) (e_key_off e) (e_key_len e) (e_val_off e) 0 ST_TOMB
        (set_dirty dirty (e_flags e)))
     (used s) (wadd (garbage s) (e_val_len e)) (arena s)) ->
  wf s' /\ view s' = Spec.unset dirty (key_of s i) (view s).
Proof.
  intros Hwf Hi Hl [He Ho Hus Hg Ha _ _].
  assert (state_of s i <> ST_EMPTY) as Hne by by rewrite Hl.
  pose proof (wf_used s Hwf).
  pose proof (wf_entry s Hwf i Hi) as Hok. pose proof (ok_key _ _ Hok Hne).
  pose proof (ok_val _ _ Hok Hl).
  pose proof (has_dirty_set dirty _ (ok_flags _ _ Hok)) as [Hf Hd].
  assert (key_of s' i = key_of s i) as Hk by (unfold key_of; by rewrite He, Ha).
  assert (view s' = partial_alter (fun _ => if dirty || Spec.dirty (view s) (key_of s i)
            then Some (None, true) else None) (key_of s i) (view s) /\ wf s') as [-> Hwf'].
  { apply and_comm. apply (update_bucket s s' i (key_of s i)); try done.
    - intros x _. by rewrite Ha.
    - lia.
    - unfold footprint, state_of in *. rewrite He, Hus, Hl. cbn. lia.
    - split; unfold state_of; rewrite ?He, ?Hus, ?Hk; cbn; try done; auto.
      intros _. by apply (ok_hash _ _ Hok).
    - unfold state_of. by rewrite He.
    - by apply reachable_at.
    - by left.
    - unfold record. rewrite He. cbn. rewrite Hd, <- dirty_at by done.
      by destruct (dirty || Spec.dirty (view s) (key_of s i)). }
  split; [done|]. unfold Spec.unset. generalize (view s) as m. intros m.
  destruct (dirty || Spec.dirty m (key_of s i)); reflexivity.
Qed.

(** The disk has caught up with one bucket. *)
Lemma clean_effect s s' i :
  wf s -> in_index i -> state_of s i <> ST_EMPTY ->
  (let e := entry s i in
   changed s s' i
     (mkEntry (e_hash e) (e_key_off e) (e_key_len e) (e_val_off e) (e_val_len e) (e_state e) 0)
     (used s) (garbage s) (arena s)) ->
  wf s' /\ view s' = Spec.clean (key_of s i) (view s).
Proof.
  intros Hwf Hi Hne [He Ho Hus Hg Ha _ _].
  pose proof (wf_used s Hwf).
  pose proof (wf_entry s Hwf i Hi) as Hok.
  assert (key_of s' i = key_of s i) as Hk by (unfold key_of; by rewrite He, Ha).
  assert (val_of s' i = val_of s i) as Hv by (unfold val_of; by rewrite He, Ha).
  assert (wf s' /\ view s' = partial_alter (fun _ => if state_of s i =? ST_LIVE
            then Some (Some (val_of s i), false) else None) (key_of s i) (view s)) as [Hwf' ->].
  { apply (update_bucket s s' i (key_of s i)); try done.
    - intros x _. by rewrite Ha.
    - lia.
    - unfold footprint. rewrite He, Hus. cbn. lia.
    - destruct Hok. split; unfold state_of in *; rewrite ?He, ?Hus, ?Hk; cbn; auto.
    - unfold state_of. by rewrite He.
    - by apply reachable_at.
    - by left.
    - unfold record, state_of. rewrite He, Hv, Hk. cbn.
      destruct (e_state (entry s i) =? ST_LIVE); [done|].
      by destruct (e_state (entry s i) =? ST_TOMB). }
  split; [done|]. unfold Spec.clean. apply partial_alter_ext. intros o Ho'.
  rewrite view_at in Ho' by done. subst o. unfold record, state_of.
  destruct (e_state (entry s i) =? ST_LIVE); [done|].
  by destruct ((e_state (entry s i) =? ST_TOMB) && has_dirty (e_flags (entry s i))).
Qed.
