(* ===== verification/ShmCompact.v ===== *)
(** [compact], [clear] and [ensure_space].

    Compaction snapshots the records, wipes the index, and inserts the
    records again in bucket order.  It never invents or alters a record, and
    it keeps them all when no record sits in a bucket its probe reached by
    wrapping around the end of the index ([no_wrap]). *)

From S2P Require Import Prelude Consts Hash Spec Segment Shm ShmInv ShmProbe ShmOps SeqCount ShmWrite.

(** * Wiping *)

(** An index with nothing in it, as [ftruncate] or [wipe] leaves it. *)
Record fresh (s : Segment) : Prop := mk_fresh {
  fresh_entry : forall i, in_index i -> entry s i = zero_entry;
  fresh_used : used s = 0;
  fresh_garbage : garbage s = 0
}.

Lemma fresh_state s i : fresh s -> in_index i -> state_of s i = ST_EMPTY.
Proof. intros Hs Hi. unfold state_of. by rewrite (fresh_entry s Hs). Qed.

Lemma fresh_wf s : fresh s -> wf s.
Proof.
  intros Hs. pose proof (fresh_used s Hs) as Hu.
  split.
  - rewrite Hu. done.
  - rewrite zsum_0; [lia|]. intros i Hi%buckets_in.
    unfold footprint. by rewrite (fresh_entry s Hs).
  - intros i Hi. pose proof (fresh_state s i Hs Hi) as He.
    split; rewrite ?He; try done; [by left| |]; rewrite (fresh_entry s Hs i Hi); auto.
  - intros i Hi Hne. by rewrite fresh_state in Hne.
  - intros i j Hi _ Hne. by rewrite fresh_state in Hne.
Qed.

Lemma fresh_view s : fresh s -> view s = ∅.
Proof.
  intros Hs. apply map_eq. intros k. rewrite lookup_empty.
  destruct (view s !! k) eqn:E; [|done].
  apply view_lookup in E as (i & Hi & E); [|by apply fresh_wf].
  by apply record_nonempty in E; rewrite fresh_state in E.
Qed.

Lemma zero_segment_fresh : fresh zero_segment.
Proof. by split. Qed.

Lemma run_wipe_entry s i :
  let s' := snd (run (wipe_entry i) s) in
  entry s' i = zero_entry /\ (forall j, j <> i -> entry s' j = entry s j) /\
  (forall k, slot s' k = slot s k) /\ aseq s' = aseq s.
Proof.
  unfold wipe_entry. run_simpl. split_and!; intros.
  - seg_simpl. by destruct (entry s i).
  - by seg_simpl.
  - by seg_simpl.
  - repeat rewrite aseq_store by discriminate. done.
Qed.

Lemma run_wipe s :
  let s' := snd (run wipe s) in
  fresh s' /\ (forall k, slot s' k = slot s k) /\ aseq s' = aseq s.
Proof.
  unfold wipe. run_simpl. set (s1 := snd (run (forM buckets wipe_entry) s)).
  assert ((forall i, i ∈ buckets -> entry s1 i = zero_entry) /\
          (forall k, slot s1 k = slot s k) /\ aseq s1 = aseq s) as (He & Hs & Ha).
  { apply (run_forM_ind (fun pre s1 => (forall i, i ∈ pre -> entry s1 i = zero_entry) /\
      (forall k, slot s1 k = slot s k) /\ aseq s1 = aseq s) buckets wipe_entry s).
    - split_and!; [|done..]. intros i Hi. by apply elem_of_nil in Hi.
    - intros pre x post s2 _ (IH1 & IH2 & IH3).
      pose proof (run_wipe_entry s2 x) as (Hx & Hj & Hsl & Ha). split_and!.
      + intros i Hi. destruct (decide (i = x)) as [->|Hix]; [done|].
        rewrite Hj by done. apply IH1. by apply elem_of_app in Hi as [|Hi%list_elem_of_singleton].
      + intros k. by rewrite Hsl.
      + by rewrite Ha. }
  clearbody s1. split_and!.
  - split.
    + intros i Hi. seg_simpl. apply He. by apply buckets_in.
    + by seg_simpl.
    + by seg_simpl.
  - intros k. by seg_simpl.
  - repeat rewrite aseq_store by discriminate. done.
Qed.

(** * The snapshot *)

Definition keep_of (r : bytes * item) : Keep :=
  mkKeep (fst r) (fst (snd r)) (if snd (snd r) then FL_DIRTY else 0).

Lemma run_keep_entry s i acc :
  wf s -> in_index i ->
  run (keep_entry i acc) s =
    (match record s i with Some r => acc ++ [keep_of r] | None => acc end, s).
Proof.
  intros Hwf Hi. pose proof (wf_entry s Hwf i Hi) as Hok. pose proof (wf_used s Hwf).
  pose proof (ok_key _ _ Hok) as Hk. pose proof (ok_val _ _ Hok) as Hv.
  assert ((if has_dirty (e_flags (entry s i)) then FL_DIRTY else 0) = e_flags (entry s i)) as Hf
    by (by destruct (ok_flags _ _ Hok) as [->| ->]).
  unfold keep_entry, record, state_of in *. run_simpl. cbn [load].
  destruct (Z.eqb_spec (e_state (entry s i)) ST_EMPTY) as [E|E].
  { rewrite E. by run_simpl. }
  specialize (Hk E). run_simpl. cbn [load].
  destruct (Z.eqb_spec (e_state (entry s i)) ST_LIVE) as [El|El].
  - specialize (Hv El). rewrite El. cbn. run_simpl. cbn [load].
    rewrite run_arena_slice by lia. cbn [fst snd]. run_simpl. cbn [load].
    rewrite run_arena_slice by lia. cbn [fst snd]. run_simpl.
    unfold keep_of. cbn. by rewrite Hf.
  - destruct (ok_state _ _ Hok) as [|[|Et]]; [done..|]. unfold state_of in Et. rewrite Et.
    destruct (has_dirty (e_flags (entry s i))) eqn:Hd; cbn; run_simpl; [|done].
    cbn [load]. rewrite run_arena_slice by lia. cbn [fst snd]. run_simpl.
    unfold keep_of. cbn. by rewrite Hf.
Qed.

Lemma foldl_omap {A B C} (f : A -> option B) (g : B -> C) (l : list A) acc :
  foldl (fun acc x => match f x with Some r => acc ++ [g r] | None => acc end) acc l =
    acc ++ (g <$> omap f l).
Proof.
  revert acc; induction l as [|x l IH]; intros acc; simpl; [by rewrite app_nil_r|].
  rewrite IH. destruct (f x); [|done]. by rewrite <- app_assoc.
Qed.

Lemma run_keep s :
  wf s -> run (foldM buckets [] keep_entry) s = (keep_of <$> omap (record s) buckets, s).
Proof.
  intros Hwf. rewrite (run_foldM_pure _ _ _
    (fun i acc => match record s i with Some r => acc ++ [keep_of r] | None => acc end)).
  - by rewrite foldl_omap.
  - intros i acc Hi. apply run_keep_entry; [done|]. by apply buckets_in.
Qed.

(** * Re-insertion *)

(** Arena bytes a record needs. *)
Definition rec_size (r : bytes * item) : Z :=
  len (fst r) + match fst (snd r) with Some v => len v | None => 0 end.

(** A record [view] can hold: a deletion is kept only while it is owed. *)
Definition rec_ok (r : bytes * item) : Prop := fst (snd r) = None -> snd (snd r) = true.

Lemma record_ok s i r : record s i = Some r -> rec_ok r.
Proof. unfold record, rec_ok. intros H. repeat case_match; naive_solver. Qed.

(** What inserting one record does to a consistent segment: nothing if the
    probe finds no bucket, else one bucket is taken. *)
Record reinserted (s s' : Segment) (r : bytes * item) (i : Z) : Prop := mk_reinserted {
  ri_index : in_index i;
  ri_claim : claimable s i;
  ri_reach : reachable s (fst r) i;
  ri_wf : wf s';
  ri_view : view s' = <[fst r := snd r]> (view s);
  ri_used : used s' = used s + rec_size r;
  ri_key : key_of s' i = fst r;
  ri_other : forall j, in_index j -> j <> i -> state_of s j <> ST_EMPTY ->
    key_of s' j = key_of s j;
  ri_state : forall j, j <> i -> state_of s' j = state_of s j
}.

Lemma run_reinsert s r :
  wf s -> no_key s (fst r) -> rec_ok r -> used s + rec_size r <= ARENA_SIZE ->
  let s' := snd (run (reinsert (keep_of r)) s) in
  ((s' = s /\ forall j, 0 <= j < MAX_PROBES -> ~ claimable s (probe_at (fst r) j)) \/
   exists i, reinserted s s' r i) /\
  (forall k, slot s' k = slot s k) /\ aseq s' = aseq s.
Proof.
  destruct r as [key [ov d]]. unfold rec_size, rec_ok. cbn [fst snd].
  intros Hwf Hno Hok Hu. cbv zeta. pose proof (wf_used s Hwf) as Hus. pose proof (len_nonneg key).
  assert (ARENA_SIZE < 2 ^ 32) by done.
  assert (0 <= match ov with Some v => len v | None => 0 end)
    by (destruct ov; [apply len_nonneg|done]).
  unfold reinsert, keep_of. cbn [fst snd k_key k_val k_flags]. run_simpl.
  destruct (run_probe_missing s key Hwf Hno) as (pr & -> & Hpr). cbn [fst snd].
  destruct pr as [[i found]|]; [|by split; [left|]].
  destruct Hpr as (-> & Hi & Hc & Hr). run_simpl.
  rewrite run_arena_alloc by lia. cbn [fst snd]. run_simpl.
  rewrite (u32_small (len key)) by lia.
  set (fl := if d then FL_DIRTY else 0).
  assert (fl = 0 \/ fl = FL_DIRTY) as Hfl by (destruct d; auto).
  assert (has_dirty fl = d) as Hd by (by destruct d). clearbody fl.
  destruct ov as [v|].
  - run_simpl. rewrite run_arena_alloc by (seg_simpl; lia). cbn [fst snd]. run_simpl.
    rewrite (u32_small (len v)) by lia.
    match goal with |- context [slot ?x _ = slot s _] => set (s' := x) end.
    assert (changed s s' i
      (mkEntry (fnv1a key) (used s) (len key) (used s + len key) (len v) ST_LIVE fl)
      (used s + len key + len v) (garbage s)
      (mem_write (mem_write (arena s) (used s) key) (used s + len key) v)) as [He Ho Hu' Hg Ha Hs Hq].
    { subst s'. destruct (entry s i) eqn:E. solve_changed; rewrite ?E; done. }
    clearbody s'. split; [|by split]. right. exists i.
    destruct (claim_effect s s' i key (Some v) fl) as [Hwf' Hv'];
      unfold key_of, val_of, state_of; rewrite ?He, ?Hu', ?Ha; cbn; try done; try lia.
    { intros x Hx. rewrite !mem_write_below by lia. done. }
    { rewrite mem_read_write_disjoint by lia. apply mem_read_write_same. }
    { split_and!; try done; try lia. apply mem_read_write_same. }
    rewrite Hd in Hv'. split; cbn [fst snd]; try done.
    + unfold rec_size. cbn. lia.
    + unfold key_of. rewrite He, Ha. cbn.
      rewrite mem_read_write_disjoint by lia. apply mem_read_write_same.
    + intros j Hj Hji Hne. apply (update_key s s' i Hwf Ho); [|done..].
      intros x Hx. rewrite Ha, !mem_write_below by lia. done.
    + intros j Hji. unfold state_of. by rewrite Ho.
  - specialize (Hok eq_refl). subst d.
    run_simpl. cbn [fst snd].
    match goal with |- context [slot ?x _ = slot s _] => set (s' := x) end.
    assert (changed s s' i
      (mkEntry (fnv1a key) (used s) (len key) 0 0 ST_TOMB fl)
      (used s + len key) (garbage s) (mem_write (arena s) (used s) key))
      as [He Ho Hu' Hg Ha Hs Hq].
    { subst s'. destruct (entry s i) eqn:E. solve_changed; rewrite ?E; done. }
    clearbody s'. split; [|by split]. right. exists i.
    destruct (claim_effect s s' i key None fl) as [Hwf' Hv'];
      unfold key_of, val_of, state_of; rewrite ?He, ?Hu', ?Ha; cbn; try done; try lia.
    { intros x Hx. rewrite !mem_write_below by lia. done. }
    { apply mem_read_write_same. }
    rewrite Hd in Hv'. split; cbn [fst snd]; try done.
    + unfold rec_size. cbn. lia.
    + unfold key_of. rewrite He, Ha. cbn. apply mem_read_write_same.
    + intros j Hj Hji Hne. apply (update_key s s' i Hwf Ho); [|done..].
      intros x Hx. rewrite Ha, mem_write_below by lia. done.
    + intros j Hji. unfold state_of. by rewrite Ho.
Qed.

(** * The whole compaction *)

(** No record sits below the bucket its probe starts at: no lookup that
    succeeds has wrapped around the end of the index. *)
Definition no_wrap (s : Segment) : Prop :=
  forall i, in_index i -> record s i <> None -> fnv1a (key_of s i) mod INDEX_SLOTS <= i.

Lemma forM_omap {X Y} (f : X -> option Y) (body : Y -> prog unit) (l : list X) s :
  run (forM (omap f l) body) s =
    run (forM l (fun x => match f x with Some y => body y | None => ret tt end)) s.
Proof.
  revert s; induction l as [|x l IH]; intros s; [done|].
  rewrite run_forM_cons, <- IH. simpl. destruct (f x); [|done].
  by rewrite run_forM_cons.
Qed.

Lemma forM_fmap {X Y} (f : X -> Y) (body : Y -> prog unit) (l : list X) s :
  run (forM (f <$> l) body) s = run (forM l (fun x => body (f x))) s.
Proof.
  revert s; induction l as [|x l IH]; intros s; [done|].
  simpl. change (run (forM (f x :: (f <$> l)) body) s = run (forM (x :: l) (fun x => body (f x))) s).
  by rewrite !run_forM_cons, IH.
Qed.

Lemma buckets_split pre x post : buckets = pre ++ x :: post ->
  in_index x /\ forall y, y ∈ pre <-> 0 <= y < x.
Proof.
  intros H. assert (in_index x) as Hx.
  { apply buckets_in. rewrite H. apply elem_middle. }
  split; [done|]. pose proof buckets_lookup as Hnth.
  assert (x = Z.of_nat (length pre)) as Hlen.
  { apply Hnth. rewrite H. by rewrite list_lookup_middle. }
  intros y. rewrite list_elem_of_lookup. split.
  - intros (k & Hk). assert (buckets !! k = Some y) as E.
    { rewrite H. by apply lookup_app_l_Some. }
    apply Hnth in E as ->. apply lookup_lt_Some in Hk. lia.
  - intros Hy. exists (Z.to_nat y).
    assert (in_index y) as Hin by (unfold in_index in *; lia).
    apply buckets_in, list_elem_of_lookup in Hin as (k & Hk).
    apply Hnth in Hk as Hk'. rewrite H in Hk.
    rewrite lookup_app_l in Hk by lia. by replace (Z.to_nat y) with k by lia.
Qed.

Section compact.
Variable s : Segment.
Hypothesis Hwf : wf s.

Definition size_at (i : Z) : Z := match record s i with Some r => rec_size r | None => 0 end.

Lemma size_at_bound i : in_index i -> 0 <= size_at i <= footprint s i.
Proof using Hwf.
  intros Hi. pose proof (footprint_nonneg s i Hwf Hi) as Hf.
  pose proof (wf_entry s Hwf i Hi) as Hok.
  pose proof (ok_key _ _ Hok) as Hk. pose proof (ok_val _ _ Hok) as Hv.
  unfold size_at, record, footprint, rec_size, state_of, key_of, val_of in *.
  destruct (Z.eqb_spec (e_state (entry s i)) ST_LIVE) as [El|El].
  - rewrite El in *. cbn in *. specialize (Hk ltac:(done)). specialize (Hv ltac:(done)).
    rewrite !mem_read_len by lia. lia.
  - destruct (Z.eqb_spec (e_state (entry s i)) ST_TOMB) as [Et|Et]; cbn; [|lia].
    destruct (has_dirty _); cbn; [|lia]. rewrite Et in *. cbn in *.
    specialize (Hk ltac:(done)). rewrite mem_read_len by lia. lia.
Qed.

Lemma size_total : zsum size_at buckets <= used s.
Proof using Hwf.
  pose proof (wf_account s Hwf).
  assert (forall l, (forall i, i ∈ l -> in_index i) ->
            zsum size_at l <= zsum (footprint s) l) as Hle.
  { induction l as [|i l IH]; intros Hl; simpl; [lia|].
    pose proof (size_at_bound i (Hl i ltac:(apply list_elem_of_here))).
    enough (zsum size_at l <= zsum (footprint s) l) by lia.
    apply IH. intros j Hj. apply Hl. by apply list_elem_of_further. }
  specialize (Hle buckets (fun i => proj1 (buckets_in i))). lia.
Qed.

(** What re-insertion has achieved after the buckets [pre]. *)
Record progress (pre : list Z) (s' : Segment) : Prop := mk_progress {
  pr_wf : wf s';
  pr_used : used s' <= zsum size_at pre;
  pr_keys : forall j, in_index j -> state_of s' j <> ST_EMPTY ->
    exists i r, i ∈ pre /\ record s i = Some (key_of s' j, r);
  pr_sound : forall k r, view s' !! k = Some r -> exists i, i ∈ pre /\ record s i = Some (k, r);
  pr_complete : no_wrap s -> forall i k r, i ∈ pre -> record s i = Some (k, r) ->
    view s' !! k = Some r;
  pr_low : no_wrap s -> forall j, in_index j -> state_of s' j <> ST_EMPTY ->
    exists i, i ∈ pre /\ j <= i
}.

(** Re-inserting the record of the next bucket. *)
Lemma reinsert_no_key pre x r s' :
  (forall y, y ∈ pre <-> 0 <= y < x) -> in_index x -> record s x = Some r ->
  progress pre s' -> no_key s' (fst r).
Proof using Hwf.
  intros Hpre Hx Hr Hp j Hj Hne Hk.
  destruct (pr_keys _ _ Hp j Hj Hne) as (i & r' & Hi & Hri).
  apply Hpre in Hi as Hix. destruct r as [k it]. simpl in Hk. subst k.
  assert (i = x); [|lia].
  apply (wf_unique s Hwf); [unfold in_index in *; lia|done|..];
    eauto using record_nonempty. apply record_key in Hr, Hri. congruence.
Qed.

(** Without wrap-around, the record's old bucket is still free, so its probe
    succeeds and goes no further. *)
Lemma reinsert_bucket pre x r s' :
  (forall y, y ∈ pre <-> 0 <= y < x) -> in_index x -> record s x = Some r ->
  progress pre s' -> no_wrap s ->
  exists j, 0 <= j < MAX_PROBES /\ probe_at (fst r) j = x /\ claimable s' x /\
    forall j', 0 <= j' <= j -> probe_at (fst r) j' <= x.
Proof using Hwf.
  intros Hpre Hx Hr Hp Hnw. destruct r as [k it]. cbn [fst].
  pose proof (record_nonempty _ _ _ _ Hr) as Hne.
  specialize (Hnw x Hx ltac:(by rewrite Hr)) as Hst.
  destruct (wf_chain s Hwf x Hx Hne) as (j & Hj & Ex & _).
  apply record_key in Hr. rewrite Hr in *. exists j. split_and!; try done; try lia.
  - left. destruct (decide (state_of s' x = ST_EMPTY)) as [|Hne']; [done|].
    destruct (pr_low _ _ Hp Hnw x Hx Hne') as (y & Hy & Hle). apply Hpre in Hy. lia.
  - intros j' Hj'. clear Hp. unfold probe_at, in_index, INDEX_SLOTS, MAX_PROBES in *.
    pose proof (Z.mod_pos_bound (fnv1a k) 8192 ltac:(lia)).
    destruct (decide (fnv1a k mod 8192 + j < 8192)).
    + rewrite Z.mod_small in Ex by lia. rewrite Z.mod_small by lia. lia.
    + exfalso. rewrite <- (Z.mod_add _ (-1)), Z.mod_small in Ex by lia. lia.
Qed.

(** What holds after [pre] still does, as far as it does not speak of the
    next bucket, once that bucket is done without a change. *)
Lemma progress_weaken pre x s' :
  progress pre s' -> 0 <= size_at x ->
  (no_wrap s -> forall k r, record s x = Some (k, r) -> view s' !! k = Some r) ->
  progress (pre ++ [x]) s'.
Proof.
  intros [] Hsz Hnew. split; try done.
  - rewrite zsum_app. simpl. lia.
  - intros j Hj Hne. destruct (pr_keys0 j Hj Hne) as (i & r & Hi & E).
    exists i, r. auto with nvram.
  - intros k r E. destruct (pr_sound0 k r E) as (i & Hi & E'). exists i. auto with nvram.
  - intros Hnw i k r [Hi| ->]%elem_snoc E; [by eapply pr_complete0|by apply Hnew].
  - intros Hnw j Hj Hne. destruct (pr_low0 Hnw j Hj Hne) as (i & Hi & Hle).
    exists i. auto with nvram.
Qed.

Section step.
Variables (pre post : list Z) (x : Z) (k : bytes) (it : item) (s' s2 : Segment) (b : Z).
Hypothesis Hpre : forall y, y ∈ pre <-> 0 <= y < x.
Hypothesis Hx : in_index x.
Hypothesis Hr : record s x = Some (k, it).
Hypothesis Hp : progress pre s'.
Hypothesis Hri : reinserted s' s2 (k, it) b.

Lemma step_old j :
  in_index j -> j <> b -> state_of s2 j <> ST_EMPTY ->
  state_of s' j <> ST_EMPTY /\ key_of s2 j = key_of s' j.
Proof using Hri.
  intros Hj Hjb Hne. rewrite (ri_state _ _ _ _ Hri) in Hne by done.
  split; [done|]. by apply (ri_other _ _ _ _ Hri).
Qed.

Lemma step_keys j :
  in_index j -> state_of s2 j <> ST_EMPTY ->
  exists i r, i ∈ pre ++ [x] /\ record s i = Some (key_of s2 j, r).
Proof using Hri Hr Hp.
  intros Hj Hne. destruct (decide (j = b)) as [->|Hjb].
  - exists x, it. rewrite (ri_key _ _ _ _ Hri). auto with nvram.
  - destruct (step_old j Hj Hjb Hne) as [Hne' ->].
    destruct (pr_keys _ _ Hp j Hj Hne') as (i & r & Hi & E). exists i, r. auto with nvram.
Qed.

Lemma step_sound k' r' :
  view s2 !! k' = Some r' -> exists i, i ∈ pre ++ [x] /\ record s i = Some (k', r').
Proof using Hri Hr Hp.
  rewrite (ri_view _ _ _ _ Hri). cbn [fst snd].
  intros [[<- <-]|[_ E]]%lookup_insert_Some.
  - exists x. auto with nvram.
  - destruct (pr_sound _ _ Hp k' r' E) as (i & Hi & E'). exists i. auto with nvram.
Qed.

Lemma step_complete i k' r' :
  no_wrap s -> i ∈ pre ++ [x] -> record s i = Some (k', r') -> view s2 !! k' = Some r'.
Proof using Hri Hr Hp Hpre Hx Hwf.
  intros Hnw Hi E. rewrite (ri_view _ _ _ _ Hri). cbn [fst snd].
  apply elem_snoc in Hi as [Hi| ->].
  - rewrite lookup_insert_ne; [by eapply (pr_complete _ _ Hp)|]. intros ->.
    apply Hpre in Hi as Hix. assert (i = x); [|lia].
    apply (wf_unique s Hwf); [unfold in_index in *; lia|done|..];
      eauto using record_nonempty. apply record_key in Hr, E. congruence.
  - rewrite Hr in E. simplify_eq. by rewrite lookup_insert_eq.
Qed.

Lemma step_low j :
  no_wrap s -> in_index j -> state_of s2 j <> ST_EMPTY -> exists i, i ∈ pre ++ [x] /\ j <= i.
Proof using Hri Hr Hp Hpre Hx Hwf.
  intros Hnw Hj Hne. destruct (decide (j = b)) as [->|Hjb].
  - exists x. split; [auto with nvram|].
    destruct (reinsert_bucket pre x _ s' Hpre Hx Hr Hp Hnw) as (jx & Hjx & Ejx & Hcx & Hle).
    destruct (ri_reach _ _ _ _ Hri) as (jb & Hjb & -> & Hcb). apply Hle. split; [lia|].
    destruct (decide (jb <= jx)) as [|Hgt]; [done|]. exfalso.
    assert (state_of s' x <> ST_EMPTY) as Hxne by (rewrite <- Ejx; apply Hcb; lia).
    destruct (pr_low _ _ Hp Hnw x Hx Hxne) as (y & Hy & Hyle). apply Hpre in Hy. lia.
  - destruct (step_old j Hj Hjb Hne) as [Hne' _].
    destruct (pr_low _ _ Hp Hnw j Hj Hne') as (i & Hi & Hle). exists i. auto with nvram.
Qed.
End step.

(** The next record can be inserted: its key is not there, and there is room. *)
Lemma reinsert_ready pre x post r s' :
  buckets = pre ++ x :: post -> record s x = Some r -> progress pre s' ->
  no_key s' (fst r) /\ used s' + rec_size r <= ARENA_SIZE.
Proof using Hwf.
  intros Hb Hr Hp. destruct (buckets_split pre x post Hb) as [Hx Hpre].
  split; [by eapply reinsert_no_key|].
  assert (size_at x = rec_size r) as Hsz by (unfold size_at; by rewrite Hr).
  pose proof size_total as Ht. rewrite Hb, zsum_app in Ht. simpl in Ht.
  assert (0 <= zsum size_at post).
  { apply zsum_nonneg. intros i Hi. apply size_at_bound, buckets_in.
    rewrite Hb. apply elem_of_app. right. by apply list_elem_of_further. }
  pose proof (pr_used _ _ Hp). pose proof (wf_used s Hwf). lia.
Qed.

Lemma progress_step pre x post r s' :
  buckets = pre ++ x :: post -> record s x = Some r -> progress pre s' ->
  let s2 := snd (run (reinsert (keep_of r)) s') in
  progress (pre ++ [x]) s2 /\ (forall k, slot s2 k = slot s' k) /\ aseq s2 = aseq s'.
Proof using Hwf.
  intros Hb Hr Hp. destruct (buckets_split pre x post Hb) as [Hx Hpre].
  destruct (reinsert_ready pre x post r s' Hb Hr Hp) as [Hno Hroom].
  pose proof (size_at_bound x Hx) as [Hsz0 _].
  assert (size_at x = rec_size r) as Hsz by (unfold size_at; by rewrite Hr).
  destruct (run_reinsert s' r (pr_wf _ _ Hp) Hno (record_ok _ _ _ Hr) Hroom)
    as [Hcase Hseq]. cbv zeta. split; [|done]. destruct Hcase as [[-> Hfull]|[b Hri]].
  - apply progress_weaken; [done..|]. intros Hnw.
    destruct (reinsert_bucket pre x r s' Hpre Hx Hr Hp Hnw) as (j & Hj & Ej & Hc & _).
    exfalso. apply (Hfull j Hj). by rewrite Ej.
  - destruct r as [k it]. split; eauto using step_keys, step_sound, step_complete, step_low.
    + apply Hri.
    + rewrite zsum_app, (ri_used _ _ _ _ Hri). simpl. pose proof (pr_used _ _ Hp). lia.
Qed.

Lemma progress_proper pre s1 s2 : same_data s1 s2 -> progress pre s1 -> progress pre s2.
Proof.
  intros Hs [H1 H2 H3 H4 H5 H6].
  assert (forall i, state_of s2 i = state_of s1 i) as Hst
    by (intros; symmetry; by apply state_of_proper).
  assert (forall i, key_of s2 i = key_of s1 i) as Hk
    by (intros; symmetry; by apply key_of_proper).
  assert (view s2 = view s1) as Hv by (symmetry; by apply view_proper).
  split.
  - by eapply same_data_wf.
  - by rewrite (same_used _ _ Hs).
  - intros j. rewrite Hst, Hk. apply H3.
  - intros k r. rewrite Hv. apply H4.
  - intros Hnw i k r. rewrite Hv. by apply H5.
  - intros Hnw j. rewrite Hst. by apply H6.
Qed.
End compact.

Lemma run_arena_begin s : run arena_begin s = (tt, store CArenaSeq (next_odd (aseq s)) s).
Proof. done. Qed.
Lemma run_arena_end s : run arena_end s = (tt, store CArenaSeq (next_even (aseq s)) s).
Proof. done. Qed.

(** Bytes the records of the segment need. *)
Definition live_size (s : Segment) : Z := zsum (size_at s) buckets.

Lemma progress_start s s' : fresh s' -> progress s [] s'.
Proof.
  intros Hf. split.
  - by apply fresh_wf.
  - by rewrite (fresh_used s' Hf).
  - intros j Hj Hne. by rewrite fresh_state in Hne.
  - intros k r E. by rewrite fresh_view in E.
  - intros _ i k r Hi. by apply elem_of_nil in Hi.
  - intros _ j Hj Hne. by rewrite fresh_state in Hne.
Qed.

(** Everything [compact] does, short of its effect on the view. *)
Lemma compact_progress s :
  wf s ->
  let s' := snd (run compact s) in
  progress s buckets s' /\ (forall k, slot s' k = slot s k) /\
  aseq s' = next_even (next_odd (aseq s)).
Proof.
  intros Hwf. cbv zeta. unfold compact. run_simpl.
  rewrite run_keep by done. cbn [fst snd]. rewrite run_arena_begin. cbn [fst snd].
  set (s0 := store CArenaSeq _ s).
  assert (aseq s0 = next_odd (aseq s)) as Ha0 by apply aseq_store_same.
  assert (forall k, slot s0 k = slot s k) as Hs0 by (intros; subst s0; by seg_simpl).
  clearbody s0. destruct (run_wipe s0) as (Hf & Hs1 & Ha1).
  set (s1 := snd (run wipe s0)) in *. clearbody s1.
  rewrite forM_fmap, forM_omap.
  set (body := fun x => match record s x with Some y => reinsert (keep_of y) | None => ret tt end).
  assert (progress s buckets (snd (run (forM buckets body) s1)) /\
          (forall k, slot (snd (run (forM buckets body) s1)) k = slot s1 k) /\
          aseq (snd (run (forM buckets body) s1)) = aseq s1) as (Hp & Hs2 & Ha2).
  { apply (run_forM_ind (fun pre s' => progress s pre s' /\
      (forall k, slot s' k = slot s1 k) /\ aseq s' = aseq s1) buckets body s1).
    - split_and!; [by apply progress_start|done..].
    - intros pre x post s' Hb (Hp & Hs & Ha). unfold body.
      destruct (record s x) as [r|] eqn:Hr.
      + destruct (progress_step s Hwf pre x post r s' Hb Hr Hp) as (Hp' & Hs' & Ha').
        split_and!; [done| |congruence]. intros k. by rewrite Hs'.
      + rewrite run_ret. split_and!; try done. apply progress_weaken; try done.
        * unfold size_at. by rewrite Hr.
        * intros _ k r. by rewrite Hr. }
  set (s2 := snd (run (forM buckets body) s1)) in *. clearbody s2.
  rewrite run_arena_end. cbn [snd]. split_and!.
  - apply (progress_proper s buckets s2); [|done]. by apply same_data_store.
  - intros k. seg_simpl. congruence.
  - rewrite aseq_store_same. congruence.
Qed.

(** Compaction never invents or alters a record, and keeps every one of them
    when none has wrapped around. *)
Lemma compact_view s :
  wf s ->
  let s' := snd (run compact s) in
  wf s' /\ view s' ⊆ view s /\ (no_wrap s -> view s' = view s) /\ used s' <= live_size s.
Proof.
  intros Hwf. destruct (compact_progress s Hwf) as ([] & _ & _). cbv zeta.
  set (s' := snd (run compact s)) in *. clearbody s'.
  assert (view s' ⊆ view s) as Hsub.
  { apply map_subseteq_spec. intros k r E. destruct (pr_sound0 k r E) as (i & Hi & E').
    apply view_lookup; [done|]. exists i. by rewrite <- buckets_in. }
  split_and!; try done.
  intros Hnw. apply map_eq. intros k. destruct (view s !! k) as [r|] eqn:E.
  - apply view_lookup in E as (i & Hi & E); [|done].
    apply (pr_complete0 Hnw i); [by apply buckets_in|done].
  - by eapply lookup_weaken_None.
Qed.
