(* ===== verification/ShmRefine.v ===== *)
(** The public operations of the segment refine the abstract store. *)

From S2P Require Import Prelude Consts Hash Spec Segment Shm ShmInv ShmProbe ShmOps SeqCount ShmWrite ShmCompact.

(** * Room *)

(** Will [ensure_space] compact? *)
Definition needs_compact (s : Segment) (need : Z) : bool :=
  if used s + need <=? ARENA_SIZE then ARENA_SIZE / COMPACT_GARBAGE_DIVISOR <? garbage s
  else true.

(** Compaction, if it comes, loses nothing. *)
Definition compact_safe (s : Segment) (need : Z) : Prop :=
  needs_compact s need = true -> no_wrap s.

Record spaced (s s' : Segment) (need : Z) (r : result unit) : Prop := mk_spaced {
  sp_wf : wf s';
  sp_sub : view s' ⊆ view s;
  sp_view : compact_safe s need -> view s' = view s;
  sp_slot : forall k, slot s' k = slot s k;
  sp_aseq : aseq s' = if needs_compact s need then bump (aseq s) else aseq s;
  sp_room : r = Ok tt -> used s' + need <= ARENA_SIZE;
  sp_ok : live_size s + need <= ARENA_SIZE -> r = Ok tt
}.

Lemma live_size_le_used s : wf s -> live_size s <= used s.
Proof. apply size_total. Qed.

Lemma run_ensure_space s need :
  wf s -> 0 <= need < 2 ^ 63 ->
  spaced s (snd (run (ensure_space need) s)) need (fst (run (ensure_space need) s)).
Proof.
  intros Hwf Hn. pose proof (wf_used s Hwf). pose proof (live_size_le_used s Hwf).
  assert (ARENA_SIZE < 2 ^ 32) by done.
  destruct (compact_view s Hwf) as (Hw & Hsub & Heq & Hu).
  destruct (compact_progress s Hwf) as (_ & Hs & Ha).
  unfold ensure_space.
  revert Hw Hsub Heq Hu Hs Ha. generalize compact as c. intros c Hw Hsub Heq Hu Hs Ha.
  run_simpl. cbn [load]. fold (used s). rewrite wadd_small by lia.
  unfold needs_compact.
  destruct (Z.leb_spec (used s + need) ARENA_SIZE) as [Hfit|Hfull].
  - run_simpl. cbn [load]. fold (garbage s).
    destruct (ARENA_SIZE / COMPACT_GARBAGE_DIVISOR <? garbage s) eqn:Hg; run_simpl.
    + revert Hw Hsub Heq Hu Hs Ha. generalize (snd (run c s)) as s'. intros s' **.
      split; unfold compact_safe, needs_compact; rewrite ?Hg;
        destruct (Z.leb_spec (used s + need) ARENA_SIZE); try lia; auto; lia.
    + split; unfold compact_safe, needs_compact; rewrite ?Hg;
        destruct (Z.leb_spec (used s + need) ARENA_SIZE); try lia; auto.
  - run_simpl. cbn [load].
    revert Hw Hsub Heq Hu Hs Ha. generalize (snd (run c s)) as s'. intros s' **. fold (used s').
    pose proof (wf_used s' ltac:(done)). rewrite wadd_small by lia.
    split; unfold compact_safe, needs_compact;
      destruct (Z.leb_spec (used s + need) ARENA_SIZE); try lia; auto;
      destruct (Z.ltb_spec ARENA_SIZE (used s' + need)); try done; lia.
Qed.

(** * Locating a key through the view *)

Lemma get_live s key v :
  wf s -> Spec.get (view s) key = Some v ->
  exists i, in_index i /\ state_of s i = ST_LIVE /\ key_of s i = key /\ val_of s i = v.
Proof.
  intros Hwf Hg. destruct (key_cases s key) as [(i & Hi & Hne & Hk)|Hno].
  - rewrite <- Hk, get_at in Hg by done. exists i.
    destruct (Z.eqb_spec (state_of s i) ST_LIVE); [|done]. by simplify_eq.
  - by rewrite get_no_key in Hg.
Qed.

Lemma run_holds_value s key val :
  wf s ->
  run (holds_value key val (fnv1a key)) s =
    (bool_decide (Spec.get (view s) key = Some val), s).
Proof.
  intros Hwf. unfold holds_value. run_simpl.
  destruct (key_cases s key) as [(i & Hi & Hne & Hk)|Hno].
  - rewrite (run_probe_found s key i) by done. cbn [fst snd]. run_simpl. cbn [load].
    fold (state_of s i). rewrite <- Hk, get_at by done.
    destruct (Z.eqb_spec (state_of s i) ST_LIVE) as [El|El]; [|done].
    pose proof (ok_val _ _ (wf_entry s Hwf i Hi) El). pose proof (wf_used s Hwf).
    run_simpl. cbn [load]. rewrite run_arena_eq by lia. fold (val_of s i).
    f_equal. apply bool_decide_ext. split; [by intros ->|by intros [= ->]].
  - destruct (run_probe_missing s key Hwf Hno) as (r & -> & Hr). cbn [fst snd].
    rewrite get_no_key by done. rewrite bool_decide_eq_false_2 by done.
    destruct r as [[i found]|]; [|done]. by destruct Hr as (-> & _).
Qed.

(** * [put] *)

(** How the counters may move in an update of [key]: only its own, and that
    one by a full bracket. *)
Definition slots_bumped (s s' : Segment) (key : bytes) : Prop :=
  forall k, slot s' k = if decide (k = key_slot key) then bump (slot s k) else slot s k.

(** The update between [seq_begin] and [seq_end]. *)
Lemma run_bracket {A} (body : prog A) key s :
  let s1 := store (CSlot (key_slot key)) (next_odd (slot s (key_slot key))) s in
  let s2 := snd (run body s1) in
  (forall k, slot s2 k = slot s1 k) ->
  let r := run (seq_begin (key_slot key) ;!
                (let! a := body in seq_end (key_slot key) ;! ret a)) s in
  fst r = fst (run body s1) /\ same_data s2 (snd r) /\ same_data s s1 /\
  slots_bumped s (snd r) key /\ aseq (snd r) = aseq s2.
Proof.
  cbv zeta. intros Hs. run_simpl. rewrite run_seq_begin. cbn [fst snd].
  set (s1 := store _ _ s) in *. set (s2 := snd (run body s1)) in *.
  destruct (run_seq_end (key_slot key) s2) as [g Hg]. rewrite Hg. cbn [fst snd].
  split_and!; [done| | | |].
  - rewrite <- !same_data_store by done. done.
  - by apply same_data_store.
  - intros k. rewrite slot_store by done. case_decide as Hk.
    + subst k. rewrite slot_store_same, Hs. subst s1. by rewrite slot_store_same.
    + rewrite slot_store by congruence. rewrite Hs. subst s1. by rewrite slot_store by congruence.
  - by rewrite !aseq_store by done.
Qed.

Record put_result (s s' : Segment) (key val : bytes) (dirty : bool) (r : result unit)
    (m : gmap bytes item) : Prop := mk_put_result {
  pu_wf : wf s';
  pu_sub : m ⊆ view s;
  pu_eq : compact_safe s (len key + len val) -> m = view s;
  pu_same : Spec.get (view s) key = Some val -> m = view s;
  pu_view : view s' = match r with Ok _ => Spec.put key val dirty m | Err => m end;
  pu_slot : if is_ok r && negb (bool_decide (Spec.get (view s) key = Some val))
    then slots_bumped s s' key else forall k, slot s' k = slot s k
}.

Lemma get_sub (m1 m2 : gmap bytes item) key v :
  m1 ⊆ m2 -> Spec.get m1 key = Some v -> Spec.get m2 key = Some v.
Proof.
  intros Hsub. unfold Spec.get. destruct (m1 !! key) as [r|] eqn:E; [|done].
  by rewrite (lookup_weaken m1 m2 _ _ E Hsub).
Qed.

Lemma put_insert key val d m :
  Spec.get m key <> Some val ->
  Spec.put key val d m = <[key := (Some val, d || Spec.dirty m key)]> m.
Proof. intros H. unfold Spec.put. by rewrite bool_decide_eq_false_2. Qed.

(** The part of [put] after the probe, on a segment with room. *)
Lemma run_put_body s key val dirty i found :
  wf s -> used s + (len key + len val) <= ARENA_SIZE ->
  probe_post s key (Some (i, found)) -> Spec.get (view s) key <> Some val ->
  let r := run (put_locked i found key val (fnv1a key) dirty) s in
  fst r = Ok tt /\ wf (snd r) /\ view (snd r) = Spec.put key val dirty (view s) /\
  (forall k, slot (snd r) k = slot s k) /\ aseq (snd r) = aseq s.
Proof.
  intros Hwf Hu Hp Hg. pose proof (len_nonneg key). rewrite put_insert by done.
  destruct found; unfold probe_post in Hp.
  - destruct Hp as (Hi & Hne & Hk).
    destruct (run_put_locked_found s i key val dirty Hwf Hi ltac:(lia)) as (s' & -> & Hc).
    cbn [fst snd]. destruct (put_found_effect s s' i key val dirty) as [Hw Hv]; try done; [lia|].
    destruct Hc. by split_and!.
  - destruct Hp as (Hi & Hcl & Hno & Hr).
    destruct (run_put_locked_new s i key val dirty Hwf ltac:(lia)) as (s' & -> & Hc).
    cbn [fst snd]. destruct (put_new_effect s s' i key val dirty) as [Hw Hv]; try done; [lia|].
    destruct Hc. split_and!; try done. rewrite Hv. unfold Spec.dirty.
    rewrite view_none by done. by rewrite orb_false_r.
Qed.

Lemma probe_post_proper s1 s2 key r : same_data s1 s2 -> probe_post s1 key r -> probe_post s2 key r.
Proof.
  intros Hs.
  assert (forall i, state_of s2 i = state_of s1 i) as Hst
    by (intros; symmetry; by apply state_of_proper).
  assert (forall i, key_of s2 i = key_of s1 i) as Hk
    by (intros; symmetry; by apply key_of_proper).
  unfold probe_post, no_key, reachable, claimable. destruct Hs as [He _ _ _].
  destruct r as [[i [|]]|].
  - by rewrite Hst, Hk.
  - intros (? & ? & Hno & j & Hj & -> & Hc). rewrite Hst, He. split_and!; try done.
    + intros i' Hi'. rewrite Hst, Hk. by apply Hno.
    + exists j. split_and!; [lia..|done|]. intros j'. rewrite Hst. apply Hc.
  - intros [Hno Hf]. split.
    + intros i Hi. rewrite Hst, Hk. by apply Hno.
    + intros j Hj. rewrite Hst, He. by apply Hf.
Qed.

(** Every branch of [put]. *)
Lemma run_put s key val dirty :
  wf s -> len key + len val < 2 ^ 63 ->
  exists m, put_result s (snd (run (put key val dirty) s)) key val dirty
              (fst (run (put key val dirty) s)) m.
Proof.
  intros Hwf Hlen. pose proof (len_nonneg key). pose proof (len_nonneg val).
  unfold put. fold (key_slot key). rewrite run_bind, run_holds_value by done. cbn [fst snd].
  case_bool_decide as Hg.
  { exists (view s). rewrite run_ret. split; cbn [fst snd is_ok]; try done.
    - unfold Spec.put. by rewrite bool_decide_eq_true_2.
    - by rewrite bool_decide_eq_true_2. }
  rewrite wadd_small by lia. rewrite run_bind.
  destruct (run_ensure_space s (len key + len val) Hwf ltac:(lia))
    as [Hw Hsub Heq Hs _ Hroom _].
  destruct (run (ensure_space (len key + len val)) s) as [r s1]. cbn [fst snd] in *.
  assert (Spec.get (view s1) key <> Some val) as Hg1 by (intros E; by eapply Hg, get_sub).
  destruct r as [[]|].
  2: { exists (view s1). rewrite run_ret. split; cbn [fst snd is_ok]; done. }
  rewrite run_bind. destruct (run_probe s1 key Hw) as (pr & -> & Hpr). cbn [fst snd].
  destruct pr as [[i found]|].
  2: { exists (view s1). rewrite run_ret. split; cbn [fst snd is_ok]; done. }
  set (body := put_locked i found key val (fnv1a key) dirty).
  pose proof (run_bracket body key s1) as Hb. cbv zeta in Hb.
  set (s2 := store (CSlot (key_slot key)) _ s1) in *.
  assert (same_data s1 s2) as Hs12 by (by apply same_data_store).
  assert (view s2 = view s1) as Hv12 by (symmetry; by apply view_proper).
  destruct (run_put_body s2 key val dirty i found) as (Hok & Hw' & Hv' & Hsl & _).
  { by eapply same_data_wf. }
  { rewrite (same_used _ _ Hs12). by apply Hroom. }
  { by eapply probe_post_proper. }
  { by rewrite Hv12. }
  destruct (Hb Hsl) as (Hr & Hd & _ & Hbump & _). fold body in Hok, Hw', Hv'.
  exists (view s1).
  split; try done.
  - by eapply same_data_wf.
  - rewrite Hr, Hok, <- Hv12, <- Hv'. symmetry. by apply view_proper.
  - rewrite Hr, Hok. cbn [is_ok]. rewrite bool_decide_eq_false_2 by done. cbn.
    intros k. rewrite Hbump, !Hs. done.
Qed.

(** When [put] fails: the live data really does not fit, or every bucket of
    the key's probe window is taken. *)
Lemma put_error s key val dirty :
  wf s -> len key + len val < 2 ^ 63 ->
  fst (run (put key val dirty) s) = Err ->
  let s1 := snd (run (ensure_space (len key + len val)) s) in
  ARENA_SIZE < live_size s + (len key + len val) \/
  (no_key s1 key /\ forall j, 0 <= j < MAX_PROBES -> ~ claimable s1 (probe_at key j)).
Proof.
  intros Hwf Hlen. pose proof (len_nonneg key). pose proof (len_nonneg val).
  unfold put. fold (key_slot key). rewrite run_bind, run_holds_value by done. cbn [fst snd].
  case_bool_decide as Hg; [done|].
  rewrite wadd_small by lia. rewrite run_bind.
  destruct (run_ensure_space s (len key + len val) Hwf ltac:(lia))
    as [Hw Hsub Heq Hs _ Hroom Hfit].
  destruct (run (ensure_space (len key + len val)) s) as [r s1]. cbn [fst snd] in *.
  assert (Spec.get (view s1) key <> Some val) as Hg1 by (intros E; by eapply Hg, get_sub).
  destruct r as [[]|].
  2: { intros _. left. destruct (decide (live_size s + (len key + len val) <= ARENA_SIZE)); [|lia].
       by specialize (Hfit ltac:(done)). }
  rewrite run_bind. destruct (run_probe s1 key Hw) as (pr & -> & Hpr). cbn [fst snd].
  destruct pr as [[i found]|]; [|by right].
  set (body := put_locked i found key val (fnv1a key) dirty).
  pose proof (run_bracket body key s1) as Hb. cbv zeta in Hb.
  set (s2 := store (CSlot (key_slot key)) _ s1) in *.
  assert (same_data s1 s2) as Hs12 by (by apply same_data_store).
  destruct (run_put_body s2 key val dirty i found) as (Hok & _ & _ & Hsl & _).
  { by eapply same_data_wf. }
  { rewrite (same_used _ _ Hs12). by apply Hroom. }
  { by eapply probe_post_proper. }
  { by rewrite <- (view_proper _ _ Hs12). }
  destruct (Hb Hsl) as (-> & _). fold body in Hok. by rewrite Hok.
Qed.

(** * [remove] *)

Lemma run_remove s key dirty :
  wf s ->
  let r := run (remove key dirty) s in
  wf (snd r) /\ (fst r, view (snd r)) = Spec.remove key dirty (view s) /\
  (if fst r then slots_bumped s (snd r) key else forall k, slot (snd r) k = slot s k) /\
  aseq (snd r) = aseq s.
Proof.
  intros Hwf. cbv zeta. unfold remove, Spec.remove. fold (key_slot key). rewrite run_bind.
  destruct (key_cases s key) as [(i & Hi & Hne & Hk)|Hno].
  - rewrite (run_probe_found s key i) by done. cbn [fst snd].
    rewrite run_bind, run_loadc. cbn [fst snd load]. fold (state_of s i).
    rewrite <- Hk, get_at, Hk by done.
    destruct (Z.eqb_spec (state_of s i) ST_LIVE) as [El|El]; cbn [negb]; [|by rewrite run_ret].
    pose proof (run_bracket (remove_body i dirty ;! ret true) key s) as Hb. cbv zeta in Hb.
    set (s1 := store (CSlot (key_slot key)) _ s) in *.
    assert (same_data s s1) as Hs by (by apply same_data_store).
    assert (wf s1) as Hw1 by (by eapply same_data_wf).
    assert (state_of s1 i = ST_LIVE) as El1 by (by rewrite <- (state_of_proper _ _ Hs i i)).
    destruct (run_remove_body s1 i dirty Hw1 Hi El1) as (s2 & Hrun & Hc).
    assert (run (remove_body i dirty ;! ret true) s1 = (true, s2)) as Hr2.
    { rewrite run_bind, Hrun. done. }
    rewrite Hr2 in Hb. cbn [fst snd] in Hb.
    destruct (remove_effect s1 s2 i dirty Hw1 Hi El1 Hc) as [Hw2 Hv2].
    rewrite <- (key_of_proper _ _ Hs i i eq_refl), Hk, <- (view_proper _ _ Hs) in Hv2.
    destruct (Hb (ch_slot _ _ _ _ _ _ _ Hc)) as (Hr & Hd & _ & Hbump & Ha).
    match goal with |- context [run ?p s] => set (r := run p s) end.
    assert (r = run (seq_begin (key_slot key) ;!
              (let! a := remove_body i dirty ;! ret true in seq_end (key_slot key) ;! ret a)) s) as ->
      by (subst r; unfold remove_body; by repeat (rewrite !run_bind || cbn [bind])).
    rewrite Hr. split_and!; try done.
    + by eapply same_data_wf.
    + by rewrite <- (view_proper _ _ Hd), Hv2.
    + rewrite Ha, (ch_aseq _ _ _ _ _ _ _ Hc). subst s1. by rewrite aseq_store by done.
  - destruct (run_probe_missing s key Hwf Hno) as (r & -> & Hr). cbn [fst snd].
    rewrite get_no_key by done.
    destruct r as [[i found]|]; [destruct Hr as (-> & _)|]; by rewrite run_ret.
Qed.

(** * [read_value] *)

(** The answer a reader owes for what the store holds. *)
Definition read_of (o : option bytes) : Read :=
  match o with Some v => Value v | None => Absent end.

(** With no writer about (both counters even), a read succeeds and returns
    what the view holds. *)
Lemma run_read_value s key :
  wf s -> is_odd (slot s (key_slot key)) = false -> is_odd (aseq s) = false ->
  run (read_value key (fnv1a key)) s =
    (read_of (Spec.get (view s) key), s).
Proof.
  intros Hwf Hs Ha. unfold read_value. fold (key_slot key). run_simpl. cbn [load].
  fold (aseq s). rewrite Hs, Ha. cbn [orb]. rewrite run_bind.
  destruct (key_cases s key) as [(i & Hi & Hne & Hk)|Hno].
  - rewrite (run_probe_found s key i) by done. cbn [fst snd]. run_simpl. cbn [load].
    fold (state_of s i). rewrite <- Hk, get_at by done.
    destruct (Z.eqb_spec (state_of s i) ST_LIVE) as [El|El].
    + pose proof (ok_val _ _ (wf_entry s Hwf i Hi) El). pose proof (wf_used s Hwf).
      run_simpl. cbn [load]. rewrite run_arena_slice by lia. cbn [fst snd]. run_simpl.
      cbn [load]. fold (aseq s). by rewrite !Z.eqb_refl.
    + run_simpl. cbn [load]. fold (aseq s). by rewrite !Z.eqb_refl.
  - destruct (run_probe_missing s key Hwf Hno) as (r & -> & Hr). cbn [fst snd].
    rewrite get_no_key by done.
    destruct r as [[i found]|]; [destruct Hr as (-> & _)|]; run_simpl; cbn [load];
      fold (aseq s); by rewrite !Z.eqb_refl.
Qed.

(** While a counter is odd, every read is torn. *)
Lemma run_read_torn s key :
  is_odd (slot s (key_slot key)) || is_odd (aseq s) = true ->
  run (read_value key (fnv1a key)) s = (Torn, s).
Proof.
  intros H. unfold read_value. fold (key_slot key). run_simpl. cbn [load].
  fold (aseq s). by rewrite H.
Qed.
