(* ===== verification/ShmCommit.v ===== *)
(** [clear], [for_each_live], [commit_snapshot] and [commit_writeback]. *)

From S2P Require Import Prelude Consts Hash Spec Segment Shm ShmInv ShmProbe ShmOps SeqCount ShmWrite ShmCompact ShmRefine.

(** * [clear] *)

Lemma slots_in k : k ∈ slots <-> 0 <= k < SLOTS.
Proof. apply elem_of_range. Qed.
Lemma slots_NoDup : NoDup slots.
Proof. apply NoDup_range. Qed.
#[global] Opaque slots.

(** The last loop of [clear]: every counter to the next even value. *)
Lemma run_clear_slots (l : list Z) s :
  NoDup l ->
  let s' := snd (run (forM l (fun i => let! v := loadc (CSlot i) in
                                        storec (CSlot i) (next_even v))) s) in
  (forall k, slot s' k = if decide (k ∈ l) then next_even (slot s k) else slot s k) /\
  same_data s s' /\ aseq s' = aseq s.
Proof.
  revert s; induction l as [|i l IH]; intros s Hnd.
  { cbn [forM]. rewrite run_ret. cbn [snd]. split_and!; try done. }
  apply NoDup_cons in Hnd as [Hi Hnd]. cbv zeta. rewrite run_forM_cons.
  run_simpl. cbn [load]. set (s1 := store (CSlot i) _ s).
  destruct (IH s1 Hnd) as (Hs & Hd & Ha). split_and!.
  - intros k. rewrite Hs. subst s1. destruct (decide (k = i)) as [->|Hk].
    + rewrite slot_store_same. rewrite decide_False by done. rewrite decide_True; [done|].
      apply list_elem_of_here.
    + rewrite slot_store by congruence. destruct (decide (k ∈ l)).
      * rewrite decide_True; [done|]. by apply list_elem_of_further.
      * rewrite decide_False; [done|]. by intros [->|]%elem_of_cons.
  - rewrite <- Hd. by apply same_data_store.
  - rewrite Ha. subst s1. by rewrite aseq_store by done.
Qed.

Lemma run_clear s :
  let s' := snd (run clear s) in
  wf s' /\ view s' = ∅ /\ aseq s' = bump (aseq s) /\
  forall k, 0 <= k < SLOTS -> slot s' k = next_even (slot s k).
Proof.
  cbv zeta. unfold clear. rewrite run_bind, run_arena_begin. cbn [fst snd].
  set (s0 := store CArenaSeq _ s).
  assert (aseq s0 = next_odd (aseq s)) as Ha0 by apply aseq_store_same.
  assert (forall k, slot s0 k = slot s k) as Hs0 by (intros; subst s0; by seg_simpl).
  clearbody s0. rewrite run_bind. destruct (run_wipe s0) as (Hf & Hs1 & Ha1).
  set (s1 := snd (run wipe s0)) in *. clearbody s1.
  rewrite run_bind, run_arena_end. cbn [fst snd]. rewrite run_bind.
  set (s2 := store CArenaSeq _ s1).
  destruct (run_clear_slots slots s2 slots_NoDup) as (Hs3 & Hd & Ha3).
  set (s3 := snd (run (forM slots _) s2)) in *. clearbody s3.
  run_simpl. set (s4 := store CGlobalGen _ s3).
  assert (same_data s1 s4) as Hd4.
  { transitivity s2; [by apply same_data_store|]. rewrite Hd. by apply same_data_store. }
  split_and!.
  - eapply same_data_wf; [done|]. by apply fresh_wf.
  - rewrite <- (view_proper _ _ Hd4). by apply fresh_view.
  - subst s4 s2. rewrite aseq_store, Ha3, aseq_store_same, Ha1, Ha0 by done. done.
  - intros k Hk. subst s4 s2. rewrite slot_store by done.
    rewrite Hs3, decide_True by by apply slots_in.
    rewrite slot_store by done. by rewrite Hs1, Hs0.
Qed.

(** * Enumeration *)

Definition live_pair (s : Segment) (i : Z) : option (bytes * bytes) :=
  match record s i with Some (k, (Some v, _)) => Some (k, v) | _ => None end.

(** The live keys and values in bucket order. *)
Definition live_pairs (s : Segment) : list (bytes * bytes) := omap (live_pair s) buckets.

Lemma run_visit_live {St} (f : bytes -> bytes -> St -> St) s i st :
  wf s -> in_index i ->
  run (visit_live f i st) s =
    (match live_pair s i with Some (k, v) => f k v st | None => st end, s).
Proof.
  intros Hwf Hi. pose proof (wf_entry s Hwf i Hi) as Hok. pose proof (wf_used s Hwf).
  pose proof (ok_key _ _ Hok) as Hk. pose proof (ok_val _ _ Hok) as Hv.
  unfold visit_live, live_pair, record, state_of in *. run_simpl. cbn [load].
  destruct (Z.eqb_spec (e_state (entry s i)) ST_LIVE) as [El|El]; cbn [negb].
  - rewrite El in *. specialize (Hk ltac:(done)). specialize (Hv ltac:(done)).
    run_simpl. cbn [load]. rewrite run_arena_slice by lia. cbn [fst snd]. run_simpl.
    cbn [load]. rewrite run_arena_slice by lia. cbn [fst snd]. by run_simpl.
  - rewrite run_ret. by destruct (_ && _).
Qed.

Lemma foldl_omap_fold {A B St} (f : A -> option B) (g : B -> St -> St) (l : list A) st :
  foldl (fun st x => match f x with Some y => g y st | None => st end) st l =
    foldl (fun st y => g y st) st (omap f l).
Proof.
  revert st; induction l as [|x l IH]; intros st; [done|]. simpl.
  rewrite IH. by destruct (f x).
Qed.

Lemma run_for_each_live {St} (f : bytes -> bytes -> St -> St) s st :
  wf s ->
  run (for_each_live f st) s = (foldl (fun st kv => f (fst kv) (snd kv) st) st (live_pairs s), s).
Proof.
  intros Hwf. unfold for_each_live, live_pairs.
  rewrite (run_foldM_pure _ _ _ (fun i st =>
    match live_pair s i with Some kv => f (fst kv) (snd kv) st | None => st end)).
  - f_equal. apply (foldl_omap_fold (live_pair s) (fun kv st => f (fst kv) (snd kv) st)).
  - intros i st' Hi%buckets_in. rewrite run_visit_live by done.
    by destruct (live_pair s i) as [[]|].
Qed.

Lemma foldl_snoc_pairs {A B} (l acc : list (A * B)) :
  foldl (fun st kv => st ++ [(fst kv, snd kv)]) acc l = acc ++ l.
Proof.
  revert acc; induction l as [|[a b] l IH]; intros acc; simpl; [by rewrite app_nil_r|].
  by rewrite IH, <- app_assoc.
Qed.

Lemma live_pairs_elem s k v :
  wf s -> (k, v) ∈ live_pairs s <-> Spec.get (view s) k = Some v.
Proof.
  intros Hwf. unfold live_pairs, Spec.get. rewrite list_elem_of_omap.
  unfold live_pair. split.
  - intros (i & Hi & E). apply buckets_in in Hi.
    destruct (record s i) as [[k' [[v'|] d]]|] eqn:Hr; simplify_eq.
    assert (view s !! k = Some (Some v, d)) as ->; [|done].
    apply view_lookup; [done|]. by exists i.
  - destruct (view s !! k) as [[ov d]|] eqn:E; [|done]. simpl. intros ->.
    apply view_lookup in E as (i & Hi & E); [|done].
    exists i. split; [by apply buckets_in|]. by rewrite E.
Qed.

Lemma live_pairs_NoDup s : wf s -> NoDup (live_pairs s).*1.
Proof.
  intros Hwf. pose proof (records_NoDup s Hwf) as Hnd. unfold live_pairs.
  induction buckets as [|i l IH]; [constructor|]. simpl in *. unfold live_pair at 1.
  destruct (record s i) as [[k [[v|] d]]|] eqn:Hr; simpl in *;
    [|apply NoDup_cons in Hnd as [_ Hnd]; by apply IH|by apply IH].
  apply NoDup_cons in Hnd as [Hk Hnd]. constructor; [|by apply IH].
  intros Hin. apply Hk. apply list_elem_of_fmap in Hin as ([k' v'] & -> & Hin).
  apply list_elem_of_omap in Hin as (j & Hj & Ej). unfold live_pair in Ej.
  destruct (record s j) as [[k2 [[v2|] d2]]|] eqn:Hr2; simplify_eq.
  apply list_elem_of_fmap. exists (k', (Some v', d2)). split; [done|].
  apply list_elem_of_omap. by exists j.
Qed.

(** * Commit *)

(** Does the disk owe bucket [i]'s record a write?  Dirty ones always; clean
    live ones when [needs_write] says so. *)
Definition owed (needs_write : bytes -> Z -> bool) (key : bytes) (it : item) : bool :=
  match it with
  | (Some v, d) => d || needs_write key (len v)
  | (None, d) => d
  end.

Definition pending_of (needs_write : bytes -> Z -> bool) (s : Segment) (i : Z)
    : option Pending :=
  match record s i with
  | Some (k, it) =>
      if owed needs_write k it then Some (mkPending k (fst it) (fnv1a k) (slot s (key_slot k)))
      else None
  | None => None
  end.

Definition pendings (needs_write : bytes -> Z -> bool) (s : Segment) : list Pending :=
  omap (pending_of needs_write s) buckets.

Lemma run_snapshot_entry nw s i out :
  wf s -> in_index i ->
  run (snapshot_entry nw i out) s =
    (match pending_of nw s i with Some p => out ++ [p] | None => out end, s).
Proof.
  intros Hwf Hi. pose proof (wf_entry s Hwf i Hi) as Hok. pose proof (wf_used s Hwf).
  pose proof (ok_key _ _ Hok) as Hk. pose proof (ok_val _ _ Hok) as Hv.
  unfold snapshot_entry, pending_of, record, state_of in *. run_simpl. cbn [load].
  destruct (Z.eqb_spec (e_state (entry s i)) ST_EMPTY) as [E|E].
  { rewrite E. by run_simpl. }
  specialize (Hk E). run_simpl. cbn [load].
  destruct (Z.eqb_spec (e_state (entry s i)) ST_LIVE) as [El|El].
  - specialize (Hv El). rewrite El. cbn [andb Z.eqb]. change (ST_LIVE =? ST_TOMB) with false.
    cbn [andb]. run_simpl. cbn [load].
    rewrite run_arena_slice by lia. cbn [fst snd]. unfold slot_value. run_simpl. cbn [load].
    fold (key_of s i). fold (val_of s i). fold (key_slot (key_of s i)). cbn [owed fst].
    assert (len (val_of s i) = e_val_len (entry s i)) as -> by (apply mem_read_len; lia).
    rewrite <- negb_orb. destruct (_ || _); cbn [negb]; run_simpl; [|done].
    cbn [load]. rewrite run_arena_slice by lia. cbn [fst snd]. by run_simpl.
  - destruct (ok_state _ _ Hok) as [|[|Et]]; [done..|]. unfold state_of in Et. rewrite Et.
    cbn [andb]. change (ST_TOMB =? ST_TOMB) with true. cbn [andb].
    destruct (has_dirty (e_flags (entry s i))) eqn:Hd; cbn [negb]; run_simpl; [|done].
    cbn [load]. rewrite run_arena_slice by lia. cbn [fst snd]. unfold slot_value. run_simpl.
    cbn [load owed fst]. done.
Qed.

Lemma run_commit_snapshot nw s :
  wf s -> run (commit_snapshot nw) s = (pendings nw s, s).
Proof.
  intros Hwf. unfold commit_snapshot.
  rewrite (run_foldM_pure _ _ _ (fun i out =>
    match pending_of nw s i with Some p => out ++ [id p] | None => out end)).
  - rewrite foldl_omap. unfold pendings. by rewrite list_fmap_id.
  - intros i out Hi%buckets_in. by apply run_snapshot_entry.
Qed.

(** The snapshot is exactly what is owed. *)
Lemma pendings_elem nw s p :
  wf s ->
  p ∈ pendings nw s <->
    exists it, view s !! p_key p = Some it /\ owed nw (p_key p) it = true /\
      p = mkPending (p_key p) (fst it) (fnv1a (p_key p)) (slot s (key_slot (p_key p))).
Proof.
  intros Hwf. unfold pendings. rewrite list_elem_of_omap. unfold pending_of. split.
  - intros (i & Hi & E). apply buckets_in in Hi.
    destruct (record s i) as [[k it]|] eqn:Hr; [|done].
    destruct (owed nw k it) eqn:Ho; simplify_eq. exists it. split_and!; try done.
    apply view_lookup; [done|]. by exists i.
  - intros (it & Hv & Ho & Hp). apply view_lookup in Hv as (i & Hi & E); [|done].
    exists i. split; [by apply buckets_in|]. rewrite E, Ho. by rewrite <- Hp.
Qed.

(** ** Write-back *)

(** What one pending item's write-back does to the abstract store. *)
Definition retire (s : Segment) (m : gmap bytes item) (p : Pending) : gmap bytes item :=
  if slot s (key_slot (p_key p)) =? p_seen p then Spec.clean (p_key p) m else m.

Lemma clean_missing (key : bytes) (m : gmap bytes item) : m !! key = None -> Spec.clean key m = m.
Proof.
  intros H. apply map_eq. intros k. unfold Spec.clean.
  destruct (decide (k = key)) as [->|].
  - rewrite lookup_partial_alter_eq. by rewrite H.
  - by rewrite lookup_partial_alter_ne.
Qed.

Lemma run_writeback_one s p :
  wf s -> p_hash p = fnv1a (p_key p) ->
  let s' := snd (run (writeback_one p) s) in
  wf s' /\ view s' = retire s (view s) p /\ (forall k, slot s' k = slot s k) /\ aseq s' = aseq s.
Proof.
  intros Hwf Hh. cbv zeta. unfold writeback_one, retire, slot_value. rewrite Hh.
  fold (key_slot (p_key p)). run_simpl. cbn [load].
  destruct (Z.eqb_spec (slot s (key_slot (p_key p))) (p_seen p)) as [E|E]; cbn [negb];
    [|by run_simpl].
  rewrite run_bind. destruct (key_cases s (p_key p)) as [(i & Hi & Hne & Hk)|Hno].
  - rewrite (run_probe_found s (p_key p) i) by done. cbn [fst snd].
    destruct (run_clear_dirty s i Hwf Hi) as (s' & -> & Hc). cbn [snd].
    destruct (clean_effect s s' i Hwf Hi Hne Hc) as [Hw Hv]. destruct Hc.
    rewrite <- Hk. by split_and!.
  - destruct (run_probe_missing s (p_key p) Hwf Hno) as (r & -> & Hr). cbn [fst snd].
    rewrite clean_missing by by apply view_none.
    destruct r as [[i found]|]; [destruct Hr as (-> & _)|]; by run_simpl.
Qed.

Lemma run_commit_writeback s ps :
  wf s -> (forall p, p ∈ ps -> p_hash p = fnv1a (p_key p)) ->
  let s' := snd (run (commit_writeback ps) s) in
  wf s' /\ view s' = foldl (retire s) (view s) ps /\ (forall k, slot s' k = slot s k) /\
  aseq s' = aseq s.
Proof.
  unfold commit_writeback. revert s; induction ps as [|p ps IH]; intros s Hwf Hps.
  { cbn [forM]. rewrite run_ret. done. }
  cbv zeta. rewrite run_forM_cons.
  destruct (run_writeback_one s p Hwf (Hps p (list_elem_of_here _ _))) as (Hw & Hv & Hs & Ha).
  set (s1 := snd (run (writeback_one p) s)) in *. clearbody s1.
  destruct (IH s1 Hw) as (Hw' & Hv' & Hs' & Ha').
  { intros q Hq. apply Hps. by apply list_elem_of_further. }
  split_and!; [done| | |congruence].
  - rewrite Hv', Hv. simpl. clear -Hs.
    generalize (retire s (view s) p). induction ps as [|q ps IH]; intros m; [done|]. simpl.
    rewrite IH. f_equal. unfold retire. by rewrite Hs.
  - intros k. by rewrite Hs'.
Qed.

(** Looking a key up after the write-back. *)
Lemma retire_lookup s ps m (key : bytes) :
  NoDup (p_key <$> ps) ->
  foldl (retire s) m ps !! key =
    match list_find (fun p => p_key p = key) ps with
    | Some (_, p) => retire s m p !! key
    | None => m !! key
    end.
Proof.
  revert m; induction ps as [|p ps IH]; intros m Hnd; [done|]. simpl in *.
  apply NoDup_cons in Hnd as [Hp Hnd]. rewrite IH by done.
  destruct (decide (p_key p = key)) as [E|E].
  - assert (list_find (fun q => p_key q = key) ps = None) as ->; [|done].
    apply list_find_None, Forall_forall. intros q Hq Hk. apply Hp.
    apply list_elem_of_fmap. exists q. by rewrite Hk.
  - assert (forall m, retire s m p !! key = m !! key) as Hother.
    { intros m'. unfold retire, Spec.clean.
      destruct (_ =? _); [by apply lookup_partial_alter_ne|done]. }
    destruct (list_find _ ps) as [[n q]|] eqn:Hf; simpl; [|by rewrite Hother].
    apply list_find_Some in Hf as (_ & Hq & _).
    unfold retire at 1 3. destruct (_ =? _); [|by apply Hother].
    unfold Spec.clean. rewrite Hq, !lookup_partial_alter_eq. by rewrite Hother.
Qed.

(** No key is pending twice. *)
Lemma pendings_NoDup nw s : wf s -> NoDup (p_key <$> pendings nw s).
Proof.
  intros Hwf. pose proof (records_NoDup s Hwf) as Hnd. unfold pendings.
  induction buckets as [|i l IH]; [constructor|]. simpl in *. unfold pending_of at 1.
  destruct (record s i) as [[k it]|] eqn:Hr; simpl in *; [|by apply IH].
  apply NoDup_cons in Hnd as [Hk Hnd]. destruct (owed nw k it); simpl; [|by apply IH].
  constructor; [|by apply IH]. intros Hin. apply Hk.
  apply list_elem_of_fmap in Hin as (p & -> & Hin).
  apply list_elem_of_omap in Hin as (j & Hj & Ej). unfold pending_of in Ej.
  destruct (record s j) as [[k2 it2]|] eqn:Hr2; [|done].
  destruct (owed nw k2 it2); simplify_eq. cbn.
  apply list_elem_of_fmap. exists (k2, it2). split; [done|].
  apply list_elem_of_omap. by exists j.
Qed.
