(* ===== verification/ShmTrace.v ===== *)
(** Sequences of segment operations.

    Writers serialise on one lock, so what happens to a segment between two
    points in time is a sequence of whole operations.  This file says what
    such a sequence can do to one key, and what the key's counter tells about
    it: the counter never goes back, and while it stands still the key's value
    has not changed. *)

From S2P Require Import Prelude Consts Hash Spec Segment Shm ShmInv ShmProbe ShmOps SeqCount ShmWrite ShmCompact ShmRefine ShmCommit.

(** * Operations *)

Inductive op : Type :=
| OPut (key val : bytes) (dirty : bool)
| ORemove (key : bytes) (dirty : bool)
| OClear
| ORepair (slot : Z)
| OWriteback (ps : list Pending).

(** What the callers guarantee: lengths of real slices, hashes that belong to
    their keys, slots in the table. *)
Definition op_ok (o : op) : Prop :=
  match o with
  | OPut key val _ => len key + len val < 2 ^ 63
  | OWriteback ps => forall p, p ∈ ps -> p_hash p = fnv1a (p_key p)
  | ORepair k => 0 <= k < SLOTS
  | _ => True
  end.

Definition apply (o : op) (s : Segment) : Segment :=
  match o with
  | OPut key val dirty => snd (run (put key val dirty) s)
  | ORemove key dirty => snd (run (remove key dirty) s)
  | OClear => snd (run clear s)
  | ORepair k => snd (run (repair_seq k) s)
  | OWriteback ps => snd (run (commit_writeback ps) s)
  end.

Fixpoint apply_all (os : list op) (s : Segment) : Segment :=
  match os with
  | [] => s
  | o :: os' => apply_all os' (apply o s)
  end.

(** No compaction among [os], run from [s], loses a key. *)
Definition op_safe (o : op) (s : Segment) : Prop :=
  match o with
  | OPut key val _ => compact_safe s (len key + len val)
  | _ => True
  end.

Fixpoint safe_all (os : list op) (s : Segment) : Prop :=
  match os with
  | [] => True
  | o :: os' => op_safe o s /\ safe_all os' (apply o s)
  end.

(** * What can happen to an item while its counter stands still *)

(** It stays, its flag is retired, or it goes away. *)
Inductive ages : option item -> option item -> Prop :=
| ages_same o : ages o o
| ages_clean v d : ages (Some (Some v, d)) (Some (Some v, false))
| ages_gone o : ages o None.

Lemma ages_trans o1 o2 o3 : ages o1 o2 -> ages o2 o3 -> ages o1 o3.
Proof. destruct 1; inversion 1; subst; constructor. Qed.

#[export] Hint Constructors ages : nvram.

Lemma ages_sub (m1 m2 : gmap bytes item) (key : bytes) : m1 ⊆ m2 -> ages (m2 !! key) (m1 !! key).
Proof.
  intros H. destruct (m1 !! key) as [r|] eqn:E; [|constructor].
  rewrite (lookup_weaken _ _ _ _ E H). constructor.
Qed.

Lemma ages_clean_key (m : gmap bytes item) key k : ages (m !! key) (Spec.clean k m !! key).
Proof.
  unfold Spec.clean. destruct (decide (k = key)) as [->|].
  - rewrite lookup_partial_alter_eq. destruct (m !! key) as [[[v|] d]|]; constructor.
  - rewrite lookup_partial_alter_ne by done. constructor.
Qed.

(** An item that ages keeps its value unless it goes away. *)
Lemma ages_value o1 o2 it : ages o1 o2 -> o2 = Some it -> exists d, o1 = Some (fst it, d).
Proof.
  destruct 1 as [[[v d]|]|v d|]; intros [= <-]; [by exists d|by exists d].
Qed.

(** * One step *)

Lemma key_slot_range key : 0 <= key_slot key < SLOTS.
Proof. apply slot_of_range. Qed.
#[export] Hint Resolve key_slot_range : nvram.

Lemma repaired_range v : 0 <= v < 2 ^ 64 - 4 -> v <= repaired v <= v + 4.
Proof.
  intros H. unfold repaired. destruct (is_odd v); [|lia].
  pose proof (next_even_range v ltac:(lia)). lia.
Qed.

Lemma retire_ages (s : Segment) m ps (key : bytes) :
  ages (m !! key) (foldl (retire s) m ps !! key).
Proof.
  revert m; induction ps as [|p ps IH]; intros m; [constructor|]. simpl.
  eapply ages_trans; [|apply IH]. unfold retire.
  destruct (_ =? _); [apply ages_clean_key|constructor].
Qed.

(** The effect of one operation on one key. *)
Record moved (s s' : Segment) (key : bytes) : Prop := mk_moved {
  mv_range : slot s (key_slot key) <= slot s' (key_slot key) <= slot s (key_slot key) + 4;
  mv_item : slot s' (key_slot key) = slot s (key_slot key) ->
    ages (view s !! key) (view s' !! key)
}.

Lemma moved_still (s s' : Segment) key :
  slot s' (key_slot key) = slot s (key_slot key) ->
  ages (view s !! key) (view s' !! key) -> moved s s' key.
Proof. intros E H. split; [lia|done]. Qed.

Lemma moved_bump (s s' : Segment) key :
  0 <= slot s (key_slot key) < 2 ^ 64 - 4 ->
  slot s' (key_slot key) = bump (slot s (key_slot key)) -> moved s s' key.
Proof.
  intros H E. pose proof (bump_range _ H). split; [lia|]. intros E'. lia.
Qed.

(** An update of [k], as [key] sees it. *)
Lemma moved_bracket (s s' : Segment) k key :
  0 <= slot s (key_slot key) < 2 ^ 64 - 4 -> slots_bumped s s' k ->
  (key <> k -> ages (view s !! key) (view s' !! key)) -> moved s s' key.
Proof.
  intros H Hb Ha. specialize (Hb (key_slot key)). case_decide as E.
  - by apply moved_bump.
  - apply moved_still; [done|]. apply Ha. intros ->. done.
Qed.

Lemma put_moved s k val dirty key :
  wf s -> len k + len val < 2 ^ 63 -> 0 <= slot s (key_slot key) < 2 ^ 64 - 4 ->
  moved s (snd (run (put k val dirty) s)) key.
Proof.
  intros Hwf Hlen Hr. destruct (run_put s k val dirty Hwf Hlen) as (m & [Hw Hsub _ Hsame Hv Hs]).
  destruct (run (put k val dirty) s) as [r s']. cbn [fst snd] in *.
  destruct r as [[]|]; cbn [is_ok andb] in Hs.
  - case_bool_decide as E; cbn [negb] in Hs.
    + apply moved_still; [by apply Hs|]. rewrite Hv, (Hsame E). unfold Spec.put.
      rewrite bool_decide_eq_true_2 by done. constructor.
    + apply (moved_bracket s s' k); [done..|]. intros Hne. rewrite Hv.
      rewrite Spec.put_lookup_ne by done. by apply ages_sub.
  - apply moved_still; [by apply Hs|]. rewrite Hv. by apply ages_sub.
Qed.

Lemma remove_moved s k dirty key :
  wf s -> 0 <= slot s (key_slot key) < 2 ^ 64 - 4 ->
  moved s (snd (run (remove k dirty) s)) key.
Proof.
  intros Hwf Hr. destruct (run_remove s k dirty Hwf) as (Hw & Hv & Hs & _).
  destruct (run (remove k dirty) s) as [r s']. cbn [fst snd] in *.
  assert (view s' = snd (Spec.remove k dirty (view s))) as Ev by by rewrite <- Hv.
  assert (r = fst (Spec.remove k dirty (view s))) as Er by by rewrite <- Hv.
  clear Hv. destruct r.
  - apply (moved_bracket s s' k); [done..|]. intros Hne. rewrite Ev.
    rewrite Spec.remove_lookup_ne by done. constructor.
  - apply moved_still; [by apply Hs|]. rewrite Ev. revert Er. unfold Spec.remove.
    destruct (Spec.get (view s) k); [done|]. intros _. constructor.
Qed.

Lemma clear_moved s key :
  0 <= slot s (key_slot key) < 2 ^ 64 - 4 -> moved s (snd (run clear s)) key.
Proof.
  intros Hr. destruct (run_clear s) as (_ & _ & _ & Hs).
  specialize (Hs _ (key_slot_range key)).
  pose proof (next_even_range (slot s (key_slot key)) ltac:(lia)). split; lia.
Qed.

Lemma repair_moved s k key :
  0 <= slot s (key_slot key) < 2 ^ 64 - 4 -> moved s (snd (run (repair_seq k) s)) key.
Proof.
  intros Hr. destruct (run_repair_seq k s) as (_ & Hk & _ & Hs & Hd).
  set (s' := snd (run (repair_seq k) s)) in *. clearbody s'.
  assert (ages (view s !! key) (view s' !! key)) as Ha.
  { rewrite (view_proper _ _ Hd). constructor. }
  destruct (decide (key_slot key = k)) as [<-|Hne].
  - split; [|done]. rewrite Hk. by apply repaired_range.
  - apply moved_still; [by apply Hs|done].
Qed.

Lemma writeback_moved s ps key :
  wf s -> (forall p, p ∈ ps -> p_hash p = fnv1a (p_key p)) ->
  moved s (snd (run (commit_writeback ps) s)) key.
Proof.
  intros Hwf Hps. destruct (run_commit_writeback s ps Hwf Hps) as (_ & Hv & Hs & _).
  apply moved_still; [by apply Hs|]. rewrite Hv. apply retire_ages.
Qed.

(** Every operation keeps the invariant... *)
Lemma apply_wf o s : wf s -> op_ok o -> wf (apply o s).
Proof.
  intros Hwf Hok. destruct o as [k val d|k d| |k|ps]; cbn [apply op_ok] in *.
  - destruct (run_put s k val d Hwf Hok) as (m & H). apply (pu_wf _ _ _ _ _ _ _ H).
  - apply (run_remove s k d Hwf).
  - apply (run_clear s).
  - destruct (run_repair_seq k s) as (_ & _ & _ & _ & Hd). by eapply same_data_wf.
  - apply (run_commit_writeback s ps Hwf Hok).
Qed.

(** ... and moves no counter without need, nor an item without its counter. *)
Lemma apply_moved o s key :
  wf s -> op_ok o -> 0 <= slot s (key_slot key) < 2 ^ 64 - 4 -> moved s (apply o s) key.
Proof.
  intros Hwf Hok Hr. destruct o; cbn [apply op_ok] in *.
  - by apply put_moved.
  - by apply remove_moved.
  - by apply clear_moved.
  - by apply repair_moved.
  - by apply writeback_moved.
Qed.

(** * Many steps *)

Lemma apply_all_wf os s : wf s -> Forall op_ok os -> wf (apply_all os s).
Proof.
  intros Hwf Hos. revert s Hwf. induction Hos as [|o os Ho Hos IH]; intros s Hwf; [done|].
  apply IH. by apply apply_wf.
Qed.

(** Room for [n] more operations before the 64-bit counter of [key] wraps. *)
Definition headroom (s : Segment) (key : bytes) (n : nat) : Prop :=
  0 <= slot s (key_slot key) /\ slot s (key_slot key) + 4 * Z.of_nat n + 4 < 2 ^ 64.

Lemma apply_all_moved os s key :
  wf s -> Forall op_ok os -> headroom s key (length os) ->
  slot s (key_slot key) <= slot (apply_all os s) (key_slot key) /\
  (slot (apply_all os s) (key_slot key) = slot s (key_slot key) ->
   ages (view s !! key) (view (apply_all os s) !! key)).
Proof.
  intros Hwf Hos. revert s Hwf.
  induction Hos as [|o os Ho Hos IH]; intros s Hwf [H0 H1]; cbn [length apply_all] in *.
  { split; [lia|]. intros _. constructor. }
  destruct (apply_moved o s key Hwf Ho ltac:(lia)) as [Hr Ha].
  destruct (IH (apply o s)) as [Hle Hall]; [by apply apply_wf|split; lia|].
  split; [lia|]. intros E. eapply ages_trans; [apply Ha; lia|apply Hall; lia].
Qed.

(** Part of the way uses up part of the room. *)
Lemma headroom_after os1 os2 s key :
  wf s -> Forall op_ok os1 -> headroom s key (length (os1 ++ os2)) ->
  headroom (apply_all os1 s) key (length os2).
Proof.
  intros Hwf Hos. revert s Hwf.
  induction Hos as [|o os1 Ho Hos IH]; intros s Hwf; [done|]. intros [H0 H1].
  cbn [length apply_all app] in *. destruct (apply_moved o s key Hwf Ho ltac:(lia)) as [Hr _].
  apply IH; [by apply apply_wf|split; lia].
Qed.

(** A write-back changes flags only, as far as readers can tell. *)
Lemma retire_get (s : Segment) m ps (key : bytes) :
  Spec.get (foldl (retire s) m ps) key = Spec.get m key.
Proof.
  revert m; induction ps as [|p ps IH]; intros m; [done|]. simpl.
  rewrite IH. unfold retire, Spec.clean, Spec.get. destruct (_ =? _); [|done].
  destruct (decide (p_key p = key)) as [->|Hne].
  - rewrite lookup_partial_alter_eq. by destruct (m !! key) as [[[v|] d]|].
  - by rewrite lookup_partial_alter_ne.
Qed.

(** With safe compactions the value itself cannot go away unnoticed. *)
Lemma apply_get o s key :
  wf s -> op_ok o -> op_safe o s -> 0 <= slot s (key_slot key) < 2 ^ 64 - 4 ->
  slot (apply o s) (key_slot key) = slot s (key_slot key) ->
  Spec.get (view (apply o s)) key = Spec.get (view s) key.
Proof.
  intros Hwf Hok Hsafe Hr E.
  destruct o as [k val d|k d| |k|ps]; cbn [apply op_ok op_safe] in *.
  - destruct (run_put s k val d Hwf Hok) as (m & [Hw _ Hm _ Hv Hs]).
    rewrite (Hm Hsafe) in *. destruct (run (put k val d) s) as [r s']. cbn [fst snd] in *.
    rewrite Hv. destruct r as [[]|]; cbn [is_ok andb] in Hs; [|done].
    case_bool_decide as Eg; cbn [negb] in Hs.
    + unfold Spec.put. by rewrite bool_decide_eq_true_2.
    + apply Spec.get_put_ne. intros ->. specialize (Hs (key_slot key)).
      rewrite decide_True in Hs by done. pose proof (bump_range _ Hr). lia.
  - destruct (run_remove s k d Hwf) as (Hw & Hv & Hs & _).
    destruct (run (remove k d) s) as [r s']. cbn [fst snd] in *.
    unfold Spec.remove in Hv. destruct (Spec.get (view s) k) eqn:Eg; simplify_eq.
    + rewrite H0. unfold Spec.get. destruct (decide (k = key)) as [->|Hne].
      * specialize (Hs (key_slot key)). rewrite decide_True in Hs by done.
        pose proof (bump_range _ Hr). lia.
      * unfold Spec.unset. case_match; [by rewrite lookup_insert_ne|by rewrite lookup_delete_ne].
    + by rewrite H0.
  - destruct (run_clear s) as (_ & _ & _ & Hs). specialize (Hs _ (key_slot_range key)).
    pose proof (next_even_range (slot s (key_slot key)) ltac:(lia)). lia.
  - destruct (run_repair_seq k s) as (_ & _ & _ & _ & Hd). by rewrite (view_proper _ _ Hd).
  - destruct (run_commit_writeback s ps Hwf Hok) as (_ & Hv & _ & _). rewrite Hv.
    apply retire_get.
Qed.

Lemma apply_all_get os s key :
  wf s -> Forall op_ok os -> safe_all os s -> headroom s key (length os) ->
  slot (apply_all os s) (key_slot key) = slot s (key_slot key) ->
  Spec.get (view (apply_all os s)) key = Spec.get (view s) key.
Proof.
  intros Hwf Hos. revert s Hwf.
  induction Hos as [|o os Ho Hos IH]; intros s Hwf Hsafe [H0 H1] E; cbn [length apply_all] in *.
  { done. }
  destruct Hsafe as [Hs Hsafe].
  destruct (apply_moved o s key Hwf Ho ltac:(lia)) as [Hr _].
  assert (headroom (apply o s) key (length os)) as Hh by (split; lia).
  destruct (apply_all_moved os (apply o s) key) as [Hle _]; [by apply apply_wf|done..|].
  rewrite IH; [apply apply_get; try done; lia|by apply apply_wf|done..|lia].
Qed.

(** * What a write-back changes *)

Lemma clean_cases (m : gmap bytes item) k (key : bytes) :
  Spec.clean k m !! key = m !! key \/
  (k = key /\ exists v d, m !! key = Some (Some v, d) /\ Spec.clean k m !! key = Some (Some v, false)) \/
  (k = key /\ exists d, m !! key = Some (None, d) /\ Spec.clean k m !! key = None).
Proof.
  unfold Spec.clean. destruct (decide (k = key)) as [->|Hne].
  - rewrite lookup_partial_alter_eq. destruct (m !! key) as [[[v|] d]|]; [| |by left].
    + right. left. split; [done|]. by exists v, d.
    + right. right. split; [done|]. by exists d.
  - left. by rewrite lookup_partial_alter_ne.
Qed.

(** [p] retired [key]: it saw the very item it found. *)
Definition retired (m m' : gmap bytes item) (key : bytes) (p : Pending) : Prop :=
  p_key p = key /\
  match p_val p with
  | Some v => exists d, m !! key = Some (Some v, d) /\ m' !! key = Some (Some v, false)
  | None => exists d, m !! key = Some (None, d) /\ m' !! key = None
  end.

Lemma retired_key (s : Segment) m ps (key : bytes) :
  (forall p, p ∈ ps -> p_key p = key -> slot s (key_slot key) = p_seen p ->
     exists d, ages (Some (p_val p, d)) (m !! key)) ->
  let m' := foldl (retire s) m ps in
  m' !! key = m !! key \/ exists p, p ∈ ps /\ retired m m' key p.
Proof.
  cbv zeta. revert m; induction ps as [|p ps IH]; intros m Hps; [by left|]. simpl.
  assert (ages (m !! key) (retire s m p !! key)) as Hp.
  { unfold retire. destruct (_ =? _); [apply ages_clean_key|constructor]. }
  destruct (IH (retire s m p)) as [E|(q & Hq & Hk & Hr)].
  { intros q Hq Hk Hs. destruct (Hps q) as [d Hd]; [by apply list_elem_of_further|done..|].
    exists d. by eapply ages_trans. }
  - rewrite E. unfold retire in *. destruct (Z.eqb_spec (slot s (key_slot (p_key p))) (p_seen p)) as [Es|];
      [|by left].
    destruct (clean_cases m (p_key p) key) as [Ec|Hc]; [by left|right].
    exists p. split; [apply list_elem_of_here|].
    assert (p_key p = key) as Hk by tauto.
    rewrite Hk in *. destruct (Hps p (list_elem_of_here _ _) Hk Es) as [d Hd].
    split; [done|]. rewrite E. destruct (p_val p) as [w|];
      destruct Hc as [(_ & v & d' & Em & Ec)|(_ & d' & Em & Ec)]; rewrite Em in Hd;
      inversion Hd; subst; by eexists.
  - right. exists q. split; [by apply list_elem_of_further|]. split; [done|].
    destruct (p_val q) as [v|]; destruct Hr as (d & Em & Em'); rewrite Em in Hp;
      inversion Hp; subst; by eexists.
Qed.

(** Write-back of a snapshot nothing has disturbed. *)
Lemma dirty_clean k m (key : bytes) :
  Spec.dirty m key = false \/ k = key -> Spec.dirty (Spec.clean k m) key = false.
Proof.
  unfold Spec.dirty, Spec.clean. intros H. destruct (decide (k = key)) as [->|Hne].
  - rewrite lookup_partial_alter_eq. by destruct (m !! key) as [[[v|] d]|].
  - rewrite lookup_partial_alter_ne by done. by destruct H.
Qed.

Lemma retire_dirty (s : Segment) m ps (key : bytes) :
  Spec.dirty m key = false \/
    (exists p, p ∈ ps /\ p_key p = key /\ p_seen p = slot s (key_slot key)) ->
  Spec.dirty (foldl (retire s) m ps) key = false.
Proof.
  revert m; induction ps as [|p ps IH]; intros m H; simpl.
  { destruct H as [|(p & Hp & _)]; [done|]. by apply elem_of_nil in Hp. }
  apply IH. unfold retire. destruct H as [H|(q & Hq & Hk & Hs)].
  - left. destruct (_ =? _); [|done]. apply dirty_clean. by left.
  - apply elem_of_cons in Hq as [->|Hq]; [|by right; exists q].
    left. rewrite Hk, Hs, Z.eqb_refl. apply dirty_clean. by right.
Qed.

Lemma retire_all nw s key :
  wf s ->
  let m' := foldl (retire s) (view s) (pendings nw s) in
  Spec.dirty m' key = false /\ Spec.get m' key = Spec.get (view s) key.
Proof.
  intros Hwf. cbv zeta. split; [|apply retire_get]. apply retire_dirty.
  destruct (Spec.dirty (view s) key) eqn:Hd; [right|by left].
  unfold Spec.dirty in Hd. destruct (view s !! key) as [[ov d]|] eqn:Hit; [|done]. subst d.
  exists (mkPending key ov (fnv1a key) (slot s (key_slot key))). split; [|done].
  apply pendings_elem; [done|]. exists (ov, true). by destruct ov.
Qed.
