(* ===== verification/ShmSafety.v ===== *)
(** Memory safety of the operations that only read the segment.

    Readers hold no lock, so each load may return anything a concurrent
    writer, or a corrupted segment, has put in the cell.  [bounded p Q] says
    that whatever the loads and copies return - any value of the cell's
    width, any bytes - every access of [p] stays inside the mapped arrays,
    [p] writes nothing, and its result satisfies [Q]. *)

From S2P Require Import Prelude Consts Hash Segment Shm ShmInv ShmProbe SeqCount.

(** The width of the atomic behind a cell. *)
Definition cell_width (c : cell) : Z :=
  match c with
  | CStoreDev | CArenaSeq | CGlobalGen | CArenaUsed | CArenaGarbage | CSlot _ | CHash _ => 64
  | _ => 32
  end.

(** Is the cell inside its array? *)
Definition cell_in (c : cell) : Prop :=
  match c with
  | CSlot i => 0 <= i < SLOTS
  | CHash i | CKeyOff i | CKeyLen i | CValOff i | CValLen i | CState i | CFlags i => in_index i
  | _ => True
  end.

Fixpoint bounded {A} (p : prog A) (Q : A -> Prop) : Prop :=
  match p with
  | PRet a => Q a
  | PLoad c k => cell_in c /\ forall v, 0 <= v < 2 ^ cell_width c -> bounded (k v) Q
  | PRead off n k => (0 <= off /\ 0 <= n /\ off + n <= ARENA_SIZE) /\
      forall bs, len bs = n -> bounded (k bs) Q
  | PStore _ _ _ | PRmw _ _ _ | PWrite _ _ _ => False
  end.

Lemma bounded_bind {A B} (m : prog A) (f : A -> prog B) P Q :
  bounded m P -> (forall a, P a -> bounded (f a) Q) -> bounded (bind m f) Q.
Proof.
  intros Hm Hf. induction m; unfold bind; simpl in *; fold (@bind A B); try done.
  - by apply Hf.
  - destruct Hm as [Hc Hm]. split; [done|]. intros v Hv. apply H. by apply Hm.
  - destruct Hm as [Hc Hm]. split; [done|]. intros v Hv. apply H. by apply Hm.
Qed.

Lemma bounded_ret {A} (a : A) (Q : A -> Prop) : Q a -> bounded (ret a) Q.
Proof. done. Qed.

Lemma bounded_load c : cell_in c -> bounded (loadc c) (fun v => 0 <= v < 2 ^ cell_width c).
Proof. by split. Qed.

Lemma bounded_weaken {A} (m : prog A) (P Q : A -> Prop) :
  bounded m P -> (forall a, P a -> Q a) -> bounded m Q.
Proof.
  intros Hm HPQ. induction m; simpl in *; try done; [by apply HPQ|..].
  all: destruct Hm as [Hc Hm]; split; [done|]; intros v Hv; apply H; by apply Hm.
Qed.

Lemma bounded_foldM {X St} (l : list X) (st : St) body (Q : St -> Prop) :
  Q st -> (forall x st, x ∈ l -> Q st -> bounded (body x st) Q) -> bounded (foldM l st body) Q.
Proof.
  revert st; induction l as [|x l IH]; intros st H0 Hb; [done|]. simpl.
  apply bounded_bind with Q; [apply Hb; [apply list_elem_of_here|done]|].
  intros st' Hst. apply IH; [done|]. intros y st'' Hy. apply Hb. by apply list_elem_of_further.
Qed.

(** Step through the loads of a program. *)
Ltac step_load :=
  eapply bounded_bind; [apply bounded_load; try done|cbn [cell_width]; intros ? ?].

Lemma bounded_arena_slice off ln :
  0 <= off < 2 ^ 32 -> 0 <= ln < 2 ^ 32 -> bounded (arena_slice off ln) (fun _ => True).
Proof.
  intros Ho Hl. unfold arena_slice. rewrite wadd_small by lia.
  destruct (Z.ltb_spec ARENA_SIZE off), (Z.ltb_spec ARENA_SIZE ln),
    (Z.ltb_spec ARENA_SIZE (off + ln)); cbn [orb]; try done.
  split; [lia|done].
Qed.

Lemma bounded_arena_eq off ln want :
  0 <= off < 2 ^ 32 -> 0 <= ln < 2 ^ 32 -> bounded (arena_eq off ln want) (fun _ => True).
Proof.
  intros Ho Hl. unfold arena_eq. rewrite wadd_small by lia.
  destruct (ln =? len want), (Z.ltb_spec ARENA_SIZE off),
    (Z.ltb_spec ARENA_SIZE (off + ln)); cbn [orb negb]; try done.
  split; [lia|done].
Qed.

Definition probe_in (r : option (Z * bool)) : Prop :=
  match r with Some (i, _) => in_index i | None => True end.

Lemma index_mod x : in_index (x mod INDEX_SLOTS).
Proof. apply Z.mod_pos_bound. unfold INDEX_SLOTS. lia. Qed.

Lemma bounded_probe_loop key hash start n j free :
  match free with Some i => in_index i | None => True end ->
  bounded (probe_loop key hash start free j n) probe_in.
Proof.
  revert j free; induction n as [|n IH]; intros j free Hf; cbn [probe_loop].
  { apply bounded_ret. by destruct free. }
  pose proof (index_mod (start + j)) as Hi. set (i := (start + j) mod INDEX_SLOTS) in *.
  step_load. case_if. { apply bounded_ret. by destruct free. }
  step_load. eapply (bounded_bind _ _ (fun _ => True)).
  { case_if; [|done]. step_load. step_load. by apply bounded_arena_eq. }
  intros eq _. case_if; [by apply bounded_ret|].
  eapply (bounded_bind _ _ (fun f => match f with Some i => in_index i | None => True end)).
  { case_if; [|done]. step_load. apply bounded_ret. by case_if. }
  intros free' Hf'. by apply IH.
Qed.

Lemma bounded_probe key hash : bounded (probe key hash) probe_in.
Proof. by apply bounded_probe_loop. Qed.

Lemma bounded_read_value key : bounded (read_value key (fnv1a key)) (fun _ => True).
Proof.
  unfold read_value. fold (key_slot key).
  pose proof (slot_of_range (fnv1a key)) as Hs. fold (key_slot key) in Hs.
  step_load. step_load. case_if; [done|].
  eapply bounded_bind; [apply bounded_probe|]. intros r Hr.
  eapply (bounded_bind _ _ (fun _ => True)).
  { destruct r as [[i [|]]|]; try done. step_load. case_if; [|done].
    step_load. step_load. eapply bounded_bind; [by apply bounded_arena_slice|]. done. }
  intros out _. destruct out; try done; step_load; step_load; by case_if.
Qed.

Lemma bounded_for_each_live {St} (f : bytes -> bytes -> St -> St) st :
  bounded (for_each_live f st) (fun _ => True).
Proof.
  unfold for_each_live. apply bounded_foldM; [done|]. intros i st' Hi%buckets_in _.
  unfold visit_live. step_load. case_if; [done|]. step_load. step_load.
  eapply bounded_bind; [by apply bounded_arena_slice|]. intros [key|] _; [|done].
  step_load. step_load. eapply bounded_bind; [by apply bounded_arena_slice|]. done.
Qed.

Lemma bounded_commit_snapshot nw : bounded (commit_snapshot nw) (fun _ => True).
Proof.
  unfold commit_snapshot. apply bounded_foldM; [done|]. intros i st' Hi%buckets_in _.
  unfold snapshot_entry. step_load. case_if; [done|]. step_load. case_if; [done|].
  step_load. step_load. eapply bounded_bind; [by apply bounded_arena_slice|].
  intros [key|] _; [|done]. unfold slot_value.
  step_load. { apply slot_of_range. }
  case_if; [|done]. step_load. case_if; [done|]. step_load.
  eapply bounded_bind; [by apply bounded_arena_slice|]. done.
Qed.
