(* ===== verification/WrapLoss.v ===== *)
(** A compaction that loses a live key.

    [compact] wipes the index and re-inserts what it kept in bucket order.
    A cluster of keys that wraps around the end of the index is re-inserted
    starting from its wrapped part, so the keys before the end can find
    their whole probe window taken - and [compact] skips those.  This is why
    the refinement theorems ask for [no_wrap] where a compaction happens. *)

From S2P Require Import Prelude Consts Hash Spec Segment Shm ShmInv ShmProbe ShmOps SeqCount ShmWrite ShmCompact ShmRefine ShmCommit ShmTrace.

(** Thirty names whose probe starts at bucket 8180, then forty-six that start
    at bucket 0. *)
Definition wrap_keys : list bytes := [
  [108; 113; 114]; [111; 115; 107]; [114; 108; 103]; [97; 97; 122; 107]; [97; 118; 119; 103];
  [98; 100; 119; 112]; [100; 101; 113; 117]; [100; 122; 108; 121]; [101; 101; 97; 102];
  [101; 118; 101; 121]; [102; 97; 101; 107]; [102; 110; 109; 116]; [102; 114; 112; 111];
  [102; 115; 114; 120]; [103; 102; 111; 97]; [103; 106; 108; 100]; [103; 109; 98; 117];
  [103; 113; 121; 120]; [104; 108; 109; 120]; [104; 117; 97; 121]; [105; 110; 105; 105];
  [106; 108; 110; 107]; [106; 109; 104; 116]; [106; 121; 109; 111]; [108; 105; 109; 109];
  [108; 112; 113; 108]; [108; 119; 119; 101]; [109; 97; 121; 122]; [109; 99; 107; 98];
  [109; 122; 99; 99]; [104; 107; 116]; [97; 99; 116; 107]; [97; 111; 105; 112];
  [97; 112; 97; 111]; [98; 116; 98; 115]; [99; 105; 109; 100]; [99; 112; 97; 101];
  [99; 122; 101; 103]; [100; 106; 121; 102]; [102; 99; 103; 107]; [102; 116; 108; 97];
  [102; 119; 122; 112]; [102; 120; 119; 108]; [103; 100; 109; 113]; [103; 103; 101; 98];
  [103; 104; 110; 108]; [103; 122; 119; 121]; [104; 101; 116; 102]; [106; 122; 117; 112];
  [107; 109; 97; 108]; [107; 121; 114; 97]; [108; 121; 112; 114]; [108; 122; 112; 105];
  [109; 100; 101; 99]; [109; 101; 97; 114]; [109; 105; 110; 119]; [110; 102; 102; 105];
  [110; 122; 107; 110]; [111; 97; 115; 122]; [111; 108; 100; 118]; [112; 107; 100; 120];
  [112; 114; 106; 119]; [113; 106; 100; 114]; [114; 101; 99; 105]; [114; 104; 120; 109];
  [114; 107; 104; 118]; [114; 112; 114; 119]; [114; 113; 118; 110]; [115; 102; 98; 106];
  [115; 115; 121; 110]; [116; 108; 109; 112]; [116; 109; 119; 103]; [117; 112; 120; 104];
  [117; 113; 120; 113]; [117; 114; 120; 122]; [119; 119; 110; 103]
].

(** The segment after one [put] for each of them. *)
Definition wrapped : Segment := apply_all ((fun k => OPut k [49] true) <$> wrap_keys) zero_segment.

(** A key of it that goes missing. *)
Definition lost_key : bytes := [108; 113; 114].

Lemma wrapped_wf : wf wrapped.
Proof.
  apply apply_all_wf; [apply fresh_wf, zero_segment_fresh|].
  unfold wrap_keys. rewrite Forall_fmap. repeat (constructor; [done|]). constructor.
Qed.

(** Compaction can lose a live key.  Every name of [wrap_keys] was stored
    and none removed, the segment is well-formed and uses less than a
    kilobyte of its arena, and yet the compaction makes the key [lost_key] -
    live, and owed to the disk - disappear without reporting anything, and
    without its counter moving. *)
Theorem compact_may_lose_live_key :
  wf wrapped /\ used wrapped < 1024 /\
  fst (run (read_value lost_key (fnv1a lost_key)) wrapped) = Value [49] /\
  fst (run (read_value lost_key (fnv1a lost_key)) (snd (run compact wrapped))) = Absent /\
  slot (snd (run compact wrapped)) (key_slot lost_key) = slot wrapped (key_slot lost_key).
Proof.
  split_and!; [apply wrapped_wf|vm_compute; reflexivity| | |].
  1,2: vm_compute; reflexivity.
  destruct (compact_progress wrapped wrapped_wf) as (_ & Hs & _). apply Hs.
Qed.
