(* ===== verification/SegmentThms.v ===== *)
(** What the shared segment promises, operation by operation. *)

From S2P Require Import Prelude Consts Hash Spec Segment Shm ShmInv ShmProbe ShmOps SeqCount ShmWrite ShmCompact ShmRefine ShmCommit ShmTrace ShmSafety.

(** A small segment the witnesses use: one dirty key, ["a" = "xy"]. *)
Definition sample : Segment := snd (run (put [97] [120; 121] true) zero_segment).

(** The same with its key's counter left odd by a dead writer. *)
Definition poisoned : Segment := snd (run (poison_slot (fnv1a [97])) sample).

Lemma zero_wf : wf zero_segment.
Proof. apply fresh_wf, zero_segment_fresh. Qed.

Lemma zero_compact_safe need : 0 <= need <= ARENA_SIZE -> compact_safe zero_segment need.
Proof.
  intros Hn. unfold compact_safe, needs_compact.
  change (used zero_segment) with 0. change (garbage zero_segment) with 0.
  destruct (Z.leb_spec (0 + need) ARENA_SIZE); [done|lia].
Qed.

Lemma sample_spec : wf sample /\ view sample = {[ [97] := (Some [120; 121], true) ]}.
Proof.
  destruct (run_put zero_segment [97] [120; 121] true zero_wf ltac:(done)) as (m & [Hw _ Hm _ Hv _]).
  assert (compact_safe zero_segment (len [97] + len [120; 121])) as Hsafe.
  { apply zero_compact_safe. vm_compute. split; discriminate. }
  specialize (Hm Hsafe). subst m.
  assert (fst (run (put [97] [120; 121] true) zero_segment) = Ok tt) as E
    by (vm_compute; reflexivity).
  rewrite E, (fresh_view _ zero_segment_fresh) in Hv.
  split; [exact Hw|]. unfold sample. rewrite Hv. reflexivity.
Qed.

(** C1: [put] refines the abstract store.  When compaction, if it is needed
    at all, loses nothing, a successful [put] makes exactly the abstract
    update (nothing at all when the value is already there), a failed one
    changes no key, and the invariant holds on either branch. *)
Theorem put_refines s key val dirty :
  wf s -> len key + len val < 2 ^ 63 -> compact_safe s (len key + len val) ->
  let (r, s') := run (put key val dirty) s in
  wf s' /\
  view s' = match r with Ok _ => Spec.put key val dirty (view s) | Err => view s end.
Proof.
  intros Hwf Hlen Hsafe. destruct (run_put s key val dirty Hwf Hlen) as (m & [Hw _ Hm _ Hv _]).
  rewrite (Hm Hsafe) in Hv. by destruct (run (put key val dirty) s).
Qed.

Lemma put_refines_witness :
  let (r, s') := run (put [98] [1] true) zero_segment in
  wf s' /\ view s' = match r with
                     | Ok _ => Spec.put [98] [1] true (view zero_segment)
                     | Err => view zero_segment end.
Proof.
  apply put_refines; [apply zero_wf|reflexivity|].
  apply zero_compact_safe. split; [done|]. vm_compute. discriminate.
Defined.

(** C23: with no writer about - both counters the reader checks are even - a
    lock-free read succeeds, changes nothing, and returns exactly the value
    the abstract store holds for the key, or that it holds none. *)
Theorem read_value_refines s key :
  wf s -> is_odd (slot s (key_slot key)) = false -> is_odd (aseq s) = false ->
  run (read_value key (fnv1a key)) s =
    (read_of (Spec.get (view s) key), s).
Proof. apply run_read_value. Qed.

Lemma read_value_refines_witness :
  run (read_value [97] (fnv1a [97])) sample =
    (read_of (Spec.get (view sample) [97]), sample).
Proof.
  apply read_value_refines; [apply sample_spec|vm_compute; reflexivity..].
Defined.

(** C27: [remove] refines the abstract removal: it reports whether the key was
    live, leaves a pending deletion or nothing, and touches no other key; the
    key's counter moves by one full bracket exactly when it was removed. *)
Theorem remove_refines s key dirty :
  wf s ->
  let (r, s') := run (remove key dirty) s in
  wf s' /\ (r, view s') = Spec.remove key dirty (view s) /\
  (if r then slots_bumped s s' key else forall k, slot s' k = slot s k).
Proof.
  intros Hwf. pose proof (run_remove s key dirty Hwf) as (Hw & Hv & Hs & _).
  by destruct (run (remove key dirty) s).
Qed.

Lemma remove_refines_witness :
  let (r, s') := run (remove [97] true) sample in
  wf s' /\ (r, view s') = Spec.remove [97] true (view sample) /\
  (if r then slots_bumped sample s' [97] else forall k, slot s' k = slot sample k).
Proof. apply remove_refines. apply sample_spec. Defined.

(** C34: [commit_snapshot] takes exactly what the disk is owed - every dirty
    value and deletion, every clean value the disk lacks, and nothing else -
    each with its current value and with its key's counter, and leaves the
    segment as it is. *)
Theorem commit_snapshot_exact nw s p :
  wf s ->
  let (ps, s') := run (commit_snapshot nw) s in
  s' = s /\
  (p ∈ ps <->
     exists it, view s !! p_key p = Some it /\ owed nw (p_key p) it = true /\
       p = mkPending (p_key p) (fst it) (fnv1a (p_key p)) (slot s (key_slot (p_key p)))).
Proof.
  intros Hwf. rewrite (run_commit_snapshot nw s Hwf). split; [done|]. by apply pendings_elem.
Qed.

Lemma commit_snapshot_exact_witness :
  let p := mkPending [97] (Some [120; 121]) (fnv1a [97]) (slot sample (key_slot [97])) in
  let (ps, s') := run (commit_snapshot (fun _ _ => false)) sample in
  s' = sample /\
  (p ∈ ps <->
     exists it, view sample !! p_key p = Some it /\ owed (fun _ _ => false) (p_key p) it = true /\
       p = mkPending (p_key p) (fst it) (fnv1a (p_key p)) (slot sample (key_slot (p_key p)))).
Proof. apply commit_snapshot_exact, sample_spec. Defined.

(** C15: write-back never strands a change.  Take a snapshot of [s0], let any
    operations of other processes happen, then retire the flags of the items
    [ps] that reached the disk: a key this affects still holds, at that
    moment, the very value - or the very deletion - that the snapshot captured
    and the disk received ([retired]).  Every other key keeps its item, flag
    included, so the next commit still owes it. *)
Theorem writeback_strands_nothing nw s0 os ps key :
  wf s0 -> Forall op_ok os -> headroom s0 key (length os) -> ps ⊆ pendings nw s0 ->
  let s1 := apply_all os s0 in
  let s2 := snd (run (commit_writeback ps) s1) in
  view s2 !! key = view s1 !! key \/
  exists p, p ∈ ps /\ retired (view s1) (view s2) key p.
Proof.
  intros Hwf Hos Hh Hps. cbv zeta.
  pose proof (apply_all_wf os s0 Hwf Hos) as Hw1.
  destruct (apply_all_moved os s0 key Hwf Hos Hh) as [_ Hage].
  set (s1 := apply_all os s0) in *. clearbody s1.
  destruct (run_commit_writeback s1 ps Hw1) as (_ & Hv & _ & _).
  { intros p Hp. apply Hps, pendings_elem in Hp as (it & _ & _ & ->); done. }
  rewrite Hv. apply retired_key. intros p Hp <- Hs.
  apply Hps, pendings_elem in Hp as ([ov d] & Hit & _ & E); [|done].
  apply (f_equal p_seen) in E as Eseen. apply (f_equal p_val) in E as Eval. cbn in *.
  exists d. rewrite Eval, <- Hit. apply Hage. congruence.
Qed.

Lemma writeback_strands_nothing_witness :
  let s1 := apply_all [OPut [97] [122] true] sample in
  let s2 := snd (run (commit_writeback (pendings (fun _ _ => false) sample)) s1) in
  view s2 !! [97] = view s1 !! [97] \/
  exists p, p ∈ pendings (fun _ _ => false) sample /\ retired (view s1) (view s2) [97] p.
Proof.
  apply (writeback_strands_nothing (fun _ _ => false)).
  - apply sample_spec.
  - by repeat constructor.
  - vm_compute. split; [discriminate|reflexivity].
  - done.
Defined.

(** A commit that nothing disturbs retires everything: after the
    write-back of the whole snapshot no key is dirty, and every key has the
    value it had. *)
Theorem writeback_retires_all nw s key :
  wf s ->
  let s' := snd (run (commit_writeback (pendings nw s)) s) in
  wf s' /\ Spec.dirty (view s') key = false /\
  Spec.get (view s') key = Spec.get (view s) key.
Proof.
  intros Hwf. cbv zeta.
  destruct (run_commit_writeback s (pendings nw s) Hwf) as (Hw & Hv & _).
  { intros p Hp. apply pendings_elem in Hp as (it & _ & _ & ->); done. }
  rewrite Hv. split; [done|]. by apply retire_all.
Qed.

Lemma writeback_retires_all_witness :
  let s' := snd (run (commit_writeback (pendings (fun _ _ => false) sample)) sample) in
  wf s' /\ Spec.dirty (view s') [97] = false /\
  Spec.get (view s') [97] = Spec.get (view sample) [97].
Proof. apply writeback_retires_all, sample_spec. Defined.

(** C17: the counters are a sound version number.  Over any sequence of
    operations, short of the 2^64 wrap and with no compaction that loses a
    key, a key's counter never goes back, and as long as it has not moved the
    key's value is what it was: a cached copy tagged with it is fresh. *)
Theorem counter_tracks_value os s key :
  wf s -> Forall op_ok os -> safe_all os s -> headroom s key (length os) ->
  let s' := apply_all os s in
  wf s' /\ slot s (key_slot key) <= slot s' (key_slot key) /\
  (Spec.get (view s') key <> Spec.get (view s) key ->
   slot s (key_slot key) < slot s' (key_slot key)).
Proof.
  intros Hwf Hos Hsafe Hh. cbv zeta.
  destruct (apply_all_moved os s key Hwf Hos Hh) as [Hle _].
  split_and!; [by apply apply_all_wf|done|]. intros Hne.
  destruct (decide (slot (apply_all os s) (key_slot key) = slot s (key_slot key))) as [E|]; [|lia].
  by apply apply_all_get in E.
Qed.

Lemma counter_tracks_value_witness :
  let s' := apply_all [OPut [97] [49] true; ORemove [97] true] zero_segment in
  wf s' /\ slot zero_segment (key_slot [97]) <= slot s' (key_slot [97]) /\
  (Spec.get (view s') [97] <> Spec.get (view zero_segment) [97] ->
   slot zero_segment (key_slot [97]) < slot s' (key_slot [97])).
Proof.
  apply counter_tracks_value; [apply zero_wf|by repeat constructor| |].
  - split; [|by split]. apply zero_compact_safe. vm_compute. split; discriminate.
  - vm_compute. split; [discriminate|reflexivity].
Defined.

(** C21: every segment the operations can produce is well-formed - bump
    pointer and accounting within the arena, every reference inside the used
    part, hashes and probe chains right, no key twice - whatever the order
    and the arguments, compactions included. *)
Theorem reachable_wf os : Forall op_ok os -> wf (apply_all os zero_segment).
Proof. apply apply_all_wf, zero_wf. Qed.

Lemma reachable_wf_witness : wf (apply_all [OPut [97] [49] true; OClear; ORepair 3] zero_segment).
Proof. apply reachable_wf. repeat constructor; unfold SLOTS; lia. Defined.

(** C37: when [put] fails, the store is full: either the live data and the new
    entry do not fit the arena together, even compacted, or every bucket of
    the key's probe window is held by a live key or a pending deletion. *)
Theorem put_fails_only_when_full s key val dirty :
  wf s -> len key + len val < 2 ^ 63 -> fst (run (put key val dirty) s) = Err ->
  let s1 := snd (run (ensure_space (len key + len val)) s) in
  ARENA_SIZE < live_size s + (len key + len val) \/
  (no_key s1 key /\ forall j, 0 <= j < MAX_PROBES -> ~ claimable s1 (probe_at key j)).
Proof. apply put_error. Qed.

Lemma put_fails_only_when_full_witness :
  let big := repeat 0 (Z.to_nat (ARENA_SIZE + 1)) in
  let s1 := snd (run (ensure_space (len [] + len big)) zero_segment) in
  ARENA_SIZE < live_size zero_segment + (len [] + len big) \/
  (no_key s1 [] /\ forall j, 0 <= j < MAX_PROBES -> ~ claimable s1 (probe_at [] j)).
Proof.
  apply (put_fails_only_when_full _ _ _ true); [apply zero_wf| |].
  - unfold len. rewrite repeat_length. vm_compute. reflexivity.
  - vm_compute. reflexivity.
Defined.

(** Compaction never invents or alters a record and moves no key's
    counter; when no record has wrapped around the end of the index it keeps
    every record, and leaves the arena with live bytes only. *)
Theorem compact_preserves s :
  wf s ->
  let s' := snd (run compact s) in
  wf s' /\ view s' ⊆ view s /\ (no_wrap s -> view s' = view s) /\
  used s' <= live_size s /\ (forall k, slot s' k = slot s k) /\ aseq s' = bump (aseq s).
Proof.
  intros Hwf. cbv zeta. destruct (compact_view s Hwf) as (? & ? & ? & ?).
  destruct (compact_progress s Hwf) as (_ & ? & ?). by split_and!.
Qed.

Lemma compact_preserves_witness :
  let s' := snd (run compact sample) in
  wf s' /\ view s' ⊆ view sample /\ (no_wrap sample -> view s' = view sample) /\
  used s' <= live_size sample /\ (forall k, slot s' k = slot sample k) /\
  aseq s' = bump (aseq sample).
Proof. apply compact_preserves, sample_spec. Defined.

(** [clear] leaves an empty, well-formed store whatever it finds - even
    a corrupt one - and moves every counter, so no cached copy survives it. *)
Theorem clear_empties s key :
  headroom s key 1 ->
  let s' := snd (run clear s) in
  wf s' /\ view s' = ∅ /\ slot s (key_slot key) < slot s' (key_slot key) /\
  is_odd (slot s' (key_slot key)) = false /\ is_odd (aseq s') = false.
Proof.
  intros [H0 H1]. cbv zeta. destruct (run_clear s) as (Hw & Hv & Ha & Hs).
  specialize (Hs _ (key_slot_range key)). rewrite Hs, Ha.
  pose proof (next_even_range (slot s (key_slot key)) ltac:(lia)).
  split_and!; [done..|lia|apply next_even_even|apply bump_even].
Qed.

Lemma clear_empties_witness :
  let s' := snd (run clear sample) in
  wf s' /\ view s' = ∅ /\ slot sample (key_slot [97]) < slot s' (key_slot [97]) /\
  is_odd (slot s' (key_slot [97])) = false /\ is_odd (aseq s') = false.
Proof. apply clear_empties. vm_compute. split; [discriminate|reflexivity]. Defined.

(** Enumeration is exact: the callback sees every live key once, with
    its value, and nothing else. *)
Theorem for_each_live_exact s :
  wf s ->
  let (seen, s') := run (for_each_live (fun k v st => st ++ [(k, v)]) []) s in
  s' = s /\ NoDup seen.*1 /\
  forall k v, (k, v) ∈ seen <-> Spec.get (view s) k = Some v.
Proof.
  intros Hwf. rewrite (run_for_each_live _ s [] Hwf).
  rewrite (foldl_snoc_pairs (live_pairs s) []). simpl.
  split_and!; [done|by apply live_pairs_NoDup|]. intros k v. by apply live_pairs_elem.
Qed.

Lemma for_each_live_exact_witness :
  let (seen, s') := run (for_each_live (fun k v st => st ++ [(k, v)]) []) sample in
  s' = sample /\ NoDup seen.*1 /\
  forall k v, (k, v) ∈ seen <-> Spec.get (view sample) k = Some v.
Proof. apply for_each_live_exact, sample_spec. Defined.

(** C35: a writer that died inside an update leaves a counter odd, and every
    read of its slot torn; [repair_seq], under the writer lock, is enough to
    make reads of the key succeed again with what the segment holds. *)
Theorem repair_restores_reads s key :
  wf s ->
  (is_odd (slot s (key_slot key)) || is_odd (aseq s) = true ->
     fst (run (read_value key (fnv1a key)) s) = Torn) /\
  let (r, s') := run (repair_seq (key_slot key)) s in
  r = is_odd (slot s (key_slot key)) || is_odd (aseq s) /\ wf s' /\ view s' = view s /\
  fst (run (read_value key (fnv1a key)) s') =
    read_of (Spec.get (view s) key).
Proof.
  intros Hwf. split; [intros H; by rewrite run_read_torn|].
  pose proof (run_repair_seq (key_slot key) s) as (Hr & Hs & Ha & _ & Hd).
  destruct (run (repair_seq (key_slot key)) s) as [r s']. cbn [fst snd] in *.
  assert (wf s') as Hw by by eapply same_data_wf.
  rewrite run_read_value, <- (view_proper _ _ Hd); [by split_and!|done|..].
  - rewrite Hs. apply repaired_even.
  - rewrite Ha. apply repaired_even.
Qed.

Lemma repair_restores_reads_witness :
  (is_odd (slot poisoned (key_slot [97])) || is_odd (aseq poisoned) = true ->
     fst (run (read_value [97] (fnv1a [97])) poisoned) = Torn) /\
  let (r, s') := run (repair_seq (key_slot [97])) poisoned in
  r = is_odd (slot poisoned (key_slot [97])) || is_odd (aseq poisoned) /\
  wf s' /\ view s' = view poisoned /\
  fst (run (read_value [97] (fnv1a [97])) s') =
    read_of (Spec.get (view poisoned) [97]).
Proof.
  apply repair_restores_reads.
  apply (same_data_wf sample); [|apply sample_spec]. by apply same_data_store.
Defined.

(** C36: the lock-free and read-only operations are memory-safe against any
    writer: whatever values of the cells' widths their loads return, every
    access stays inside the header, the index and the arena, and nothing is
    written. *)
Theorem readers_stay_in_bounds key nw :
  bounded (read_value key (fnv1a key)) (fun _ => True) /\
  bounded (for_each_live (fun k v st => st ++ [(k, v)]) []) (fun _ => True) /\
  bounded (commit_snapshot nw) (fun _ => True).
Proof.
  split_and!; [apply bounded_read_value|apply bounded_for_each_live|apply bounded_commit_snapshot].
Qed.

(** C40: a lookup may stop early.  Under the invariant the linear probe -
    which gives up at the first empty bucket or after [MAX_PROBES] rounds -
    finds a key if and only if some bucket of the whole index holds it. *)
Theorem probe_finds_exactly s key :
  wf s ->
  let (r, s') := run (probe key (fnv1a key)) s in
  s' = s /\
  forall i, (r = Some (i, true) <-> in_index i /\ state_of s i <> ST_EMPTY /\ key_of s i = key).
Proof.
  intros Hwf. destruct (key_cases s key) as [(i & Hi & Hne & Hk)|Hno].
  - rewrite (run_probe_found s key i) by done. split; [done|]. intros i'. split.
    + by intros [= <-].
    + intros (Hi' & Hne' & Hk'). do 2 f_equal. apply (wf_unique s Hwf); congruence.
  - destruct (run_probe_missing s key Hwf Hno) as (r & -> & Hr). split; [done|].
    intros i. split.
    + intros ->. by destruct Hr.
    + intros (Hi & Hne & Hk). by destruct (Hno i Hi Hne).
Qed.

Lemma probe_finds_exactly_witness :
  let (r, s') := run (probe [97] (fnv1a [97])) sample in
  s' = sample /\
  forall i, (r = Some (i, true) <->
    in_index i /\ state_of sample i <> ST_EMPTY /\ key_of sample i = [97]).
Proof. apply probe_finds_exactly, sample_spec. Defined.
