(* ===== verification/Cache.v ===== *)
(** The per-process cache (src/src/cache.rs) and the buffers callers hold.

    The point of this module is the life of a pointer, so the process heap is
    explicit: a [Box<[u8]>] is the address of a live buffer, dropping one
    frees it, and a pointer handed to C is good as long as its buffer is
    live.  Where the allocator puts a new buffer is its own choice, any
    address that is neither null nor live ([Allocator]). *)

From S2P Require Import Prelude.

(** * Heap *)

Abbreviation heap := (gmap Z bytes).

(** What the program relies on of the allocator. *)
Class Allocator := {
  pick : heap -> Z;
  pick_free : forall h, h !! pick h = None;
  pick_nonnull : forall h, pick h <> 0
}.

(** An allocator that exists: one past the highest live address. *)
Definition top (h : heap) : Z := foldr Z.max 0 (map_to_list h).*1.

Lemma foldr_max_above a (l : list Z) : a ∈ l -> a <= foldr Z.max 0 l.
Proof.
  induction l as [|x l IH]; intros H; [by apply elem_of_nil in H|]. simpl.
  apply elem_of_cons in H as [->|H]; [lia|]. specialize (IH H). lia.
Qed.

Lemma top_above (h : heap) a bs : h !! a = Some bs -> a <= top h.
Proof.
  intros H. apply foldr_max_above. apply elem_of_map_to_list in H.
  apply list_elem_of_fmap. by exists (a, bs).
Qed.

Lemma top_nonneg h : 0 <= top h.
Proof. unfold top. induction (map_to_list h).*1; simpl; lia. Qed.

#[export, program] Instance bump_allocator : Allocator := {| pick h := top h + 1 |}.
Next Obligation.
  intros h. destruct (h !! (top h + 1)) eqn:E; [|done]. apply top_above in E. lia.
Qed.
Next Obligation. intros h. pose proof (top_nonneg h). lia. Qed.

(** Dropping an [Option<Box<[u8]>>]. *)
Definition free (o : option Z) (h : heap) : heap :=
  match o with Some a => delete a h | None => h end.

(** The bytes of a live box. *)
Definition deref (h : heap) (a : Z) : bytes := default [] (h !! a).

(** * The cache *)

Record Entry := mkCacheEntry {
  ce_value : option Z;
  ce_retired : option Z;
  ce_slot_seen : Z;
  ce_valid : bool
}.

Definition entry_new : Entry := mkCacheEntry None None 0 false.

Abbreviation Cache := (gmap bytes Entry).

(** [as_ptr]: 0 is the null pointer. *)
Definition as_ptr (e : Entry) : Z := default 0 (ce_value e).

(** [cur.len() == new.len() + 1 && cur[..new.len()] == new] *)
Definition same_value (cur new : bytes) : bool :=
  (len cur =? len new + 1) && bool_decide (take (length new) cur = new).

Section ops.
Context `{AL : Allocator}.

Definition install (e : Entry) (fresh : option bytes) (slot_seen : Z) (h : heap) : Entry * heap :=
  let unchanged :=
    match ce_value e, fresh with
    | Some cur, Some new => same_value (deref h cur) new
    | None, None => true
    | _, _ => false
    end in
  if unchanged then (mkCacheEntry (ce_value e) (ce_retired e) slot_seen true, h)
  else
    let h := free (ce_retired e) h in
    let retired := ce_value e in
    match fresh with
    | None => (mkCacheEntry None retired slot_seen true, h)
    | Some v =>
      let a := pick h in
      (mkCacheEntry (Some a) retired slot_seen true, <[a := v ++ [0]]> h)
    end.

Definition entry (key : bytes) (c : Cache) : Entry * Cache :=
  match c !! key with
  | Some e => (e, c)
  | None => (entry_new, <[key := entry_new]> c)
  end.

Definition invalidate_one (e : Entry) : Entry := mkCacheEntry None (ce_value e) 0 false.

(** Every entry's retired buffer is dropped, its value retired. *)
Definition invalidate_all (c : Cache) (h : heap) : Cache * heap :=
  (invalidate_one <$> c, map_fold (fun _ e h => free (ce_retired e) h) h c).

(** [self.cache.entry(key).install(fresh, seen)], the way [Store] uses it. *)
Definition install_at (key : bytes) (fresh : option bytes) (seen : Z) (c : Cache) (h : heap)
    : Cache * heap :=
  let (e, c) := entry key c in
  let (e, h) := install e fresh seen h in
  (<[key := e]> c, h).

(** What the cache holds for a key, the terminator stripped. *)
Definition cached (c : Cache) (h : heap) (key : bytes) : option bytes :=
  match c !! key with
  | Some e => (fun a => removelast (deref h a)) <$> ce_value e
  | None => None
  end.

(** * The invariant: who owns what *)

Definition owned (e : Entry) : list Z :=
  match ce_value e with Some a => [a] | None => [] end ++
  match ce_retired e with Some a => [a] | None => [] end.

Record cache_ok (c : Cache) (h : heap) : Prop := mk_cache_ok {
  co_live : forall k e a, c !! k = Some e -> a ∈ owned e -> is_Some (h !! a);
  co_owner : forall k k' e e' a,
    c !! k = Some e -> c !! k' = Some e' -> a ∈ owned e -> a ∈ owned e' -> k = k';
  co_distinct : forall k e, c !! k = Some e -> NoDup (owned e);
  co_term : forall k e a, c !! k = Some e -> ce_value e = Some a ->
    exists v, h !! a = Some (v ++ [0]);
  co_noleak : forall a, is_Some (h !! a) -> exists k e, c !! k = Some e /\ a ∈ owned e;
  co_nonnull : h !! 0 = None
}.

Lemma same_value_iff v new : same_value (v ++ [0]) new = true <-> v = new.
Proof.
  unfold same_value. rewrite andb_true_iff, bool_decide_eq_true, Z.eqb_eq. split.
  - intros [Hl E]. unfold len in Hl. rewrite length_app in Hl. simpl in Hl.
    rewrite <- E. rewrite take_app_length'; [done|lia].
  - intros ->. rewrite take_app_length. unfold len. rewrite length_app. simpl. split; [lia|done].
Qed.

(** One entry is replaced; its buffers are kept, freed or freshly allocated. *)
Lemma update_ok c h k e e' h' :
  cache_ok c h -> c !! k = Some e ->
  (forall a, is_Some (h' !! a) <-> a ∈ owned e' \/ (is_Some (h !! a) /\ a ∉ owned e)) ->
  (forall a, a ∈ owned e' -> a ∈ owned e \/ h !! a = None) ->
  (forall a, a ∉ owned e -> is_Some (h !! a) -> h' !! a = h !! a) ->
  NoDup (owned e') ->
  (forall a, ce_value e' = Some a -> exists v, h' !! a = Some (v ++ [0])) ->
  h' !! 0 = None ->
  cache_ok (<[k := e']> c) h'.
Proof.
  intros [Hl Ho Hd Ht Hn H0] Hk Hdom Hnew Hsame Hnd Hterm H0'.
  assert (forall j ej a, j <> k -> c !! j = Some ej -> a ∈ owned ej ->
            is_Some (h !! a) /\ a ∉ owned e) as Hother.
  { intros j ej a Hj Hc Ha. split; [by eapply Hl|]. intros Hae. by eapply Hj, Ho. }
  assert (forall j ej a, j <> k -> c !! j = Some ej -> a ∈ owned ej -> a ∉ owned e') as Hsep.
  { intros j ej a Hj Hc Ha Ha'. destruct (Hother j ej a Hj Hc Ha) as [[x Hx] Hnot].
    destruct (Hnew a Ha') as [|E]; [done|]. by rewrite Hx in E. }
  split.
  - intros j ej a [[<- <-]|[Hj Hc]]%lookup_insert_Some Ha; apply Hdom; [by left|].
    right. by apply (Hother j ej).
  - intros j j' ej ej' a Hc Hc' Ha Ha'.
    apply lookup_insert_Some in Hc as [[<- <-]|[Hj Hc]];
      apply lookup_insert_Some in Hc' as [[<- <-]|[Hj' Hc']]; [done|exfalso..|by eapply Ho].
    + by apply (Hsep j' ej' a).
    + by apply (Hsep j ej a).
  - intros j ej [[<- <-]|[Hj Hc]]%lookup_insert_Some; [done|by eapply Hd].
  - intros j ej a [[<- <-]|[Hj Hc]]%lookup_insert_Some Hv; [by apply Hterm|].
    assert (a ∈ owned ej) as Ha by (unfold owned; rewrite Hv; apply list_elem_of_here).
    destruct (Hother j ej a ltac:(done) Hc Ha) as [Hs Hna]. rewrite Hsame by done. by eapply Ht.
  - intros a Hs%Hdom. destruct Hs as [Ha|[Hs Ha]].
    + exists k, e'. by rewrite lookup_insert_eq.
    + destruct (Hn a Hs) as (j & ej & Hc & Hej). exists j, ej. split; [|done].
      rewrite lookup_insert_ne; [done|]. intros <-. congruence.
  - done.
Qed.

(** Interning a key owns nothing. *)
Lemma entry_spec key c h :
  cache_ok c h ->
  let (e, c') := entry key c in
  cache_ok c' h /\ c' !! key = Some e /\ e = default entry_new (c !! key) /\
  (forall k, k <> key -> c' !! k = c !! k).
Proof.
  intros Hok. unfold entry. destruct (c !! key) as [e|] eqn:Hk; [by split_and!|].
  split_and!; [|apply lookup_insert_eq|done|intros; by apply lookup_insert_ne].
  destruct Hok as [Hl Ho Hd Ht Hn H0].
  assert (forall a, a ∉ owned entry_new) as Hnil by (intros a Ha; by apply elem_of_nil in Ha).
  split.
  - intros j ej a [[<- <-]|[Hj Hc]]%lookup_insert_Some Ha; [by apply Hnil in Ha|by eapply Hl].
  - intros j j' ej ej' a Hc Hc' Ha Ha'.
    apply lookup_insert_Some in Hc as [[<- <-]|[Hj Hc]]; [by apply Hnil in Ha|].
    apply lookup_insert_Some in Hc' as [[<- <-]|[Hj' Hc']]; [by apply Hnil in Ha'|].
    by eapply Ho.
  - intros j ej [[<- <-]|[Hj Hc]]%lookup_insert_Some; [constructor|by eapply Hd].
  - intros j ej a [[<- <-]|[Hj Hc]]%lookup_insert_Some Hv; [done|by eapply Ht].
  - intros a (j & ej & Hc & Ha)%Hn. exists j, ej. split; [|done].
    rewrite lookup_insert_ne; [done|]. intros <-. congruence.
  - done.
Qed.

(** Is this installation a change of the cached value? *)
Definition changes (cur fresh : option bytes) : bool := negb (bool_decide (cur = fresh)).

Definition value_of (e : Entry) (h : heap) : option bytes :=
  (fun a => removelast (deref h a)) <$> ce_value e.

(** [install] on an entry of a consistent cache, branch by branch. *)
Lemma install_cases c h k e fresh seen :
  cache_ok c h -> c !! k = Some e ->
  install e fresh seen h =
    if changes (value_of e h) fresh then
      let h1 := free (ce_retired e) h in
      match fresh with
      | None => (mkCacheEntry None (ce_value e) seen true, h1)
      | Some v =>
        (mkCacheEntry (Some (pick h1)) (ce_value e) seen true, <[pick h1 := v ++ [0]]> h1)
      end
    else (mkCacheEntry (ce_value e) (ce_retired e) seen true, h).
Proof.
  intros Hok Hk. unfold install, value_of, changes.
  destruct (ce_value e) as [a|] eqn:Hv; simpl.
  - destruct (co_term c h Hok k e a Hk Hv) as [v Ha]. unfold deref. rewrite Ha. simpl.
    rewrite removelast_last. destruct fresh as [new|]; [|done].
    destruct (same_value (v ++ [0]) new) eqn:E.
    + apply same_value_iff in E as ->. by rewrite bool_decide_eq_true_2.
    + rewrite bool_decide_eq_false_2; [done|]. intros [= ->].
      by rewrite (proj2 (same_value_iff new new) eq_refl) in E.
  - destruct fresh; [|by rewrite bool_decide_eq_true_2].
    by rewrite bool_decide_eq_false_2.
Qed.

Lemma free_lookup o h a : free o h !! a = if decide (o = Some a) then None else h !! a.
Proof.
  destruct o as [b|]; cbn [free]; [|by rewrite decide_False].
  destruct (decide (Some b = Some a)) as [[= ->]|Hne]; [by rewrite lookup_delete_eq|].
  apply lookup_delete_ne. congruence.
Qed.

Lemma owned_value e a : ce_value e = Some a -> a ∈ owned e.
Proof. intros H. unfold owned. rewrite H. apply list_elem_of_here. Qed.
Lemma owned_retired e a : ce_retired e = Some a -> a ∈ owned e.
Proof. intros H. unfold owned. rewrite H. apply elem_snoc_r. Qed.
Lemma owned_inv e a : a ∈ owned e -> ce_value e = Some a \/ ce_retired e = Some a.
Proof.
  unfold owned. intros [H|H]%elem_of_app; [left|right].
  - destruct (ce_value e); [|by apply elem_of_nil in H].
    apply list_elem_of_singleton in H. congruence.
  - destruct (ce_retired e); [|by apply elem_of_nil in H].
    apply list_elem_of_singleton in H. congruence.
Qed.
Lemma owned_distinct c h k e a :
  cache_ok c h -> c !! k = Some e -> ce_value e = Some a -> ce_retired e <> Some a.
Proof.
  intros Hok Hk Hv Hr. pose proof (co_distinct c h Hok k e Hk) as Hd.
  unfold owned in Hd. rewrite Hv, Hr in Hd. simpl in Hd.
  apply NoDup_cons in Hd as [Hd _]. apply Hd. apply list_elem_of_here.
Qed.

Lemma free_retired_dom c h k e b :
  cache_ok c h -> c !! k = Some e ->
  is_Some (free (ce_retired e) h !! b) <->
    ce_value e = Some b \/ (is_Some (h !! b) /\ b ∉ owned e).
Proof.
  intros Hok Hk. rewrite free_lookup. split.
  - case_decide as Hr; [by intros []|]. intros Hs.
    destruct (decide (ce_value e = Some b)); [by left|right]. split; [done|].
    by intros [|]%owned_inv.
  - intros [Hv|[Hs Hb]].
    + rewrite decide_False by by eapply owned_distinct.
      eapply co_live; [done..|]. by apply owned_value.
    + rewrite decide_False; [done|]. intros Hr. by apply Hb, owned_retired.
Qed.

Lemma install_ok c h k e fresh seen :
  cache_ok c h -> c !! k = Some e ->
  let (e', h') := install e fresh seen h in cache_ok (<[k := e']> c) h'.
Proof.
  intros Hok Hk. rewrite (install_cases c h k e fresh seen Hok Hk).
  set (h1 := free (ce_retired e) h).
  assert (forall b, is_Some (h1 !! b) <-> ce_value e = Some b \/ (is_Some (h !! b) /\ b ∉ owned e))
    as Hdom by (intros b; by eapply free_retired_dom).
  assert (forall b, b ∉ owned e -> is_Some (h !! b) -> h1 !! b = h !! b) as Hsame.
  { intros b Hb _. subst h1. rewrite free_lookup, decide_False; [done|].
    intros Hr. by apply Hb, owned_retired. }
  assert (h1 !! 0 = None) as H0.
  { destruct (h1 !! 0) eqn:E; [|done]. pose proof (co_nonnull c h Hok) as Hz.
    subst h1. rewrite free_lookup in E. case_decide; [done|congruence]. }
  destruct (changes _ _).
  - destruct fresh as [v|]; cbv zeta iota beta.
    + pose proof (pick_free h1) as Hp. pose proof (pick_nonnull h1) as Hz. set (a := pick h1) in *. clearbody a.
      assert (ce_value e <> Some a) as Hva.
      { intros E. assert (is_Some (h1 !! a)) as [? Hs] by (apply Hdom; by left). congruence. }
      apply (update_ok c h k e); try done.
      * intros b. destruct (decide (b = a)) as [->|Hb].
        { rewrite lookup_insert_eq. split; [|by eexists]. intros _. left. by apply owned_value. }
        rewrite lookup_insert_ne by done. rewrite Hdom. split; intros [Hs|Hs]; [|by right| |by right].
        { left. by apply owned_retired. }
        { left. apply owned_inv in Hs as [Hs|Hs]; cbn in Hs; [congruence|done]. }
      * intros b [Hs|Hs]%owned_inv; cbn in Hs.
        { simplify_eq. destruct (decide (b ∈ owned e)); [by left|right].
          destruct (h !! b) eqn:E; [|done]. rewrite <- Hp, Hsame; [done|done|]. by rewrite E. }
        { left. by apply owned_value. }
      * intros b Hb Hs. rewrite lookup_insert_ne; [by apply Hsame|]. intros ->.
        assert (is_Some (h1 !! b)) as [? E] by (apply Hdom; by right). congruence.
      * unfold owned. cbn. destruct (ce_value e) as [b|]; cbn; [|apply NoDup_singleton].
        constructor; [|apply NoDup_singleton]. rewrite list_elem_of_singleton. congruence.
      * intros b [= <-]. exists v. by rewrite lookup_insert_eq.
      * by rewrite lookup_insert_ne.
    + apply (update_ok c h k e); try done.
      * intros b. rewrite Hdom. split; (intros [Hs|Hs]; [left|by right]).
        { by apply owned_retired. }
        { by apply owned_inv in Hs as [Hs|Hs]. }
      * intros b [Hs|Hs]%owned_inv; cbn in Hs; [done|]. left. by apply owned_value.
      * unfold owned. cbn. destruct (ce_value e); [apply NoDup_singleton|constructor].
  - apply (update_ok c h k e); try done.
    + intros b. change (owned (mkCacheEntry _ _ seen true)) with (owned e). split.
      * intros Hs. destruct (decide (b ∈ owned e)); [by left|by right].
      * intros [Hs|[Hs _]]; [|done]. by eapply co_live.
    + intros b Hb. by left.
    + apply (co_distinct c h Hok k e Hk).
    + intros b Hb. by eapply co_term.
    + apply (co_nonnull c h Hok).
Qed.

Lemma install_at_entry key fresh seen c h :
  let (e, c1) := entry key c in
  install_at key fresh seen c h =
    (<[key := fst (install e fresh seen h)]> c1, snd (install e fresh seen h)).
Proof.
  unfold install_at. destruct (entry key c) as [e c1].
  by destruct (install e fresh seen h).
Qed.

Lemma install_at_ok key fresh seen c h :
  cache_ok c h ->
  let (c', h') := install_at key fresh seen c h in cache_ok c' h'.
Proof.
  intros Hok. pose proof (entry_spec key c h Hok) as He.
  pose proof (install_at_entry key fresh seen c h) as Hi.
  destruct (entry key c) as [e c1]. destruct He as (Hok1 & Hk & _). rewrite Hi.
  pose proof (install_ok c1 h key e fresh seen Hok1 Hk) as H.
  by destruct (install e fresh seen h).
Qed.

(** ** [invalidate_all] *)

Lemma invalidate_heap c h :
  let h' := snd (invalidate_all c h) in
  (forall k e a, c !! k = Some e -> ce_retired e = Some a -> h' !! a = None) /\
  (forall a, (forall k e, c !! k = Some e -> ce_retired e <> Some a) -> h' !! a = h !! a).
Proof.
  cbv zeta. unfold invalidate_all. cbn [snd].
  apply (map_fold_weak_ind (fun r m =>
    (forall k e a, m !! k = Some e -> ce_retired e = Some a -> r !! a = None) /\
    (forall a, (forall k e, m !! k = Some e -> ce_retired e <> Some a) -> r !! a = h !! a))).
  - split; [|done]. intros k e a Hk. by rewrite lookup_empty in Hk.
  - intros k e m r Hm [IH1 IH2]. split.
    + intros k' e' a [[<- <-]|[Hne Hk']]%lookup_insert_Some Hr; rewrite free_lookup.
      * by rewrite decide_True.
      * case_decide; [done|]. by eapply IH1.
    + intros a Ha. rewrite free_lookup. rewrite decide_False.
      * apply IH2. intros k' e' Hk'. apply (Ha k' e').
        rewrite lookup_insert_ne; [done|]. intros <-. congruence.
      * apply (Ha k e). apply lookup_insert_eq.
Qed.

Lemma owned_invalidate e a : a ∈ owned (invalidate_one e) <-> ce_value e = Some a.
Proof.
  unfold owned, invalidate_one. cbn. destruct (ce_value e).
  - rewrite list_elem_of_singleton. split; congruence.
  - split; [by intros ?%elem_of_nil|done].
Qed.

Lemma invalidate_ok c h :
  cache_ok c h -> cache_ok (fst (invalidate_all c h)) (snd (invalidate_all c h)).
Proof.
  intros Hok. destruct (invalidate_heap c h) as [Hfree Hkeep].
  set (h' := snd (invalidate_all c h)) in *. clearbody h'.
  change (fst (invalidate_all c h)) with (invalidate_one <$> c).
  assert (forall k e a, c !! k = Some e -> ce_value e = Some a -> h' !! a = h !! a) as Hval.
  { intros k e a Hk Hv. apply Hkeep. intros k' e' Hk' Hr.
    assert (k = k') as <- by (eapply (co_owner c h Hok); eauto using owned_value, owned_retired).
    simplify_eq. by eapply owned_distinct. }
  pose proof Hok as [Hl Ho Hd Ht Hn H0]. split.
  - intros k e a. rewrite lookup_fmap, fmap_Some. intros (e0 & Hk & ->) Ha%owned_invalidate.
    rewrite (Hval k e0) by done. eapply Hl; [done|]. by apply owned_value.
  - intros k k' e e' a. rewrite !lookup_fmap, !fmap_Some.
    intros (e0 & Hk & ->) (e1 & Hk' & ->) Ha%owned_invalidate Ha'%owned_invalidate.
    eapply (Ho k k'); eauto using owned_value.
  - intros k e. rewrite lookup_fmap, fmap_Some. intros (e0 & Hk & ->).
    unfold owned. cbn. destruct (ce_value e0); [apply NoDup_singleton|constructor].
  - intros k e a. rewrite lookup_fmap, fmap_Some. by intros (e0 & Hk & ->).
  - intros a Hs.
    assert (forall k e, c !! k = Some e -> ce_retired e <> Some a) as Hnr.
    { intros k e Hk Hr. rewrite (Hfree k e a) in Hs by done. by destruct Hs. }
    rewrite Hkeep in Hs by done. destruct (Hn a Hs) as (k & e & Hk & Ha).
    exists k, (invalidate_one e). rewrite lookup_fmap, Hk. split; [done|].
    apply owned_invalidate. apply owned_inv in Ha as [|Hr]; [done|]. by destruct (Hnr k e Hk).
  - rewrite Hkeep; [done|]. intros k e Hk Hr. destruct (Hl k e 0 Hk) as [x Hx]; [|congruence].
    by apply owned_retired.
Qed.

(** * Sequences of cache operations *)

Inductive cop : Type :=
| CInstall (key : bytes) (fresh : option bytes) (seen : Z)
| CInvalidate.

Definition cstep (o : cop) (st : Cache * heap) : Cache * heap :=
  match o with
  | CInstall key fresh seen => install_at key fresh seen (fst st) (snd st)
  | CInvalidate => invalidate_all (fst st) (snd st)
  end.

Fixpoint cruns (os : list cop) (st : Cache * heap) : Cache * heap :=
  match os with
  | [] => st
  | o :: os' => cruns os' (cstep o st)
  end.

Lemma cstep_ok o c h : cache_ok c h -> cache_ok (fst (cstep o (c, h))) (snd (cstep o (c, h))).
Proof.
  intros Hok. destruct o; simpl; [|by apply invalidate_ok].
  pose proof (install_at_ok key fresh seen c h Hok) as H. by destruct (install_at _ _ _ _ _).
Qed.

Lemma cruns_ok os c h : cache_ok c h -> cache_ok (fst (cruns os (c, h))) (snd (cruns os (c, h))).
Proof.
  revert c h; induction os as [|o os IH]; intros c h Hok; [done|]. simpl.
  pose proof (cstep_ok o c h Hok). destruct (cstep o (c, h)). by apply IH.
Qed.

Lemma empty_ok : cache_ok ∅ ∅.
Proof.
  split; try (intros; by rewrite lookup_empty in *); intros a; rewrite lookup_empty; by intros [].
Qed.

(** ** Memory *)

Lemma size_bound c h : cache_ok c h -> (size h <= 2 * size c)%nat.
Proof.
  intros Hok. rewrite <- size_dom, <- (length_map_to_list c).
  set (l := map_to_list c).
  assert (dom h ⊆ list_to_set (C := gset Z) (l ≫= (fun ke => owned (snd ke)))) as Hsub.
  { intros a Ha%elem_of_dom. apply (co_noleak c h Hok) in Ha as (k & e & Hk & Ha).
    apply elem_of_list_to_set, list_elem_of_bind. exists (k, e). split; [done|].
    by apply elem_of_map_to_list. }
  apply subseteq_size in Hsub. etrans; [exact Hsub|].
  assert (forall (xs : list Z), (size (list_to_set (C := gset Z) xs) <= length xs)%nat) as Hsz.
  { induction xs as [|x xs IH]; [done|]. simpl. rewrite size_union_alt, size_singleton.
    set (Y := list_to_set (C := gset Z) xs) in *.
    assert (size (Y ∖ {[x]}) <= size Y)%nat by by apply subseteq_size, subseteq_difference_l. lia. }
  etrans; [apply Hsz|]. clear. induction l as [|[k e] l IH]; [done|].
  rewrite bind_cons, length_app. cbn [length snd]. assert (length (owned e) <= 2)%nat; [|lia].
  unfold owned. by destruct (ce_value e), (ce_retired e); simpl; lia.
Qed.

(** ** The life of a pointer *)

(** What an operation costs a holder of a pointer to [key]'s value: one for
    every time the cached value is replaced. *)
Definition cost (key : bytes) (o : cop) (st : Cache * heap) : nat :=
  match o with
  | CInstall k fresh _ =>
      if bool_decide (k = key) && changes (cached (fst st) (snd st) key) fresh then 1 else 0
  | CInvalidate => 1
  end.

Fixpoint total_cost (key : bytes) (os : list cop) (st : Cache * heap) : nat :=
  match os with
  | [] => 0
  | o :: os' => cost key o st + total_cost key os' (cstep o st)
  end.

(** [p] is live, and [n] more replacements away from being freed. *)
Definition held (key : bytes) (p : Z) (bs : bytes) (n : nat) (st : Cache * heap) : Prop :=
  snd st !! p = Some bs /\
  exists e, fst st !! key = Some e /\
    match n with O => ce_retired e = Some p | S _ => n = 1%nat /\ ce_value e = Some p end.

Lemma held_owned key p bs n st :
  held key p bs n st -> exists e, fst st !! key = Some e /\ p ∈ owned e.
Proof.
  intros (_ & e & Hk & Hn). exists e. split; [done|].
  destruct n; [by apply owned_retired|]. by apply owned_value, Hn.
Qed.

(** An installation frees at most the entry's retired buffer. *)
Lemma install_keeps c h k e fresh seen p bs :
  cache_ok c h -> c !! k = Some e -> h !! p = Some bs -> ce_retired e <> Some p ->
  snd (install e fresh seen h) !! p = Some bs.
Proof.
  intros Hok Hk Hp Hr. rewrite (install_cases c h k e) by done.
  destruct (changes _ _); [|done].
  assert (free (ce_retired e) h !! p = Some bs) as Hf.
  { by rewrite free_lookup, decide_False. }
  destruct fresh as [v|]; [|done]. cbn [snd]. rewrite lookup_insert_ne; [done|].
  intros E. by rewrite <- E, pick_free in Hf.
Qed.

Lemma held_install key p bs n k fresh seen c h m :
  cache_ok c h -> held key p bs (n + m) (c, h) -> cost key (CInstall k fresh seen) (c, h) = n ->
  held key p bs m (install_at k fresh seen c h).
Proof.
  intros Hok Hheld <-. pose proof (held_owned _ _ _ _ _ Hheld) as (e0 & Hk0 & Hown).
  destruct Hheld as (Hp & e1 & Hk1 & Hn). cbn [fst snd] in *.
  assert (e0 = e1) as -> by congruence. clear Hk1.
  pose proof (entry_spec k c h Hok) as He. pose proof (install_at_entry k fresh seen c h) as Hi.
  destruct (entry k c) as [e c1]. destruct He as (Hok1 & Hk & Hdef & Hoth). rewrite Hi. clear Hi.
  unfold cost in *. cbn [fst snd] in *. case_bool_decide as Hkk; cbn [andb] in *.
  - subst k. rewrite Hk0 in Hdef. simpl in Hdef. subst e1.
    unfold cached in Hn. rewrite Hk0 in Hn. fold (value_of e h) in Hn.
    rewrite (install_cases c1 h key e) by done.
    destruct (changes (value_of e h) fresh) eqn:Hch; cbn [plus] in Hn.
    + destruct Hn as [[= ->] Hv].
      assert (free (ce_retired e) h !! p = Some bs) as Hf.
      { rewrite free_lookup, decide_False; [done|]. by eapply owned_distinct. }
      split.
      * destruct fresh as [v|]; cbn [fst snd]; [|done].
        rewrite lookup_insert_ne; [done|]. intros E. by rewrite <- E, pick_free in Hf.
      * eexists. split; [apply lookup_insert_eq|]. by destruct fresh.
    + split; [done|]. eexists. split; [apply lookup_insert_eq|]. by destruct m.
  - cbn [plus] in Hn. split.
    + cbn [fst snd]. apply (install_keeps c1 h k e); try done. intros Hr.
      apply Hkk. eapply (co_owner c1 h Hok1); [done| | |done].
      * by rewrite Hoth.
      * by apply owned_retired.
    + exists e1. cbn [fst]. rewrite lookup_insert_ne by done. by rewrite Hoth.
Qed.

Lemma held_invalidate key p bs m c h :
  cache_ok c h -> held key p bs (1 + m) (c, h) -> held key p bs m (invalidate_all c h).
Proof.
  intros Hok (Hp & e & Hk & [= ->] & Hv). cbn [fst snd] in *.
  destruct (invalidate_heap c h) as [_ Hkeep]. split.
  - rewrite Hkeep; [done|]. intros k' e' Hk' Hr.
    assert (key = k') as <- by (eapply (co_owner c h Hok); eauto using owned_value, owned_retired).
    simplify_eq. by eapply owned_distinct.
  - exists (invalidate_one e). change (fst (invalidate_all c h)) with (invalidate_one <$> c).
    by rewrite lookup_fmap, Hk.
Qed.

Lemma held_cruns key p bs os n c h :
  cache_ok c h -> held key p bs n (c, h) -> (total_cost key os (c, h) <= n)%nat ->
  snd (cruns os (c, h)) !! p = Some bs.
Proof.
  revert n c h; induction os as [|o os IH]; intros n c h Hok Hheld Hc; cbn [total_cost cruns] in *.
  { apply Hheld. }
  pose proof (cstep_ok o c h Hok) as Hok'.
  assert (held key p bs (n - cost key o (c, h)) (cstep o (c, h))) as Hheld'.
  { destruct o as [k fresh seen|].
    - eapply (held_install key p bs (cost key (CInstall k fresh seen) (c, h))); [done| |done].
      by replace (_ + _)%nat with n by lia.
    - cbn [cost] in *. apply held_invalidate; [done|]. by replace (1 + _)%nat with n by lia. }
  destruct (cstep o (c, h)) as [c' h']. cbn [fst snd] in *.
  apply (IH (n - cost key o (c, h))%nat); [done..|lia].
Qed.

(** What one installation gives the caller. *)
Lemma install_result c h k e fresh seen :
  cache_ok c h -> c !! k = Some e ->
  let (e', h') := install e fresh seen h in
  value_of e' h' = fresh /\ ce_valid e' = true /\ ce_slot_seen e' = seen /\
  (as_ptr e' = 0 <-> fresh = None) /\
  (forall v, fresh = Some v -> h' !! as_ptr e' = Some (v ++ [0])) /\
  (changes (value_of e h) fresh = false -> as_ptr e' = as_ptr e /\ h' = h).
Proof.
  intros Hok Hk. rewrite (install_cases c h k e) by done.
  destruct (changes (value_of e h) fresh) eqn:Hch.
  - destruct fresh as [v|]; unfold value_of, as_ptr, deref; cbn; [|done].
    rewrite lookup_insert_eq. cbn. rewrite removelast_last. split_and!; try done.
    + split; [|done]. intros E. by apply pick_nonnull in E.
    + by intros ? [= ->].
  - unfold changes in Hch. apply negb_false_iff, bool_decide_eq_true in Hch. subst fresh.
    split_and!; try done; unfold value_of, as_ptr; cbn;
      destruct (ce_value e) as [a|] eqn:Hv; try done;
      destruct (co_term c h Hok k e a Hk Hv) as [v Ha].
    + split; [|done]. cbn. intros ->. by rewrite (co_nonnull c h Hok) in Ha.
    + cbn. intros w [= <-]. unfold deref. rewrite Ha. cbn. by rewrite removelast_last.
Qed.
End ops.
