(* ===== verification/CacheThms.v ===== *)
(** What the cache promises the callers of [nvram_get]. *)

From S2P Require Import Prelude Cache.

(** A cache with one cached value, ["a" = "x"], as the witnesses use it. *)
Definition one : Cache * heap := install_at [97] (Some [120]) 0 ∅ ∅.

Lemma one_ok : cache_ok (fst one) (snd one).
Proof. apply (cstep_ok (CInstall [97] (Some [120]) 0)), empty_ok. Qed.

Definition one_entry : Entry := mkCacheEntry (Some 1) None 0 true.

Lemma one_lookup : fst one !! [97] = Some one_entry.
Proof. reflexivity. Qed.

(** A fresh installation gives the caller what the key holds: the null
    pointer exactly when the key is absent - so never for an empty value -
    and otherwise a live, NUL-terminated copy of the value; and when the
    value is the one already cached, the very same pointer, the heap
    untouched. *)
Theorem install_hands_out `{Allocator} c h k e fresh seen :
  cache_ok c h -> c !! k = Some e ->
  let (e', h') := install e fresh seen h in
  value_of e' h' = fresh /\ ce_valid e' = true /\ ce_slot_seen e' = seen /\
  (as_ptr e' = 0 <-> fresh = None) /\
  (forall v, fresh = Some v -> h' !! as_ptr e' = Some (v ++ [0])) /\
  (changes (value_of e h) fresh = false -> as_ptr e' = as_ptr e /\ h' = h).
Proof. apply install_result. Qed.

Lemma install_hands_out_witness :
  let (e', h') := install one_entry (Some []) 2 (snd one) in
  value_of e' h' = Some [] /\ ce_valid e' = true /\ ce_slot_seen e' = 2 /\
  (as_ptr e' = 0 <-> Some ([] : bytes) = None) /\
  (forall v, Some [] = Some v -> h' !! as_ptr e' = Some (v ++ [0])) /\
  (changes (value_of one_entry (snd one)) (Some []) = false ->
   as_ptr e' = as_ptr one_entry /\ h' = snd one).
Proof. apply (install_hands_out (fst one) _ [97]); [apply one_ok|apply one_lookup]. Defined.

(** C26: a pointer survives one change of its key.  Whatever is installed for
    any keys, in any order, as long as the cached value of the pointer's own
    key is replaced at most once (an [invalidate_all] replaces it too), the
    buffer behind the pointer is still live and still holds the same bytes. *)
Theorem pointer_survives_one_change `{Allocator} c h key e p bs os :
  cache_ok c h -> c !! key = Some e -> ce_value e = Some p -> h !! p = Some bs ->
  (total_cost key os (c, h) <= 1)%nat ->
  snd (cruns os (c, h)) !! p = Some bs.
Proof.
  intros Hok Hk Hv Hp Hc. apply (held_cruns key p bs os 1); [done| |done].
  split; [done|]. by exists e.
Qed.

Lemma pointer_survives_one_change_witness :
  snd (cruns [CInstall [97] (Some [121]) 2; CInstall [98] None 0; CInstall [97] (Some [121]) 4]
    (fst one, snd one)) !! 1 = Some [120; 0].
Proof.
  apply (pointer_survives_one_change _ _ [97] one_entry 1);
    [apply one_ok|reflexivity..|vm_compute; by repeat constructor].
Defined.

(** The cache does not leak.  Whatever sequence of operations a process
    runs, every live buffer belongs to an entry, and there are never more
    than two per key ever looked up - the value and its predecessor. *)
Theorem cache_never_leaks `{Allocator} os :
  let (c, h) := cruns os (∅, ∅) in
  cache_ok c h /\ (size h <= 2 * size c)%nat.
Proof.
  pose proof (cruns_ok os ∅ ∅ empty_ok) as Hok. destruct (cruns os (∅, ∅)) as [c h].
  split; [done|]. by apply size_bound.
Qed.

(** What becoming attached does to the pointers of a detached process.
    Two keys are read, the whole cache is invalidated - as [Store::adopt]
    does - and the first key is read again.  Its value is "x" throughout, yet
    the pointer handed out first is then freed memory: the re-read finds no
    cached value to compare with, takes the value as changed, and drops the
    retired buffer. *)
Theorem pointer_dies_unchanged :
  let st0 := cruns [CInstall [97] (Some [120]) 0; CInstall [98] (Some [121]) 0] (∅, ∅) in
  let st1 := cruns [CInvalidate; CInstall [97] (Some [120]) 0] st0 in
  as_ptr <$> fst st0 !! [97] = Some 1 /\
  cached (fst st0) (snd st0) [97] = Some [120] /\ snd st0 !! 1 = Some [120; 0] /\
  cached (fst st1) (snd st1) [97] = Some [120] /\ snd st1 !! 1 = None.
Proof. vm_compute. split_and!; reflexivity. Qed.
