(* ===== verification/Preload.v ===== *)
(** Populating a segment from the store directory.

    A freshly created segment only ever receives keys it does not have, so
    nothing is overwritten, no garbage builds up, and as long as everything
    fits the arena no compaction happens. *)

From S2P Require Import Prelude Consts Hash Spec Segment Shm ShmInv ShmProbe ShmOps SeqCount ShmWrite ShmCompact ShmRefine.

(** A segment that has only been filled. *)
Record filled (s : Segment) (m : gmap bytes item) : Prop := mk_filled {
  fi_wf : wf s;
  fi_view : view s = m;
  fi_garbage : garbage s = 0;
  fi_live : forall i, in_index i -> state_of s i <> ST_EMPTY -> state_of s i = ST_LIVE;
  fi_clean : forall k it, m !! k = Some it -> exists v, it = (Some v, false)
}.

Lemma fresh_filled s : fresh s -> filled s ∅.
Proof.
  intros Hf. split.
  - by apply fresh_wf.
  - by apply fresh_view.
  - apply Hf.
  - intros i Hi Hne. by rewrite fresh_state in Hne.
  - intros k it H. by rewrite lookup_empty in H.
Qed.

Lemma filled_no_key s m key : filled s m -> m !! key = None -> no_key s key.
Proof.
  intros [Hwf Hv _ Hl _] Hk i Hi Hne E. specialize (Hl i Hi Hne).
  assert (record s i = Some (key, (Some (val_of s i), has_dirty (e_flags (entry s i))))) as Hr.
  { unfold record, state_of in *. rewrite Hl. cbn. by rewrite E. }
  assert (view s !! key <> None); [|congruence].
  rewrite (proj2 (view_lookup s key _ Hwf) (ex_intro _ i (conj Hi Hr))). done.
Qed.

(** [put] of a key that is not there, with room for it: stored, or refused
    with nothing changed when its whole probe window is taken. *)
Lemma run_put_fresh s m key val :
  filled s m -> m !! key = None -> used s + (len key + len val) <= ARENA_SIZE ->
  let (r, s') := run (put key val false) s in
  match r with
  | Ok _ => filled s' (<[key := (Some val, false)]> m) /\
      used s' = used s + (len key + len val)
  | Err => s' = s
  end.
Proof.
  intros Hfl Hk Hu. pose proof (filled_no_key s m key Hfl Hk) as Hno.
  pose proof Hfl as [Hwf Hv Hg Hlive Hclean]. pose proof (wf_used s Hwf).
  pose proof (len_nonneg key). pose proof (len_nonneg val). assert (ARENA_SIZE < 2 ^ 32) by done.
  unfold put. fold (key_slot key). rewrite run_bind, run_holds_value by done. cbn [fst snd].
  assert (Spec.get (view s) key = None) as Hget by (by apply get_no_key).
  rewrite Hget, bool_decide_eq_false_2 by done. rewrite wadd_small by lia.
  assert (run (ensure_space (len key + len val)) s = (Ok tt, s)) as Hes.
  { unfold ensure_space. generalize compact as c. intros c. run_simpl. cbn [load]. fold (used s).
    rewrite wadd_small by lia. destruct (Z.leb_spec (used s + (len key + len val)) ARENA_SIZE); [|lia].
    run_simpl. cbn [load]. fold (garbage s). rewrite Hg.
    change (ARENA_SIZE / COMPACT_GARBAGE_DIVISOR <? 0) with false. by run_simpl. }
  rewrite run_bind, Hes. cbn [fst snd]. rewrite run_bind.
  destruct (run_probe_missing s key Hwf Hno) as (pr & -> & Hpr). cbn [fst snd].
  destruct pr as [[i found]|]; [|by rewrite run_ret]. destruct Hpr as (-> & Hi & Hcl & Hre).
  set (body := put_locked i false key val (fnv1a key) false).
  pose proof (run_bracket body key s) as Hb. cbv zeta in Hb.
  set (s2 := store (CSlot (key_slot key)) _ s) in *.
  assert (same_data s s2) as Hs by (by apply same_data_store).
  assert (wf s2) as Hw2 by (by eapply same_data_wf).
  assert (used s2 = used s) as Hu2 by apply (same_used _ _ Hs).
  destruct (run_put_locked_new s2 i key val false Hw2 ltac:(lia)) as (s3 & Hrun & Hc).
  fold body in Hrun. rewrite Hrun in Hb. cbn [fst snd] in Hb.
  pose proof (probe_post_proper s s2 key (Some (i, false)) Hs) as Hpp.
  unfold probe_post in Hpp. destruct Hpp as (_ & Hcl2 & Hno2 & Hre2); [done|].
  destruct (put_new_effect s2 s3 i key val false Hw2 Hi Hcl2 Hno2 Hre2 ltac:(lia) Hc) as [Hw3 Hv3].
  destruct (Hb (ch_slot _ _ _ _ _ _ _ Hc)) as (Hr & Hd & _).
  set (res := run (seq_begin (key_slot key) ;! _) s) in *. destruct res as [r s4]. cbn [fst snd] in *.
  subst r. split.
  - split.
    + by eapply same_data_wf.
    + rewrite <- (view_proper _ _ Hd), Hv3, <- (view_proper _ _ Hs), Hv. done.
    + rewrite (same_garbage _ _ Hd), (ch_garbage _ _ _ _ _ _ _ Hc), (same_garbage _ _ Hs). done.
    + intros j Hj. rewrite <- (state_of_proper _ _ Hd j j eq_refl). unfold state_of.
      destruct (decide (j = i)) as [->|Hne]; [by rewrite (ch_entry _ _ _ _ _ _ _ Hc)|].
      rewrite (ch_other _ _ _ _ _ _ _ Hc j Hne), (same_index _ _ Hs). by apply Hlive.
    + intros k it [[_ <-]|[_ Hkk]]%lookup_insert_Some; [by eexists|by eapply Hclean].
  - rewrite (same_used _ _ Hd), (ch_used _ _ _ _ _ _ _ Hc). lia.
Qed.
