(* ===== verification/Identity.v ===== *)
(** No operation on a segment touches what identifies it: the magic, the
    version, the ready flag and the device it was built from are written by
    [create] alone. *)

From S2P Require Import Prelude Consts Hash Segment Shm ShmInv ShmTrace.

Definition identity (s : Segment) : Z * Z * Z * Z :=
  (h_magic (header s), h_version (header s), h_ready (header s), h_store_dev (header s)).

Definition is_data (c : cell) : bool :=
  match c with CMagic | CVersion | CReady | CStoreDev => false | _ => true end.

(** Whatever it reads, the program stores to data cells only. *)
Fixpoint data_only {A} (p : prog A) : Prop :=
  match p with
  | PRet _ => True
  | PLoad _ k => forall v, data_only (k v)
  | PStore c _ k => is_data c = true /\ data_only k
  | PRmw c _ k => is_data c = true /\ forall v, data_only (k v)
  | PRead _ _ k => forall bs, data_only (k bs)
  | PWrite _ _ k => data_only k
  end.

Lemma data_only_bind {A B} (m : prog A) (f : A -> prog B) :
  data_only m -> (forall a, data_only (f a)) -> data_only (bind m f).
Proof.
  intros Hm Hf. induction m; unfold bind; simpl in *; fold (@bind A B).
  - apply Hf.
  - intros v. by apply H.
  - destruct Hm as [Hc Hm]. split; [done|]. by apply IHm.
  - destruct Hm as [Hc Hm]. split; [done|]. intros v. by apply H.
  - intros bs. by apply H.
  - by apply IHm.
Qed.

Lemma data_only_ret {A} (a : A) : data_only (ret a).
Proof. done. Qed.
Lemma data_only_load c : data_only (loadc c).
Proof. done. Qed.
Lemma data_only_store c v : is_data c = true -> data_only (storec c v).
Proof. done. Qed.
Lemma data_only_rmw c f : is_data c = true -> data_only (rmwc c f).
Proof. done. Qed.
Lemma data_only_read off n : data_only (read_bytes off n).
Proof. done. Qed.
Lemma data_only_write off bs : data_only (write_bytes off bs).
Proof. done. Qed.

Lemma data_only_forM {X} (l : list X) body :
  (forall x, data_only (body x)) -> data_only (forM l body).
Proof.
  intros H. induction l as [|x l IH]; [done|]. simpl. by apply data_only_bind.
Qed.

Lemma data_only_foldM {X St} (l : list X) (st : St) body :
  (forall x st, data_only (body x st)) -> data_only (foldM l st body).
Proof.
  intros H. revert st; induction l as [|x l IH]; intros st; [done|]. simpl.
  apply data_only_bind; [done|]. apply IH.
Qed.

#[export] Hint Resolve data_only_ret data_only_load data_only_store data_only_rmw
  data_only_read data_only_write : nvram.

Lemma store_identity c v s : is_data c = true -> identity (store c v s) = identity s.
Proof.
  intros H. unfold identity, store. destruct (header s) eqn:E.
  destruct c; try done; simpl; by rewrite ?E.
Qed.

Lemma run_identity {A} (p : prog A) s :
  data_only p -> identity (snd (run p s)) = identity s.
Proof.
  revert s; induction p; intros s Hp; unfold run; fold (@run A); simpl in *.
  - done.
  - by apply H.
  - destruct Hp as [Hc Hp]. by rewrite IHp, store_identity.
  - destruct Hp as [Hc Hp]. rewrite H by done. by apply store_identity.
  - by apply H.
  - by rewrite IHp.
Qed.

(** Walk through a program, one construct at a time. *)
Ltac data_step :=
  match goal with
  | |- forall _, _ => intro
  | |- data_only (bind _ _) => apply data_only_bind
  | |- data_only (forM _ _) => apply data_only_forM
  | |- data_only (foldM _ _ _) => apply data_only_foldM
  | |- data_only (match ?x with _ => _ end) => destruct x
  | |- data_only _ => solve [auto with nvram]
  end.

Lemma data_only_arena_alloc bs : data_only (arena_alloc bs).
Proof. unfold arena_alloc. repeat data_step. Qed.
Lemma data_only_arena_slice off ln : data_only (arena_slice off ln).
Proof. unfold arena_slice. repeat data_step. Qed.
Lemma data_only_arena_eq off ln w : data_only (arena_eq off ln w).
Proof. unfold arena_eq. repeat data_step. Qed.
#[export] Hint Resolve data_only_arena_alloc data_only_arena_slice data_only_arena_eq : nvram.

Lemma data_only_probe key hash : data_only (probe key hash).
Proof.
  unfold probe. generalize (Z.to_nat MAX_PROBES) (hash mod INDEX_SLOTS) (@None Z) 0.
  induction n as [|n IH]; intros start free j; cbn [probe_loop]; [apply data_only_ret|].
  repeat data_step; apply IH.
Qed.
#[export] Hint Resolve data_only_probe : nvram.

Lemma data_only_compact : data_only compact.
Proof.
  unfold compact, keep_entry, arena_begin, wipe, wipe_entry, reinsert, arena_end.
  repeat data_step.
Qed.
#[export] Hint Resolve data_only_compact : nvram.

Lemma data_only_put key val dirty : data_only (put key val dirty).
Proof.
  unfold put, holds_value, ensure_space, seq_begin, put_locked, seq_end. repeat data_step.
Qed.

Lemma data_only_remove key dirty : data_only (remove key dirty).
Proof. unfold remove, seq_begin, seq_end. repeat data_step. Qed.

Lemma data_only_clear : data_only clear.
Proof. unfold clear, arena_begin, wipe, wipe_entry, arena_end. repeat data_step. Qed.

Lemma data_only_repair k : data_only (repair_seq k).
Proof.
  unfold repair_seq. cbn [foldM]. unfold repair_cell. repeat data_step.
Qed.

Lemma data_only_writeback ps : data_only (commit_writeback ps).
Proof. unfold commit_writeback, writeback_one, slot_value. repeat data_step. Qed.

Lemma apply_identity o s : identity (apply o s) = identity s.
Proof.
  destruct o; apply run_identity.
  - apply data_only_put.
  - apply data_only_remove.
  - apply data_only_clear.
  - apply data_only_repair.
  - apply data_only_writeback.
Qed.

Lemma apply_all_identity os s : identity (apply_all os s) = identity s.
Proof.
  revert s; induction os as [|o os IH]; intros s; [done|]. simpl.
  by rewrite IH, apply_identity.
Qed.
