(* ===== verification/Names.v ===== *)
(** Keys as file names: the pure part of src/src/disk.rs.

    [utf8] is [std::str::from_utf8]'s acceptance test, byte by byte; a path
    below the store root is the file name alone. *)

From S2P Require Import Prelude Consts.

(** * UTF-8 *)

Definition between (lo hi b : Z) : bool := (lo <=? b) && (b <=? hi).
Definition cont (b : Z) : bool := between 0x80 0xBF b.

(** Well-formed UTF-8 (the Unicode standard's table 3-7). *)
Fixpoint utf8 (bs : bytes) : bool :=
  match bs with
  | [] => true
  | b0 :: r0 =>
    if between 0 0x7F b0 then utf8 r0
    else
      match r0 with
      | [] => false
      | b1 :: r1 =>
        if between 0xC2 0xDF b0 then cont b1 && utf8 r1
        else
          match r1 with
          | [] => false
          | b2 :: r2 =>
            if b0 =? 0xE0 then between 0xA0 0xBF b1 && cont b2 && utf8 r2
            else if b0 =? 0xED then between 0x80 0x9F b1 && cont b2 && utf8 r2
            else if between 0xE1 0xEF b0 then cont b1 && cont b2 && utf8 r2
            else
              match r2 with
              | [] => false
              | b3 :: r3 =>
                if b0 =? 0xF0 then between 0x90 0xBF b1 && cont b2 && cont b3 && utf8 r3
                else if b0 =? 0xF4 then between 0x80 0x8F b1 && cont b2 && cont b3 && utf8 r3
                else if between 0xF1 0xF3 b0 then cont b1 && cont b2 && cont b3 && utf8 r3
                else false
              end
          end
      end
  end.

(** * Names *)

(** [TMP_PREFIX = ".tmp."] *)
Definition TMP_PREFIX : bytes := [46; 116; 109; 112; 46].

Definition MAX_KEY_LEN : Z := 255 - len TMP_PREFIX - 10 - 1.

Fixpoint starts_with (p bs : bytes) : bool :=
  match p, bs with
  | [], _ => true
  | x :: p', y :: bs' => (x =? y) && starts_with p' bs'
  | _ :: _, [] => false
  end.

Definition valid_key (key : bytes) : bool :=
  utf8 key && negb (bool_decide (key = [])) && (len key <=? MAX_KEY_LEN) &&
  negb (starts_with [46] key) && negb (bool_decide (47 ∈ key)).

Definition key_path (key : bytes) : option bytes :=
  if negb (valid_key key) then None else Some key.

(** Decimal digits, as [format!("{}")] prints a [u32]. *)
Fixpoint digits (fuel : nat) (z : Z) (acc : bytes) : bytes :=
  match fuel with
  | O => acc
  | S fuel' =>
    let acc := (48 + z mod 10) :: acc in
    if z <? 10 then acc else digits fuel' (z / 10) acc
  end.

(** [".tmp.<pid>.<key>"] *)
Definition tmp_name (pid : Z) (key : bytes) : bytes :=
  TMP_PREFIX ++ digits 10 pid [] ++ [46] ++ key.

(** * Facts *)

Lemma starts_with_app p bs : starts_with p (p ++ bs) = true.
Proof. induction p as [|x p IH]; [done|]. simpl. by rewrite Z.eqb_refl. Qed.

Lemma starts_with_dot p bs : starts_with (46 :: p) bs = true -> starts_with [46] bs = true.
Proof. destruct bs as [|b bs]; [done|]. cbn [starts_with].
  intros [H _]%andb_true_iff. by rewrite H. Qed.

Lemma tmp_name_prefix pid key : starts_with TMP_PREFIX (tmp_name pid key) = true.
Proof. apply starts_with_app. Qed.

(** What a valid key is. *)
Lemma valid_key_spec key :
  valid_key key = true ->
  utf8 key = true /\ key <> [] /\ len key <= MAX_KEY_LEN /\
  starts_with [46] key = false /\ 47 ∉ key.
Proof.
  unfold valid_key. intros [[[[H1 H2]%andb_true_iff H3]%andb_true_iff H4]%andb_true_iff
    H5]%andb_true_iff.
  apply negb_true_iff in H2, H4, H5. apply bool_decide_eq_false in H2, H5.
  by apply Z.leb_le in H3.
Qed.

Lemma valid_not_tmp key : valid_key key = true -> starts_with TMP_PREFIX key = false.
Proof.
  intros (_ & _ & _ & Hd & _)%valid_key_spec. destruct (starts_with TMP_PREFIX key) eqn:E; [|done].
  apply starts_with_dot in E. congruence.
Qed.

Lemma valid_ne_tmp key pid k : valid_key key = true -> key <> tmp_name pid k.
Proof.
  intros H%valid_not_tmp E. subst. by rewrite tmp_name_prefix in H.
Qed.

Lemma digits_len fuel z acc : len (digits fuel z acc) <= Z.of_nat fuel + len acc.
Proof.
  revert z acc; induction fuel as [|n IH]; intros z acc; cbn [digits]; [lia|].
  case_if; rewrite ?len_cons; [lia|]. etrans; [apply IH|]. rewrite len_cons. lia.
Qed.

(** The bound on keys is the bound on the names they are written through. *)
Lemma tmp_name_fits pid key : valid_key key = true -> len (tmp_name pid key) <= 255.
Proof.
  intros (_ & _ & Hl & _)%valid_key_spec. unfold tmp_name. rewrite !len_app.
  pose proof (digits_len 10 pid []). rewrite len_nil in *.
  change (len TMP_PREFIX) with 5. change (len [46]) with 1.
  change MAX_KEY_LEN with 239 in Hl. lia.
Qed.

Lemma tmp_name_inj pid k1 k2 : tmp_name pid k1 = tmp_name pid k2 -> k1 = k2.
Proof. unfold tmp_name. intros H. by simplify_list_eq. Qed.
