(* ===== verification/World.v ===== *)
(** What the program asks of the operating system, and a system to ask.

    The functions of disk.rs, sem.rs, store.rs and of the segment's life
    cycle are trees of [call]s ([io]); [handle] answers a call from a world
    holding the store directory, the SysV semaphores and the shared-memory
    objects.  Any call can fail: each consumes one element of the world's
    fault script, so a theorem about every world is about every pattern of
    failures.

    The directory keeps what a power loss can leave of it: [f_dirs] lists the
    directory contents since the last flush, [f_synced] the files whose data
    is on the device. *)

From S2P Require Import Prelude Consts Layout Names Segment Shm ShmTrace.

(** * The store directory *)

Inductive node : Type :=
| File (data : bytes)
| Other.

Record FS := mkFS {
  f_avail : bool;
  f_dev : Z;
  f_dir : gmap bytes Z;
  f_nodes : gmap Z node;
  f_next : Z;
  f_dirs : list (gmap bytes Z);
  f_synced : gset Z
}.

Definition NAME_MAX : Z := 255.

(** The file or other object behind a name. *)
Definition f_lookup (f : FS) (n : bytes) : option node := f_dir f !! n ≫= fun i => f_nodes f !! i.

Definition set_dir (d : gmap bytes Z) (f : FS) : FS :=
  mkFS (f_avail f) (f_dev f) d (f_nodes f) (f_next f) (f_dirs f ++ [d]) (f_synced f).

(** Writing to a file puts its data back into the page cache only. *)
Definition set_node (i : Z) (x : node) (f : FS) : FS :=
  mkFS (f_avail f) (f_dev f) (f_dir f) (<[i := x]> (f_nodes f)) (f_next f) (f_dirs f)
    (f_synced f ∖ {[i]}).

Definition new_file (n : bytes) (f : FS) : Z * FS :=
  let i := f_next f in
  let f := mkFS (f_avail f) (f_dev f) (f_dir f) (f_nodes f) (i + 1) (f_dirs f) (f_synced f) in
  (i, set_dir (<[n := i]> (f_dir f)) (set_node i (File []) f)).

Definition flush_file (i : Z) (f : FS) : FS :=
  mkFS (f_avail f) (f_dev f) (f_dir f) (f_nodes f) (f_next f) (f_dirs f) (f_synced f ∪ {[i]}).

Definition flush_all (f : FS) : FS :=
  mkFS (f_avail f) (f_dev f) (f_dir f) (f_nodes f) (f_next f) [f_dir f] (dom (f_nodes f)).

(** What may be found under [n] after a power loss: any of the entries the
    name has had since the last flush, with the file's data if it reached
    the device and anything at all if it did not. *)
Definition survives (f : FS) (n : bytes) (o : option node) : Prop :=
  exists d, d ∈ f_dirs f /\
    match d !! n with
    | None => o = None
    | Some i => if decide (i ∈ f_synced f) then o = f_nodes f !! i else True
    end.

(** * Semaphores and shared objects *)

Record shmobj := mkObj { so_size : Z; so_seg : Segment }.

(** A call goes well, fails, does part of its work, or is interrupted; of the
    many [stat]s of one snapshot, [Lost] makes those of [ns] fail. *)
Inductive fault : Type := Good | Bad | Short (n : nat) | Intr | Lost (ns : list bytes).

(** What another process does in its turn: operations on a segment, or the
    last steps of a [create], which leave a half-built object sized, filled
    and ready. *)
Inductive turn : Type := Ops (os : list op) | Open (s : Segment).

Record World := mkWorld {
  w_fs : FS;
  w_pid : Z;
  (* ftok key -> semaphore value *)
  w_sems : gmap Z Z;
  (* the object behind the segment's name, and all objects still mapped *)
  w_name : option Z;
  w_objs : gmap Z shmobj;
  w_nextobj : Z;
  (* what other processes do to an object before our next acquisition *)
  w_others : list (Z * turn);
  w_faults : list fault
}.

(** * Calls *)

Inductive removed : Type := Removed | NotFound | RemoveFailed.
Inductive semgot : Type := SemOk (id : Z) | SemExists | SemFailed.
Inductive semopd : Type := OpOk | OpIntr | OpFailed.

Inductive call : Type -> Type :=
(* std::fs on the store directory *)
| ReadDir : call (option (list bytes))
| FileType (n : bytes) : call (option bool)
| FsRead (n : bytes) : call (option bytes)
| FsCreate (n : bytes) : call (option Z)
| FsWrite (i : Z) (bs : bytes) : call bool
| FsSync (i : Z) : call bool
| FsRemove (n : bytes) : call removed
| FsRename (a b : bytes) : call bool
| FsMeta (n : bytes) : call (option (bool * Z))
| SyncFs : call bool
| IsDir : call bool
| StatDev : call (option Z)
| GetPid : call Z
(* SysV semaphores *)
| Ftok (proj : Z) : call (option Z)
| SemgetExcl (key : Z) : call semgot
| Semget (key : Z) : call (option Z)
| SemSetval (id : Z) : call bool
| SemRmid (id : Z) : call unit
| SemDown (id : Z) : call semopd
| SemUp (id : Z) : call semopd
(* POSIX shared memory *)
| ShmOpen : call (option Z)
| ShmCreateExcl : call (option Z)
| Ftruncate (o size : Z) : call bool
| Fstat (o : Z) : call (option Z)
| Mmap (o : Z) : call bool
| ShmUnlink : call unit
(* a segment operation on a mapped object *)
| Seg {A} (o : Z) (p : prog A) : call A
(* the same, with a callback that asks whether a key's file differs *)
| SegAsk {A} (o : Z) (p : (bytes -> Z -> bool) -> prog A) : call A.

Inductive io (A : Type) : Type :=
| IRet (a : A)
| ICall {R : Type} (c : call R) (k : R -> io A).
Arguments IRet {A} a.
Arguments ICall {A R} c k.

Fixpoint ibind {A B} (m : io A) (f : A -> io B) : io B :=
  match m with
  | IRet a => f a
  | ICall c k => ICall c (fun r => ibind (k r) f)
  end.

Definition iret {A} (a : A) : io A := IRet a.
Definition sys {R} (c : call R) : io R := ICall c IRet.

Declare Scope io_scope.
Delimit Scope io_scope with io.
Notation "'do' x '<-' m ; k" := (ibind m (fun x => k))
  (at level 20, x binder, m at level 100, k at level 200) : io_scope.
Notation "m ;; k" := (ibind m (fun _ => k))
  (at level 100, k at level 200, right associativity) : io_scope.
Open Scope io_scope.

(** [for x in l] with early state. *)
Fixpoint ifoldM {X St} (l : list X) (st : St) (body : X -> St -> io St) : io St :=
  match l with
  | [] => iret st
  | x :: l' => do st' <- body x st; ifoldM l' st' body
  end.

(** * Answers *)

Definition upd_fs (f : FS -> FS) (w : World) : World :=
  mkWorld (f (w_fs w)) (w_pid w) (w_sems w) (w_name w) (w_objs w) (w_nextobj w)
    (w_others w) (w_faults w).
Definition upd_sems (f : gmap Z Z -> gmap Z Z) (w : World) : World :=
  mkWorld (w_fs w) (w_pid w) (f (w_sems w)) (w_name w) (w_objs w) (w_nextobj w)
    (w_others w) (w_faults w).
Definition upd_name (n : option Z) (w : World) : World :=
  mkWorld (w_fs w) (w_pid w) (w_sems w) n (w_objs w) (w_nextobj w) (w_others w) (w_faults w).
Definition upd_objs (f : gmap Z shmobj -> gmap Z shmobj) (w : World) : World :=
  mkWorld (w_fs w) (w_pid w) (w_sems w) (w_name w) (f (w_objs w)) (w_nextobj w)
    (w_others w) (w_faults w).

Definition pop_fault (w : World) : fault * World :=
  (hd Good (w_faults w),
   mkWorld (w_fs w) (w_pid w) (w_sems w) (w_name w) (w_objs w) (w_nextobj w)
     (w_others w) (tl (w_faults w))).

Definition seg_apply (f : Segment -> Segment) (ob : shmobj) : shmobj :=
  mkObj (so_size ob) (f (so_seg ob)).

(** An object that is ready is not being built by anyone. *)
Definition take_turn (t : turn) (ob : shmobj) : shmobj :=
  match t with
  | Ops os => seg_apply (apply_all os) ob
  | Open s => if h_ready (header (so_seg ob)) =? 0 then mkObj SEGMENT_SIZE s else ob
  end.

(** The other processes take their turn: their critical sections run before
    we get the lock. *)
Definition run_others (w : World) : World :=
  let objs := match w_others w with
              | [] => w_objs w
              | (o, t) :: _ => alter (take_turn t) o (w_objs w)
              end in
  mkWorld (w_fs w) (w_pid w) (w_sems w) (w_name w) objs (w_nextobj w)
    (tl (w_others w)) (w_faults w).

Definition ftok_key (dev proj : Z) : Z := dev * 256 + proj.

Definition is_bad (x : fault) : bool :=
  match x with Good => false | _ => true end.

(** [std::fs] *)
Definition fs_read_dir (x : fault) (f : FS) : option (list bytes) :=
  let names := (map_to_list (f_dir f)).*1 in
  if negb (f_avail f) then None
  else match x with
       | Good => Some names
       (* [dir.flatten()] drops the entries whose reading failed *)
       | Short n => Some (take n names)
       | _ => None
       end.

Definition fs_file_type (x : fault) (n : bytes) (f : FS) : option bool :=
  if is_bad x then None
  else match f_lookup f n with
       | Some (File _) => Some true
       | Some Other => Some false
       | None => None
       end.

Definition fs_read (x : fault) (n : bytes) (f : FS) : option bytes :=
  if is_bad x then None
  else match f_lookup f n with Some (File bs) => Some bs | _ => None end.

Definition fs_meta (x : fault) (n : bytes) (f : FS) : option (bool * Z) :=
  if is_bad x then None
  else match f_lookup f n with
       | Some (File bs) => Some (true, len bs)
       | Some Other => Some (false, 0)
       | None => None
       end.

(** [differs_on_disk], given what [stat] says. *)
Definition meta_differs (ln : Z) (m : option (bool * Z)) : bool :=
  match m with
  | Some (is_file, size) => negb is_file || negb (size =? ln)
  | None => true
  end.

Definition fs_differs (x : fault) (f : FS) (key : bytes) (ln : Z) : bool :=
  match key_path key with
  | None => false
  | Some n =>
    let x := match x with
             | Lost ns => if bool_decide (key ∈ ns) then Bad else Good
             | _ => x
             end in
    meta_differs ln (fs_meta x n f)
  end.

Definition fs_create (x : fault) (n : bytes) (f : FS) : option Z * FS :=
  if is_bad x || negb (f_avail f) || (NAME_MAX <? len n) then (None, f)
  else match f_dir f !! n with
       | Some i =>
         match f_nodes f !! i with
         | Some (File _) => (Some i, set_node i (File []) f)
         | _ => (None, f)
         end
       | None => let (i, f) := new_file n f in (Some i, f)
       end.

Definition fs_write (x : fault) (i : Z) (bs : bytes) (f : FS) : bool * FS :=
  match f_nodes f !! i with
  | Some (File old) =>
    match x with
    | Good => (true, set_node i (File (old ++ bs)) f)
    | Short n => (false, set_node i (File (old ++ take n bs)) f)
    | _ => (false, f)
    end
  | _ => (false, f)
  end.

Definition fs_remove (x : fault) (n : bytes) (f : FS) : removed * FS :=
  if is_bad x || negb (f_avail f) then (RemoveFailed, f)
  else match f_lookup f n with
       | Some (File _) => (Removed, set_dir (delete n (f_dir f)) f)
       | Some Other => (RemoveFailed, f)
       | None => (NotFound, f)
       end.

Definition fs_rename (x : fault) (a b : bytes) (f : FS) : bool * FS :=
  if is_bad x || negb (f_avail f) then (false, f)
  else match f_dir f !! a, f_lookup f b with
       | None, _ | _, Some Other => (false, f)
       | Some i, _ => (true, set_dir (<[b := i]> (delete a (f_dir f))) f)
       end.

Definition fs_syncfs (x : fault) (f : FS) : bool * FS :=
  if is_bad x || negb (f_avail f) then (false, f) else (true, flush_all f).

Definition on_fs {R} (r : R * FS) (w : World) : R * World :=
  (fst r, upd_fs (fun _ => snd r) w).

(** A [semop] of -1.  On a zero it waits: it returns once another process has
    released the semaphore, or given it its initial value. *)
Definition sem_down (x : fault) (id : Z) (w : World) : semopd * World :=
  match x with
  | Intr => (OpIntr, w)
  | Bad => (OpFailed, w)
  | _ =>
    match w_sems w !! id with
    | None => (OpFailed, w)
    | Some v => (OpOk, upd_sems <[id := Z.max (v - 1) 0]> (run_others w))
    end
  end.

(** Releasing never waits. *)
Definition sem_up (x : fault) (id : Z) (w : World) : semopd * World :=
  match x with
  | Intr => (OpIntr, w)
  | Bad => (OpFailed, w)
  | _ =>
    match w_sems w !! id with
    | None => (OpFailed, w)
    | Some v => (OpOk, upd_sems <[id := v + 1]> w)
    end
  end.

Definition shm_create (x : fault) (w : World) : option Z * World :=
  match w_name w with
  | Some _ => (None, w)
  | None =>
    if is_bad x then (None, w)
    else
      let o := w_nextobj w in
      (Some o, mkWorld (w_fs w) (w_pid w) (w_sems w) (Some o)
                 (<[o := mkObj 0 zero_segment]> (w_objs w)) (o + 1) (w_others w) (w_faults w))
  end.

Definition handle_seg {A} (o : Z) (p : prog A) (w : World) : A * World :=
  match w_objs w !! o with
  | Some ob =>
    let (a, s) := run p (so_seg ob) in
    (a, upd_objs <[o := mkObj (so_size ob) s]> w)
  | None => (fst (run p zero_segment), w)
  end.

Definition handle {R} (c : call R) : World -> R * World :=
  match c in call R return World -> R * World with
  | ReadDir => fun w => let (x, w) := pop_fault w in (fs_read_dir x (w_fs w), w)
  | FileType n => fun w => let (x, w) := pop_fault w in (fs_file_type x n (w_fs w), w)
  | FsRead n => fun w => let (x, w) := pop_fault w in (fs_read x n (w_fs w), w)
  | FsCreate n => fun w => let (x, w) := pop_fault w in on_fs (fs_create x n (w_fs w)) w
  | FsWrite i bs => fun w => let (x, w) := pop_fault w in on_fs (fs_write x i bs (w_fs w)) w
  | FsSync i => fun w => let (x, w) := pop_fault w in
      if is_bad x then (false, w) else (true, upd_fs (flush_file i) w)
  | FsRemove n => fun w => let (x, w) := pop_fault w in on_fs (fs_remove x n (w_fs w)) w
  | FsRename a b => fun w => let (x, w) := pop_fault w in on_fs (fs_rename x a b (w_fs w)) w
  | FsMeta n => fun w => let (x, w) := pop_fault w in (fs_meta x n (w_fs w), w)
  | SyncFs => fun w => let (x, w) := pop_fault w in on_fs (fs_syncfs x (w_fs w)) w
  | IsDir => fun w => let (x, w) := pop_fault w in (f_avail (w_fs w) && negb (is_bad x), w)
  | StatDev => fun w => let (x, w) := pop_fault w in
      (if f_avail (w_fs w) && negb (is_bad x) then Some (f_dev (w_fs w)) else None, w)
  | GetPid => fun w => (w_pid w, w)
  | Ftok proj => fun w => let (x, w) := pop_fault w in
      (if f_avail (w_fs w) && negb (is_bad x) then Some (ftok_key (f_dev (w_fs w)) proj)
       else None, w)
  | SemgetExcl key => fun w => let (x, w) := pop_fault w in
      if is_bad x then (SemFailed, w)
      else match w_sems w !! key with
           | Some _ => (SemExists, w)
           | None => (SemOk key, upd_sems <[key := 0]> w)
           end
  | Semget key => fun w => let (x, w) := pop_fault w in
      (if is_bad x then None else (fun _ => key) <$> w_sems w !! key, w)
  | SemSetval id => fun w => let (x, w) := pop_fault w in
      if is_bad x then (false, w) else (true, upd_sems <[id := 1]> w)
  | SemRmid id => fun w => (tt, upd_sems (delete id) w)
  | SemDown id => fun w => let (x, w) := pop_fault w in sem_down x id w
  | SemUp id => fun w => let (x, w) := pop_fault w in sem_up x id w
  | ShmOpen => fun w => let (x, w) := pop_fault w in
      (if is_bad x then None else w_name w, w)
  | ShmCreateExcl => fun w => let (x, w) := pop_fault w in shm_create x w
  | Ftruncate o size => fun w => let (x, w) := pop_fault w in
      if is_bad x then (false, w)
      else (true, upd_objs (alter (fun ob => mkObj size (so_seg ob)) o) w)
  | Fstat o => fun w => let (x, w) := pop_fault w in
      (if is_bad x then None else so_size <$> w_objs w !! o, w)
  | Mmap o => fun w => let (x, w) := pop_fault w in (negb (is_bad x), w)
  | ShmUnlink => fun w => (tt, upd_name None w)
  | Seg o p => fun w => handle_seg o p w
  | SegAsk o p => fun w => let (x, w) := pop_fault w in
      handle_seg o (p (fs_differs x (w_fs w))) w
  end.

(** * Execution *)

Fixpoint exec {A} (m : io A) (w : World) : A * World :=
  match m with
  | IRet a => (a, w)
  | ICall c k => let (r, w') := handle c w in exec (k r) w'
  end.

(** [P] holds all along an execution: at the start, after every call. *)
Fixpoint always {A} (P : World -> Prop) (m : io A) (w : World) : Prop :=
  P w /\
  match m with
  | IRet _ => True
  | ICall c k => let (r, w') := handle c w in always P (k r) w'
  end.

Lemma exec_bind {A B} (m : io A) (f : A -> io B) w :
  exec (ibind m f) w = exec (f (fst (exec m w))) (snd (exec m w)).
Proof.
  revert w; induction m as [a|R c k IH]; intros w; [done|]. simpl.
  destruct (handle c w) as [r w']. apply IH.
Qed.

Lemma exec_ret {A} (a : A) w : exec (iret a) w = (a, w).
Proof. done. Qed.

Lemma exec_sys {R} (c : call R) w : exec (sys c) w = handle c w.
Proof. simpl. by destruct (handle c w). Qed.

Lemma always_bind {A B} (P : World -> Prop) (m : io A) (f : A -> io B) w :
  always P m w -> always P (f (fst (exec m w))) (snd (exec m w)) -> always P (ibind m f) w.
Proof.
  revert w; induction m as [a|R c k IH]; intros w Hm Hf; [done|]. simpl in *.
  destruct Hm as [Hw Hm]. split; [done|].
  destruct (handle c w) as [r w'] eqn:E. apply IH; [done|].
  by destruct (exec (k r) w').
Qed.

Lemma always_last {A} (P : World -> Prop) (m : io A) w : always P m w -> P (snd (exec m w)).
Proof.
  revert w; induction m as [a|R c k IH]; intros w; simpl; [by intros []|].
  intros [_ Hm]. destruct (handle c w) as [r w']. by apply IH.
Qed.

Lemma always_weaken {A} (P Q : World -> Prop) (m : io A) w :
  (forall w, P w -> Q w) -> always P m w -> always Q m w.
Proof.
  intros HPQ. revert w; induction m as [a|R c k IH]; intros w; simpl.
  - intros [Hw _]. split; [by apply HPQ|done].
  - intros [Hw Hm]. split; [by apply HPQ|]. destruct (handle c w) as [r w']. by apply IH.
Qed.

#[global] Arguments ibind : simpl never.
#[global] Arguments exec : simpl never.
#[global] Arguments iret : simpl never.
#[global] Arguments sys : simpl never.
#[global] Arguments handle : simpl never.

Ltac exec_simpl :=
  repeat (first [rewrite exec_bind | rewrite exec_ret | rewrite exec_sys]; cbn [fst snd]).
