(* ===== verification/Wp.v ===== *)
(** Reasoning about trees of system calls.

    [wp I m Q w]: run from [w], [m] ends in a result and a world satisfying
    [Q], and every world on the way - a crash can happen in any of them -
    satisfies [I]. *)

From S2P Require Import Prelude Segment Shm ShmTrace World.

Fixpoint wp {A} (I : World -> Prop) (m : io A) (Q : A -> World -> Prop) (w : World) : Prop :=
  match m with
  | IRet a => I w /\ Q a w
  | ICall c k => I w /\ let (r, w') := handle c w in wp I (k r) Q w'
  end.

Section rules.
Context {A B : Type} (I : World -> Prop).

Lemma wp_start (m : io A) Q w : wp I m Q w -> I w.
Proof. destruct m; simpl; tauto. Qed.

Lemma wp_ret (a : A) (Q : A -> World -> Prop) w : I w -> Q a w -> wp I (iret a) Q w.
Proof. by split. Qed.

Lemma wp_sys {R} (c : call R) (Q : R -> World -> Prop) w :
  I w -> (let (r, w') := handle c w in I w' /\ Q r w') -> wp I (sys c) Q w.
Proof. intros Hi H. split; [done|]. destruct (handle c w) as [r w']. exact H. Qed.

Lemma wp_bind (m : io A) (f : A -> io B) Q w :
  wp I m (fun a w' => wp I (f a) Q w') w -> wp I (ibind m f) Q w.
Proof.
  revert w; induction m as [a|R c k IH]; intros w; unfold ibind; fold (@ibind A B); simpl.
  - by intros [_ H].
  - intros [Hw H]. split; [done|]. destruct (handle c w) as [r w']. by apply IH.
Qed.

Lemma wp_mono (m : io A) (Q Q' : A -> World -> Prop) w :
  wp I m Q w -> (forall a w', I w' -> Q a w' -> Q' a w') -> wp I m Q' w.
Proof.
  intros H HQ. revert w H; induction m as [a|R c k IH]; intros w; simpl.
  - intros [Hw H]. split; [done|]. by apply HQ.
  - intros [Hw H]. split; [done|]. destruct (handle c w) as [r w']. by apply IH.
Qed.

(** What [wp] says of the execution. *)
Lemma wp_exec (m : io A) Q w : wp I m Q w -> Q (fst (exec m w)) (snd (exec m w)).
Proof.
  revert w; induction m as [a|R c k IH]; intros w; unfold exec; fold (@exec A); simpl.
  - by intros [_ H].
  - intros [_ H]. destruct (handle c w) as [r w']. by apply IH.
Qed.

Lemma wp_always (m : io A) Q w : wp I m Q w -> always I m w.
Proof.
  revert w; induction m as [a|R c k IH]; intros w; simpl.
  - intros [Hw _]. by split.
  - intros [Hw H]. split; [done|]. destruct (handle c w) as [r w']. by apply IH.
Qed.
End rules.

(** Another invariant for the same run. *)
Lemma wp_weaken {A} (I I' : World -> Prop) (m : io A) Q w :
  wp I m Q w -> (forall w', I w' -> I' w') -> wp I' m Q w.
Proof.
  intros H HI. revert w H; induction m as [a|R c k IH]; intros w; simpl.
  - intros [Hw H]. split; [by apply HI|done].
  - intros [Hw H]. split; [by apply HI|]. destruct (handle c w) as [r w']. by apply IH.
Qed.

(** A loop, with the visited prefix. *)
Lemma wp_foldM {X St} I (l : list X) (st : St) body (J : list X -> St -> World -> Prop) Q w :
  I w -> J [] st w ->
  (forall pre x post st w, l = pre ++ x :: post -> I w -> J pre st w ->
     wp I (body x st) (fun st' w' => J (pre ++ [x]) st' w') w) ->
  (forall st w, I w -> J l st w -> Q st w) ->
  wp I (ifoldM l st body) Q w.
Proof.
  intros Hi HJ Hstep HQ.
  assert (forall post pre st w, l = pre ++ post -> I w -> J pre st w ->
            wp I (ifoldM post st body) Q w) as Hgen.
  { clear st w Hi HJ. induction post as [|x post IH]; intros pre st w Hl Hi HJ; cbn [ifoldM].
    - rewrite app_nil_r in Hl. subst. apply wp_ret; [done|]. by apply HQ.
    - apply wp_bind. eapply wp_mono; [by eapply (Hstep pre x post)|].
      intros st' w' Hi' HJ'. apply (IH (pre ++ [x])); [by rewrite <- app_assoc|done..]. }
  by apply (Hgen l []).
Qed.

#[global] Arguments wp : simpl never.

(** A program that is known by its execution. *)
Lemma wp_of_exec {A} (m : io A) (Q : A -> World -> Prop) w :
  Q (fst (exec m w)) (snd (exec m w)) -> wp (fun _ => True) m Q w.
Proof.
  revert w; induction m as [a|R c k IH]; intros w; unfold wp; fold (@wp A); unfold exec;
    fold (@exec A); [done|].
  intros H. split; [done|]. destruct (handle c w) as [r w']. by apply IH.
Qed.

(** Name the end of an execution. *)
Lemma wp_named {A} I (m : io A) Q w :
  wp I m Q w -> wp I m (fun a w' => exec m w = (a, w') /\ Q a w') w.
Proof.
  revert w; induction m as [a|R c k IH]; intros w; unfold wp; fold (@wp A); unfold exec;
    fold (@exec A); [by intros [Hw H]|].
  intros [Hw H]. split; [done|]. destruct (handle c w) as [r w']. by apply IH.
Qed.

Lemma wp_conj {A} I (m : io A) Q1 Q2 w :
  wp I m Q1 w -> wp I m Q2 w -> wp I m (fun a w' => Q1 a w' /\ Q2 a w') w.
Proof.
  revert w; induction m as [a|R c k IH]; intros w; unfold wp; fold (@wp A).
  - intros [Hw H1] [_ H2]. done.
  - intros [Hw H1] [_ H2]. split; [done|]. destruct (handle c w) as [r w']. by apply IH.
Qed.
