(* ===== verification/Disk.v ===== *)
(** The persistent store (src/src/disk.rs): one file per key, as trees of
    system calls. *)

From S2P Require Import Prelude Consts Names Segment Shm ShmTrace World.

(** * Reading *)

(** One directory entry of [load_all]; [f] is the caller's callback, with its
    captured state. *)
Definition load_entry {St} (f : bytes -> bytes -> St -> io St) (name : bytes) (st : St) : io St :=
  if negb (utf8 name) then iret st
  else if starts_with TMP_PREFIX name || starts_with [46] name then
    if starts_with TMP_PREFIX name then do _ <- sys (FsRemove name); iret st else iret st
  else
    do t <- sys (FileType name);
    match t with
    | Some true =>
      do bs <- sys (FsRead name);
      match bs with
      | Some bs => f name bs st
      | None => iret st
      end
    | _ => iret st
    end.

Definition load_all {St} (f : bytes -> bytes -> St -> io St) (st : St) : io (result St) :=
  do dir <- sys ReadDir;
  match dir with
  | None => iret Err
  | Some names => do st <- ifoldM names st (load_entry f); iret (Ok st)
  end.

Definition read_one (key : bytes) : io (option bytes) :=
  match key_path key with
  | None => iret None
  | Some n => sys (FsRead n)
  end.

(** * Writing *)

(** The closure of [write_tmp]: create, write, perhaps flush. *)
Definition fill (tmp val : bytes) (flush : bool) : io bool :=
  do i <- sys (FsCreate tmp);
  match i with
  | None => iret false
  | Some i =>
    do ok <- sys (FsWrite i val);
    if (ok : bool) then (if flush then sys (FsSync i) else iret true) else iret false
  end.

Definition write_tmp (key val : bytes) (flush : bool) : io (result bytes) :=
  match key_path key with
  | None => iret Err
  | Some name =>
    do pid <- sys GetPid;
    let tmp := tmp_name pid name in
    do ok <- fill tmp val flush;
    if (ok : bool) then iret (Ok tmp)
    else do _ <- sys (FsRemove tmp); iret Err
  end.

Definition stage (key val : bytes) : io (result bytes) := write_tmp key val false.

Definition publish (tmp key : bytes) : io (result unit) :=
  match key_path key with
  | None => do _ <- sys (FsRemove tmp); iret Err
  | Some dst =>
    do ok <- sys (FsRename tmp dst);
    if (ok : bool) then iret (Ok tt)
    else do _ <- sys (FsRemove tmp); iret Err
  end.

Definition write_atomic (key val : bytes) : io (result unit) :=
  do t <- write_tmp key val true;
  match t with
  | Err => iret Err
  | Ok tmp => publish tmp key
  end.

Definition discard (tmp : bytes) : io unit := do _ <- sys (FsRemove tmp); iret tt.

Definition differs_on_disk (key : bytes) (ln : Z) : io bool :=
  match key_path key with
  | None => iret false
  | Some n => do m <- sys (FsMeta n); iret (meta_differs ln m)
  end.

Definition remove (key : bytes) : io (result unit) :=
  match key_path key with
  | None => iret Err
  | Some n =>
    do r <- sys (FsRemove n);
    iret (match r with Removed | NotFound => Ok tt | RemoveFailed => Err end)
  end.

Definition remove_entry (name : bytes) (_ : unit) : io unit :=
  do t <- sys (FileType name);
  match t with
  | Some true => do _ <- sys (FsRemove name); iret tt
  | _ => iret tt
  end.

Definition remove_all : io (result unit) :=
  do dir <- sys ReadDir;
  match dir with
  | None => iret Err
  | Some names => do _ <- ifoldM names tt remove_entry; iret (Ok tt)
  end.

Definition sync_store : io bool := sys SyncFs.
Definition store_available : io bool := sys IsDir.
Definition store_dev : io (option Z) := sys StatDev.
