(* ===== verification/DiskInv.v ===== *)
(** The store directory while temporary files come and go.

    A commit writes under temporary names only, until each file is renamed
    over its key.  [tmp_step] is what the calls of the staging phase may do:
    whatever they do, a power loss can leave nothing under a key's own name
    that it could not have left before. *)

From S2P Require Import Prelude Consts Names Segment Shm ShmTrace World Wp Disk.

Definition is_tmp (n : bytes) : Prop := starts_with TMP_PREFIX n = true.

Lemma valid_not_is_tmp k n : valid_key k = true -> is_tmp n -> k <> n.
Proof. intros Hk%valid_not_tmp Hn ->. unfold is_tmp in Hn. congruence. Qed.

Lemma valid_tmp_ne k n : valid_key k = true -> is_tmp n -> n <> k.
Proof. intros Hk Hn E. by apply (valid_not_is_tmp k n). Qed.

Lemma is_tmp_name pid key : is_tmp (tmp_name pid key).
Proof. apply tmp_name_prefix. Qed.

#[export] Hint Resolve is_tmp_name : nvram.

(** A consistent directory: inode numbers below the next one, no two names on
    one file, and no file under a temporary name that a power loss could
    leave under a key. *)
Record fs_wf (f : FS) : Prop := mk_fs_wf {
  fw_cur : f_dir f ∈ f_dirs f;
  fw_range : forall d n i, d ∈ f_dirs f -> d !! n = Some i -> i < f_next f;
  fw_inj : forall a b i, f_dir f !! a = Some i -> f_dir f !! b = Some i -> a = b;
  fw_sep : forall n k d i, is_tmp n -> valid_key k = true -> d ∈ f_dirs f ->
    f_dir f !! n = Some i -> d !! k <> Some i;
  fw_nodes : forall n i, f_dir f !! n = Some i -> is_Some (f_nodes f !! i)
}.

(** A call on the temporary name [n]. *)
Record tmp_step (n : bytes) (f f' : FS) : Prop := mk_tmp_step {
  ts_wf : fs_wf f';
  ts_crash : forall k o, valid_key k = true -> survives f' k o -> survives f k o;
  ts_dir : forall n', n' <> n -> f_dir f' !! n' = f_dir f !! n';
  ts_node : forall n' i, n' <> n -> f_dir f !! n' = Some i -> f_nodes f' !! i = f_nodes f !! i;
  ts_avail : f_avail f' = f_avail f
}.

Lemma tmp_step_refl n f : fs_wf f -> tmp_step n f f.
Proof. by split. Qed.

Lemma tmp_step_trans n f1 f2 f3 : tmp_step n f1 f2 -> tmp_step n f2 f3 -> tmp_step n f1 f3.
Proof.
  intros [_ Hc1 Hd1 Hn1 Ha1] [Hw Hc2 Hd2 Hn2 Ha2]. split; [done|..].
  - intros k o Hk Hs. by apply Hc1, Hc2.
  - intros n' Hn. by rewrite Hd2, Hd1.
  - intros n' i Hn Hi. rewrite (Hn2 n' i), (Hn1 n' i); [done..|]. by rewrite Hd1.
  - congruence.
Qed.

Lemma tmp_step_lookup n f f' n' : tmp_step n f f' -> n' <> n -> f_lookup f' n' = f_lookup f n'.
Proof.
  intros [_ _ Hd Hn _] Hne. unfold f_lookup. rewrite Hd by done.
  destruct (f_dir f !! n') as [i|] eqn:E; [|done]. simpl. by eapply Hn.
Qed.

(** * The elementary changes *)

Lemma set_node_step n i x f :
  fs_wf f -> is_tmp n -> f_dir f !! n = Some i -> tmp_step n f (set_node i x f).
Proof.
  intros [Hc Hr Hi Hs Hx] Hn Hd. split.
  - split; try done. intros m j Hj. cbn. destruct (decide (j = i)) as [->|].
    + rewrite lookup_insert_eq. by eexists.
    + rewrite lookup_insert_ne by done. by eapply Hx.
  - intros k o Hk (d & Hdin & Hm). exists d. split; [done|]. cbn in *.
    destruct (d !! k) as [j|] eqn:E; [|done].
    assert (j <> i) as Hji by (intros ->; by eapply Hs).
    rewrite lookup_insert_ne in Hm by done.
    destruct (decide (j ∈ f_synced f)) as [Hj|Hj].
    + rewrite decide_True in Hm; [done|]. apply elem_of_difference. split; [done|].
      by intros ?%elem_of_singleton.
    + done.
  - done.
  - intros n' j Hne Hj. cbn. apply lookup_insert_ne. intros ->. by eapply Hne, Hi.
  - done.
Qed.

Lemma delete_wf n f : fs_wf f -> fs_wf (set_dir (delete n (f_dir f)) f).
Proof.
  intros [Hc Hr Hi Hs Hx]. split; cbn.
  - apply elem_snoc_r.
  - intros d n' i [Hd| ->]%elem_snoc Hl; [by eapply Hr|].
    apply lookup_delete_Some in Hl as [_ Hl]. by eapply Hr.
  - intros a b i [_ Ha]%lookup_delete_Some [_ Hb]%lookup_delete_Some. by eapply Hi.
  - intros m k d i Hm Hk Hd [_ Hl]%lookup_delete_Some.
    apply elem_snoc in Hd as [Hd| ->]; [by eapply Hs|].
    intros [_ Hl']%lookup_delete_Some. by eapply (Hs m k).
  - intros m i [_ Hl]%lookup_delete_Some. by eapply Hx.
Qed.

Lemma delete_step n f :
  fs_wf f -> is_tmp n -> tmp_step n f (set_dir (delete n (f_dir f)) f).
Proof.
  intros Hwf Hn. pose proof Hwf as [Hc Hr Hi Hs Hx]. split.
  - by apply delete_wf.
  - intros k o Hk (d & Hd & Hm). cbn in *. apply elem_snoc in Hd as [Hd| ->]; [by exists d|].
    exists (f_dir f). split; [done|].
    rewrite lookup_delete_ne in Hm by (by apply valid_tmp_ne). done.
  - intros n' Hne. cbn. by rewrite lookup_delete_ne.
  - done.
  - done.
Qed.

Lemma new_file_step n f :
  fs_wf f -> is_tmp n ->
  let (i, f') := new_file n f in
  tmp_step n f f' /\ f_dir f' !! n = Some i /\ f_nodes f' !! i = Some (File []).
Proof.
  intros [Hc Hr Hi Hs Hx] Hn. unfold new_file. set (i := f_next f). split_and!; cbn.
  - split.
    + split; cbn.
      * apply elem_snoc_r.
      * intros d n' j [Hd| ->]%elem_snoc Hl; [specialize (Hr d n' j Hd Hl); lia|].
        apply lookup_insert_Some in Hl as [[_ <-]|[_ Hl]]; [lia|].
        specialize (Hr _ n' j Hc Hl). lia.
      * intros a b j Ha Hb. apply lookup_insert_Some in Ha as [[<- <-]|[Hna Ha]];
          apply lookup_insert_Some in Hb as [[Hb1 Hb2]|[Hnb Hb]]; [done| | |by eapply Hi].
        { specialize (Hr _ b _ Hc Hb). lia. }
        { subst j. specialize (Hr _ a _ Hc Ha). lia. }
      * intros m k d j Hm Hk Hd Hl Hl'.
        assert (d !! k = Some j -> j < i) as Hlt.
        { intros _. apply elem_snoc in Hd as [Hd| ->]; [by eapply Hr|].
          rewrite lookup_insert_ne in Hl' by (by apply valid_tmp_ne).
          by eapply Hr. }
        specialize (Hlt Hl').
        apply lookup_insert_Some in Hl as [[<- <-]|[Hne Hl]]; [lia|].
        apply elem_snoc in Hd as [Hd| ->]; [by eapply (Hs m k)|].
        rewrite lookup_insert_ne in Hl' by (by apply valid_tmp_ne).
        by eapply (Hs m k).
      * intros m j [[_ <-]|[Hne Hl]]%lookup_insert_Some.
        { rewrite lookup_insert_eq. by eexists. }
        specialize (Hr _ m j Hc Hl). rewrite lookup_insert_ne by lia. by eapply Hx.
    + intros k o Hk (d & Hd & Hm). cbn in *.
      assert (exists d', d' ∈ f_dirs f /\ d' !! k = d !! k) as (d' & Hd' & E).
      { apply elem_snoc in Hd as [Hd| ->]; [by exists d|]. exists (f_dir f). split; [done|].
        by rewrite lookup_insert_ne by (by apply valid_tmp_ne). }
      exists d'. split; [done|]. rewrite E. destruct (d !! k) as [j|] eqn:Ej; [|done].
      assert (j < i) by (by eapply Hr). rewrite lookup_insert_ne in Hm by lia.
      destruct (decide (j ∈ f_synced f)) as [Hj|Hj]; [|done].
      rewrite decide_True in Hm; [done|]. apply elem_of_difference. split; [done|].
      intros ->%elem_of_singleton. lia.
    + intros n' Hne. cbn. by rewrite lookup_insert_ne.
    + intros n' j Hne Hj. cbn. apply lookup_insert_ne. specialize (Hr _ n' j Hc Hj). lia.
    + done.
  - apply lookup_insert_eq.
  - apply lookup_insert_eq.
Qed.

Lemma flush_file_step n i f :
  fs_wf f -> is_tmp n -> f_dir f !! n = Some i -> tmp_step n f (flush_file i f).
Proof.
  intros [Hc Hr Hi Hs Hx] Hn Hd. split; try done.
  intros k o Hk (d & Hdin & Hm). exists d. split; [done|]. cbn in *.
  destruct (d !! k) as [j|] eqn:E; [|done].
  assert (j <> i) as Hji by (intros ->; by eapply Hs).
  destruct (decide (j ∈ f_synced f)) as [Hj|Hj]; [|done].
  rewrite decide_True in Hm; [done|]. apply elem_of_union. by left.
Qed.

(** * Worlds *)

(** Only the directory (and the fault script) has changed. *)
Record same_os (w w' : World) : Prop := mk_same_os {
  so_pid : w_pid w' = w_pid w;
  so_sems : w_sems w' = w_sems w;
  so_name : w_name w' = w_name w;
  so_objs : w_objs w' = w_objs w;
  so_next : w_nextobj w' = w_nextobj w;
  so_others : w_others w' = w_others w
}.

#[export] Instance same_os_equiv : Equivalence same_os.
Proof.
  split.
  - by split.
  - intros w w' []. by split.
  - intros w1 w2 w3 [] []. split; congruence.
Qed.

Lemma same_os_pop w : same_os w (snd (pop_fault w)).
Proof. by split. Qed.
Lemma same_os_fs f w : same_os w (upd_fs f w).
Proof. by split. Qed.
#[export] Hint Resolve same_os_pop same_os_fs : nvram.

(** A run of calls on the temporary name [n]. *)
Definition tmp_run (n : bytes) (w w' : World) : Prop :=
  tmp_step n (w_fs w) (w_fs w') /\ same_os w w'.

Lemma tmp_run_refl n w : fs_wf (w_fs w) -> tmp_run n w w.
Proof. intros H. split; [by apply tmp_step_refl|done]. Qed.

Lemma tmp_run_trans n w1 w2 w3 : tmp_run n w1 w2 -> tmp_run n w2 w3 -> tmp_run n w1 w3.
Proof. intros [] []. split; [by eapply tmp_step_trans|by etrans]. Qed.

Lemma tmp_run_wf n w w' : tmp_run n w w' -> fs_wf (w_fs w').
Proof. intros [[] _]. done. Qed.

(** * The elementary calls on a temporary name *)

Lemma handle_create n w :
  fs_wf (w_fs w) -> is_tmp n ->
  let (r, w') := handle (FsCreate n) w in
  tmp_run n w w' /\
  match r with
  | Some i => f_dir (w_fs w') !! n = Some i /\ f_nodes (w_fs w') !! i = Some (File [])
  | None => True
  end.
Proof.
  intros Hwf Hn. unfold handle. destruct (pop_fault w) as [x w1] eqn:Hp.
  assert (w_fs w1 = w_fs w /\ same_os w w1) as [Hf Hos] by (by inversion Hp; subst).
  unfold on_fs, fs_create. rewrite Hf.
  destruct (is_bad x || negb (f_avail (w_fs w)) || (NAME_MAX <? len n)); cbn [fst snd].
  { split; [|done]. split; cbn; [by apply tmp_step_refl|by etrans; [|apply same_os_fs]]. }
  destruct (f_dir (w_fs w) !! n) as [i|] eqn:Hd.
  - destruct (f_nodes (w_fs w) !! i) as [[old|]|]; cbn [fst snd].
    2,3: split; [|done]; split; cbn; [by apply tmp_step_refl|by etrans; [|apply same_os_fs]].
    split; [split; cbn; [by apply set_node_step|by etrans; [|apply same_os_fs]]|].
    cbn. split; [done|]. apply lookup_insert_eq.
  - pose proof (new_file_step n (w_fs w) Hwf Hn) as H. destruct (new_file n (w_fs w)) as [i f'].
    destruct H as (Hs & Hd' & Hn'). cbn [fst snd]. split; [|done].
    split; cbn; [done|by etrans; [|apply same_os_fs]].
Qed.

Lemma handle_write n i bs w :
  fs_wf (w_fs w) -> is_tmp n -> f_dir (w_fs w) !! n = Some i ->
  let (r, w') := handle (FsWrite i bs) w in
  tmp_run n w w' /\ f_dir (w_fs w') !! n = Some i /\
  (r = true -> exists old, f_nodes (w_fs w) !! i = Some (File old) /\
     f_nodes (w_fs w') !! i = Some (File (old ++ bs))).
Proof.
  intros Hwf Hn Hd. unfold handle. destruct (pop_fault w) as [x w1] eqn:Hp.
  assert (w_fs w1 = w_fs w /\ same_os w w1) as [Hf Hos] by (by inversion Hp; subst).
  unfold on_fs, fs_write. rewrite Hf.
  assert (forall f', tmp_step n (w_fs w) f' -> tmp_run n w (upd_fs (fun _ => f') w1)) as Hrun.
  { intros f' Hs. split; [done|]. by etrans; [|apply same_os_fs]. }
  destruct (f_nodes (w_fs w) !! i) as [[old|]|] eqn:Hi; cbn [fst snd].
  2,3: split_and!; [apply Hrun; by apply tmp_step_refl|done..].
  destruct x; cbn [fst snd].
  2,4,5: split_and!; [apply Hrun; by apply tmp_step_refl|done..].
  - split_and!; [apply Hrun; by apply set_node_step|done|]. intros _. exists old.
    split; [done|]. apply lookup_insert_eq.
  - split_and!; [apply Hrun; by apply set_node_step|done|]. done.
Qed.

Lemma handle_sync n i w :
  fs_wf (w_fs w) -> is_tmp n -> f_dir (w_fs w) !! n = Some i ->
  let (r, w') := handle (FsSync i) w in
  tmp_run n w w' /\ f_dir (w_fs w') = f_dir (w_fs w) /\ f_nodes (w_fs w') = f_nodes (w_fs w) /\
  (r = true -> i ∈ f_synced (w_fs w')).
Proof.
  intros Hwf Hn Hd. unfold handle. destruct (pop_fault w) as [x w1] eqn:Hp.
  assert (w_fs w1 = w_fs w /\ same_os w w1) as [Hf Hos] by (by inversion Hp; subst).
  destruct (is_bad x).
  - split_and!; [|by rewrite Hf..|done]. split; [rewrite Hf; by apply tmp_step_refl|done].
  - unfold upd_fs. cbn. rewrite Hf. split_and!; try done.
    + split; [by apply flush_file_step|]. by etrans; [exact Hos|].
    + intros _. apply elem_of_union. right. by apply elem_of_singleton.
Qed.

Lemma handle_remove_tmp n w :
  fs_wf (w_fs w) -> is_tmp n ->
  let (r, w') := handle (FsRemove n) w in tmp_run n w w'.
Proof.
  intros Hwf Hn. unfold handle. destruct (pop_fault w) as [x w1] eqn:Hp.
  assert (w_fs w1 = w_fs w /\ same_os w w1) as [Hf Hos] by (by inversion Hp; subst).
  unfold on_fs, fs_remove. rewrite Hf.
  assert (forall f', tmp_step n (w_fs w) f' -> tmp_run n w (upd_fs (fun _ => f') w1)) as Hrun.
  { intros f' Hs. split; [done|]. by etrans; [|apply same_os_fs]. }
  destruct (_ || _); cbn [fst snd]; [apply Hrun; by apply tmp_step_refl|].
  destruct (f_lookup (w_fs w) n) as [[bs|]|]; cbn [fst snd]; apply Hrun;
    [by apply delete_step|by apply tmp_step_refl..].
Qed.

(** * Staging one file *)

Section stage.
Variables (I : World -> Prop) (n : bytes) (w0 : World).
Hypothesis Hn : is_tmp n.
Hypothesis HI : forall w, tmp_run n w0 w -> I w.

Lemma wp_fill val flush w :
  tmp_run n w0 w ->
  wp I (fill n val flush) (fun ok w' => tmp_run n w0 w' /\
    (ok = true -> f_lookup (w_fs w') n = Some (File val) /\
       (flush = true -> exists i, f_dir (w_fs w') !! n = Some i /\ i ∈ f_synced (w_fs w')))) w.
Proof using Hn HI.
  intros Hw. unfold fill. apply wp_bind, wp_sys; [by apply HI|].
  pose proof (handle_create n w (tmp_run_wf _ _ _ Hw) Hn) as H.
  destruct (handle (FsCreate n) w) as [[i|] w1]; destruct H as [H1 Hi];
    assert (tmp_run n w0 w1) as Hw1 by (by eapply tmp_run_trans); (split; [by apply HI|]).
  2: { apply wp_ret; [by apply HI|]. by split. }
  destruct Hi as [Hd Hnode]. apply wp_bind, wp_sys; [by apply HI|].
  pose proof (handle_write n i val w1 (tmp_run_wf _ _ _ Hw1) Hn Hd) as H.
  destruct (handle (FsWrite i val) w1) as [ok w2]. destruct H as (H2 & Hd2 & Hok).
  assert (tmp_run n w0 w2) as Hw2 by (by eapply tmp_run_trans). split; [by apply HI|].
  destruct ok; [|apply wp_ret; [by apply HI|by split]].
  destruct (Hok eq_refl) as (old & Hold & Hnew). rewrite Hnode in Hold. simplify_eq.
  cbn [app] in Hnew.
  destruct flush.
  - apply wp_sys; [by apply HI|].
    pose proof (handle_sync n i w2 (tmp_run_wf _ _ _ Hw2) Hn Hd2) as H.
    destruct (handle (FsSync i) w2) as [ok w3]. destruct H as (H3 & Hd3 & Hn3 & Hok3).
    assert (tmp_run n w0 w3) as Hw3 by (by eapply tmp_run_trans). split; [by apply HI|].
    split; [done|]. intros Hok'. split; [|intros _; exists i; split; [by rewrite Hd3|by apply Hok3]].
    unfold f_lookup. by rewrite Hd3, Hd2, Hn3.
  - apply wp_ret; [by apply HI|]. split; [done|]. intros _. split; [|done].
    unfold f_lookup. by rewrite Hd2.
Qed.
End stage.

(** [write_tmp], flushed or not: a temporary file with the value, or nothing. *)
Lemma wp_write_tmp I key val flush w0 :
  fs_wf (w_fs w0) -> valid_key key = true ->
  (forall w, tmp_run (tmp_name (w_pid w0) key) w0 w -> I w) ->
  wp I (write_tmp key val flush) (fun r w' => tmp_run (tmp_name (w_pid w0) key) w0 w' /\
    match r with
    | Ok tmp => tmp = tmp_name (w_pid w0) key /\ f_lookup (w_fs w') tmp = Some (File val) /\
        (flush = true -> exists i, f_dir (w_fs w') !! tmp = Some i /\ i ∈ f_synced (w_fs w'))
    | Err => True
    end) w0.
Proof.
  intros Hwf Hk HI. unfold write_tmp, key_path. rewrite Hk. cbn [negb].
  assert (tmp_run (tmp_name (w_pid w0) key) w0 w0) as H0 by (by apply tmp_run_refl).
  apply wp_bind, wp_sys; [by apply HI|].
  change (handle GetPid w0) with (w_pid w0, w0). cbv iota beta. split; [by apply HI|].
  set (n := tmp_name (w_pid w0) key) in *.
  apply wp_bind. eapply wp_mono.
  { apply (wp_fill I n w0); [apply is_tmp_name|done..]. }
  intros ok w' Hi [Hw' Hok]. destruct ok.
  - apply wp_ret; [done|]. split; [done|]. by destruct (Hok eq_refl).
  - apply wp_bind, wp_sys; [done|].
    pose proof (handle_remove_tmp n w' (tmp_run_wf _ _ _ Hw') (is_tmp_name _ _)) as H.
    destruct (handle (FsRemove n) w') as [r w2].
    assert (tmp_run n w0 w2) as Hw2 by (by eapply tmp_run_trans).
    split; [by apply HI|]. apply wp_ret; [by apply HI|]. by split.
Qed.
