(* ===== verification/Publish.v ===== *)
(** Publishing, deleting and flushing: the calls that change what a key's own
    name stands for, and what a power loss can leave of it. *)

From S2P Require Import Prelude Consts Names Segment Shm ShmTrace World Wp Disk DiskInv.

(** Only the files under temporary names differ. *)
Record keys_same (f f' : FS) : Prop := mk_keys_same {
  ks_wf : fs_wf f';
  ks_crash : forall k o, valid_key k = true -> survives f' k o -> survives f k o;
  ks_lookup : forall k, ~ is_tmp k -> f_lookup f' k = f_lookup f k;
  ks_avail : f_avail f' = f_avail f
}.

Lemma keys_same_refl f : fs_wf f -> keys_same f f.
Proof. by split. Qed.

Lemma keys_same_trans f1 f2 f3 : keys_same f1 f2 -> keys_same f2 f3 -> keys_same f1 f3.
Proof.
  intros [_ Hc1 Hl1 Ha1] [Hw Hc2 Hl2 Ha2]. split; [done|..].
  - intros k o Hk Hs. by apply Hc1, Hc2.
  - intros k Hk. by rewrite Hl2, Hl1.
  - congruence.
Qed.

Lemma tmp_step_keys n f f' : is_tmp n -> tmp_step n f f' -> keys_same f f'.
Proof.
  intros Hn Hs. pose proof Hs as [Hw Hc Hd Hx Ha]. split; [done..| |done].
  intros k Hk. apply (tmp_step_lookup n); [done|]. intros ->. done.
Qed.

Lemma valid_lookup k : valid_key k = true -> ~ is_tmp k.
Proof. intros Hk Ht. by apply (valid_not_is_tmp k k). Qed.

(** ** Flushing *)

(** After a flush a crash leaves exactly what is there. *)
Lemma flush_survives f n o : fs_wf f -> survives (flush_all f) n o <-> o = f_lookup f n.
Proof.
  intros Hwf. unfold survives, f_lookup. cbn. split.
  - intros (d & ->%list_elem_of_singleton & Hm).
    destruct (f_dir f !! n) as [i|] eqn:E; [|done]. simpl.
    rewrite decide_True in Hm; [done|]. apply elem_of_dom. by eapply fw_nodes.
  - intros ->. exists (f_dir f). split; [by apply list_elem_of_singleton|].
    destruct (f_dir f !! n) as [i|]; [|done]. simpl. by case_decide.
Qed.

Lemma survives_current f n : fs_wf f -> survives f n (f_lookup f n).
Proof.
  intros Hwf. exists (f_dir f). split; [by apply fw_cur|]. unfold f_lookup.
  destruct (f_dir f !! n) as [i|]; [|done]. simpl. by case_decide.
Qed.

Lemma flush_keys f : fs_wf f -> keys_same f (flush_all f).
Proof.
  intros Hwf. pose proof Hwf as [Hc Hr Hi Hs Hx]. split.
  - split; cbn; try done.
    + by apply list_elem_of_singleton.
    + intros d n i ->%list_elem_of_singleton. by eapply Hr.
    + intros n k d i Hn Hk ->%list_elem_of_singleton. by eapply Hs.
  - intros k o _ ->%flush_survives; [|done]. by apply survives_current.
  - done.
  - done.
Qed.

Lemma handle_syncfs w :
  fs_wf (w_fs w) ->
  let (r, w') := handle SyncFs w in
  same_os w w' /\ keys_same (w_fs w) (w_fs w') /\
  f_dir (w_fs w') = f_dir (w_fs w) /\ f_nodes (w_fs w') = f_nodes (w_fs w) /\
  (r = true -> w_fs w' = flush_all (w_fs w)).
Proof.
  intros Hwf. unfold handle. destruct (pop_fault w) as [x w1] eqn:Hp.
  assert (w_fs w1 = w_fs w /\ same_os w w1) as [Hf Hos] by (by inversion Hp; subst).
  unfold on_fs, fs_syncfs. rewrite Hf. destruct (_ || _); cbn [fst snd].
  - split_and!; [by etrans; [|apply same_os_fs]|by apply keys_same_refl|done..].
  - split_and!; [by etrans; [|apply same_os_fs]|by apply flush_keys|done..].
Qed.

(** ** Renaming over a key *)

Lemma rename_wf n k i f :
  fs_wf f -> is_tmp n -> valid_key k = true -> f_dir f !! n = Some i ->
  fs_wf (set_dir (<[k := i]> (delete n (f_dir f))) f).
Proof.
  intros [Hc Hr Hi Hs Hx] Hn Hk Hd. split; cbn.
  - apply elem_snoc_r.
  - intros d m j [Hdin| ->]%elem_snoc Hl; [by eapply Hr|].
    apply lookup_insert_Some in Hl as [[_ <-]|[_ [_ Hl]%lookup_delete_Some]]; by eapply Hr.
  - intros a b j Ha Hb.
    apply lookup_insert_Some in Ha as [[<- <-]|[Hna [Hna' Ha]%lookup_delete_Some]];
      apply lookup_insert_Some in Hb as [[Hb1 Hb2]|[Hnb [Hnb' Hb]%lookup_delete_Some]];
      [done| | |by eapply Hi].
    + exfalso. by eapply Hnb', Hi.
    + subst. exfalso. by eapply Hna', Hi.
  - intros m k' d j Hm Hk' Hdin Hl Hl'.
    apply lookup_insert_Some in Hl as [[-> _]|[Hmk [Hmn Hl]%lookup_delete_Some]].
    { by apply (valid_tmp_ne m m). }
    assert (d ∈ f_dirs f -> False) as Hold by (intros Hdin'; by eapply (Hs m k' d j)).
    apply elem_snoc in Hdin as [Hdin| ->]; [done|].
    apply lookup_insert_Some in Hl' as [[<- <-]|[_ [_ Hl']%lookup_delete_Some]].
    + by eapply Hmn, Hi.
    + by eapply (Hs m k').
  - intros m j [[_ <-]|[_ [_ Hl]%lookup_delete_Some]]%lookup_insert_Some; by eapply Hx.
Qed.

Lemma rename_survives n k i f k' o :
  fs_wf f -> is_tmp n -> valid_key k' = true -> f_dir f !! n = Some i -> i ∈ f_synced f ->
  survives (set_dir (<[k := i]> (delete n (f_dir f))) f) k' o ->
  survives f k' o \/ (k' = k /\ o = f_lookup f n).
Proof.
  intros Hwf Hn Hk Hd Hi (d & Hdin & Hm). cbn in *.
  apply elem_snoc in Hdin as [Hdin| ->]; [left; by exists d|].
  destruct (decide (k = k')) as [->|Hne].
  - rewrite lookup_insert_eq, decide_True in Hm by done. right. split; [done|].
    unfold f_lookup. by rewrite Hd.
  - left. rewrite lookup_insert_ne, lookup_delete_ne in Hm by (done || by apply valid_tmp_ne).
    exists (f_dir f). split; [by apply fw_cur|done].
Qed.

Lemma rename_lookup n k i f m :
  fs_wf f -> is_tmp n -> f_dir f !! n = Some i -> ~ is_tmp m ->
  f_lookup (set_dir (<[k := i]> (delete n (f_dir f))) f) m =
    if decide (m = k) then f_lookup f n else f_lookup f m.
Proof.
  intros Hwf Hn Hd Hm. unfold f_lookup. cbn. case_decide as E.
  - subst m. by rewrite lookup_insert_eq, Hd.
  - rewrite lookup_insert_ne, lookup_delete_ne; [done| |done]. intros ->. done.
Qed.

(** ** Deleting a key *)

Lemma delete_survives k f k' o :
  fs_wf f -> survives (set_dir (delete k (f_dir f)) f) k' o ->
  survives f k' o \/ (k' = k /\ o = None).
Proof.
  intros Hwf (d & Hdin & Hm). cbn in *.
  apply elem_snoc in Hdin as [Hdin| ->]; [left; by exists d|].
  destruct (decide (k = k')) as [->|Hne].
  - rewrite lookup_delete_eq in Hm. by right.
  - rewrite lookup_delete_ne in Hm by done. left. exists (f_dir f). split; [by apply fw_cur|done].
Qed.

Lemma delete_lookup k f m :
  f_lookup (set_dir (delete k (f_dir f)) f) m = if decide (m = k) then None else f_lookup f m.
Proof.
  unfold f_lookup. cbn. case_decide as E.
  - subst m. by rewrite lookup_delete_eq.
  - by rewrite lookup_delete_ne.
Qed.
