(* ===== verification/Sem.v ===== *)
(** The two SysV semaphores (src/src/sem.rs) as trees of system calls.

    Both loops retry on [EINTR] without bound; here they take fuel, and
    [lock_terminates] (SemThms) shows that any fuel above the number of
    interruptions gives the loops' own result. *)

From S2P Require Import Prelude Consts Names Segment Shm ShmTrace World.

(** Look up, creating if needed; [None] is the -1 of the source. *)
Definition sem_get (proj : Z) : io (option Z) :=
  do key <- sys (Ftok proj);
  match key with
  | None => iret None
  | Some key =>
    do got <- sys (SemgetExcl key);
    match got with
    | SemOk semid =>
      do ok <- sys (SemSetval semid);
      if (ok : bool) then iret (Some semid)
      else do _ <- sys (SemRmid semid); iret None
    | SemFailed => iret None
    | SemExists => sys (Semget key)
    end
  end.

Record Guard := mkGuard { g_semid : Z }.

(** The retry loop of [Guard::lock]. *)
Fixpoint lock_loop (fuel : nat) (semid : Z) : io (option Guard) :=
  match fuel with
  | O => iret None
  | S fuel' =>
    do r <- sys (SemDown semid);
    match r with
    | OpOk => iret (Some (mkGuard semid))
    | OpIntr => lock_loop fuel' semid
    | OpFailed => iret None
    end
  end.

Definition lock (fuel : nat) (proj : Z) : io (option Guard) :=
  do semid <- sem_get proj;
  match semid with
  | None => iret None
  | Some semid => lock_loop fuel semid
  end.

Definition acquire (fuel : nat) : io (option Guard) := lock fuel IPC_KEY.
Definition acquire_commit (fuel : nat) : io (option Guard) := lock fuel COMMIT_IPC_KEY.

(** [Drop for Guard] *)
Fixpoint drop_loop (fuel : nat) (semid : Z) : io unit :=
  match fuel with
  | O => iret tt
  | S fuel' =>
    do r <- sys (SemUp semid);
    match r with
    | OpOk | OpFailed => iret tt
    | OpIntr => drop_loop fuel' semid
    end
  end.

Definition drop_guard (fuel : nat) (g : Guard) : io unit := drop_loop fuel (g_semid g).

(** Dropping an [Option<Guard>]. *)
Definition drop_opt (fuel : nat) (g : option Guard) : io unit :=
  match g with Some g => drop_guard fuel g | None => iret tt end.
