(* ===== verification/SemInv.v ===== *)
(** What taking and releasing a lock can do to the rest of the world: nothing
    of ours, while the other processes may have had their turn. *)

From S2P Require Import Prelude Consts Hash Spec Layout Names Segment Shm ShmInv ShmTrace World Wp Sem.

(** Object [o] has its full size and holds [s]. *)
Definition seg_at (w : World) (o : Z) (s : Segment) : Prop :=
  w_objs w !! o = Some (mkObj SEGMENT_SIZE s).

(** The other processes' turns are operations a segment can undergo. *)
Definition turn_ok (t : turn) : Prop :=
  match t with Ops os => Forall op_ok os | Open _ => False end.

Definition others_ok (w : World) : Prop := Forall (fun b => turn_ok (snd b)) (w_others w).

(** The operations on object [o] among some turns, in order. *)
Fixpoint turns (o : Z) (bs : list (Z * turn)) : list op :=
  match bs with
  | [] => []
  | (o', Ops os) :: bs => (if o' =? o then os else []) ++ turns o bs
  | (_, Open _) :: bs => turns o bs
  end.

(** The turns the other processes have had between [w] and [w'], and their
    operations on object [o]. *)
Definition elapsed (w w' : World) : list (Z * turn) :=
  take (length (w_others w) - length (w_others w')) (w_others w).
Definition acts (w w' : World) (o : Z) : list op := turns o (elapsed w w').

Lemma turns_app o bs1 bs2 : turns o (bs1 ++ bs2) = turns o bs1 ++ turns o bs2.
Proof. induction bs1 as [|[o' [os|s]] bs1 IH]; [done| |done]. cbn. by rewrite IH, app_assoc. Qed.

Lemma turns_ok o bs : Forall (fun b => turn_ok (snd b)) bs -> Forall op_ok (turns o bs).
Proof.
  induction 1 as [|[o' [os|s]] bs H _ IH]; [done| |done]. cbn. apply Forall_app. split; [|done].
  by case_match.
Qed.

Lemma elapsed_prefix bs w w' : w_others w = bs ++ w_others w' -> elapsed w w' = bs.
Proof.
  intros H. unfold elapsed. rewrite H, length_app, Nat.add_sub. apply take_app_length.
Qed.

Lemma acts_prefix o bs w w' : w_others w = bs ++ w_others w' -> acts w w' o = turns o bs.
Proof. intros H. unfold acts. by rewrite (elapsed_prefix bs). Qed.

Lemma acts_same o w w' : w_others w' = w_others w -> acts w w' o = [].
Proof. intros H. by apply (acts_prefix o []). Qed.

Lemma acts_ok w w' o : others_ok w -> Forall op_ok (acts w w' o).
Proof. intros H. by apply turns_ok, Forall_take. Qed.

Lemma acts_end o w w1 w2 : w_others w2 = w_others w1 -> acts w w2 o = acts w w1 o.
Proof. intros H. unfold acts, elapsed. by rewrite H. Qed.

(** Some of the others' turns are over. *)
Definition onward (w w' : World) : Prop := exists bs, w_others w = bs ++ w_others w'.

#[export] Instance onward_pre : PreOrder onward.
Proof.
  split; [by exists []|]. intros w1 w2 w3 [b1 H1] [b2 H2]. exists (b1 ++ b2).
  by rewrite H1, H2, app_assoc.
Qed.

Lemma onward_same w w' : w_others w' = w_others w -> onward w w'.
Proof. by exists []. Qed.

Lemma onward_ok w w' : onward w w' -> others_ok w -> others_ok w'.
Proof. unfold others_ok. intros [bs ->] [_ H]%Forall_app. done. Qed.

Lemma acts_trans o w1 w2 w3 :
  onward w1 w2 -> onward w2 w3 -> acts w1 w3 o = acts w1 w2 o ++ acts w2 w3 o.
Proof.
  intros [b1 H1] [b2 H2]. rewrite (acts_prefix o b1 w1 w2 H1), (acts_prefix o b2 w2 w3 H2), <- turns_app.
  apply acts_prefix. by rewrite H1, H2, app_assoc.
Qed.

(** The directory and the names are as they were. *)
Record calm (w w' : World) : Prop := mk_calm {
  ca_fs : w_fs w' = w_fs w;
  ca_pid : w_pid w' = w_pid w;
  ca_name : w_name w' = w_name w;
  ca_next : w_nextobj w' = w_nextobj w
}.

#[export] Instance calm_equiv : Equivalence calm.
Proof.
  split.
  - by split.
  - intros w w' []. by split.
  - intros w1 w2 w3 [] []. split; congruence.
Qed.

(** [w'] follows [w] with other processes' operations in between, and
    nothing else. *)
Definition follows (w w' : World) : Prop :=
  calm w w' /\ onward w w' /\
  (others_ok w -> forall o s, seg_at w o s -> seg_at w' o (apply_all (acts w w' o) s)).

Lemma follows_same w w' :
  calm w w' -> w_objs w' = w_objs w -> w_others w' = w_others w -> follows w w'.
Proof.
  intros Hc Ho Hx. split_and!; [done|by apply onward_same|].
  intros _ o s Hs. rewrite (acts_same o w w' Hx). unfold seg_at in *. by rewrite Ho.
Qed.

Lemma apply_all_app os1 os2 s : apply_all (os1 ++ os2) s = apply_all os2 (apply_all os1 s).
Proof. revert s; induction os1 as [|o os1 IH]; intros s; [done|]. apply IH. Qed.

Lemma follows_refl w : follows w w.
Proof. by apply follows_same. Qed.

Lemma follows_trans w1 w2 w3 : follows w1 w2 -> follows w2 w3 -> follows w1 w3.
Proof.
  intros (Hc1 & Hl1 & Hs1) (Hc2 & Hl2 & Hs2). split_and!; [by etrans..|].
  intros Hok o s H. rewrite (acts_trans o w1 w2 w3 Hl1 Hl2), apply_all_app.
  apply Hs2; [by apply (onward_ok w1)|]. by apply Hs1.
Qed.

#[export] Hint Resolve follows_refl : nvram.

Lemma onward_others w : onward w (run_others w).
Proof. unfold onward. cbn. destruct (w_others w) as [|b rest]; [by exists []|by exists [b]]. Qed.

Lemma follows_others w : follows w (run_others w).
Proof.
  split_and!; [by split|apply onward_others|].
  intros Hok o s Hs. unfold seg_at in *. destruct (w_others w) as [|[o' t] rest] eqn:E.
  { rewrite (acts_prefix o []) by (cbn; by rewrite E). cbn. by rewrite E. }
  rewrite (acts_prefix o [(o', t)]) by (cbn; by rewrite E). cbn. rewrite E.
  unfold others_ok in Hok. rewrite E in Hok. inversion Hok as [|?? Ht _]; subst.
  destruct t as [os|s']; [|done]. cbn. rewrite app_nil_r.
  destruct (Z.eqb_spec o' o) as [->|Hne]; [by rewrite lookup_alter_eq, Hs|by rewrite lookup_alter_ne].
Qed.

(** ** The calls *)

Lemma follows_pop w : follows w (snd (pop_fault w)).
Proof. by apply follows_same. Qed.

Lemma follows_sems f w : follows w (upd_sems f w).
Proof. by apply follows_same. Qed.

Lemma handle_ftok proj w : follows w (snd (handle (Ftok proj) w)).
Proof. apply follows_pop. Qed.

Lemma handle_semgetexcl key w : follows w (snd (handle (SemgetExcl key) w)).
Proof.
  unfold handle. cbn [pop_fault]. case_if; [by apply follows_same|].
  cbn. case_match; by apply follows_same.
Qed.

Lemma handle_semget key w : follows w (snd (handle (Semget key) w)).
Proof. apply follows_pop. Qed.

Lemma handle_setval id w : follows w (snd (handle (SemSetval id) w)).
Proof. unfold handle. cbn [pop_fault]. case_if; by apply follows_same. Qed.

Lemma handle_rmid id w : follows w (snd (handle (SemRmid id) w)).
Proof. by apply follows_same. Qed.

Lemma handle_semdown id w : follows w (snd (handle (SemDown id) w)).
Proof.
  unfold handle. destruct (pop_fault w) as [x w1] eqn:Hp.
  assert (follows w w1) as H1 by (inversion Hp; by apply follows_same).
  unfold sem_down. destruct x; cbn [snd]; try done; destruct (w_sems w1 !! id); cbn [snd]; try done;
    (eapply follows_trans; [exact H1|]; eapply follows_trans; [apply follows_others|by apply follows_same]).
Qed.

Lemma handle_semup id w : follows w (snd (handle (SemUp id) w)).
Proof.
  unfold handle. destruct (pop_fault w) as [x w1] eqn:Hp.
  assert (follows w w1) as H1 by (inversion Hp; by apply follows_same).
  unfold sem_up. destruct x; cbn [snd]; try done; destruct (w_sems w1 !! id); cbn [snd]; try done;
    (eapply follows_trans; [exact H1|by apply follows_same]).
Qed.

(** One call of a chain. *)
Lemma wp_follows {R} I (c : call R) (Q : R -> World -> Prop) w0 w :
  (forall w', follows w0 w' -> I w') -> follows w0 w ->
  follows w (snd (handle c w)) ->
  (follows w0 (snd (handle c w)) -> Q (fst (handle c w)) (snd (handle c w))) ->
  wp I (sys c) Q w.
Proof.
  intros HI Hw Hc HQ. apply wp_sys; [by apply HI|].
  destruct (handle c w) as [r w']. cbn [fst snd] in *.
  assert (follows w0 w') by by eapply follows_trans. auto.
Qed.

Section locks.
Variables (I : World -> Prop) (w0 : World).
Hypothesis HI : forall w, follows w0 w -> I w.

Lemma wp_sem_get proj w : follows w0 w -> wp I (sem_get proj) (fun _ w' => follows w0 w') w.
Proof using HI.
  intros Hw. unfold sem_get. apply wp_bind, (wp_follows I _ _ w0); [done..|apply handle_ftok|].
  intros H1. destruct (fst _); [|apply wp_ret; auto].
  apply wp_bind, (wp_follows I _ _ w0); [done..|apply handle_semgetexcl|]. intros H2.
  destruct (fst _).
  - apply wp_bind, (wp_follows I _ _ w0); [done..|apply handle_setval|]. intros H3.
    destruct (fst _); [apply wp_ret; auto|].
    apply wp_bind, (wp_follows I _ _ w0); [done..|apply handle_rmid|]. intros H4.
    apply wp_ret; auto.
  - apply (wp_follows I _ _ w0); [done..|apply handle_semget|done].
  - apply wp_ret; auto.
Qed.

Lemma wp_lock_loop fuel semid w :
  follows w0 w -> wp I (lock_loop fuel semid) (fun _ w' => follows w0 w') w.
Proof using HI.
  revert w; induction fuel as [|n IH]; intros w Hw; cbn [lock_loop]; [apply wp_ret; auto|].
  apply wp_bind, (wp_follows I _ _ w0); [done..|apply handle_semdown|]. intros H1.
  destruct (fst _); [apply wp_ret; auto|by apply IH|apply wp_ret; auto].
Qed.

Lemma wp_lock fuel proj w : follows w0 w -> wp I (lock fuel proj) (fun _ w' => follows w0 w') w.
Proof using HI.
  intros Hw. unfold lock. apply wp_bind. eapply wp_mono; [by apply wp_sem_get|].
  intros [semid|] w1 _ H1; [by apply wp_lock_loop|apply wp_ret; auto].
Qed.

Lemma wp_drop_loop fuel semid w :
  follows w0 w -> wp I (drop_loop fuel semid) (fun _ w' => follows w0 w') w.
Proof using HI.
  revert w; induction fuel as [|n IH]; intros w Hw; cbn [drop_loop]; [apply wp_ret; auto|].
  apply wp_bind, (wp_follows I _ _ w0); [done..|apply handle_semup|]. intros H1.
  destruct (fst _); [apply wp_ret; auto|by apply IH|apply wp_ret; auto].
Qed.
End locks.

(** ** Releasing: the other processes have no turn yet *)

Record quiet (w w' : World) : Prop := mk_quiet {
  qu_calm : calm w w';
  qu_objs : w_objs w' = w_objs w;
  qu_others : w_others w' = w_others w
}.

#[export] Instance quiet_equiv : Equivalence quiet.
Proof.
  split.
  - by split.
  - intros w w' [Hc ? ?]. split; [by symmetry|done..].
  - intros w1 w2 w3 [] []. split; [by etrans|congruence..].
Qed.

Lemma quiet_seg_at w w' o s : quiet w w' -> seg_at w o s -> seg_at w' o s.
Proof. intros [_ Ho _] H. unfold seg_at. by rewrite Ho. Qed.

Lemma quiet_follows w w' : quiet w w' -> follows w w'.
Proof. intros []. by apply follows_same. Qed.

Lemma handle_semup_quiet id w : quiet w (snd (handle (SemUp id) w)).
Proof.
  unfold handle. destruct (pop_fault w) as [x w1] eqn:Hp.
  assert (quiet w w1) as H1 by (inversion Hp; by split).
  unfold sem_up. destruct x; cbn [snd]; try done; destruct (w_sems w1 !! id); cbn [snd];
    try done; (etrans; [exact H1|by split]).
Qed.

Lemma wp_drop I fuel g w0 w :
  (forall w', quiet w0 w' -> I w') -> quiet w0 w ->
  wp I (drop_guard fuel g) (fun _ w' => quiet w0 w') w.
Proof.
  intros HI. unfold drop_guard. revert w; induction fuel as [|n IH]; intros w Hw; cbn [drop_loop].
  { apply wp_ret; auto. }
  apply wp_bind, wp_sys; [auto|]. pose proof (handle_semup_quiet (g_semid g) w) as H.
  destruct (handle (SemUp (g_semid g)) w) as [r w']. cbn [snd] in H.
  assert (quiet w0 w') by by etrans. split; [auto|].
  destruct r; [apply wp_ret; auto|by apply IH|apply wp_ret; auto].
Qed.

(** ** Alone *)

(** With no other process about, taking a lock changes nothing either. *)
Lemma handle_alone_down id w :
  w_others w = [] -> quiet w (snd (handle (SemDown id) w)).
Proof.
  intros Ho. unfold handle. destruct (pop_fault w) as [x w1] eqn:Hp.
  assert (quiet w w1) as H1 by (inversion Hp; by split).
  unfold sem_down. destruct x; cbn [snd]; try done; destruct (w_sems w1 !! id); cbn [snd];
    try done; (etrans; [exact H1|]; pose proof (qu_others _ _ H1) as Ho1; rewrite Ho in Ho1;
    unfold run_others, upd_sems; rewrite Ho1; by split).
Qed.

Lemma wp_quiet {R} I (c : call R) (Q : R -> World -> Prop) w0 w :
  (forall w', quiet w0 w' -> I w') -> quiet w0 w -> quiet w (snd (handle c w)) ->
  (quiet w0 (snd (handle c w)) -> Q (fst (handle c w)) (snd (handle c w))) ->
  wp I (sys c) Q w.
Proof.
  intros HI Hw Hc HQ. apply wp_sys; [by apply HI|].
  destruct (handle c w) as [r w']. cbn [fst snd] in *.
  assert (quiet w0 w') by by etrans. auto.
Qed.

Lemma handle_alone_sem {R} (c : call R) w :
  match c with
  | Ftok _ | SemgetExcl _ | Semget _ | SemSetval _ | SemRmid _ => True
  | _ => False
  end -> quiet w (snd (handle c w)).
Proof.
  destruct c; try done; intros _; unfold handle; cbn [pop_fault];
    repeat (case_if || case_match); by split.
Qed.

Lemma wp_lock_alone I fuel proj w :
  (forall w', quiet w w' -> I w') -> w_others w = [] ->
  wp I (lock fuel proj) (fun _ w' => quiet w w') w.
Proof.
  intros HI Ho. assert (quiet w w) as H0 by done.
  assert (forall w', quiet w w' -> I w') as HI' by done.
  unfold lock. apply wp_bind. eapply (wp_mono I _ (fun _ w' => quiet w w')).
  { unfold sem_get. apply wp_bind, (wp_quiet I _ _ w); [done..|by apply handle_alone_sem|].
    intros H1. destruct (fst _); [|apply wp_ret; auto].
    apply wp_bind, (wp_quiet I _ _ w); [done..|by apply handle_alone_sem|]. intros H2.
    destruct (fst _).
    - apply wp_bind, (wp_quiet I _ _ w); [done..|by apply handle_alone_sem|]. intros H3.
      destruct (fst _); [apply wp_ret; auto|].
      apply wp_bind, (wp_quiet I _ _ w); [done..|by apply handle_alone_sem|]. intros H4.
      apply wp_ret; auto.
    - apply (wp_quiet I _ _ w); [done..|by apply handle_alone_sem|done].
    - apply wp_ret; auto. }
  intros [semid|] w1 Hi1 H1; [|by apply wp_ret].
  clear Hi1. revert w1 H1; induction fuel as [|n IH]; intros w1 H1; cbn [lock_loop];
    [apply wp_ret; auto|].
  apply wp_bind, (wp_quiet I _ _ w); [done..| |].
  { apply handle_alone_down. by rewrite (qu_others _ _ H1). }
  intros H2. destruct (fst _); [apply wp_ret; auto|by apply IH|apply wp_ret; auto].
Qed.

(** ** Without faults there are none later *)

Lemma on_fs_faults {R} (r : R * FS) w : w_faults (snd (on_fs r w)) = w_faults w.
Proof. done. Qed.

Lemma handle_faults_nil {R} (c : call R) w :
  w_faults w = [] -> w_faults (snd (handle c w)) = [].
Proof.
  intros H. assert (w_faults (snd (pop_fault w)) = []) as Hp by (cbn; by rewrite H).
  destruct c; unfold handle; destruct (pop_fault w) as [x w1]; cbn [snd] in Hp; try done;
    unfold handle_seg, sem_down, sem_up, shm_create; repeat case_match; done.
Qed.

Lemma exec_faults_nil {A} (m : io A) w :
  w_faults w = [] -> w_faults (snd (exec m w)) = [].
Proof.
  revert w; induction m as [a|R c k IH]; intros w H; unfold exec; fold (@exec A); [done|].
  pose proof (handle_faults_nil c w H). destruct (handle c w) as [r w']. by apply IH.
Qed.
