(* ===== verification/SemThms.v ===== *)
(** The retry loops of src/src/sem.rs return.

    The code repeats [semop] while it answers [EINTR], without a bound.
    [waits] and [releases] are those loops without fuel; a world interrupts a
    process finitely often, and any fuel above that number of interruptions
    gives the loops' own result. *)

From S2P Require Import Prelude Consts Names Segment Shm ShmTrace World Sem.

(** [loop { if semop(..) == 0 { return Some } if errno != EINTR { return None } }] *)
Inductive waits (semid : Z) : World -> option Guard -> World -> Prop :=
| waits_taken w w' :
  handle (SemDown semid) w = (OpOk, w') -> waits semid w (Some (mkGuard semid)) w'
| waits_failed w w' :
  handle (SemDown semid) w = (OpFailed, w') -> waits semid w None w'
| waits_again w w1 r w' :
  handle (SemDown semid) w = (OpIntr, w1) -> waits semid w1 r w' -> waits semid w r w'.

(** The loop of [Drop for Guard]. *)
Inductive releases (semid : Z) : World -> World -> Prop :=
| releases_done w r w' :
  handle (SemUp semid) w = (r, w') -> r <> OpIntr -> releases semid w w'
| releases_again w w1 w' :
  handle (SemUp semid) w = (OpIntr, w1) -> releases semid w1 w' -> releases semid w w'.

(** How often in a row the next calls are interrupted. *)
Fixpoint interrupts (xs : list fault) : nat :=
  match xs with
  | Intr :: xs => S (interrupts xs)
  | _ => O
  end.

(** * One round *)

Lemma sem_down_round semid w :
  (exists w1, handle (SemDown semid) w = (OpIntr, w1) /\
     interrupts (w_faults w) = S (interrupts (w_faults w1))) \/
  (exists r w1, handle (SemDown semid) w = (r, w1) /\ r <> OpIntr /\
     interrupts (w_faults w) = O).
Proof.
  unfold handle, pop_fault, sem_down.
  destruct (w_faults w) as [|[] xs]; cbn [hd tl w_faults w_sems interrupts];
    try (right; case_match; eauto; fail); [right; eauto..|left; eauto].
Qed.

Lemma sem_up_round semid w :
  (exists w1, handle (SemUp semid) w = (OpIntr, w1) /\
     interrupts (w_faults w) = S (interrupts (w_faults w1))) \/
  (exists r w1, handle (SemUp semid) w = (r, w1) /\ r <> OpIntr /\
     interrupts (w_faults w) = O).
Proof.
  unfold handle, pop_fault, sem_up.
  destruct (w_faults w) as [|[] xs]; cbn [hd tl w_faults w_sems interrupts];
    try (right; case_match; eauto; fail); [right; eauto..|left; eauto].
Qed.

Lemma exec_call {R A} (c : call R) (k : R -> io A) w r w1 :
  handle c w = (r, w1) -> exec (ibind (sys c) k) w = exec (k r) w1.
Proof. intros E. by rewrite exec_bind, exec_sys, E. Qed.

(** * The loops *)

Lemma lock_loop_waits semid n w :
  interrupts (w_faults w) = n -> exists r w',
    waits semid w r w' /\
    forall fuel, (n < fuel)%nat -> exec (lock_loop fuel semid) w = (r, w').
Proof.
  revert w; induction n as [|n IH]; intros w Hn.
  - destruct (sem_down_round semid w) as [(w1 & _ & E)|(r & w1 & E & Hr & _)]; [congruence|].
    destruct r; [| |].
    + exists (Some (mkGuard semid)), w1. split; [by constructor|].
      intros [|fuel] Hf; [lia|]. cbn [lock_loop]. by rewrite (exec_call _ _ _ _ _ E).
    + done.
    + exists None, w1. split; [by constructor|].
      intros [|fuel] Hf; [lia|]. cbn [lock_loop]. by rewrite (exec_call _ _ _ _ _ E).
  - destruct (sem_down_round semid w) as [(w1 & E & Hi)|(r & w1 & _ & _ & E)]; [|congruence].
    destruct (IH w1) as (r & w' & Hw & Hf); [congruence|].
    exists r, w'. split; [by eapply waits_again|].
    intros [|fuel] Hl; [lia|]. cbn [lock_loop]. rewrite (exec_call _ _ _ _ _ E). apply Hf. lia.
Qed.

Lemma drop_loop_releases semid n w :
  interrupts (w_faults w) = n -> exists w',
    releases semid w w' /\
    forall fuel, (n < fuel)%nat -> exec (drop_loop fuel semid) w = (tt, w').
Proof.
  revert w; induction n as [|n IH]; intros w Hn.
  - destruct (sem_up_round semid w) as [(w1 & _ & E)|(r & w1 & E & Hr & _)]; [congruence|].
    exists w1. split; [by eapply releases_done|].
    intros [|fuel] Hf; [lia|]. cbn [drop_loop]. rewrite (exec_call _ _ _ _ _ E). by destruct r.
  - destruct (sem_up_round semid w) as [(w1 & E & Hi)|(r & w1 & _ & _ & E)]; [|congruence].
    destruct (IH w1) as (w' & Hw & Hf); [congruence|].
    exists w'. split; [by eapply releases_again|].
    intros [|fuel] Hl; [lia|]. cbn [drop_loop]. rewrite (exec_call _ _ _ _ _ E). apply Hf. lia.
Qed.

(** The relations are deterministic, so "the loop's own result" is one. *)
Lemma waits_functional semid w r1 w1 r2 w2 :
  waits semid w r1 w1 -> waits semid w r2 w2 -> r1 = r2 /\ w1 = w2.
Proof.
  intros H; revert r2 w2; induction H as [w w' E|w w' E|w wi r w' E _ IH];
    intros r2 w2 H2; inversion H2; subst; try (split; congruence).
  apply IH. congruence.
Qed.

(** C30: taking and releasing a lock terminates: in every world, however many
    signals arrive, [Guard::lock]'s retry loop and the one in [Drop for Guard]
    end after as many rounds as there are interruptions, each in the one
    outcome the unbounded loop has, and any larger fuel gives that outcome
    again.  A failed [semop] other than an interruption ends the loop with
    [None] at once. *)
Theorem lock_terminates (semid : Z) (w : World) :
  (exists r w', waits semid w r w' /\
     (forall r2 w2, waits semid w r2 w2 -> r2 = r /\ w2 = w') /\
     forall fuel, (interrupts (w_faults w) < fuel)%nat ->
       exec (lock_loop fuel semid) w = (r, w')) /\
  (exists w', releases semid w w' /\
     forall fuel, (interrupts (w_faults w) < fuel)%nat ->
       exec (drop_guard fuel (mkGuard semid)) w = (tt, w')).
Proof.
  split; [|by apply drop_loop_releases].
  destruct (lock_loop_waits semid _ w eq_refl) as (r & w' & Hw & Hf).
  exists r, w'. split_and!; [done| |done]. intros r2 w2 H2. by eapply waits_functional.
Qed.
