(* ===== verification/Attach.v ===== *)
(** The life of the segment (src/src/shm.rs, "construction"): attach, create,
    map, validate, unlink.  A [Segment] value of a process is the object it
    has mapped. *)

From S2P Require Import Prelude Consts Layout Names Segment Shm ShmTrace World Disk Sem.

Section attach.
Variable fuel : nat.

Definition map (fd : Z) : io (result Z) :=
  do size <- sys (Fstat fd);
  let sized := match size with Some size => SEGMENT_SIZE <=? size | None => false end in
  if negb sized then iret Err
  else
    do ok <- sys (Mmap fd);
    iret (if (ok : bool) then Ok fd else Err).

Definition validate (seg : Z) : io (result unit) :=
  do ready <- sys (Seg seg (loadc CReady));
  do ready <-
    (if ready =? 0 then
       do g <- acquire fuel;
       drop_opt fuel g;;
       sys (Seg seg (loadc CReady))
     else iret ready);
  if ready =? 0 then iret Err
  else
    do magic <- sys (Seg seg (loadc CMagic));
    if negb (magic =? SHM_MAGIC) then iret Err
    else
      do version <- sys (Seg seg (loadc CVersion));
      if negb (version =? SHM_VERSION) then iret Err
      else
        do dev <- store_dev;
        match dev with
        | None => iret Err
        | Some dev =>
          do own <- sys (Seg seg (loadc CStoreDev));
          iret (if dev =? own then Ok tt else Err)
        end.

Definition attach : io (result Z) :=
  do fd <- sys ShmOpen;
  match fd with
  | None => iret Err
  | Some fd =>
    do seg <- map fd;
    match seg with
    | Err => iret Err
    | Ok seg =>
      do ok <- validate seg;
      iret (match ok with Ok _ => Ok seg | Err => Err end)
    end
  end.

Definition unlink : io unit := sys ShmUnlink.

(** The header stores of [create]. *)
Definition init_header (dev : Z) : prog unit :=
  storec CMagic SHM_MAGIC ;!
  storec CVersion SHM_VERSION ;!
  storec CStoreDev dev ;!
  storec CArenaUsed 0 ;!
  storec CArenaGarbage 0.

(** [create], once the name is ours. *)
Definition create_fill (populate : Z -> io (result unit)) (fd : Z) : io (result Z) :=
  do guard <- acquire fuel;
  do sized <- sys (Ftruncate fd SEGMENT_SIZE);
  if negb sized then
    sys ShmUnlink;; drop_opt fuel guard;; iret Err
  else
    do seg <- map fd;
    match seg with
    | Err => sys ShmUnlink;; drop_opt fuel guard;; iret Err
    | Ok seg =>
      do dev <- store_dev;
      match dev with
      | None => drop_opt fuel guard;; sys ShmUnlink;; iret Err
      | Some dev =>
        sys (Seg seg (init_header dev));;
        do ok <- populate seg;
        match ok with
        | Err => drop_opt fuel guard;; sys ShmUnlink;; iret Err
        | Ok _ =>
          sys (Seg seg (storec CReady 1));;
          drop_opt fuel guard;;
          iret (Ok seg)
        end
      end
    end.

Definition create (populate : Z -> io (result unit)) : io (result Z) :=
  do fd <- sys ShmCreateExcl;
  match fd with
  | None =>
    do seg <- attach;
    match seg with
    | Ok seg => iret (Ok seg)
    | Err =>
      do g <- acquire fuel;
      drop_opt fuel g;;
      attach
    end
  | Some fd => create_fill populate fd
  end.
End attach.
