(* ===== verification/Store.v ===== *)
(** Orchestration across the three tiers (src/src/store.rs): the process
    store and its operations, as trees of system calls and segment programs.

    [fuel] bounds the two [EINTR] retry loops of the semaphores; nothing else
    here loops without a bound of its own. *)

From S2P Require Import Prelude Consts Hash Layout Names Segment Shm Cache ShmTrace World Disk Sem Attach.

Record Store := mkStore {
  s_seg : option Z;
  s_cache : Cache;
  s_heap : heap;
  s_detached : Z
}.

Definition with_cache (st : Store) (ch : Cache * heap) : Store :=
  mkStore (s_seg st) (fst ch) (snd ch) (s_detached st).

(** A pending item with the temporary file it was staged in, if any. *)
Abbreviation staged := (Pending * option bytes)%type.

Section store.
Context `{AL : Allocator}.
Variable fuel : nat.

(** * Construction *)

(** [heap0] is the process heap at that moment. *)
Definition new (heap0 : heap) : io Store :=
  do seg <- attach fuel;
  iret (mkStore (match seg with Ok s => Some s | Err => None end) ∅ heap0 0).

Definition adopt (st : Store) (seg : Z) : Store :=
  let (c, h) := invalidate_all (s_cache st) (s_heap st) in
  mkStore (Some seg) c h 0.

Definition reattach (st : Store) : io Store :=
  match s_seg st with
  | Some _ => iret st
  | None =>
    let n := s_detached st in
    let st := mkStore (s_seg st) (s_cache st) (s_heap st) (u32 (n + 1)) in
    if negb (n mod REATTACH_INTERVAL =? 0) then iret st
    else
      do seg <- attach fuel;
      iret (match seg with Ok s => adopt st s | Err => st end)
  end.

(** The closure [init] populates with: did every key land? *)
Definition preload (seg : Z) (k v : bytes) (failed : bool) : io bool :=
  do r <- sys (Seg seg (Shm.put k v false));
  iret (if is_ok r then failed else true).

Definition populate (seg : Z) : io (result unit) :=
  do walked <- load_all (preload seg) false;
  iret (match walked with
        | Err => Err
        | Ok failed => if (failed : bool) then Err else Ok tt
        end).

Definition init (st : Store) : io (bool * Store) :=
  match s_seg st with
  | Some _ => iret (true, st)
  | None =>
    do avail <- store_available;
    do dev <- (if negb avail then iret None else store_dev);
    match dev with
    | None => iret (false, st)
    | Some _ =>
      do seg <- attach fuel;
      match seg with
      | Ok s => iret (true, adopt st s)
      | Err =>
        unlink;;
        do created <- create fuel populate;
        iret (match created with
              | Ok s => (true, adopt st s)
              | Err => (false, st)
              end)
      end
    end
  end.

(** * Reading *)

(** Install a value and hand out its pointer. *)
Definition install_ptr (st : Store) (key : bytes) (fresh : option bytes) (seen : Z) : Z * Store :=
  let (e, c) := entry key (s_cache st) in
  let (e, h) := install e fresh seen (s_heap st) in
  (as_ptr e, with_cache st (<[key := e]> c, h)).

Definition get_degraded (st : Store) (key : bytes) : io (Z * Store) :=
  do fresh <- read_one key;
  let (e, c) := entry key (s_cache st) in
  let (e, h) := install e fresh 0 (s_heap st) in
  let e := mkCacheEntry (ce_value e) (ce_retired e) (ce_slot_seen e) false in
  iret (as_ptr e, with_cache st (<[key := e]> c, h)).

(** The lock-free attempts: what was read, and the version it was read at. *)
Fixpoint read_loop (n : nat) (seg : Z) (key : bytes) (hash slot : Z)
    : io (option (option bytes * Z)) :=
  match n with
  | O => iret None
  | S n' =>
    do before <- sys (Seg seg (slot_value slot));
    do r <- sys (Seg seg (read_value key hash));
    match r with
    | Value v => iret (Some (Some v, before))
    | Absent => iret (Some (None, before))
    | Torn => read_loop n' seg key hash slot
    end
  end.

(** The torn-read fallback, under the writer lock. *)
Definition read_locked (seg : Z) (key : bytes) (hash slot : Z) : io (option (option bytes * Z)) :=
  do guard <- acquire fuel;
  match guard with
  | None => iret None
  | Some g =>
    do _ <- sys (Seg seg (repair_seq slot));
    do r <- sys (Seg seg (read_value key hash));
    do out <-
      match r with
      | Value v => do seen <- sys (Seg seg (slot_value slot)); iret (Some (Some v, seen))
      | Absent => do seen <- sys (Seg seg (slot_value slot)); iret (Some (None, seen))
      | Torn => iret None
      end;
    drop_guard fuel g;;
    iret out
  end.

(** [get] past the cache. *)
Definition get_miss (st : Store) (seg : Z) (key : bytes) (hash slot : Z) : io (Z * Store) :=
  do r <- read_loop (Z.to_nat MAX_SEQ_RETRIES) seg key hash slot;
  do r <- match r with
          | Some _ => iret r
          | None => read_locked seg key hash slot
          end;
  match r with
  | Some (fresh, seen) => iret (install_ptr st key fresh seen)
  | None => get_degraded st key
  end.

Definition get (st : Store) (key : bytes) : io (Z * Store) :=
  do st <- reattach st;
  match s_seg st with
  | None => get_degraded st key
  | Some seg =>
    let hash := fnv1a key in
    let slot := slot_of hash in
    let (e, c) := entry key (s_cache st) in
    let st := with_cache st (c, s_heap st) in
    if ce_valid e then
      do cur <- sys (Seg seg (slot_value slot));
      if ce_slot_seen e =? cur then iret (as_ptr e, st)
      else get_miss st seg key hash slot
    else get_miss st seg key hash slot
  end.

(** * Writing *)

Definition value_matches (st : Store) (key val : bytes) : io (bool * Store) :=
  match s_seg st with
  | None => iret (false, st)
  | Some seg =>
    do cur <- sys (Seg seg (slot_value (slot_of (fnv1a key))));
    let (e, c) := entry key (s_cache st) in
    let st := with_cache st (c, s_heap st) in
    iret (if negb (ce_valid e) || negb (ce_slot_seen e =? cur) then false
          else match ce_value e with
               | Some a => same_value (deref (s_heap st) a) val
               | None => false
               end, st)
  end.

Definition set (st : Store) (key val : bytes) : io (bool * Store) :=
  if negb (valid_key key) then iret (false, st)
  else
    do st <- reattach st;
    do m <- value_matches st key val;
    let (same, st) := (m : bool * Store) in
    if same then iret (true, st)
    else
      match s_seg st with
      | None =>
        do ok <- write_atomic key val;
        iret (match ok with
              | Ok _ => (true, snd (install_ptr st key (Some val) 0))
              | Err => (false, st)
              end)
      | Some seg =>
        do guard <- acquire fuel;
        match guard with
        | None => iret (false, st)
        | Some g =>
          do res <- sys (Seg seg (Shm.put key val true));
          do seen <- sys (Seg seg (slot_value (slot_of (fnv1a key))));
          drop_guard fuel g;;
          iret (if is_ok res then (true, snd (install_ptr st key (Some val) seen))
                else (false, st))
        end
      end.

Definition unset (st : Store) (key : bytes) : io (bool * Store) :=
  if negb (valid_key key) then iret (false, st)
  else
    do st <- reattach st;
    match s_seg st with
    | None =>
      do ok <- Disk.remove key;
      iret (match ok with
            | Ok _ => (true, snd (install_ptr st key None 0))
            | Err => (false, st)
            end)
    | Some seg =>
      do guard <- acquire fuel;
      match guard with
      | None => iret (false, st)
      | Some g =>
        do _ <- sys (Seg seg (Shm.remove key true));
        do seen <- sys (Seg seg (slot_value (slot_of (fnv1a key))));
        drop_guard fuel g;;
        iret (true, snd (install_ptr st key None seen))
      end
    end.

(** * Commit *)

(** 2a: stage one pending item; the state is the staged list, whether any
    file was staged, and whether all went well. *)
Definition stage_one (p : Pending) (acc : list staged * bool * bool)
    : io (list staged * bool * bool) :=
  let '(done, any, all_ok) := acc in
  match p_val p with
  | Some v =>
    do t <- stage (p_key p) v;
    iret (match t with
          | Ok tmp => (done ++ [(p, Some tmp)], true, all_ok)
          | Err => (done, any, false)
          end)
  | None => iret (done ++ [(p, None)], any, all_ok)
  end.

Definition discard_one (x : staged) (_ : unit) : io unit :=
  match snd x with Some t => discard t | None => iret tt end.

(** 2c: publish one staged item; the state is what got there, and whether all
    did. *)
Definition publish_one (x : staged) (acc : list Pending * bool) : io (list Pending * bool) :=
  let (p, tmp) := x in
  do ok <- match tmp with
           | Some t => publish t (p_key p)
           | None => Disk.remove (p_key p)
           end;
  iret (if is_ok ok then (fst acc ++ [p], snd acc) else (fst acc, false)).

(** Phase 2: stage, flush, publish.  [None] when the flush failed and nothing
    was published. *)
Definition write_out (pending : list Pending) : io (option (list Pending * bool)) :=
  do acc <- ifoldM pending ([], false, true) stage_one;
  let '(st, any, all_ok) := acc in
  do flushed <- (if (any : bool) then sync_store else iret true);
  if negb flushed then
    ifoldM st tt discard_one;; iret None
  else
    do r <- ifoldM st ([], all_ok) publish_one;
    iret (Some r).

(** [commit] under the commit lock. *)
Definition commit_locked (seg : Z) : io bool :=
  do guard <- acquire fuel;
  match guard with
  | None => iret false
  | Some g =>
    do pending <- sys (SegAsk seg commit_snapshot);
    drop_guard fuel g;;
    do r <- write_out pending;
    match r with
    | None => iret false
    | Some (done, all_ok) =>
      do unlocked <-
        (if bool_decide (done = []) then iret true
         else
           do guard <- acquire fuel;
           match guard with
           | None => iret false
           | Some g =>
             sys (Seg seg (commit_writeback done));;
             drop_guard fuel g;;
             iret true
           end);
      if negb unlocked then iret false
      else
        do synced <- sync_store;
        iret (all_ok && synced)
    end
  end.

Definition commit (st : Store) : io (bool * Store) :=
  do st <- reattach st;
  match s_seg st with
  | None => do ok <- sync_store; iret (ok, st)
  | Some seg =>
    do guard <- acquire_commit fuel;
    match guard with
    | None => iret (false, st)
    | Some g =>
      do ok <- commit_locked seg;
      drop_guard fuel g;;
      iret (ok, st)
    end
  end.

(** * Clear *)

Definition clear (st : Store) : io (bool * Store) :=
  do st <- reattach st;
  do commit_guard <- acquire_commit fuel;
  match commit_guard with
  | None => iret (false, st)
  | Some cg =>
    do guard <- acquire fuel;
    match guard with
    | None => drop_guard fuel cg;; iret (false, st)
    | Some g =>
      match s_seg st with
      | Some seg => sys (Seg seg Shm.clear)
      | None => iret tt
      end;;
      do ok <- remove_all;
      drop_guard fuel g;;
      let st := with_cache st (invalidate_all (s_cache st) (s_heap st)) in
      do synced <- sync_store;
      drop_guard fuel cg;;
      iret (is_ok ok && synced, st)
    end
  end.

(** * Enumeration *)

(** The caller's buffer, the write position, and whether anything was left
    out. *)
Record Out := mkOut { o_buf : bytes; o_pos : Z; o_over : bool }.

(** [copy_nonoverlapping] into the buffer at [pos]. *)
Definition write_at (buf : bytes) (pos : Z) (bs : bytes) : bytes :=
  take (Z.to_nat pos) buf ++ bs ++ drop (Z.to_nat pos + length bs) buf.

Definition emit (ln : Z) (key val : bytes) (o : Out) : Out :=
  if o_over o then o
  else
    let need := len key + 1 + len val + 1 in
    if ln <? o_pos o + need + 1 then mkOut (o_buf o) (o_pos o) true
    else
      let pos := o_pos o in
      let b := write_at (o_buf o) pos key in
      let pos := pos + len key in
      let b := write_at b pos [61] in
      let pos := pos + 1 in
      let b := write_at b pos val in
      let pos := pos + len val in
      let b := write_at b pos [0] in
      mkOut b (pos + 1) false.

Definition terminate (ln : Z) (o : Out) : bytes := write_at (o_buf o) (Z.min (o_pos o) (ln - 1)) [0].

(** [buf] is [None] for a null pointer, and otherwise the [ln] bytes there. *)
Definition getall (st : Store) (buf : option bytes) (ln : Z) : io (bool * option bytes * Store) :=
  do st <- reattach st;
  match buf with
  | None => iret (false, None, st)
  | Some b =>
    if ln =? 0 then iret (false, Some b, st)
    else
      let o := mkOut b 0 false in
      do r <-
        match s_seg st with
        | Some seg =>
          do guard <- acquire fuel;
          match guard with
          | None => iret None
          | Some g =>
            do o <- sys (Seg seg (for_each_live (emit ln) o));
            drop_guard fuel g;;
            iret (Some o)
          end
        | None =>
          do r <- load_all (fun k v o => iret (emit ln k v o)) o;
          iret (Some (match r with Ok o => o | Err => o end))
        end;
      match r with
      | None => iret (false, Some b, st)
      | Some o => iret (negb (o_over o), Some (terminate ln o), st)
      end
  end.
End store.
