(* ===== verification/ParseInt.v ===== *)
(** [nvram_get_int]'s number parser (src/src/lib.rs, [parse_int]). *)

From S2P Require Import Prelude Consts Names.

(** [str::trim] strips Unicode white space; these are its UTF-8 encodings. *)
Definition white_spaces : list bytes :=
  [[9]; [10]; [11]; [12]; [13]; [32]; [0xC2; 0x85]; [0xC2; 0xA0]; [0xE1; 0x9A; 0x80];
   [0xE2; 0x80; 0x80]; [0xE2; 0x80; 0x81]; [0xE2; 0x80; 0x82]; [0xE2; 0x80; 0x83];
   [0xE2; 0x80; 0x84]; [0xE2; 0x80; 0x85]; [0xE2; 0x80; 0x86]; [0xE2; 0x80; 0x87];
   [0xE2; 0x80; 0x88]; [0xE2; 0x80; 0x89]; [0xE2; 0x80; 0x8A]; [0xE2; 0x80; 0xA8];
   [0xE2; 0x80; 0xA9]; [0xE2; 0x80; 0xAF]; [0xE2; 0x81; 0x9F]; [0xE3; 0x80; 0x80]].

(** Length of the white-space character [bs] starts with, 0 if none. *)
Definition space_len (spaces : list bytes) (bs : bytes) : nat :=
  match list_find (fun sp => starts_with sp bs = true) spaces with
  | Some (_, sp) => length sp
  | None => 0
  end.

Fixpoint strip (spaces : list bytes) (fuel : nat) (bs : bytes) : bytes :=
  match fuel with
  | O => bs
  | S fuel' =>
    match space_len spaces bs with
    | O => bs
    | n => strip spaces fuel' (drop n bs)
    end
  end.

(** From both ends; no encoding of a character is longer than the text. *)
Definition trim (bs : bytes) : bytes :=
  let bs := strip white_spaces (length bs) bs in
  rev (strip (List.map (@rev Z) white_spaces) (length bs) (rev bs)).

Definition is_digit (b : Z) : bool := between 48 57 b.

Fixpoint span_digits (bs : bytes) : bytes :=
  match bs with
  | b :: bs' => if is_digit b then b :: span_digits bs' else []
  | [] => []
  end.

(** [s[..end]]: an optional sign and the digits after it. *)
Definition int_prefix (bs : bytes) : bytes :=
  match bs with
  | b :: bs' => if (b =? 45) || (b =? 43) then b :: span_digits bs' else span_digits bs
  | [] => []
  end.

Definition digits_value (ds : bytes) : Z := foldl (fun n d => 10 * n + (d - 48)) 0 ds.

(** [str::parse::<i32>] on such a prefix: at least one digit, and in range. *)
Definition parse_i32 (bs : bytes) : option Z :=
  let (neg, ds) := match bs with
                   | b :: ds =>
                     if b =? 45 then (true, ds)
                     else if b =? 43 then (false, ds)
                     else (false, bs)
                   | [] => (false, bs)
                   end in
  match ds with
  | [] => None
  | _ =>
    let z := (if neg : bool then - digits_value ds else digits_value ds) in
    if (- 2 ^ 31 <=? z) && (z <? 2 ^ 31) then Some z else None
  end.

Definition parse_int (bs : bytes) : Z :=
  if negb (utf8 bs) then 0
  else default 0 (parse_i32 (int_prefix (trim bs))).
