(* ===== verification/ParseIntInv.v ===== *)
(** Decimal text in and out: what [parse_int] makes of a number with text
    after it. *)

From S2P Require Import Prelude Consts Names ParseInt.

(** A number as [format!("{}")] prints an [i32]. *)
Definition show_int (z : Z) : bytes :=
  if z <? 0 then 45 :: digits 10 (- z) [] else digits 10 z [].

Lemma digits_value_app a d : digits_value (a ++ [d]) = 10 * digits_value a + (d - 48).
Proof. unfold digits_value. by rewrite foldl_app. Qed.

Lemma digits_spec n z acc :
  0 <= z < 10 ^ Z.of_nat (S n) ->
  exists ds, digits (S n) z acc = ds ++ acc /\ Forall (fun d => is_digit d = true) ds /\
    ds <> [] /\ digits_value ds = z.
Proof.
  revert z acc; induction n as [|n IH]; intros z acc Hz.
  - exists [48 + z mod 10]. change (Z.of_nat 1) with 1 in Hz. rewrite Z.pow_1_r in Hz.
    cbn [digits]. destruct (Z.ltb_spec z 10); [|lia]. rewrite Z.mod_small by lia.
    split_and!; [done| |done|unfold digits_value; cbn; lia].
    constructor; [|constructor]. unfold is_digit, between. lia.
  - assert (is_digit (48 + z mod 10) = true) as Hd.
    { pose proof (Z.mod_pos_bound z 10). unfold is_digit, between. lia. }
    change (digits (S (S n)) z acc) with
      (if z <? 10 then (48 + z mod 10) :: acc else digits (S n) (z / 10) ((48 + z mod 10) :: acc)).
    destruct (Z.ltb_spec z 10).
    + exists [48 + z mod 10]. rewrite Z.mod_small in * by lia.
      split_and!; [done|by constructor|done|unfold digits_value; cbn; lia].
    + destruct (IH (z / 10) ((48 + z mod 10) :: acc)) as (ds & E & Hds & Hne & Hv).
      { rewrite (Nat2Z.inj_succ (S n)), Z.pow_succ_r in Hz by lia. split.
        - by apply Z.div_pos; lia.
        - apply Z.div_lt_upper_bound; lia. }
      exists (ds ++ [48 + z mod 10]). rewrite E, <- app_assoc. split_and!; [done| |by destruct ds|].
      * apply Forall_app. split; [done|by constructor].
      * rewrite digits_value_app, Hv. pose proof (Z.div_mod z 10). lia.
Qed.

(** The text after a number does not go on with a digit. *)
Definition no_digit (junk : bytes) : Prop :=
  match junk with b :: _ => is_digit b = false | [] => True end.

Lemma span_digits_app ds junk :
  Forall (fun d => is_digit d = true) ds -> no_digit junk -> span_digits (ds ++ junk) = ds.
Proof.
  intros Hds Hj. induction Hds as [|d ds Hd Hds IH]; cbn.
  - destruct junk as [|b junk]; [done|]. cbn in *. by rewrite Hj.
  - by rewrite Hd, IH.
Qed.

(** * Trimming *)

Lemma starts_with_inv p bs : starts_with p bs = true -> exists r, bs = p ++ r.
Proof.
  revert bs; induction p as [|x p IH]; intros bs H; [by exists bs|].
  destruct bs as [|y bs]; [done|]. cbn in H. apply andb_true_iff in H as [->%Z.eqb_eq H].
  destruct (IH bs H) as [r ->]. by exists r.
Qed.

(** A byte no space contains ends the stripping. *)
Lemma strip_stops (spaces : list bytes) b y :
  (forall sp, sp ∈ spaces -> b ∉ sp) ->
  forall n a, exists a', strip spaces n (a ++ b :: y) = a' ++ b :: y /\ exists c, a = c ++ a'.
Proof.
  intros Hb n. induction n as [|n IH]; intros a; [by exists a; split; [|exists []]|].
  cbn [strip]. unfold space_len. destruct (list_find _ spaces) as [[i sp]|] eqn:E.
  2: { by exists a; split; [|exists []]. }
  apply list_find_Some in E as (Hi & [r Hr]%starts_with_inv & _).
  destruct (length sp) as [|m] eqn:Hm; [by exists a; split; [|exists []]|].
  assert (exists a1, a = sp ++ a1) as [a1 ->].
  { apply app_eq_inv in Hr as [(k & Ha & _)|(k & Ha & Hk)]; [by exists k|].
    destruct k as [|x k]; [exists []; by rewrite app_nil_r in Ha; rewrite app_nil_r|].
    exfalso. injection Hk as <- _. apply (Hb sp).
    - by eapply list_elem_of_lookup_2.
    - rewrite Ha. apply elem_of_app. right. apply list_elem_of_here. }
  rewrite <- Hm, <- app_assoc, drop_app_length.
  destruct (IH a1) as (a' & E & c & ->). exists a'. split; [done|]. exists (sp ++ c). by rewrite <- app_assoc.
Qed.

Definition is_space_byte (b : Z) : bool := existsb (existsb (Z.eqb b)) white_spaces.

Lemma not_space b sp : is_space_byte b = false -> sp ∈ white_spaces -> b ∉ sp.
Proof.
  intros H Hsp Hb. assert (is_space_byte b = true); [|congruence].
  unfold is_space_byte. apply existsb_exists. exists sp. split; [by apply list_elem_of_In|].
  apply existsb_exists. exists b. split; [by apply list_elem_of_In|]. apply Z.eqb_refl.
Qed.

Lemma digit_not_space b : is_digit b || (b =? 45) = true -> is_space_byte b = false.
Proof.
  intros H. assert (b ∈ [45; 48; 49; 50; 51; 52; 53; 54; 55; 56; 57]) as Hin.
  { unfold is_digit, between in H.
    assert (b = 45 \/ b = 48 \/ b = 49 \/ b = 50 \/ b = 51 \/ b = 52 \/ b = 53 \/ b = 54 \/
      b = 55 \/ b = 56 \/ b = 57) as Hc by lia.
    rewrite !elem_of_cons. tauto. }
  revert Hin. by repeat (intros [->|Hin]%elem_of_cons; [vm_compute; reflexivity|revert Hin]) || intros ?%elem_of_nil.
Qed.

(** Trimming text whose first byte is no space keeps everything up to its last
    such byte. *)
Lemma trim_app x b b' m m' junk :
  x = b :: m -> x = m' ++ [b'] -> is_space_byte b = false -> is_space_byte b' = false ->
  exists junk' c, trim (x ++ junk) = x ++ junk' /\ junk = junk' ++ c.
Proof.
  intros Hx Hx' Hb Hb'. unfold trim.
  assert (strip white_spaces (length (x ++ junk)) (x ++ junk) = x ++ junk) as ->.
  { generalize (length (x ++ junk)) as n. intros n. rewrite Hx. cbn [app].
    destruct (strip_stops white_spaces b (m ++ junk) (fun sp => not_space b sp Hb) n []) as (a & E & c & Ha).
    symmetry in Ha. by apply app_eq_nil in Ha as [-> ->]. }
  generalize (length (x ++ junk)) as n. intros n.
  assert (forall sp, sp ∈ List.map (@rev Z) white_spaces -> b' ∉ sp) as Hrev.
  { intros sp Hsp Hel. apply list_elem_of_In, in_map_iff in Hsp as (sp0 & <- & Hin).
    apply (not_space b' sp0 Hb'); [by apply list_elem_of_In|].
    by apply list_elem_of_In, in_rev, list_elem_of_In. }
  rewrite rev_app_distr. assert (rev x = b' :: rev m') as -> by (rewrite Hx', rev_app_distr; done).
  destruct (strip_stops _ b' (rev m') Hrev n (rev junk)) as (a & E & c & Hc). rewrite E.
  exists (rev a), (rev c). split.
  - rewrite rev_app_distr. cbn [rev]. by rewrite rev_involutive, <- Hx'.
  - by rewrite <- rev_app_distr, <- Hc, rev_involutive.
Qed.

Lemma no_digit_prefix junk junk' c : junk = junk' ++ c -> no_digit junk -> no_digit junk'.
Proof. intros ->. by destruct junk'. Qed.

Lemma utf8_ascii b r : between 0 0x7F b = true -> utf8 (b :: r) = utf8 r.
Proof. intros H. cbn [utf8]. by rewrite H. Qed.

Lemma utf8_number ds junk :
  Forall (fun d => is_digit d || (d =? 45) = true) ds -> utf8 (ds ++ junk) = utf8 junk.
Proof.
  induction 1 as [|d ds Hd _ IH]; [done|]. cbn [app]. rewrite utf8_ascii; [done|].
  unfold is_digit, between in *. lia.
Qed.

(** * The parser *)

Lemma last_exists {A} (l : list A) : l <> [] -> exists l' a, l = l' ++ [a].
Proof. intros H. destruct (exists_last H) as (l' & a & ->). by exists l', a. Qed.

Lemma digits_first ds : ds <> [] -> Forall (fun d => is_digit d = true) ds ->
  exists d m, ds = d :: m /\ is_digit d = true.
Proof. intros H Hd. destruct Hd as [|d m Hd]; [done|]. by exists d, m. Qed.

Lemma digits_last ds : ds <> [] -> Forall (fun d => is_digit d = true) ds ->
  exists m d, ds = m ++ [d] /\ is_digit d = true.
Proof.
  intros H Hd. destruct (last_exists ds H) as (m & d & ->). exists m, d. split; [done|].
  apply Forall_app in Hd as [_ Hd]. by inversion Hd.
Qed.

Lemma digit_orb d : is_digit d = true -> is_digit d || (d =? 45) = true.
Proof. by intros ->. Qed.

Lemma parse_i32_digits ds :
  ds <> [] -> Forall (fun d => is_digit d = true) ds -> 0 <= digits_value ds < 2 ^ 31 ->
  parse_i32 ds = Some (digits_value ds).
Proof.
  intros Hne Hds Hv. destruct (digits_first ds Hne Hds) as (d & m & -> & Hd). unfold parse_i32.
  assert ((d =? 45) = false /\ (d =? 43) = false) as [-> ->] by (unfold is_digit, between in Hd; lia).
  assert ((- 2 ^ 31 <=? digits_value (d :: m)) && (digits_value (d :: m) <? 2 ^ 31) = true) as Hb by lia.
  by rewrite Hb.
Qed.

Lemma parse_i32_minus ds :
  ds <> [] -> 0 <= digits_value ds <= 2 ^ 31 -> parse_i32 (45 :: ds) = Some (- digits_value ds).
Proof.
  intros Hne Hv. unfold parse_i32. cbn [Z.eqb Pos.eqb].
  assert ((- 2 ^ 31 <=? - digits_value ds) && (- digits_value ds <? 2 ^ 31) = true) as Hb by lia.
  destruct ds; [done|]. by rewrite Hb.
Qed.

(** A number is read back whatever follows it, as long as it is text and does
    not go on with a digit. *)
Lemma parse_number z junk :
  - 2 ^ 31 <= z < 2 ^ 31 -> utf8 junk = true -> no_digit junk ->
  parse_int (show_int z ++ junk) = z.
Proof.
  intros Hz Hu Hj. assert (exists ds, ds <> [] /\ Forall (fun d => is_digit d = true) ds /\
    digits_value ds = Z.abs z /\ show_int z = if z <? 0 then 45 :: ds else ds) as (ds & Hne & Hds & Hv & Hsh).
  { destruct (digits_spec 9 (Z.abs z) []) as (ds & E & Hds & Hne & Hv).
    { change (10 ^ Z.of_nat 10) with 10000000000. lia. }
    exists ds. rewrite app_nil_r in E. split_and!; try done. unfold show_int.
    destruct (Z.ltb_spec z 0); [rewrite Z.abs_neq in E by lia|rewrite Z.abs_eq in E by lia]; by rewrite E. }
  destruct (digits_first ds Hne Hds) as (d & m & Ed & Hd).
  destruct (digits_last ds Hne Hds) as (m' & d' & Ed' & Hd').
  unfold parse_int. rewrite utf8_number, Hu.
  2: { rewrite Hsh. destruct (z <? 0); [constructor; [done|]|]; (eapply Forall_impl; [exact Hds|]); intros; by apply digit_orb. }
  cbn [negb]. rewrite Hsh. destruct (Z.ltb_spec z 0).
  - destruct (trim_app (45 :: ds) 45 d' ds (45 :: m') junk) as (junk' & c & -> & Hc).
    { done. } { by rewrite Ed'. } { reflexivity. } { by apply digit_not_space, digit_orb. }
    apply no_digit_prefix in Hc; [|done]. cbn [app]. unfold int_prefix. cbn [Z.eqb Pos.eqb orb].
    rewrite span_digits_app, parse_i32_minus by (done || lia). cbn. lia.
  - destruct (trim_app ds d d' m m' junk) as (junk' & c & -> & Hc);
      [done|done|by apply digit_not_space, digit_orb|by apply digit_not_space, digit_orb|].
    apply no_digit_prefix in Hc; [|done].
    assert (int_prefix (ds ++ junk') = ds) as ->.
    { rewrite Ed. cbn [app]. unfold int_prefix.
      assert ((d =? 45) || (d =? 43) = false) as -> by (unfold is_digit, between in Hd; lia).
      change (span_digits ((d :: m) ++ junk') = d :: m). rewrite <- Ed. by apply span_digits_app. }
    rewrite parse_i32_digits by (done || lia). cbn. lia.
Qed.

(** The result is an [int] whatever the text. *)
Lemma parse_int_range bs : - 2 ^ 31 <= parse_int bs < 2 ^ 31.
Proof.
  unfold parse_int. destruct (negb (utf8 bs)); [lia|]. generalize (int_prefix (trim bs)) as p. intros p.
  unfold parse_i32. destruct (match p with [] => _ | _ => _ end) as [neg ds].
  destruct ds as [|d ds]; [cbn; lia|]. cbv zeta.
  generalize (if neg then - digits_value (d :: ds) else digits_value (d :: ds)) as z. intros z.
  destruct ((- 2 ^ 31 <=? z) && (z <? 2 ^ 31)) eqn:E; cbn; lia.
Qed.
