(* ===== verification/Lib.v ===== *)
(** The C interface (src/src/lib.rs).

    A [char] pointer argument is [None] for null and otherwise the memory it
    points at; a returned pointer is an address, 0 for null. *)

From S2P Require Import Prelude Consts Hash Layout Names ParseInt Segment Shm Cache ShmTrace World Disk Sem Attach Store.

(** [CStr::from_ptr(p).to_bytes()]: up to the terminating NUL. *)
Fixpoint cstr (mem : bytes) : bytes :=
  match mem with
  | [] => []
  | b :: mem' => if b =? 0 then [] else b :: cstr mem'
  end.

Definition key_bytes (p : option bytes) : option bytes :=
  match p with
  | None => None
  | Some mem => match cstr mem with [] => None | s => Some s end
  end.

Definition val_bytes (p : option bytes) : option bytes := cstr <$> p.

(** The address of the static [c""]; no buffer of the heap has it. *)
Definition EMPTY_STR : Z := -1.

Definition e_code (ok : bool) : Z := if ok then E_SUCCESS else E_FAILURE.

Section lib.
Context `{AL : Allocator}.
Variable fuel : nat.

(** The process's global [STORE]. *)
Abbreviation Global := (option Store).

Definition with_store {A} (f : Store -> io (A * Store)) (g : Global) : io (A * Global) :=
  do st <- match g with Some st => iret st | None => new fuel ∅ end;
  do r <- f st;
  let (a, st) := (r : A * Store) in
  iret (a, Some st).

Definition nvram_get (name : option bytes) (g : Global) : io (Z * Global) :=
  match key_bytes name with
  | None => iret (0, g)
  | Some key => with_store (fun st => get fuel st key) g
  end.

Definition nvram_safe_get (name : option bytes) (g : Global) : io (Z * Global) :=
  do r <- nvram_get name g;
  let (p, g) := (r : Z * Global) in
  iret (if p =? 0 then EMPTY_STR else p, g).

Definition nvram_get_int (name : option bytes) (g : Global) : io (Z * Global) :=
  match key_bytes name with
  | None => iret (0, g)
  | Some key =>
    with_store (fun st =>
      do r <- get fuel st key;
      let (p, st) := (r : Z * Store) in
      iret (if p =? 0 then 0 else parse_int (cstr (deref (s_heap st) p)), st)) g
  end.

(** The entry points that report [E_SUCCESS] or [E_FAILURE]. *)
Definition report (f : Store -> io (bool * Store)) (g : Global) : io (Z * Global) :=
  do r <- with_store f g;
  let (ok, g) := (r : bool * Global) in
  iret (e_code ok, g).

Definition nvram_set (name value : option bytes) (g : Global) : io (Z * Global) :=
  match key_bytes name, val_bytes value with
  | Some key, Some val => report (fun st => set fuel st key val) g
  | _, _ => iret (E_FAILURE, g)
  end.

Definition nvram_unset (name : option bytes) (g : Global) : io (Z * Global) :=
  match key_bytes name with
  | None => iret (E_FAILURE, g)
  | Some key => report (fun st => unset fuel st key) g
  end.

Definition nvram_commit (g : Global) : io (Z * Global) := report (fun st => commit fuel st) g.
Definition nvram_clear (g : Global) : io (Z * Global) := report (fun st => clear fuel st) g.
Definition nvram_reset (g : Global) : io (Z * Global) := nvram_clear g.
Definition nvram_init (g : Global) : io (Z * Global) := report (fun st => init fuel st) g.
Definition nvram_close : Z := E_SUCCESS.
Definition nvram_get_nvramspace : Z := NVRAM_SPACE.

Definition nvram_getall (buf : option bytes) (count : Z) (g : Global)
    : io (Z * option bytes * Global) :=
  if bool_decide (buf = None) || (count <=? 0) then iret (E_FAILURE, buf, g)
  else
    do r <- with_store (fun st =>
      do r <- getall fuel st buf count;
      let '(ok, b, st) := (r : bool * option bytes * Store) in
      iret ((ok, b), st)) g;
    let '((ok, b), g) := (r : (bool * option bytes) * Global) in
    iret (e_code ok, b, g).
End lib.
