(* ===== verification/WriteOut.v ===== *)
(** Phase 2 of a commit: stage every value, flush once, publish.

    [crash_ok] is what the temp-and-rename dance is for: at any moment a
    power loss leaves under each key something it could have left before the
    commit, or the complete new value. *)

From S2P Require Import Prelude Consts Names Segment Shm Cache ShmTrace World Wp Disk DiskInv Publish Sem Attach Store.

Lemma handle_rename n k w :
  let (r, w') := handle (FsRename n k) w in
  same_os w w' /\
  if r then exists i, f_dir (w_fs w) !! n = Some i /\
         w_fs w' = set_dir (<[k := i]> (delete n (f_dir (w_fs w)))) (w_fs w)
  else w_fs w' = w_fs w.
Proof.
  unfold handle. destruct (pop_fault w) as [x w1] eqn:Hp.
  assert (w_fs w1 = w_fs w /\ same_os w w1) as [Hf Hos] by (by inversion Hp; subst).
  unfold on_fs, fs_rename. rewrite Hf.
  assert (forall f, same_os w (upd_fs f w1)) as Hsame by (intros f; by etrans; [|apply same_os_fs]).
  destruct (_ || _); cbn [fst snd]; [by split|].
  destruct (f_dir (w_fs w) !! n) as [i|] eqn:Hd; cbn [fst snd]; [|by split].
  destruct (f_lookup (w_fs w) k) as [[bs|]|]; cbn [fst snd]; split; try done; by exists i.
Qed.

Lemma handle_remove k w :
  let (r, w') := handle (FsRemove k) w in
  same_os w w' /\
  match r with
  | Removed => w_fs w' = set_dir (delete k (f_dir (w_fs w))) (w_fs w)
  | NotFound => w_fs w' = w_fs w /\ f_lookup (w_fs w) k = None
  | RemoveFailed => w_fs w' = w_fs w
  end.
Proof.
  unfold handle. destruct (pop_fault w) as [x w1] eqn:Hp.
  assert (w_fs w1 = w_fs w /\ same_os w w1) as [Hf Hos] by (by inversion Hp; subst).
  unfold on_fs, fs_remove. rewrite Hf.
  assert (forall f, same_os w (upd_fs f w1)) as Hsame by (intros f; by etrans; [|apply same_os_fs]).
  destruct (_ || _); cbn [fst snd]; [by split|].
  destruct (f_lookup (w_fs w) k) as [[bs|]|]; cbn [fst snd]; by split.
Qed.

Section write_out.
Variables (w0 : World) (ps : list Pending).
Hypothesis Hwf : fs_wf (w_fs w0).
Hypothesis Hnd : NoDup (p_key <$> ps).

Definition new_value (p : Pending) : option node := File <$> p_val p.

Definition crash_ok (w : World) : Prop :=
  forall k o, valid_key k = true -> survives (w_fs w) k o ->
    survives (w_fs w0) k o \/ exists p, p ∈ ps /\ p_key p = k /\ o = new_value p.

(** So far only temporary files have been touched. *)
Definition keys_run (w : World) : Prop := keys_same (w_fs w0) (w_fs w) /\ same_os w0 w.

Lemma keys_run_crash w : keys_run w -> crash_ok w.
Proof. intros [[_ Hc _ _] _] k o Hk Hs. left. by apply Hc. Qed.

Lemma keys_run_tmp n w w' : is_tmp n -> keys_run w -> tmp_run n w w' -> keys_run w'.
Proof.
  intros Hn [Hk Ho] [Ht Ho']. split; [|by etrans].
  eapply keys_same_trans; [done|]. by eapply tmp_step_keys.
Qed.

Lemma keys_run_start : keys_run w0.
Proof using Hwf. split; [by apply keys_same_refl|done]. Qed.

(** A staged item: its file is there, under its temporary name. *)
Definition is_staged (w : World) (x : staged) : Prop :=
  match snd x, p_val (fst x) with
  | Some t, Some v =>
      valid_key (p_key (fst x)) = true /\ t = tmp_name (w_pid w0) (p_key (fst x)) /\
      f_lookup (w_fs w) t = Some (File v)
  | None, None => True
  | _, _ => False
  end.

Definition staging (pre : list Pending) (acc : list staged * bool * bool) (w : World) : Prop :=
  let '(done, any, ok) := acc in
  keys_run w /\ Forall (is_staged w) done /\ done.*1 `sublist_of` pre /\
  (any = false -> Forall (fun x => snd x = None) done) /\
  (ok = true -> done.*1 = pre).

Lemma staged_kept w w' p pre post (done : list staged) :
  ps = pre ++ p :: post -> done.*1 `sublist_of` pre ->
  tmp_run (tmp_name (w_pid w0) (p_key p)) w w' ->
  Forall (is_staged w) done -> Forall (is_staged w') done.
Proof using Hnd.
  intros Hps Hsub [Ht _] Hall. apply Forall_forall. intros x Hx.
  rewrite Forall_forall in Hall. specialize (Hall x Hx). unfold is_staged in *.
  destruct (snd x) as [t|]; [|done]. destruct (p_val (fst x)) as [v|]; [|done].
  destruct Hall as (Hk & -> & Hl). split_and!; [done..|].
  rewrite (tmp_step_lookup _ _ _ _ Ht); [done|]. intros E%tmp_name_inj.
  rewrite Hps, fmap_app, fmap_cons in Hnd. apply NoDup_app in Hnd as (_ & Hd & _).
  apply (Hd (p_key (fst x))).
  - apply list_elem_of_fmap. exists (fst x). split; [done|].
    eapply elem_of_sublist; [|done]. apply list_elem_of_fmap. by exists x.
  - rewrite E. apply list_elem_of_here.
Qed.

Lemma wp_stage_one pre p post acc w :
  ps = pre ++ p :: post -> staging pre acc w ->
  wp crash_ok (stage_one p acc) (fun acc' w' => staging (pre ++ [p]) acc' w') w.
Proof using Hwf Hnd.
  intros Hps. destruct acc as [[done any] ok]. intros (Hrun & Hst & Hsub & Hany & Hok).
  assert (is_tmp (tmp_name (w_pid w0) (p_key p))) as Htmp by apply is_tmp_name.
  unfold stage_one. destruct (p_val p) as [v|] eqn:Hv.
  - unfold stage. apply wp_bind. destruct (valid_key (p_key p)) eqn:Hk.
    + pose proof Hrun as [Hks Hos].
      eapply wp_mono; [apply (wp_write_tmp crash_ok (p_key p) v false w)|].
      { by apply (ks_wf _ _ Hks). }
      { done. }
      { intros w' Hw'. rewrite (so_pid _ _ Hos) in Hw'. by eapply keys_run_crash, keys_run_tmp. }
      intros r w' Hi [Hw' Hr]. rewrite (so_pid _ _ Hos) in *.
      assert (keys_run w') as Hrun' by (by eapply keys_run_tmp).
      pose proof (staged_kept w w' p pre post done Hps Hsub Hw' Hst) as Hst'.
      apply wp_ret; [done|]. destruct r as [tmp|]; (split_and!; [done|..]).
      * destruct Hr as (-> & Hl & _). apply Forall_app. split; [done|].
        apply Forall_singleton. unfold is_staged. cbn [fst snd]. by rewrite Hv.
      * rewrite fmap_app. by apply sublist_app.
      * done.
      * intros E. rewrite fmap_app, Hok by done. done.
      * done.
      * by apply sublist_inserts_r.
      * done.
      * done.
    + unfold write_tmp, key_path. rewrite Hk. cbn [negb].
      assert (crash_ok w) by (by apply keys_run_crash).
      apply wp_ret; [done|]. apply wp_ret; [done|]. split_and!; try done.
      by apply sublist_inserts_r.
  - apply wp_ret; [by apply keys_run_crash|]. split_and!.
    + done.
    + apply Forall_app. split; [done|]. apply Forall_singleton.
      unfold is_staged. cbn [fst snd]. by rewrite Hv.
    + rewrite fmap_app. by apply sublist_app.
    + intros E. apply Forall_app. split; [by apply Hany|]. by apply Forall_singleton.
    + intros E. rewrite fmap_app, Hok by done. done.
Qed.

(** ** Publishing *)

(** The staged data is on the device. *)
Definition flushed (w : World) (x : staged) : Prop :=
  match snd x with
  | Some t => exists i, f_dir (w_fs w) !! t = Some i /\ i ∈ f_synced (w_fs w)
  | None => True
  end.

Definition untouched (done : list Pending) (w : World) : Prop :=
  forall k, valid_key k = true -> k ∉ (p_key <$> done) ->
    f_lookup (w_fs w) k = f_lookup (w_fs w0) k.

Definition written (w : World) (p : Pending) : Prop :=
  f_lookup (w_fs w) (p_key p) = new_value p.

Definition publishing (st : list staged) (ok0 : bool) (pre : list staged)
    (acc : list Pending * bool) (w : World) : Prop :=
  fs_wf (w_fs w) /\ same_os w0 w /\ crash_ok w /\
  (forall x, x ∈ st -> p_key (fst x) ∉ (p_key <$> pre.*1) -> is_staged w x /\ flushed w x) /\
  Forall (fun p => written w p /\ valid_key (p_key p) = true) (fst acc) /\
  untouched (fst acc) w /\
  fst acc `sublist_of` pre.*1 /\
  (snd acc = true -> fst acc = pre.*1 /\ ok0 = true).

(** Only directory entries change, and of the temporary ones only [n]. *)
Record dir_only (n : bytes) (f f' : FS) : Prop := mk_dir_only {
  do_nodes : f_nodes f' = f_nodes f;
  do_synced : f_synced f' = f_synced f;
  do_tmp : forall n', is_tmp n' -> n' <> n -> f_dir f' !! n' = f_dir f !! n'
}.

Lemma dir_only_refl n f : dir_only n f f.
Proof. by split. Qed.

Lemma dir_only_delete n f : dir_only n f (set_dir (delete n (f_dir f)) f).
Proof. split; [done..|]. intros n' _ Hne. cbn. by apply lookup_delete_ne. Qed.

Lemma dir_only_rename n k i f :
  valid_key k = true -> dir_only n f (set_dir (<[k := i]> (delete n (f_dir f))) f).
Proof.
  intros Hk. split; [done..|]. intros n' Ht Hne. cbn.
  rewrite lookup_insert_ne, lookup_delete_ne; [done|done|].
  intros ->. by apply (valid_tmp_ne n' n').
Qed.

Section publish.
Variables (st pre post : list staged) (p : Pending) (tmp : option bytes) (ok0 : bool).
Variables (acc : list Pending * bool) (w : World).
Hypothesis Hst : st = pre ++ (p, tmp) :: post.
Hypothesis Hkeys : NoDup (p_key <$> st.*1).
Hypothesis Hps : st.*1 ⊆ ps.
Hypothesis Hpub : publishing st ok0 pre acc w.

Lemma pub_key : p_key p ∉ (p_key <$> pre.*1).
Proof using Hst Hkeys.
  rewrite Hst, !fmap_app, !fmap_cons in Hkeys. apply NoDup_app in Hkeys as (_ & Hd & _).
  intros Hin. apply (Hd _ Hin). apply list_elem_of_here.
Qed.

Lemma pub_here : is_staged w (p, tmp) /\ flushed w (p, tmp).
Proof using Hst Hkeys Hpub.
  destruct Hpub as (_ & _ & _ & Hs & _). apply Hs; [|apply pub_key].
  rewrite Hst. apply elem_middle.
Qed.

Lemma pub_in : p ∈ ps.
Proof using Hst Hps.
  apply Hps. rewrite Hst. apply list_elem_of_fmap. exists (p, tmp). split; [done|].
  apply elem_middle.
Qed.

(** The other staged items are as they were. *)
Lemma others_kept n w' x :
  dir_only n (w_fs w) (w_fs w') ->
  (forall t, snd x = Some t -> t <> n) ->
  is_staged w x -> flushed w x -> is_staged w' x /\ flushed w' x.
Proof.
  intros [Hnodes Hsync Hdir] Hne. unfold is_staged, flushed, f_lookup.
  destruct (snd x) as [t|]; [|by destruct (p_val (fst x))].
  destruct (p_val (fst x)) as [v|]; [|done].
  intros (Hk & -> & Hl) (i & Hi & Hsy). rewrite Hdir by (done || by apply Hne).
  rewrite Hnodes, Hsync. split; [done|by exists i].
Qed.

Lemma remaining n w' x :
  dir_only n (w_fs w) (w_fs w') ->
  (n = tmp_name (w_pid w0) (p_key p) \/ valid_key n = true) ->
  x ∈ st -> p_key (fst x) ∉ (p_key <$> (pre ++ [(p, tmp)]).*1) ->
  is_staged w' x /\ flushed w' x.
Proof using Hpub.
  intros Hd Hn Hx Hk. rewrite !fmap_app in Hk.
  assert (p_key (fst x) ∉ (p_key <$> pre.*1)) as Hk1.
  { intros H. apply Hk, elem_of_app. by left. }
  assert (p_key (fst x) <> p_key p) as Hk2.
  { intros H. apply Hk, elem_of_app. right. cbn. rewrite H. apply list_elem_of_here. }
  destruct Hpub as (_ & _ & _ & Hs & _). destruct (Hs x Hx Hk1) as [Hst' Hfl].
  apply (others_kept n); [done| |done..].
  intros t Ht E. subst t. unfold is_staged in Hst'. rewrite Ht in Hst'.
  destruct (p_val (fst x)); [|done]. destruct Hst' as (_ & E & _).
  destruct Hn as [Hn|Hn].
  - rewrite E in Hn. by apply tmp_name_inj in Hn.
  - apply (valid_tmp_ne n n); [done| |done]. rewrite E. apply is_tmp_name.
Qed.

(** The item got there. *)
Lemma publishing_done n w' :
  fs_wf (w_fs w') -> same_os w w' -> valid_key (p_key p) = true ->
  dir_only n (w_fs w) (w_fs w') ->
  (n = tmp_name (w_pid w0) (p_key p) \/ valid_key n = true) ->
  (forall k o, valid_key k = true -> survives (w_fs w') k o ->
     survives (w_fs w) k o \/ (k = p_key p /\ o = new_value p)) ->
  (forall m, ~ is_tmp m ->
     f_lookup (w_fs w') m = if decide (m = p_key p) then new_value p else f_lookup (w_fs w) m) ->
  crash_ok w' /\ publishing st ok0 (pre ++ [(p, tmp)]) (fst acc ++ [p], snd acc) w'.
Proof using Hst Hps Hpub Hkeys.
  intros Hw' Hos Hk Hd Hn Hsv Hl.
  pose proof Hpub as (Hw & Ho & Hc & Hs & Hdone & Hun & Hsub & Hok).
  assert (crash_ok w') as Hc'.
  { intros k o Hvk Hs'. destruct (Hsv k o Hvk Hs') as [Hs1|[-> ->]]; [by apply Hc|].
    right. exists p. split; [apply pub_in|done]. }
  split; [done|]. unfold publishing. cbn [fst snd]. split_and!; try done.
  - by etrans.
  - intros x Hx Hkx. by apply (remaining n).
  - apply Forall_app. split.
    + rewrite Forall_forall in Hdone |- *. intros q Hq. destruct (Hdone q Hq) as [Hwr Hvq].
      split; [|done]. unfold written. rewrite Hl by by apply valid_lookup.
      rewrite decide_False; [done|]. intros E.
      apply pub_key. rewrite <- E. apply list_elem_of_fmap. exists q. split; [done|].
      by eapply elem_of_sublist.
    + apply Forall_singleton. split; [|done]. unfold written.
      rewrite Hl by by apply valid_lookup. by rewrite decide_True.
  - intros k Hvk Hkn. rewrite fmap_app in Hkn. rewrite Hl by by apply valid_lookup.
    rewrite decide_False.
    + apply Hun; [done|]. intros H. apply Hkn, elem_of_app. by left.
    + intros ->. apply Hkn, elem_snoc_r.
  - rewrite fmap_app. by apply sublist_app.
  - intros E. destruct (Hok E) as [-> ->]. split; [|done]. by rewrite fmap_app.
Qed.

(** The item did not get there. *)
Lemma publishing_skip n w' :
  keys_same (w_fs w) (w_fs w') -> same_os w w' -> dir_only n (w_fs w) (w_fs w') ->
  (n = tmp_name (w_pid w0) (p_key p) \/ valid_key n = true) ->
  crash_ok w' /\ publishing st ok0 (pre ++ [(p, tmp)]) (fst acc, false) w'.
Proof using Hst Hps Hpub Hkeys.
  intros [Hw' Hc' Hl' _] Hos Hd Hn.
  pose proof Hpub as (Hw & Ho & Hc & Hs & Hdone & Hun & Hsub & Hok).
  assert (crash_ok w') as Hcr by (intros k o Hk Hs'; by apply Hc, Hc').
  split; [done|]. unfold publishing. cbn [fst snd]. split_and!; try done.
  - by etrans.
  - intros x Hx Hkx. by apply (remaining n).
  - rewrite Forall_forall in Hdone |- *. intros q Hq. destruct (Hdone q Hq) as [Hwr Hvq].
    split; [|done]. unfold written. by rewrite Hl' by by apply valid_lookup.
  - intros k Hvk Hkn. rewrite Hl' by by apply valid_lookup. by apply Hun.
  - rewrite fmap_app. by apply sublist_inserts_r.
Qed.

Lemma pub_crash : crash_ok w.
Proof using Hpub. apply Hpub. Qed.

(** 2c, for one item with a new value. *)
Lemma wp_publish_value t v :
  tmp = Some t -> p_val p = Some v ->
  wp crash_ok (publish_one (p, tmp) acc)
    (fun acc' w' => publishing st ok0 (pre ++ [(p, tmp)]) acc' w') w.
Proof using Hst Hps Hpub Hkeys.
  intros Ht Hv. pose proof pub_crash as Hcr. pose proof Hpub as (Hw & Ho & _).
  destruct pub_here as [Hs Hf]. unfold is_staged, flushed in *. cbn [fst snd] in Hs, Hf.
  rewrite Ht, Hv in Hs. rewrite Ht in Hf. destruct Hs as (Hk & -> & Hl). destruct Hf as (i & Hi & Hsy).
  replace (publish_one (p, tmp) acc) with (publish_one (p, Some (tmp_name (w_pid w0) (p_key p))) acc)
    by by rewrite Ht.
  unfold publish_one, publish, key_path. rewrite Hk. cbn [negb].
  set (n := tmp_name (w_pid w0) (p_key p)) in *.
  assert (is_tmp n) as Htmp by apply is_tmp_name.
  apply wp_bind, wp_bind, wp_sys; [done|].
  pose proof (handle_rename n (p_key p) w) as H.
  destruct (handle (FsRename n (p_key p)) w) as [ok w1]. destruct H as [Hos1 H]. destruct ok.
  - destruct H as (i' & Hi' & Hfs). rewrite Hi in Hi'. injection Hi' as <-.
    destruct (publishing_done n w1) as [Hc1 Hp1]; try done.
    + rewrite Hfs. by apply rename_wf.
    + rewrite Hfs. by apply dir_only_rename.
    + by left.
    + intros k o Hvk. rewrite Hfs. intros Hs'. apply rename_survives in Hs'; try done.
      rewrite Hl in Hs'. unfold new_value. by rewrite Hv.
    + intros m Hm. rewrite Hfs, (rename_lookup n) by done. rewrite Hl. unfold new_value.
      by rewrite Hv.
  - assert (crash_ok w1) as Hc1 by (intros k o Hvk; rewrite H; by apply Hcr).
    split; [done|]. apply wp_bind, wp_sys; [done|].
    pose proof (handle_remove n w1) as H2.
    destruct (handle (FsRemove n) w1) as [r w2]. destruct H2 as [Hos2 H2].
    assert (keys_same (w_fs w) (w_fs w2) /\ dir_only n (w_fs w) (w_fs w2)) as [Hks Hdo].
    { destruct r; [|destruct H2 as [H2 _]|]; rewrite H2, H.
      - split; [|apply dir_only_delete]. apply (tmp_step_keys n); [done|]. by apply delete_step.
      - split; [by apply keys_same_refl|done].
      - split; [by apply keys_same_refl|done]. }
    destruct (publishing_skip n w2) as [Hc2 Hp2]; [done|by etrans|done|by left|].
    split; [done|]. apply wp_ret; [done|]. cbn [is_ok]. by apply wp_ret.
Qed.

(** 2c, for one deletion. *)
Lemma wp_publish_deletion :
  tmp = None -> p_val p = None ->
  wp crash_ok (publish_one (p, tmp) acc)
    (fun acc' w' => publishing st ok0 (pre ++ [(p, tmp)]) acc' w') w.
Proof using Hst Hps Hpub Hkeys.
  intros Ht Hv. pose proof pub_crash as Hcr. pose proof Hpub as (Hw & Ho & _).
  replace (publish_one (p, tmp) acc) with (publish_one (p, None) acc) by by rewrite Ht.
  unfold publish_one, remove, key_path. destruct (valid_key (p_key p)) eqn:Hk; cbn [negb].
  2: { apply wp_bind, wp_ret; [done|]. cbn [is_ok]. apply wp_ret; [done|].
       destruct (publishing_skip (tmp_name (w_pid w0) (p_key p)) w) as [_ Hp2]; try done.
       by left. }
  apply wp_bind, wp_bind, wp_sys; [done|].
  pose proof (handle_remove (p_key p) w) as H.
  destruct (handle (FsRemove (p_key p)) w) as [r w1]. destruct H as [Hos H].
  destruct r.
  - destruct (publishing_done (p_key p) w1) as [Hc1 Hp1]; try done.
    + rewrite H. by apply delete_wf.
    + rewrite H. apply dir_only_delete.
    + by right.
    + intros k o Hvk. rewrite H. intros Hs%delete_survives; [|done].
      unfold new_value. by rewrite Hv.
    + intros m Hm. rewrite H, delete_lookup. unfold new_value. by rewrite Hv.
  - destruct H as [H Hl].
    destruct (publishing_done (p_key p) w1) as [Hc1 Hp1]; try (by rewrite H); try done.
    + by right.
    + intros k o Hvk. rewrite H. by left.
    + intros m Hm. rewrite H. unfold new_value. rewrite Hv. case_decide as E; [by subst|done].
  - destruct (publishing_skip (p_key p) w1) as [Hc1 Hp1]; [|done| |by right|].
    + rewrite H. by apply keys_same_refl.
    + by rewrite H.
    + split; [done|]. apply wp_ret; [done|]. cbn [is_ok]. by apply wp_ret.
Qed.

Lemma wp_publish_one :
  wp crash_ok (publish_one (p, tmp) acc)
    (fun acc' w' => publishing st ok0 (pre ++ [(p, tmp)]) acc' w') w.
Proof using Hst Hps Hpub Hkeys.
  destruct pub_here as [Hs _]. unfold is_staged in Hs. cbn [fst snd] in Hs.
  assert ((exists t, tmp = Some t) \/ tmp = None) as [[t Ht]|Ht]
    by (destruct tmp; [left; by eexists|by right]);
    assert ((exists v, p_val p = Some v) \/ p_val p = None) as [[v Hv]|Hv]
      by (destruct (p_val p); [left; by eexists|by right]); rewrite Ht, Hv in Hs; try done.
  - by eapply wp_publish_value.
  - by apply wp_publish_deletion.
Qed.
End publish.

(** What phase 2 leaves behind. *)
Definition wrote (r : option (list Pending * bool)) (w : World) : Prop :=
  fs_wf (w_fs w) /\ same_os w0 w /\
  match r with
  | None => keys_run w
  | Some (done, ok) =>
      Forall (fun p => written w p /\ valid_key (p_key p) = true) done /\
      untouched done w /\ done `sublist_of` ps /\ (ok = true -> done = ps)
  end.

Lemma sublist_keys (st : list staged) : st.*1 `sublist_of` ps -> NoDup (p_key <$> st.*1).
Proof using Hnd. intros Hs. eapply sublist_NoDup; [exact Hnd|]. by apply fmap_sublist. Qed.

Lemma wp_discard st w :
  keys_run w -> Forall (is_staged w) st ->
  wp crash_ok (ifoldM st tt discard_one) (fun _ w' => keys_run w') w.
Proof.
  intros Hrun Hst.
  assert (forall x, x ∈ st -> match snd x with Some t => is_tmp t | None => True end) as Htmp.
  { intros x Hx. rewrite Forall_forall in Hst. specialize (Hst x Hx). unfold is_staged in Hst.
    destruct (snd x); [|done]. destruct (p_val (fst x)); [|done].
    destruct Hst as (_ & -> & _). apply is_tmp_name. }
  apply (wp_foldM crash_ok st tt discard_one (fun _ _ w' => keys_run w')).
  - by apply keys_run_crash.
  - done.
  - intros pre x post [] w1 Hst' _ Hr. unfold discard_one.
    specialize (Htmp x ltac:(rewrite Hst'; apply elem_middle)). destruct (snd x) as [t|].
    + unfold discard. apply wp_bind, wp_sys; [by apply keys_run_crash|].
      pose proof (handle_remove_tmp t w1 (ks_wf _ _ (proj1 Hr)) Htmp) as H.
      destruct (handle (FsRemove t) w1) as [r w2].
      assert (keys_run w2) by by eapply keys_run_tmp.
      split; [by apply keys_run_crash|]. apply wp_ret; [by apply keys_run_crash|done].
    + apply wp_ret; [by apply keys_run_crash|done].
  - done.
Qed.

Lemma wp_publish_all st ok0 w :
  keys_run w -> st.*1 `sublist_of` ps -> (ok0 = true -> st.*1 = ps) ->
  (forall x, x ∈ st -> is_staged w x /\ flushed w x) ->
  wp crash_ok (ifoldM st ([], ok0) publish_one) (fun acc w' => wrote (Some acc) w') w.
Proof using Hnd.
  intros Hrun Hsub Hok Hst. pose proof (sublist_keys st Hsub) as Hkeys.
  assert (st.*1 ⊆ ps) as Hin by (intros q Hq; by eapply elem_of_sublist).
  apply (wp_foldM crash_ok st ([], ok0) publish_one (publishing st ok0)).
  - by apply keys_run_crash.
  - destruct Hrun as [[Hw Hc Hl Ha] Hos]. unfold publishing. cbn [fst snd].
    split_and!; try done.
    + by apply keys_run_crash.
    + intros x Hx _. by apply Hst.
    + intros k Hk _. apply Hl. by apply valid_lookup.
  - intros pre [p tmp] post acc w1 Heq _ Hp. by apply (wp_publish_one st pre post).
  - intros [done ok] w1 _ (Hw & Hos & Hc & _ & Hd & Hun & Hs & Ho). unfold wrote.
    cbn [fst snd] in *. split_and!; try done.
    + by etrans.
    + intros E. destruct (Ho E) as [-> E']. by apply Hok.
Qed.

(** Phase 2 as a whole. *)
Lemma wp_write_out : wp crash_ok (write_out ps) wrote w0.
Proof using Hwf Hnd.
  unfold write_out. apply wp_bind.
  apply (wp_foldM crash_ok ps ([], false, true) stage_one staging).
  { apply keys_run_crash, keys_run_start. }
  { unfold staging. cbn. split_and!; try done. }
  { intros pre p post acc w Hps _ Hs. by apply (wp_stage_one pre p post). }
  intros [[st any] ok] w1 Hc1 (Hrun & Hst & Hsub & Hany & Hok).
  rewrite Forall_forall in Hst. destruct any.
  - apply wp_bind, wp_sys; [done|].
    pose proof (handle_syncfs w1 (ks_wf _ _ (proj1 Hrun))) as H.
    destruct (handle SyncFs w1) as [r w2]. destruct H as (Hos & Hks & Hd & Hn & Hfl).
    assert (keys_run w2) as Hrun2.
    { destruct Hrun. split; [by eapply keys_same_trans|by etrans]. }
    assert (crash_ok w2) as Hc2 by by apply keys_run_crash. split; [done|].
    assert (forall x, x ∈ st -> is_staged w2 x) as Hst2.
    { intros x Hx. specialize (Hst x Hx). unfold is_staged, f_lookup in *. by rewrite Hd, Hn. }
    destruct r; cbn [negb].
    + apply wp_bind. eapply wp_mono.
      { apply (wp_publish_all st ok w2 Hrun2 Hsub Hok). intros x Hx. split; [by apply Hst2|].
        specialize (Hst2 x Hx). unfold is_staged, flushed in *.
        destruct (snd x) as [t|]; [|done]. destruct (p_val (fst x)); [|done].
        destruct Hst2 as (_ & _ & Hl). unfold f_lookup in Hl.
        destruct (f_dir (w_fs w2) !! t) as [i|] eqn:Hi; [|done]. exists i. split; [done|].
        rewrite (Hfl eq_refl) in *. cbn. apply elem_of_dom. cbn in Hl. by eexists. }
      intros acc w3 Hc3 Hw. by apply wp_ret.
    + apply wp_bind. eapply wp_mono.
      { apply (wp_discard st w2 Hrun2). by apply Forall_forall. }
      intros [] w3 Hc3 Hr3. apply wp_ret; [done|]. unfold wrote. destruct Hr3 as [Hk3 Ho3].
      split_and!; [by apply (ks_wf _ _ Hk3)|done|done].
  - apply wp_bind, wp_ret; [done|]. cbn [negb]. apply wp_bind. eapply wp_mono.
    { apply (wp_publish_all st ok w1 Hrun Hsub Hok). intros x Hx. split; [by apply Hst|].
      specialize (Hany eq_refl). rewrite Forall_forall in Hany. unfold flushed.
      by rewrite (Hany x Hx). }
    intros acc w3 Hc3 Hw. by apply wp_ret.
Qed.
End write_out.
