(* ===== verification/CommitInv.v ===== *)
(** A whole commit: snapshot under the lock, write-out without it, write-back
    under the lock again. *)

From S2P Require Import Prelude Consts Hash Spec Names Segment Shm ShmInv ShmOps SeqCount ShmRefine ShmCommit Cache ShmTrace World Wp Disk DiskInv Publish Sem SemInv Attach Store WriteOut.

Lemma seg_at_fun w o s s' : seg_at w o s -> seg_at w o s' -> s = s'.
Proof. unfold seg_at. congruence. Qed.

(** A segment program on a mapped object. *)
Lemma handle_seg_at {A} o (p : prog A) s w :
  seg_at w o s ->
  let (r, w') := handle (Seg o p) w in
  r = fst (run p s) /\ seg_at w' o (snd (run p s)) /\ calm w w' /\ w_others w' = w_others w.
Proof.
  intros H. unfold seg_at in *. unfold handle, handle_seg. rewrite H. cbn [so_seg so_size].
  destruct (run p s) as [a s']. cbn [fst snd]. split_and!; try done.
  cbn. by rewrite lookup_insert_eq.
Qed.

(** What [differs_on_disk] can say of the keys in one snapshot: it notices
    every difference there is, and when no call fails nothing else. *)
Definition stat_answers (w : World) (nw : bytes -> Z -> bool) : Prop :=
  (forall k n, fs_differs Good (w_fs w) k n = true -> nw k n = true) /\
  (w_faults w = [] -> forall k n, nw k n = fs_differs Good (w_fs w) k n).

Lemma fs_differs_faulty x f k n : fs_differs Good f k n = true -> fs_differs x f k n = true.
Proof.
  unfold fs_differs, fs_meta. destruct (key_path k) as [p|]; [|done].
  destruct x; cbn [is_bad]; try done. by case_bool_decide.
Qed.

Lemma stat_answers_calm w w' nw :
  calm w w' -> (w_faults w = [] -> w_faults w' = []) -> stat_answers w' nw -> stat_answers w nw.
Proof. intros Hc Hf [H1 H2]. rewrite (ca_fs _ _ Hc) in H1, H2. split; auto. Qed.

Lemma handle_ask_at {A} o (p : (bytes -> Z -> bool) -> prog A) s w :
  seg_at w o s ->
  exists nw, stat_answers w nw /\
  let (r, w') := handle (SegAsk o p) w in
  r = fst (run (p nw) s) /\ seg_at w' o (snd (run (p nw) s)) /\ calm w w' /\
  w_others w' = w_others w.
Proof.
  intros H. unfold seg_at in *. exists (fs_differs (hd Good (w_faults w)) (w_fs w)). split.
  { split; [intros k n; apply fs_differs_faulty|]. by intros ->. }
  unfold handle, handle_seg. cbn [pop_fault w_objs w_fs]. rewrite H. cbn [so_seg so_size].
  destruct (run _ s) as [a s']. cbn [fst snd]. split_and!; try done.
  cbn. by rewrite lookup_insert_eq.
Qed.

(** The segment behind an object, for an object that is there. *)
Definition seg_of (w : World) (o : Z) : Segment :=
  match w_objs w !! o with Some ob => so_seg ob | None => zero_segment end.

Lemma seg_at_of w o s : seg_at w o s -> seg_of w o = s.
Proof. intros H. unfold seg_of. by rewrite H. Qed.

Section commit.
Variables (fuel : nat) (seg : Z) (w : World) (s0 : Segment).
Hypothesis Hfs : fs_wf (w_fs w).
Hypothesis Hseg : seg_at w seg s0.
Hypothesis Hwf0 : wf s0.
Hypothesis Hothers : others_ok w.

(** The segment at the moment of the snapshot. *)
Definition snapshot_seg : Segment := seg_of (snd (exec (acquire fuel) w)) seg.

(** What the other processes did before it. *)
Definition waited : list op := acts w (snd (exec (acquire fuel) w)) seg.

(** What the commit is allowed to add to what a power loss can leave. *)
Definition commit_safe (w' : World) : Prop :=
  forall k o, valid_key k = true -> survives (w_fs w') k o ->
    survives (w_fs w) k o \/
    exists it, view snapshot_seg !! k = Some it /\ o = File <$> fst it.

(** What holds when it ends. *)
Record commit_end (ok : bool) (w' : World) : Prop := mk_commit_end {
  en_fs : fs_wf (w_fs w');
  en_others : onward w w';
  (* the flags it has retired, and what is on disk for them *)
  en_seg :
    let os := acts w w' seg in
    let s2 := apply_all os s0 in
    exists s', seg_at w' seg s' /\ wf s' /\
    forall k, headroom s0 k (length os) ->
      view s' !! k = view s2 !! k \/
      exists p, p_val p = Spec.get (view snapshot_seg) k /\ retired (view s2) (view s') k p /\
        f_lookup (w_fs w') k = File <$> p_val p;
  (* success: everything owed is durable, nothing else has changed *)
  en_ok : ok = true -> exists nw, stat_answers w nw /\ forall k, valid_key k = true ->
    (forall o, survives (w_fs w') k o -> o = f_lookup (w_fs w') k) /\
    f_lookup (w_fs w') k =
      match view snapshot_seg !! k with
      | Some it => if owed nw k it then File <$> fst it else f_lookup (w_fs w) k
      | None => f_lookup (w_fs w) k
      end
}.

Lemma follows_safe w' : follows w w' -> commit_safe w'.
Proof. intros [[Hf _ _ _] _] k o _. rewrite Hf. by left. Qed.

Lemma snapshot_pre : snapshot_seg = apply_all waited s0 /\ Forall op_ok waited /\ wf snapshot_seg.
Proof using Hseg Hwf0 Hothers.
  pose proof (wp_exec (fun _ => True) (acquire fuel) (fun _ w' => follows w w') w) as H.
  destruct H as (_ & _ & Hs).
  { apply wp_lock; [done|apply follows_refl]. }
  pose proof (Hs Hothers seg s0 Hseg) as Hs'. fold waited in Hs'.
  unfold snapshot_seg. rewrite (seg_at_of _ _ _ Hs').
  assert (Forall op_ok waited) by by apply acts_ok.
  split_and!; [done..|]. by apply apply_all_wf.
Qed.

Lemma snapshot_wf : wf snapshot_seg.
Proof using Hseg Hwf0 Hothers. apply snapshot_pre. Qed.

Lemma pending_item nw p :
  p ∈ pendings nw snapshot_seg ->
  exists it, view snapshot_seg !! p_key p = Some it /\ owed nw (p_key p) it = true /\
    p_val p = fst it.
Proof using Hseg Hwf0 Hothers.
  intros (it & Hv & Ho & E)%pendings_elem; [|apply snapshot_wf].
  exists it. split_and!; [done..|]. by apply (f_equal p_val) in E.
Qed.

Lemma pending_hash nw p : p ∈ pendings nw snapshot_seg -> p_hash p = fnv1a (p_key p).
Proof using Hseg Hwf0 Hothers.
  intros (it & _ & _ & E)%pendings_elem; [|apply snapshot_wf]. by apply (f_equal p_hash) in E.
Qed.

(** Write-back, after other processes have been at work. *)
Lemma writeback_end nw os done s' :
  Forall op_ok os -> done ⊆ pendings nw snapshot_seg ->
  s' = snd (run (commit_writeback done) (apply_all os snapshot_seg)) ->
  wf s' /\ forall k, headroom snapshot_seg k (length os) ->
    let s2 := apply_all os snapshot_seg in
    view s' !! k = view s2 !! k \/
    exists p, p ∈ done /\ retired (view s2) (view s') k p.
Proof using Hseg Hwf0 Hothers.
  intros Hos Hd ->. pose proof snapshot_wf as Hw.
  pose proof (apply_all_wf os _ Hw Hos) as Hw2.
  destruct (run_commit_writeback (apply_all os snapshot_seg) done Hw2) as (Hw' & Hv & _).
  { intros p Hp. by eapply pending_hash, Hd. }
  split; [done|]. intros k Hh. cbv zeta. rewrite Hv.
  destruct (apply_all_moved os snapshot_seg k Hw Hos Hh) as [_ Hage].
  apply retired_key. intros p Hp Hk Hs. apply Hd in Hp.
  apply pendings_elem in Hp as ([ov d] & Hit & _ & E); [|done]. rewrite Hk in *.
  apply (f_equal p_seen) in E as Eseen. apply (f_equal p_val) in E as Eval. cbn in *.
  exists d. rewrite Eval, <- Hit. apply Hage. congruence.
Qed.

(** From the write-out's guarantee to the commit's. *)
Lemma crash_ok_safe nw w1 w' :
  calm w w1 -> crash_ok w1 (pendings nw snapshot_seg) w' -> commit_safe w'.
Proof using Hseg Hwf0 Hothers.
  intros Hc H k o Hk Hs. destruct (H k o Hk Hs) as [Hs1|(p & Hp & <- & ->)].
  - left. by rewrite <- (ca_fs _ _ Hc).
  - right. apply pending_item in Hp as (it & Hv & _ & E). exists it. split; [done|].
    unfold new_value. by rewrite E.
Qed.

Lemma calm_safe w1 w2 : calm w1 w2 -> commit_safe w1 -> commit_safe w2.
Proof. intros Hc H k o Hk Hs. apply H; [done|]. by rewrite <- (ca_fs _ _ Hc). Qed.

Lemma pending_of_view nw k it :
  view snapshot_seg !! k = Some it -> owed nw k it = true ->
  mkPending k (fst it) (fnv1a k) (slot snapshot_seg (key_slot k)) ∈ pendings nw snapshot_seg.
Proof using Hseg Hwf0 Hothers.
  intros Hv Ho. apply pendings_elem; [apply snapshot_wf|]. by exists it.
Qed.

(** Phases 2 and 3, from a world [w3] that the write-out starts in. *)
Section finish.
Variables (nw : bytes -> Z -> bool) (w3 : World).
Hypothesis Hcalm3 : calm w w3.
Hypothesis Hseg3 : seg_at w3 seg snapshot_seg.
Hypothesis Hothers3 : onward w w3.
Hypothesis Hacts3 : acts w w3 seg = waited.

(** After the write-out: what the directory holds stays put until the final
    flush. *)
Record after (done : list Pending) (ok : bool) (w' : World) : Prop := mk_after {
  af_fs : fs_wf (w_fs w');
  af_safe : commit_safe w';
  af_others : onward w w';
  af_written : forall p, p ∈ done -> f_lookup (w_fs w') (p_key p) = File <$> p_val p;
  af_same : forall k, valid_key k = true -> k ∉ (p_key <$> done) ->
    f_lookup (w_fs w') k = f_lookup (w_fs w) k;
  af_sub : done ⊆ pendings nw snapshot_seg;
  af_all : ok = true -> done = pendings nw snapshot_seg
}.

Lemma after_calm done ok w1 w2 :
  after done ok w1 -> calm w1 w2 -> onward w1 w2 -> after done ok w2.
Proof.
  intros [H1 H2 H3 H4 H5 H6 H7] Hc Ho. split; rewrite ?(ca_fs _ _ Hc); auto.
  - by eapply calm_safe.
  - by etrans.
Qed.

(** Where the segment stands: nothing retired yet, or [done] written back. *)
Definition seg_end (done : list Pending) (w' : World) : Prop :=
  exists os s', acts w w' seg = waited ++ os /\ seg_at w' seg s' /\ wf s' /\
    forall k, headroom snapshot_seg k (length os) ->
      let s2 := apply_all os snapshot_seg in
      view s' !! k = view s2 !! k \/
      exists p, p ∈ done /\ retired (view s2) (view s') k p.

Lemma seg_end_none done w' os :
  acts w w' seg = waited ++ os -> seg_at w' seg (apply_all os snapshot_seg) -> seg_end done w'.
Proof using Hseg Hwf0 Hothers.
  intros Hos Hs. exists os, (apply_all os snapshot_seg). split_and!; [done..| |].
  - apply apply_all_wf; [apply snapshot_wf|]. pose proof (acts_ok w w' seg Hothers) as H.
    rewrite Hos in H. by apply Forall_app in H as [_ ?].
  - intros k _. by left.
Qed.

(** From the start of the commit on. *)
Lemma seg_end_start done w' :
  seg_end done w' ->
  (forall p, p ∈ done -> p_val p = Spec.get (view snapshot_seg) (p_key p) /\
     f_lookup (w_fs w') (p_key p) = File <$> p_val p) ->
  let os := acts w w' seg in
  let s2 := apply_all os s0 in
  exists s', seg_at w' seg s' /\ wf s' /\
    forall k, headroom s0 k (length os) ->
      view s' !! k = view s2 !! k \/
      exists p, p_val p = Spec.get (view snapshot_seg) k /\ retired (view s2) (view s') k p /\
        f_lookup (w_fs w') k = File <$> p_val p.
Proof using Hseg Hwf0 Hothers.
  intros (os & s' & Hos & Hs & Hw & Hv) Hd. cbv zeta. exists s'. split_and!; [done..|].
  destruct snapshot_pre as (Hsn & Hpre & _).
  rewrite Hos, apply_all_app, <- Hsn. intros k Hh. specialize (Hv k).
  rewrite Hsn in Hv at 1. destruct Hv as [E|(p & Hp & Hr)].
  - by apply headroom_after.
  - by left.
  - right. exists p. destruct (Hd p Hp) as [E1 E2]. pose proof Hr as [<- _]. done.
Qed.

Lemma pending_get p :
  p ∈ pendings nw snapshot_seg -> p_val p = Spec.get (view snapshot_seg) (p_key p).
Proof using Hseg Hwf0 Hothers.
  intros ([v d] & Hv & _ & E)%pending_item. unfold Spec.get. by rewrite Hv, E.
Qed.

Lemma seg_end_commit done ok w' : after done ok w' -> seg_end done w' -> commit_end false w'.
Proof using Hseg Hwf0 Hothers.
  intros Ha Hs. split; try done.
  - apply (af_fs _ _ _ Ha).
  - apply (af_others _ _ _ Ha).
  - apply (seg_end_start done); [done|]. intros p Hp. split.
    + by eapply pending_get, (af_sub _ _ _ Ha).
    + by eapply af_written.
Qed.

(** The final flush. *)
Lemma wp_final done ok w1 :
  stat_answers w nw -> after done ok w1 -> seg_end done w1 ->
  wp commit_safe (do synced <- sync_store; iret (ok && synced)) commit_end w1.
Proof using Hseg Hwf0 Hothers.
  intros Hnw Ha Hs. apply wp_bind, wp_sys; [apply (af_safe _ _ _ Ha)|].
  pose proof (handle_syncfs w1 (af_fs _ _ _ Ha)) as H.
  destruct (handle SyncFs w1) as [r w2]. destruct H as (Hos & Hks & Hd & Hn & Hfl).
  assert (forall k, f_lookup (w_fs w2) k = f_lookup (w_fs w1) k) as Hl.
  { intros k. unfold f_lookup. by rewrite Hd, Hn. }
  assert (commit_safe w2) as Hsafe.
  { intros k o Hk Hsv. apply (af_safe _ _ _ Ha); [done|]. by apply (ks_crash _ _ Hks). }
  assert (after done ok w2) as Ha2.
  { destruct Ha as [H1 H2 H3 H4 H5 H6 H7]. split; try done.
    - by apply (ks_wf _ _ Hks).
    - etrans; [exact H3|]. by apply onward_same, so_others.
    - intros p Hp. rewrite Hl. by apply H4.
    - intros k Hk Hkn. rewrite Hl. by apply H5. }
  assert (seg_end done w2) as Hs2.
  { destruct Hs as (os & s' & Hop & Hs & Hw & Hv). exists os, s'. split_and!; [| |done..].
    - rewrite <- Hop. apply acts_end, (so_others _ _ Hos).
    - unfold seg_at. by rewrite (so_objs _ _ Hos). }
  split; [done|]. apply wp_ret; [done|].
  pose proof (seg_end_commit done ok w2 Ha2 Hs2) as [E1 E2 E3 _]. split; [done..|].
  intros [Hok Hr]%andb_true_iff. subst r. exists nw. split; [done|]. intros k Hk. split.
  - intros o. rewrite (Hfl eq_refl) at 1. intros ->%flush_survives; [|apply (af_fs _ _ _ Ha)].
    by rewrite Hl.
  - pose proof (af_all _ _ _ Ha2 Hok) as Hdone.
    destruct (view snapshot_seg !! k) as [it|] eqn:Hv.
    + destruct (owed nw k it) eqn:Ho.
      * pose proof (pending_of_view nw k it Hv Ho) as Hp. rewrite <- Hdone in Hp.
        apply (af_written _ _ _ Ha2 _ Hp).
      * apply (af_same _ _ _ Ha2); [done|]. intros (p & -> & Hp)%list_elem_of_fmap.
        rewrite Hdone in Hp. apply pending_item in Hp as (it' & Hv' & Ho' & _).
        rewrite Hv in Hv'. simplify_eq. congruence.
    + apply (af_same _ _ _ Ha2); [done|]. intros (p & -> & Hp)%list_elem_of_fmap.
      rewrite Hdone in Hp. apply pending_item in Hp as (it' & Hv' & _). congruence.
Qed.

(** What the write-out leaves, seen from the commit. *)
Lemma wrote_after done ok w4 :
  crash_ok w3 (pendings nw snapshot_seg) w4 ->
  wrote w3 (pendings nw snapshot_seg) (Some (done, ok)) w4 -> after done ok w4.
Proof using Hseg Hwf0 Hothers Hcalm3 Hothers3.
  intros Hcr (Hw4 & Hos4 & Hd & Hun & Hsub & Hok). split.
  - done.
  - by eapply crash_ok_safe.
  - etrans; [exact Hothers3|]. by apply onward_same, so_others.
  - intros p Hp. rewrite Forall_forall in Hd. by apply Hd.
  - intros k Hk Hkn. rewrite Hun by done. by rewrite (ca_fs _ _ Hcalm3).
  - intros p Hp. by eapply elem_of_sublist.
  - done.
Qed.
End finish.

(** Phase 3 and the final flush. *)
Lemma wp_phase3 nw done ok w4 :
  stat_answers w nw -> after nw done ok w4 -> seg_at w4 seg snapshot_seg -> acts w w4 seg = waited ->
  wp commit_safe
    (do unlocked <-
       (if bool_decide (done = []) then iret true
        else
          do guard <- acquire fuel;
          match guard with
          | None => iret false
          | Some g => sys (Seg seg (commit_writeback done));; drop_guard fuel g;; iret true
          end);
     if negb unlocked then iret false
     else do synced <- sync_store; iret (ok && synced)) commit_end w4.
Proof using Hseg Hwf0 Hothers.
  intros Hnw Ha Hs4 Hp4. pose proof (af_safe _ _ _ _ Ha) as Hsafe. apply wp_bind.
  assert (forall w', calm w4 w' -> commit_safe w') as Hcalm_safe by (intros; by eapply calm_safe).
  case_bool_decide as Hdone.
  { apply wp_ret; [done|]. cbn [negb]. apply (wp_final nw done); [exact Hnw|exact Ha|].
    apply (seg_end_none done w4 []); [by rewrite app_nil_r|exact Hs4]. }
  apply wp_bind. eapply wp_mono.
  { apply (wp_lock commit_safe w4); [|apply follows_refl]. intros w' [Hc _]. by apply Hcalm_safe. }
  intros g w5 Hi5 (Hc5 & Ho5 & Hs5). pose proof (af_others _ _ _ _ Ha) as Ho4.
  pose proof (onward_ok _ _ Ho4 Hothers) as Hok4. pose proof (Hs5 Hok4 _ _ Hs4) as Hs.
  pose proof (acts_ok w4 w5 seg Hok4) as Hok.
  assert (acts w w5 seg = waited ++ acts w4 w5 seg) as Hp5.
  { by rewrite (acts_trans seg w w4 w5 Ho4 Ho5), Hp4. }
  set (os := acts w4 w5 seg) in *. clearbody os.
  pose proof (after_calm nw done ok w4 w5 Ha Hc5 Ho5) as Ha5.
  destruct g as [g|].
  2: { apply wp_ret; [done|]. cbn [negb]. apply wp_ret; [done|].
       apply (seg_end_commit nw done ok); [done|]. by apply (seg_end_none done w5 os). }
  apply wp_bind, wp_sys; [done|].
  pose proof (handle_seg_at seg (commit_writeback done) (apply_all os snapshot_seg) w5 Hs) as H.
  destruct (handle (Seg seg (commit_writeback done)) w5) as [r w6].
  destruct H as (_ & Hs6 & Hc6 & Ho6).
  assert (after nw done ok w6) as Ha6.
  { apply (after_calm nw done ok w5); [done..|]. by apply onward_same. }
  split; [apply (af_safe _ _ _ _ Ha6)|].
  destruct (writeback_end nw os done _ Hok (af_sub _ _ _ _ Ha) eq_refl) as [Hw6 Hv6].
  set (s6 := snd (run (commit_writeback done) (apply_all os snapshot_seg))) in *. clearbody s6.
  apply wp_bind. eapply wp_mono.
  { apply (wp_drop commit_safe fuel g w6); [|done]. intros w' [Hc _ _].
    by eapply calm_safe, (af_safe _ _ _ _ Ha6). }
  intros [] w7 Hi7 Hq7. apply wp_ret; [done|]. cbn [negb].
  apply (wp_final nw done); [done|..].
  - destruct Hq7 as [Hc7 _ Ho7]. apply (after_calm nw done ok w6); [done..|].
    by apply onward_same.
  - exists os, s6. split_and!; [|by eapply quiet_seg_at|done..]. rewrite <- Hp5.
    apply acts_end. by rewrite (qu_others _ _ Hq7).
Qed.

Lemma wp_commit_locked : wp commit_safe (commit_locked fuel seg) commit_end w.
Proof using Hfs Hseg Hwf0 Hothers.
  unfold commit_locked. apply wp_bind. eapply wp_mono.
  { apply wp_named, (wp_lock commit_safe w); [|apply follows_refl]. by apply follows_safe. }
  intros g w1 Hi1 [Hex Hfol]. pose proof Hfol as (Hc1 & Ho1 & Hs1).
  assert (seg_at w1 seg snapshot_seg) as Hsn.
  { pose proof (Hs1 Hothers seg s0 Hseg) as Hs. unfold snapshot_seg. rewrite Hex. cbn [snd].
    by rewrite (seg_at_of _ _ _ Hs). }
  assert (acts w w1 seg = waited) as Hp1 by (unfold waited; by rewrite Hex).
  assert (w_faults w = [] -> w_faults w1 = []) as Hfa.
  { intros E. pose proof (exec_faults_nil (acquire fuel) w E) as H. by rewrite Hex in H. }
  clear Hex Hs1. pose proof snapshot_wf as Hsw.
  destruct g as [g|].
  2: { apply wp_ret; [done|]. split; [by rewrite (ca_fs _ _ Hc1)|done| |done].
       apply (seg_end_start []); [|by intros p Hp%elem_of_nil].
       apply (seg_end_none [] w1 []); [by rewrite app_nil_r|done]. }
  apply wp_bind, wp_sys; [done|].
  destruct (handle_ask_at seg commit_snapshot snapshot_seg w1 Hsn) as (nw & Hnw & H).
  apply (stat_answers_calm w) in Hnw; [|done..].
  destruct (handle (SegAsk seg commit_snapshot) w1) as [r w2].
  rewrite (run_commit_snapshot nw _ Hsw) in H. cbn [fst snd] in H.
  destruct H as (-> & Hs2 & Hc2 & Ho2).
  assert (calm w w2) as Hc02 by (by etrans). split; [by apply (calm_safe w1)|].
  apply wp_bind. eapply wp_mono.
  { apply (wp_drop commit_safe fuel g w2); [|done]. intros w' [Hc _ _]. apply (calm_safe w1); [|done].
    by etrans. }
  intros [] w3 Hi3 Hq3. pose proof (quiet_seg_at _ _ _ _ Hq3 Hs2) as Hs3.
  assert (calm w w3) as Hc3 by (etrans; [exact Hc02|apply Hq3]).
  assert (w_others w3 = w_others w1) as E3 by (by rewrite (qu_others _ _ Hq3)).
  assert (onward w w3) as Ho3 by (etrans; [exact Ho1|by apply onward_same]).
  assert (acts w w3 seg = waited) as Hp3 by (rewrite <- Hp1; by apply acts_end).
  apply wp_bind. eapply wp_mono.
  { apply (wp_weaken (crash_ok w3 (pendings nw snapshot_seg)) commit_safe); cycle 1.
    { intros w' H. by apply (crash_ok_safe nw w3). }
    eapply wp_mono.
    - apply (wp_write_out w3 (pendings nw snapshot_seg)); [by rewrite (ca_fs _ _ Hc3)|].
      by apply pendings_NoDup.
    - intros r w' Hcr Hw. exact (conj Hcr Hw). }
  intros [[done ok]|] w4 Hi4 [Hcr Hw].
  - pose proof (wrote_after nw w3 Hc3 Ho3 done ok w4 Hcr Hw) as Ha. destruct Hw as (_ & Hos & _).
    apply (wp_phase3 nw); [done..| |].
    + unfold seg_at. by rewrite (so_objs _ _ Hos).
    + rewrite <- Hp3. apply acts_end, (so_others _ _ Hos).
  - destruct Hw as (Hw4 & Hos & [Hks _]). apply wp_ret; [done|]. split; [done| | |done].
    + etrans; [exact Ho3|]. by apply onward_same, so_others.
    + apply (seg_end_start []); [|by intros p Hp%elem_of_nil].
      apply (seg_end_none [] w4 []).
      * rewrite app_nil_r, <- Hp3. apply acts_end, (so_others _ _ Hos).
      * unfold seg_at. by rewrite (so_objs _ _ Hos).
Qed.
End commit.

(** Releasing the commit lock changes nothing of this. *)
Lemma commit_end_quiet fuel seg w s0 ok w1 w2 :
  commit_end fuel seg w s0 ok w1 -> quiet w1 w2 -> commit_end fuel seg w s0 ok w2.
Proof.
  intros [E1 E2 (s' & Hs & Hw & Hv) E4] Hq.
  pose proof (ca_fs _ _ (qu_calm _ _ Hq)) as Hfs. split; rewrite ?Hfs; try done.
  - etrans; [exact E2|]. apply onward_same, Hq.
  - rewrite (acts_end seg w w1 w2 (qu_others _ _ Hq)). exists s'. split_and!; [|done..].
    by eapply quiet_seg_at.
Qed.

(** The segment at the moment a [commit] takes its snapshot. *)
Definition snapshot_of (fuel : nat) (seg : Z) (w : World) : Segment :=
  snapshot_seg fuel seg (snd (exec (acquire_commit fuel) w)).

Section whole.
Context `{AL : Allocator}.
Variables (fuel : nat) (st : Store) (seg : Z) (w : World) (s0 : Segment).
Hypothesis Hattached : s_seg st = Some seg.
Hypothesis Hfs : fs_wf (w_fs w).
Hypothesis Hseg : seg_at w seg s0.
Hypothesis Hwf : wf s0.
Hypothesis Hothers : others_ok w.

(** How a power loss during the commit can leave key [k]. *)
Definition old_or_new (w' : World) : Prop :=
  forall k o, valid_key k = true -> survives (w_fs w') k o ->
    survives (w_fs w) k o \/
    exists it, view (snapshot_of fuel seg w) !! k = Some it /\ o = File <$> fst it.

(** Either the commit lock was not to be had and nothing happened, or the
    commit ran under it. *)
Definition committed (r : bool * Store) (w' : World) : Prop :=
  snd r = st /\
  ((fst r = false /\ follows w w') \/
   exists wc, follows w wc /\ (w_faults w = [] -> w_faults wc = []) /\
     snapshot_of fuel seg w = snapshot_seg fuel seg wc /\
     commit_end fuel seg wc (apply_all (acts w wc seg) s0) (fst r) w').

Lemma wp_commit : wp old_or_new (commit fuel st) committed w.
Proof using All.
  unfold commit, reattach. rewrite Hattached.
  assert (forall w', follows w w' -> old_or_new w') as Hfol.
  { intros w' [[Hf _ _ _] _] k o _. rewrite Hf. by left. }
  assert (old_or_new w) as H0 by (apply Hfol, follows_refl).
  apply wp_bind, wp_ret; [done|]. rewrite Hattached. apply wp_bind. eapply wp_mono.
  { apply wp_named, (wp_lock old_or_new w); [done|apply follows_refl]. }
  intros g wc Hi [Hex Hc]. destruct g as [g|].
  2: { apply wp_ret; [done|]. split; [done|]. by left. }
  assert (snapshot_of fuel seg w = snapshot_seg fuel seg wc) as Hsnap.
  { unfold snapshot_of. by rewrite Hex. }
  assert (w_faults w = [] -> w_faults wc = []) as Hfa.
  { intros E. pose proof (exec_faults_nil (acquire_commit fuel) w E) as H. by rewrite Hex in H. }
  pose proof Hc as (Hcalm & Hoc & Hsc). pose proof (Hsc Hothers _ _ Hseg) as Hs.
  pose proof (acts_ok w wc seg Hothers) as Hos. pose proof (onward_ok _ _ Hoc Hothers) as Hokc.
  assert (fs_wf (w_fs wc)) as Hfc by (by rewrite (ca_fs _ _ Hcalm)).
  assert (forall w', commit_safe fuel seg wc w' -> old_or_new w') as Hsafe.
  { intros w' H k o Hk Hsv. rewrite Hsnap. destruct (H k o Hk Hsv) as [H1|H1]; [left|by right].
    by rewrite <- (ca_fs _ _ Hcalm). }
  apply wp_bind. eapply wp_mono.
  { eapply wp_weaken; [|exact Hsafe]. eapply wp_mono.
    - apply (wp_commit_locked fuel seg wc _ Hfc Hs); [by apply apply_all_wf|exact Hokc].
    - intros ok w1 H1 H2. exact (conj H1 H2). }
  intros ok w1 Hi1 [Hs1 He1]. apply wp_bind. eapply wp_mono.
  { apply (wp_drop old_or_new fuel g w1); [|done]. intros w' Hq. apply Hsafe.
    eapply (calm_safe fuel seg wc); [apply Hq|done]. }
  intros [] w2 Hi2 Hq. apply wp_ret; [done|]. split; [done|]. right. exists wc.
  split_and!; [done..|]. by eapply commit_end_quiet.
Qed.
End whole.
