(* ===== verification/CommitThms.v ===== *)
(** What a commit promises. *)

From S2P Require Import Prelude Consts Hash Spec Layout Names Segment Shm ShmInv ShmRefine ShmCommit Cache ShmTrace World Wp Disk DiskInv Publish Sem SemInv Attach Store WriteOut CommitInv SegmentThms.

(** A world the witnesses run in: an empty store directory, one object with
    one dirty key, both semaphores free, nothing failing. *)
Definition empty_fs : FS := mkFS true 7 ∅ ∅ 1 [∅] ∅.
Definition demo_world (fs : FS) (s : Segment) : World :=
  mkWorld fs 42 {[ftok_key 7 65 := 1; ftok_key 7 66 := 1]} (Some 3)
    {[3 := mkObj SEGMENT_SIZE s]} 4 [] [].
Definition attached : Store := mkStore (Some 3) ∅ ∅ 0.

Lemma empty_fs_wf : fs_wf empty_fs.
Proof.
  split.
  - by apply list_elem_of_singleton.
  - intros d n i ->%list_elem_of_singleton H. by rewrite lookup_empty in H.
  - intros a b i H. cbn in H. by rewrite lookup_empty in H.
  - intros n k d i _ _ _ H. cbn in H. by rewrite lookup_empty in H.
  - intros n i H. cbn in H. by rewrite lookup_empty in H.
Qed.

Lemma demo_seg fs s : seg_at (demo_world fs s) 3 s.
Proof. done. Qed.

Lemma demo_others fs s : others_ok (demo_world fs s).
Proof. constructor. Qed.

(** C4: a commit is crash-safe.  Whatever fails, and whatever other processes
    do to the segment when they get the lock, at every moment of a commit a
    power loss leaves under each key's name either something it could have
    left there before the commit began, or the complete value - or the
    deletion - that the segment held when the commit took its snapshot.
    Never a part of a value, never an empty file for a value. *)
Theorem commit_crash_safe `{AL : Allocator} fuel st seg w s0 :
  s_seg st = Some seg -> fs_wf (w_fs w) -> seg_at w seg s0 -> wf s0 -> others_ok w ->
  always (fun w' =>
    forall k o, valid_key k = true -> survives (w_fs w') k o ->
      survives (w_fs w) k o \/
      exists it, view (snapshot_of fuel seg w) !! k = Some it /\ o = File <$> fst it)
    (commit fuel st) w.
Proof. intros Ha Hf Hs Hw Ho. by eapply wp_always, wp_commit. Qed.

Lemma commit_crash_safe_witness :
  always (fun w' =>
    forall k o, valid_key k = true -> survives (w_fs w') k o ->
      survives empty_fs k o \/
      exists it, view (snapshot_of 1 3 (demo_world empty_fs sample)) !! k = Some it /\
        o = File <$> fst it)
    (commit 1 attached) (demo_world empty_fs sample).
Proof.
  apply (commit_crash_safe 1 attached 3 (demo_world empty_fs sample) sample);
    [done|apply empty_fs_wf|apply demo_seg|apply sample_spec|apply demo_others].
Defined.

(** C19: a commit that reports success is durable.  A power loss afterwards
    changes nothing under any key: what was owed at the snapshot is found as
    the snapshot had it, and every other key as it was.  Owed are every dirty
    value and deletion, and every clean value whose key has no file of its
    length ([fs_differs]).  When no call fails nothing else is owed; when some
    do, further clean values may be written again. *)
Theorem commit_success_durable `{AL : Allocator} fuel st seg w s0 :
  s_seg st = Some seg -> fs_wf (w_fs w) -> seg_at w seg s0 -> wf s0 -> others_ok w ->
  let '(ok, _, w') := exec (commit fuel st) w in
  ok = true ->
  exists nw,
    (forall k n, fs_differs Good (w_fs w) k n = true -> nw k n = true) /\
    (w_faults w = [] -> forall k n, nw k n = fs_differs Good (w_fs w) k n) /\
    forall k, valid_key k = true ->
      (forall o, survives (w_fs w') k o -> o = f_lookup (w_fs w') k) /\
      f_lookup (w_fs w') k =
        match view (snapshot_of fuel seg w) !! k with
        | Some it => if owed nw k it then File <$> fst it else f_lookup (w_fs w) k
        | None => f_lookup (w_fs w) k
        end.
Proof.
  intros Ha Hf Hs Hw Ho. pose proof (wp_exec _ _ _ _ (wp_commit fuel st seg w s0 Ha Hf Hs Hw Ho)) as H.
  destruct (exec (commit fuel st) w) as [[ok st'] w']. unfold committed in H. cbn [fst snd] in H.
  destruct H as [_ [[-> _]|(wc & (Hc & _) & Hfa & -> & He)]]; [done|]. cbn [fst] in He. intros ->.
  destruct (en_ok _ _ _ _ _ _ He eq_refl) as (nw & Hq & Hnw). exists nw.
  apply (stat_answers_calm w) in Hq as [Hq1 Hq2]; [|done..]. split_and!; [done..|]. intros k Hk.
  destruct (Hnw k Hk) as [H1 H2]. split; [done|]. by rewrite <- (ca_fs _ _ Hc).
Qed.

Lemma commit_success_durable_witness :
  let w := demo_world empty_fs sample in
  let '(ok, _, w') := exec (commit 1 attached) w in
  ok = true ->
  exists nw,
    (forall k n, fs_differs Good (w_fs w) k n = true -> nw k n = true) /\
    (w_faults w = [] -> forall k n, nw k n = fs_differs Good (w_fs w) k n) /\
    forall k, valid_key k = true ->
      (forall o, survives (w_fs w') k o -> o = f_lookup (w_fs w') k) /\
      f_lookup (w_fs w') k =
        match view (snapshot_of 1 3 w) !! k with
        | Some it => if owed nw k it then File <$> fst it else f_lookup (w_fs w) k
        | None => f_lookup (w_fs w) k
        end.
Proof.
  apply (commit_success_durable 1 attached 3 (demo_world empty_fs sample) sample);
    [done|apply empty_fs_wf|apply demo_seg|apply sample_spec|apply demo_others].
Defined.

(** C24: whether it succeeds or fails, a commit retires only what the disk
    has.  At its end the segment is well-formed, and every key has exactly
    the item - value and dirty flag - that the other processes' operations
    during the commit made of what it had at the start, unless its flag was
    retired: then it still holds the very value, or deletion, of the commit's
    snapshot, and its file holds that value now (or, for a deletion, there is
    no file).  The key's counter must not come within these operations of its
    2^64 wrap. *)
Theorem commit_retires_written `{AL : Allocator} fuel st seg w s0 :
  s_seg st = Some seg -> fs_wf (w_fs w) -> seg_at w seg s0 -> wf s0 -> others_ok w ->
  let '(ok, _, w') := exec (commit fuel st) w in
  let os := acts w w' seg in
  let s1 := apply_all os s0 in
  exists s', seg_at w' seg s' /\ wf s' /\
    forall k, headroom s0 k (length os) ->
      view s' !! k = view s1 !! k \/
      exists p, p_val p = Spec.get (view (snapshot_of fuel seg w)) k /\
        retired (view s1) (view s') k p /\ f_lookup (w_fs w') k = File <$> p_val p.
Proof.
  intros Ha Hf Hs Hw Ho. pose proof (wp_exec _ _ _ _ (wp_commit fuel st seg w s0 Ha Hf Hs Hw Ho)) as H.
  destruct (exec (commit fuel st) w) as [[ok st'] w']. unfold committed in H. cbn [fst snd] in H.
  cbv zeta. destruct H as [_ [[_ (_ & _ & Hs')]|(wc & (Hc & Hoc & Hsc) & _ & -> & He)]].
  - eexists. split; [by apply (Hs' Ho)|]. split; [|by left]. apply apply_all_wf; [done|by apply acts_ok].
  - rewrite (acts_trans seg w wc w' Hoc (en_others _ _ _ _ _ _ He)), apply_all_app.
    destruct (en_seg _ _ _ _ _ _ He) as (s' & Hs' & Hw' & Hv). exists s'. split_and!; [done..|].
    intros k Hh. apply Hv, headroom_after; [done|by apply acts_ok|done].
Qed.

(** The witness's commit runs while another process stores a key. *)
Definition busy_world : World :=
  mkWorld empty_fs 42 {[ftok_key 7 65 := 1; ftok_key 7 66 := 1]} (Some 3)
    {[3 := mkObj SEGMENT_SIZE sample]} 4
    [(9, Ops []); (9, Ops []); (3, Ops [OPut [98] [49] true])] [].

Lemma busy_others : others_ok busy_world.
Proof. by repeat constructor. Qed.

Lemma commit_retires_written_witness :
  let '(ok, _, w') := exec (commit 1 attached) busy_world in
  let os := acts busy_world w' 3 in
  let s1 := apply_all os sample in
  exists s', seg_at w' 3 s' /\ wf s' /\
    forall k, headroom sample k (length os) ->
      view s' !! k = view s1 !! k \/
      exists p, p_val p = Spec.get (view (snapshot_of 1 3 busy_world)) k /\
        retired (view s1) (view s') k p /\ f_lookup (w_fs w') k = File <$> p_val p.
Proof.
  apply (commit_retires_written 1 attached 3 busy_world sample);
    [done|apply empty_fs_wf|done|apply sample_spec|apply busy_others].
Defined.
