(* ===== verification/LoadInv.v ===== *)
(** Reading the whole store directory into a segment. *)

From S2P Require Import Prelude Consts Hash Spec Names Segment Shm ShmInv ShmOps ShmRefine Preload Identity Cache ShmTrace World Wp Disk DiskInv Publish Sem SemInv Attach Store WriteOut CommitInv.

(** What [load_all] hands to its callback for a name, if anything. *)
Definition loadable (f : FS) (n : bytes) : option bytes :=
  if utf8 n && negb (starts_with [46] n) then
    match f_lookup f n with Some (File bs) => Some bs | _ => None end
  else None.

Definition entry_bytes (f : FS) (n : bytes) : Z :=
  match loadable f n with Some bs => len n + len bs | None => 0 end.

Definition total_bytes (f : FS) (ns : list bytes) : Z := foldr (fun n a => entry_bytes f n + a) 0 ns.

(** The names of the directory, as [read_dir] lists them. *)
Definition names (f : FS) : list bytes := (map_to_list (f_dir f)).*1.

Lemma entry_bytes_nonneg f n : 0 <= entry_bytes f n.
Proof.
  unfold entry_bytes. destruct (loadable f n) as [bs|]; [|lia].
  pose proof (len_nonneg n). pose proof (len_nonneg bs). lia.
Qed.

Lemma total_bytes_app f l1 l2 : total_bytes f (l1 ++ l2) = total_bytes f l1 + total_bytes f l2.
Proof. induction l1 as [|n l1 IH]; simpl; lia. Qed.

Lemma total_bytes_nonneg f l : 0 <= total_bytes f l.
Proof. induction l as [|n l IH]; simpl; [lia|]. pose proof (entry_bytes_nonneg f n). lia. Qed.

(** No file is so long that its record's size would not fit 63 bits. *)
Definition sizes_ok (f : FS) : Prop :=
  forall n bs, loadable f n = Some bs -> len n + len bs < 2 ^ 63.

Lemma loadable_same f f' n : keys_same f f' -> loadable f' n = loadable f n.
Proof.
  intros Hk. unfold loadable. destruct (utf8 n); [|done].
  destruct (starts_with [46] n) eqn:E; [done|]. cbn [andb negb].
  rewrite (ks_lookup _ _ Hk); [done|]. intros Ht. apply starts_with_dot in Ht. congruence.
Qed.

(** Everything but the directory's temporary files and object [seg] is as it
    was. *)
Record loading (w w' : World) : Prop := mk_loading {
  lo_keys : keys_same (w_fs w) (w_fs w');
  lo_dev : f_dev (w_fs w') = f_dev (w_fs w);
  lo_pid : w_pid w' = w_pid w;
  lo_name : w_name w' = w_name w;
  lo_next : w_nextobj w' = w_nextobj w;
  lo_others : w_others w' = w_others w;
  lo_faults : w_faults w = [] -> w_faults w' = []
}.

Lemma loading_refl w : fs_wf (w_fs w) -> loading w w.
Proof. intros H. by split. Qed.

Lemma loading_trans w1 w2 w3 : loading w1 w2 -> loading w2 w3 -> loading w1 w3.
Proof.
  intros [H1 H2 H3 H4 H5 H6 H7] [G1 G2 G3 G4 G5 G6 G7]. split; try congruence; [|auto].
  by eapply keys_same_trans.
Qed.

(** A read-only call of the directory. *)
Lemma handle_look {R} (c : call R) w :
  fs_wf (w_fs w) ->
  match c with ReadDir | FileType _ | FsRead _ | FsMeta _ | IsDir | StatDev => True | _ => False end ->
  loading w (snd (handle c w)) /\ w_objs (snd (handle c w)) = w_objs w.
Proof.
  intros Hwf Hc. destruct c; try done; (split; [|done]); split; try done;
    try (by apply keys_same_refl); unfold handle; cbn [pop_fault snd w_faults]; by intros ->.
Qed.

Lemma handle_remove_loading n w :
  fs_wf (w_fs w) -> is_tmp n ->
  loading w (snd (handle (FsRemove n) w)) /\ w_objs (snd (handle (FsRemove n) w)) = w_objs w.
Proof.
  intros Hwf Hn. pose proof (handle_remove_tmp n w Hwf Hn) as H.
  assert (f_dev (w_fs (snd (handle (FsRemove n) w))) = f_dev (w_fs w) /\
          (w_faults w = [] -> w_faults (snd (handle (FsRemove n) w)) = [])) as [Hd Hf].
  { unfold handle. cbn [pop_fault]. unfold on_fs, fs_remove. cbn [w_fs snd]. split.
    - repeat (case_if || case_match); done.
    - cbn. by intros ->. }
  destruct (handle (FsRemove n) w) as [r w']. destruct H as [Ht []]. cbn [snd] in *.
  split; [|done]. split; try done. by apply (tmp_step_keys n).
Qed.

Lemma handle_seg_faults {A} o (p : prog A) w :
  w_faults (snd (handle (Seg o p) w)) = w_faults w.
Proof.
  unfold handle, handle_seg. destruct (w_objs w !! o) as [ob|]; [|done].
  by destruct (run p (so_seg ob)).
Qed.

Section load.
Variables (seg : Z) (w0 : World) (ident : Z * Z * Z * Z) (ns : list bytes).
Hypothesis Hwf0 : fs_wf (w_fs w0).
Hypothesis Hnd : NoDup ns.
Hypothesis Hsize : sizes_ok (w_fs w0).

(** All of the names [pre], one after the other. *)
Record stored (pre : list bytes) (s : Segment) : Prop := mk_stored {
  sd_filled : filled s (view s);
  sd_used : used s <= total_bytes (w_fs w0) pre;
  sd_complete : w_faults w0 = [] -> forall k bs, k ∈ pre -> loadable (w_fs w0) k = Some bs ->
    view s !! k = Some (Some bs, false)
}.

(** What the segment holds once the names [pre] have been through: values of
    the directory, and all of them if there is room. *)
Record holds (pre : list bytes) (s : Segment) : Prop := mk_holds {
  ho_wf : wf s;
  ho_sound : forall k it, view s !! k = Some it ->
    k ∈ pre /\ exists bs, loadable (w_fs w0) k = Some bs /\ it = (Some bs, false);
  ho_stored : total_bytes (w_fs w0) ns <= ARENA_SIZE -> stored pre s
}.

Definition loaded (pre : list bytes) (failed : bool) (w : World) : Prop :=
  loading w0 w /\
  exists s, seg_at w seg s /\ identity s = ident /\ (failed = false -> holds pre s).

Lemma holds_skip pre n s :
  holds pre s ->
  (w_faults w0 = [] -> loadable (w_fs w0) n = None) -> holds (pre ++ [n]) s.
Proof.
  intros [H1 H2 H3] Hn. split; [done|..].
  - intros k it Hk. destruct (H2 k it Hk) as [Hin ?]. split; [by apply elem_snoc_l|done].
  - intros Hfit. destruct (H3 Hfit) as [G1 G2 G3]. split; [done|..].
    + rewrite total_bytes_app. pose proof (total_bytes_nonneg (w_fs w0) [n]). lia.
    + intros Hf k bs [Hk| ->]%elem_snoc Hl; [by apply G3|]. rewrite Hn in Hl by done. done.
Qed.

Lemma loaded_skip pre n failed w w' :
  loaded pre failed w -> loading w w' -> w_objs w' = w_objs w ->
  (w_faults w0 = [] -> loadable (w_fs w0) n = None) -> loaded (pre ++ [n]) failed w'.
Proof.
  intros (Hl & s & Hs & Hid & Hh) Hlw Ho Hn. split; [by eapply loading_trans|].
  exists s. split_and!; [unfold seg_at; by rewrite Ho|done|]. intros Hf.
  apply holds_skip; auto.
Qed.

Lemma loading_wf w w' : loading w w' -> fs_wf (w_fs w').
Proof. intros H. apply (ks_wf _ _ (lo_keys _ _ H)). Qed.

Lemma holds_fresh pre n post s :
  ns = pre ++ n :: post -> holds pre s -> view s !! n = None.
Proof using Hnd.
  intros Hns [_ Hsd _]. destruct (view s !! n) as [it|] eqn:E; [|done].
  destruct (Hsd n it E) as [Hin _]. rewrite Hns in Hnd. apply NoDup_app in Hnd as (_ & Hd & _).
  exfalso. apply (Hd n Hin). apply list_elem_of_here.
Qed.

(** With room for everything, the key is added and nothing else happens. *)
Lemma stored_put pre n post bs s :
  ns = pre ++ n :: post -> holds pre s -> loadable (w_fs w0) n = Some bs ->
  total_bytes (w_fs w0) ns <= ARENA_SIZE ->
  let (r, s') := run (Shm.put n bs false) s in
  is_ok r = true -> stored (pre ++ [n]) s'.
Proof using Hnd.
  intros Hns Hh Hload Hfit. destruct (ho_stored _ _ Hh Hfit) as [Hfi Hu Hcp].
  pose proof (holds_fresh pre n post s Hns Hh) as Hn.
  assert (total_bytes (w_fs w0) pre + entry_bytes (w_fs w0) n <= ARENA_SIZE) as Hsz.
  { rewrite Hns, total_bytes_app in Hfit. simpl in Hfit.
    pose proof (total_bytes_nonneg (w_fs w0) post). lia. }
  unfold entry_bytes in Hsz. rewrite Hload in Hsz.
  pose proof (run_put_fresh s (view s) n bs Hfi Hn ltac:(lia)) as Hput.
  destruct (run (Shm.put n bs false) s) as [r s']. destruct r as [[]|]; [intros _|done].
  destruct Hput as [Hfi' Hu']. pose proof (fi_view _ _ Hfi') as Hv. split; rewrite ?Hv; [done|..].
  - rewrite total_bytes_app. simpl. unfold entry_bytes. rewrite Hload. lia.
  - intros Hnf k bs' Hk Hl2. destruct (decide (n = k)) as [->|Hne].
    + rewrite lookup_insert_eq. congruence.
    + rewrite lookup_insert_ne by done. apply elem_snoc in Hk as [Hk|Hk]; [by apply Hcp|congruence].
Qed.

(** Whatever a compaction on the way drops, nothing else gets in. *)
Lemma holds_put pre n post bs s :
  ns = pre ++ n :: post -> holds pre s -> loadable (w_fs w0) n = Some bs ->
  let (r, s') := run (Shm.put n bs false) s in
  is_ok r = true -> holds (pre ++ [n]) s'.
Proof using Hnd Hsize.
  intros Hns Hh Hload. pose proof (stored_put pre n post bs s Hns Hh Hload) as Hst.
  pose proof (holds_fresh pre n post s Hns Hh) as Hn. destruct Hh as [Hwf Hsd _].
  destruct (run_put s n bs false Hwf (Hsize n bs Hload)) as (m & [Hw Hsub _ _ Hv _]).
  destruct (run (Shm.put n bs false) s) as [r s']. cbn [fst snd] in *.
  destruct r as [[]|]; [intros Hr|done]. split; [done| |intros Hfit; by apply Hst].
  assert (m !! n = None) as Hmn by (by eapply lookup_weaken_None).
  rewrite put_insert in Hv by (unfold Spec.get; by rewrite Hmn).
  unfold Spec.dirty in Hv. rewrite Hmn in Hv. intros k it. rewrite Hv.
  intros [[<- <-]|[_ Hk]]%lookup_insert_Some.
  - split; [apply elem_snoc_r|]. by exists bs.
  - destruct (Hsd k it (lookup_weaken _ _ _ _ Hk Hsub)) as [Hin ?]. split; [by apply elem_snoc_l|done].
Qed.

Lemma loaded_put pre n post bs failed w :
  ns = pre ++ n :: post -> loaded pre failed w -> loadable (w_fs w0) n = Some bs ->
  wp (fun _ => True) (preload seg n bs failed) (fun failed' w' => loaded (pre ++ [n]) failed' w') w.
Proof using Hnd Hsize.
  intros Hns (Hl & s & Hs & Hid & Hh) Hload. unfold preload. apply wp_bind, wp_sys; [done|].
  pose proof (handle_seg_at seg (Shm.put n bs false) s w Hs) as H.
  pose proof (handle_seg_faults seg (Shm.put n bs false) w) as Hfl.
  destruct (handle (Seg seg (Shm.put n bs false)) w) as [r w']. cbn [snd] in Hfl.
  destruct H as (-> & Hs' & Hc & Ho). split; [done|]. apply wp_ret; [done|].
  assert (loading w0 w') as Hl'.
  { destruct Hl as [L1 L2 L3 L4 L5 L6 L7], Hc as [C1 C2 C3 C4].
    split; rewrite ?C1, ?C2, ?C3, ?C4, ?Ho, ?Hfl; done. }
  split; [done|]. eexists. split; [exact Hs'|]. split.
  { rewrite run_identity; [done|apply data_only_put]. }
  intros Hf. destruct (is_ok (fst (run (Shm.put n bs false) s))) eqn:Hr; [|done].
  pose proof (holds_put pre n post bs s Hns (Hh Hf) Hload) as H.
  destruct (run (Shm.put n bs false) s). by apply H.
Qed.

Lemma wp_load_entry pre n post failed w :
  ns = pre ++ n :: post -> loaded pre failed w ->
  wp (fun _ => True) (load_entry (preload seg) n failed)
    (fun failed' w' => loaded (pre ++ [n]) failed' w') w.
Proof using Hnd Hsize.
  intros Hns HJ. pose proof HJ as (Hl & s & Hs & Hid & Hh). pose proof (loading_wf _ _ Hl) as Hw.
  unfold load_entry.
  destruct (utf8 n) eqn:Hu; cbn [negb].
  2: { apply wp_ret; [done|]. apply (loaded_skip pre n failed w w); [done|by apply loading_refl|done|].
       intros _. unfold loadable. by rewrite Hu. }
  destruct (starts_with TMP_PREFIX n || starts_with [46] n) eqn:Hdot.
  { assert (starts_with [46] n = true) as Hd.
    { apply orb_true_iff in Hdot as [Ht|]; [by apply starts_with_dot in Ht|done]. }
    assert (loadable (w_fs w0) n = None) as Hno by (unfold loadable; by rewrite Hu, Hd).
    destruct (starts_with TMP_PREFIX n) eqn:Ht.
    - apply wp_bind, wp_sys; [done|]. destruct (handle_remove_loading n w Hw Ht) as [H1 H2].
      destruct (handle (FsRemove n) w) as [r w']. cbn [snd] in *. split; [done|].
      apply wp_ret; [done|]. by apply (loaded_skip pre n failed w w').
    - apply wp_ret; [done|]. apply (loaded_skip pre n failed w w); [done|by apply loading_refl|done..]. }
  apply orb_false_iff in Hdot as [_ Hd].
  assert (forall bs, f_lookup (w_fs w) n = Some (File bs) -> loadable (w_fs w0) n = Some bs) as Hyes.
  { intros bs E. rewrite <- (loadable_same _ _ n (lo_keys _ _ Hl)). unfold loadable.
    by rewrite Hu, Hd, E. }
  assert ((forall bs, f_lookup (w_fs w) n <> Some (File bs)) -> loadable (w_fs w0) n = None) as Hnot.
  { intros E. rewrite <- (loadable_same _ _ n (lo_keys _ _ Hl)). unfold loadable.
    rewrite Hu, Hd. cbn. destruct (f_lookup (w_fs w) n) as [[bs|]|]; try done. by destruct (E bs). }
  apply wp_bind, wp_sys; [done|].
  destruct (handle_look (FileType n) w Hw I) as [H1 H2].
  assert (w_faults w0 = [] -> fst (handle (FileType n) w) =
    match f_lookup (w_fs w) n with
    | Some (File _) => Some true | Some Other => Some false | None => None end) as Hft.
  { intros E. unfold handle. cbn [pop_fault]. by rewrite (lo_faults _ _ Hl E). }
  assert (w_fs (snd (handle (FileType n) w)) = w_fs w) as Hfs1 by done.
  destruct (handle (FileType n) w) as [t w1]. cbn [fst snd] in *. split; [done|].
  assert (loading w0 w1) as Hl1 by by eapply loading_trans.
  destruct t as [[|]|].
  - apply wp_bind, wp_sys; [done|].
    destruct (handle_look (FsRead n) w1 (loading_wf _ _ Hl1) I) as [H3 H4].
    assert (forall bs, fst (handle (FsRead n) w1) = Some bs -> f_lookup (w_fs w1) n = Some (File bs))
      as Hrd.
    { intros bs. unfold handle. cbn [pop_fault fst]. unfold fs_read. case_if; [done|].
      cbn [w_fs]. destruct (f_lookup (w_fs w1) n) as [[]|]; by intros [= ->]. }
    assert (w_faults w0 = [] -> fst (handle (FsRead n) w1) = None ->
      forall bs, f_lookup (w_fs w1) n <> Some (File bs)) as Hrd'.
    { intros E. unfold handle. cbn [pop_fault fst w_fs]. rewrite (lo_faults _ _ Hl1 E).
      unfold fs_read. cbn. intros Hnone bs Hb. by rewrite Hb in Hnone. }
    destruct (handle (FsRead n) w1) as [bs w2]. cbn [fst snd] in *. split; [done|].
    rewrite Hfs1 in *. destruct bs as [bs|].
    + apply (loaded_put pre n post); [done| |by apply Hyes, Hrd].
      split; [by eapply loading_trans|]. exists s. split_and!; [|done..].
      unfold seg_at in *. congruence.
    + apply wp_ret; [done|]. apply (loaded_skip pre n failed w w2); [done| |congruence|].
      * by eapply loading_trans.
      * intros E. by apply Hnot, Hrd'.
  - apply wp_ret; [done|]. apply (loaded_skip pre n failed w w1); [done..|].
    intros E. specialize (Hft E). apply Hnot. intros bs Hb. by rewrite Hb in Hft.
  - apply wp_ret; [done|]. apply (loaded_skip pre n failed w w1); [done..|].
    intros E. specialize (Hft E). apply Hnot. intros bs Hb. by rewrite Hb in Hft.
Qed.
End load.
