(* ===== verification/CreateInv.v ===== *)
(** Creating the segment, and the call that does it at boot. *)

From S2P Require Import Prelude Consts Hash Spec Layout Names Segment Shm ShmInv ShmOps ShmCompact ShmRefine Preload Identity Cache ShmTrace World Wp Disk DiskInv Publish Sem SemInv Attach Store WriteOut CommitInv LoadInv.

(** * [populate] *)

Lemma loadable_in f k bs : loadable f k = Some bs -> k ∈ names f.
Proof.
  unfold loadable, f_lookup, names. case_if; [|done].
  destruct (f_dir f !! k) as [i|] eqn:E; [|done]. intros _.
  apply list_elem_of_fmap. exists (k, i). split; [done|]. by apply elem_of_map_to_list.
Qed.

Lemma names_NoDup f : NoDup (names f).
Proof. apply NoDup_fst_map_to_list. Qed.

(** What fits the arena has sizes far from any limit. *)
Lemma fits_sizes f : total_bytes f (names f) <= ARENA_SIZE -> sizes_ok f.
Proof.
  intros Hfit n bs Hl. pose proof (loadable_in f n bs Hl) as Hin.
  assert (entry_bytes f n <= total_bytes f (names f)) as H.
  { clear Hfit. induction (names f) as [|n' ns IH]; [by apply elem_of_nil in Hin|]. cbn [total_bytes foldr].
    pose proof (entry_bytes_nonneg f n'). pose proof (total_bytes_nonneg f ns) as H0. unfold total_bytes in H0.
    apply elem_of_cons in Hin as [->|Hin]; [lia|]. specialize (IH Hin). unfold total_bytes in IH. lia. }
  unfold entry_bytes in H. rewrite Hl in H. assert (ARENA_SIZE < 2 ^ 63) by done. lia.
Qed.

(** What a populated segment holds: nothing but the directory's values; all of
    them if there is room for them and no call failed. *)
Record populated (w : World) (s : Segment) : Prop := mk_populated {
  po_wf : wf s;
  po_sound : forall k it, view s !! k = Some it ->
    exists bs, loadable (w_fs w) k = Some bs /\ it = (Some bs, false);
  po_complete : w_faults w = [] -> total_bytes (w_fs w) (names (w_fs w)) <= ARENA_SIZE ->
    forall k bs, loadable (w_fs w) k = Some bs -> view s !! k = Some (Some bs, false)
}.

Lemma populated_proper w s s' : same_data s s' -> populated w s -> populated w s'.
Proof.
  intros Hd [H1 H2 H3]. split; rewrite <- ?(view_proper _ _ Hd); [by eapply same_data_wf|done..].
Qed.

Lemma wp_populate seg w0 s0 :
  fs_wf (w_fs w0) -> sizes_ok (w_fs w0) -> seg_at w0 seg s0 -> fresh s0 ->
  wp (fun _ => True) (populate seg) (fun r w' => loading w0 w' /\
    exists s, seg_at w' seg s /\ identity s = identity s0 /\
      (r = Ok tt -> populated w0 s)) w0.
Proof.
  intros Hw Hsize Hs Hfr. unfold populate, load_all. apply wp_bind, wp_bind, wp_sys; [done|].
  destruct (handle_look ReadDir w0 Hw I) as [H1 H2].
  assert (w_fs (snd (handle ReadDir w0)) = w_fs w0) as Hfs by done.
  assert (forall ns, fst (handle ReadDir w0) = Some ns ->
    (exists n, ns = take n (names (w_fs w0))) /\ (w_faults w0 = [] -> ns = names (w_fs w0))) as Hns.
  { intros ns. unfold handle. cbn [pop_fault fst w_fs]. unfold fs_read_dir. case_if; [done|].
    fold (names (w_fs w0)). destruct (w_faults w0) as [|x xs]; cbn [hd].
    - intros [= <-]. split; [|done]. exists (length (names (w_fs w0))). by rewrite firstn_all.
    - destruct x; intros [= <-]; (split; [|done]).
      + exists (length (names (w_fs w0))). by rewrite firstn_all.
      + by eexists. }
  destruct (handle ReadDir w0) as [[ns|] w1]; cbn [fst snd] in *; (split; [done|]).
  2: { apply wp_ret; [done|]. apply wp_ret; [done|]. split; [done|]. exists s0.
       split_and!; [|done..]. unfold seg_at in *. congruence. }
  destruct (Hns ns eq_refl) as [[n ->] Hall].
  assert (seg_at w1 seg s0) as Hs1 by (unfold seg_at in *; congruence).
  assert (NoDup (take n (names (w_fs w0)))) as Hnd.
  { eapply sublist_NoDup; [apply names_NoDup|]. apply sublist_take. }
  apply wp_bind.
  apply (wp_foldM (fun _ => True) (take n (names (w_fs w0))) false (load_entry (preload seg))
    (loaded seg w1 (identity s0) (take n (names (w_fs w0))))); [done| | |].
  - split; [apply loading_refl; by rewrite Hfs|]. exists s0. split_and!; [done..|]. intros _.
    split; [by apply fresh_wf|..].
    + intros k it H. by rewrite (fresh_view s0 Hfr), lookup_empty in H.
    + intros _. split.
      * rewrite (fresh_view s0 Hfr). by apply fresh_filled.
      * rewrite (fresh_used s0 Hfr). done.
      * intros _ k bs H. by apply elem_of_nil in H.
  - intros pre x post failed w' Heq _ HJ.
    apply (wp_load_entry seg w1 (identity s0) (take n (names (w_fs w0))) Hnd ltac:(by rewrite Hfs) pre x post); done.
  - intros failed w' _ (Hl & s & Hs' & Hid & Hh). apply wp_ret; [done|]. apply wp_ret; [done|].
    split; [by eapply loading_trans|]. exists s. split_and!; [done..|].
    destruct failed; [done|]. intros _. destruct (Hh eq_refl) as [F1 F2 F3].
    rewrite Hfs in F2, F3. split; [done|..].
    + intros k it Hk. by destruct (F2 k it Hk) as [_ ?].
    + intros Hf Hfit k bs Hk. rewrite <- (Hall Hf) in Hfit. destruct (F3 Hfit) as [_ _ F4].
      rewrite Hfs in F4. apply F4; [by apply (lo_faults _ _ H1)| |done].
      rewrite (Hall Hf). by eapply loadable_in.
Qed.

(** * [create] *)

Lemma populated_from w1 w s :
  populated w1 s -> w_fs w1 = w_fs w -> (w_faults w = [] -> w_faults w1 = []) -> populated w s.
Proof. intros [H1 H2 H3] Hf Hn. rewrite Hf in *. split; auto. Qed.

Definition header_ident (dev ready : Z) : Z * Z * Z * Z := (SHM_MAGIC, SHM_VERSION, ready, dev).

Lemma run_init_header dev :
  let s := snd (run (init_header dev) zero_segment) in
  fresh s /\ identity s = header_ident dev 0.
Proof. by repeat split. Qed.

Lemma run_ready s :
  let s' := snd (run (storec CReady 1) s) in
  same_data s s' /\ identity s' = (h_magic (header s), h_version (header s), 1, h_store_dev (header s)).
Proof.
  cbv zeta. rewrite run_storec. cbn [snd]. unfold store. cbn [cell_entry].
  destruct s as [[] idx ar]. by split.
Qed.

Section create.
Variables (fuel : nat) (w : World).
Hypothesis Hfs : fs_wf (w_fs w).
Hypothesis Hsize : sizes_ok (w_fs w).
Hypothesis Halone : w_others w = [].

(** The object [create] has just made. *)
Definition new_obj : Z := w_nextobj w.

(** The name is ours, the object is [ob], and nothing else has happened. *)
Record setting (ob : option shmobj) (w' : World) : Prop := mk_setting {
  se_keys : keys_same (w_fs w) (w_fs w');
  se_dev : f_dev (w_fs w') = f_dev (w_fs w);
  se_name : w_name w' = Some new_obj;
  se_obj : w_objs w' !! new_obj = ob;
  se_others : w_others w' = []
}.

(** How it ends. *)
Definition created (r : result Z) (w' : World) : Prop :=
  keys_same (w_fs w) (w_fs w') /\
  match r with
  | Ok o => w_name w' = Some o /\ exists s, seg_at w' o s /\
      identity s = header_ident (f_dev (w_fs w)) 1 /\ populated w s
  | Err => w_name w' = None
  end.

Lemma setting_quiet ob w1 w2 : setting ob w1 -> quiet w1 w2 -> setting ob w2.
Proof.
  intros [H1 H2 H3 H4 H5] [[C1 C2 C3 C4] C5 C6]. split; rewrite ?C1, ?C3, ?C5, ?C6; done.
Qed.

Let top (_ : World) : Prop := True.

(** Giving up: the name goes, whatever the lock does. *)
Lemma wp_give_up_late ob guard w1 :
  setting ob w1 ->
  wp top (drop_opt fuel guard;; (sys ShmUnlink;; iret Err)) created w1.
Proof.
  intros Hs. apply wp_bind. eapply (wp_mono top _ (fun _ w' => setting ob w')).
  { destruct guard as [g|]; cbn [drop_opt]; [|by apply wp_ret].
    eapply wp_mono; [apply (wp_drop top fuel g w1); done|].
    intros [] w2 _ Hq. by eapply setting_quiet. }
  intros [] w2 _ Hs2. apply wp_bind, wp_sys; [done|]. unfold handle. split; [done|].
  apply wp_ret; [done|]. split; [|done]. cbn. apply (se_keys _ _ Hs2).
Qed.

Lemma wp_give_up ob guard w1 :
  setting ob w1 ->
  wp top (sys ShmUnlink;; (drop_opt fuel guard;; iret Err)) created w1.
Proof.
  intros Hs. apply wp_bind, wp_sys; [done|]. unfold handle. split; [done|].
  apply wp_bind. set (w2 := upd_name None w1).
  assert (created Err w2) as H2 by (split; [apply (se_keys _ _ Hs)|done]).
  clearbody w2. destruct guard as [g|]; cbn [drop_opt]; [|by repeat (apply wp_ret; [done|])].
  eapply wp_mono; [apply (wp_drop top fuel g w2); done|].
  intros [] w3 _ [[C1 C2 C3 C4] _ _]. apply wp_ret; [done|]. destruct H2 as [K N].
  split; [by rewrite C1|by rewrite C3].
Qed.

(** The object is filled: say so, and let go of the lock. *)
Lemma wp_announce guard s8 w7 w8 :
  setting (Some (mkObj SEGMENT_SIZE s8)) w8 -> identity s8 = header_ident (f_dev (w_fs w)) 0 ->
  populated w7 s8 -> w_fs w7 = w_fs w -> (w_faults w = [] -> w_faults w7 = []) ->
  wp top (sys (Seg new_obj (storec CReady 1));; (drop_opt fuel guard;; iret (Ok new_obj))) created w8.
Proof using Hfs Hsize.
  intros Hset8 Hid8 Hm Hfs7 Hf7. apply wp_bind, wp_sys; [done|].
  pose proof (handle_seg_at new_obj (storec CReady 1) s8 w8 (se_obj _ _ Hset8)) as H.
  destruct (handle (Seg new_obj (storec CReady 1)) w8) as [r2 w9].
  destruct H as (_ & Hs9 & [D1 D2 D3 D4] & Ho9). split; [done|].
  destruct (run_ready s8) as [Hd Hid9].
  set (s9 := snd (run (storec CReady 1) s8)) in *. clearbody s9.
  assert (setting (Some (mkObj SEGMENT_SIZE s9)) w9) as Hset9.
  { destruct Hset8 as [H1 H2 H3 H4 H5]. split; [by rewrite D1|by rewrite D1|by rewrite D3|exact Hs9|by rewrite Ho9]. }
  apply wp_bind. eapply (wp_mono top _ (fun _ w' => setting (Some (mkObj SEGMENT_SIZE s9)) w')).
  { destruct guard as [g|]; cbn [drop_opt]; [|by apply wp_ret].
    eapply wp_mono; [apply (wp_drop top fuel g w9); done|].
    intros [] w10 _ Hq. by eapply setting_quiet. }
  intros [] w10 _ [H1 H2 H3 H4 H5]. apply wp_ret; [done|]. split; [done|].
  split; [done|]. exists s9. split_and!; [done| |].
  - rewrite Hid9. unfold identity, header_ident in *. by injection Hid8 as -> -> _ ->.
  - apply (populated_from w7); [|done..]. by eapply populated_proper.
Qed.

(** From the moment the object is sized and mapped. *)
Lemma wp_fill_mapped guard w5 :
  setting (Some (mkObj SEGMENT_SIZE zero_segment)) w5 -> (w_faults w = [] -> w_faults w5 = []) ->
  w_fs w5 = w_fs w ->
  wp top (do dev <- store_dev;
          match dev with
          | None => drop_opt fuel guard;; (sys ShmUnlink;; iret Err)
          | Some dev =>
            sys (Seg new_obj (init_header dev));;
            (do ok <- populate new_obj;
             match ok with
             | Err => drop_opt fuel guard;; (sys ShmUnlink;; iret Err)
             | Ok _ => sys (Seg new_obj (storec CReady 1));; (drop_opt fuel guard;; iret (Ok new_obj))
             end)
          end) created w5.
Proof using Hfs Hsize.
  intros Hs5 Hf5 Hfs5. apply wp_bind, wp_sys; [done|].
  assert (setting (Some (mkObj SEGMENT_SIZE zero_segment)) (snd (handle StatDev w5))) as Hs6
    by (destruct Hs5; by split).
  assert (w_faults w = [] -> w_faults (snd (handle StatDev w5)) = []) as Hf6
    by (intros E; by apply handle_faults_nil, Hf5).
  assert (w_fs (snd (handle StatDev w5)) = w_fs w) as Hfs6 by done.
  assert (forall d, fst (handle StatDev w5) = Some d -> d = f_dev (w_fs w)) as Hdev.
  { intros d. rewrite <- Hfs5. unfold handle. cbn [pop_fault fst w_fs]. case_if; [by intros [= <-]|done]. }
  destruct (handle StatDev w5) as [dev w6]. cbn [fst snd] in *. split; [done|].
  clear Hs5 Hfs5 Hf5. destruct dev as [dev|]; [|by eapply wp_give_up_late].
  rewrite (Hdev dev eq_refl). clear dev Hdev. apply wp_bind, wp_sys; [done|].
  pose proof (handle_seg_at new_obj (init_header (f_dev (w_fs w))) zero_segment w6 (se_obj _ _ Hs6)) as H.
  pose proof (handle_seg_faults new_obj (init_header (f_dev (w_fs w))) w6) as Hf7.
  destruct (handle (Seg new_obj _) w6) as [r w7]. cbn [snd] in Hf7.
  destruct H as (_ & Hs7 & [C1 C2 C3 C4] & Ho7). split; [done|].
  destruct (run_init_header (f_dev (w_fs w))) as [Hfresh Hid].
  set (s7 := snd (run (init_header (f_dev (w_fs w))) zero_segment)) in *. clearbody s7.
  apply wp_bind. eapply wp_mono.
  { apply (wp_populate new_obj w7 s7); rewrite ?C1, ?Hfs6; done. }
  intros ok w8 _ (Hl & s8 & Hs8 & Hid8 & Hok).
  assert (setting (Some (mkObj SEGMENT_SIZE s8)) w8) as Hset8.
  { destruct Hs6 as [H1 H2 H3 H4 H5], Hl as [L1 L2 L3 L4 L5 L6 L7]. split.
    - eapply keys_same_trans; [exact H1|]. by rewrite <- C1.
    - rewrite L2, C1. done.
    - rewrite L4, C3. done.
    - done.
    - rewrite L6, Ho7. done. }
  destruct ok as [[]|]; [|by eapply wp_give_up_late].
  specialize (Hok eq_refl). apply (wp_announce guard s8 w7); try done.
  - by rewrite Hid8.
  - by rewrite C1.
  - intros E. rewrite Hf7. by apply Hf6.
Qed.

(** The object exists, with nothing in it. *)
Lemma wp_create_fill w1 :
  setting (Some (mkObj 0 zero_segment)) w1 -> (w_faults w = [] -> w_faults w1 = []) ->
  w_fs w1 = w_fs w ->
  wp top (create_fill fuel populate new_obj) created w1.
Proof using Hfs Hsize.
  intros Hs1 Hf1 Hfs1. unfold create_fill. apply wp_bind. eapply wp_mono.
  { apply wp_named, (wp_lock_alone top); [done|apply (se_others _ _ Hs1)]. }
  intros guard w2 _ [Hex Hq2]. pose proof (setting_quiet _ _ _ Hs1 Hq2) as Hs2.
  assert (w_fs w2 = w_fs w) as Hfs2 by (rewrite (ca_fs _ _ (qu_calm _ _ Hq2)); exact Hfs1).
  assert (w_faults w = [] -> w_faults w2 = []) as Hf2.
  { intros E. pose proof (exec_faults_nil (acquire fuel) w1 (Hf1 E)) as H. by rewrite Hex in H. }
  clear Hex Hq2 Hs1 Hf1 Hfs1. apply wp_bind, wp_sys; [done|].
  assert (w_faults w = [] -> w_faults (snd (handle (Ftruncate new_obj SEGMENT_SIZE) w2)) = []) as Hf3
    by (intros E; by apply handle_faults_nil, Hf2).
  assert (exists ob, setting (Some ob) (snd (handle (Ftruncate new_obj SEGMENT_SIZE) w2)) /\
    w_fs (snd (handle (Ftruncate new_obj SEGMENT_SIZE) w2)) = w_fs w /\
    (fst (handle (Ftruncate new_obj SEGMENT_SIZE) w2) = true -> ob = mkObj SEGMENT_SIZE zero_segment))
    as (ob & Hs3 & Hfs3 & Hob).
  { destruct Hs2 as [H1 H2 H3 H4 H5]. unfold handle. cbn [pop_fault]. case_if; cbn [fst snd].
    - exists (mkObj 0 zero_segment). split_and!; [by split|done|done].
    - exists (mkObj SEGMENT_SIZE zero_segment). split_and!; [|done..]. split; try done.
      cbn. by rewrite lookup_alter_eq, H4. }
  destruct (handle (Ftruncate new_obj SEGMENT_SIZE) w2) as [sized w3]. cbn [fst snd] in *.
  split; [done|]. clear Hs2 Hfs2 Hf2. destruct sized; cbn [negb]; [|by eapply wp_give_up].
  specialize (Hob eq_refl). subst ob. unfold map. apply wp_bind, wp_bind, wp_sys; [done|].
  assert (setting (Some (mkObj SEGMENT_SIZE zero_segment)) (snd (handle (Fstat new_obj) w3))) as Hs4
    by (destruct Hs3; by split).
  pose proof (fun E => handle_faults_nil (Fstat new_obj) w3 (Hf3 E)) as Hf4.
  assert (w_fs (snd (handle (Fstat new_obj) w3)) = w_fs w) as Hfs4 by done.
  destruct (handle (Fstat new_obj) w3) as [size w4]. cbn [fst snd] in *. split; [done|].
  destruct (negb _); [apply wp_ret; [done|]; by eapply wp_give_up|].
  apply wp_bind, wp_sys; [done|].
  assert (setting (Some (mkObj SEGMENT_SIZE zero_segment)) (snd (handle (Mmap new_obj) w4))) as Hs5
    by (destruct Hs4; by split).
  pose proof (fun E => handle_faults_nil (Mmap new_obj) w4 (Hf4 E)) as Hf5.
  assert (w_fs (snd (handle (Mmap new_obj) w4)) = w_fs w) as Hfs5 by done.
  destruct (handle (Mmap new_obj) w4) as [ok w5]. cbn [fst snd] in *. split; [done|].
  apply wp_ret; [done|]. destruct ok; [by apply wp_fill_mapped|by eapply wp_give_up].
Qed.
End create.

(** With no object under the name there is nothing to attach to. *)
Lemma wp_attach_none fuel w :
  w_name w = None -> wp (fun _ => True) (attach fuel) (fun r w' => r = Err /\ quiet w w') w.
Proof.
  intros Hn. unfold attach. apply wp_bind, wp_sys; [done|].
  unfold handle. cbn [pop_fault w_name]. rewrite Hn. split; [done|].
  case_if; (apply wp_ret; [done|]; split; [done|by split]).
Qed.

Lemma quiet_name w w' : quiet w w' -> w_name w' = w_name w.
Proof. intros [[] _ _]. done. Qed.

Lemma created_quiet w w' r w2 : quiet w w' -> (w_faults w = [] -> w_faults w' = []) ->
  created w' r w2 -> created w r w2.
Proof.
  intros [[C1 C2 C3 C4] C5 C6] Hf [H1 H2]. rewrite C1 in H1. split; [done|].
  destruct r as [o|]; [|done]. destruct H2 as (Hn & s & Hs & Hid & Hp).
  rewrite C1 in Hid. split; [done|]. exists s. split_and!; [done..|].
  by apply (populated_from w').
Qed.

Lemma wp_create fuel w :
  fs_wf (w_fs w) -> sizes_ok (w_fs w) ->
  w_others w = [] -> w_name w = None ->
  wp (fun _ => True) (create fuel populate) (created w) w.
Proof.
  intros Hfs Hsize Ho Hn. unfold create. apply wp_bind, wp_sys; [done|].
  unfold handle. destruct (pop_fault w) as [x w1] eqn:Hp.
  assert (quiet w w1 /\ (w_faults w = [] -> w_faults w1 = []) /\ w_nextobj w1 = w_nextobj w)
    as (Hq & Hf & Hx).
  { injection Hp as <- <-. split_and!; [by split|by intros ->|done]. }
  unfold shm_create. rewrite (quiet_name _ _ Hq), Hn. destruct (is_bad x).
  - split; [done|]. apply wp_bind. eapply wp_mono.
    { apply wp_attach_none. by rewrite (quiet_name _ _ Hq). }
    intros r w2 _ [-> Hq2]. assert (quiet w w2) as Hq02 by (by etrans).
    apply wp_bind. eapply wp_mono.
    { apply (wp_lock_alone (fun _ => True)); [done|]. by rewrite (qu_others _ _ Hq02). }
    intros g w3 _ Hq3. assert (quiet w w3) as Hq03 by (by etrans).
    apply wp_bind. eapply (wp_mono (fun _ => True) _ (fun _ w' => quiet w w')).
    { destruct g as [g|]; cbn [drop_opt]; [|by apply wp_ret].
      eapply wp_mono; [apply (wp_drop (fun _ => True) fuel g w3); done|].
      intros [] w4 _ Hq4. by etrans. }
    intros [] w4 _ Hq4. eapply wp_mono.
    { apply wp_attach_none. by rewrite (quiet_name _ _ Hq4). }
    intros r w5 _ [-> Hq5]. assert (quiet w w5) as Hq05 by (by etrans).
    split; [|by rewrite (quiet_name _ _ Hq05)].
    rewrite (ca_fs _ _ (qu_calm _ _ Hq05)). by apply keys_same_refl.
  - split; [done|]. set (w2 := mkWorld _ _ _ _ _ _ _ _).
    pose proof (ca_fs _ _ (qu_calm _ _ Hq)) as Hfs1.
    assert (setting w (Some (mkObj 0 zero_segment)) w2 /\ w_fs w2 = w_fs w /\
            (w_faults w = [] -> w_faults w2 = [])) as (Hs2 & Hfs2 & Hf2).
    { split_and!; [|exact Hfs1|exact Hf]. unfold w2. rewrite Hx. split; cbn.
      - rewrite Hfs1. by apply keys_same_refl.
      - by rewrite Hfs1.
      - done.
      - apply lookup_insert_eq.
      - by rewrite (qu_others _ _ Hq). }
    clearbody w2. rewrite Hx. by apply wp_create_fill.
Qed.

(** * [init] *)

(** Where [init] leaves the process and the system. *)
Record initialised (w : World) (st : Store) (r : bool * Store) (w' : World) : Prop := mk_initialised {
  in_keys : keys_same (w_fs w) (w_fs w');
  in_ok : fst r = true -> exists o s, s_seg (snd r) = Some o /\ w_name w' = Some o /\
    seg_at w' o s /\ identity s = header_ident (f_dev (w_fs w)) 1 /\ populated w s;
  in_failed : fst r = false -> snd r = st /\ w_name w' = None
}.

Lemma wp_init fuel st w :
  s_seg st = None ->
  fs_wf (w_fs w) -> sizes_ok (w_fs w) ->
  w_others w = [] -> w_name w = None ->
  wp (fun _ => True) (init fuel st) (initialised w st) w.
Proof.
  intros Hst Hfs Hsize Ho Hn. unfold init. rewrite Hst.
  assert (forall w', quiet w w' -> initialised w st (false, st) w') as Hfail.
  { intros w' Hq. split; [|done|].
    - rewrite (ca_fs _ _ (qu_calm _ _ Hq)). by apply keys_same_refl.
    - intros _. split; [done|]. by rewrite (quiet_name _ _ Hq). }
  unfold store_available, store_dev. apply wp_bind, wp_sys; [done|].
  assert (quiet w (snd (handle IsDir w))) as Hq1 by by split.
  assert (w_faults w = [] -> w_faults (snd (handle IsDir w)) = []) as Hf1
    by (by apply handle_faults_nil).
  destruct (handle IsDir w) as [avail w1]. cbn [snd] in *. split; [done|].
  apply wp_bind.
  eapply (wp_mono _ _ (fun _ w' => quiet w w' /\ (w_faults w = [] -> w_faults w' = []))).
  { destruct avail; cbn [negb]; [|by apply wp_ret]. apply wp_sys; [done|].
    assert (quiet w1 (snd (handle StatDev w1))) as Hq2 by by split.
    pose proof (handle_faults_nil StatDev w1) as Hf2.
    destruct (handle StatDev w1) as [d w2]. cbn [snd] in *. split; [done|].
    split; [by etrans|auto]. }
  intros dev w2 _ [Hq2 Hf2]. destruct dev as [dev|]; [|apply wp_ret; auto].
  apply wp_bind. eapply wp_mono.
  { apply wp_named, wp_attach_none. by rewrite (quiet_name _ _ Hq2). }
  intros r w3 _ (Hex & -> & Hq3). assert (quiet w w3) as Hq03 by (by etrans).
  assert (w_faults w = [] -> w_faults w3 = []) as Hf3.
  { intros E. pose proof (exec_faults_nil (attach fuel) w2 (Hf2 E)) as H. by rewrite Hex in H. }
  unfold unlink. apply wp_bind, wp_sys; [done|]. unfold handle. split; [done|].
  assert (quiet w (upd_name None w3)) as Hq4.
  { destruct Hq03 as [[C1 C2 C3 C4] C5 C6]. split; [split; cbn; congruence|done..]. }
  set (w4 := upd_name None w3) in *. assert (w_faults w = [] -> w_faults w4 = []) as Hf4 by exact Hf3.
  clearbody w4. clear Hf3 Hex Hq3 Hq03. pose proof (ca_fs _ _ (qu_calm _ _ Hq4)) as Hfs4.
  apply wp_bind. eapply wp_mono.
  { apply wp_create; rewrite ?Hfs4; try done.
    - by rewrite (qu_others _ _ Hq4).
    - by rewrite (quiet_name _ _ Hq4). }
  intros r w5 _ Hc. apply (created_quiet w) in Hc; [|done..]. destruct Hc as [Hk Hc].
  apply wp_ret; [done|]. destruct r as [o|]; (split; [done|intros Hb|intros Hb]); try done.
  destruct Hc as (Hn5 & s & Hs & Hid & Hp). exists o, s. split_and!; try done.
Qed.
