(* ===== verification/AttachInv.v ===== *)
(** What attaching accepts, whatever fails and whatever the other processes
    do meanwhile. *)

From S2P Require Import Prelude Consts Layout Names Segment Shm Identity ShmTrace World Wp Disk Sem SemInv Attach.

(** The calls of the locks. *)
Definition is_sem {R} (c : call R) : bool :=
  match c with
  | Ftok _ | SemgetExcl _ | Semget _ | SemSetval _ | SemRmid _ | SemDown _ | SemUp _ => true
  | _ => false
  end.

Fixpoint sem_only {A} (m : io A) : Prop :=
  match m with
  | IRet _ => True
  | ICall c k => is_sem c = true /\ forall r, sem_only (k r)
  end.

Lemma sem_only_bind {A B} (m : io A) (f : A -> io B) :
  sem_only m -> (forall a, sem_only (f a)) -> sem_only (ibind m f).
Proof.
  induction m as [a|R c k IH]; unfold ibind; fold (@ibind A B); intros Hm Hf; [apply Hf|].
  destruct Hm as [Hc Hm]. split; [done|]. intros r. by apply IH.
Qed.

Ltac sem_step :=
  match goal with
  | |- forall _, _ => intro
  | |- sem_only (ibind _ _) => apply sem_only_bind
  | |- sem_only (sys _) => by split
  | |- sem_only (iret _) => done
  | |- sem_only (if ?x then _ else _) => destruct x
  | |- sem_only (match ?x with _ => _ end) => destruct x
  end.

Lemma sem_only_lock_loop fuel id : sem_only (lock_loop fuel id).
Proof. induction fuel as [|n IH]; cbn [lock_loop]; repeat sem_step; apply IH. Qed.

Lemma sem_only_acquire fuel : sem_only (acquire fuel).
Proof.
  unfold acquire, lock. apply sem_only_bind; [unfold sem_get; repeat sem_step|].
  intros [id|]; [apply sem_only_lock_loop|done].
Qed.

Lemma sem_only_drop fuel g : sem_only (drop_opt fuel g).
Proof.
  destruct g as [[id]|]; [|done]. unfold drop_opt, drop_guard. cbn [g_semid].
  induction fuel as [|n IH]; cbn [drop_loop]; repeat sem_step; apply IH.
Qed.

(** What some turns of the other processes make of the objects. *)
Definition run_turns (bs : list (Z * turn)) (objs : gmap Z shmobj) : gmap Z shmobj :=
  foldl (fun objs b => alter (take_turn (snd b)) (fst b) objs) objs bs.

Lemma run_turns_app bs1 bs2 objs : run_turns (bs1 ++ bs2) objs = run_turns bs2 (run_turns bs1 objs).
Proof. apply foldl_app. Qed.

Lemma run_turns_there bs objs o : is_Some (objs !! o) -> is_Some (run_turns bs objs !! o).
Proof.
  revert objs; induction bs as [|[o' t] bs IH]; intros objs H; [done|]. apply IH. cbn.
  destruct (decide (o' = o)) as [->|Hne]; [|by rewrite lookup_alter_ne].
  rewrite lookup_alter_eq. by apply fmap_is_Some.
Qed.

(** The size of an object, and what identifies the segment in it. *)
Definition face (ob : shmobj) : Z * (Z * Z * Z * Z) := (so_size ob, identity (so_seg ob)).

(** A finished segment is never built again. *)
Lemma run_turns_ready bs objs o ob :
  objs !! o = Some ob -> h_ready (header (so_seg ob)) <> 0 ->
  exists ob', run_turns bs objs !! o = Some ob' /\ face ob' = face ob.
Proof.
  revert objs ob; induction bs as [|[o' t] bs IH]; intros objs ob Ho Hr; [by exists ob|].
  change (run_turns ((o', t) :: bs) objs) with (run_turns bs (alter (take_turn t) o' objs)).
  assert (exists ob1, alter (take_turn t) o' objs !! o = Some ob1 /\ face ob1 = face ob) as (ob1 & H1 & E).
  { destruct (decide (o' = o)) as [->|Hne]; [|by rewrite lookup_alter_ne; [exists ob|]].
    rewrite lookup_alter_eq, Ho. eexists. split; [done|]. apply Z.eqb_neq in Hr.
    destruct t as [os|s]; cbn; [|by rewrite Hr].
    unfold face, seg_apply. cbn. by rewrite apply_all_identity. }
  destruct (IH _ ob1 H1) as (ob' & H' & E').
  - injection E as _ _ _ E _. by rewrite E.
  - exists ob'. split; [exact H'|congruence].
Qed.

(** [w'] is [w] after some turns of the other processes, and nothing else. *)
Record kept (w w' : World) : Prop := mk_kept {
  ke_fs : w_fs w' = w_fs w;
  ke_name : w_name w' = w_name w;
  ke_onward : onward w w';
  ke_objs : w_objs w' = run_turns (elapsed w w') (w_objs w);
  ke_faults : w_faults w = [] -> w_faults w' = []
}.

(** Not even that. *)
Record still (w w' : World) : Prop := mk_still {
  st_fs : w_fs w' = w_fs w;
  st_name : w_name w' = w_name w;
  st_others : w_others w' = w_others w;
  st_objs : w_objs w' = w_objs w;
  st_faults : w_faults w = [] -> w_faults w' = []
}.

Lemma still_kept w w' : still w w' -> kept w w'.
Proof.
  intros []. split; try done; [by apply onward_same|]. by rewrite (elapsed_prefix [] w w').
Qed.

#[export] Instance still_pre : PreOrder still.
Proof.
  split; [by split|]. intros w1 w2 w3 [] []. split; [congruence..|auto].
Qed.

#[export] Instance kept_pre : PreOrder kept.
Proof.
  split; [intros w; by apply still_kept|].
  intros w1 w2 w3 [H1 H2 H3 H4 H5] [G1 G2 G3 G4 G5].
  split; [congruence|congruence|by etrans| |auto].
  destruct H3 as [b1 E1], G3 as [b2 E2].
  rewrite (elapsed_prefix b1 w1 w2 E1) in H4. rewrite (elapsed_prefix b2 w2 w3 E2) in G4.
  rewrite (elapsed_prefix (b1 ++ b2) w1 w3), run_turns_app; [congruence|].
  by rewrite E1, E2, app_assoc.
Qed.

Lemma still_pop w : still w (snd (pop_fault w)).
Proof. split; try done. cbn. by intros ->. Qed.

Lemma kept_pop w : kept w (snd (pop_fault w)).
Proof. apply still_kept, still_pop. Qed.

Lemma kept_others w : kept w (run_others w).
Proof.
  split; try done; [apply onward_others|]. destruct (w_others w) as [|[o t] rest] eqn:E.
  - rewrite (elapsed_prefix []); cbn; by rewrite E.
  - rewrite (elapsed_prefix [(o, t)]); cbn; by rewrite E.
Qed.

Lemma kept_sems f w : kept w (upd_sems f w).
Proof. by apply still_kept. Qed.

Lemma handle_sem_kept {R} (c : call R) w : is_sem c = true -> kept w (snd (handle c w)).
Proof.
  intros Hc. pose proof (kept_pop w) as Hp. destruct c; try done; unfold handle;
    destruct (pop_fault w) as [x w1]; cbn [snd] in Hp; unfold sem_down, sem_up;
    repeat (case_if || case_match); cbn [snd]; try done;
    try apply kept_sems; try (etrans; [exact Hp|]); try apply kept_sems; try (by apply still_kept).
  all: etrans; [apply kept_others|apply kept_sems].
Qed.

Lemma exec_sem_kept {A} (m : io A) w : sem_only m -> kept w (snd (exec m w)).
Proof.
  revert w; induction m as [a|R c k IH]; intros w Hm; [done|]. unfold exec; fold (@exec A).
  destruct Hm as [Hc Hm]. pose proof (handle_sem_kept c w Hc) as H.
  destruct (handle c w) as [r w']. etrans; [exact H|]. by apply IH.
Qed.

(** Is this the segment of store [f], ready to use? *)
Definition ident_ok (f : FS) (id : Z * Z * Z * Z) : bool :=
  let '(magic, version, ready, dev) := id in
  negb (ready =? 0) && (magic =? SHM_MAGIC) && (version =? SHM_VERSION) && (dev =? f_dev f).

Definition attachable (f : FS) (ob : shmobj) : bool :=
  f_avail f && (SEGMENT_SIZE <=? so_size ob) && ident_ok f (identity (so_seg ob)).

Lemma handle_loadc o c ob w :
  w_objs w !! o = Some ob -> handle (Seg o (loadc c)) w = (load c (so_seg ob), w).
Proof.
  intros Ho. unfold handle, handle_seg. rewrite Ho, run_loadc.
  destruct w as [f p sm n os nx ot fl], ob as [sz sg]. cbn in *.
  unfold upd_objs. cbn. by rewrite insert_id.
Qed.


Lemma kept_obj w w' o ob :
  kept w w' -> w_objs w !! o = Some ob -> exists ob', w_objs w' !! o = Some ob'.
Proof. intros Hk Ho. rewrite (ke_objs _ _ Hk). apply run_turns_there. by exists ob. Qed.

(** A result [r] that is [Ok] only if [b] holds, and exactly then when nothing
    fails. *)
Definition decides {A} (w : World) (b : bool) (r : result A) (w' : World) : Prop :=
  still w w' /\ (is_ok r = true -> b = true) /\ (w_faults w = [] -> b = true -> is_ok r = true).

Lemma decides_err {A} w w' : still w w' -> decides w false (@Err A) w'.
Proof. intros. by split_and!. Qed.

Abbreviation any := (fun _ : World => True).

Lemma wp_loadc o c ob (Q : Z -> World -> Prop) w :
  w_objs w !! o = Some ob -> Q (load c (so_seg ob)) w -> wp any (sys (Seg o (loadc c))) Q w.
Proof. intros Ho HQ. apply wp_sys; [done|]. by rewrite (handle_loadc o c ob). Qed.

(** From the moment the segment is known to be ready. *)
Lemma wp_validate_rest o ob w :
  w_objs w !! o = Some ob -> h_ready (header (so_seg ob)) <> 0 ->
  wp any
    (do magic <- sys (Seg o (loadc CMagic));
     if negb (magic =? SHM_MAGIC) then iret Err
     else
       do version <- sys (Seg o (loadc CVersion));
       if negb (version =? SHM_VERSION) then iret Err
       else
         do dev <- store_dev;
         match dev with
         | None => iret Err
         | Some dev =>
           do own <- sys (Seg o (loadc CStoreDev));
           iret (if dev =? own then Ok tt else Err)
         end)
    (fun r w' => decides w (f_avail (w_fs w) && ident_ok (w_fs w) (identity (so_seg ob))) r w') w.
Proof.
  intros Ho Hr. unfold ident_ok, identity. apply Z.eqb_neq in Hr. rewrite Hr. cbn [negb andb].
  apply wp_bind, (wp_loadc _ _ ob); [done|]. cbn [load].
  destruct (h_magic _ =? SHM_MAGIC); cbn [negb andb].
  2: { apply wp_ret; [done|]. rewrite andb_false_r. by apply decides_err. }
  apply wp_bind, (wp_loadc _ _ ob); [done|]. cbn [load].
  destruct (h_version _ =? SHM_VERSION); cbn [negb andb].
  2: { apply wp_ret; [done|]. rewrite andb_false_r. by apply decides_err. }
  unfold store_dev. apply wp_bind, wp_sys; [done|].
  pose proof (still_pop w) as Hp. unfold handle. destruct (pop_fault w) as [x w1] eqn:Hx.
  cbn [snd] in Hp. rewrite (st_fs _ _ Hp). split; [done|].
  destruct (f_avail (w_fs w)) eqn:Hav; cbn [andb].
  2: { apply wp_ret; [done|]. by apply decides_err. }
  destruct (is_bad x) eqn:Hb; cbn [negb].
  { apply wp_ret; [done|]. split_and!; [done..|]. intros E. injection Hx as <- _. by rewrite E in Hb. }
  apply wp_bind, (wp_loadc _ _ ob).
  { injection Hx as _ <-. done. }
  cbn [load]. apply wp_ret; [done|]. unfold decides.
  rewrite (Z.eqb_sym (h_store_dev _)). by destruct (f_dev (w_fs w) =? h_store_dev (header (so_seg ob))).
Qed.

(** The wait for the lock's holder. *)
Definition waits (fuel : nat) (ready : Z) (w : World) : World :=
  if ready =? 0 then snd (exec (acquire fuel) w) else w.

Lemma drop_still fuel g w : still w (snd (exec (drop_opt fuel g) w)).
Proof.
  destruct g as [g|]; [|done]. pose proof (wp_exec _ _ _ _ (wp_drop any fuel g w w (fun _ _ => I) (reflexivity w))) as [[] ? ?].
  split; try done. apply exec_faults_nil.
Qed.

(** [validate] decides on the object as the other processes have left it. *)
Lemma wp_validate fuel o ob w :
  w_objs w !! o = Some ob ->
  wp any (validate fuel o)
    (fun r w' => exists w1 ob1, kept w w1 /\ w_objs w1 !! o = Some ob1 /\
       w_objs w1 = w_objs (waits fuel (h_ready (header (so_seg ob))) w) /\
       (h_ready (header (so_seg ob)) <> 0 -> w1 = w) /\
       decides w1 (f_avail (w_fs w) && ident_ok (w_fs w) (identity (so_seg ob1))) r w') w.
Proof.
  intros Ho. unfold validate. apply wp_bind, (wp_loadc _ _ ob); [done|]. cbn [load].
  unfold waits. apply wp_bind. destruct (Z.eqb_spec (h_ready (header (so_seg ob))) 0) as [Hz|Hz].
  - apply wp_bind, wp_of_exec. pose proof (exec_sem_kept (acquire fuel) w (sem_only_acquire fuel)) as Hk1.
    set (w1 := snd (exec (acquire fuel) w)) in *. set (g := fst (exec (acquire fuel) w)).
    apply wp_bind, wp_of_exec. pose proof (drop_still fuel g w1) as Hk2.
    set (w2 := snd (exec (drop_opt fuel g) w1)) in *. clearbody w1 w2.
    assert (kept w w2) as Hk by (etrans; [exact Hk1|by apply still_kept]).
    destruct (kept_obj _ _ _ _ Hk Ho) as (ob2 & Ho2).
    apply (wp_loadc _ _ ob2); [done|]. cbn [load].
    assert (forall r w', decides w2 (f_avail (w_fs w2) && ident_ok (w_fs w2) (identity (so_seg ob2))) r w' ->
      exists w3 ob1, kept w w3 /\ w_objs w3 !! o = Some ob1 /\ w_objs w3 = w_objs w1 /\
        (h_ready (header (so_seg ob)) <> 0 -> w3 = w) /\
        decides w3 (f_avail (w_fs w) && ident_ok (w_fs w) (identity (so_seg ob1))) (r : result unit) w') as H.
    { intros r w' Hd. exists w2, ob2. rewrite <- (ke_fs _ _ Hk). split_and!; [done|done| |done|done].
      apply Hk2. }
    destruct (Z.eqb_spec (h_ready (header (so_seg ob2))) 0) as [Hz2|Hz2].
    + apply wp_ret; [done|]. apply H. unfold ident_ok, identity. rewrite Hz2. cbn. rewrite andb_false_r.
      by apply decides_err.
    + eapply wp_mono; [by apply wp_validate_rest|]. intros r w' _. apply H.
  - apply wp_ret; [done|]. apply Z.eqb_neq in Hz as Hz'. rewrite Hz'.
    eapply wp_mono; [by apply wp_validate_rest|]. intros r w' _ Hd. by exists w, ob.
Qed.

(** What [attach] returns and leaves, for an object [ob] behind the name. *)
Definition attaches (fuel : nat) (o : Z) (ob : shmobj) (w : World) (r : result Z) (w' : World) : Prop :=
  kept w w' /\ (r = Err \/ r = Ok o) /\
  (h_ready (header (so_seg ob)) <> 0 -> still w w') /\
  exists ob', w_objs w' !! o = Some ob' /\
    (r = Ok o -> SEGMENT_SIZE <= so_size ob /\ attachable (w_fs w) ob' = true) /\
    (w_faults w = [] -> SEGMENT_SIZE <= so_size ob ->
       w_objs w' = w_objs (waits fuel (h_ready (header (so_seg ob))) w) /\
       (attachable (w_fs w) ob' = true -> r = Ok o)).

Lemma attaches_err fuel o ob w w' :
  still w w' -> w_objs w !! o = Some ob -> (w_faults w = [] -> so_size ob < SEGMENT_SIZE) ->
  attaches fuel o ob w Err w'.
Proof.
  intros Hs Ho Hf. split_and!; [by apply still_kept|by left|done|]. exists ob.
  rewrite (st_objs _ _ Hs). split_and!; [done..|]. intros E. specialize (Hf E). lia.
Qed.

Lemma run_turns_size bs objs o ob ob' :
  objs !! o = Some ob -> run_turns bs objs !! o = Some ob' -> SEGMENT_SIZE <= so_size ob ->
  SEGMENT_SIZE <= so_size ob'.
Proof.
  revert objs ob; induction bs as [|[o' t] bs IH]; intros objs ob Ho Ho' Hs.
  { cbn in Ho'. congruence. }
  change (run_turns bs (alter (take_turn t) o' objs) !! o = Some ob') in Ho'.
  destruct (decide (o' = o)) as [->|Hne].
  2: { eapply (IH _ ob); [|exact Ho'|done]. by rewrite lookup_alter_ne. }
  eapply (IH _ (take_turn t ob)); [|exact Ho'|]; [by rewrite lookup_alter_eq, Ho|].
  destruct t as [os|s]; cbn; [done|]. by case_match.
Qed.

Lemma wp_attach fuel o ob w :
  w_name w = Some o -> w_objs w !! o = Some ob ->
  wp any (attach fuel) (attaches fuel o ob w) w.
Proof.
  intros Hn Ho. unfold attach. apply wp_bind, wp_sys; [done|].
  pose proof (still_pop w) as Hp. unfold handle. destruct (pop_fault w) as [x w1] eqn:Hx.
  cbn [snd] in Hp. split; [done|]. rewrite (st_name _ _ Hp), Hn.
  assert (w_faults w = [] -> is_bad x = false /\ w1 = w) as Hg.
  { intros E. destruct w. injection Hx as <- <-. cbn in *. by subst. }
  destruct (is_bad x) eqn:Hb.
  { apply wp_ret; [done|]. apply attaches_err; [done..|]. by intros [? _]%Hg. }
  unfold map. apply wp_bind, wp_bind, wp_sys; [done|].
  pose proof (still_pop w1) as Hp1. unfold handle. destruct (pop_fault w1) as [y w2] eqn:Hy.
  cbn [snd] in Hp1. split; [done|]. assert (still w w2) as Hk2 by by etrans.
  rewrite (st_objs _ _ Hk2), Ho. cbn [fmap option_fmap option_map].
  assert (w_faults w = [] -> is_bad y = false /\ w2 = w) as Hg2.
  { intros E. destruct (Hg E) as [_ ->]. destruct w. injection Hy as <- <-. cbn in *. by subst. }
  destruct (is_bad y) eqn:Hb2.
  { cbn [negb]. repeat (apply wp_ret; [done|]). apply attaches_err; [done..|]. by intros [? _]%Hg2. }
  destruct (SEGMENT_SIZE <=? so_size ob) eqn:Hsz; cbn [negb].
  2: { repeat (apply wp_ret; [done|]). apply attaches_err; [done..|]. apply Z.leb_gt in Hsz. done. }
  apply Z.leb_le in Hsz. apply wp_bind, wp_sys; [done|].
  pose proof (still_pop w2) as Hp2. unfold handle. destruct (pop_fault w2) as [z w3] eqn:Hz.
  cbn [snd] in Hp2. split; [done|]. assert (still w w3) as Hk3 by by etrans.
  assert (w_faults w = [] -> is_bad z = false /\ w3 = w) as Hg3.
  { intros E. destruct (Hg2 E) as [_ ->]. destruct w. injection Hz as <- <-. cbn in *. by subst. }
  apply wp_ret; [done|]. destruct (is_bad z) eqn:Hb3; cbn [negb].
  { apply wp_ret; [done|]. apply attaches_err; [done..|]. by intros [? _]%Hg3. }
  apply wp_bind. eapply wp_mono; [apply (wp_validate fuel o ob w3); by rewrite (st_objs _ _ Hk3)|].
  intros r w5 _ (w4 & ob1 & Hk4 & Ho1 & Hw4 & Hr4 & Hs5 & D2 & D3).
  apply wp_ret; [done|].
  assert (kept w w4) as Hk by (etrans; [by apply still_kept|exact Hk4]).
  assert (attachable (w_fs w) ob1 = f_avail (w_fs w) && ident_ok (w_fs w) (identity (so_seg ob1))) as Ha.
  { unfold attachable. rewrite (proj2 (Z.leb_le _ _)), andb_true_r; [done|].
    eapply run_turns_size; [exact Ho| |exact Hsz]. by rewrite <- (ke_objs _ _ Hk). }
  rewrite (st_fs _ _ Hk3), <- Ha in D2, D3. split_and!.
  - etrans; [exact Hk|]. by apply still_kept.
  - destruct r; auto.
  - intros Hne. specialize (Hr4 Hne). subst w4. by etrans.
  - exists ob1. rewrite (st_objs _ _ Hs5). split_and!; [done|..].
    + destruct r; [|done]. auto.
    + intros E _. destruct (Hg3 E) as [_ ->]. split; [done|]. intros Hat.
      specialize (D3 (ke_faults _ _ Hk E) Hat). by destruct r.
Qed.
