(* ===== verification/DiskOps.v ===== *)
(** The operations of the persistent store that act on a whole file or on the
    whole directory: the atomic write of a detached [set], and [remove_all]. *)

From S2P Require Import Prelude Consts Names Segment Shm ShmTrace World Wp Disk DiskInv Publish Sem Attach Store WriteOut SemInv AttachInv CreateInv LoadInv.

(** * [write_atomic] *)

Section write_atomic.
Variables (key val : bytes) (w0 : World).
Hypothesis Hfs : fs_wf (w_fs w0).
Hypothesis Hk : valid_key key = true.

(** At any moment a power loss leaves what it could have left before, or the
    complete new value. *)
Definition write_safe (w : World) : Prop :=
  forall k o, valid_key k = true -> survives (w_fs w) k o ->
    survives (w_fs w0) k o \/ (k = key /\ o = Some (File val)).

Definition write_done (r : result unit) (w : World) : Prop :=
  fs_wf (w_fs w) /\ same_os w0 w /\
  forall k, ~ is_tmp k ->
    f_lookup (w_fs w) k =
      if is_ok r && bool_decide (k = key) then Some (File val) else f_lookup (w_fs w0) k.

Lemma tmp_run_safe w : tmp_run (tmp_name (w_pid w0) key) w0 w -> write_safe w.
Proof. intros [Ht _] k o Hv Hs. left. by eapply ts_crash. Qed.

Lemma tmp_run_err w : tmp_run (tmp_name (w_pid w0) key) w0 w -> write_done Err w.
Proof.
  intros [Ht Ho]. split_and!; [apply Ht|done|]. intros k Hn. cbn [is_ok andb].
  apply (tmp_step_lookup (tmp_name (w_pid w0) key)); [done|]. intros ->. by apply Hn, is_tmp_name.
Qed.

Lemma wp_write_atomic : wp write_safe (write_atomic key val) write_done w0.
Proof using Hfs Hk.
  unfold write_atomic. apply wp_bind. eapply wp_mono.
  { apply wp_write_tmp; [done..|]. apply tmp_run_safe. }
  intros r w1 Hi1 [Ht Hr]. destruct r as [tmp|]; [|by apply wp_ret; [|apply tmp_run_err]].
  destruct Hr as (-> & Hl & Hsy). destruct (Hsy eq_refl) as (i & Hd & Hin).
  set (n := tmp_name (w_pid w0) key) in *. assert (is_tmp n) as Hn by apply is_tmp_name.
  unfold publish, key_path. rewrite Hk. cbn [negb]. apply wp_bind, wp_sys; [done|].
  pose proof (handle_rename n key w1) as H. destruct (handle (FsRename n key) w1) as [ok w2].
  destruct H as [Hos H]. pose proof (tmp_run_wf _ _ _ Ht) as Hw1. destruct ok.
  - destruct H as (i' & Hi' & Hf). rewrite Hd in Hi'. injection Hi' as <-.
    assert (write_safe w2) as H2.
    { intros k o Hvk. rewrite Hf. intros Hs. apply rename_survives in Hs as [Hs|[-> ->]]; try done.
      - by apply Hi1.
      - right. by rewrite Hl. }
    split; [done|]. apply wp_ret; [done|]. split_and!.
    + rewrite Hf. by apply rename_wf.
    + etrans; [apply Ht|done].
    + intros k Hnt. rewrite Hf, (rename_lookup n) by done. cbn [is_ok andb].
      destruct (decide (k = key)) as [->|Hne].
      * by rewrite bool_decide_eq_true_2, Hl.
      * rewrite bool_decide_eq_false_2 by done. destruct Ht as [Ht _].
        apply (tmp_step_lookup n); [done|]. intros ->. done.
  - assert (tmp_run n w0 w2) as Ht2.
    { destruct Ht as [Ht Ho]. split; [by rewrite H|by etrans]. }
    split; [by apply tmp_run_safe|]. apply wp_bind, wp_sys; [by apply tmp_run_safe|].
    pose proof (handle_remove_tmp n w2 (tmp_run_wf _ _ _ Ht2) Hn) as H3.
    destruct (handle (FsRemove n) w2) as [r3 w3].
    assert (tmp_run n w0 w3) as Ht3 by by eapply tmp_run_trans.
    split; [by apply tmp_run_safe|]. apply wp_ret; [by apply tmp_run_safe|]. by apply tmp_run_err.
Qed.
End write_atomic.

(** * [remove_all] *)

(** The names in [gone] stand for no file any more, every other as before. *)
Record removing (w0 : World) (gone : list bytes) (w : World) : Prop := mk_removing {
  re_fs : fs_wf (w_fs w);
  re_os : same_os w0 w;
  re_avail : f_avail (w_fs w) = f_avail (w_fs w0);
  re_faults : w_faults w0 = [] -> w_faults w = [];
  re_old : forall n, f_lookup (w_fs w) n = f_lookup (w_fs w0) n \/ f_lookup (w_fs w) n = None;
  re_gone : w_faults w0 = [] -> f_avail (w_fs w0) = true -> forall n bs, n ∈ gone ->
    f_lookup (w_fs w) n <> Some (File bs)
}.

Lemma removing_start w : fs_wf (w_fs w) -> removing w [] w.
Proof. intros H. split; try done. - intros n. by left. - intros _ _ n bs Hn. by apply elem_of_nil in Hn. Qed.

Lemma removing_step w0 gone n w w' :
  removing w0 gone w -> fs_wf (w_fs w') -> same_os w w' -> f_avail (w_fs w') = f_avail (w_fs w) ->
  (w_faults w = [] -> w_faults w' = []) ->
  (forall m, f_lookup (w_fs w') m = f_lookup (w_fs w) m \/ f_lookup (w_fs w') m = None) ->
  (w_faults w = [] -> f_avail (w_fs w) = true -> forall bs, f_lookup (w_fs w') n <> Some (File bs)) ->
  removing w0 (gone ++ [n]) w'.
Proof.
  intros [H1 H2 H3 H4 H5 H6] Hf Ho Ha Hfl Hold Hn. split.
  - done.
  - by etrans.
  - congruence.
  - auto.
  - intros m. destruct (Hold m) as [->|]; auto.
  - intros E1 E2 m bs [Hm| ->]%elem_snoc E.
    + destruct (Hold m) as [Hm'|Hm']; rewrite Hm' in E; [|done]. by eapply H6.
    + apply (Hn (H4 E1) ltac:(congruence) bs E).
Qed.

Lemma wp_remove_entry w0 gone n w :
  removing w0 gone w ->
  wp any (remove_entry n tt) (fun _ w' => removing w0 (gone ++ [n]) w') w.
Proof.
  intros Hr. pose proof (re_fs _ _ _ Hr) as Hw. unfold remove_entry. apply wp_bind, wp_sys; [done|].
  pose proof (handle_faults_nil (FileType n) w) as Hf1.
  assert (w_faults w = [] -> fst (handle (FileType n) w) =
    match f_lookup (w_fs w) n with
    | Some (File _) => Some true | Some Other => Some false | None => None end) as Hft.
  { intros E. unfold handle. cbn [pop_fault]. by rewrite E. }
  assert (w_fs (snd (handle (FileType n) w)) = w_fs w /\ same_os w (snd (handle (FileType n) w)))
    as [Hfs1 Hos1] by by split.
  destruct (handle (FileType n) w) as [t w1]. cbn [fst snd] in *. split; [done|].
  assert (t <> Some true -> removing w0 (gone ++ [n]) w1) as Hskip.
  { intros Ht. apply (removing_step w0 gone n w w1); rewrite ?Hfs1; try done; [by left|].
    intros E _ bs Hl. rewrite (Hft E), Hl in Ht. done. }
  destruct t as [[|]|]; [|by apply wp_ret; [|apply Hskip]..]. clear Hskip Hft.
  apply wp_bind, wp_sys; [done|]. pose proof (handle_faults_nil (FsRemove n) w1) as Hf2.
  pose proof (handle_remove n w1) as H2.
  assert (w_faults w1 = [] -> f_avail (w_fs w1) = true ->
    forall bs, f_lookup (w_fs (snd (handle (FsRemove n) w1))) n <> Some (File bs)) as Hgone.
  { intros E1 E2 bs. unfold handle, on_fs, fs_remove. cbn [pop_fault w_fs]. rewrite E1, E2.
    cbn [hd is_bad negb orb]. destruct (f_lookup (w_fs w1) n) as [[old|]|] eqn:El; cbn [fst snd upd_fs w_fs].
    - rewrite delete_lookup. by case_decide.
    - by rewrite El.
    - by rewrite El. }
  destruct (handle (FsRemove n) w1) as [r w2]. cbn [snd] in *. destruct H2 as [Hos2 H2].
  split; [done|]. apply wp_ret; [done|].
  assert (w_fs w2 = w_fs w1 \/ w_fs w2 = set_dir (delete n (f_dir (w_fs w1))) (w_fs w1)) as Hcase
    by (destruct r; [by right|left; by destruct H2|by left]).
  apply (removing_step w0 gone n w w2); [done| | | | | |].
  - destruct Hcase as [-> | ->]; rewrite Hfs1; [done|by apply delete_wf].
  - by etrans.
  - destruct Hcase as [-> | ->]; by rewrite Hfs1.
  - auto.
  - intros m. destruct Hcase as [-> | ->]; rewrite Hfs1; [by left|]. rewrite delete_lookup. case_decide; auto.
  - intros E1 E2. apply Hgone; [by apply Hf1|by rewrite Hfs1].
Qed.

Lemma lookup_in_names f n x : f_lookup f n = Some x -> n ∈ names f.
Proof.
  unfold f_lookup, names. destruct (f_dir f !! n) as [i|] eqn:E; [|done]. intros _.
  apply list_elem_of_fmap. exists (n, i). split; [done|]. by apply elem_of_map_to_list.
Qed.

Lemma wp_remove_all w :
  fs_wf (w_fs w) ->
  wp any remove_all (fun r w' => exists gone, removing w gone w' /\
    (r = Ok tt -> w_faults w = [] -> f_avail (w_fs w) = true /\
       forall n bs, f_lookup (w_fs w') n <> Some (File bs))) w.
Proof.
  intros Hw. unfold remove_all. apply wp_bind, wp_sys; [done|].
  destruct (handle_look ReadDir w Hw I) as [Hl Ho].
  assert (w_fs (snd (handle ReadDir w)) = w_fs w /\ same_os w (snd (handle ReadDir w)))
    as [Hfs Hos] by by split.
  assert (forall ns, fst (handle ReadDir w) = Some ns -> w_faults w = [] ->
    f_avail (w_fs w) = true /\ ns = names (w_fs w)) as Hns.
  { intros ns. unfold handle. cbn [pop_fault fst w_fs]. unfold fs_read_dir. intros H E. revert H.
    rewrite E. fold (names (w_fs w)). cbn [hd]. destruct (f_avail (w_fs w)); [|done]. by intros [= <-]. }
  pose proof (lo_faults _ _ Hl) as Hfl.
  destruct (handle ReadDir w) as [ns w1]. cbn [fst snd] in *. split; [done|].
  assert (removing w [] w1) as Hr1.
  { split; rewrite ?Hfs; try done; [by left|]. intros _ _ n bs Hn. by apply elem_of_nil in Hn. }
  destruct ns as [ns|]; [|apply wp_ret; [done|]; by exists []].
  apply wp_bind. apply (wp_foldM any ns tt remove_entry (fun gone _ w' => removing w gone w')); [done|done|..].
  - intros pre x post [] w' _ _ Hr. by apply wp_remove_entry.
  - intros [] w' _ Hr. apply wp_ret; [done|]. exists ns. split; [done|]. intros _ E.
    destruct (Hns ns eq_refl E) as [Ha ->]. split; [done|]. intros n bs Hlk.
    apply (re_gone _ _ _ Hr E Ha n bs); [|done].
    destruct (re_old _ _ _ Hr n) as [Hn|Hn]; rewrite Hn in Hlk; [|done]. by eapply lookup_in_names.
Qed.
