(* ===== verification/StoreInv.v ===== *)
(** The process store against the shared segment: which cached copies may be
    served, and what the operations leave in the cache. *)

From S2P Require Import Prelude Consts Hash Spec Layout Names Segment Shm ShmInv ShmProbe ShmOps SeqCount ShmWrite ShmCompact ShmRefine ShmCommit Cache ShmTrace World Wp Disk Sem SemInv AttachInv Attach Store CommitInv.

(** A valid copy was read at a version the counter has not gone back behind,
    and is the key's value if the counter still stands there. *)
Definition entry_fresh (s : Segment) (k : bytes) (e : Entry) (h : heap) : Prop :=
  ce_valid e = true ->
  ce_slot_seen e <= slot s (key_slot k) /\
  (ce_slot_seen e = slot s (key_slot k) -> value_of e h = Spec.get (view s) k).

Record coherent (st : Store) (seg : Z) (s : Segment) : Prop := mk_coherent {
  ct_seg : s_seg st = Some seg;
  ct_ok : cache_ok (s_cache st) (s_heap st);
  ct_fresh : forall k e, s_cache st !! k = Some e -> entry_fresh s k e (s_heap st)
}.

(** [p] is what [get] promises for a key whose value is [o]. *)
Definition answers (h : heap) (p : Z) (o : option bytes) : Prop :=
  (p = 0 <-> o = None) /\ forall v, o = Some v -> h !! p = Some (v ++ [0]).

(** A history no copy can miss: no lost records, no wrapped counter. *)
Record history (os : list op) (s : Segment) : Prop := mk_history {
  hi_wf : wf s;
  hi_ok : Forall op_ok os;
  hi_safe : safe_all os s;
  hi_room : forall k, headroom s k (length os)
}.

Lemma coherent_history os st seg s :
  coherent st seg s -> history os s -> coherent st seg (apply_all os s).
Proof.
  intros [Hs Hok Hf] [Hw Ho Hsafe Hr]. split; [done..|]. intros k e Hk Hv.
  destruct (Hf k e Hk Hv) as [Hle Heq].
  destruct (apply_all_moved os s k Hw Ho (Hr k)) as [Hmv _]. split; [lia|]. intros E.
  rewrite Heq by lia. symmetry. apply apply_all_get; [done..|lia].
Qed.

Section cache.
Context `{AL : Allocator}.

(** Interning a key leaves it all as it is. *)
Lemma coherent_entry st seg s key :
  coherent st seg s ->
  let (e, c) := entry key (s_cache st) in
  coherent (with_cache st (c, s_heap st)) seg s /\ c !! key = Some e /\
  entry_fresh s key e (s_heap st).
Proof.
  intros [Hs Hok Hf]. pose proof (entry_spec key _ _ Hok) as H.
  destruct (entry key (s_cache st)) as [e c] eqn:He. destruct H as (Hok' & Hk & Hd & Hoth).
  assert (entry_fresh s key e (s_heap st)) as Hfr.
  { destruct (s_cache st !! key) as [e0|] eqn:E; simpl in Hd; subst e; [by eapply Hf|done]. }
  split_and!; [|done..]. split; cbn; [done..|]. intros k e' Hk'.
  destruct (decide (k = key)) as [->|Hne]; [by simplify_eq|]. rewrite Hoth in Hk' by done. by apply Hf.
Qed.

Lemma value_of_kept c h k e j ej fresh seen :
  cache_ok c h -> c !! k = Some e -> c !! j = Some ej -> j <> k ->
  value_of ej (snd (install e fresh seen h)) = value_of ej h.
Proof.
  intros Hok Hk Hj Hne. unfold value_of. destruct (ce_value ej) as [a|] eqn:Hv; [|done]. cbn.
  destruct (co_term c h Hok j ej a Hj Hv) as [v Ha]. unfold deref.
  rewrite (install_keeps c h k e fresh seen a (v ++ [0])); [by rewrite Ha|done..|].
  intros Hr. apply Hne, (co_owner c h Hok j k ej e a Hj Hk); [by apply owned_value|by apply owned_retired].
Qed.

Lemma coherent_install st seg s key fresh seen :
  coherent st seg s ->
  seen <= slot s (key_slot key) ->
  (seen = slot s (key_slot key) -> fresh = Spec.get (view s) key) ->
  let (p, st') := install_ptr st key fresh seen in
  coherent st' seg s /\ answers (s_heap st') p fresh.
Proof.
  intros Hc Hle Hfr. pose proof (coherent_entry st seg s key Hc) as H. unfold install_ptr.
  destruct (entry key (s_cache st)) as [e c]. destruct H as ([Hs Hok Hf] & Hk & _). cbn in Hok, Hf.
  pose proof (install_ok c (s_heap st) key e fresh seen Hok Hk) as Hok'.
  pose proof (install_result c (s_heap st) key e fresh seen Hok Hk) as Hr.
  pose proof (fun j ej => value_of_kept c (s_heap st) key e j ej fresh seen Hok Hk) as Hkept.
  destruct (install e fresh seen (s_heap st)) as [e' h']. cbn [snd] in Hkept.
  destruct Hr as (Hv & Hval & Hse & Hp & Hp' & _). split; [|done].
  split; cbn; [done..|]. intros j ej [[<- <-]|[Hne Hj]]%lookup_insert_Some; unfold entry_fresh.
  - rewrite Hse, Hv. done.
  - rewrite (Hkept j ej) by done. by apply Hf.
Qed.
End cache.

(** * Reading the segment *)

(** A program that only reads leaves the world alone. *)
Lemma handle_seg_pure {A} o (p : prog A) (a : A) s w :
  seg_at w o s -> run p s = (a, s) -> handle (Seg o p) w = (a, w).
Proof.
  intros Ho Hr. unfold handle, handle_seg. unfold seg_at in Ho. rewrite Ho. cbn [so_seg so_size].
  rewrite Hr. destruct w as [f pid sm n os nx ot fl]. cbn in *.
  unfold upd_objs. cbn. by rewrite insert_id.
Qed.

Lemma run_slot_value s k : run (slot_value k) s = (slot s k, s).
Proof. done. Qed.

Definition calm_seg (s : Segment) (key : bytes) : Prop :=
  is_odd (slot s (key_slot key)) = false /\ is_odd (aseq s) = false.

Lemma exec_read_loop n seg key s w :
  seg_at w seg s -> wf s -> (0 < n)%nat ->
  exec (read_loop n seg key (fnv1a key) (key_slot key)) w =
    (if is_odd (slot s (key_slot key)) || is_odd (aseq s) then None
     else Some (Spec.get (view s) key, slot s (key_slot key)), w).
Proof.
  intros Hs Hw. induction n as [|n IH]; [lia|]. intros _. cbn [read_loop].
  rewrite exec_bind, exec_sys, (handle_seg_pure _ _ (slot s (key_slot key)) s) by done. cbn [fst snd].
  rewrite exec_bind, exec_sys.
  destruct (is_odd (slot s (key_slot key)) || is_odd (aseq s)) eqn:Hodd.
  - assert (run (read_value key (fnv1a key)) s = (Torn, s)) as Hr by (by apply run_read_torn).
    rewrite (handle_seg_pure _ _ Torn s) by done. cbn [fst snd].
    destruct n as [|n]; [done|]. apply IH. lia.
  - apply orb_false_iff in Hodd as [H1 H2].
    rewrite (handle_seg_pure _ _ (read_of (Spec.get (view s) key)) s); [|done|by apply run_read_value].
    cbn [fst snd]. by destruct (Spec.get (view s) key).
Qed.

(** * [get] *)

Section get.
Context `{AL : Allocator}.

Lemma answers_value c h k e :
  cache_ok c h -> c !! k = Some e -> answers h (as_ptr e) (value_of e h).
Proof.
  intros Hok Hk. unfold answers, as_ptr, value_of. destruct (ce_value e) as [a|] eqn:Hv; [|done].
  destruct (co_term c h Hok k e a Hk Hv) as [v Ha]. cbn. unfold deref. rewrite Ha. cbn.
  rewrite removelast_last. split; [|by intros ? [= <-]]. split; [|done].
  intros ->. by rewrite (co_nonnull c h Hok) in Ha.
Qed.

(** [key]'s copy is valid at version [seen] and is [v]. *)
Definition holds_copy (st : Store) (key : bytes) (v : option bytes) (seen : Z) : Prop :=
  cache_ok (s_cache st) (s_heap st) /\
  exists e, s_cache st !! key = Some e /\ ce_valid e = true /\ ce_slot_seen e = seen /\
    value_of e (s_heap st) = v.

Lemma install_ptr_answers st key fresh seen :
  cache_ok (s_cache st) (s_heap st) ->
  let (p, st') := install_ptr st key fresh seen in
  holds_copy st' key fresh seen /\ s_seg st' = s_seg st /\ answers (s_heap st') p fresh.
Proof.
  intros Hok. pose proof (entry_spec key _ _ Hok) as H. unfold install_ptr.
  destruct (entry key (s_cache st)) as [e c]. destruct H as (Hok1 & Hk & _).
  pose proof (install_ok c (s_heap st) key e fresh seen Hok1 Hk) as Hok'.
  pose proof (install_result c (s_heap st) key e fresh seen Hok1 Hk) as Hr.
  destruct (install e fresh seen (s_heap st)) as [e' h'].
  destruct Hr as (Hv & Hval & Hse & Hp & Hp' & _). split; [|done]. split; [done|].
  exists e'. split; [apply lookup_insert_eq|done].
Qed.

(** Such a copy is handed out as long as the counter stands there. *)
Lemma exec_get_copy fuel st seg s key v w :
  s_seg st = Some seg -> holds_copy st key v (slot s (key_slot key)) -> seg_at w seg s ->
  exists p, exec (get fuel st key) w = ((p, st), w) /\ answers (s_heap st) p v.
Proof.
  intros Hst (Hok & e & Hk & Hv & Hse & Hval) Hs. unfold get, reattach. rewrite Hst.
  rewrite exec_bind, exec_ret. cbn [fst snd]. rewrite Hst. fold (key_slot key).
  unfold entry. rewrite Hk, Hv, exec_bind, exec_sys.
  rewrite (handle_seg_pure _ _ (slot s (key_slot key)) s) by done. cbn [fst snd].
  rewrite Hse, Z.eqb_refl, exec_ret. exists (as_ptr e). split; [by destruct st|].
  rewrite <- Hval. by eapply answers_value.
Qed.

Lemma reattach_attached fuel st seg w :
  s_seg st = Some seg -> exec (reattach fuel st) w = (st, w).
Proof. intros H. unfold reattach. by rewrite H. Qed.

(** With no write in progress a read takes no lock and touches nothing. *)
Lemma exec_get fuel st seg s key w :
  coherent st seg s -> seg_at w seg s -> wf s -> calm_seg s key ->
  exists p st', exec (get fuel st key) w = ((p, st'), w) /\
    coherent st' seg s /\ answers (s_heap st') p (Spec.get (view s) key).
Proof.
  intros Hc Hs Hw [Hev Hea]. unfold get. rewrite exec_bind, (reattach_attached fuel st seg) by apply Hc.
  cbn [fst snd]. rewrite (ct_seg _ _ _ Hc). fold (key_slot key).
  pose proof (coherent_entry st seg s key Hc) as He.
  destruct (entry key (s_cache st)) as [e c]. destruct He as (Hc' & Hk & Hf).
  set (st1 := with_cache st (c, s_heap st)) in *.
  assert (exists p st', exec (get_miss fuel st1 seg key (fnv1a key) (key_slot key)) w = ((p, st'), w) /\
    coherent st' seg s /\ answers (s_heap st') p (Spec.get (view s) key)) as Hmiss.
  { unfold get_miss. rewrite exec_bind, (exec_read_loop _ seg key s) by (done || (vm_compute; lia)).
    rewrite Hev, Hea. cbn [orb fst snd]. rewrite exec_bind, exec_ret. cbn [fst snd].
    pose proof (coherent_install st1 seg s key (Spec.get (view s) key) (slot s (key_slot key)) Hc'
      (Z.le_refl _) (fun _ => eq_refl)) as Hi.
    destruct (install_ptr st1 key _ _) as [p st']. destruct Hi. by exists p, st'. }
  destruct (ce_valid e) eqn:Hv; [|done]. rewrite exec_bind, exec_sys.
  rewrite (handle_seg_pure _ _ (slot s (key_slot key)) s) by done. cbn [fst snd].
  destruct (Z.eqb_spec (ce_slot_seen e) (slot s (key_slot key))) as [E|]; [|done].
  rewrite exec_ret. exists (as_ptr e), st1. split_and!; [done..|].
  destruct (Hf Hv) as [_ Hval]. rewrite <- Hval by done. apply (answers_value c _ key); [|done].
  apply (ct_ok _ _ _ Hc').
Qed.

(** Under the lock a torn read can be put right. *)
Lemma wp_read_locked fuel seg key s w :
  seg_at w seg s -> wf s -> others_ok w ->
  wp any (read_locked fuel seg key (fnv1a key) (key_slot key))
    (fun r w' => exists s', seg_at w' seg s' /\ wf s' /\
       match r with
       | Some (v, _) => v = Spec.get (view s') key
       | None => fst (exec (acquire fuel) w) = None
       end) w.
Proof.
  intros Hs Hw Ho. unfold read_locked. apply wp_bind. eapply wp_mono.
  { apply wp_named, (wp_lock any w); [done|apply follows_refl]. }
  intros g w1 _ (Hex & _ & Hok & Hf). pose proof (Hf Ho _ _ Hs) as Hs1.
  pose proof (apply_all_wf _ s Hw (acts_ok w w1 seg Ho)) as Hw1.
  set (s1 := apply_all _ s) in *. clearbody s1.
  destruct g as [g|]; [|apply wp_ret; [done|]; exists s1; split_and!; [done..|]].
  2: { by rewrite Hex. }
  apply wp_bind, wp_sys; [done|].
  pose proof (handle_seg_at seg (repair_seq (key_slot key)) s1 w1 Hs1) as H.
  pose proof (run_repair_seq (key_slot key) s1) as (_ & Hr1 & Hr2 & _ & Hd).
  destruct (handle (Seg seg (repair_seq (key_slot key))) w1) as [x w2].
  destruct H as (_ & Hs2 & _ & _). split; [done|]. clear x.
  set (s2 := snd (run (repair_seq (key_slot key)) s1)) in *. clearbody s2.
  assert (wf s2) as Hw2 by by eapply same_data_wf.
  apply wp_bind, wp_sys; [done|].
  assert (run (read_value key (fnv1a key)) s2 = (read_of (Spec.get (view s2) key), s2)) as Hrd.
  { apply run_read_value; [done|rewrite Hr1|rewrite Hr2]; apply repaired_even. }
  rewrite (handle_seg_pure _ _ _ s2 w2 Hs2 Hrd). split; [done|]. clear Hrd.
  apply wp_bind. eapply (wp_mono _ _ (fun r w' => w' = w2 /\ r = Some (Spec.get (view s2) key, slot s2 (key_slot key)))).
  { destruct (Spec.get (view s2) key); cbn [read_of]; apply wp_bind, wp_sys; try done;
      rewrite (handle_seg_pure _ _ (slot s2 (key_slot key)) s2) by done; (split; [done|]);
      by apply wp_ret. }
  intros r w' _ [-> ->]. apply wp_bind. eapply wp_mono; [by apply (wp_drop any fuel g w2)|].
  intros [] w3 _ Hq. apply wp_ret; [done|]. exists s2. split_and!; [by eapply quiet_seg_at|done..].
Qed.

(** Whatever the counters say. *)
Lemma wp_get fuel st seg s key w :
  coherent st seg s -> seg_at w seg s -> wf s -> others_ok w ->
  wp any (get fuel st key)
    (fun r w' => exists s', seg_at w' seg s' /\ wf s' /\
       (fst (exec (acquire fuel) w) <> None ->
        answers (s_heap (snd r)) (fst r) (Spec.get (view s') key))) w.
Proof.
  intros Hc Hs Hw Ho. pose proof (coherent_entry st seg s key Hc) as He.
  unfold get. unfold reattach. rewrite (ct_seg _ _ _ Hc). apply wp_bind, wp_ret; [done|].
  rewrite (ct_seg _ _ _ Hc). fold (key_slot key).
  destruct (entry key (s_cache st)) as [e c]. destruct He as (Hc' & Hk & Hf).
  set (st1 := with_cache st (c, s_heap st)) in *. pose proof (ct_ok _ _ _ Hc') as Hok.
  match goal with |- wp _ _ ?Q _ =>
    assert (wp any (get_miss fuel st1 seg key (fnv1a key) (key_slot key)) Q w) as Hmiss end.
  { unfold get_miss. apply wp_bind.
    eapply (wp_mono _ _ (fun r w' => w' = w /\
      (r = None \/ r = Some (Spec.get (view s) key, slot s (key_slot key))))).
    { apply wp_of_exec. rewrite (exec_read_loop _ seg key s) by (done || (vm_compute; lia)).
      cbn [fst snd]. destruct (_ || _); auto. }
    intros r w' _ [-> Hr]. apply wp_bind.
    eapply (wp_mono _ _ (fun r w' => exists s', seg_at w' seg s' /\ wf s' /\
       match r with
       | Some (v, _) => v = Spec.get (view s') key
       | None => fst (exec (acquire fuel) w) = None
       end)).
    { destruct Hr as [->| ->]; [by eapply wp_read_locked|]. apply wp_ret; [done|]. by exists s. }
    clear r Hr. intros r w' _ (s' & Hs' & Hw' & Hr). destruct r as [[v seen]|].
    - apply wp_ret; [done|]. exists s'. split_and!; [done..|]. intros _. subst v.
      pose proof (install_ptr_answers st1 key (Spec.get (view s') key) seen Hok) as Hi.
      destruct (install_ptr st1 key _ seen). by destruct Hi as (_ & _ & Hi).
    - unfold get_degraded. apply wp_bind. eapply (wp_mono _ _ (fun _ w2 => w_objs w2 = w_objs w')).
      { unfold read_one. destruct (key_path key); [|by apply wp_ret]. by apply wp_sys. }
      intros fresh w2 _ Ho2. destruct (entry key _). destruct (install _ _ _ _).
      apply wp_ret; [done|]. exists s'. split_and!; [unfold seg_at; by rewrite Ho2|done|done]. }
  destruct (ce_valid e) eqn:Hv; [|done]. apply wp_bind, wp_sys; [done|].
  rewrite (handle_seg_pure _ _ (slot s (key_slot key)) s) by done. split; [done|].
  destruct (Z.eqb_spec (ce_slot_seen e) (slot s (key_slot key))) as [E|]; [|done].
  apply wp_ret; [done|]. exists s. split_and!; [done..|]. intros _. cbn.
  destruct (Hf Hv) as [_ Hval]. rewrite <- Hval by done. by apply (answers_value c _ key).
Qed.
End get.

(** * [set] and [unset] *)

Lemma history_app os1 os2 s : history (os1 ++ os2) s -> history os1 s.
Proof.
  intros [Hw Ho Hs Hr]. split; [done|..].
  - by apply Forall_app in Ho as [? _].
  - clear -Hs. revert s Hs; induction os1 as [|o os1 IH]; intros s Hs; [done|].
    destruct Hs. split; [done|]. by apply IH.
  - intros k. destruct (Hr k). rewrite length_app in *. split; lia.
Qed.

(** One operation under the writer lock, and the version it leaves. *)
Lemma wp_locked {A B} fuel seg (p : prog A) key (K : A -> Z -> B) (d : B) s w :
  seg_at w seg s -> others_ok w ->
  wp any
    (do guard <- acquire fuel;
     match guard with
     | None => iret d
     | Some g =>
       do res <- sys (Seg seg p);
       do seen <- sys (Seg seg (slot_value (key_slot key)));
       drop_guard fuel g;;
       iret (K res seen)
     end)
    (fun r w' => w_fs w' = w_fs w /\
       let s1 := apply_all (acts w w' seg) s in
       (r = d /\ seg_at w' seg s1) \/
       (let s2 := snd (run p s1) in
        r = K (fst (run p s1)) (slot s2 (key_slot key)) /\ seg_at w' seg s2)) w.
Proof.
  intros Hs Ho. apply wp_bind. eapply wp_mono.
  { apply (wp_lock any w); [done|apply follows_refl]. }
  intros g w1 _ (Hc & _ & Hf). pose proof (Hf Ho _ _ Hs) as Hs1. destruct g as [g|].
  2: { apply wp_ret; [done|]. split; [by apply ca_fs|]. by left. }
  apply wp_bind, wp_sys; [done|]. pose proof (handle_seg_at seg p _ w1 Hs1) as H.
  destruct (handle (Seg seg p) w1) as [res w2]. destruct H as (-> & Hs2 & Hc2 & Ho2). split; [done|].
  apply wp_bind, wp_sys; [done|].
  rewrite (handle_seg_pure _ _ _ _ w2 Hs2 (run_slot_value _ _)). split; [done|].
  apply wp_bind. eapply wp_mono; [by apply (wp_drop any fuel g w2)|].
  intros [] w3 _ Hq. apply wp_ret; [done|]. split.
  { rewrite (ca_fs _ _ (qu_calm _ _ Hq)), (ca_fs _ _ Hc2). by apply ca_fs. }
  rewrite (acts_end seg w w1 w3) by (rewrite (qu_others _ _ Hq); exact Ho2).
  right. split; [done|]. by eapply quiet_seg_at.
Qed.

(** What an update of [key] does: the other processes' operations first, then
    possibly the operation [o] itself, whose effect on the abstract store is
    [P], and which leaves a copy of [v] in the cache; a failed update changes
    no value. *)
Definition updated (o : op) (key : bytes) (v : option bytes) (P : Prop -> gmap bytes item -> gmap bytes item -> Prop) (seg : Z) (s : Segment)
    (w : World) (r : bool * Store) (w' : World) : Prop :=
  w_fs w' = w_fs w /\
  let os := acts w w' seg in
  let s1 := apply_all os s in
  exists s', seg_at w' seg s' /\ wf s' /\
    (if fst r then P (op_safe o s1) (view s1) (view s')
     else view s' ⊆ view s1 /\ (op_safe o s1 -> view s' = view s1)) /\
    (fst r = true -> s_seg (snd r) = Some seg /\ holds_copy (snd r) key v (slot s' (key_slot key))) /\
    (history (os ++ [o]) s -> coherent (snd r) seg s').

Section update.
Context `{AL : Allocator}.
Variables (fuel : nat) (st : Store) (seg : Z) (s : Segment) (w : World).
Hypothesis Hc : coherent st seg s.
Hypothesis Hs : seg_at w seg s.
Hypothesis Hw : wf s.
Hypothesis Ho : others_ok w.

(** Nothing at all happened. *)
Lemma updated_nothing (o : op) key v P st' :
  coherent st' seg s -> holds_copy st' key v (slot s (key_slot key)) ->
  P (op_safe o s) (view s) (view s) -> updated o key v P seg s w (true, st') w.
Proof using All.
  intros Hc' Hcp HP. split; [done|]. rewrite acts_same by done. exists s.
  split_and!; try done. intros _. split; [apply Hc'|done].
Qed.

(** The lock was not to be had. *)
Lemma updated_unlocked (o : op) key v P w' st' :
  coherent st' seg s -> w_fs w' = w_fs w -> seg_at w' seg (apply_all (acts w w' seg) s) ->
  updated o key v P seg s w (false, st') w'.
Proof using All.
  intros Hc' Hf Hs'. pose proof (acts_ok w w' seg Ho) as Hos. split; [done|]. eexists.
  split; [exact Hs'|]. cbn [fst snd]. split_and!; [by apply apply_all_wf|reflexivity|done|done|].
  intros Hh%history_app. by apply coherent_history.
Qed.

(** What [set] does to the abstract store; only a compaction that is not safe
    can cost it another key. *)
Definition put_effect (key val : bytes) (safe : Prop) (m m' : gmap bytes item) : Prop :=
  Spec.get m' key = Some val /\
  (Spec.get m key <> Some val -> Spec.dirty m' key = true) /\
  (forall k, k <> key -> ages (m !! k) (m' !! k)) /\
  (safe -> m' = Spec.put key val true m).

Lemma put_effect_same key val safe m : Spec.get m key = Some val -> put_effect key val safe m m.
Proof.
  intros H. split_and!; [done|done|by constructor|]. intros _. unfold Spec.put.
  by rewrite bool_decide_eq_true_2.
Qed.

Lemma put_effect_run key val s1 :
  wf s1 -> len key + len val < 2 ^ 63 ->
  let (r, s2) := run (Shm.put key val true) s1 in
  wf s2 /\
  if is_ok r then put_effect key val (op_safe (OPut key val true) s1) (view s1) (view s2)
  else view s2 ⊆ view s1 /\ (op_safe (OPut key val true) s1 -> view s2 = view s1).
Proof.
  intros Hw1 Hlen. destruct (run_put s1 key val true Hw1 Hlen) as (m & [Hw2 Hsub Hm _ Hv _]).
  destruct (run (Shm.put key val true) s1) as [r s2]. cbn [fst snd] in *. split; [done|].
  destruct r as [[]|]; cbn [is_ok]; rewrite Hv.
  - split_and!.
    + apply Spec.get_put.
    + intros Hne. apply Spec.dirty_put. intros E. apply Hne. revert E. unfold Spec.get.
      intros (it & E1 & E2)%bind_Some. by rewrite (lookup_weaken _ _ _ _ E1 Hsub).
    + intros k Hk. rewrite Spec.put_lookup_ne by done. by apply ages_sub.
    + intros Hsafe. by rewrite (Hm Hsafe).
  - split; [done|]. exact Hm.
Qed.

Lemma exec_value_matches key val :
  exists b st', exec (value_matches st key val) w = ((b, st'), w) /\ coherent st' seg s /\
    (b = true -> Spec.get (view s) key = Some val /\
       holds_copy st' key (Some val) (slot s (key_slot key))).
Proof using All.
  unfold value_matches. rewrite (ct_seg _ _ _ Hc). fold (key_slot key).
  rewrite exec_bind, exec_sys, (handle_seg_pure _ _ (slot s (key_slot key)) s) by done. cbn [fst snd].
  pose proof (coherent_entry st seg s key Hc) as H. destruct (entry key (s_cache st)) as [e c].
  destruct H as (Hc' & Hk & Hf). rewrite exec_ret. do 2 eexists. split_and!; [done|done|].
  destruct (ce_valid e) eqn:Hv; [|done]. cbn [negb orb].
  destruct (Z.eqb_spec (ce_slot_seen e) (slot s (key_slot key))) as [E|]; [|done]. cbn [negb].
  destruct (Hf Hv) as [_ Hval]. specialize (Hval E). rewrite <- Hval.
  pose proof (ct_ok _ _ _ Hc') as Hok.
  assert (match ce_value e with Some a => same_value (deref (s_heap st) a) val | None => false end = true ->
    value_of e (s_heap st) = Some val) as Hsame.
  { unfold value_of. destruct (ce_value e) as [a|] eqn:Ha; [|done].
    destruct (co_term _ _ Hok key e a Hk Ha) as [v Hh]. cbn in Hh. cbn. unfold deref. rewrite Hh. cbn.
    rewrite removelast_last. by intros ->%same_value_iff. }
  intros Hb. specialize (Hsame Hb). split; [done|]. split; [done|]. exists e. done.
Qed.

Lemma wp_set key val :
  valid_key key = true -> len key + len val < 2 ^ 63 ->
  wp any (set fuel st key val) (updated (OPut key val true) key (Some val) (put_effect key val) seg s w) w.
Proof using All.
  intros Hk Hlen. unfold set, reattach. rewrite Hk, (ct_seg _ _ _ Hc). cbn [negb].
  apply wp_bind, wp_ret; [done|]. apply wp_bind, wp_of_exec.
  destruct (exec_value_matches key val) as (b & st1 & -> & Hc1 & Hb). cbn [fst snd].
  destruct b.
  { destruct (Hb eq_refl). apply wp_ret; [done|]. apply updated_nothing; [done|done|]. by apply put_effect_same. }
  rewrite (ct_seg _ _ _ Hc1). eapply wp_mono.
  { eapply (wp_locked fuel seg _ key
      (fun res seen => if is_ok res then (true, snd (install_ptr st1 key (Some val) seen))
                       else (false, st1)) (false, st1) s w); done. }
  intros r w' _ (Hfs & [[-> Hs']|[-> Hs']]); [by eapply updated_unlocked|].
  pose proof (acts_ok w w' seg Ho) as Hos. split; [done|]. cbv zeta in *.
  set (os := acts w w' seg) in *. clearbody os. eexists. split; [exact Hs'|].
  pose proof (put_effect_run key val (apply_all os s) (apply_all_wf os s Hw Hos) Hlen) as He.
  assert (apply_all (os ++ [OPut key val true]) s = snd (run (Shm.put key val true) (apply_all os s)))
    as Happ by (by rewrite apply_all_app).
  destruct (run (Shm.put key val true) (apply_all os s)) as [res s2]. cbn [fst snd] in *.
  destruct He as [Hw2 He]. split; [done|]. cbv zeta.
  assert (history (os ++ [OPut key val true]) s -> coherent st1 seg s2) as Hc2.
  { intros Hh. rewrite <- Happ. by apply coherent_history. }
  destruct (is_ok res); [|done]. split; [done|]. split.
  { intros _. pose proof (install_ptr_answers st1 key (Some val) (slot s2 (key_slot key)) (ct_ok _ _ _ Hc1)) as Hi.
    cbn [snd]. destruct (install_ptr st1 key _ _) as [p st']. destruct Hi as (Hi & Hi2 & _). cbn [snd].
    by rewrite Hi2, (ct_seg _ _ _ Hc1). }
  intros Hh. pose proof (coherent_install st1 seg s2 key (Some val) (slot s2 (key_slot key)) (Hc2 Hh)
    (Z.le_refl _)) as Hi. destruct (install_ptr st1 key _ _). apply Hi. intros _.
  by destruct He as [-> _].
Qed.

(** What [unset] does to it. *)
Definition unset_effect (key : bytes) (safe : Prop) (m m' : gmap bytes item) : Prop :=
  m' = snd (Spec.remove key true m).

Lemma wp_unset key :
  valid_key key = true ->
  wp any (unset fuel st key) (updated (ORemove key true) key None (unset_effect key) seg s w) w.
Proof using All.
  intros Hk. unfold unset, reattach. rewrite Hk, (ct_seg _ _ _ Hc). cbn [negb].
  apply wp_bind, wp_ret; [done|]. rewrite (ct_seg _ _ _ Hc). eapply wp_mono.
  { eapply (wp_locked fuel seg _ key
      (fun _ seen => (true, snd (install_ptr st key None seen))) (false, st) s w); done. }
  intros r w' _ (Hfs & [[-> Hs']|[-> Hs']]); [by eapply updated_unlocked|].
  pose proof (acts_ok w w' seg Ho) as Hos. split; [done|]. cbv zeta in *.
  set (os := acts w w' seg) in *. clearbody os. eexists. split; [exact Hs'|].
  pose proof (apply_all_wf os s Hw Hos) as Hw1.
  pose proof (run_remove (apply_all os s) key true Hw1) as (Hw2 & Hv & _).
  assert (apply_all (os ++ [ORemove key true]) s = snd (run (Shm.remove key true) (apply_all os s)))
    as Happ by (by rewrite apply_all_app).
  set (s2 := snd (run (Shm.remove key true) (apply_all os s))) in *. clearbody s2.
  apply (f_equal snd) in Hv. cbn [snd] in Hv. split; [done|]. cbv zeta. split; [exact Hv|]. split.
  { intros _. pose proof (install_ptr_answers st key None (slot s2 (key_slot key)) (ct_ok _ _ _ Hc)) as Hi.
    cbn [snd]. destruct (install_ptr st key _ _) as [p st']. destruct Hi as (Hi & Hi2 & _). cbn [snd].
    by rewrite Hi2, (ct_seg _ _ _ Hc). }
  intros Hh. assert (coherent st seg s2) as Hc2 by (rewrite <- Happ; by apply coherent_history).
  pose proof (coherent_install st seg s2 key None (slot s2 (key_slot key)) Hc2 (Z.le_refl _)) as Hi.
  cbn [fst]. destruct (install_ptr st key _ _). apply Hi. intros _. rewrite Hv. symmetry.
  apply Spec.get_remove.
Qed.
End update.
