(* ===== verification/ClearInv.v ===== *)
(** [clear]: both tiers emptied, every cached copy dropped. *)

From S2P Require Import Prelude Consts Hash Spec Layout Names Segment Shm ShmInv ShmProbe ShmOps SeqCount ShmWrite ShmCompact ShmRefine ShmCommit Cache ShmTrace World Wp Disk DiskInv Publish Sem SemInv Attach Store CommitInv LoadInv CreateInv AttachInv DiskOps StoreInv.

Lemma coherent_invalidated st seg s :
  s_seg st = Some seg -> cache_ok (s_cache st) (s_heap st) ->
  coherent (with_cache st (invalidate_all (s_cache st) (s_heap st))) seg s.
Proof.
  intros Hs Hok. split; [done|by apply invalidate_ok|]. intros k e Hk. cbn in Hk.
  apply lookup_fmap_Some in Hk as (e0 & <- & _). by intros [=].
Qed.

(** How a [clear] that reports success leaves things. *)
Definition cleared (seg : Z) (w : World) (r : bool * Store) (w' : World) : Prop :=
  fst r = true ->
  (exists s', seg_at w' seg s' /\ wf s' /\ view s' = ∅ /\ coherent (snd r) seg s') /\
  (w_faults w = [] -> forall k bs, ~ survives (w_fs w') k (Some (File bs))).

Lemma lock_faults (fuel : nat) proj w g w' :
  exec (lock fuel proj) w = (g, w') -> w_faults w = [] -> w_faults w' = [].
Proof. intros He Hf. pose proof (exec_faults_nil (lock fuel proj) w Hf) as H. by rewrite He in H. Qed.

Lemma drop_faults fuel g w x w' :
  exec (drop_guard fuel g) w = (x, w') -> w_faults w = [] -> w_faults w' = [].
Proof. intros He Hf. pose proof (exec_faults_nil (drop_guard fuel g) w Hf) as H. by rewrite He in H. Qed.

Lemma wp_clear fuel st seg s w :
  s_seg st = Some seg -> cache_ok (s_cache st) (s_heap st) -> seg_at w seg s ->
  others_ok w -> fs_wf (w_fs w) ->
  wp any (clear fuel st) (cleared seg w) w.
Proof.
  intros Hst Hok Hs Ho Hfs. unfold clear, reattach. rewrite Hst. apply wp_bind, wp_ret; [done|].
  apply wp_bind. eapply wp_mono; [apply wp_named, (wp_lock any w); [done|apply follows_refl]|].
  intros cg w1 _ (Hx1 & Hc1 & Ho1 & Hf1). pose proof (lock_faults _ _ _ _ _ Hx1) as Hl1.
  pose proof (Hf1 Ho _ _ Hs) as Hs1. pose proof (onward_ok _ _ Ho1 Ho) as Hok1. destruct cg as [cg|]; [|by apply wp_ret].
  apply wp_bind. eapply wp_mono; [apply wp_named, (wp_lock any w1); [done|apply follows_refl]|].
  intros g w2 _ (Hx2 & Hc2 & Ho2 & Hf2). pose proof (lock_faults _ _ _ _ _ Hx2) as Hl2.
  pose proof (Hf2 Hok1 _ _ Hs1) as Hs2. destruct g as [g|].
  2: { apply wp_bind. eapply wp_mono; [by apply (wp_drop any fuel cg w2)|].
       intros [] w3 _ _. by apply wp_ret. }
  rewrite Hst. apply wp_bind, wp_sys; [done|].
  pose proof (handle_seg_at seg Shm.clear _ w2 Hs2) as H.
  pose proof (handle_seg_faults seg Shm.clear w2) as Hx3.
  destruct (handle (Seg seg Shm.clear) w2) as [x w3]. cbn [snd] in Hx3.
  destruct H as (_ & Hs3 & Hc3 & _). split; [done|]. clear x.
  destruct (run_clear (apply_all (acts w1 w2 seg) (apply_all (acts w w1 seg) s))) as (Hw3 & Hv3 & _ & _).
  set (s3 := snd (run Shm.clear _)) in *. clearbody s3.
  assert (w_fs w3 = w_fs w) as Hfs3 by (rewrite (ca_fs _ _ Hc3), (ca_fs _ _ Hc2); by apply ca_fs).
  assert (w_faults w = [] -> w_faults w3 = []) as Hx03 by (intros E; rewrite Hx3; auto).
  clear Hx1 Hx2 Hx3 Hf1 Hf2 Hc1 Hc2 Hc3 Hs1 Hs2 Ho1 Ho2.
  apply wp_bind. eapply wp_mono; [apply wp_remove_all; by rewrite Hfs3|].
  intros ok w4 _ (gone & Hr & Hok4). rewrite Hfs3 in Hok4.
  assert (seg_at w4 seg s3) as Hs4 by (unfold seg_at; by rewrite (so_objs _ _ (re_os _ _ _ Hr))).
  apply wp_bind. eapply wp_mono; [apply wp_named; by apply (wp_drop any fuel g w4)|].
  intros [] w5 _ (Hx5 & Hq5). pose proof (drop_faults _ _ _ _ _ Hx5) as Hf5.
  pose proof (ca_fs _ _ (qu_calm _ _ Hq5)) as Hfs5. pose proof (quiet_seg_at _ _ _ _ Hq5 Hs4) as Hs5.
  apply wp_bind, wp_sys; [done|]. pose proof (handle_syncfs w5) as H6. rewrite Hfs5 in H6.
  specialize (H6 (re_fs _ _ _ Hr)). destruct (handle SyncFs w5) as [synced w6].
  destruct H6 as (Hos6 & _ & _ & _ & Hsy). split; [done|].
  assert (seg_at w6 seg s3) as Hs6 by (unfold seg_at; by rewrite (so_objs _ _ Hos6)).
  apply wp_bind. eapply wp_mono; [by apply (wp_drop any fuel cg w6)|].
  intros [] w7 _ Hq7. apply wp_ret; [done|]. intros [Hrk Hsyn]%andb_true_iff.
  destruct ok as [[]|]; [|done]. subst synced. split.
  - exists s3. split_and!; [by eapply quiet_seg_at|done|done|by apply coherent_invalidated].
  - intros E k bs. rewrite (ca_fs _ _ (qu_calm _ _ Hq7)), (Hsy eq_refl).
    rewrite flush_survives by apply (re_fs _ _ _ Hr). intros Heq.
    destruct (Hok4 eq_refl (Hx03 E)) as [_ Hno]. by apply (Hno k bs).
Qed.
