(* ===== verification/GetallInv.v ===== *)
(** [getall]: packing the live pairs into the caller's buffer. *)

From S2P Require Import Prelude Consts Hash Spec Layout Names Segment Shm ShmInv ShmProbe ShmOps SeqCount ShmWrite ShmCompact ShmRefine ShmCommit Cache ShmTrace World Wp Disk Sem SemInv Attach Store CommitInv AttachInv StoreInv.

(** The record of one pair, and of a list of them. *)
Definition pack_one (kv : bytes * bytes) : bytes := kv.1 ++ [61] ++ kv.2 ++ [0].
Definition pack (l : list (bytes * bytes)) : bytes := concat (pack_one <$> l).

Lemma pack_snoc l kv : pack (l ++ [kv]) = pack l ++ pack_one kv.
Proof. unfold pack. rewrite fmap_app, concat_app. cbn. by rewrite app_nil_r. Qed.

Lemma len_pack_one kv : len (pack_one kv) = len kv.1 + 1 + len kv.2 + 1.
Proof. unfold pack_one. rewrite !len_app. unfold len. simpl. lia. Qed.

(** Writing right after a prefix that is already in place. *)
Lemma write_at_end (buf done bs : bytes) :
  len done + len bs <= len buf ->
  write_at (done ++ drop (length done) buf) (len done) bs =
    (done ++ bs) ++ drop (length (done ++ bs)) buf.
Proof.
  intros H. unfold write_at, len in *. rewrite Nat2Z.id.
  rewrite take_app_length, length_app.
  rewrite drop_app_ge by lia. rewrite drop_drop.
  replace (length done + (length done + length bs - length done))%nat
    with (length done + length bs)%nat by lia.
  by rewrite <- !app_assoc.
Qed.

Section emit.
Variables (buf : bytes).
Hypothesis Hbuf : 0 < len buf.

(** What has been written so far: the first [n] of the pairs [l] seen, all of
    them unless the next one did not fit. *)
Definition packed (l : list (bytes * bytes)) (o : Out) : Prop :=
  exists n, (n <= length l)%nat /\
    o_buf o = pack (take n l) ++ drop (length (pack (take n l))) buf /\
    o_pos o = len (pack (take n l)) /\ len (pack (take n l)) + 1 <= len buf /\
    (o_over o = false -> n = length l) /\
    (o_over o = true -> exists kv, l !! n = Some kv /\
       len buf < len (pack (take n l)) + len (pack_one kv) + 1).

Lemma packed_start : packed [] (mkOut buf 0 false).
Proof using Hbuf.
  exists 0%nat. cbn. split_and!; try done; unfold len in *; simpl; lia.
Qed.

Lemma packed_emit l o k v : packed l o -> packed (l ++ [(k, v)]) (emit (len buf) k v o).
Proof using Hbuf.
  intros (n & Hn & Hb & Hp & Hfit & Hno & Hov). unfold emit. destruct (o_over o) eqn:Ho.
  { exists n. rewrite Ho, length_app. rewrite take_app_le by done. split_and!; try done; [lia|].
    intros _. destruct (Hov eq_refl) as (kv & Hkv & Hl). exists kv. split; [|done].
    by apply lookup_app_l_Some. }
  specialize (Hno eq_refl). subst n. clear Hov Hn. rewrite firstn_all in *.
  pose proof (len_pack_one (k, v)) as Hlen. cbn [fst snd] in Hlen.
  pose proof (len_nonneg k). pose proof (len_nonneg v).
  destruct (Z.ltb_spec (len buf) (o_pos o + (len k + 1 + len v + 1) + 1)) as [Hlt|Hge].
  - exists (length l). rewrite length_app, take_app_length. cbn [o_over o_buf o_pos].
    split_and!; try done; [lia|]. intros _. exists (k, v). rewrite lookup_app_r by lia.
    rewrite Nat.sub_diag. split; [done|]. lia.
  - exists (length (l ++ [(k, v)])). rewrite firstn_all, pack_snoc. cbn [o_over o_buf o_pos].
    rewrite Hb, Hp in *.
    assert (forall a b, len (a ++ b) = len a + len b) as Hla by apply len_app.
    assert (len [61] = 1) as H61 by done. assert (len [0] = 1) as Hz by done.
    rewrite write_at_end by lia. rewrite <- (Hla _ k).
    rewrite write_at_end by (rewrite Hla; lia).
    replace (len (pack l ++ k) + 1) with (len ((pack l ++ k) ++ [61])) by (rewrite Hla; lia).
    rewrite write_at_end by (rewrite !Hla; lia). rewrite <- (Hla _ v).
    rewrite write_at_end by (rewrite !Hla; lia).
    replace ((((pack l ++ k) ++ [61]) ++ v) ++ [0]) with (pack l ++ pack_one (k, v))
      by (unfold pack_one; cbn [fst snd]; by rewrite <- !app_assoc).
    split_and!; try done.
    + rewrite !Hla, Hlen. lia.
    + rewrite Hla, Hlen. lia.
Qed.

Lemma packed_fold l1 l2 o :
  packed l1 o -> packed (l1 ++ l2) (foldl (fun o kv => emit (len buf) kv.1 kv.2 o) o l2).
Proof using Hbuf.
  revert l1 o; induction l2 as [|[k v] l2 IH]; intros l1 o H; [by rewrite app_nil_r|].
  cbn [foldl]. replace (l1 ++ (k, v) :: l2) with ((l1 ++ [(k, v)]) ++ l2) by by rewrite <- app_assoc.
  apply IH. by apply packed_emit.
Qed.

(** The buffer at the end. *)
Definition getall_result (l : list (bytes * bytes)) (ok : bool) (b : bytes) : Prop :=
  length b = length buf /\
  exists n, (n <= length l)%nat /\
    b = pack (take n l) ++ [0] ++ drop (length (pack (take n l)) + 1) buf /\
    (ok = true -> n = length l) /\
    (ok = false -> exists kv, l !! n = Some kv /\
       len buf < len (pack (take n l)) + len (pack_one kv) + 1).

Lemma packed_terminate l o : packed l o -> getall_result l (negb (o_over o)) (terminate (len buf) o).
Proof using Hbuf.
  intros (n & Hn & Hb & Hp & Hfit & Hno & Hov).
  assert (terminate (len buf) o = pack (take n l) ++ [0] ++ drop (length (pack (take n l)) + 1) buf) as E.
  { unfold terminate. rewrite Z.min_l by lia. rewrite Hb, Hp, write_at_end.
    - by rewrite length_app, <- app_assoc.
    - assert (len [0] = 1) as H0 by done. lia. }
  split.
  - rewrite E, !length_app, length_drop. unfold len in *. simpl. lia.
  - exists n. split_and!; [done|done|..]; destruct (o_over o); auto; done.
Qed.
End emit.

Section getall.
Context `{AL : Allocator}.

Lemma wp_getall fuel st seg s b w :
  s_seg st = Some seg -> seg_at w seg s -> wf s -> others_ok w -> b <> [] ->
  wp any (getall fuel st (Some b) (len b))
    (fun r w' =>
       let s1 := apply_all (acts w w' seg) s in
       snd r = st /\ w_fs w' = w_fs w /\ seg_at w' seg s1 /\
       ((fst r = (false, Some b) /\ fst (exec (acquire fuel) w) = None) \/
        exists b', snd (fst r) = Some b' /\
          getall_result b (live_pairs s1) (fst (fst r)) b')) w.
Proof.
  intros Hst Hs Hw Ho Hb. unfold getall, reattach. rewrite Hst. apply wp_bind, wp_ret; [done|].
  assert (0 < len b) as Hlen by (destruct b; [done|]; unfold len; simpl; lia).
  destruct (Z.eqb_spec (len b) 0) as [E|_]; [lia|]. rewrite Hst. apply wp_bind, wp_bind.
  eapply wp_mono; [apply wp_named, (wp_lock any w); [done|apply follows_refl]|].
  intros g w1 _ (Hex & Hc & _ & Hf). pose proof (Hf Ho _ _ Hs) as Hs1.
  pose proof (acts_ok w w1 seg Ho) as Hos.
  destruct g as [g|].
  2: { repeat (apply wp_ret; [done|]). split_and!; [done|by apply ca_fs|done|]. left.
       split; [done|]. by rewrite Hex. }
  apply wp_bind, wp_sys; [done|].
  rewrite (handle_seg_pure _ _ _ _ w1 Hs1 (run_for_each_live _ _ _ (apply_all_wf _ s Hw Hos))).
  split; [done|]. apply wp_bind. eapply wp_mono; [by apply (wp_drop any fuel g w1)|].
  intros [] w2 _ Hq. repeat (apply wp_ret; [done|]). split; [done|]. split.
  { rewrite (ca_fs _ _ (qu_calm _ _ Hq)). by apply ca_fs. }
  rewrite (acts_end seg w w1 w2) by apply Hq. split; [by eapply quiet_seg_at|].
  right. eexists. split; [done|].
  apply packed_terminate; [done|].
  apply (packed_fold b Hlen [] (live_pairs (apply_all (acts w w1 seg) s))). by apply packed_start.
Qed.
End getall.
