(* ===== verification/InitThms.v ===== *)
(** What bringing the store up promises, and what it does not. *)

From S2P Require Import Prelude Consts Hash Spec Layout Names Segment Shm ShmInv ShmOps ShmRefine Preload Identity Cache ShmTrace World Wp Disk DiskInv Publish Sem SemInv Attach Store WriteOut CommitInv CommitThms LoadInv CreateInv AttachInv SegmentThms.

(** * One process, one boot *)

(** A directory that holds one setting, ["a"], all of it on the device; and a
    booted system with no segment yet. *)
Definition one_file (bs : bytes) : FS :=
  mkFS true 7 {[ [97] := 1 ]} {[ 1 := File bs ]} 2 [{[ [97] := 1 ]}] {[1]}.
Definition boot_world (bs : bytes) (faults : list fault) : World :=
  mkWorld (one_file bs) 42 {[ftok_key 7 65 := 1; ftok_key 7 66 := 1]} None ∅ 1 [] faults.
Definition detached : Store := mkStore None ∅ ∅ 0.

Lemma one_file_wf bs : fs_wf (one_file bs).
Proof.
  assert (forall (n : bytes) i, ({[ [97] := 1 ]} : gmap bytes Z) !! n = Some i -> n = [97] /\ i = 1) as H.
  { intros n i Hn. by apply lookup_singleton_Some in Hn as [<- <-]. }
  split; cbn [f_dir f_dirs f_next f_nodes one_file].
  - by apply list_elem_of_singleton.
  - intros d n i ->%list_elem_of_singleton [_ ->]%H. lia.
  - intros a b i [-> _]%H [-> _]%H. done.
  - intros n k d i Hn _ _ [-> _]%H. done.
  - intros n i [_ ->]%H. by eexists.
Qed.

(** C20: bringing the store up is all or nothing.  In a system that has no
    segment yet and in which no other process acts meanwhile, whatever calls
    fail and whatever the directory holds - too much for the segment
    included - [init] ends in one of two ways.  Either it reports success, the
    store uses the segment that is now published under the name, and that
    segment is well-formed, complete - magic, version, ready, the directory's
    own device - and holds nothing but values of the directory, all of them
    clean, and every one of them if the arena has room for all and no call
    failed.  Or it reports failure, the store is as it was, and nothing is
    left under the name.  Either way the directory's keys are untouched.  (A
    key and its file together are taken to be shorter than 2^63 bytes.) *)
Theorem init_all_or_nothing `{AL : Allocator} fuel st w :
  s_seg st = None -> w_name w = None -> w_others w = [] -> fs_wf (w_fs w) ->
  (forall k bs, loadable (w_fs w) k = Some bs -> len k + len bs < 2 ^ 63) ->
  let '(ok, st', w') := exec (init fuel st) w in
  (forall k, valid_key k = true -> f_lookup (w_fs w') k = f_lookup (w_fs w) k) /\
  if (ok : bool) then
    exists o s, s_seg st' = Some o /\ w_name w' = Some o /\ seg_at w' o s /\ wf s /\
      identity s = (SHM_MAGIC, SHM_VERSION, 1, f_dev (w_fs w)) /\
      (forall k it, view s !! k = Some it ->
         exists bs, loadable (w_fs w) k = Some bs /\ it = (Some bs, false)) /\
      (w_faults w = [] -> total_bytes (w_fs w) (names (w_fs w)) <= ARENA_SIZE ->
       forall k bs, loadable (w_fs w) k = Some bs -> view s !! k = Some (Some bs, false))
  else st' = st /\ w_name w' = None.
Proof.
  intros Hst Hn Ho Hfs Hsize. pose proof (wp_exec _ _ _ _ (wp_init fuel st w Hst Hfs Hsize Ho Hn)) as H.
  destruct (exec (init fuel st) w) as [[ok st'] w']. destruct H as [Hk Hok Herr]. cbn [fst snd] in *.
  split; [intros k Hkv; by apply (ks_lookup _ _ Hk), valid_lookup|]. destruct ok; [|by apply Herr].
  destruct (Hok eq_refl) as (o & s & ? & ? & ? & ? & [Hw Hs Hc]).
  by exists o, s.
Qed.

Lemma one_file_sizes bs : len bs < 2 ^ 62 -> sizes_ok (one_file bs).
Proof.
  intros Hl k bs'. unfold loadable. case_if; [|done]. unfold f_lookup. cbn [f_dir one_file].
  destruct ({[ [97] := 1 ]} !! k) as [i|] eqn:E; [|done].
  apply lookup_singleton_Some in E as [<- <-]. cbn. rewrite lookup_singleton_eq.
  intros [= <-]. change (len [97]) with 1. lia.
Qed.

Lemma init_all_or_nothing_witness :
  let '(ok, st', w') := exec (init 1 detached) (boot_world [120] [Good; Good; Intr]) in
  (forall k, valid_key k = true -> f_lookup (w_fs w') k = f_lookup (one_file [120]) k) /\
  if (ok : bool) then
    exists o s, s_seg st' = Some o /\ w_name w' = Some o /\ seg_at w' o s /\ wf s /\
      identity s = (SHM_MAGIC, SHM_VERSION, 1, f_dev (one_file [120])) /\
      (forall k it, view s !! k = Some it ->
         exists bs, loadable (one_file [120]) k = Some bs /\ it = (Some bs, false)) /\
      ([Good; Good; Intr] = [] -> total_bytes (one_file [120]) (names (one_file [120])) <= ARENA_SIZE ->
       forall k bs, loadable (one_file [120]) k = Some bs -> view s !! k = Some (Some bs, false))
  else st' = detached /\ w_name w' = None.
Proof.
  apply (init_all_or_nothing 1 detached (boot_world [120] [Good; Good; Intr]));
    [reflexivity..|apply one_file_wf|by apply one_file_sizes].
Defined.

(** C33: a process attaches to nothing but its store's segment.  Let the name
    stand for object [o].  Whatever fails, [attach] returns at most [o], and
    only if [o] is attachable at the end: as large as a segment - which it
    must be from the start - ready, with the program's magic and version, and
    built from the filesystem now mounted.  A segment that is ready is judged
    as it is, without taking a lock.  For one that is not, [attach] takes the
    lock of its creator and looks again: when no call fails, what it then
    judges is what the other processes have made of the objects by the time
    it has the lock - they may have finished the segment - and it returns [o]
    exactly when that is attachable.  [attach] itself changes neither the
    directory, nor the name, nor any object; what identifies a finished
    segment never changes at all. *)
Theorem attach_accepts_exactly fuel o ob w :
  w_name w = Some o -> w_objs w !! o = Some ob ->
  let (r, w') := exec (attach fuel) w in
  let ready := h_ready (header (so_seg ob)) in
  w_fs w' = w_fs w /\ w_name w' = w_name w /\
  w_objs w' = run_turns (elapsed w w') (w_objs w) /\
  (forall o1 ob1, w_objs w !! o1 = Some ob1 -> h_ready (header (so_seg ob1)) <> 0 ->
     exists ob2, w_objs w' !! o1 = Some ob2 /\ face ob2 = face ob1) /\
  (ready <> 0 -> w_objs w' = w_objs w /\ w_others w' = w_others w) /\
  (r = Err \/ r = Ok o) /\
  exists ob', w_objs w' !! o = Some ob' /\
    (r = Ok o -> SEGMENT_SIZE <= so_size ob /\ attachable (w_fs w) ob' = true) /\
    (w_faults w = [] -> SEGMENT_SIZE <= so_size ob ->
       w_objs w' = w_objs (if ready =? 0 then snd (exec (acquire fuel) w) else w) /\
       (attachable (w_fs w) ob' = true -> r = Ok o)).
Proof.
  intros Hn Ho. pose proof (wp_exec _ _ _ _ (wp_attach fuel o ob w Hn Ho)) as H.
  destruct (exec (attach fuel) w) as [r w']. cbn [fst snd] in H.
  destruct H as ([H1 H2 _ H3 _] & Hr & Hst & Hob). cbv zeta. split_and!; [done..| | |done|exact Hob].
  - intros o1 ob1 E1 Hr1. rewrite H3. by apply run_turns_ready.
  - intros [_ _ H4 H5 _]%Hst. done.
Qed.

(** An object that is sized but not ready, and a process that finishes it
    before we get the lock. *)
Definition finished : Segment := store CReady 1 (snd (run (init_header 7) sample)).
Definition half_built : World :=
  mkWorld empty_fs 42 {[ftok_key 7 65 := 1; ftok_key 7 66 := 1]} (Some 3)
    {[3 := mkObj SEGMENT_SIZE zero_segment]} 4 [(3, Open finished)] [].

Lemma attach_accepts_exactly_witness :
  let (r, w') := exec (attach 1) half_built in
  let ready := h_ready (header zero_segment) in
  w_fs w' = empty_fs /\ w_name w' = Some 3 /\
  w_objs w' = run_turns (elapsed half_built w') (w_objs half_built) /\
  (forall o1 ob1, w_objs half_built !! o1 = Some ob1 -> h_ready (header (so_seg ob1)) <> 0 ->
     exists ob2, w_objs w' !! o1 = Some ob2 /\ face ob2 = face ob1) /\
  (ready <> 0 -> w_objs w' = w_objs half_built /\ w_others w' = w_others half_built) /\
  (r = Err \/ r = Ok 3) /\
  exists ob', w_objs w' !! 3 = Some ob' /\
    (r = Ok 3 -> SEGMENT_SIZE <= SEGMENT_SIZE /\ attachable empty_fs ob' = true) /\
    ([] = @nil fault -> SEGMENT_SIZE <= SEGMENT_SIZE ->
       w_objs w' = w_objs (if ready =? 0 then snd (exec (acquire 1) half_built) else half_built) /\
       (attachable empty_fs ob' = true -> r = Ok 3)).
Proof. apply (attach_accepts_exactly 1 3 (mkObj SEGMENT_SIZE zero_segment) half_built); reflexivity. Defined.

(** So the wait can succeed. *)
Lemma half_built_attached : fst (exec (attach 1) half_built) = Ok 3.
Proof. vm_compute. reflexivity. Qed.

(** * Across a power loss *)

(** [f'] is a directory that a power loss can make of [f]. *)
Definition power_loss (f f' : FS) : Prop := forall n, survives f n (f_lookup f' n).

Lemma valid_loadable f k :
  valid_key k = true ->
  loadable f k = match f_lookup f k with Some (File bs) => Some bs | _ => None end.
Proof.
  intros Hk. unfold loadable. unfold valid_key in Hk. rewrite !andb_true_iff in Hk.
  destruct Hk as ((((H1 & _) & _) & H2) & _). by rewrite H1, H2.
Qed.

(** The value a directory holds for a key. *)
Definition on_disk (f : FS) (k : bytes) : option bytes :=
  match f_lookup f k with Some (File bs) => Some bs | _ => None end.

(** C8: what was committed comes back.  A commit reports success; the power
    goes - the directory becomes anything a power loss can make of it - and
    the next boot brings the store up without a failing call.  Then every
    dirty key of the segment the commit saw reads, in the new segment, exactly
    as it was: its value, or its absence; and every key that segment did not
    mention reads as the directory had it before the commit. *)
Theorem reboot_restores_commit `{AL : Allocator} fuel st seg w s0 fuel' st' wb :
  s_seg st = Some seg -> fs_wf (w_fs w) -> seg_at w seg s0 -> wf s0 -> others_ok w ->
  fst (fst (exec (commit fuel st) w)) = true ->
  power_loss (w_fs (snd (exec (commit fuel st) w))) (w_fs wb) ->
  s_seg st' = None -> w_name wb = None -> w_others wb = [] -> w_faults wb = [] ->
  fs_wf (w_fs wb) -> total_bytes (w_fs wb) (names (w_fs wb)) <= ARENA_SIZE ->
  fst (fst (exec (init fuel' st') wb)) = true ->
  exists o s, s_seg (snd (fst (exec (init fuel' st') wb))) = Some o /\
    seg_at (snd (exec (init fuel' st') wb)) o s /\
    forall k, valid_key k = true ->
      match view (snapshot_of fuel seg w) !! k with
      | Some (v, true) => Spec.get (view s) k = v
      | Some (v, false) => True
      | None => Spec.get (view s) k = on_disk (w_fs w) k
      end.
Proof.
  intros Ha Hf Hs Hw Ho Hok Hpl Hst Hn Hob Hfl Hfb Hfit Hup.
  pose proof (wp_exec _ _ _ _ (wp_commit fuel st seg w s0 Ha Hf Hs Hw Ho)) as Hc.
  pose proof (wp_exec _ _ _ _ (wp_init fuel' st' wb Hst Hfb (fits_sizes _ Hfit) Hob Hn)) as [_ Hi _].
  destruct (Hi Hup) as (o & s & H1 & _ & H2 & _ & [_ Hsd Hcp]).
  exists o, s. split_and!; [done..|]. intros k Hk.
  destruct Hc as [_ [[E _]|(wc & (Hcc & _) & _ & E & He)]]; [by rewrite E in Hok|].
  destruct (en_ok _ _ _ _ _ _ He) as (nw & _ & Hnw); [exact Hok|].
  destruct (Hnw k Hk) as [Hdur Hnow]. specialize (Hdur _ (Hpl k)).
  rewrite Hnow, (ca_fs _ _ Hcc) in Hdur.
  assert (Spec.get (view s) k = on_disk (w_fs wb) k) as ->.
  { unfold Spec.get, on_disk. rewrite <- (valid_loadable _ _ Hk).
    destruct (loadable (w_fs wb) k) as [bs|] eqn:E1; [by rewrite (Hcp Hfl Hfit k bs E1)|].
    destruct (view s !! k) as [it|] eqn:E2; [|done]. destruct (Hsd k it E2) as (bs & E3 & _). congruence. }
  unfold on_disk. rewrite E, Hdur. destruct (view (snapshot_seg fuel seg wc) !! k) as [[v d]|]; [|done].
  destruct d; [|done]. cbn. by destruct v.
Qed.

(** The directory after committing the sample, and the boot from it. *)
Lemma sample_committed :
  fst (fst (exec (commit 1 attached) (demo_world empty_fs sample))) = true /\
  w_fs (snd (exec (commit 1 attached) (demo_world empty_fs sample))) = one_file [120; 121].
Proof. vm_compute. split; reflexivity. Qed.

Lemma sample_boots :
  fst (fst (exec (init 1 detached) (boot_world [120; 121] []))) = true.
Proof. vm_compute. reflexivity. Qed.

Lemma reboot_restores_commit_witness :
  exists o s, s_seg (snd (fst (exec (init 1 detached) (boot_world [120; 121] [])))) = Some o /\
    seg_at (snd (exec (init 1 detached) (boot_world [120; 121] []))) o s /\
    forall k, valid_key k = true ->
      match view (snapshot_of 1 3 (demo_world empty_fs sample)) !! k with
      | Some (v, true) => Spec.get (view s) k = v
      | Some (v, false) => True
      | None => Spec.get (view s) k = on_disk empty_fs k
      end.
Proof.
  apply (reboot_restores_commit 1 attached 3 (demo_world empty_fs sample) sample 1 detached
    (boot_world [120; 121] [])).
  - done.
  - apply empty_fs_wf.
  - apply demo_seg.
  - apply sample_spec.
  - apply demo_others.
  - apply sample_committed.
  - rewrite (proj2 sample_committed). intros n. apply survives_current, one_file_wf.
  - done.
  - done.
  - done.
  - done.
  - apply one_file_wf.
  - vm_compute. discriminate.
  - apply sample_boots.
Defined.

(** An unreadable file is left out in silence.  One setting is on disk;
    the read of its file fails during the preload (the fifteenth call).
    [init] nevertheless reports success and publishes the segment, and from
    then on the setting does not exist: [get] answers the null pointer,
    although the file is there and every later read of it would succeed. *)
Theorem init_skips_unreadable_files :
  let w := boot_world [120] (replicate 14 Good ++ [Bad]) in
  let '(ok, st, w') := exec (init 1 detached) w in
  let '(p, _, w'') := exec (get 1 st [97]) w' in
  ok = true /\ w_name w' = s_seg st /\ p = 0 /\ w_faults w' = [] /\
  f_lookup (w_fs w'') [97] = Some (File [120]) /\ fst (exec (read_one [97]) w'') = Some [120].
Proof. vm_compute. split_and!; reflexivity. Qed.

(** * Two processes *)

(** One call of a process. *)
Definition istep {A} (m : io A) (w : World) : io A * World :=
  match m with
  | IRet a => (IRet a, w)
  | ICall c k => let (r, w') := handle c w in (k r, w')
  end.

(** Two processes whose calls interleave as [sched] says: [true] lets the
    first make its next call, [false] the second. *)
Fixpoint par {A B} (sched : list bool) (a : io A) (b : io B) (w : World) : io A * io B * World :=
  match sched with
  | [] => (a, b, w)
  | true :: sched => let (a, w) := istep a w in par sched a b w
  | false :: sched => let (b, w) := istep b w in par sched a b w
  end.

Definition result_of {A} (m : io A) : option A :=
  match m with IRet a => Some a | ICall _ _ => None end.

(** Two processes that call [init] at the same time can end up with a
    segment each.  The first has just created the object and not yet sized
    it; the second finds the name, cannot map the empty object, takes it for
    a stale segment, removes the name and builds its own.  Both calls report
    success, but what the first process sets the second - and every process
    started later - does not see. *)
Theorem concurrent_init_splits_the_store :
  let '(a, b, w) :=
    par (replicate 5 true ++ replicate 30 false ++ replicate 30 true)
      (init 1 detached) (init 1 detached) (boot_world [120] []) in
  match result_of a, result_of b with
  | Some (oka, sta), Some (okb, stb) =>
    let '(ok, _, w1) := exec (set 1 sta [98] [121]) w in
    oka = true /\ okb = true /\ s_seg sta = Some 1 /\ s_seg stb = Some 2 /\ w_name w = Some 2 /\
    ok = true /\ fst (fst (exec (get 1 stb [98]) w1)) = 0
  | _, _ => False
  end.
Proof. vm_compute. split_and!; reflexivity. Qed.
