(* ===== verification/StoreThms.v ===== *)
(** What the process store promises its callers. *)

From S2P Require Import Prelude Consts Hash Spec Layout Names Segment Shm ShmInv ShmProbe ShmOps SeqCount ShmWrite ShmCompact ShmRefine ShmCommit Cache ShmTrace World Wp Disk DiskInv Publish Sem SemInv Attach Store WriteOut CommitInv SegmentThms CommitThms LoadInv CreateInv AttachInv InitThms DiskOps StoreInv ClearInv GetallInv.

(** A freshly attached process is coherent with any segment. *)
Lemma attached_coherent s : coherent attached 3 s.
Proof. split; [done|apply empty_ok|]. intros k e H. cbn in H. by rewrite lookup_empty in H. Qed.

Lemma zero_history key val :
  len key + len val <= ARENA_SIZE -> history [OPut key val true] zero_segment.
Proof.
  intros Hl. pose proof (len_nonneg key). pose proof (len_nonneg val).
  assert (ARENA_SIZE < 2 ^ 63) by done. split.
  - apply zero_wf.
  - constructor; [|constructor]. cbn. lia.
  - split; [|done]. apply zero_compact_safe. lia.
  - intros k. split; [done|]. change (slot zero_segment (key_slot k)) with 0. done.
Qed.

Lemma poisoned_wf : wf poisoned.
Proof. apply (same_data_wf sample); [by apply same_data_store|apply sample_spec]. Qed.

(** C9: [get] is never stale.  A process whose cache was coherent with the
    segment at some time keeps it through any later history of operations of
    any processes - short of a counter's 2^64 wrap and of a compaction that
    loses a record.  When no write is in progress - the key's counter and the
    arena's are both even, so that no writer died between its brackets either
    - [get] answers for the segment as it is now: the null pointer exactly when
    the key does not exist, and otherwise a pointer to a NUL-terminated copy of
    its value; it then takes no lock and changes nothing outside the process.
    (With a counter left odd, [get_survives_dead_writer] has the repair.) *)
Theorem get_never_stale `{AL : Allocator} fuel st seg s0 os key w :
  coherent st seg s0 -> history os s0 ->
  seg_at w seg (apply_all os s0) ->
  is_odd (slot (apply_all os s0) (key_slot key)) = false -> is_odd (aseq (apply_all os s0)) = false ->
  let s := apply_all os s0 in
  let '(p, st', w') := exec (get fuel st key) w in
  w' = w /\ coherent st' seg s /\
  (p = 0 <-> Spec.get (view s) key = None) /\
  forall v, Spec.get (view s) key = Some v -> s_heap st' !! p = Some (v ++ [0]).
Proof.
  intros Hc Hh Hs H1 H2. cbv zeta. pose proof (coherent_history os st seg s0 Hc Hh) as Hc'.
  destruct (exec_get fuel st seg (apply_all os s0) key w Hc' Hs) as (p & st' & -> & Hc2 & Ha); [|done|].
  - apply apply_all_wf; apply Hh.
  - by split_and!; try apply Ha.
Qed.

Lemma get_never_stale_witness :
  let s := apply_all [OPut [97] [49] true] zero_segment in
  let '(p, st', w') := exec (get 1 attached [97]) (demo_world empty_fs s) in
  w' = demo_world empty_fs s /\ coherent st' 3 s /\
  (p = 0 <-> Spec.get (view s) [97] = None) /\
  forall v, Spec.get (view s) [97] = Some v -> s_heap st' !! p = Some (v ++ [0]).
Proof.
  apply (get_never_stale 1 attached 3 zero_segment [OPut [97] [49] true]).
  - apply attached_coherent.
  - apply zero_history. vm_compute. discriminate.
  - apply demo_seg.
  - vm_compute. reflexivity.
  - vm_compute. reflexivity.
Defined.

(** C25: a torn read is put right.  Whatever the counters say - a writer may
    have died and left them odd - and whatever other processes do while [get]
    waits for the lock, [get] answers for the segment as it is in the end,
    provided the writer lock can be had; the segment stays well-formed. *)
Theorem get_survives_dead_writer `{AL : Allocator} fuel st seg s key w :
  coherent st seg s -> seg_at w seg s -> wf s -> others_ok w ->
  fst (exec (acquire fuel) w) <> None ->
  let '(p, st', w') := exec (get fuel st key) w in
  exists s', seg_at w' seg s' /\ wf s' /\
    (p = 0 <-> Spec.get (view s') key = None) /\
    forall v, Spec.get (view s') key = Some v -> s_heap st' !! p = Some (v ++ [0]).
Proof.
  intros Hc Hs Hw Ho Hl. pose proof (wp_exec _ _ _ _ (wp_get fuel st seg s key w Hc Hs Hw Ho)) as H.
  destruct (exec (get fuel st key) w) as [[p st'] w']. cbn [fst snd] in H.
  destruct H as (s' & Hs' & Hw' & Ha). destruct (Ha Hl). by exists s'.
Qed.

Lemma get_survives_dead_writer_witness :
  let '(p, st', w') := exec (get 1 attached [97]) (demo_world empty_fs poisoned) in
  exists s', seg_at w' 3 s' /\ wf s' /\
    (p = 0 <-> Spec.get (view s') [97] = None) /\
    forall v, Spec.get (view s') [97] = Some v -> s_heap st' !! p = Some (v ++ [0]).
Proof.
  apply (get_survives_dead_writer 1 attached 3 poisoned).
  - apply attached_coherent.
  - apply demo_seg.
  - apply poisoned_wf.
  - apply demo_others.
  - vm_compute. discriminate.
Defined.


(** Two worlds in which another process is at work: it stores the very key,
    or another one, before we get the lock. *)
Definition contended (o : op) : World :=
  mkWorld empty_fs 42 {[ftok_key 7 65 := 1; ftok_key 7 66 := 1]} (Some 3)
    {[3 := mkObj SEGMENT_SIZE sample]} 4 [(3, Ops [o])] [].

Lemma contended_others key val :
  len key + len val < 2 ^ 63 -> others_ok (contended (OPut key val true)).
Proof. intros H. by repeat constructor. Qed.


(** C28: [unset] does what it reports, in the same sense: after the other
    processes' operations [os], and with nothing else happening to the
    segment, success leaves it exactly as the abstract removal would - the
    key gone for every reader, a deletion the disk is owed - and failure
    leaves it as they did; the directory is not touched. *)
Theorem unset_removes `{AL : Allocator} fuel st seg s key w :
  coherent st seg s -> seg_at w seg s -> wf s -> others_ok w -> valid_key key = true ->
  let '(ok, st', w') := exec (unset fuel st key) w in
  let os := acts w w' seg in
  let s1 := apply_all os s in
  w_fs w' = w_fs w /\
  exists s', seg_at w' seg s' /\ wf s' /\
    view s' = (if (ok : bool) then snd (Spec.remove key true (view s1)) else view s1) /\
    (history (os ++ [ORemove key true]) s -> coherent st' seg s').
Proof.
  intros Hc Hs Hw Ho Hk.
  pose proof (wp_exec _ _ _ _ (wp_unset fuel st seg s w Hc Hs Hw Ho key Hk)) as H.
  destruct (exec (unset fuel st key) w) as [[ok st'] w']. cbn [fst snd] in H.
  destruct H as (Hf & s' & Hs' & Hw' & Hr & _ & Hh). cbv zeta. split; [done|].
  exists s'. split_and!; [done..| |done]. destruct ok; [exact Hr|]. by apply Hr.
Qed.

Lemma unset_removes_witness :
  let w := contended (OPut [98] [48] true) in
  let '(ok, st', w') := exec (unset 1 attached [97]) w in
  let os := acts w w' 3 in
  let s1 := apply_all os sample in
  w_fs w' = empty_fs /\
  exists s', seg_at w' 3 s' /\ wf s' /\
    view s' = (if (ok : bool) then snd (Spec.remove [97] true (view s1)) else view s1) /\
    (history (os ++ [ORemove [97] true]) sample -> coherent st' 3 s').
Proof.
  apply (unset_removes 1 attached 3 sample [97] (contended (OPut [98] [48] true)));
    [apply attached_coherent|done|apply sample_spec|by apply contended_others|reflexivity..].
Defined.

(** C31: a [clear] that reports success has emptied the segment, whatever the
    other processes did before it had both locks, and has dropped every
    cached copy; and if no call failed it has emptied the disk as well, for
    good: a power loss leaves no file under any name. *)
Theorem clear_empties_both `{AL : Allocator} fuel st seg s w :
  coherent st seg s -> seg_at w seg s -> others_ok w -> fs_wf (w_fs w) ->
  let '(ok, st', w') := exec (clear fuel st) w in
  ok = true ->
  (exists s', seg_at w' seg s' /\ wf s' /\ view s' = ∅ /\ coherent st' seg s') /\
  (w_faults w = [] -> forall k bs, ~ survives (w_fs w') k (Some (File bs))).
Proof.
  intros [Hst Hok _] Hs Ho Hf. pose proof (wp_exec _ _ _ _ (wp_clear fuel st seg s w Hst Hok Hs Ho Hf)) as H.
  by destruct (exec (clear fuel st) w) as [[ok st'] w'].
Qed.

Lemma clear_empties_both_witness :
  let '(ok, st', w') := exec (clear 1 attached) (demo_world (one_file [120]) sample) in
  ok = true ->
  (exists s', seg_at w' 3 s' /\ wf s' /\ view s' = ∅ /\ coherent st' 3 s') /\
  ([] = @nil fault -> forall k bs, ~ survives (w_fs w') k (Some (File bs))).
Proof.
  apply (clear_empties_both 1 attached 3 sample (demo_world (one_file [120]) sample));
    [apply attached_coherent|apply demo_seg|apply demo_others|apply one_file_wf].
Defined.



(** C32: the write-through of a detached [set] is atomic.  Whatever fails, at
    every moment a power loss leaves under each key what it could have left
    before, or - for the key written - the complete new value; when it
    reports success the file has the new value, when it fails every key is as
    it was, and in both cases no other key has changed. *)
Theorem write_atomic_is_atomic key val w :
  fs_wf (w_fs w) -> valid_key key = true ->
  always (fun w' => forall k o, valid_key k = true -> survives (w_fs w') k o ->
      survives (w_fs w) k o \/ (k = key /\ o = Some (File val))) (write_atomic key val) w /\
  let (r, w') := exec (write_atomic key val) w in
  forall k, valid_key k = true ->
    f_lookup (w_fs w') k =
      if is_ok r && bool_decide (k = key) then Some (File val) else f_lookup (w_fs w) k.
Proof.
  intros Hf Hk. pose proof (wp_write_atomic key val w Hf Hk) as H. split; [by eapply wp_always|].
  apply wp_exec in H. destruct (exec (write_atomic key val) w) as [r w']. destruct H as (_ & _ & H).
  intros k Hvk. by apply H, valid_lookup.
Qed.

Lemma write_atomic_is_atomic_witness :
  let w := boot_world [120] [Good; Short 1] in
  always (fun w' => forall k o, valid_key k = true -> survives (w_fs w') k o ->
      survives (w_fs w) k o \/ (k = [97] /\ o = Some (File [121; 122]))) (write_atomic [97] [121; 122]) w /\
  let (r, w') := exec (write_atomic [97] [121; 122]) w in
  forall k, valid_key k = true ->
    f_lookup (w_fs w') k =
      if is_ok r && bool_decide (k = [97]) then Some (File [121; 122]) else f_lookup (w_fs w) k.
Proof. apply write_atomic_is_atomic; [apply one_file_wf|reflexivity]. Defined.

(** A [clear] can report success without its effect: the removal of one file
    fails (the twelfth call), which [remove_all] does not notice.  Here the
    process runs detached, so the setting is still read right away; in an
    attached one it is back at the next boot. *)
Theorem clear_may_leave_a_setting :
  let w := boot_world [120] (replicate 11 Good ++ [Bad]) in
  let '(ok, st, w1) := exec (clear 1 detached) w in
  let '(p, st2, _) := exec (get 1 st [97]) w1 in
  ok = true /\ w_faults w1 = [] /\ s_heap st2 !! p = Some [120; 0].
Proof. vm_compute. split_and!; reflexivity. Qed.
