(* ===== verification/LibThms.v ===== *)
(** What the C interface promises, and the pure functions behind it. *)

From S2P Require Import Prelude Consts Hash Spec Layout Names ParseInt ParseIntInv Segment Shm ShmInv ShmProbe ShmOps SeqCount ShmWrite ShmCompact ShmRefine ShmCommit Cache ShmTrace World Wp Disk DiskInv Publish Sem SemInv Attach Store Lib CommitInv SegmentThms CommitThms AttachInv StoreInv.

(** * Strings in and out *)

Lemma cstr_app s rest : 0 ∉ s -> cstr (s ++ 0 :: rest) = s.
Proof.
  induction s as [|b s IH]; intros H; [done|]. cbn. apply not_elem_of_cons in H as [Hb H].
  destruct (Z.eqb_spec b 0); [congruence|]. by rewrite IH.
Qed.

Lemma cstr_no_nul mem : 0 ∉ cstr mem.
Proof.
  induction mem as [|b mem IH]; cbn; [by apply not_elem_of_nil|].
  destruct (Z.eqb_spec b 0); [by apply not_elem_of_nil|]. apply not_elem_of_cons. done.
Qed.

Lemma key_bytes_some mem : cstr mem <> [] -> key_bytes (Some mem) = Some (cstr mem).
Proof. unfold key_bytes. by destruct (cstr mem). Qed.

Section lib.
Context `{AL : Allocator}.

Lemma exec_with_store {A} (f : Store -> io (A * Store)) fuel st w :
  exec (with_store fuel f (Some st)) w =
    (fst (fst (exec (f st) w)), Some (snd (fst (exec (f st) w))), snd (exec (f st) w)).
Proof.
  unfold with_store. rewrite exec_bind, exec_ret. cbn [fst snd]. rewrite exec_bind.
  by destruct (exec (f st) w) as [[a st'] w'].
Qed.

Lemma exec_report fuel (f : Store -> io (bool * Store)) st w :
  exec (report fuel f (Some st)) w =
    (e_code (fst (fst (exec (f st) w))), Some (snd (fst (exec (f st) w))), snd (exec (f st) w)).
Proof.
  unfold report. rewrite exec_bind, exec_with_store. by destruct (exec (f st) w) as [[ok st'] w'].
Qed.

(** C22: what a C program stores it reads back.  When [nvram_set] of a
    NUL-terminated key and value reports [E_SUCCESS], the same process's next
    [nvram_get] of that key returns, without a lock or any effect, a non-null
    pointer to the value with its terminator: up to the first NUL it is the
    string that was passed.  Other processes may have acted before the set;
    no assumption is made on the segment's counters. *)
Theorem nvram_set_get_roundtrip fuel st seg s w kmem vmem :
  coherent st seg s -> seg_at w seg s -> wf s -> others_ok w ->
  valid_key (cstr kmem) = true -> len (cstr kmem) + len (cstr vmem) < 2 ^ 63 ->
  let '(r, g, w1) := exec (nvram_set fuel (Some kmem) (Some vmem) (Some st)) w in
  r = E_SUCCESS ->
  exists st1 p, g = Some st1 /\
    exec (nvram_get fuel (Some kmem) g) w1 = ((p, Some st1), w1) /\
    p <> 0 /\ s_heap st1 !! p = Some (cstr vmem ++ [0]) /\
    cstr (deref (s_heap st1) p) = cstr vmem.
Proof.
  intros Hc Hs Hw Ho Hk Hl. pose proof (valid_key_spec _ Hk) as (_ & Hne & _).
  unfold nvram_set, nvram_get. rewrite (key_bytes_some _ Hne). cbn [val_bytes fmap option_fmap option_map].
  rewrite exec_report.
  pose proof (wp_exec _ _ _ _ (wp_set fuel st seg s w Hc Hs Hw Ho _ _ Hk Hl)) as H.
  destruct (exec (set fuel st _ _) w) as [[ok st1] w1]. cbn [fst snd] in *.
  destruct H as (_ & s' & Hs' & _ & _ & Hcp & _). destruct ok; [|done]. intros _.
  destruct (Hcp eq_refl) as [Hst1 Hcopy].
  destruct (exec_get_copy fuel st1 seg s' (cstr kmem) (Some (cstr vmem)) w1 Hst1 Hcopy Hs') as (p & Hg & Hz & Hp).
  exists st1, p. split; [done|]. split; [by rewrite exec_with_store, Hg|].
  specialize (Hp _ eq_refl). split_and!; [|done|].
  - intros E. apply Hz in E. done.
  - unfold deref. rewrite Hp. apply (cstr_app _ []). apply cstr_no_nul.
Qed.

(** Null and empty arguments are harmless.  For a null or empty name
    every entry point answers at once - null, 0, the empty string, or
    [E_FAILURE] - and for a null value [nvram_set] answers [E_FAILURE]; the
    process state and the whole system are untouched.  [nvram_safe_get] never
    returns null. *)
Theorem nvram_null_arguments fuel name value g w :
  key_bytes name = None ->
  exec (nvram_get fuel name g) w = ((0, g), w) /\
  exec (nvram_safe_get fuel name g) w = ((EMPTY_STR, g), w) /\
  exec (nvram_get_int fuel name g) w = ((0, g), w) /\
  exec (nvram_set fuel name value g) w = ((E_FAILURE, g), w) /\
  exec (nvram_set fuel value None g) w = ((E_FAILURE, g), w) /\
  exec (nvram_unset fuel name g) w = ((E_FAILURE, g), w) /\
  forall n w', fst (fst (exec (nvram_safe_get fuel n g) w')) <> 0.
Proof.
  intros Hn. unfold nvram_get, nvram_safe_get, nvram_get_int, nvram_set, nvram_unset, nvram_get.
  rewrite Hn. split_and!; try done.
  - cbn [val_bytes fmap option_fmap option_map]. by destruct (key_bytes value).
  - intros n w'. rewrite exec_bind. destruct (exec _ w') as [[p g'] w2]. cbn [fst snd].
    rewrite exec_ret. cbn [fst]. by destruct (Z.eqb_spec p 0).
Qed.
End lib.

Lemma nvram_set_get_roundtrip_witness :
  let '(r, g, w1) :=
    exec (nvram_set 1 (Some [97; 98; 0]) (Some [120; 0; 7]) (Some attached)) (demo_world empty_fs sample) in
  r = E_SUCCESS ->
  exists st1 p, g = Some st1 /\
    exec (nvram_get 1 (Some [97; 98; 0]) g) w1 = ((p, Some st1), w1) /\
    p <> 0 /\ s_heap st1 !! p = Some (cstr [120; 0; 7] ++ [0]) /\
    cstr (deref (s_heap st1) p) = cstr [120; 0; 7].
Proof.
  apply (nvram_set_get_roundtrip 1 attached 3 sample (demo_world empty_fs sample) [97; 98; 0] [120; 0; 7]).
  - split; [done|apply empty_ok|]. intros k e H. cbn in H. by rewrite lookup_empty in H.
  - apply demo_seg.
  - apply sample_spec.
  - apply demo_others.
  - reflexivity.
  - reflexivity.
Defined.

Lemma nvram_null_arguments_witness :
  let w := demo_world empty_fs sample in
  let g := @None Store in
  exec (nvram_get 1 (Some [0]) g) w = ((0, g), w) /\
  exec (nvram_safe_get 1 (Some [0]) g) w = ((EMPTY_STR, g), w) /\
  exec (nvram_get_int 1 (Some [0]) g) w = ((0, g), w) /\
  exec (nvram_set 1 (Some [0]) (Some [97; 0]) g) w = ((E_FAILURE, g), w) /\
  exec (nvram_set 1 (Some [97; 0]) None g) w = ((E_FAILURE, g), w) /\
  exec (nvram_unset 1 (Some [0]) g) w = ((E_FAILURE, g), w) /\
  forall n w', fst (fst (exec (nvram_safe_get 1 n g) w')) <> 0.
Proof. apply nvram_null_arguments. reflexivity. Defined.

(** * Numbers *)

(** C39: [nvram_get_int]'s parser reads every [int] back from its decimal text,
    whatever other text follows as long as it does not go on with a digit. *)
Theorem parse_int_roundtrip z junk :
  - 2 ^ 31 <= z < 2 ^ 31 -> utf8 junk = true -> no_digit junk ->
  parse_int (show_int z ++ junk) = z.
Proof. apply parse_number. Qed.

Lemma parse_int_roundtrip_witness : parse_int (show_int (-2147483648) ++ [32; 107; 66]) = -2147483648.
Proof. apply parse_int_roundtrip; [lia|reflexivity|reflexivity]. Defined.

(** It never leaves the range of an [int], whatever bytes it is given;
    and a number beyond that range is not saturated or truncated, as
    [strtol] and [atoi] would, but read as 0. *)
Theorem parse_int_overflow bs :
  - 2 ^ 31 <= parse_int bs < 2 ^ 31 /\
  parse_int (digits 10 2147483648 []) = 0 /\ parse_int (45 :: digits 10 2147483649 []) = 0.
Proof. split; [apply parse_int_range|]. vm_compute. split; reflexivity. Qed.

(** * Names *)

(** The check at the door is enough for the disk.  A valid key is not
    empty, is text, does not start with a dot and holds no separator; the
    temporary file it is written through has a name the filesystem takes,
    which is no key's own, and different keys never share one. *)
Theorem valid_key_storable pid key :
  valid_key key = true ->
  key_path key = Some key /\ 0 < len key /\ 47 ∉ key /\ utf8 key = true /\
  starts_with [46] key = false /\
  len (tmp_name pid key) <= NAME_MAX /\ valid_key (tmp_name pid key) = false /\
  forall key', tmp_name pid key' = tmp_name pid key -> key' = key.
Proof.
  intros Hk. pose proof (valid_key_spec _ Hk) as (Hu & Hne & _ & Hd & Hs).
  unfold key_path. rewrite Hk. split_and!; try done.
  - destruct key; [done|]. rewrite len_cons. pose proof (len_nonneg key). lia.
  - by apply tmp_name_fits.
  - destruct (valid_key (tmp_name pid key)) eqn:E; [|done]. by apply valid_ne_tmp with (pid := pid) (k := key) in E.
  - intros key'. apply tmp_name_inj.
Qed.

Lemma valid_key_storable_witness :
  key_path [97; 46] = Some [97; 46] /\ 0 < len [97; 46] /\ 47 ∉ [97; 46] /\ utf8 [97; 46] = true /\
  starts_with [46] [97; 46] = false /\
  len (tmp_name 4194304 [97; 46]) <= NAME_MAX /\ valid_key (tmp_name 4194304 [97; 46]) = false /\
  forall key', tmp_name 4194304 key' = tmp_name 4194304 [97; 46] -> key' = [97; 46].
Proof. apply valid_key_storable. reflexivity. Defined.

(** * The hash *)

Lemma fnv_step_byte_inj h b b' :
  0 <= h < 2 ^ 64 -> 0 <= b < 256 -> 0 <= b' < 256 -> fnv_step h b = fnv_step h b' -> b = b'.
Proof.
  intros Hh Hb Hb' H. unfold fnv_step in H.
  apply (f_equal (fun x => u64 (x * FNV_MULT_INV))) in H.
  rewrite !fnv_mult_inv, !lxor_u64 in H by lia.
  apply (f_equal (Z.lxor h)) in H. by rewrite <- !Z.lxor_assoc, !Z.lxor_nilpotent, !Z.lxor_0_l in H.
Qed.

Lemma fnv_fold_inj post h h' :
  Forall (fun b => 0 <= b < 256) post -> 0 <= h < 2 ^ 64 -> 0 <= h' < 2 ^ 64 ->
  foldl fnv_step h post = foldl fnv_step h' post -> h = h'.
Proof.
  intros Hp. revert h h'; induction Hp as [|b post Hb _ IH]; intros h h' Hh Hh' E; [done|].
  apply (fnv_step_inj h h' b); [done..|]. apply IH; [apply u64_range..|done].
Qed.

(** Keys that differ in a single byte never share a hash - the multiplier
    is odd, so no round loses information - but for the two hash values the
    final substitution of 1 for 0 merges. *)
Theorem hash_separates_one_byte pre b b' post :
  Forall (fun x => 0 <= x < 256) (b :: b' :: post) ->
  fnv1a (pre ++ b :: post) = fnv1a (pre ++ b' :: post) ->
  b = b' \/ fnv1a (pre ++ b :: post) = 1.
Proof.
  intros (Hb & Hb' & Hp)%Forall_cons_1%(fun H => conj (proj1 H) (Forall_cons_1 _ _ _ (proj2 H))).
  assert (0 <= FNV_OFFSET < 2 ^ 64) as H0 by (unfold FNV_OFFSET; lia).
  pose proof (fnv_fold_range pre FNV_OFFSET H0) as Hh.
  unfold fnv1a. rewrite !foldl_app. cbn [foldl]. set (h := foldl fnv_step FNV_OFFSET pre) in *.
  intros E. destruct (Z.eqb_spec (foldl fnv_step (fnv_step h b) post) 0) as [E1|_]; [by right|].
  destruct (Z.eqb_spec (foldl fnv_step (fnv_step h b') post) 0) as [E2|_]; [by right|].
  left. apply (fnv_step_byte_inj h); [done..|]. eapply fnv_fold_inj; [done|apply u64_range..|done].
Qed.

Lemma hash_separates_one_byte_witness :
  97 = 97 \/ fnv1a ([98] ++ 97 :: [99]) = 1.
Proof. apply (hash_separates_one_byte [98] 97 97 [99]); [repeat constructor; lia|reflexivity]. Defined.

(** The hash is not the published FNV-1a: its multiplier is 2^44 + 0x1b3,
    where the 64-bit FNV prime is 2^40 + 0x1b3.  On "a" the two differ (the
    published value is 0xaf63dc4c8601ec8c). *)
Theorem fnv1a_is_not_fnv1a :
  FNV_MULT = 2 ^ 44 + 0x1b3 /\ fnv1a_reference [97] = 0xaf63dc4c8601ec8c /\
  fnv1a [97] <> fnv1a_reference [97].
Proof. split_and!; [reflexivity|reflexivity|]. vm_compute. discriminate. Qed.
