(* ===== verification/Race.v ===== *)
(** A lock-free reader against a writer, access by access.

    [Segment.run] executes a program with nothing in between.  Here a program
    advances one memory access at a time: [race] lets a writer's program take
    any number of accesses before each access of a reader, [sched] saying how
    many.  Copies in and out of the arena are [memcpy]s, not atomic accesses:
    [bytewise] takes them byte by byte.  Every access of the reader is
    answered at once, so the reader never waits for the writer, which may as
    well have been killed between two accesses. *)

From S2P Require Import Prelude Consts Hash Spec Segment Shm ShmInv ShmProbe ShmOps SeqCount ShmWrite ShmCompact ShmRefine ShmCommit ShmTrace.

(** * Accesses *)

(** One access of a program. *)
Definition pstep {A} (p : prog A) (s : Segment) : prog A * Segment :=
  match p with
  | PRet a => (PRet a, s)
  | PLoad c k => (k (load c s), s)
  | PStore c v k => (k, store c v s)
  | PRmw c f k => (k (load c s), store c (f (load c s)) s)
  | PRead off n k => (k (mem_read (arena s) off n), s)
  | PWrite off bs k => (k, arena_write off bs s)
  end.

(** [n] accesses, or fewer when the program ends before. *)
Fixpoint advance {A} (n : nat) (p : prog A) (s : Segment) : prog A * Segment :=
  match n with
  | O => (p, s)
  | S n' => let (p, s) := pstep p s in advance n' p s
  end.

(** The reader [p] to its end, the writer [q] taking [sched]'s accesses. *)
Fixpoint race {A B} (sched : list nat) (p : prog A) (q : prog B) (s : Segment) : A :=
  let (q, s) := advance (hd O sched) q s in
  match p with
  | PRet a => a
  | PLoad c k => race (tl sched) (k (load c s)) q s
  | PStore c v k => race (tl sched) k q (store c v s)
  | PRmw c f k => race (tl sched) (k (load c s)) q (store c (f (load c s)) s)
  | PRead off n k => race (tl sched) (k (mem_read (arena s) off n)) q s
  | PWrite off bs k => race (tl sched) k q (arena_write off bs s)
  end.

(** [copy_nonoverlapping], a byte at a time. *)
Fixpoint read_each {A} (off : Z) (n : nat) (k : bytes -> prog A) : prog A :=
  match n with
  | O => k []
  | S n' => PRead off 1 (fun b => read_each (off + 1) n' (fun bs => k (b ++ bs)))
  end.

Fixpoint write_each {A} (off : Z) (bs : bytes) (k : prog A) : prog A :=
  match bs with
  | [] => k
  | b :: bs' => PWrite off [b] (write_each (off + 1) bs' k)
  end.

Fixpoint bytewise {A} (p : prog A) : prog A :=
  match p with
  | PRet a => PRet a
  | PLoad c k => PLoad c (fun v => bytewise (k v))
  | PStore c v k => PStore c v (bytewise k)
  | PRmw c f k => PRmw c f (fun v => bytewise (k v))
  | PRead off n k => read_each off (Z.to_nat n) (fun bs => bytewise (k bs))
  | PWrite off bs k => write_each off bs (bytewise k)
  end.

(** * The writers

    They serialise on the writer lock: together they run one operation after
    the other. *)

Definition op_prog (o : op) : prog unit :=
  match o with
  | OPut key val dirty => put key val dirty ;! ret tt
  | ORemove key dirty => remove key dirty ;! ret tt
  | OClear => clear
  | ORepair k => repair_seq k ;! ret tt
  | OWriteback ps => commit_writeback ps
  end.

Definition writers (os : list op) : prog unit := forM os op_prog.

Lemma run_op_prog o s : snd (run (op_prog o) s) = apply o s.
Proof. destruct o; cbn [op_prog apply]; by rewrite ?run_bind, ?run_ret. Qed.

Lemma run_writers os s : snd (run (writers os) s) = apply_all os s.
Proof.
  unfold writers. revert s; induction os as [|o os IH]; intros s; [done|].
  rewrite run_forM_cons, run_op_prog. apply IH.
Qed.

(** * Programs that only look *)

Fixpoint looks {A} (p : prog A) : Prop :=
  match p with
  | PRet _ => True
  | PLoad _ k => forall v, looks (k v)
  | PRead _ _ k => forall bs, looks (k bs)
  | _ => False
  end.

Lemma looks_run {A} (p : prog A) s : looks p -> snd (run p s) = s.
Proof. revert s; induction p; intros s; simpl; try done; intros H0; unfold run; fold @run; auto. Qed.

Lemma looks_bind {A B} (m : prog A) (f : A -> prog B) :
  looks m -> (forall a, looks (f a)) -> looks (bind m f).
Proof. intros Hm Hf. induction m; simpl in Hm; try done; unfold bind; fold @bind; simpl; auto. Qed.

#[global] Arguments looks : simpl never.

Lemma looks_loadc c : looks (loadc c).
Proof. by intros v. Qed.

(** Through the statements of a program that only looks. *)
Ltac looks_step := refine (looks_bind _ _ _ _); [first [apply looks_loadc|idtac]|intros ?].

Lemma looks_foldM {X St} (l : list X) (st : St) body :
  (forall x st, looks (body x st)) -> looks (foldM l st body).
Proof.
  intros H. revert st; induction l as [|x l IH]; intros st; [done|]. simpl. looks_step; auto.
Qed.

Lemma looks_arena_slice off ln : looks (arena_slice off ln).
Proof. unfold arena_slice. case_match; done. Qed.

Lemma looks_arena_eq off ln want : looks (arena_eq off ln want).
Proof. unfold arena_eq. case_match; done. Qed.

Lemma looks_probe_loop key hash start free j n : looks (probe_loop key hash start free j n).
Proof.
  revert free j; induction n as [|n IH]; intros free j; [done|]. simpl.
  looks_step. case_match; [done|].
  looks_step.
  refine (looks_bind _ _ _ _).
  { case_match; [|done]. looks_step.
    looks_step. apply looks_arena_eq. }
  intros []; [done|]. refine (looks_bind _ _ _ _); [|auto]. case_match; done.
Qed.

Lemma looks_probe key hash : looks (probe key hash).
Proof. apply looks_probe_loop. Qed.

Lemma looks_holds_value key val hash : looks (holds_value key val hash).
Proof.
  unfold holds_value. refine (looks_bind _ _ _ _); [apply looks_probe|]. intros [[i []]|]; try done.
  looks_step. case_match; [|done].
  looks_step. looks_step.
  apply looks_arena_eq.
Qed.

Lemma looks_keep_entry i keep : looks (keep_entry i keep).
Proof.
  unfold keep_entry. looks_step. case_match; [done|].
  looks_step. case_match; [done|].
  looks_step. looks_step.
  refine (looks_bind _ _ _ _); [apply looks_arena_slice|]. intros [key|]; [|done].
  refine (looks_bind _ _ _ _); [|done]. case_match; [|done].
  looks_step. looks_step.
  apply looks_arena_slice.
Qed.

#[export] Hint Resolve looks_arena_slice looks_arena_eq looks_probe looks_holds_value
  looks_keep_entry : nvram.

(** * The byte-wise copies do the same work *)

Lemma run_read_each {A} off n (k : bytes -> prog A) s :
  run (read_each off n k) s = run (k (mem_read_nat (arena s) off n)) s.
Proof.
  revert off k; induction n as [|n IH]; intros off k; [done|].
  change (run (read_each off (S n) k) s)
    with (run (read_each (off + 1) n (fun bs => k ([arr_get 0 (arena s) off] ++ bs))) s).
  by rewrite IH.
Qed.

Lemma run_write_each {A} off bs (k : prog A) s :
  run (write_each off bs k) s = run k (arena_write off bs s).
Proof.
  revert off s; induction bs as [|b bs IH]; intros off s; [by destruct s|].
  change (run (write_each off (b :: bs) k) s)
    with (run (write_each (off + 1) bs k) (arena_write off [b] s)).
  by rewrite IH.
Qed.

Lemma run_bytewise {A} (p : prog A) s : run (bytewise p) s = run p s.
Proof.
  revert s; induction p as [a|c k IH|c v k IH|c f k IH|off n k IH|off bs k IH]; intros s; simpl.
  - done.
  - apply IH.
  - apply IH.
  - apply IH.
  - rewrite run_read_each. apply IH.
  - rewrite run_write_each. apply IH.
Qed.

(** * What a racing reader needs of the writers

    [o], run from [s], reclaims the tombstone of a key with [key]'s hash. *)
Definition reuses (key : bytes) (o : op) (s : Segment) : bool :=
  match o with
  | OPut k _ _ =>
    match fst (run (probe k (fnv1a k)) s) with
    | Some (i, false) => negb (state_of s i =? ST_EMPTY) && (e_hash (entry s i) =? fnv1a key)
    | _ => false
    end
  | _ => false
  end.

Record racing (key : bytes) (o : op) (s : Segment) : Prop := mk_racing {
  ra_ok : op_ok o;
  ra_safe : op_safe o s;
  ra_reuse : reuses key o s = false;
  ra_slot : 0 <= slot s (key_slot key) < 2 ^ 64 - 4;
  ra_aseq : 0 <= aseq s < 2 ^ 64 - 4
}.

Fixpoint racing_all (key : bytes) (os : list op) (s : Segment) : Prop :=
  match os with
  | [] => True
  | o :: os' => racing key o s /\ racing_all key os' (apply o s)
  end.
