(* ===== verification/RaceInv.v ===== *)
(** What a reader of one key may rely on while a writer is half-way.

    [settled s s'] is the reader's rely and the writer's guarantee: from one
    access to the next the key's counter and the arena's never go back, and
    while both stand still at even values nothing the reader looks at changes
    ([stable]).  [anchored] says that such a moment shows a consistent segment
    of an allowed answer.  [guards] is the writer's side of the argument,
    [sees] the reader's, and [race_sees] puts them together. *)

From S2P Require Import Prelude Consts Hash Spec Segment Shm ShmInv ShmProbe ShmOps SeqCount ShmWrite ShmCompact ShmRefine ShmCommit ShmTrace Race.

(** * A program's own steps *)

Section guards.
Variable G : Segment -> Segment -> Prop.

(** Every access of [p], run from [s], takes the segment along [G]; an arena
    copy does so byte by byte. *)
Fixpoint guards_write (off : Z) (bs : bytes) (s : Segment) : Prop :=
  match bs with
  | [] => True
  | b :: bs' => let s' := arena_write off [b] s in G s s' /\ guards_write (off + 1) bs' s'
  end.

Fixpoint guards {A} (p : prog A) (s : Segment) : Prop :=
  match p with
  | PRet _ => True
  | PLoad c k => guards (k (load c s)) s
  | PStore c v k => G s (store c v s) /\ guards k (store c v s)
  | PRmw c f k =>
    let s' := store c (f (load c s)) s in G s s' /\ guards (k (load c s)) s'
  | PRead off n k => guards (k (mem_read (arena s) off n)) s
  | PWrite off bs k => guards_write off bs s /\ guards k (arena_write off bs s)
  end.

(** The same of a program whose copies are already byte-wise: one access, one
    step. *)
Fixpoint guards1 {A} (p : prog A) (s : Segment) : Prop :=
  match p with
  | PRet _ => True
  | PLoad c k => guards1 (k (load c s)) s
  | PStore c v k => G s (store c v s) /\ guards1 k (store c v s)
  | PRmw c f k =>
    let s' := store c (f (load c s)) s in G s s' /\ guards1 (k (load c s)) s'
  | PRead off n k => guards1 (k (mem_read (arena s) off n)) s
  | PWrite off bs k => G s (arena_write off bs s) /\ guards1 k (arena_write off bs s)
  end.

Lemma guards_bind {A B} (m : prog A) (f : A -> prog B) s :
  guards m s -> guards (f (fst (run m s))) (snd (run m s)) -> guards (bind m f) s.
Proof.
  revert s; induction m as [a|c k IH|c v k IH|c g k IH|off n k IH|off bs k IH]; intros s; simpl.
  - done.
  - apply IH.
  - intros [H Hk] Hf. split; [done|]. by apply IH.
  - intros [H Hk] Hf. split; [done|]. by apply IH.
  - apply IH.
  - intros [H Hk] Hf. split; [done|]. by apply IH.
Qed.

Lemma guards_looks {A} (p : prog A) s : looks p -> guards p s.
Proof. intros H. induction p as [a|c k IH| | |off n k IH|]; simpl; try done; apply IH, H. Qed.

Lemma guards1_read_each {A} off n (k : bytes -> prog A) s :
  guards1 (k (mem_read_nat (arena s) off n)) s -> guards1 (read_each off n k) s.
Proof.
  revert off k; induction n as [|n IH]; intros off k; [done|]. simpl. intros H. by apply IH.
Qed.

Lemma guards1_write_each {A} off bs (k : prog A) s :
  guards_write off bs s -> guards1 k (arena_write off bs s) -> guards1 (write_each off bs k) s.
Proof.
  revert off s; induction bs as [|b bs IH]; intros off s; [by destruct s|].
  intros [H Hw] Hk. split; [done|]. by apply IH.
Qed.

Lemma guards_bytewise {A} (p : prog A) s : guards p s -> guards1 (bytewise p) s.
Proof.
  revert s; induction p as [a|c k IH|c v k IH|c g k IH|off n k IH|off bs k IH]; intros s; simpl.
  - done.
  - apply IH.
  - intros [H Hk]. split; [done|]. by apply IH.
  - intros [H Hk]. split; [done|]. by apply IH.
  - intros H. by apply guards1_read_each, IH.
  - intros [H Hk]. apply guards1_write_each; [done|]. by apply IH.
Qed.
End guards.

#[global] Arguments guards : simpl never.

Lemma guards_write_weaken (G G' : Segment -> Segment -> Prop) (I : Segment -> Prop) off bs s :
  (forall s s', I s -> G s s' -> G' s s' /\ I s') -> I s -> guards_write G off bs s ->
  guards_write G' off bs s /\ I (arena_write off bs s).
Proof.
  intros HG. revert off s; induction bs as [|b bs IH]; intros off s HI; [by destruct s|].
  intros [H Hw]. destruct (HG _ _ HI H) as [H' HI'].
  destruct (IH _ _ HI' Hw) as [Hw' HI'']. split; [by split|done].
Qed.

(** An invariant of the steps strengthens them. *)
Lemma guards_weaken {A} (G G' : Segment -> Segment -> Prop) (I : Segment -> Prop) (p : prog A) s :
  (forall s s', I s -> G s s' -> G' s s' /\ I s') -> I s -> guards G p s ->
  guards G' p s /\ I (snd (run p s)).
Proof.
  intros HG. revert s; induction p as [a|c k IH|c v k IH|c g k IH|off n k IH|off bs k IH];
    intros s HI.
  - done.
  - by apply IH.
  - intros [H Hk]. destruct (HG _ _ HI H) as [H' HI']. destruct (IH _ HI' Hk). by split; [split|].
  - intros [H Hk]. destruct (HG _ _ HI H) as [H' HI']. destruct (IH _ _ HI' Hk). by split; [split|].
  - by apply IH.
  - intros [H Hk]. destruct (guards_write_weaken G G' I off bs s HG HI H) as [H' HI'].
    destruct (IH _ HI' Hk). by split; [split|].
Qed.

(** ** Programs that leave the counters alone *)

Definition counter (c : cell) : bool :=
  match c with CSlot _ | CArenaSeq => true | _ => false end.

Fixpoint seqless {A} (p : prog A) : Prop :=
  match p with
  | PRet _ => True
  | PLoad _ k => forall v, seqless (k v)
  | PStore c _ k => counter c = false /\ seqless k
  | PRmw c _ k => counter c = false /\ forall v, seqless (k v)
  | PRead _ _ k => forall bs, seqless (k bs)
  | PWrite _ _ k => seqless k
  end.

Lemma seqless_bind {A B} (m : prog A) (f : A -> prog B) :
  seqless m -> (forall a, seqless (f a)) -> seqless (bind m f).
Proof.
  intros Hm Hf. induction m; simpl in Hm; unfold bind; fold @bind; simpl;
    repeat match goal with H : _ /\ _ |- _ => destruct H end; auto.
Qed.

Lemma looks_seqless {A} (p : prog A) : looks p -> seqless p.
Proof. intros Hp. induction p as [a|c k IH| | |off n k IH|]; simpl; try done; intros; apply IH, Hp. Qed.

#[global] Arguments seqless : simpl never.

Definition still (s s' : Segment) : Prop :=
  (forall j, slot s' j = slot s j) /\ aseq s' = aseq s.

Lemma still_store c v s : counter c = false -> still s (store c v s).
Proof.
  intros H. split.
  - intros j. apply slot_store. by intros ->.
  - apply aseq_store. by intros ->.
Qed.

Lemma still_write off bs s : guards_write still off bs s.
Proof.
  revert off s; induction bs as [|b bs IH]; intros off s; [done|]. by split.
Qed.

Lemma seqless_still {A} (p : prog A) s : seqless p -> guards still p s.
Proof.
  revert s; induction p as [a|c k IH|c v k IH|c g k IH|off n k IH|off bs k IH]; intros s H.
  - done.
  - apply IH, H.
  - destruct H. split; [by apply still_store|by apply IH].
  - destruct H. split; [by apply still_store|by apply IH].
  - apply IH, H.
  - split; [apply still_write|by apply IH].
Qed.

Lemma run_seqless {A} (p : prog A) s : seqless p -> still s (snd (run p s)).
Proof.
  intros H. apply (guards_weaken still still (still s)); [|done|by apply seqless_still].
  intros s1 s2 [E1 E2] [F1 F2]. split; [done|]. split; [intros j; by rewrite F1|congruence].
Qed.

(** * The rely *)

Section key.
Variable key : bytes.
Let k : Z := key_slot key.
Let h : Z := fnv1a key.

(** No lookup of [key] can take bucket [i] for its own. *)
Definition other (s : Segment) (i : Z) : Prop :=
  state_of s i = ST_EMPTY \/ e_hash (entry s i) <> h.

(** A bucket but for its flags, which no reader looks at. *)
Definition face (e : IndexEntry) : Z * Z * Z * Z * Z * Z :=
  (e_hash e, e_key_off e, e_key_len e, e_val_off e, e_val_len e, e_state e).

Record stable (s s' : Segment) : Prop := mk_stable {
  st_same : forall i, in_index i -> ~ other s i -> face (entry s' i) = face (entry s i);
  st_other : forall i, in_index i -> other s i -> other s' i;
  st_full : forall i, in_index i -> state_of s i <> ST_EMPTY -> state_of s' i <> ST_EMPTY;
  st_used : used s <= used s';
  st_bytes : forall x, 0 <= x < used s -> arr_get 0 (arena s') x = arr_get 0 (arena s) x
}.

Definition quiet (s : Segment) : Prop :=
  is_odd (slot s k) = false /\ is_odd (aseq s) = false.

Record settled (s s' : Segment) : Prop := mk_settled {
  se_slot : slot s k <= slot s' k;
  se_aseq : aseq s <= aseq s';
  se_data : slot s' k = slot s k -> aseq s' = aseq s -> quiet s -> stable s s'
}.

Lemma other_face s s' i : face (entry s' i) = face (entry s i) -> other s' i <-> other s i.
Proof. unfold face, other, state_of. by intros [= -> _ _ _ _ ->]. Qed.

#[export] Instance stable_preorder : PreOrder stable.
Proof.
  split.
  - intros s. by split.
  - intros s1 s2 s3 [A1 A2 A3 A4 A5] [B1 B2 B3 B4 B5]. split.
    + intros i Hi Ho. pose proof (A1 i Hi Ho) as E. rewrite <- E. apply B1; [done|].
      by rewrite (other_face s1 s2).
    + auto.
    + auto.
    + lia.
    + intros x Hx. rewrite B5 by lia. by apply A5.
Qed.

Lemma quiet_eq s s' : slot s' k = slot s k -> aseq s' = aseq s -> quiet s -> quiet s'.
Proof. unfold quiet. by intros -> ->. Qed.

#[export] Instance settled_preorder : PreOrder settled.
Proof.
  split.
  - intros s. split; [lia..|]. intros _ _ _. reflexivity.
  - intros s1 s2 s3 [A1 A2 A3] [B1 B2 B3]. split; [lia..|]. intros E1 E2 Hq.
    assert (slot s2 k = slot s1 k) by lia. assert (aseq s2 = aseq s1) by lia.
    transitivity s2; [by apply A3|]. apply B3; [lia..|]. by eapply quiet_eq.
Qed.

Lemma same_data_stable s s' : same_data s s' -> stable s s'.
Proof.
  intros [He Ha Hu Hg]. split.
  - intros i _ _. by rewrite He.
  - intros i _. unfold other, state_of. by rewrite He.
  - intros i _. unfold state_of. by rewrite He.
  - by rewrite Hu.
  - intros x _. by rewrite Ha.
Qed.

(** A step that moves no counter the reader watches. *)
Definition tame (s s' : Segment) : Prop :=
  slot s' k = slot s k /\ aseq s' = aseq s /\ stable s s'.

Lemma tame_settled s s' : tame s s' -> settled s s'.
Proof. intros (E1 & E2 & H). split; [lia..|auto]. Qed.

(** * Moments at which an answer can be read *)

Section answers.
Variable V : Read -> Prop.

Definition anchored (s : Segment) : Prop :=
  quiet s -> exists b, wf b /\ settled b s /\ slot b k = slot s k /\ aseq b = aseq s /\
    V (read_of (Spec.get (view b) key)).

(** What the writer guarantees of each of its accesses. *)
Definition fair (s s' : Segment) : Prop := settled s s' /\ anchored s'.

Lemma anchored_at s : wf s -> V (read_of (Spec.get (view s) key)) -> anchored s.
Proof. intros Hwf HV _. exists s. split_and!; done. Qed.

Lemma anchored_odd s : ~ quiet s -> anchored s.
Proof. by intros H Hq. Qed.

Lemma anchored_data s s' :
  wf s -> same_data s s' -> V (read_of (Spec.get (view s) key)) -> anchored s'.
Proof.
  intros Hwf Hd HV. apply anchored_at; [by eapply same_data_wf|].
  by rewrite <- (view_proper _ _ Hd).
Qed.

Lemma anchored_tame s s' : anchored s -> tame s s' -> anchored s'.
Proof.
  intros Ha (E1 & E2 & Hs) Hq.
  assert (quiet s) as Hq0 by (by eapply (quiet_eq s')).
  destruct (Ha Hq0) as (b & Hb & Hbs & F1 & F2 & HV).
  exists b. split_and!; try done; try lia. transitivity s; [done|].
  apply tame_settled. by split_and!.
Qed.

(** Stretches of a program that move no counter keep the promise... *)
Lemma guards_tame {A} (p : prog A) s :
  anchored s -> guards tame p s -> guards fair p s /\ anchored (snd (run p s)).
Proof.
  apply (guards_weaken tame fair anchored). intros s1 s2 Ha Ht.
  assert (anchored s2) by by eapply anchored_tame.
  split; [|done]. split; [by apply tame_settled|done].
Qed.

(** ... in particular anything done between [begin] and [end]. *)
Lemma guards_odd {A} (p : prog A) s :
  ~ quiet s -> seqless p -> guards fair p s /\ ~ quiet (snd (run p s)).
Proof.
  intros Hq Hp. apply (guards_weaken still fair (fun s => ~ quiet s)); [|done|by apply seqless_still].
  intros s1 s2 Hq1 [E1 E2].
  assert (~ quiet s2) as Hq2 by (unfold quiet in *; by rewrite E1, E2).
  split; [|done]. split; [|by apply anchored_odd].
  split; [by rewrite E1|by rewrite E2|done].
Qed.

(** * The reader *)

(** What the writer may have done by the reader's next access. *)
Definition later (s s' : Segment) : Prop := settled s s' /\ anchored s'.

(** The bytes of a copy are seen one at a time. *)
Fixpoint sees_bytes (off : Z) (n : nat) (C : bytes -> Segment -> Prop) (s : Segment) : Prop :=
  match n with
  | O => C [] s
  | S n' => forall s', later s s' ->
      sees_bytes (off + 1) n' (fun bs => C (arr_get 0 (arena s') off :: bs)) s'
  end.

(** [p] only looks, and whatever the writer does ends with [Q]. *)
Fixpoint sees {A} (p : prog A) (Q : A -> Segment -> Prop) (s : Segment) : Prop :=
  match p with
  | PRet a => Q a s
  | PLoad c k => forall s', later s s' -> sees (k (load c s')) Q s'
  | PRead off n k => sees_bytes off (Z.to_nat n) (fun bs s' => sees (k bs) Q s') s
  | _ => False
  end.

Lemma sees_bytes_mono off n C C' s :
  (forall bs s', C bs s' -> C' bs s') -> sees_bytes off n C s -> sees_bytes off n C' s.
Proof.
  revert off C C' s; induction n as [|n IH]; intros off C C' s H; simpl; [apply H|].
  intros Hc s' Hs. eapply IH; [|by apply Hc]. simpl. intros bs s''. apply H.
Qed.

Lemma sees_mono {A} (p : prog A) (Q Q' : A -> Segment -> Prop) s :
  (forall a s', Q a s' -> Q' a s') -> sees p Q s -> sees p Q' s.
Proof.
  intros H. revert s; induction p as [a|c k' IH| | |off n k' IH|]; intros s; simpl; try done.
  - apply H.
  - intros Hp s' Hs. by apply IH, Hp.
  - apply sees_bytes_mono. intros bs s'. apply IH.
Qed.

Lemma sees_bind {A B} (m : prog A) (f : A -> prog B) (Q : B -> Segment -> Prop) s :
  sees m (fun a s' => sees (f a) Q s') s -> sees (bind m f) Q s.
Proof.
  revert s; induction m as [a|c k' IH| | |off n k' IH|]; intros s; simpl; try done.
  - intros Hp s' Hs. by apply IH, Hp.
  - apply sees_bytes_mono. intros bs s'. apply IH.
Qed.

Lemma sees_loadc c (Q : Z -> Segment -> Prop) s :
  (forall s', later s s' -> Q (load c s') s') -> sees (loadc c) Q s.
Proof. done. Qed.
End answers.
End key.

#[global] Arguments sees : simpl never.
#[global] Arguments sees_bytes : simpl never.

(** * A race *)

Lemma advance_guards {A} key V n (q : prog A) s :
  anchored key V s -> guards1 (fair key V) q s ->
  let (q', s') := advance n q s in later key V s s' /\ guards1 (fair key V) q' s'.
Proof.
  revert q s; induction n as [|n IH]; intros q s Ha Hq; simpl.
  { split; [split; [reflexivity|done]|done]. }
  assert (let (q', s') := pstep q s in later key V s s' /\ guards1 (fair key V) q' s') as H1.
  { destruct q; simpl in *; try (split; [split; [reflexivity|done]|done]); apply Hq. }
  destruct (pstep q s) as [q1 s1]. destruct H1 as [[Hs1 Ha1] Hq1].
  pose proof (IH q1 s1 Ha1 Hq1) as H2. destruct (advance n q1 s1) as [q2 s2].
  destruct H2 as [[Hs2 Ha2] Hq2]. split; [|done]. split; [by etrans|done].
Qed.

Lemma race_read_each {A B} key V (P : A -> Prop) off n (k : bytes -> prog A)
    (C : bytes -> Segment -> Prop) :
  (forall bs sched (q : prog B) s, anchored key V s -> guards1 (fair key V) q s -> C bs s ->
    P (race sched (k bs) q s)) ->
  forall sched (q : prog B) s, anchored key V s -> guards1 (fair key V) q s ->
  sees_bytes key V off n C s -> P (race sched (read_each off n k) q s).
Proof.
  revert off k C; induction n as [|n IH]; intros off k C Hk sched q s Ha Hq Hc.
  { by apply Hk. }
  cbn [read_each race]. pose proof (advance_guards key V (hd O sched) q s Ha Hq) as H1.
  destruct (advance (hd O sched) q s) as [q1 s1]. destruct H1 as [Hl Hq1].
  eapply (IH _ _ (fun bs => C (arr_get 0 (arena s1) off :: bs))); [|apply Hl|done|by apply Hc].
  intros bs sched' q' s' Ha' Hq' HC. by apply Hk.
Qed.

(** A reader's reasoning about every possible interference holds of every
    schedule. *)
Lemma race_sees {A B} key V (p : prog A) (P : A -> Prop) :
  forall sched (q : prog B) s, anchored key V s -> guards1 (fair key V) q s ->
  sees key V p (fun a _ => P a) s -> P (race sched (bytewise p) q s).
Proof.
  induction p as [a|c k IH| | |off n k IH|]; intros sched q s Ha Hq Hp; try done.
  - simpl. by destruct (advance (hd O sched) q s).
  - cbn [bytewise race]. pose proof (advance_guards key V (hd O sched) q s Ha Hq) as H1.
    destruct (advance (hd O sched) q s) as [q1 s1]. destruct H1 as [Hl Hq1].
    apply IH; [apply Hl|done|by apply Hp].
  - cbn [bytewise]. eapply (race_read_each key V); [|done..|exact Hp].
    intros bs sched' q' s' Ha' Hq' HC. by apply IH.
Qed.
