(* ===== verification/RaceOps.v ===== *)
(** Every operation on the segment keeps the writer's guarantee of [RaceInv],
    access by access. *)

From S2P Require Import Prelude Consts Hash Spec Segment Shm ShmInv ShmProbe ShmOps SeqCount ShmWrite ShmCompact ShmRefine ShmCommit ShmTrace Race RaceInv.

(** * Structure *)

Lemma seqless_loadc c : seqless (loadc c).
Proof. by intros v. Qed.
Lemma seqless_storec c v : counter c = false -> seqless (storec c v).
Proof. by split. Qed.
Lemma seqless_rmwc c f : counter c = false -> seqless (rmwc c f).
Proof. intros H. split; [done|]. by intros v. Qed.
Lemma seqless_write off bs : seqless (write_bytes off bs).
Proof. done. Qed.
Lemma seqless_ret {A} (a : A) : seqless (ret a).
Proof. done. Qed.

Lemma seqless_forM {X} (l : list X) body : (forall x, seqless (body x)) -> seqless (forM l body).
Proof.
  intros H. induction l as [|x l IH]; [done|]. cbn [forM]. by apply seqless_bind.
Qed.

(** Walk a program that touches no sequence counter. *)
Ltac seqless :=
  repeat match goal with
  | |- seqless (bind _ _) => refine (seqless_bind _ _ _ _); [|intros ?]
  | |- seqless (ret _) => apply seqless_ret
  | |- seqless (loadc _) => apply seqless_loadc
  | |- seqless (storec _ _) => apply seqless_storec; reflexivity
  | |- seqless (rmwc _ _) => apply seqless_rmwc; reflexivity
  | |- seqless (write_bytes _ _) => apply seqless_write
  | |- seqless (arena_slice _ _) => apply looks_seqless, looks_arena_slice
  | |- _ => case_match
  end.

Lemma seqless_alloc bs : seqless (arena_alloc bs).
Proof. unfold arena_alloc. seqless. Qed.

Lemma seqless_put_locked i found key val hash dirty :
  seqless (put_locked i found key val hash dirty).
Proof.
  unfold put_locked. refine (seqless_bind _ _ _ _); [apply seqless_alloc|]. intros [vo|]; [|done].
  refine (seqless_bind _ _ _ _).
  - destruct found; [seqless|]. refine (seqless_bind _ _ _ _); [apply seqless_alloc|].
    intros ko. seqless.
  - intros r. seqless.
Qed.

Lemma seqless_remove_body i dirty : seqless (remove_body i dirty).
Proof. unfold remove_body. seqless. Qed.

Lemma seqless_wipe : seqless wipe.
Proof.
  unfold wipe. refine (seqless_bind _ _ _ _); [|intros _; seqless].
  apply seqless_forM. intros i. unfold wipe_entry. seqless.
Qed.

Lemma seqless_reinsert k : seqless (reinsert k).
Proof.
  unfold reinsert. refine (seqless_bind _ _ _ _); [apply looks_seqless, looks_probe|].
  intros [[i b]|]; [|done]. refine (seqless_bind _ _ _ _); [apply seqless_alloc|].
  intros [ko|]; [|done]. do 4 (refine (seqless_bind _ _ _ _); [seqless|intros _]).
  destruct (k_val k); [|seqless]. refine (seqless_bind _ _ _ _); [apply seqless_alloc|].
  intros r. seqless.
Qed.

Lemma guards_forM {X} G (I : Segment -> Prop) (l : list X) body s :
  (forall x s, x ∈ l -> I s -> guards G (body x) s /\ I (snd (run (body x) s))) ->
  I s -> guards G (forM l body) s.
Proof.
  revert s; induction l as [|x l IH]; intros s H Hs; [done|]. cbn [forM].
  destruct (H x s (list_elem_of_here _ _) Hs) as [Hg Hi].
  apply guards_bind; [done|]. apply IH; [|done]. intros y s' Hy. apply H.
  by apply list_elem_of_further.
Qed.

(** * Single accesses *)

Section ops.
Variable key : bytes.
Let k : Z := key_slot key.

Lemma tame_data s s' : slot s' k = slot s k -> aseq s' = aseq s -> same_data s s' -> tame key s s'.
Proof. intros E1 E2 Hd. split_and!; [done..|]. by apply same_data_stable. Qed.

Lemma tame_gen g s : tame key s (store CGlobalGen g s).
Proof.
  apply tame_data; [by seg_simpl|by apply aseq_store|by apply same_data_store].
Qed.

Lemma tame_slot j v s : j <> k -> tame key s (store (CSlot j) v s).
Proof.
  intros Hj. apply tame_data; [by seg_simpl|by apply aseq_store|by apply same_data_store].
Qed.

(** Stores to the arena's bookkeeping. *)
Lemma tame_book c v s :
  c = CArenaUsed /\ used s <= v \/ c = CArenaGarbage -> tame key s (store c v s).
Proof.
  intros Hc. assert (counter c = false) as Hcc by (by destruct Hc as [[-> _]| ->]).
  assert (cell_entry c = None) as Hn by (by destruct Hc as [[-> _]| ->]).
  destruct (still_store c v s Hcc) as [E1 E2]. split_and!; [apply E1|done|].
  assert (forall i, entry (store c v s) i = entry s i) as He.
  { intros i. apply entry_store_other. by rewrite Hn. }
  split.
  - intros i _ _. by rewrite He.
  - intros i _. unfold other, state_of. by rewrite He.
  - intros i _. unfold state_of. by rewrite He.
  - destruct Hc as [[-> Hu]| ->]; by seg_simpl.
  - intros x _. by rewrite arena_store.
Qed.

(** A byte beyond the used part of the arena. *)
Lemma tame_write off bs s : used s <= off -> guards_write (tame key) off bs s.
Proof.
  revert off s; induction bs as [|b bs IH]; intros off s H; [done|]. split.
  - split_and!; [done..|]. split; try done.
    intros x Hx. cbn. rewrite arr_get_set_ne by lia. done.
  - apply IH. seg_simpl. lia.
Qed.

(** A store to a bucket no lookup of [key] takes, and which stays so. *)
Lemma tame_entry c v s i :
  cell_entry c = Some i -> other key s i -> other key (store c v s) i ->
  (state_of s i <> ST_EMPTY -> state_of (store c v s) i <> ST_EMPTY) ->
  tame key s (store c v s).
Proof.
  intros Hc Ho Ho' Hne.
  assert (counter c = false) as Hcc by (by destruct c).
  destruct (still_store c v s Hcc) as [E1 E2]. split_and!; [apply E1|done|].
  assert (forall j, j <> i -> entry (store c v s) j = entry s j) as He.
  { intros j Hj. apply entry_store_other. congruence. }
  split.
  - intros j _ Hj. rewrite He; [done|]. by intros ->.
  - intros j _ Hj. destruct (decide (j = i)) as [->|Hji]; [done|].
    unfold other, state_of. by rewrite He.
  - intros j _. destruct (decide (j = i)) as [->|Hji]; [done|].
    unfold state_of. by rewrite He.
  - rewrite used_store; [done|]. intros ->. done.
  - intros x _. by rewrite arena_store.
Qed.

(** The flags of any bucket. *)
Lemma tame_flags v s i : tame key s (store (CFlags i) v s).
Proof.
  destruct (still_store (CFlags i) v s eq_refl) as [E1 E2]. split_and!; [apply E1|done|].
  assert (forall j, face (entry (store (CFlags i) v s) j) = face (entry s j)) as He.
  { intros j. rewrite entry_store_cell. case_decide; [|done]. by destruct (entry s j). }
  split.
  - intros j _ _. apply He.
  - intros j _ Hj. by apply (other_face key s).
  - intros j _ Hj. pose proof (He j) as E. unfold state_of in *. unfold face in E. congruence.
  - by seg_simpl.
  - intros x _. by rewrite arena_store.
Qed.

(** * The stores of [put] and [remove] to a bucket of another slot *)

Lemma guards_alloc bs s :
  0 <= used s -> used s + len bs <= ARENA_SIZE -> guards (tame key) (arena_alloc bs) s.
Proof.
  intros H0 H. unfold arena_alloc. pose proof (len_nonneg bs). assert (ARENA_SIZE < 2 ^ 32) by done.
  apply guards_bind; [done|]. cbn [fst snd run]. rewrite run_loadc. cbn [fst snd load].
  fold (used s). rewrite wadd_small by lia.
  destruct (Z.ltb_spec ARENA_SIZE (used s + len bs)); [lia|].
  split; [by apply tame_write|]. cbn. split; [|done]. apply tame_book. left. seg_simpl. split; [done|lia].
Qed.

(** The closing stores of [put_locked]. *)
Lemma guards_publish i vo val dirty s :
  e_hash (entry s i) <> fnv1a key ->
  guards (tame key)
    (storec (CValLen i) 0 ;!
     storec (CValOff i) vo ;!
     storec (CValLen i) (u32 (len val)) ;!
     (if dirty : bool then rmwc (CFlags i) (fun f => Z.lor f FL_DIRTY) ;! ret tt else ret tt) ;!
     storec (CState i) ST_LIVE ;!
     ret (Ok tt)) s.
Proof.
  intros Hh.
  assert (forall c v s, cell_entry c = Some i -> c <> CHash i ->
            (state_of s i <> ST_EMPTY -> state_of (store c v s) i <> ST_EMPTY) ->
            e_hash (entry s i) <> fnv1a key ->
            tame key s (store c v s) /\ e_hash (entry (store c v s) i) <> fnv1a key) as Hst.
  { intros c v s1 Hc Hnh Hne Hs1.
    assert (e_hash (entry (store c v s1) i) = e_hash (entry s1 i)) as E.
    { rewrite entry_store_same by done.
      destruct (entry s1 i); destruct c; cbn in *; try done. congruence. }
    rewrite E. split; [|done]. apply (tame_entry c v s1 i); try done; right; by rewrite ?E. }
  assert (forall c v s, cell_entry c = Some i -> c <> CState i ->
            state_of (store c v s) i = state_of s i) as Hkeep.
  { intros c v s1 Hc Hns. unfold state_of. rewrite entry_store_same by done.
    destruct (entry s1 i); destruct c; cbn in *; try done. congruence. }
  split; [apply Hst; rewrite ?Hkeep; done|].
  set (s1 := store _ _ s). assert (e_hash (entry s1 i) <> fnv1a key) as H1
    by (apply Hst; rewrite ?Hkeep; done). clearbody s1.
  split; [apply Hst; rewrite ?Hkeep; done|].
  set (s2 := store _ _ s1). assert (e_hash (entry s2 i) <> fnv1a key) as H2
    by (apply Hst; rewrite ?Hkeep; done). clearbody s2.
  split; [apply Hst; rewrite ?Hkeep; done|].
  set (s3 := store _ _ s2). assert (e_hash (entry s3 i) <> fnv1a key) as H3
    by (apply Hst; rewrite ?Hkeep; done). clearbody s3.
  assert (forall s, e_hash (entry s i) <> fnv1a key ->
            guards (tame key) (storec (CState i) ST_LIVE ;! ret (Ok tt)) s) as Hlast.
  { intros s4 H4. split; [|done]. apply Hst; try done. intros _. unfold state_of. seg_simpl.
    by destruct (entry s4 i). }
  destruct dirty; [|by apply Hlast].
  split; [apply tame_flags|]. apply Hlast. seg_simpl. by destruct (entry s3 i).
Qed.

Lemma guards_put_locked s i found k' val dirty :
  0 <= used s -> used s + (len k' + len val) <= ARENA_SIZE ->
  fnv1a k' <> fnv1a key ->
  (found = true -> e_hash (entry s i) <> fnv1a key) -> other key s i ->
  guards (tame key) (put_locked i found k' val (fnv1a k') dirty) s.
Proof.
  intros Hu Hroom Hk Hfound Ho. pose proof (len_nonneg k'). pose proof (len_nonneg val).
  unfold put_locked. apply guards_bind; [apply guards_alloc; lia|].
  rewrite run_arena_alloc by lia. cbn [fst snd].
  set (s1 := store CArenaUsed _ _).
  assert (forall j, entry s1 j = entry s j) as He by (intros; subst s1; by seg_simpl).
  assert (used s1 = used s + len val) as Hu1 by (subst s1; by seg_simpl).
  clearbody s1. destruct found.
  - apply guards_bind.
    + apply guards_bind; [done|]. rewrite run_loadc. cbn [fst snd].
      apply guards_bind; [|done]. case_match; [|done].
      apply guards_bind; [done|]. rewrite run_loadc. cbn [fst snd].
      split; [apply tame_book; by right|done].
    + run_simpl. destruct (load (CState i) s1 =? ST_LIVE); run_simpl;
        apply guards_publish; seg_simpl; rewrite He; auto.
  - apply guards_bind.
    + apply guards_bind; [apply guards_alloc; lia|]. rewrite run_arena_alloc by lia. cbn [fst snd].
      set (s2 := store CArenaUsed _ _).
      assert (forall j, entry s2 j = entry s j) as He2
        by (intros; subst s2; seg_simpl; by rewrite He).
      clearbody s2. clear He.
      assert (forall s3 c v, cell_entry c = Some i -> c <> CState i -> c <> CHash i ->
                other key s3 i -> tame key s3 (store c v s3) /\ other key (store c v s3) i) as Hst.
      { intros s3 c v Hc Hns Hnh Ho3.
        assert (other key (store c v s3) i) as Ho4.
        { unfold other, state_of in *. rewrite entry_store_same by done.
          destruct (entry s3 i); destruct c; cbn in *; try done; congruence. }
        split; [|done]. apply (tame_entry c v s3 i); try done.
        unfold state_of. rewrite entry_store_same by done.
        destruct (entry s3 i); destruct c; cbn in *; try done; congruence. }
      assert (other key s2 i) as Ho2 by (unfold other, state_of in *; by rewrite He2).
      clear Ho He2.
      split; [by apply Hst|]. set (s3 := store _ _ s2).
      assert (other key s3 i) as Ho3 by (by apply Hst). clearbody s3.
      split; [by apply Hst|]. set (s4 := store _ _ s3).
      assert (other key s4 i) as Ho4 by (by apply Hst). clearbody s4.
      split; [|done]. apply (tame_entry (CHash i) _ s4 i); try done.
      * right. seg_simpl. by destruct (entry s4 i).
      * unfold state_of. seg_simpl. by destruct (entry s4 i).
    + run_simpl. rewrite run_arena_alloc by lia. cbn [fst snd]. run_simpl.
      apply guards_publish. seg_simpl. rewrite He. by destruct (entry s i).
Qed.

Lemma guards_remove_body s i dirty :
  e_hash (entry s i) <> fnv1a key -> guards (tame key) (remove_body i dirty) s.
Proof.
  intros Hh. unfold remove_body. apply guards_bind; [done|]. rewrite run_loadc. cbn [fst snd].
  split; [apply tame_book; by right|]. set (s1 := store _ _ s).
  assert (e_hash (entry s1 i) <> fnv1a key) as H1 by (subst s1; by seg_simpl). clearbody s1.
  assert (forall c v s, c = CValLen i \/ c = CState i /\ v <> ST_EMPTY ->
            e_hash (entry s i) <> fnv1a key ->
            tame key s (store c v s) /\ e_hash (entry (store c v s) i) <> fnv1a key) as Hst.
  { intros c v s2 Hc H2.
    assert (cell_entry c = Some i) as Hce by (by destruct Hc as [->|[-> _]]).
    assert (e_hash (entry (store c v s2) i) = e_hash (entry s2 i)) as E.
    { rewrite entry_store_same by done. destruct Hc as [->|[-> _]]; by destruct (entry s2 i). }
    rewrite E. split; [|done]. apply (tame_entry c v s2 i); try done; try (right; by rewrite ?E).
    unfold state_of. rewrite entry_store_same by done.
    destruct Hc as [->|[-> Hv]]; by destruct (entry s2 i). }
  split; [apply Hst; auto|]. set (s2 := store _ _ s1).
  assert (e_hash (entry s2 i) <> fnv1a key) as H2 by (apply Hst; auto). clearbody s2.
  assert (forall s, e_hash (entry s i) <> fnv1a key ->
            guards (tame key) (storec (CState i) ST_TOMB) s) as Hlast.
  { intros s4 H4. split; [|done]. apply Hst; [by right|done]. }
  destruct dirty; [|by apply Hlast].
  split; [apply tame_flags|]. apply Hlast. seg_simpl. by destruct (entry s2 i).
Qed.
End ops.

(** * Whole operations *)

Section fair.
Variables (key : bytes) (V : Read -> Prop).
Let k : Z := key_slot key.

(** A store that moves the key's counter or the arena's forward. *)
Lemma fair_slot v s :
  slot s k < v -> anchored key V (store (CSlot k) v s) -> fair key V s (store (CSlot k) v s).
Proof.
  intros Hv Ha. split; [|done]. fold k. split.
  - fold k. rewrite slot_store_same. lia.
  - rewrite aseq_store by done. lia.
  - fold k. rewrite slot_store_same. lia.
Qed.

Lemma fair_aseq v s :
  aseq s < v -> anchored key V (store CArenaSeq v s) -> fair key V s (store CArenaSeq v s).
Proof.
  intros Hv Ha. split; [|done]. split.
  - seg_simpl. lia.
  - rewrite aseq_store_same. lia.
  - rewrite aseq_store_same. lia.
Qed.

Lemma odd_slot v s : is_odd v = true -> ~ quiet key (store (CSlot k) v s).
Proof. intros Hv [H _]. fold k in H. rewrite slot_store_same in H. congruence. Qed.

Lemma odd_aseq v s : is_odd v = true -> ~ quiet key (store CArenaSeq v s).
Proof. intros Hv [_ H]. rewrite aseq_store_same in H. congruence. Qed.

(** ** Between [seq_begin] and [seq_end] *)

Lemma bracket_guards {A} k' (body : prog A) s :
  let p := seq_begin (key_slot k') ;!
           (let! a := body in seq_end (key_slot k') ;! ret a) in
  let s1 := store (CSlot (key_slot k')) (next_odd (slot s (key_slot k'))) s in
  wf s -> V (read_of (Spec.get (view s) key)) ->
  0 <= slot s k < 2 ^ 64 - 4 ->
  wf (snd (run p s)) -> V (read_of (Spec.get (view (snd (run p s))) key)) ->
  seqless body ->
  (key_slot k' <> k -> guards (tame key) body s1) ->
  guards (fair key V) p s.
Proof.
  cbv zeta. intros Hwf HV Hr Hwf' HV' Hb Ht.
  assert (anchored key V s) as Ha by by apply anchored_at.
  revert Hwf' HV'. run_simpl. rewrite run_seq_begin. cbn [fst snd].
  set (s1 := store _ _ s) in *.
  destruct (run_seq_end (key_slot k') (snd (run body s1))) as [g Hg]. rewrite Hg. cbn [fst snd].
  set (s2 := snd (run body s1)) in *. intros Hwf' HV'.
  assert (slot s1 (key_slot k') = next_odd (slot s (key_slot k'))) as Hs1
    by (subst s1; apply slot_store_same).
  assert (slot s2 (key_slot k') = slot s1 (key_slot k')) as Hs2 by apply (run_seqless _ s1 Hb).
  apply guards_bind.
  { split; [|done]. cbn [load]. fold s1. destruct (decide (key_slot k' = k)) as [E|Hne].
    - subst s1. rewrite E. apply fair_slot.
      + apply next_odd_range. lia.
      + by apply anchored_odd, odd_slot, next_odd_odd.
    - assert (tame key s s1) as Htm by by apply tame_slot.
      split; [by apply tame_settled|by eapply anchored_tame]. }
  rewrite run_seq_begin. cbn [fst snd]. fold s1.
  assert (guards (fair key V) (seq_end (key_slot k') ;! @ret A (fst (run body s1))) s2 /\
    guards (fair key V) body s1) as [H1 H2]; [|by apply guards_bind].
  destruct (decide (key_slot k' = k)) as [E|Hne].
  - assert (~ quiet key s1) as Hq.
    { subst s1. rewrite E. apply odd_slot, next_odd_odd. }
    split; [|by apply guards_odd]. apply guards_bind; [|done].
    unfold seq_end. apply guards_bind; [done|]. rewrite run_loadc. cbn [fst snd load].
    pose proof (next_odd_range (slot s k) ltac:(lia)).
    assert (slot s2 k = next_odd (slot s k)) as Hs2k by (rewrite <- E; congruence).
    assert (anchored key V (store (CSlot (key_slot k')) (next_even (slot s2 (key_slot k'))) s2))
      as Ha2.
    { eapply anchored_data; [exact Hwf'| |exact HV']. symmetry. by apply same_data_store. }
    assert (forall s, anchored key V s ->
              guards (fair key V) (rmwc CGlobalGen (fun g => wadd g 1) ;! ret tt) s) as Hgen.
    { intros x Hx. split; [|done]. assert (tame key x (store CGlobalGen (wadd (load CGlobalGen x) 1) x))
        as Htm by apply tame_gen. split; [by apply tame_settled|by eapply anchored_tame]. }
    split; [|by apply Hgen]. revert Ha2. rewrite E. apply fair_slot. rewrite Hs2k.
    apply next_even_range. lia.
  - assert (anchored key V s1) as Ha1 by (by eapply anchored_tame; [|apply tame_slot]).
    destruct (guards_tame key V body s1 Ha1 (Ht Hne)) as [Hg1 Ha2]. split; [|done].
    fold s2 in Ha2. apply guards_tame; [done|]. apply guards_bind; [|done].
    unfold seq_end. apply guards_bind; [done|]. rewrite run_loadc. cbn [fst snd].
    split; [by apply tame_slot|]. split; [apply tame_gen|done].
Qed.

(** ** Compaction and [clear] *)

Lemma arena_open s :
  0 <= aseq s < 2 ^ 64 - 4 ->
  guards (fair key V) arena_begin s /\ ~ quiet key (snd (run arena_begin s)).
Proof.
  intros Hr. rewrite run_arena_begin. cbn [snd].
  assert (~ quiet key (store CArenaSeq (next_odd (aseq s)) s)) as Hq
    by apply odd_aseq, next_odd_odd.
  split; [|done]. split; [|done]. apply fair_aseq; [|by apply anchored_odd].
  cbn. fold (aseq s). apply next_odd_range. lia.
Qed.

Lemma arena_close s :
  0 <= aseq s < 2 ^ 64 - 2 -> anchored key V (snd (run arena_end s)) ->
  guards (fair key V) arena_end s.
Proof.
  intros Hr. rewrite run_arena_end. intros Ha. split; [|done]. apply fair_aseq; [|done].
  cbn. fold (aseq s). apply next_even_range. lia.
Qed.

(** The counter inside the bracket. *)
Lemma arena_inside {A} (body : prog A) s :
  0 <= aseq s < 2 ^ 64 - 4 -> seqless body ->
  0 <= aseq (snd (run body (snd (run arena_begin s)))) < 2 ^ 64 - 2.
Proof.
  intros Hr Hb. destruct (run_seqless body (snd (run arena_begin s)) Hb) as [_ ->].
  rewrite run_arena_begin. cbn [snd]. rewrite aseq_store_same.
  pose proof (next_odd_range (aseq s) ltac:(lia)). lia.
Qed.

Lemma seqless_rebuild keep : seqless (wipe ;! forM keep reinsert).
Proof.
  apply seqless_bind; [apply seqless_wipe|]. intros _. apply seqless_forM, seqless_reinsert.
Qed.

Lemma looks_keeps : looks (foldM buckets [] keep_entry).
Proof. apply looks_foldM. auto with nvram. Qed.

Lemma compact_guards s :
  wf s -> no_wrap s -> V (read_of (Spec.get (view s) key)) -> 0 <= aseq s < 2 ^ 64 - 4 ->
  guards (fair key V) compact s.
Proof.
  intros Hwf Hnw HV Hr. destruct (compact_view s Hwf) as (Hw & _ & Heq & _).
  specialize (Heq Hnw). rewrite <- Heq in HV. pose proof (anchored_at key V _ Hw HV) as Ha.
  revert Ha. clear Hw Heq HV. unfold compact.
  rewrite run_bind, (looks_run _ s looks_keeps).
  intros Ha. apply guards_bind; [apply guards_looks, looks_keeps|].
  rewrite (looks_run _ s looks_keeps).
  set (keep := fst (run (foldM buckets [] keep_entry) s)) in *. clearbody keep.
  revert Ha. rewrite !run_bind. intros Ha.
  pose proof (arena_inside _ s Hr (seqless_rebuild keep)) as Hin. rewrite run_bind in Hin.
  destruct (arena_open s Hr) as [Hg Hq].
  apply guards_bind; [done|].
  set (s0 := snd (run arena_begin s)) in *. clearbody s0.
  destruct (guards_odd key V wipe s0 Hq seqless_wipe) as [Hg1 Hq1].
  apply guards_bind; [done|].
  set (s1 := snd (run wipe s0)) in *. clearbody s1.
  destruct (guards_odd key V (forM keep reinsert) s1 Hq1 (seqless_forM _ _ seqless_reinsert))
    as [Hg2 _].
  apply guards_bind; [done|]. by apply arena_close.
Qed.

Lemma clear_guards s :
  V Absent -> 0 <= slot s k < 2 ^ 64 - 4 -> 0 <= aseq s < 2 ^ 64 - 4 ->
  guards (fair key V) clear s.
Proof.
  intros HV Hs Hr. unfold clear.
  pose proof (arena_inside _ s Hr seqless_wipe) as Hin.
  destruct (arena_open s Hr) as [Hg Hq].
  assert (slot (snd (run arena_begin s)) k = slot s k) as Hs0
    by (rewrite run_arena_begin; cbn [snd]; by seg_simpl).
  apply guards_bind; [done|].
  set (s0 := snd (run arena_begin s)) in *. clearbody s0.
  destruct (run_wipe s0) as (Hf & Hs1 & _). specialize (Hs1 k).
  destruct (guards_odd key V wipe s0 Hq seqless_wipe) as [Hg1 _].
  apply guards_bind; [done|].
  set (s1 := snd (run wipe s0)) in *. clearbody s1.
  assert (forall s, same_data s1 s -> anchored key V s) as Hany.
  { intros x Hx. eapply anchored_data; [by apply fresh_wf|exact Hx|].
    by rewrite fresh_view. }
  assert (same_data s1 (snd (run arena_end s1))) as Hd2
    by (rewrite run_arena_end; by apply same_data_store).
  assert (slot (snd (run arena_end s1)) k = slot s k) as Hs2
    by (rewrite run_arena_end; cbn [snd]; seg_simpl; congruence).
  apply guards_bind; [apply arena_close; [exact Hin|by apply Hany]|].
  set (s2 := snd (run arena_end s1)) in *. clearbody s2.
  apply guards_bind.
  - assert (NoDup slots) as Hnd by apply slots_NoDup. clear Hg1 Hin Hs1 Hg.
    assert (k ∈ slots -> slot s2 k < 2 ^ 64 - 2) as Hk by (intros _; lia).
    assert (0 <= slot s2 k) as H0 by lia. clear Hs2.
    revert s2 Hd2 Hk H0. induction Hnd as [|i l Hi Hnd IH]; intros s2 Hd2 Hk H0; [done|].
    cbn [forM]. apply guards_bind.
    + split; [|done]. cbn [load].
      assert (same_data s1 (store (CSlot i) (next_even (slot s2 i)) s2)) as Hd3
        by (etrans; [exact Hd2|by apply same_data_store]).
      destruct (decide (i = k)) as [->|Hne].
      * apply fair_slot; [|by apply Hany]. apply next_even_range.
        specialize (Hk ltac:(apply list_elem_of_here)). lia.
      * split; [|by apply Hany]. by apply tame_settled, tame_slot.
    + run_simpl. cbn [load]. apply IH.
      * etrans; [exact Hd2|by apply same_data_store].
      * intros Hkl. rewrite slot_store by (intros [= ->]; done). apply Hk.
        by apply list_elem_of_further.
      * destruct (decide (i = k)) as [->|Hne]; [|by rewrite slot_store by congruence].
        rewrite slot_store_same. specialize (Hk ltac:(apply list_elem_of_here)).
        pose proof (next_even_range (slot s2 k) ltac:(lia)). lia.
  - destruct (run_clear_slots slots s2 slots_NoDup) as (_ & Hd3 & _).
    set (s3 := snd (run (forM slots _) s2)) in *. clearbody s3.
    split; [|done]. split; [apply tame_settled, tame_gen|]. apply Hany.
    etrans; [exact Hd2|]. etrans; [exact Hd3|]. by apply same_data_store.
Qed.

(** ** [put] *)

Lemma ensure_space_segment need s :
  wf s -> 0 <= need < 2 ^ 63 ->
  snd (run (ensure_space need) s) = if needs_compact s need then snd (run compact s) else s.
Proof.
  intros Hwf Hn. pose proof (wf_used s Hwf). assert (ARENA_SIZE < 2 ^ 32) by done.
  unfold ensure_space, needs_compact. generalize compact as c. intros c. run_simpl. cbn [load].
  fold (used s). rewrite wadd_small by lia.
  destruct (used s + need <=? ARENA_SIZE); run_simpl; [|done]. cbn [load]. fold (garbage s).
  by destruct (_ <? garbage s); run_simpl.
Qed.

Lemma ensure_space_guards need s :
  wf s -> 0 <= need < 2 ^ 63 -> compact_safe s need ->
  V (read_of (Spec.get (view s) key)) -> 0 <= aseq s < 2 ^ 64 - 4 ->
  guards (fair key V) (ensure_space need) s.
Proof.
  intros Hwf Hn Hsafe HV Hr. pose proof (wf_used s Hwf). assert (ARENA_SIZE < 2 ^ 32) by done.
  unfold compact_safe, needs_compact in Hsafe.
  assert (needs_compact s need = true -> guards (fair key V) compact s) as Hc
    by (intros Hc; apply compact_guards; auto).
  unfold needs_compact in Hc. unfold ensure_space.
  revert Hc. generalize compact as c. intros c Hc.
  apply guards_bind; [done|]. rewrite run_loadc. cbn [fst snd load]. fold (used s).
  rewrite wadd_small by lia. destruct (used s + need <=? ARENA_SIZE).
  - apply guards_bind; [done|]. rewrite run_loadc. cbn [fst snd load]. fold (garbage s).
    apply guards_bind; [|done]. destruct (_ <? garbage s); [auto|done].
  - apply guards_bind; [auto|]. by apply guards_bind.
Qed.

(** After a compaction no committed deletion is left. *)
Lemma compact_no_tombstone s i :
  wf s -> no_wrap s -> in_index i -> let s' := snd (run compact s) in
  claimable s' i -> state_of s' i = ST_EMPTY.
Proof.
  intros Hwf Hnw Hi. cbv zeta. destruct (compact_progress s Hwf) as ([Hw _ Hk _ Hc _] & _ & _).
  set (s' := snd (run compact s)) in *. clearbody s'. intros Hcl.
  destruct (decide (state_of s' i = ST_EMPTY)) as [|Hne]; [done|exfalso].
  destruct (Hk i Hi Hne) as (j & r & Hj & Hr).
  pose proof (Hc Hnw j _ _ Hj Hr) as Hv. rewrite view_at in Hv by done.
  by rewrite record_claimable in Hv.
Qed.

Lemma put_guards k' val dirty s :
  wf s -> len k' + len val < 2 ^ 63 -> compact_safe s (len k' + len val) ->
  reuses key (OPut k' val dirty) s = false ->
  0 <= slot s k < 2 ^ 64 - 4 -> 0 <= aseq s < 2 ^ 64 - 4 ->
  V (read_of (Spec.get (view s) key)) ->
  V (read_of (Spec.get (view (snd (run (put k' val dirty) s))) key)) ->
  guards (fair key V) (put k' val dirty) s.
Proof.
  intros Hwf Hlen Hsafe Hreuse Hs Hr HV. pose proof (len_nonneg k'). pose proof (len_nonneg val).
  unfold put. rewrite run_bind, run_holds_value by done. cbn [fst snd]. intros HV'.
  apply guards_bind; [apply guards_looks, looks_holds_value|].
  rewrite run_holds_value by done. cbn [fst snd].
  destruct (bool_decide _) eqn:Hsame; [done|]. apply bool_decide_eq_false_1 in Hsame.
  rewrite wadd_small in * by lia.
  pose proof (ensure_space_segment (len k' + len val) s Hwf ltac:(lia)) as Hseg.
  destruct (run_ensure_space s (len k' + len val) Hwf ltac:(lia)) as [Hw _ Heq Hsl _ Hroom _].
  specialize (Heq Hsafe).
  apply guards_bind; [apply ensure_space_guards; auto; lia|].
  revert HV'. rewrite (run_bind (ensure_space _)). revert Hseg Hw Heq Hsl Hroom.
  destruct (run (ensure_space (len k' + len val)) s) as [r s1]. cbn [fst snd].
  intros Hseg Hw Heq Hsl Hroom HV'. destruct r as [[]|]; [|done]. specialize (Hroom eq_refl).
  revert HV'. rewrite run_bind. destruct (run_probe s1 k' Hw) as (pr & Hpr & Hpost).
  rewrite Hpr. cbn [fst snd]. intros HV'.
  apply guards_bind; [apply guards_looks, looks_probe|]. rewrite Hpr. cbn [fst snd].
  destruct pr as [[i found]|]; [|done]. fold (key_slot k') in *.
  apply (bracket_guards k' (put_locked i found k' val (fnv1a k') dirty) s1).
  - done.
  - by rewrite Heq.
  - by rewrite Hsl.
  - pose proof (run_bracket (put_locked i found k' val (fnv1a k') dirty) k' s1) as Hb.
    set (s2 := store (CSlot (key_slot k')) _ s1) in *.
    assert (same_data s1 s2) as Hs12 by (by apply same_data_store).
    destruct (run_put_body s2 k' val dirty i found) as (_ & Hw' & _ & Hsl' & _).
    { by eapply same_data_wf. }
    { rewrite (same_used _ _ Hs12). lia. }
    { by eapply probe_post_proper. }
    { by rewrite <- (view_proper _ _ Hs12), Heq. }
    destruct (Hb Hsl') as (_ & Hd & _). by eapply same_data_wf.
  - exact HV'.
  - apply seqless_put_locked.
  - intros Hne. assert (fnv1a k' <> fnv1a key) as Hh.
    { intros E. apply Hne. unfold k, key_slot. by rewrite E. }
    set (s2 := store (CSlot (key_slot k')) _ s1).
    assert (forall j, entry s2 j = entry s1 j) as He by (intros; subst s2; by seg_simpl).
    pose proof (wf_used s1 Hw).
    apply guards_put_locked; try done.
    + subst s2. seg_simpl. lia.
    + subst s2. seg_simpl. lia.
    + intros ->. destruct Hpost as (Hi & Hne' & Hk).
      rewrite He, (ok_hash _ _ (wf_entry s1 Hw i Hi) Hne'), Hk. done.
    + unfold other, state_of. rewrite He. destruct found.
      * destruct Hpost as (Hi & Hne' & Hk). right.
        by rewrite (ok_hash _ _ (wf_entry s1 Hw i Hi) Hne'), Hk.
      * destruct Hpost as (Hi & Hcl & _). destruct (needs_compact s _) eqn:Hnc.
        -- left. subst s1. apply compact_no_tombstone; auto.
        -- subst s1. cbn [reuses] in Hreuse. rewrite Hpr in Hreuse. cbn [fst] in Hreuse.
           apply andb_false_iff in Hreuse as [Hre|Hre].
           ++ left. by apply negb_false_iff, Z.eqb_eq in Hre.
           ++ right. by apply Z.eqb_neq.
Qed.

(** ** The other operations *)

Lemma remove_guards k' dirty s :
  wf s -> 0 <= slot s k < 2 ^ 64 - 4 ->
  V (read_of (Spec.get (view s) key)) ->
  V (read_of (Spec.get (view (snd (run (remove k' dirty) s))) key)) ->
  guards (fair key V) (remove k' dirty) s.
Proof.
  intros Hwf Hs HV. destruct (run_remove s k' dirty Hwf) as (Hw & _). revert Hw.
  unfold remove. rewrite run_bind. destruct (run_probe s k' Hwf) as (pr & Hpr & Hpost).
  rewrite Hpr. cbn [fst snd]. intros Hw HV'.
  apply guards_bind; [apply guards_looks, looks_probe|]. rewrite Hpr. cbn [fst snd].
  destruct pr as [[i [|]]|]; [|done..]. destruct Hpost as (Hi & Hne & Hk).
  apply guards_bind; [done|]. revert Hw HV'. rewrite run_bind, run_loadc. cbn [fst snd].
  destruct (negb _); [done|]. fold (key_slot k') in *.
  match goal with |- wf (snd (run ?q s)) -> _ => assert (q =
    (seq_begin (key_slot k') ;!
      (let! a := remove_body i dirty ;! ret true in seq_end (key_slot k') ;! ret a))) as ->
    by (by destruct dirty) end.
  intros Hw HV'.
  apply (bracket_guards k' (remove_body i dirty ;! ret true) s); try done.
  - apply seqless_bind; [apply seqless_remove_body|done].
  - intros Hnk. apply guards_bind; [|done]. apply guards_remove_body. seg_simpl.
    rewrite (ok_hash _ _ (wf_entry s Hwf i Hi) Hne), Hk. intros E. apply Hnk.
    unfold k, key_slot. by rewrite E.
Qed.

Lemma writeback_guards ps s :
  anchored key V s -> guards (fair key V) (commit_writeback ps) s.
Proof.
  intros Ha. apply guards_tame; [done|]. unfold commit_writeback.
  apply (guards_forM _ (fun _ => True)); [|done]. intros p s' _ _. split; [|done].
  unfold writeback_one. apply guards_bind; [done|]. case_match; [done|].
  apply guards_bind; [apply guards_looks, looks_probe|].
  destruct (fst (run (probe _ _) _)) as [[i [|]]|]; [|done..].
  split; [apply tame_flags|done].
Qed.

Lemma repair_guards j s :
  wf s -> 0 <= slot s k < 2 ^ 64 - 4 -> 0 <= aseq s < 2 ^ 64 - 4 ->
  V (read_of (Spec.get (view s) key)) ->
  guards (fair key V) (repair_seq j) s.
Proof.
  intros Hwf Hs Hr HV.
  assert (forall s', same_data s s' -> anchored key V s') as Hany
    by (intros s' Hd; by eapply anchored_data).
  assert (forall c b s1, same_data s s1 -> 0 <= slot s1 k < 2 ^ 64 - 2 ->
            0 <= aseq s1 < 2 ^ 64 - 2 -> c = CSlot j \/ c = CArenaSeq ->
            guards (fair key V) (repair_cell c b) s1) as Hcell.
  { intros c b s1 Hd Hs1 Ha1 Hc. unfold repair_cell. apply guards_bind; [done|].
    rewrite run_loadc. cbn [fst snd]. case_match; [|done].
    assert (same_data s (store c (next_even (load c s1)) s1)) as Hd1.
    { etrans; [exact Hd|]. apply same_data_store. by destruct Hc as [->| ->]. }
    split; [|done]. pose proof (Hany _ Hd1) as Ha. destruct Hc as [->| ->].
    - destruct (decide (j = k)) as [->|Hne].
      + apply fair_slot; [|done]. by apply next_even_range.
      + split; [by apply tame_settled, tame_slot|done].
    - apply fair_aseq; [|done]. by apply next_even_range. }
  unfold repair_seq. cbn [foldM]. apply guards_bind; [apply Hcell; try reflexivity; auto; lia|].
  rewrite run_repair_cell. cbn [fst snd]. apply guards_bind; [|done].
  case_match; [|apply Hcell; try reflexivity; auto; lia]. apply Hcell; auto.
  - by apply same_data_store.
  - destruct (decide (j = k)) as [->|Hne]; [|rewrite slot_store by congruence; lia].
    rewrite slot_store_same. cbn [load]. pose proof (next_even_range (slot s k) ltac:(lia)). lia.
  - rewrite aseq_store by done. lia.
Qed.

Lemma op_guards o s :
  wf s -> racing key o s -> V (read_of (Spec.get (view s) key)) ->
  V (read_of (Spec.get (view (apply o s)) key)) ->
  guards (fair key V) (op_prog o) s.
Proof.
  intros Hwf [Hok Hsafe Hreuse Hs Ha] HV HV'.
  destruct o as [k' val d|k' d| |j|ps]; cbn [apply op_ok op_safe op_prog] in *.
  - apply guards_bind; [|done]. by apply put_guards.
  - apply guards_bind; [|done]. by apply remove_guards.
  - apply clear_guards; [|done..]. destruct (run_clear s) as (_ & Hv & _).
    by rewrite Hv in HV'.
  - apply guards_bind; [|done]. by apply repair_guards.
  - apply writeback_guards. by apply anchored_at.
Qed.
End fair.

(** One after the other: at every moment the answer is that of some point
    between two operations. *)
Lemma writers_guards key V os s :
  wf s -> racing_all key os s ->
  (forall n, (n <= length os)%nat -> V (read_of (Spec.get (view (apply_all (take n os) s)) key))) ->
  guards (fair key V) (writers os) s.
Proof.
  unfold writers. revert s; induction os as [|o os IH]; intros s Hwf Hra HV; [done|].
  destruct Hra as [Ho Hos]. cbn [forM]. apply guards_bind.
  - apply op_guards; try done.
    + apply (HV O). cbn. lia.
    + apply (HV 1%nat). cbn. lia.
  - rewrite run_op_prog. apply IH; [by apply apply_wf; [|apply Ho]|done|].
    intros n Hn. apply (HV (S n)). cbn. lia.
Qed.
