(* ===== verification/RaceThms.v ===== *)
(** The lock-free read of src/src/shm.rs is linearizable against concurrent
    writers, with one exception: a tombstone reclaimed under the reader. *)

From S2P Require Import Prelude Consts Hash Spec Segment Shm ShmInv ShmProbe ShmOps SeqCount ShmWrite ShmCompact ShmRefine ShmCommit ShmTrace Race RaceInv RaceOps.

(** * The reader

    [b] is the consistent segment behind the moment both counters had been
    loaded; from then on either a counter has moved, and the read will be
    torn, or the reader sees what [b] holds. *)
Section reader.
Variables (key : bytes) (V : Read -> Prop) (b : Segment).
Hypothesis Hwf : wf b.
Hypothesis Hq : quiet key b.

Definition moved_on (s : Segment) : Prop := slot b (key_slot key) < slot s (key_slot key) \/ aseq b < aseq s.

(** What is known when a part of the reader ends. *)
Definition known {A} (P : A -> Prop) (a : A) (s : Segment) : Prop :=
  settled key b s /\ (moved_on s \/ P a).

Lemma settled_cases s : settled key b s -> moved_on s \/ (quiet key s /\ stable key b s).
Proof using Hq.
  intros [H1 H2 H3]. unfold moved_on.
  destruct (Z.eq_dec (slot s (key_slot key)) (slot b (key_slot key))) as [E1|]; [|left; lia].
  destruct (Z.eq_dec (aseq s) (aseq b)) as [E2|]; [|left; lia].
  right. split; [by apply (quiet_eq key b)|auto].
Qed.

Lemma settled_later s s' : settled key b s -> later key V s s' -> settled key b s'.
Proof. intros H [H' _]. by etrans. Qed.

Lemma moved_later s s' : moved_on s -> later key V s s' -> moved_on s'.
Proof. intros H [[H1 H2 _] _]. unfold moved_on in *. lia. Qed.

Lemma still_stable s s' :
  settled key b s -> later key V s s' -> ~ moved_on s' -> stable key s s'.
Proof using Hq.
  intros Hs Hl Hn. destruct (settled_cases s Hs) as [Hm|[Hqs _]]; [by destruct Hn; eapply moved_later|].
  destruct Hs as [A1 A2 _], Hl as [[B1 B2 B3] _]. unfold moved_on in Hn.
  apply B3; [lia..|done].
Qed.

Lemma not_moved s : {moved_on s} + {~ moved_on s}.
Proof. unfold moved_on. destruct (Z_lt_dec (slot b (key_slot key)) (slot s (key_slot key))); [left; lia|].
  destruct (Z_lt_dec (aseq b) (aseq s)); [left; lia|right; lia].
Defined.

(** ** Once a counter has moved *)

Lemma sees_bytes_inv (I : Segment -> Prop) off n (C : bytes -> Segment -> Prop) s :
  (forall s s', I s -> later key V s s' -> I s') ->
  (forall bs s, I s -> C bs s) -> I s -> sees_bytes key V off n C s.
Proof.
  intros HI. revert off C s; induction n as [|n IH]; intros off C s HC Hs; [by apply HC|].
  intros s' Hl. apply IH; [|by eapply HI]. intros bs s'' Hs''. by apply HC.
Qed.

Lemma sees_inv {A} (I : Segment -> Prop) (p : prog A) s :
  (forall s s', I s -> later key V s s' -> I s') ->
  looks p -> I s -> sees key V p (fun _ s => I s) s.
Proof.
  intros HI. revert s; induction p as [a|c k' IH| | |off n k' IH|]; intros s Hp Hs; try done.
  - intros s' Hl. apply IH; [apply Hp|by eapply HI].
  - apply (sees_bytes_inv I); [done| |done]. intros bs s' Hs'. by apply IH.
Qed.

Lemma sees_moved {A} (p : prog A) (P : A -> Prop) s :
  looks p -> settled key b s -> moved_on s -> sees key V p (known P) s.
Proof.
  intros Hp Hs Hm. eapply sees_mono; [|apply (sees_inv (fun s => settled key b s /\ moved_on s))].
  - intros a s' [H1 H2]. by split; [|left].
  - intros s1 s2 [H1 H2] Hl. split; [by eapply settled_later|by eapply moved_later].
  - done.
  - done.
Qed.

(** ** Loads and copies while none has *)

Lemma known_load {A} c (f : Z -> prog A) P s :
  (forall v, looks (f v)) -> settled key b s ->
  (forall s', settled key b s' -> stable key b s' -> later key V s s' ->
     stable key s s' -> sees key V (f (load c s')) (known P) s') ->
  sees key V (let! v := loadc c in f v) (known P) s.
Proof using Hq.
  intros Hf Hs Hk. apply sees_bind, sees_loadc. intros s' Hl.
  pose proof (settled_later s s' Hs Hl) as Hs'.
  destruct (not_moved s') as [Hm|Hm]; [by apply sees_moved|].
  destruct (settled_cases s' Hs') as [|[_ Hst]]; [done|]. apply Hk; try done.
  by apply still_stable.
Qed.

Lemma known_bytes {A} off n (P : A -> Prop) (f : bytes -> prog A) s :
  (forall bs, looks (f bs)) -> settled key b s ->
  0 <= off -> off + Z.of_nat n <= used b ->
  (forall s', settled key b s' -> sees key V (f (mem_read_nat (arena b) off n)) (known P) s') ->
  sees_bytes key V off n (fun bs s' => sees key V (f bs) (known P) s') s.
Proof using Hq.
  revert off f s; induction n as [|n IH]; intros off f s Hf Hs H0 Hu Hk; [by apply Hk|].
  intros s' Hl. pose proof (settled_later s s' Hs Hl) as Hs'.
  destruct (not_moved s') as [Hm|Hm].
  { apply (sees_bytes_inv (fun s => settled key b s /\ moved_on s)); [| |done].
    - intros s1 s2 [H1 H2] Hl'. split; [by eapply settled_later|by eapply moved_later].
    - intros bs s2 [H1 H2]. by apply sees_moved. }
  destruct (settled_cases s' Hs') as [|[_ Hst]]; [done|].
  rewrite (st_bytes _ _ _ Hst) by lia.
  apply (IH (off + 1) (fun bs => f (arr_get 0 (arena b) off :: bs))); [done..|lia|lia|].
  intros s'' Hs''. by apply Hk.
Qed.

Lemma known_read {A} off n (P : A -> Prop) (f : bytes -> prog A) s :
  (forall bs, looks (f bs)) -> settled key b s ->
  0 <= off -> 0 <= n -> off + n <= used b ->
  (forall s', settled key b s' -> sees key V (f (mem_read (arena b) off n)) (known P) s') ->
  sees key V (let! bs := read_bytes off n in f bs) (known P) s.
Proof using Hq. intros Hf Hs H0 Hn Hu Hk. apply known_bytes; try done. lia. Qed.

Lemma known_ret {A} (P : A -> Prop) a s : settled key b s -> P a -> sees key V (ret a) (known P) s.
Proof. by split; [|right]. Qed.

(** A part that ends with [P], then the rest. *)
Lemma known_bind {A B} (m : prog A) (f : A -> prog B) (P : A -> Prop) (P' : B -> Prop) s :
  (forall a, looks (f a)) -> sees key V m (known P) s ->
  (forall a s', settled key b s' -> P a -> sees key V (f a) (known P') s') ->
  sees key V (bind m f) (known P') s.
Proof.
  intros Hf Hm Hk. apply sees_bind. eapply sees_mono; [|exact Hm].
  intros a s' [Hs [Hmv|HP]]; [by apply sees_moved|by apply Hk].
Qed.

Lemma known_any {A} (p : prog A) s :
  looks p -> settled key b s -> sees key V p (known (fun _ => True)) s.
Proof.
  intros Hp Hs. eapply sees_mono; [|apply (sees_inv (fun s => settled key b s))]; try done.
  - intros a s' H. split; [done|by right].
  - intros s1 s2 H1 Hl. by eapply settled_later.
Qed.

(** ** The comparisons *)

Lemma known_arena_eq off ln want s :
  settled key b s -> 0 <= off -> 0 <= ln -> off + ln <= used b ->
  sees key V (arena_eq off ln want)
    (known (fun r => r = bool_decide (mem_read (arena b) off ln = want))) s.
Proof using Hq Hwf.
  intros Hs H0 Hl Hu. pose proof (wf_used b Hwf). assert (ARENA_SIZE < 2 ^ 64) by done.
  unfold arena_eq. rewrite wadd_small by lia.
  destruct (Z.eqb_spec ln (len want)) as [E|E]; cbn [negb orb].
  - destruct (Z.ltb_spec ARENA_SIZE off), (Z.ltb_spec ARENA_SIZE (off + ln)); try lia.
    cbn [orb]. apply known_read; try done. intros s' Hs'. by apply known_ret.
  - apply known_ret; [done|]. symmetry. apply bool_decide_eq_false_2.
    intros <-. apply E. by rewrite mem_read_len.
Qed.

Lemma known_arena_slice off ln s :
  settled key b s -> 0 <= off -> 0 <= ln -> off + ln <= used b ->
  sees key V (arena_slice off ln)
    (known (fun r => r = Some (mem_read (arena b) off ln))) s.
Proof using Hq Hwf.
  intros Hs H0 Hl Hu. pose proof (wf_used b Hwf). assert (ARENA_SIZE < 2 ^ 64) by done.
  unfold arena_slice. rewrite wadd_small by lia.
  destruct (Z.ltb_spec ARENA_SIZE off), (Z.ltb_spec ARENA_SIZE ln),
    (Z.ltb_spec ARENA_SIZE (off + ln)); try lia.
  cbn [orb]. apply known_read; try done. intros s' Hs'. by apply known_ret.
Qed.

(** ** The probe *)

Lemma taken_look i s' :
  in_index i -> state_of b i <> ST_EMPTY -> e_hash (entry b i) = fnv1a key ->
  stable key b s' -> face (entry s' i) = face (entry b i).
Proof. intros Hi Hne Hh Hst. apply (st_same _ _ _ Hst); [done|]. by intros [|]. Qed.

(** What one round learns about its bucket. *)
Lemma known_matches i s :
  in_index i -> settled key b s -> state_of s i <> ST_EMPTY ->
  sees key V (probe_matches key i)
    (known (fun r => r = bool_decide (state_of b i <> ST_EMPTY /\ key_of b i = key))) s.
Proof using Hq Hwf.
  intros Hi Hs Hne. unfold probe_matches. apply known_load; [|done|].
  { intros v. case_match; [|done]. looks_step. looks_step. apply looks_arena_eq. }
  intros s1 Hs1 Hst1 Hl1 Hss. cbn [load].
  pose proof (st_full _ _ _ Hss i Hi Hne) as Hne1.
  destruct (decide (state_of b i <> ST_EMPTY /\ e_hash (entry b i) = fnv1a key)) as [[Hbn Hbh]|Ho].
  - pose proof (taken_look i s1 Hi Hbn Hbh Hst1) as Hf. injection Hf as E1 _ _ _ _ _.
    rewrite E1, Hbh, Z.eqb_refl.
    apply known_load; [intros v; looks_step; apply looks_arena_eq|done|].
    intros s2 Hs2 Hst2 _ _. cbn [load].
    pose proof (taken_look i s2 Hi Hbn Hbh Hst2) as Hf2. injection Hf2 as _ E2 _ _ _ _. rewrite E2.
    apply known_load; [intros v; apply looks_arena_eq|done|].
    intros s3 Hs3 Hst3 _ _. cbn [load].
    pose proof (taken_look i s3 Hi Hbn Hbh Hst3) as Hf3. injection Hf3 as _ _ E3 _ _ _. rewrite E3.
    pose proof (ok_key _ _ (wf_entry b Hwf i Hi) Hbn).
    eapply sees_mono; [|apply known_arena_eq; try done; lia].
    intros r s4 [H4 [Hm|Hr]]; (split; [done|]); [by left|right]. rewrite Hr.
    apply bool_decide_ext. unfold key_of. tauto.
  - assert (other key b i) as Hob.
    { unfold other. destruct (decide (state_of b i = ST_EMPTY)); [by left|].
      destruct (decide (e_hash (entry b i) = fnv1a key)); [|by right]. by destruct Ho. }
    destruct (st_other _ _ _ Hst1 i Hi Hob) as [|Hh1]; [done|].
    apply Z.eqb_neq in Hh1. rewrite Hh1. apply known_ret; [done|].
    symmetry. apply bool_decide_eq_false_2. intros [Hbn Hbk]. apply Ho. split; [done|].
    by rewrite (ok_hash _ _ (wf_entry b Hwf i Hi) Hbn), Hbk.
Qed.

Definition found_in (r : option (Z * bool)) : Prop :=
  match r with
  | Some (i, true) => in_index i /\ state_of b i <> ST_EMPTY /\ key_of b i = key
  | _ => no_key b key
  end.

Lemma known_probe_loop n j free s :
  0 <= j -> j + Z.of_nat n = MAX_PROBES -> passed b key j \/ no_key b key -> settled key b s ->
  sees key V (probe_loop key (fnv1a key) (fnv1a key mod INDEX_SLOTS) free j n)
    (known found_in) s.
Proof using Hq Hwf.
  revert j free s; induction n as [|n IH]; intros j free s H0 Hj Hp Hs.
  { apply known_ret; [done|]. assert (no_key b key) as Hno.
    { destruct Hp as [Hp|]; [|done]. eapply passed_no_key; [done| |exact Hp|left; lia]. lia. }
    by destruct free. }
  cbn [probe_loop]. fold (probe_at key j). set (i := probe_at key j).
  assert (in_index i) as Hi by apply probe_at_range.
  pose proof (looks_probe_loop key (fnv1a key) (fnv1a key mod INDEX_SLOTS)) as Hlk.
  apply known_load; [|done|].
  { intros st. case_match; [done|]. looks_step. refine (looks_bind _ _ _ _).
    - case_match; [|done]. looks_step. looks_step. apply looks_arena_eq.
    - intros [|]; [done|]. refine (looks_bind _ _ _ _); [|done]. case_match; done. }
  intros s1 Hs1 Hst1 _ _. cbn [load]. fold (state_of s1 i).
  destruct (Z.eqb_spec (state_of s1 i) ST_EMPTY) as [He|Hne].
  { apply known_ret; [done|]. cbn [found_in]. destruct Hp as [Hp|]; [|done].
    eapply passed_no_key; [done| |exact Hp|]; [done|]. right.
    destruct (decide (state_of b i = ST_EMPTY)) as [|Hbn]; [done|].
    by destruct (st_full _ _ _ Hst1 i Hi Hbn). }
  change (sees key V (let! eq := probe_matches key i in
    if (eq : bool) then ret (Some (i, true))
    else let! free' :=
           if (state_of s1 i =? ST_TOMB) && bool_decide (free = None) then
             let! flags := loadc (CFlags i) in
             ret (if has_dirty flags then free else Some i)
           else ret free in
         probe_loop key (fnv1a key) (fnv1a key mod INDEX_SLOTS) free' (j + 1) n)
    (known found_in) s1).
  eapply known_bind; [|by apply known_matches|].
  { intros [|]; [done|]. refine (looks_bind _ _ _ _); [|done]. case_match; done. }
  intros r s2 Hs2 ->. case_bool_decide as Hm; [by apply known_ret; [|destruct Hm]|].
  eapply (known_bind _ _ (fun _ => True)); [done|by apply known_any; [case_match|]|].
  intros free' s3 Hs3 _. apply IH; [lia..| |done].
  destruct Hp as [Hp|]; [|by right].
  destruct (decide (state_of b i = ST_EMPTY)) as [Hbe|Hbn].
  - right. eapply passed_no_key; [done| |exact Hp|by right]. lia.
  - left. intros j' Hj'. destruct (decide (j' = j)) as [->|]; [|apply Hp; lia].
    split; [done|]. intros Hk. by apply Hm.
Qed.

(** ** The value *)

(** The middle of [read_value]: what it makes of the probe. *)
Definition read_found (found : option (Z * bool)) : prog Read :=
  match found with
  | Some (i, true) =>
    let! state := loadc (CState i) in
    if state =? ST_LIVE then
      let! vo := loadc (CValOff i) in
      let! vl := loadc (CValLen i) in
      let! r := arena_slice vo vl in
      ret (match r with Some v => Value v | None => Torn end)
    else ret Absent
  | _ => ret Absent
  end.

Lemma looks_read_found r : looks (read_found r).
Proof.
  destruct r as [[i [|]]|]; [|done..]. cbn [read_found]. looks_step. case_match; [|done].
  looks_step. looks_step. refine (looks_bind _ _ _ _); [apply looks_arena_slice|done].
Qed.

Lemma known_read_found r s :
  settled key b s -> found_in r ->
  sees key V (read_found r) (known (fun out => out = read_of (Spec.get (view b) key))) s.
Proof using Hq Hwf.
  intros Hs Hr.
  assert (no_key b key -> sees key V (ret Absent)
            (known (fun out => out = read_of (Spec.get (view b) key))) s) as Habs.
  { intros Hno. apply known_ret; [done|]. by rewrite get_no_key. }
  destruct r as [[i [|]]|]; cbn [read_found]; [|by apply Habs..].
  destruct Hr as (Hi & Hne & Hk).
  assert (e_hash (entry b i) = fnv1a key) as Hh
    by (by rewrite (ok_hash _ _ (wf_entry b Hwf i Hi) Hne), Hk).
  assert (Spec.get (view b) key =
    if state_of b i =? ST_LIVE then Some (val_of b i) else None) as Hget
    by (by rewrite <- Hk, get_at).
  apply known_load; [|done|].
  { intros v. destruct (v =? ST_LIVE); [|done]. looks_step. looks_step.
    refine (looks_bind _ _ _ _); [apply looks_arena_slice|done]. }
  intros s1 Hs1 Hst1 _ _. cbn [load].
  pose proof (taken_look i s1 Hi Hne Hh Hst1) as Hf. injection Hf as _ _ _ _ _ E1. rewrite E1.
  change (e_state (entry b i)) with (state_of b i).
  destruct (Z.eqb_spec (state_of b i) ST_LIVE) as [El|El];
    [|apply known_ret; [done|]; by rewrite Hget].
  apply known_load; [|done|].
  { intros v. looks_step. refine (looks_bind _ _ _ _); [apply looks_arena_slice|done]. }
  intros s2 Hs2 Hst2 _ _. cbn [load].
  pose proof (taken_look i s2 Hi Hne Hh Hst2) as Hf2. injection Hf2 as _ _ _ E2 _ _. rewrite E2.
  apply known_load; [|done|].
  { intros v. refine (looks_bind _ _ _ _); [apply looks_arena_slice|done]. }
  intros s3 Hs3 Hst3 _ _. cbn [load].
  pose proof (taken_look i s3 Hi Hne Hh Hst3) as Hf3. injection Hf3 as _ _ _ _ E3 _. rewrite E3.
  pose proof (ok_val _ _ (wf_entry b Hwf i Hi) El).
  eapply known_bind; [done|apply known_arena_slice; try done; lia|].
  intros r s4 Hs4 ->. apply known_ret; [done|]. by rewrite Hget.
Qed.
End reader.

(** * [read_value] *)

Section read_value.
Variables (key : bytes) (V : Read -> Prop) (c a : Z).

(** The closing check against the counters loaded first. *)
Definition read_check (out : Read) : prog Read :=
  match out with
  | Torn => ret Torn
  | _ =>
    let! s2 := loadc (CSlot (key_slot key)) in
    let! a2 := loadc CArenaSeq in
    if negb (c =? s2) || negb (a =? a2) then ret Torn else ret out
  end.

Lemma sees_read_check out s :
  c < slot s (key_slot key) \/ a < aseq s \/ V out ->
  sees key V (read_check out) (fun r _ => r = Torn \/ V r) s.
Proof.
  intros H. assert (out <> Torn -> sees key V
    (let! s2 := loadc (CSlot (key_slot key)) in
     let! a2 := loadc CArenaSeq in
     if negb (c =? s2) || negb (a =? a2) then ret Torn else ret out)
    (fun r _ => r = Torn \/ V r) s) as Hend; [|destruct out; [by apply Hend..|by left]].
  intros _. apply sees_bind, sees_loadc. intros s1 [[A1 A2 _] _]. cbn [load].
  apply sees_bind, sees_loadc. intros s2 [[B1 B2 _] _]. cbn [load]. fold (aseq s2).
  destruct (Z.eqb_spec c (slot s1 (key_slot key))); [|by left].
  destruct (Z.eqb_spec a (aseq s2)); [|by left]. right. destruct H as [|[|]]; [lia..|done].
Qed.
End read_value.

Lemma read_value_parts key :
  read_value key (fnv1a key) =
    (let! s1 := loadc (CSlot (key_slot key)) in
     let! a1 := loadc CArenaSeq in
     if is_odd s1 || is_odd a1 then ret Torn
     else let! found := probe key (fnv1a key) in
          let! out := read_found found in
          read_check key s1 a1 out).
Proof. done. Qed.

Lemma sees_read_value key V s :
  sees key V (read_value key (fnv1a key)) (fun r _ => r = Torn \/ V r) s.
Proof.
  rewrite read_value_parts.
  apply sees_bind, sees_loadc. intros s1 Hl1. cbn [load].
  apply sees_bind, sees_loadc. intros s2 Hl2. cbn [load]. fold (aseq s2).
  destruct (is_odd (slot s1 (key_slot key)) || is_odd (aseq s2)) eqn:Hodd; [by left|].
  apply orb_false_iff in Hodd as [Hodd1 Hodd2].
  destruct (Z.eq_dec (slot s2 (key_slot key)) (slot s1 (key_slot key))) as [E|Hne].
  - assert (quiet key s2) as Hq2 by (split; congruence).
    destruct Hl2 as [_ Ha2]. destruct (Ha2 Hq2) as (b & Hb & Hbs & F1 & F2 & HV).
    assert (quiet key b) as Hqb by (by apply (quiet_eq key s2)).
    apply sees_bind. eapply sees_mono; [|by apply (known_probe_loop key V b Hb Hqb);
      [..|left; intros ? ?; lia|]]. cbn beta.
    intros found s3 [Hs3 Hf].
    assert (sees key V (read_found found)
      (known key b (fun out => out = read_of (Spec.get (view b) key))) s3) as Hfound.
    { destruct Hf as [Hm|Hf]; [|by apply known_read_found].
      apply sees_moved; [apply looks_read_found|done..]. }
    apply sees_bind. eapply sees_mono; [|exact Hfound]. cbn beta.
    intros out s4 [Hs4 Ho]. apply sees_read_check. unfold moved_on in Ho.
    destruct Ho as [[Hm|Hm]| ->]; [left; lia|right; left; lia|by right; right].
  - assert (slot s1 (key_slot key) < slot s2 (key_slot key)) as Hlt
      by (destruct Hl2 as [[A _ _] _]; lia).
    set (I := fun s => slot s1 (key_slot key) < slot s (key_slot key)).
    assert (forall s s', I s -> later key V s s' -> I s') as HI
      by (unfold I; intros s3 s4 H [[A _ _] _]; lia).
    apply sees_bind. eapply sees_mono; [|by apply (sees_inv key V I); [|apply looks_probe|]].
    intros found s3 H3. apply sees_bind.
    eapply sees_mono; [|by apply (sees_inv key V I); [|apply looks_read_found|]].
    intros out s4 H4. apply sees_read_check. by left.
Qed.

(** * The theorem *)

(** C2: reads are linearizable: let writers run any operations one after the
    other on a consistent segment, and a reader look a key up meanwhile with
    any interleaving of their memory accesses, the copies to and from the
    arena going byte by byte.  The lock-free read always returns, and it
    returns either [Torn] or exactly what the store held for the key between
    two of the operations: never a mixture, never a half-written value.  The
    writer may stop for good anywhere.  What it takes: no compaction loses a
    key, no counter is about to wrap, and no writer reclaims the tombstone of
    a key with the same hash during the read. *)
Theorem read_value_linearizable (key : bytes) (os : list op) (s : Segment) (sched : list nat) :
  wf s -> racing_all key os s ->
  let r := race sched (bytewise (read_value key (fnv1a key))) (bytewise (writers os)) s in
  r = Torn \/
  exists n, (n <= length os)%nat /\
    r = read_of (Spec.get (view (apply_all (take n os) s)) key).
Proof.
  intros Hwf Hra.
  set (V := fun r => exists n, (n <= length os)%nat /\
    r = read_of (Spec.get (view (apply_all (take n os) s)) key)).
  apply (race_sees key V _ (fun r => r = Torn \/ V r)).
  - apply anchored_at; [done|]. exists O. split; [lia|done].
  - apply guards_bytewise, writers_guards; [done..|]. intros n Hn. by exists n.
  - apply sees_read_value.
Qed.

(** * Concrete races *)

(** The keys "al", "xb" and "wih": the last two start probing one bucket
    before the first. *)
Definition key_al : bytes := [97; 108].
Definition key_xb : bytes := [120; 98].
Definition key_wih : bytes := [119; 105; 104].

(** [n] accesses of the reader, then [m] of the writer, then the reader again. *)
Definition after (n m : nat) : list nat := replicate n O ++ [m].

Definition two_puts : list op := [OPut key_al [49; 49] true; OPut key_xb [50] true].
Definition seg_al : Segment := apply (OPut key_al [48] true) zero_segment.

Lemma racing_intro key o s :
  op_ok o -> (if o is OPut k v _ then needs_compact s (len k + len v) = false else True) ->
  reuses key o s = false -> 0 <= slot s (key_slot key) < 2 ^ 64 - 4 -> 0 <= aseq s < 2 ^ 64 - 4 ->
  racing key o s.
Proof.
  intros Hok Hc Hr Hs Ha. split; try done. destruct o; cbn [op_safe]; try done.
  unfold compact_safe. by rewrite Hc.
Qed.

Lemma two_puts_racing : racing_all key_al two_puts seg_al.
Proof.
  cbn [racing_all two_puts]. split_and!; [..|done]; apply racing_intro; vm_compute; (done || by split).
Qed.

(** The old value, the new one, or a torn read, as the writer is let in. *)
Lemma read_value_linearizable_witness :
  wf seg_al /\ racing_all key_al two_puts seg_al /\
  let p := bytewise (read_value key_al (fnv1a key_al)) in
  let q := bytewise (writers two_puts) in
  race (after 30 0) p q seg_al = Value [48] /\
  race (after 4 30) p q seg_al = Torn /\
  race (after 0 200) p q seg_al = Value [49; 49] /\
  (race (after 4 20) p q seg_al = Torn \/
   exists n, (n <= length two_puts)%nat /\
     race (after 4 20) p q seg_al =
       read_of (Spec.get (view (apply_all (take n two_puts) seg_al)) key_al)).
Proof.
  assert (wf seg_al) as Hwf.
  { apply apply_wf; [apply fresh_wf, zero_segment_fresh|]. vm_compute. done. }
  split; [exact Hwf|]. split; [apply two_puts_racing|]. intros p q. split_and!.
  - vm_compute. reflexivity.
  - vm_compute. reflexivity.
  - vm_compute. reflexivity.
  - apply (read_value_linearizable key_al two_puts seg_al (after 4 20)).
    + exact Hwf.
    + apply two_puts_racing.
Defined.

(** [al] set and removed, and both committed: its tombstone is clean. *)
Definition before_reuse : list op :=
  [OPut key_xb [49] true; OPut key_al [50] true; ORemove key_al true;
   OWriteback [mkPending key_al None (fnv1a key_al) 4]].
Definition reuse_by_wih : list op := [OPut key_wih [51; 51] true].

(** The exception is real: a reader of "al" that has just matched the key
    of its committed tombstone lets a writer in, which reuses the bucket for
    "wih"; the reader then finds the bucket live and returns the value of
    "wih" as that of "al", both of the counters it checks being unmoved.  The
    key is absent before the write and after it. *)
Theorem read_value_may_return_anothers_value :
  let s := apply_all before_reuse zero_segment in
  let p := read_value key_al (fnv1a key_al) in
  wf s /\ Forall op_ok (before_reuse ++ reuse_by_wih) /\
  fst (run p s) = Absent /\ fst (run p (apply_all reuse_by_wih s)) = Absent /\
  race (after 8 200) (bytewise p) (bytewise (writers reuse_by_wih)) s = Value [51; 51].
Proof.
  cbv zeta.
  assert (Forall op_ok (before_reuse ++ reuse_by_wih)) as Hok.
  { unfold before_reuse, reuse_by_wih. cbn [app].
    repeat apply Forall_cons_2; [vm_compute; reflexivity..|exact I| |vm_compute; reflexivity|].
    - intros p Hp. apply list_elem_of_singleton in Hp. subst p. reflexivity.
    - apply Forall_nil_2. }
  split_and!.
  - apply apply_all_wf; [apply fresh_wf, zero_segment_fresh|]. by apply Forall_app in Hok as [? _].
  - exact Hok.
  - vm_compute. reflexivity.
  - vm_compute. reflexivity.
  - vm_compute. reflexivity.
Qed.
