(* ===== verification/Paths.v ===== *)
(** Where the store lives (src/src/paths.rs).

    [testing] says whether the crate was built with that feature; the
    thread-local overrides are a value of their own.  The other files name
    files by their name below the store root and the segment by the one name
    there is; [join] and the facts below are what makes that faithful. *)

From S2P Require Import Prelude Consts Names.

(** ["/nvram/"] and [b"/tomato64-nvram\0"] *)
Definition MOUNT_POINT : bytes := [47; 110; 118; 114; 97; 109; 47].
Definition SHM_NAME : bytes :=
  [47; 116; 111; 109; 97; 116; 111; 54; 52; 45; 110; 118; 114; 97; 109; 0].

(** [overrides::ROOT] and [overrides::SHM] *)
Record overrides := mkOverrides { o_root : option bytes; o_shm : option bytes }.

Definition no_overrides : overrides := mkOverrides None None.

Definition store_root (testing : bool) (o : overrides) : bytes :=
  if testing then default MOUNT_POINT (o_root o) else MOUNT_POINT.

Definition shm_name (testing : bool) (o : overrides) : bytes :=
  if testing then match o_shm o with Some n => n ++ [0] | None => SHM_NAME end
  else SHM_NAME.

Definition ends_with_slash (bs : bytes) : bool := bool_decide (last bs = Some 47).

Definition set_paths (root shm : bytes) : overrides :=
  mkOverrides (Some (if ends_with_slash root then root else root ++ [47])) (Some shm).

(** [PathBuf::join] *)
Definition join (root name : bytes) : bytes :=
  if starts_with [47] name then name
  else if bool_decide (root = []) || ends_with_slash root then root ++ name
  else root ++ [47] ++ name.

(** * Facts *)

Inductive reachable_overrides : overrides -> Prop :=
| ro_none : reachable_overrides no_overrides
| ro_set root shm : reachable_overrides (set_paths root shm).

Lemma set_paths_slash root shm : ends_with_slash (default [] (o_root (set_paths root shm))) = true.
Proof.
  cbn. destruct (ends_with_slash root) eqn:E; [done|].
  unfold ends_with_slash. by rewrite last_snoc.
Qed.

(** Whatever the overrides, the root is a directory path with its slash. *)
Lemma store_root_slash testing o :
  reachable_overrides o -> ends_with_slash (store_root testing o) = true.
Proof.
  destruct testing; [|done]. destruct 1 as [|root shm]; [done|]. apply (set_paths_slash root shm).
Qed.

(** Without the feature nothing moves the store. *)
Lemma store_root_fixed o : store_root false o = MOUNT_POINT /\ shm_name false o = SHM_NAME.
Proof. done. Qed.

Lemma starts_with_slash_valid name : 47 ∉ name -> starts_with [47] name = false.
Proof.
  destruct name as [|b name]; [done|]. intros H. apply not_elem_of_cons in H as [Hb _].
  cbn [starts_with]. destruct (Z.eqb_spec 47 b) as [E|E]; [by rewrite E in Hb|done].
Qed.

Lemma join_root testing o name :
  reachable_overrides o -> 47 ∉ name ->
  join (store_root testing o) name = store_root testing o ++ name.
Proof.
  intros Ho Hn. unfold join. rewrite starts_with_slash_valid by done.
  by rewrite store_root_slash, orb_true_r.
Qed.

Lemma tmp_name_no_slash pid key : 0 <= pid -> 47 ∉ key -> 47 ∉ tmp_name pid key.
Proof.
  intros Hp Hk. unfold tmp_name. rewrite !elem_of_app.
  assert (forall fuel z acc, 0 <= z -> 47 ∉ acc -> 47 ∉ digits fuel z acc) as Hd.
  { induction fuel as [|n IH]; intros z acc Hz Hacc; [done|]. cbn [digits].
    pose proof (Z.mod_pos_bound z 10 ltac:(lia)).
    assert (47 ∉ 48 + z mod 10 :: acc) by (rewrite not_elem_of_cons; split; [lia|done]).
    case_if; [done|]. apply IH; [|done]. apply Z.div_pos; lia. }
  intros [H|[H|[H|H]]].
  - unfold TMP_PREFIX in H. rewrite !elem_of_cons, elem_of_nil in H. lia.
  - exact (Hd 10%nat pid [] Hp (not_elem_of_nil 47) H).
  - by apply list_elem_of_singleton in H.
  - done.
Qed.

(** The file of a key is the store root followed by the key: two keys have two
    files, no key has the file of a temporary, and nothing leaves the root. *)
Theorem key_files_distinct testing o pid k1 k2 :
  reachable_overrides o -> 0 <= pid -> valid_key k1 = true -> valid_key k2 = true ->
  let path := join (store_root testing o) in
  path k1 = store_root testing o ++ k1 /\
  path (tmp_name pid k1) = store_root testing o ++ tmp_name pid k1 /\
  (path k1 = path k2 -> k1 = k2) /\
  (path (tmp_name pid k1) = path (tmp_name pid k2) -> k1 = k2) /\
  path k1 <> path (tmp_name pid k2).
Proof.
  intros Ho Hp Hk1 Hk2. cbv zeta.
  pose proof (valid_key_spec _ Hk1) as (_ & _ & _ & _ & H1).
  pose proof (valid_key_spec _ Hk2) as (_ & _ & _ & _ & H2).
  rewrite !join_root by eauto using tmp_name_no_slash. split_and!; [done..| | |].
  - apply app_inv_head.
  - intros E%app_inv_head. by eapply tmp_name_inj.
  - intros E%app_inv_head. exact (valid_ne_tmp k1 pid k2 Hk1 E).
Qed.

(** An override without NUL is the C string the system calls are given. *)
Lemma shm_name_terminated testing o :
  reachable_overrides o -> last (shm_name testing o) = Some 0.
Proof.
  destruct testing; [|done]. destruct 1 as [|root shm]; [done|]. cbn. apply last_snoc.
Qed.
