(* ===== verification/Helper.v ===== *)
(** The test helper (src/src/bin/nvram-testhelper.rs) and the test support it
    uses: one NVRAM operation, or a loop of them, in a process of its own.

    Two runs of [main] one after the other are two processes: each starts with
    no store, and what they share is the world. *)

From Stdlib Require Import Ascii.
From Stdlib Require String.
From S2P Require Import Prelude Consts Hash Names ParseInt Segment Shm Cache ShmTrace World Sem Attach Store Lib Paths.

Import String.StringSyntax.
Delimit Scope string_scope with string.

(** A string literal of the source. *)
Definition text (s : String.string) : bytes :=
  (fun c => Z.of_N (N_of_ascii c)) <$> String.list_ascii_of_string s.

(** * Strings *)

(** [CString::new]: fails on an interior NUL. *)
Definition cstring (bs : bytes) : option bytes :=
  if bool_decide (0 ∈ bs) then None else Some (bs ++ [0]).

(** [str::parse::<u64>] and, on a 64-bit target, [str::parse::<usize>]. *)
Definition parse_u64 (bs : bytes) : option Z :=
  let ds := match bs with b :: ds => if b =? 43 then ds else bs | [] => [] end in
  if bool_decide (ds = []) || negb (forallb is_digit ds) then None
  else let z := digits_value ds in if z <? 2 ^ 64 then Some z else None.

(** The first chunk of [bs] as [str::from_utf8_lossy] cuts it: is it a
    character, and how long is it?  A broken sequence ends before the first
    byte that cannot continue it. *)
Definition next_chunk (bs : bytes) : bool * nat :=
  let second (ok : Z -> bool) (more : nat) :=
    if match bs !! 1%nat with Some b => ok b | None => false end then
      (fix rest (i n : nat) : bool * nat :=
         match n with
         | O => (true, i)
         | S n' =>
           if match bs !! i with Some b => cont b | None => false end then rest (S i) n'
           else (false, i)
         end) 2%nat more
    else (false, 1%nat) in
  match bs with
  | [] => (true, O)
  | b0 :: _ =>
    if between 0 0x7F b0 then (true, 1%nat)
    else if between 0xC2 0xDF b0 then second cont 0%nat
    else if b0 =? 0xE0 then second (between 0xA0 0xBF) 1%nat
    else if b0 =? 0xED then second (between 0x80 0x9F) 1%nat
    else if between 0xE1 0xEF b0 then second cont 1%nat
    else if b0 =? 0xF0 then second (between 0x90 0xBF) 2%nat
    else if b0 =? 0xF4 then second (between 0x80 0x8F) 2%nat
    else if between 0xF1 0xF3 b0 then second cont 2%nat
    else (false, 1%nat)
  end.

(** U+FFFD *)
Definition REPLACEMENT : bytes := [0xEF; 0xBF; 0xBD].

Fixpoint lossy (fuel : nat) (bs : bytes) : bytes :=
  match fuel, bs with
  | O, _ | _, [] => []
  | S fuel', _ =>
    let (ok, n) := next_chunk bs in
    (if ok then take n bs else REPLACEMENT) ++ lossy fuel' (drop n bs)
  end.

(** Every chunk has at least one byte. *)
Definition to_string_lossy (bs : bytes) : bytes := lossy (length bs) bs.

(** * Test support of the library *)

Section helper.
Context `{AL : Allocator}.
Variable fuel : nat.

Abbreviation Global := (option Store).

(** [__reset_process_store] *)
Definition reset_process_store (g : Global) : Global := None.

Definition unlink_segment : io unit := unlink.

Definition degraded (st : Store) : bool := bool_decide (s_seg st = None).

Definition __degraded (g : Global) : io (bool * Global) :=
  with_store fuel (fun st => iret (degraded st, st)) g.

Definition store_poison_slot (st : Store) (key : bytes) : io (bool * Store) :=
  match s_seg st with
  | Some seg => do _ <- sys (Seg seg (poison_slot (fnv1a key))); iret (true, st)
  | None => iret (false, st)
  end.

Definition __poison_slot (name : bytes) (g : Global) : io (bool * Global) :=
  with_store fuel (fun st => store_poison_slot st name) g.

(** The pause itself is time and not state. *)
Definition __hold_writer_lock_ms (ms : Z) : io bool :=
  do g <- acquire fuel;
  match g with
  | Some g => drop_guard fuel g;; iret true
  | None => iret false
  end.

Definition remove_semaphore (proj : Z) : io unit :=
  do key <- sys (Ftok proj);
  match key with
  | None => iret tt
  | Some key =>
    do semid <- sys (Semget key);
    match semid with
    | None => iret tt
    | Some semid => sys (SemRmid semid)
    end
  end.

Definition remove_semaphores : io unit :=
  remove_semaphore IPC_KEY;; remove_semaphore COMMIT_IPC_KEY.

Definition __remove_semaphores : io unit := remove_semaphores.

Definition __set_paths (root shm : bytes) : overrides := set_paths root shm.

(** The pause of a commit: [MS] is the thread's cell, and what is left of
    [commit_pause] without time is how long it sleeps. *)
Definition set_commit_pause_ms (ms MS : Z) : Z := ms.

Definition __set_commit_pause_ms (ms MS : Z) : Z := set_commit_pause_ms ms MS.

Definition commit_pause (testing : bool) (MS : Z) : Z :=
  if testing && (0 <? MS) then MS else 0.

(** * The commands *)

Inductive exit : Type := Exit (code : Z) | Panic.

(** What a process printed, how it ended, and what it pointed at. *)
Record outcome := mkOutcome { r_out : list bytes; r_exit : exit; r_paths : overrides }.

Definition report_code (r : Z) : exit := Exit (if r =? 1 then 0 else 1).

(** [CString::new(x).unwrap()] *)
Definition unwrap_cstring {A} (bs : bytes) (f : bytes -> io (A * exit)) (a : A) : io (A * exit) :=
  match cstring bs with None => iret (a, Panic) | Some c => f c end.

Definition cmd_set (k v : bytes) (g : Global) : io (list bytes * exit) :=
  unwrap_cstring k (fun k => unwrap_cstring v (fun v =>
    do r <- nvram_set fuel (Some k) (Some v) g;
    iret ([], report_code (fst r))) []) [].

Definition cmd_unset (k : bytes) (g : Global) : io (list bytes * exit) :=
  unwrap_cstring k (fun k =>
    do _ <- nvram_unset fuel (Some k) g;
    iret ([], Exit 0)) [].

Definition cmd_get (k : bytes) (g : Global) : io (list bytes * exit) :=
  unwrap_cstring k (fun k =>
    do r <- nvram_get fuel (Some k) g;
    let (p, g) := (r : Z * Global) in
    iret ([if p =? 0 then text "<absent>"%string
           else match g with
                | Some st => to_string_lossy (cstr (deref (s_heap st) p))
                | None => []
                end], Exit 0)) [].

Definition cmd_init (g : Global) : io (list bytes * exit) :=
  do r <- nvram_init fuel g;
  iret ([], report_code (fst r)).

Definition cmd_commit (g : Global) : io (list bytes * exit) :=
  do r <- nvram_commit fuel g;
  iret ([], report_code (fst r)).

Definition cmd_hold_lock (ms : Z) : io (list bytes * exit) :=
  do ok <- __hold_writer_lock_ms ms;
  iret ([], Exit (if (ok : bool) then 0 else 1)).

(** [for i in 0..n { nvram_set(key(i), value(i)) }], which ends the process on
    the first string with an interior NUL. *)
Fixpoint set_all (items : list (bytes * bytes)) (g : Global) : io (Global * exit) :=
  match items with
  | [] => iret (g, Exit 0)
  | (k, v) :: items' =>
    unwrap_cstring k (fun k => unwrap_cstring v (fun v =>
      do r <- nvram_set fuel (Some k) (Some v) g;
      set_all items' (snd r)) g) g
  end.

Definition cmd_churn (key : bytes) (n : Z) (g : Global) : io (list bytes * exit) :=
  let long := replicate (Z.to_nat 40000) 76 in
  let short := [83] in
  unwrap_cstring key (fun _ =>
    do r <- set_all ((fun i => (key, if i mod 2 =? 0 then long else short)) <$> range 0 n) g;
    iret ([], snd r)) [].

Definition cmd_setmany (prefix : bytes) (n : Z) (g : Global) : io (list bytes * exit) :=
  do r <- set_all ((fun i => (prefix ++ digits 20 i [], 118 :: digits 20 i [])) <$> range 0 n) g;
  iret ([], snd r).

(** The [match cmd] of [main]. *)
Definition command (cmd : bytes) (rest : list bytes) (g : Global) : io (list bytes * exit) :=
  let named (s : String.string) := bool_decide (cmd = text s) in
  let num (bs : bytes) := default 0 (parse_u64 bs) in
  match rest with
  | [k; v] =>
    if named "set"%string then cmd_set k v g
    else if named "init"%string then cmd_init g
    else if named "commit"%string then cmd_commit g
    else if named "churn"%string then cmd_churn k (num v) g
    else if named "setmany"%string then cmd_setmany k (num v) g
    else iret ([], Exit 2)
  | [x] =>
    if named "unset"%string then cmd_unset x g
    else if named "get"%string then cmd_get x g
    else if named "init"%string then cmd_init g
    else if named "commit"%string then cmd_commit g
    else if named "commit-slow"%string then cmd_commit g
    else if named "hold-lock"%string then cmd_hold_lock (num x)
    else iret ([], Exit 2)
  | _ =>
    if named "init"%string then cmd_init g
    else if named "commit"%string then cmd_commit g
    else iret ([], Exit 2)
  end.

(** [args] counts the program's name. *)
Definition main (args : list bytes) : io outcome :=
  match args with
  | _ :: root :: shm :: cmd :: rest =>
    do r <- command cmd rest None;
    iret (mkOutcome (fst r) (snd r) (set_paths root shm))
  | _ => iret (mkOutcome [] (Exit 2) no_overrides)
  end.
End helper.
