(* ===== verification/HelperThms.v ===== *)
(** Two processes, one after the other: what the first one sets the second
    one reads. *)

From Stdlib Require String.
From S2P Require Import Prelude Consts Hash Spec Layout Names ParseInt Segment Shm ShmInv ShmProbe ShmOps SeqCount ShmWrite ShmCompact ShmRefine ShmCommit Cache ShmTrace Identity World Wp Disk Sem SemInv Attach Store Lib CommitInv AttachInv StoreInv SegmentThms CommitThms LibThms Paths Helper.

Import String.StringSyntax.
Local Arguments text s%_string.

(** * Printing *)

(** A valid text is cut into its characters. *)
Lemma next_chunk_utf8 bs :
  utf8 bs = true -> bs <> [] ->
  exists n, next_chunk bs = (true, S n) /\ utf8 (drop (S n) bs) = true.
Proof.
  destruct bs as [|b0 r0]; [done|]. intros H _. unfold next_chunk. cbn [utf8] in H. revert H.
  destruct (between 0 0x7F b0); [by exists O|].
  destruct r0 as [|b1 r1]; [done|].
  destruct (between 0xC2 0xDF b0); [intros [H1 H2]%andb_true_iff; cbn; rewrite H1; by exists 1%nat|].
  destruct r1 as [|b2 r2]; [done|].
  destruct (b0 =? 0xE0).
  { intros [[H1 H2]%andb_true_iff H3]%andb_true_iff. cbn. rewrite H1, H2. by exists 2%nat. }
  destruct (b0 =? 0xED).
  { intros [[H1 H2]%andb_true_iff H3]%andb_true_iff. cbn. rewrite H1, H2. by exists 2%nat. }
  destruct (between 0xE1 0xEF b0).
  { intros [[H1 H2]%andb_true_iff H3]%andb_true_iff. cbn. rewrite H1, H2. by exists 2%nat. }
  destruct r2 as [|b3 r3]; [done|].
  destruct (b0 =? 0xF0).
  { intros [[[H1 H2]%andb_true_iff H3]%andb_true_iff H4]%andb_true_iff.
    cbn. rewrite H1, H2, H3. by exists 3%nat. }
  destruct (b0 =? 0xF4).
  { intros [[[H1 H2]%andb_true_iff H3]%andb_true_iff H4]%andb_true_iff.
    cbn. rewrite H1, H2, H3. by exists 3%nat. }
  destruct (between 0xF1 0xF3 b0); [|done].
  intros [[[H1 H2]%andb_true_iff H3]%andb_true_iff H4]%andb_true_iff.
  cbn. rewrite H1, H2, H3. by exists 3%nat.
Qed.

Lemma lossy_utf8 fuel bs : utf8 bs = true -> (length bs <= fuel)%nat -> lossy fuel bs = bs.
Proof.
  revert bs; induction fuel as [|fuel IH]; intros [|b bs] Hu Hl; try done; [cbn in Hl; lia|].
  destruct (next_chunk_utf8 (b :: bs) Hu) as (n & Hn & Hd); [done|].
  cbn [lossy]. rewrite Hn. rewrite IH; [by rewrite take_drop|done|].
  rewrite length_drop. cbn [length] in *. lia.
Qed.

Lemma to_string_lossy_utf8 bs : utf8 bs = true -> to_string_lossy bs = bs.
Proof. intros H. by apply lossy_utf8. Qed.

(** * A healthy system

    The segment is up and nobody is in the middle of anything; no call fails. *)

Definition even_counters (s : Segment) : Prop :=
  (forall k, is_odd (slot s k) = false) /\ is_odd (aseq s) = false.

Record healthy (w : World) (o : Z) (s : Segment) : Prop := mk_healthy {
  hl_faults : w_faults w = [];
  hl_others : w_others w = [];
  hl_avail : f_avail (w_fs w) = true;
  hl_name : w_name w = Some o;
  hl_seg : seg_at w o s;
  hl_ident : ident_ok (w_fs w) (identity s) = true;
  hl_wf : wf s;
  hl_even : even_counters s
}.

Lemma pop_healthy w : w_faults w = [] -> pop_fault w = (Good, w).
Proof. destruct w; cbn. by intros ->. Qed.

Lemma run_others_healthy w : w_others w = [] -> run_others w = w.
Proof. destruct w; cbn. by intros ->. Qed.

Lemma healthy_sems f w o s : healthy w o s -> healthy (upd_sems f w) o s.
Proof. intros []. by split. Qed.

(** * Calls that do not fail *)

Lemma exec_attach fuel w o s : healthy w o s -> exec (attach fuel) w = (Ok o, w).
Proof.
  intros H. destruct H as [Hf Ho Ha Hn Hs Hi _ _].
  assert (forall c, exec (sys (Seg o (loadc c))) w = (load c s, w)) as Hload.
  { intros c. rewrite exec_sys. by apply (handle_loadc o c (mkObj SEGMENT_SIZE s)). }
  unfold ident_ok, identity in Hi. rewrite !andb_true_iff in Hi.
  destruct Hi as [[[Hr Hm] Hv] Hd]. apply negb_true_iff in Hr.
  unfold attach. rewrite exec_bind, exec_sys. unfold handle. rewrite pop_healthy by done.
  cbn [fst snd is_bad]. rewrite Hn. unfold map. rewrite exec_bind, exec_bind, exec_sys.
  unfold handle. rewrite pop_healthy by done. cbn [fst snd is_bad]. rewrite Hs.
  cbn [fmap option_fmap option_map so_size]. rewrite (proj2 (Z.leb_le _ _)) by lia. cbn [negb].
  rewrite exec_bind, exec_sys. unfold handle. rewrite pop_healthy by done. cbn [fst snd is_bad negb].
  rewrite exec_ret. cbn [fst snd]. rewrite exec_bind.
  assert (exec (validate fuel o) w = (Ok tt, w)) as ->; [|done].
  unfold validate. rewrite exec_bind, Hload. cbn [fst snd load].
  rewrite Hr, exec_bind, exec_ret. cbn [fst snd]. rewrite Hr.
  rewrite exec_bind, Hload. cbn [fst snd load]. rewrite Hm. cbn [negb].
  rewrite exec_bind, Hload. cbn [fst snd load]. rewrite Hv. cbn [negb].
  unfold store_dev. rewrite exec_bind, exec_sys. unfold handle. rewrite pop_healthy by done.
  cbn [is_bad negb]. rewrite Ha. cbn [andb fst snd].
  rewrite exec_bind, Hload. cbn [fst snd load]. rewrite Z.eqb_sym, Hd. done.
Qed.

Lemma exec_lock_down fuel id w o s :
  healthy w o s -> (0 < fuel)%nat -> is_Some (w_sems w !! id) ->
  exists w1, exec (lock_loop fuel id) w = (Some (mkGuard id), w1) /\ healthy w1 o s /\
    is_Some (w_sems w1 !! id).
Proof.
  intros H Hf [v Hv]. destruct fuel as [|n]; [lia|]. cbn [lock_loop].
  rewrite exec_bind, exec_sys. unfold handle. rewrite pop_healthy by apply H.
  unfold sem_down. rewrite Hv. rewrite run_others_healthy by apply H. cbn [fst snd].
  rewrite exec_ret. eexists. split; [done|]. split; [by apply healthy_sems|].
  cbn. rewrite lookup_insert_eq. by eexists.
Qed.

(** The lock can be had. *)
Lemma exec_acquire fuel w o s :
  healthy w o s -> (0 < fuel)%nat ->
  exists g w1, exec (acquire fuel) w = (Some g, w1) /\ healthy w1 o s /\
    is_Some (w_sems w1 !! g_semid g).
Proof.
  intros H Hf. pose proof (hl_faults _ _ _ H) as Hfl. pose proof (hl_avail _ _ _ H) as Ha.
  unfold acquire, lock, sem_get. rewrite exec_bind, exec_bind, exec_sys.
  unfold handle. rewrite pop_healthy, Ha by done. cbn [andb is_bad negb fst snd].
  set (key := ftok_key _ _).
  rewrite exec_bind, exec_sys. unfold handle. rewrite pop_healthy by done. cbn [is_bad].
  destruct (w_sems w !! key) as [v|] eqn:Hk; cbn [fst snd].
  - rewrite exec_sys. unfold handle. rewrite pop_healthy by done. cbn [is_bad fst snd].
    rewrite Hk. cbn [fmap option_fmap option_map].
    destruct (exec_lock_down fuel key w o s H Hf ltac:(by eexists)) as (w1 & -> & H1 & H2).
    by exists (mkGuard key), w1.
  - rewrite exec_bind, exec_sys. unfold handle. rewrite pop_healthy by done.
    cbn [is_bad fst snd]. rewrite exec_ret. cbn [fst snd].
    match goal with |- context [exec (lock_loop fuel key) ?w1] => set (w2 := w1) end.
    assert (healthy w2 o s) as H2 by (by repeat apply healthy_sems).
    destruct (exec_lock_down fuel key w2 o s H2 Hf) as (w1 & -> & H3 & H4).
    { subst w2. cbn. rewrite lookup_insert_eq. by eexists. }
    by exists (mkGuard key), w1.
Qed.

Lemma exec_drop fuel g w o s :
  healthy w o s -> (0 < fuel)%nat -> is_Some (w_sems w !! g_semid g) ->
  exists w1, exec (drop_guard fuel g) w = (tt, w1) /\ healthy w1 o s.
Proof.
  intros H Hf [v Hv]. destruct fuel as [|n]; [lia|]. unfold drop_guard. cbn [drop_loop].
  rewrite exec_bind, exec_sys. unfold handle. rewrite pop_healthy by apply H.
  unfold sem_up. rewrite Hv. cbn [fst snd]. rewrite exec_ret. eexists. split; [done|].
  by apply healthy_sems.
Qed.

(** * The update *)

Lemma put_aseq s key val dirty :
  wf s -> len key + len val < 2 ^ 63 ->
  aseq (snd (run (Shm.put key val dirty) s)) = aseq s \/
  aseq (snd (run (Shm.put key val dirty) s)) = bump (aseq s).
Proof.
  intros Hwf Hlen. pose proof (len_nonneg key). pose proof (len_nonneg val).
  unfold Shm.put. fold (key_slot key). rewrite run_bind, run_holds_value by done. cbn [fst snd].
  case_bool_decide as Hg; [by left|].
  rewrite wadd_small by lia. rewrite run_bind.
  destruct (run_ensure_space s (len key + len val) Hwf ltac:(lia))
    as [Hw Hsub _ _ Ha Hroom _].
  destruct (run (ensure_space (len key + len val)) s) as [r s1]. cbn [fst snd] in *.
  assert (aseq s1 = aseq s \/ aseq s1 = bump (aseq s)) as Ha1 by (rewrite Ha; case_match; auto).
  destruct r as [[]|]; [|done].
  rewrite run_bind. destruct (run_probe s1 key Hw) as (pr & -> & Hpr). cbn [fst snd].
  destruct pr as [[i found]|]; [|done].
  pose proof (run_bracket (put_locked i found key val (fnv1a key) dirty) key s1) as Hb. cbv zeta in Hb.
  set (s2 := store (CSlot (key_slot key)) _ s1) in *.
  assert (same_data s1 s2) as Hs12 by (by apply same_data_store).
  destruct (run_put_body s2 key val dirty i found) as (_ & _ & _ & Hsl & Hab).
  { by eapply same_data_wf. }
  { rewrite (same_used _ _ Hs12). by apply Hroom. }
  { by eapply probe_post_proper. }
  { rewrite <- (view_proper _ _ Hs12). intros E. by eapply Hg, get_sub. }
  destruct (Hb Hsl) as (_ & _ & _ & _ & Hx). rewrite Hx, Hab. subst s2.
  rewrite aseq_store by done. exact Ha1.
Qed.

Lemma put_even s key val dirty :
  wf s -> len key + len val < 2 ^ 63 -> even_counters s ->
  even_counters (snd (run (Shm.put key val dirty) s)).
Proof.
  intros Hwf Hlen [Hs Ha]. destruct (run_put s key val dirty Hwf Hlen) as (m & [_ _ _ _ _ Hsl]).
  pose proof (put_aseq s key val dirty Hwf Hlen) as Hx.
  destruct (run (Shm.put key val dirty) s) as [r s']. cbn [fst snd] in *. split.
  - intros k. destruct (is_ok r && _); rewrite Hsl; [case_decide|]; auto with nvram.
  - destruct Hx as [->| ->]; auto with nvram.
Qed.

Lemma healthy_seg {A} (p : prog A) w o s :
  healthy w o s -> data_only p -> wf (snd (run p s)) -> even_counters (snd (run p s)) ->
  exists w1, handle (Seg o p) w = (fst (run p s), w1) /\ healthy w1 o (snd (run p s)) /\
    w_sems w1 = w_sems w.
Proof.
  intros [Hf Ho Ha Hn Hs Hi _ _] Hp Hw He. pose proof (run_identity p s Hp) as Hid.
  unfold handle, handle_seg. rewrite Hs. cbn [so_seg so_size].
  destruct (run p s) as [a s']. cbn [fst snd] in *. eexists. split; [done|].
  split; [|done]. split; try done.
  - unfold seg_at. cbn. by rewrite lookup_insert_eq.
  - rewrite Hid. exact Hi.
Qed.

Section two.
Context `{AL : Allocator}.

Lemma exec_set fuel st key val w o s :
  healthy w o s -> coherent st o s -> (0 < fuel)%nat ->
  valid_key key = true -> len key + len val < 2 ^ 63 ->
  exists ok st' w' s', exec (set fuel st key val) w = ((ok, st'), w') /\
    healthy w' o s' /\ ok = is_ok (fst (run (Shm.put key val true) s)) /\
    (ok = true -> Spec.get (view s') key = Some val).
Proof.
  intros H Hc Hf Hk Hlen. unfold set, reattach. rewrite Hk, (ct_seg _ _ _ Hc). cbn [negb].
  rewrite exec_bind, exec_ret. cbn [fst snd]. rewrite exec_bind.
  destruct (exec_value_matches fuel st o s w Hc (hl_seg _ _ _ H) (hl_wf _ _ _ H) ltac:(unfold others_ok; by rewrite (hl_others _ _ _ H)) key val) as (b & st1 & -> & Hc1 & Hb). cbn [fst snd].
  destruct (run_put s key val true (hl_wf _ _ _ H) Hlen) as (m & [Hw2 _ _ Hsame Hv _]).
  pose proof (put_even s key val true (hl_wf _ _ _ H) Hlen (hl_even _ _ _ H)) as He2.
  destruct b.
  { destruct (Hb eq_refl) as [Hg _]. rewrite exec_ret. exists true, st1, w, s. split_and!; try done.
    unfold Shm.put. rewrite run_bind, run_holds_value by apply H. cbn [fst snd].
    by rewrite bool_decide_eq_true_2. }
  rewrite (ct_seg _ _ _ Hc1), exec_bind.
  destruct (exec_acquire fuel w o s H Hf) as (g & w1 & -> & H1 & Hg). cbn [fst snd].
  rewrite exec_bind, exec_sys.
  destruct (healthy_seg (Shm.put key val true) w1 o s H1 (data_only_put _ _ _) Hw2 He2)
    as (w2 & -> & H2 & Hsems). cbn [fst snd].
  set (s2 := snd (run (Shm.put key val true) s)) in *.
  rewrite exec_bind, exec_sys, (handle_seg_pure o _ _ s2 w2 (hl_seg _ _ _ H2) (run_slot_value s2 _)).
  cbn [fst snd]. rewrite exec_bind.
  destruct (exec_drop fuel g w2 o s2 H2 Hf ltac:(by rewrite Hsems)) as (w3 & -> & H3). cbn [fst snd].
  rewrite exec_ret. destruct (is_ok (fst (run (Shm.put key val true) s))) eqn:Hok.
  - do 4 eexists. split; [done|]. split; [exact H3|]. split; [done|]. intros _. rewrite Hv.
    destruct (fst (run (Shm.put key val true) s)); [|done]. apply Spec.get_put.
  - do 4 eexists. split; [done|]. split; [exact H3|]. by split.
Qed.

Lemma fresh_coherent o s : coherent (mkStore (Some o) ∅ ∅ 0) o s.
Proof. split; [done|apply empty_ok|]. intros k e H. cbn in H. by rewrite lookup_empty in H. Qed.

(** The first call of a process attaches it. *)
Lemma exec_first {A} fuel (f : Store -> io (A * Store)) w o s :
  healthy w o s ->
  exec (with_store fuel f None) w =
    let r := exec (f (mkStore (Some o) ∅ ∅ 0)) w in
    ((fst (fst r), Some (snd (fst r))), snd r).
Proof.
  intros H. assert (exec (new fuel ∅) w = (mkStore (Some o) ∅ ∅ 0, w)) as Hn.
  { unfold new. by rewrite exec_bind, (exec_attach fuel w o s H). }
  unfold with_store. rewrite exec_bind, Hn. cbn [fst snd]. rewrite exec_bind.
  by destruct (exec (f _) w) as [[a st] w'].
Qed.

Lemma cstring_some bs : 0 ∉ bs -> cstring bs = Some (bs ++ [0]).
Proof. intros H. unfold cstring. by rewrite bool_decide_eq_false_2. Qed.

Lemma cstr_cstring bs : 0 ∉ bs -> cstr (bs ++ [0]) = bs.
Proof. apply (cstr_app bs []). Qed.

Lemma key_bytes_cstring k : 0 ∉ k -> k <> [] -> key_bytes (Some (k ++ [0])) = Some k.
Proof. intros H Hne. unfold key_bytes. rewrite cstr_cstring by done. by destruct k. Qed.

(** [set] in a process of its own. *)
Lemma exec_main_set fuel prog root shm k v w o s :
  healthy w o s -> (0 < fuel)%nat -> valid_key k = true -> 0 ∉ k -> 0 ∉ v ->
  len k + len v < 2 ^ 63 ->
  exists ok w1 s', exec (main fuel [prog; root; shm; text "set"; k; v]) w =
      (mkOutcome [] (Exit (if ok : bool then 0 else 1)) (set_paths root shm), w1) /\
    healthy w1 o s' /\ ok = is_ok (fst (run (Shm.put k v true) s)) /\
    (ok = true -> Spec.get (view s') k = Some v).
Proof.
  intros H Hf Hk Hk0 Hv0 Hlen. pose proof (valid_key_spec _ Hk) as (_ & Hne & _).
  destruct (exec_set fuel (mkStore (Some o) ∅ ∅ 0) k v w o s H (fresh_coherent o s) Hf Hk Hlen)
    as (ok & st' & w' & s' & Hex & H' & Hok & Hget).
  exists ok, w', s'. split_and!; try done.
  unfold main, command. rewrite bool_decide_eq_true_2 by done. rewrite exec_bind.
  unfold cmd_set, unwrap_cstring. rewrite !cstring_some by done. rewrite exec_bind.
  unfold nvram_set. rewrite key_bytes_cstring by done.
  cbn [val_bytes fmap option_fmap option_map]. rewrite cstr_cstring by done.
  unfold report. rewrite exec_bind, (exec_first fuel _ w o s H), Hex. cbn [fst snd].
  rewrite exec_ret. cbn [fst snd]. rewrite exec_ret. cbn [fst snd]. rewrite exec_ret.
  by destruct ok.
Qed.

(** [get] in a process of its own: it prints what the segment holds and
    leaves the system as it was. *)
Lemma exec_main_get fuel prog root shm k w o s :
  healthy w o s -> valid_key k = true -> 0 ∉ k ->
  exec (main fuel [prog; root; shm; text "get"; k]) w =
    (mkOutcome [match Spec.get (view s) k with
                | None => text "<absent>"
                | Some v => to_string_lossy (cstr (v ++ [0]))
                end] (Exit 0) (set_paths root shm), w).
Proof.
  intros H Hk Hk0. pose proof (valid_key_spec _ Hk) as (_ & Hne & _).
  destruct (hl_even _ _ _ H) as [He1 He2].
  destruct (exec_get fuel (mkStore (Some o) ∅ ∅ 0) o s k w (fresh_coherent o s) (hl_seg _ _ _ H)
    (hl_wf _ _ _ H) (conj (He1 _) He2)) as (p & st' & Hex & _ & Hz & Hp).
  unfold main, command. rewrite (bool_decide_eq_false_2 (text "get" = text "unset")) by done.
  rewrite bool_decide_eq_true_2 by done. rewrite exec_bind.
  unfold cmd_get, unwrap_cstring. rewrite cstring_some by done. rewrite exec_bind.
  unfold nvram_get. rewrite key_bytes_cstring by done.
  rewrite (exec_first fuel _ w o s H), Hex. cbn [fst snd]. rewrite exec_ret. cbn [fst snd].
  rewrite exec_ret. do 3 f_equal. destruct (Spec.get (view s) k) as [v|].
  - destruct (Z.eqb_spec p 0) as [E|]; [by apply Hz in E|].
    unfold deref. by rewrite (Hp v).
  - destruct Hz as [_ Hz]. by rewrite Hz.
Qed.

(** C12: processes share the store: on a healthy system - the segment is up, no
    call fails, nobody is in the middle of an operation - a process that sets
    a key exits with 0 exactly when the segment has room for the value, and a
    second process, which starts with nothing, then prints that value, byte
    for byte when it is text, exits with 0 and leaves the system untouched. *)
Theorem set_visible_to_next_process fuel prog root shm k v w o s :
  healthy w o s -> (0 < fuel)%nat -> valid_key k = true -> 0 ∉ k -> 0 ∉ v ->
  len k + len v < 2 ^ 63 ->
  let (r1, w1) := exec (main fuel [prog; root; shm; text "set"; k; v]) w in
  let (r2, w2) := exec (main fuel [prog; root; shm; text "get"; k]) w1 in
  (r_exit r1 = Exit 0 <-> fst (run (Shm.put k v true) s) = Ok tt) /\
  (r_exit r1 = Exit 0 -> r_out r2 = [to_string_lossy v]) /\
  (r_exit r1 = Exit 0 -> utf8 v = true -> r_out r2 = [v]) /\
  r_exit r2 = Exit 0 /\ w2 = w1.
Proof.
  intros H Hf Hk Hk0 Hv0 Hlen.
  destruct (exec_main_set fuel prog root shm k v w o s H Hf Hk Hk0 Hv0 Hlen)
    as (ok & w1 & s' & -> & H1 & Hok & Hget).
  rewrite (exec_main_get fuel prog root shm k w1 o s' H1 Hk Hk0). cbn [r_exit r_out].
  assert (Exit (if ok then 0 else 1) = Exit 0 -> ok = true) as Hex by (by destruct ok).
  assert (Exit (if ok then 0 else 1) = Exit 0 ->
    [match Spec.get (view s') k with
     | None => text "<absent>"
     | Some v => to_string_lossy (cstr (v ++ [0]))
     end] = [to_string_lossy v]) as Hout.
  { intros E. rewrite (Hget (Hex E)). by rewrite cstr_cstring. }
  split_and!; try done.
  - subst ok. destruct (fst (run (Shm.put k v true) s)) as [[]|]; by split.
  - intros E Hu. by rewrite (Hout E), to_string_lossy_utf8.
Qed.
End two.

(** An empty store that is up and belongs to device 7. *)
Definition empty_up : Segment :=
  snd (run (init_header 7 ;! storec CReady 1) zero_segment).

Lemma empty_up_healthy : healthy (demo_world empty_fs empty_up) 3 empty_up.
Proof.
  split; try reflexivity.
  - apply fresh_wf. split; [|reflexivity..]. intros i _. reflexivity.
  - split; [|reflexivity]. intros k. reflexivity.
Qed.

Lemma set_visible_to_next_process_witness :
  let w := demo_world empty_fs empty_up in
  let args (cmd : bytes) (l : list bytes) := [] :: [] :: [] :: cmd :: l in
  let set := main 1 (args (text "set") [[107]; [0xC3; 0xA9]]) in
  let get := main 1 (args (text "get") [[107]]) in
  fst (exec get (snd (exec set w))) = mkOutcome [[0xC3; 0xA9]] (Exit 0) (set_paths [] []) /\
  let (r1, w1) := exec set w in
  let (r2, w2) := exec get w1 in
  (r_exit r1 = Exit 0 <-> fst (run (Shm.put [107] [0xC3; 0xA9] true) empty_up) = Ok tt) /\
  (r_exit r1 = Exit 0 -> r_out r2 = [to_string_lossy [0xC3; 0xA9]]) /\
  (r_exit r1 = Exit 0 -> utf8 [0xC3; 0xA9] = true -> r_out r2 = [[0xC3; 0xA9]]) /\
  r_exit r2 = Exit 0 /\ w2 = w1.
Proof.
  intros w args set get. split; [vm_compute; reflexivity|].
  apply (set_visible_to_next_process 1 [] [] [] [107] [0xC3; 0xA9] w 3 empty_up).
  - apply empty_up_healthy.
  - lia.
  - reflexivity.
  - rewrite !elem_of_cons, elem_of_nil. lia.
  - rewrite !elem_of_cons, elem_of_nil. lia.
  - reflexivity.
Defined.
