(* ===== verification/Killed.v ===== *)
(** What a writer killed in the middle of an update leaves.

    A killed [put] or [remove] has made some of its accesses and none of the
    others, so the segment it leaves need not be [wf].  [around s s' i] says
    that only bucket [i] and the unused part of the arena have been touched
    since the consistent segment [s]; what a reader makes of [s'] then depends
    on bucket [i] alone. *)

From S2P Require Import Prelude Consts Hash Spec Segment Shm ShmInv ShmProbe ShmOps SeqCount ShmWrite ShmCompact ShmRefine ShmCommit ShmTrace Race RaceInv RaceOps.

(** * Reading any segment *)

(** The comparison a lookup of [key] makes at bucket [i] succeeds. *)
Definition hit (s : Segment) (key : bytes) (i : Z) : Prop :=
  e_hash (entry s i) = fnv1a key /\
  fst (run (arena_eq (e_key_off (entry s i)) (e_key_len (entry s i)) key) s) = true.

Definition skipped (s : Segment) (key : bytes) (i : Z) : Prop :=
  state_of s i <> ST_EMPTY /\ ~ hit s key i.

(** Where a probe of any segment ends: at the first hit, or having skipped
    every bucket up to an empty one or the end of the window. *)
Definition ends_at (s : Segment) (key : bytes) (j : Z) (n : nat) (r : option (Z * bool)) : Prop :=
  exists j', (forall x, j <= x < j' -> skipped s key (probe_at key x)) /\
    match r with
    | Some (i, true) => j <= j' < j + Z.of_nat n /\ i = probe_at key j' /\
        state_of s i <> ST_EMPTY /\ hit s key i
    | _ => j <= j' <= j + Z.of_nat n /\
        (j' = j + Z.of_nat n \/ state_of s (probe_at key j') = ST_EMPTY)
    end.

Lemma run_matches_any key i s :
  run (probe_matches key i) s = (fst (run (probe_matches key i) s), s) /\
  (fst (run (probe_matches key i) s) = true <-> hit s key i).
Proof.
  assert (snd (run (probe_matches key i) s) = s) as Hs.
  { apply looks_run. unfold probe_matches. looks_step. case_match; [|done].
    looks_step. looks_step. apply looks_arena_eq. }
  split; [by rewrite <- Hs at 3; destruct (run _ s)|].
  unfold probe_matches, hit. run_simpl. cbn [load].
  destruct (Z.eqb_spec (e_hash (entry s i)) (fnv1a key)) as [E|E].
  - run_simpl. cbn [load]. tauto.
  - run_simpl. split; [done|]. by intros [? _].
Qed.

Lemma run_probe_any_loop s key j n free :
  exists r, run (probe_loop key (fnv1a key) (fnv1a key mod INDEX_SLOTS) free j n) s = (r, s) /\
    ends_at s key j n r.
Proof.
  revert j free; induction n as [|n IH]; intros j free.
  { exists ((fun i => (i, false)) <$> free). split; [done|]. exists j.
    split; [intros x Hx; lia|]. destruct free; cbn; (split; [lia|left; lia]). }
  cbn [probe_loop]. fold (probe_at key j). set (i := probe_at key j).
  run_simpl. cbn [load]. fold (state_of s i).
  destruct (Z.eqb_spec (state_of s i) ST_EMPTY) as [He|Hne].
  { eexists. split; [done|]. exists j. split; [intros x Hx; lia|]. split; [lia|by right]. }
  destruct (run_matches_any key i s) as [Hrun Hhit].
  unfold probe_matches in Hrun, Hhit. rewrite !run_bind, !run_loadc in Hrun, Hhit. cbn [fst snd] in Hrun, Hhit.
  run_simpl. set (m := run (if _ =? _ then _ else _) s) in *.
  destruct (fst m) eqn:Hm; rewrite Hrun; cbn [fst snd].
  { eexists. split; [done|]. exists j. split; [intros x Hx; lia|].
    split_and!; [lia..|done|done|by apply Hhit]. }
  assert (skipped s key i) as Hsk by (split; [done|]; intros H%Hhit; congruence).
  run_simpl. match goal with |- context [run (if ?c then ?a else ?b) s] =>
    assert (snd (run (if c then a else b) s) = s) as Hs by (destruct c; by run_simpl) end.
  rewrite Hs. destruct (IH (j + 1) (fst (run
    (if (state_of s i =? ST_TOMB) && bool_decide (free = None)
     then let! flags := loadc (CFlags i) in ret (if has_dirty flags then free else Some i)
     else ret free) s))) as (r & Hr & j' & Hskip & Hend).
  exists r. split; [exact Hr|]. exists j'. split.
  - intros x Hx. destruct (decide (x = j)) as [->|]; [done|]. apply Hskip. lia.
  - destruct r as [[b [|]]|]; [destruct Hend as (H1 & H2 & H3 & H4)|destruct Hend as (H1 & H2)..];
      split_and!; try done; try lia; destruct H2; auto; left; lia.
Qed.

Lemma run_probe_any s key :
  exists r, run (probe key (fnv1a key)) s = (r, s) /\ ends_at s key 0 (Z.to_nat MAX_PROBES) r.
Proof. apply run_probe_any_loop. Qed.

(** What a reader returns of a segment at rest. *)
Definition reads (s : Segment) (key : bytes) : Read :=
  fst (run (read_value key (fnv1a key)) (snd (run (repair_seq (key_slot key)) s))).

Definition bucket_read (s : Segment) (i : Z) : Read :=
  if state_of s i =? ST_LIVE then
    match fst (run (arena_slice (e_val_off (entry s i)) (e_val_len (entry s i))) s) with
    | Some v => Value v
    | None => Torn
    end
  else Absent.

Lemma run_read_any s key :
  is_odd (slot s (key_slot key)) = false -> is_odd (aseq s) = false ->
  exists r, ends_at s key 0 (Z.to_nat MAX_PROBES) r /\
    fst (run (read_value key (fnv1a key)) s) =
      match r with Some (i, true) => bucket_read s i | _ => Absent end.
Proof.
  intros Hs Ha. unfold read_value. fold (key_slot key). run_simpl. cbn [load].
  fold (aseq s). rewrite Hs, Ha. cbn [orb]. rewrite run_bind.
  destruct (run_probe_any s key) as (r & -> & Hr). cbn [fst snd]. exists r. split; [done|].
  destruct r as [[i [|]]|]; run_simpl; cbn [load]; fold (aseq s); rewrite ?Z.eqb_refl; try done.
  unfold bucket_read. fold (state_of s i).
  destruct (state_of s i =? ST_LIVE); run_simpl; cbn [load]; fold (aseq s);
    rewrite ?Z.eqb_refl; [|done].
  pose proof (run_arena_slice_state s (e_val_off (entry s i)) (e_val_len (entry s i))) as Hst.
  destruct (run (arena_slice _ _) s) as [[v|] s']; cbn [fst snd] in *; subst s'; run_simpl;
    cbn [load]; fold (aseq s); by rewrite ?Z.eqb_refl.
Qed.

(** A bucket and the arena are all that a comparison and a read depend on. *)
Lemma hit_local s s' key i :
  entry s' i = entry s i -> arena s' = arena s -> hit s key i <-> hit s' key i.
Proof.
  intros He Ha. unfold hit. rewrite He.
  assert (forall off ln, fst (run (arena_eq off ln key) s') = fst (run (arena_eq off ln key) s)) as Hq.
  { intros off ln. unfold arena_eq. case_match; [done|]. run_simpl. by rewrite Ha. }
  by rewrite Hq.
Qed.

Lemma bucket_read_local s s' i :
  entry s' i = entry s i -> arena s' = arena s -> bucket_read s' i = bucket_read s i.
Proof.
  intros He Ha. unfold bucket_read, state_of. rewrite He.
  destruct (e_state (entry s i) =? ST_LIVE); [|done].
  unfold arena_slice. destruct (_ || _); [done|]. run_simpl. by rewrite Ha.
Qed.

(** Repairing the counters changes no data. *)
Lemma hit_proper s s' key i : same_data s s' -> hit s key i <-> hit s' key i.
Proof. intros [He Ha _ _]. by apply hit_local. Qed.

Lemma bucket_read_proper s s' i : same_data s s' -> bucket_read s' i = bucket_read s i.
Proof. intros [He Ha _ _]. by apply bucket_read_local. Qed.

Lemma ends_at_proper s s' key j n r : same_data s s' -> ends_at s' key j n r -> ends_at s key j n r.
Proof.
  intros Hd (j' & Hskip & Hend). assert (forall i, state_of s' i = state_of s i) as Hst
    by (intros i; symmetry; by apply state_of_proper).
  exists j'. split.
  - intros x Hx. destruct (Hskip x Hx) as [H1 H2]. split; [by rewrite <- Hst|].
    by rewrite (hit_proper s s').
  - destruct r as [[b [|]]|]; rewrite ?Hst, <- ?(hit_proper s s') in Hend; done.
Qed.

Lemma reads_any s key :
  exists r, ends_at s key 0 (Z.to_nat MAX_PROBES) r /\
    reads s key = match r with Some (i, true) => bucket_read s i | _ => Absent end.
Proof.
  unfold reads. destruct (run_repair_seq (key_slot key) s) as (_ & Hk & Ha & _ & Hd).
  set (s' := snd (run (repair_seq (key_slot key)) s)) in *. clearbody s'.
  destruct (run_read_any s' key) as (r & Hr & ->).
  - rewrite Hk. apply repaired_even.
  - rewrite Ha. apply repaired_even.
  - exists r. split; [by eapply ends_at_proper|].
    destruct r as [[i [|]]|]; [|done..]. by apply bucket_read_proper.
Qed.

(** A hit the probe reaches is not overlooked. *)
Lemma ends_at_hit s key p r :
  0 <= p < MAX_PROBES -> (forall x, 0 <= x < p -> state_of s (probe_at key x) <> ST_EMPTY) ->
  state_of s (probe_at key p) <> ST_EMPTY -> hit s key (probe_at key p) ->
  ends_at s key 0 (Z.to_nat MAX_PROBES) r ->
  exists b, r = Some (b, true) /\ in_index b /\ state_of s b <> ST_EMPTY /\ hit s key b.
Proof.
  intros Hp Hpath Hne Hh (j' & Hskip & Hend).
  change (Z.of_nat (Z.to_nat MAX_PROBES)) with MAX_PROBES in Hend.
  assert (p < j' -> False) as Hlt by (intros Hlt; by destruct (Hskip p ltac:(lia))).
  assert (0 <= j' <= 0 + MAX_PROBES /\
    (j' = 0 + MAX_PROBES \/ state_of s (probe_at key j') = ST_EMPTY) -> False) as Hfree.
  { intros (Hle & [E|He]); [apply Hlt; lia|]. apply Hlt.
    destruct (decide (j' = p)) as [->|]; [done|].
    destruct (decide (p < j')); [done|]. exfalso. by apply (Hpath j'); [lia|]. }
  destruct r as [[b [|]]|]; [|by destruct Hfree..].
  destruct Hend as (_ & -> & Hnb & Hhb). eauto 10 with nvram.
Qed.

(** * One bucket in between *)

Record around (s s' : Segment) (i : Z) : Prop := mk_around {
  ar_other : forall j, j <> i -> entry s' j = entry s j;
  ar_bytes : forall x, 0 <= x < used s -> arr_get 0 (arena s') x = arr_get 0 (arena s) x
}.

Lemma around_same s s' i : same_data s s' -> around s s' i.
Proof. intros [He Ha _ _]. split; [auto|]. intros x _. by rewrite Ha. Qed.

Lemma around_store s s' i c v :
  around s s' i -> cell_entry c = Some i \/ cell_entry c = None -> around s (store c v s') i.
Proof.
  intros [H1 H2] Hc. split.
  - intros j Hj. rewrite entry_store_other; [by apply H1|]. destruct Hc; congruence.
  - intros x Hx. rewrite arena_store. by apply H2.
Qed.

Lemma around_write s s' i off bs :
  around s s' i -> used s <= off -> around s (arena_write off bs s') i.
Proof.
  intros [H1 H2] Hu. split; [done|]. intros x Hx. cbn. rewrite mem_write_get_out by lia. by apply H2.
Qed.

Section around.
Variables (s s' : Segment) (i : Z) (key : bytes).
Hypothesis Hwf : wf s.
Hypothesis Har : around s s' i.

Lemma around_region off ln :
  0 <= off -> off + ln <= used s -> mem_read (arena s') off ln = mem_read (arena s) off ln.
Proof using Har. intros H0 Hu. apply mem_read_ext. intros x Hx. apply (ar_bytes _ _ _ Har). lia. Qed.

Lemma around_state j : j <> i -> state_of s' j = state_of s j.
Proof using Har. intros Hj. unfold state_of. by rewrite (ar_other _ _ _ Har). Qed.

Lemma around_hit j :
  j <> i -> in_index j -> state_of s j <> ST_EMPTY -> hit s' key j <-> key_of s j = key.
Proof using Har Hwf.
  intros Hj Hi Hne. pose proof (wf_entry s Hwf j Hi) as Hok.
  pose proof (ok_key _ _ Hok Hne). pose proof (wf_used s Hwf).
  unfold hit. rewrite (ar_other _ _ _ Har) by done.
  rewrite run_arena_eq by lia. cbn [fst]. rewrite around_region by lia. fold (key_of s j).
  rewrite bool_decide_eq_true, (ok_hash _ _ Hok Hne). split; [tauto|]. by intros ->.
Qed.

Lemma around_bucket_read j :
  j <> i -> in_index j -> state_of s j <> ST_EMPTY ->
  bucket_read s' j = read_of (Spec.get (view s) (key_of s j)).
Proof using Har Hwf.
  intros Hj Hi Hne. rewrite get_at by done. unfold bucket_read. rewrite around_state by done.
  destruct (Z.eqb_spec (state_of s j) ST_LIVE) as [El|]; [|done].
  pose proof (ok_val _ _ (wf_entry s Hwf j Hi) El). pose proof (wf_used s Hwf).
  rewrite (ar_other _ _ _ Har) by done. rewrite run_arena_slice by lia. cbn [fst].
  by rewrite around_region by lia.
Qed.

(** The key sits elsewhere and bucket [i] does not pass for it. *)
Lemma reads_elsewhere j :
  j <> i -> in_index j -> state_of s j <> ST_EMPTY -> key_of s j = key ->
  (state_of s' i <> ST_EMPTY -> ~ hit s' key i) ->
  (state_of s i <> ST_EMPTY -> state_of s' i <> ST_EMPTY) ->
  reads s' key = read_of (Spec.get (view s) key).
Proof using Har Hwf.
  intros Hj Hi Hne Hk Hhit Hfull. destruct (reads_any s' key) as (r & Hr & ->).
  destruct (wf_chain s Hwf j Hi Hne) as (p & Hp & Ep & Hc). rewrite Hk in *.
  destruct (ends_at_hit s' key p r Hp) as (b & -> & Hib & Hnb & Hhb); [| | |done|].
  - intros x Hx. destruct (decide (probe_at key x = i)) as [E|E].
    + rewrite E. apply Hfull. rewrite <- E. by apply Hc.
    + rewrite around_state by done. by apply Hc.
  - rewrite <- Ep. by rewrite around_state.
  - rewrite <- Ep. by apply around_hit.
  - assert (b = j) as ->; [|by rewrite around_bucket_read, Hk].
    destruct (decide (b = i)) as [->|Hbi]; [by destruct (Hhit Hnb)|].
    rewrite around_state in Hnb by done. apply around_hit in Hhb; [|done..].
    apply (wf_unique s Hwf); congruence.
Qed.

(** No other bucket has the key, and bucket [i] has no live value for it. *)
Lemma reads_nowhere :
  (forall j, j <> i -> in_index j -> state_of s j <> ST_EMPTY -> key_of s j <> key) ->
  (hit s' key i -> state_of s' i <> ST_LIVE) ->
  reads s' key = Absent.
Proof using Har Hwf.
  intros Hno Hi. destruct (reads_any s' key) as (r & (j' & Hskip & Hend) & ->).
  destruct r as [[b [|]]|]; [|done..]. destruct Hend as (_ & Eb & Hnb & Hhb).
  destruct (decide (b = i)) as [->|Hbi].
  - unfold bucket_read. rewrite (proj2 (Z.eqb_neq _ _)); [done|auto].
  - rewrite around_state in Hnb by done. assert (in_index b) by (subst b; auto with nvram).
    apply around_hit in Hhb; [|done..]. by destruct (Hno b).
Qed.

(** Bucket [i] is the key's. *)
Lemma reads_here :
  (forall j, j <> i -> in_index j -> state_of s j <> ST_EMPTY -> key_of s j <> key) ->
  reachable s key i -> hit s' key i -> state_of s' i <> ST_EMPTY ->
  reads s' key = bucket_read s' i.
Proof using Har Hwf.
  intros Hno (p & Hp & Ep & Hc) Hhi Hne. destruct (reads_any s' key) as (r & Hr & ->).
  destruct (ends_at_hit s' key p r Hp) as (b & -> & Hib & Hnb & Hhb); [|by rewrite <- Ep..|done|].
  - intros x Hx. destruct (decide (probe_at key x = i)) as [E|E]; [by rewrite E|].
    rewrite around_state by done. by apply Hc.
  - destruct (decide (b = i)) as [->|Hbi]; [done|].
    rewrite around_state in Hnb by done. apply around_hit in Hhb; [|done..]. by destruct (Hno b).
Qed.
End around.

(** * What the update leaves of a bucket *)

(** Of the reads a killed update of [k] may lead to: the value from before, and
    for [k] itself also the empty value or the new one. *)
Definition left_over (s : Segment) (k : bytes) (new : Read) (key : bytes) (r : Read) : Prop :=
  r = read_of (Spec.get (view s) key) \/ (key = k /\ (r = Value [] \/ r = new)).

Section shapes.
Variables (s : Segment) (i : Z) (k : bytes).
Hypothesis Hwf : wf s.
Hypothesis Hi : in_index i.

Section found.
Variables (new : option bytes) (dirty : bool).

(** The bucket of [k] while its value is replaced, or removed. *)
Definition half_updated (s' : Segment) : Prop :=
  let e := entry s i in
  let e' := entry s' i in
  around s s' i /\ used s <= used s' <= ARENA_SIZE /\
  (e_flags e' = e_flags e \/ e_flags e' = set_dirty dirty (e_flags e)) /\
  e_hash e' = e_hash e /\ e_key_off e' = e_key_off e /\ e_key_len e' = e_key_len e /\
  ((e_state e' = e_state e /\ e_val_off e' = e_val_off e /\ e_val_len e' = e_val_len e) \/
   (e_state e' = e_state e /\ e_val_len e' = 0 /\
      (e_state e = ST_LIVE -> 0 <= e_val_off e' <= used s')) \/
   (exists v, new = Some v /\ (e_state e' = e_state e \/ e_state e' = ST_LIVE) /\
      used s <= e_val_off e' /\ e_val_len e' = len v /\ e_val_off e' + len v <= used s' /\
      mem_read (arena s') (e_val_off e') (len v) = v) \/
   (new = None /\ e_state e' = ST_TOMB)).

Hypothesis Hne : state_of s i <> ST_EMPTY.
Hypothesis Hk : key_of s i = k.

Lemma half_hit s' key : half_updated s' -> hit s' key i <-> k = key.
Proof using Hwf Hi Hne Hk.
  intros (Har & _ & _ & E1 & E2 & E3 & _). pose proof (wf_entry s Hwf i Hi) as Hok.
  pose proof (ok_key _ _ Hok Hne). pose proof (wf_used s Hwf).
  unfold hit. rewrite E1, E2, E3, run_arena_eq by lia. cbn [fst].
  rewrite (around_region s s' i) by (done || lia). fold (key_of s i).
  rewrite bool_decide_eq_true, (ok_hash _ _ Hok Hne), Hk. split; [tauto|]. by intros ->.
Qed.

Lemma half_nonempty s' : half_updated s' -> state_of s' i <> ST_EMPTY.
Proof using Hne.
  unfold state_of in *. intros (_ & _ & _ & _ & _ & _ & [(-> & _)|[(-> & _)|[(v & _ & [->| ->] & _)|(_ & ->)]]]);
    done.
Qed.

Lemma half_value s' :
  half_updated s' -> left_over s k (read_of new) k (bucket_read s' i).
Proof using Hwf Hi Hne Hk.
  intros (Har & Hu & _ & _ & _ & _ & H). unfold left_over. rewrite <- Hk, get_at by done.
  unfold bucket_read, state_of in *. assert (ARENA_SIZE < 2 ^ 63) by done.
  pose proof (wf_used s Hwf).
  destruct H as [(Es & Eo & El)|[(Es & El & Hb)|[(v & Hv & Hst & Hz & El & Hlu & Hm)|(Hn & ->)]]].
  - rewrite Es, Eo, El. left. destruct (Z.eqb_spec (e_state (entry s i)) ST_LIVE) as [E|]; [|done].
    pose proof (ok_val _ _ (wf_entry s Hwf i Hi) E).
    rewrite run_arena_slice by lia. cbn [fst]. by rewrite (around_region s s' i) by (done || lia).
  - rewrite Es, El. destruct (Z.eqb_spec (e_state (entry s i)) ST_LIVE) as [E|]; [|by left].
    specialize (Hb E). rewrite run_arena_slice by lia. cbn [fst]. rewrite mem_read_zero. auto.
  - destruct (Z.eqb_spec (e_state (entry s' i)) ST_LIVE) as [E|E].
    + pose proof (len_nonneg v). rewrite El, run_arena_slice by lia. cbn [fst]. rewrite Hm, Hv. auto.
    + left. destruct Hst as [Hst|]; [|done]. rewrite <- Hst.
      destruct (Z.eqb_spec (e_state (entry s' i)) ST_LIVE); done.
  - rewrite Hn. auto.
Qed.

Lemma half_reads s' key : half_updated s' -> left_over s k (read_of new) key (reads s' key).
Proof using Hwf Hi Hne Hk.
  intros H. destruct H as (Har & Hrest). pose proof (conj Har Hrest : half_updated s') as H.
  pose proof (half_hit s' key H) as Hhit. pose proof (half_nonempty s' H) as Hne'.
  destruct (decide (key = k)) as [->|Hkey].
  - assert (reads s' k = bucket_read s' i) as ->; [|by apply half_value].
    apply (reads_here s); [done|done| |rewrite <- Hk; by apply (wf_chain s Hwf)|by apply Hhit|done].
    intros j Hj Hij Hnj E. apply Hj, (wf_unique s Hwf); congruence.
  - left. destruct (key_cases s key) as [(j & Hj & Hnj & Ej)|Hno].
    + apply (reads_elsewhere s s' i key) with (j := j); try done; [congruence|].
      intros _ E%Hhit. congruence.
    + rewrite get_no_key by done. apply (reads_nowhere s s' i); [done|done| |].
      * intros j _. apply Hno.
      * intros E%Hhit. congruence.
Qed.
End found.

Section new.
Variables (v : bytes) (dirty : bool).

(** A bucket on its way to hold [k] with value [v]. *)
Definition half_claimed (s' : Segment) : Prop :=
  let e := entry s i in
  let e' := entry s' i in
  around s s' i /\ used s <= used s' <= ARENA_SIZE /\
  ((e_state e' = e_state e /\ (e_hash e' = e_hash e \/ e_hash e' = fnv1a k)) \/
   (e_state e' = ST_LIVE /\ e_flags e' = set_dirty dirty (e_flags e) /\
    used s + len v + len k <= used s' /\ e_hash e' = fnv1a k /\
    0 <= e_key_off e' /\ e_key_len e' = len k /\ e_key_off e' + len k <= used s' /\
    mem_read (arena s') (e_key_off e') (len k) = k /\
    0 <= e_val_off e' /\ e_val_len e' = len v /\ e_val_off e' + len v <= used s' /\
    mem_read (arena s') (e_val_off e') (len v) = v)).

Hypothesis Hcl : claimable s i.
Hypothesis Hno : no_key s k.
Hypothesis Hreach : reachable s k i.

Lemma claimed_reads s' key :
  (forall j, in_index j -> state_of s j <> ST_EMPTY -> fnv1a (key_of s j) = fnv1a key -> key_of s j = key) ->
  (fnv1a k = fnv1a key -> k = key) ->
  half_claimed s' -> left_over s k (Value v) key (reads s' key).
Proof using Hwf Hi Hcl Hno Hreach.
  intros Hc1 Hc2 (Har & Hu & H). assert (ARENA_SIZE < 2 ^ 63) by done.
  assert (state_of s i <> ST_LIVE) as Hnl by (destruct Hcl as [E|[E _]]; rewrite E; done).
  destruct (decide (key = k)) as [->|Hkey].
  - destruct H as [(Es & _)|(Es & _ & _ & Eh & H1 & H2 & H3 & H4 & H5 & H6 & H7 & H8)].
    + left. rewrite get_no_key by done. apply (reads_nowhere s s' i); [done|done| |].
      * intros j _. apply Hno.
      * intros _. unfold state_of in *. by rewrite Es.
    + right. split; [done|right].
      assert (hit s' k i) as Hh.
      { split; [done|]. rewrite H2, run_arena_eq by (pose proof (len_nonneg k); lia). cbn [fst].
        by rewrite H4, bool_decide_eq_true_2. }
      rewrite (reads_here s s' i k); try done; [| |unfold state_of; by rewrite Es].
      * unfold bucket_read, state_of. rewrite Es, H6, run_arena_slice by (pose proof (len_nonneg v); lia).
        cbn [fst]. by rewrite H8.
      * intros j _. apply Hno.
  - left. assert (state_of s' i <> ST_EMPTY -> hit s' key i -> state_of s i <> ST_EMPTY /\
        key_of s i = key /\ state_of s' i = state_of s i) as Hhit.
    { intros Hne [Hh _]. unfold state_of in *. destruct H as [(Es & Eh)|(_ & _ & _ & Eh & _)].
      - rewrite Es in *. destruct Eh as [Eh|Eh]; [|by destruct Hkey; symmetry; apply Hc2; congruence].
        split_and!; [done| |done]. apply Hc1; [done..|].
        by rewrite <- (ok_hash _ _ (wf_entry s Hwf i Hi) Hne), <- Eh.
      - destruct Hkey. symmetry. apply Hc2. congruence. }
    assert (state_of s i <> ST_EMPTY -> state_of s' i <> ST_EMPTY) as Hfull.
    { unfold state_of. destruct H as [(-> & _)|(-> & _)]; done. }
    assert (hit s' key i -> state_of s' i <> ST_LIVE) as Hdead.
    { intros Hh E. destruct Hhit as (_ & _ & E'); [by rewrite E|done|congruence]. }
    destruct (key_cases s key) as [(j & Hj & Hnj & Ej)|Hnk].
    + destruct (decide (j = i)) as [->|Hji].
      * rewrite <- Ej, get_at by done. destruct (Z.eqb_spec (state_of s i) ST_LIVE); [done|].
        rewrite Ej. apply (reads_nowhere s s' i); [done|done| |done].
        intros b Hb Hib Hnb E. apply Hb, (wf_unique s Hwf); congruence.
      * apply (reads_elsewhere s s' i key) with (j := j); try done.
        intros Hne Hh. destruct (Hhit Hne Hh) as (H1 & H2 & _).
        apply Hji, (wf_unique s Hwf); congruence.
    + rewrite get_no_key by done. apply (reads_nowhere s s' i); [done|done| |done].
      intros j _. apply Hnk.
Qed.
End new.
End shapes.
