(* ===== verification/KilledThms.v ===== *)
(** A writer killed at any memory access of [put] or [remove] leaves every key
    readable: its own key old, new or empty, every other key as it was.  Inside
    a compaction there is no such promise; KilledDeep says what there is. *)

From S2P Require Import Prelude Consts Hash Spec Segment Shm ShmInv ShmProbe ShmOps SeqCount ShmWrite ShmCompact ShmRefine ShmCommit ShmTrace Race RaceInv RaceOps RaceThms Killed.

(** * Every prefix of a program *)

Lemma guards_mono {A} (G G' : Segment -> Segment -> Prop) (p : prog A) s :
  (forall s s', G s s' -> G' s s') -> guards G p s -> guards G' p s.
Proof. intros H Hp. apply (guards_weaken G G' (fun _ => True)); auto. Qed.

Lemma advance_prefix {A} (P : Segment -> Prop) n (p : prog A) s :
  P s -> guards1 (fun _ s' => P s') p s -> P (snd (advance n p s)).
Proof.
  revert p s; induction n as [|n IH]; intros p s Hs Hp; [done|]. cbn [advance].
  destruct p; cbn [pstep] in *; cbn [guards1] in Hp; apply IH; try tauto; by destruct Hp.
Qed.

(** The copies being byte-wise. *)
Lemma prefix {A} (P : Segment -> Prop) n (p : prog A) s :
  P s -> guards (fun _ s' => P s') p s -> P (snd (advance n (bytewise p) s)).
Proof. intros Hs Hp. apply advance_prefix; [done|]. by apply guards_bytewise. Qed.

(** * The stores of an update, one by one *)

Section update.
Variables (s : Segment) (i : Z).
Hypothesis Hwf : wf s.
Hypothesis Hi : in_index i.

(** Bucket [i] is [e], the arena satisfies [A] and [u] bytes of it are in use. *)
Definition stage (e : IndexEntry) (A : gmap Z Z -> Prop) (u : Z) (s' : Segment) : Prop :=
  around s s' i /\ entry s' i = e /\ A (arena s') /\ used s' = u.

Lemma stage_store e A u c v s' :
  cell_entry c = Some i -> stage e A u s' -> stage (entry_store c v e) A u (store c v s').
Proof.
  intros Hc (Ha & He & HA & Hu). split_and!; [apply around_store; auto| |by rewrite arena_store|].
  - by rewrite entry_store_same, He.
  - by rewrite used_store by (by intros ->).
Qed.

Lemma stage_book e A u c v s' :
  cell_entry c = None -> c <> CArenaUsed -> stage e A u s' -> stage e A u (store c v s').
Proof.
  intros Hc Hcu (Ha & He & HA & Hu). split_and!; [apply around_store; auto| |by rewrite arena_store|].
  - by rewrite entry_store_other by congruence.
  - by rewrite used_store.
Qed.

(** The bump pointer moves on. *)
Lemma stage_bump e A u v s' : stage e A u s' -> stage e A v (store CArenaUsed v s').
Proof.
  intros (Ha & He & HA & Hu). split_and!; [apply around_store; auto| |by rewrite arena_store|].
  - by rewrite entry_store_other.
  - by seg_simpl.
Qed.

Lemma stage_write e A u off bs s' :
  used s <= off -> (forall m, A m -> A (mem_write m off bs)) ->
  stage e A u s' -> stage e A u (arena_write off bs s').
Proof.
  intros Hu HA (Ha & He & H & Hu'). split_and!; [by apply around_write|done|by apply HA|done].
Qed.

(** What single bytes from [lo] on do not disturb, a copy from [lo] on does not
    either. *)
Definition undisturbed (lo : Z) (A : gmap Z Z -> Prop) : Prop :=
  forall m x b, lo <= x -> A m -> A (mem_write m x [b]).

Lemma undisturbed_copy lo A off bs m :
  undisturbed lo A -> lo <= off -> A m -> A (mem_write m off bs).
Proof.
  intros HA. revert off m; induction bs as [|b bs IH]; intros off m Hl Hm; [done|].
  cbn [mem_write]. apply IH; [lia|]. by apply (HA m off b).
Qed.

(** The bytes [bs] are at [off]. *)
Definition holds (off : Z) (bs : bytes) (m : gmap Z Z) : Prop := mem_read m off (len bs) = bs.

Lemma undisturbed_holds lo off bs : off + len bs <= lo -> undisturbed lo (holds off bs).
Proof.
  intros Hlo m x b Hx H. unfold holds. rewrite mem_read_write_disjoint; [done|]. left. lia.
Qed.

Lemma undisturbed_and lo A B :
  undisturbed lo A -> undisturbed lo B -> undisturbed lo (fun m => A m /\ B m).
Proof. intros HA HB m x b Hx [H1 H2]. split; auto. Qed.

Lemma guards_stage_write e A u off bs s' :
  used s <= off -> undisturbed off A ->
  stage e A u s' -> guards_write (fun _ s' => stage e A u s') off bs s'.
Proof.
  revert off s'; induction bs as [|b bs IH]; intros off s' Hu HA Hs; [done|]. cbn [guards_write].
  assert (stage e A u (arena_write off [b] s')) as Hs1.
  { apply stage_write; [done| |done]. intros m. by apply HA. }
  split; [done|]. apply IH; [lia| |done]. intros m x b' Hx. apply HA. lia.
Qed.

(** Allocation touches free arena only. *)
Lemma guards_stage_alloc e A u bs s' :
  0 <= used s -> used s <= u -> u + len bs <= ARENA_SIZE ->
  undisturbed u A -> stage e A u s' ->
  guards (fun _ s' => stage e A u s' \/ stage e A (u + len bs) s') (arena_alloc bs) s' /\
  stage e (fun m => A m /\ holds u bs m) (u + len bs) (snd (run (arena_alloc bs) s')).
Proof.
  intros H0 Hu Hroom HA Hs. destruct Hs as (Har & He & Hm & Eu). subst u.
  assert (stage e A (used s') s') as Hs by done.
  rewrite run_arena_alloc by lia. cbn [snd].
  unfold arena_alloc. pose proof (len_nonneg bs). assert (ARENA_SIZE < 2 ^ 32) by done.
  assert (stage e A (used s') (arena_write (used s') bs s')) as Hs1.
  { apply stage_write; [done| |done]. intros m. by apply (undisturbed_copy (used s')). }
  split; [|eapply stage_bump; destruct Hs1 as (? & ? & ? & ?);
           split_and!; try done; apply mem_read_write_same].
  apply guards_bind; [done|]. rewrite run_loadc. cbn [fst snd load]. fold (used s').
  rewrite wadd_small by lia. destruct (Z.ltb_spec ARENA_SIZE (used s' + len bs)); [lia|].
  split.
  - eapply (guards_write_weaken _ _ (fun _ => True)); [|done|by apply guards_stage_write].
    cbv beta. auto.
  - cbn. split; [|done]. right. by eapply stage_bump.
Qed.
End update.

(** Shapes of a segment that more work at bucket [i] keeps. *)
Section shape.
Variables (s : Segment) (i : Z) (P : Segment -> Prop).

Lemma guards_entry {B} e A u c v (rest : prog B) s' :
  cell_entry c = Some i -> stage s i e A u s' ->
  (forall s', stage s i (entry_store c v e) A u s' -> P s' /\ guards (fun _ s' => P s') rest s') ->
  guards (fun _ s' => P s') (storec c v ;! rest) s'.
Proof.
  intros Hc Hs H. destruct (H (store c v s')) as [H1 H2]; [by apply stage_store|].
  split; done.
Qed.

(** Setting the dirty bit. *)
Lemma guards_dirty {B} e A u (dirty : bool) (rest : prog B) s' :
  let e1 := entry_store (CFlags i) (set_dirty dirty (e_flags e)) e in
  stage s i e A u s' -> P s' ->
  (forall s', stage s i e1 A u s' -> P s') ->
  (forall s', stage s i e1 A u s' -> guards (fun _ s' => P s') rest s') ->
  guards (fun _ s' => P s')
    ((if dirty then rmwc (CFlags i) (fun f => Z.lor f FL_DIRTY) ;! ret tt else ret tt) ;! rest) s'.
Proof.
  cbv zeta. intros Hs HP0 HP HG. destruct dirty; cbn [set_dirty] in *.
  - assert (load (CFlags i) s' = e_flags e) as E by (by destruct Hs as (_ & <- & _)).
    assert (stage s i (entry_store (CFlags i) (Z.lor (e_flags e) FL_DIRTY) e) A u
      (store (CFlags i) (Z.lor (load (CFlags i) s') FL_DIRTY) s')) as Hs'.
    { rewrite E. by apply stage_store. }
    split; [by apply HP|]. by apply HG.
  - apply HG. by destruct e.
Qed.

(** The shapes [put_locked] goes through once the value is in the arena. *)
Definition towards (dirty : bool) (e e' : IndexEntry) (vo n : Z) : Prop :=
  e_hash e' = e_hash e /\ e_key_off e' = e_key_off e /\ e_key_len e' = e_key_len e /\
  ((e_state e' = e_state e /\ e_flags e' = e_flags e /\ e_val_len e' = 0 /\
      (e_val_off e' = e_val_off e \/ e_val_off e' = vo)) \/
   (e_val_off e' = vo /\ e_val_len e' = n /\
    ((e_state e' = e_state e /\
        (e_flags e' = e_flags e \/ e_flags e' = set_dirty dirty (e_flags e))) \/
     (e_state e' = ST_LIVE /\ e_flags e' = set_dirty dirty (e_flags e))))).

Lemma guards_publishing e A u vo val (dirty : bool) s' :
  stage s i e A u s' -> u32 (len val) = len val ->
  (forall e' s', towards dirty e e' vo (len val) -> stage s i e' A u s' -> P s') ->
  guards (fun _ s' => P s')
    (storec (CValLen i) 0 ;!
     storec (CValOff i) vo ;!
     storec (CValLen i) (u32 (len val)) ;!
     (if dirty then rmwc (CFlags i) (fun f => Z.lor f FL_DIRTY) ;! ret tt else ret tt) ;!
     storec (CState i) ST_LIVE ;!
     ret (Ok tt)) s'.
Proof.
  intros Hs Hu HP. destruct e as [eh ko kl vo0 vl st fl].
  eapply guards_entry; [done|exact Hs|]; clear s' Hs; intros s' Hs.
  split; [eapply HP; [|exact Hs]; split_and!; auto 10|].
  eapply guards_entry; [done|exact Hs|]; clear s' Hs; intros s' Hs.
  split; [eapply HP; [|exact Hs]; split_and!; auto 10|].
  rewrite Hu. eapply guards_entry; [done|exact Hs|]; clear s' Hs; intros s' Hs.
  assert (P s') as HPs by (eapply HP; [|exact Hs]; split_and!; auto 10).
  split; [done|]. eapply guards_dirty; [exact Hs|done|..]; clear s' Hs HPs; intros s' Hs; cbn [e_flags] in Hs.
  - eapply HP; [|exact Hs]. split_and!; auto 10.
  - eapply guards_entry; [done|exact Hs|]; clear s' Hs; intros s' Hs.
    split; [|done]. eapply HP; [|exact Hs]. split_and!; auto 10.
Qed.
End shape.

(** * The updates *)

Section killed.
Variables (s : Segment) (i : Z) (k : bytes) (dirty : bool).
Hypothesis Hwf : wf s.
Hypothesis Hi : in_index i.

(** The bookkeeping stores keep the shapes. *)
Lemma half_updated_book new c v s' :
  cell_entry c = None -> c <> CArenaUsed ->
  half_updated s i new dirty s' -> half_updated s i new dirty (store c v s').
Proof.
  intros Hc Hu (Ha & H). split; [apply around_store; auto|].
  rewrite entry_store_other, arena_store, used_store by congruence. exact H.
Qed.

Lemma half_claimed_book val c v s' :
  cell_entry c = None -> c <> CArenaUsed ->
  half_claimed s i k val dirty s' -> half_claimed s i k val dirty (store c v s').
Proof.
  intros Hc Hu (Ha & H). split; [apply around_store; auto|].
  rewrite entry_store_other, arena_store, used_store by congruence. exact H.
Qed.

Lemma stage_start c v A :
  cell_entry c = None -> c <> CArenaUsed -> A (arena s) ->
  stage s i (entry s i) A (used s) (store c v s).
Proof.
  intros Hc Hu HA. apply stage_book; [done..|]. by split_and!; try apply around_same.
Qed.

(** A bucket not yet touched. *)
Lemma untouched_updated new A u s' :
  used s <= u <= ARENA_SIZE -> stage s i (entry s i) A u s' -> half_updated s i new dirty s'.
Proof. intros Hu (Ha & He & _ & Eu). split; [done|]. rewrite He, Eu. auto 10. Qed.

Lemma untouched_claimed val e A u s' :
  used s <= u <= ARENA_SIZE -> e_state e = e_state (entry s i) ->
  e_hash e = e_hash (entry s i) \/ e_hash e = fnv1a k ->
  stage s i e A u s' -> half_claimed s i k val dirty s'.
Proof. intros Hu Es Eh (Ha & He & _ & Eu). split; [done|]. rewrite He, Eu. auto. Qed.

(** A value replaced. *)
Lemma replacing_guards val s1 :
  used s + len val <= ARENA_SIZE -> stage s i (entry s i) (fun _ => True) (used s) s1 ->
  guards (fun _ s' => half_updated s i (Some val) dirty s')
    (put_locked i true k val (fnv1a k) dirty) s1.
Proof using Hwf Hi.
  intros Hroom Hs1. pose proof (wf_used s Hwf). pose proof (len_nonneg val).
  assert (ARENA_SIZE < 2 ^ 32) by done.
  destruct (guards_stage_alloc s i (entry s i) (fun _ => True) (used s) val s1)
    as [Hg Hs2]; try done; try lia.
  unfold put_locked. apply guards_bind.
  { revert Hg. apply guards_mono. intros _ s' [H'|H']; eapply untouched_updated, H'; lia. }
  destruct Hs1 as (_ & _ & _ & Hu1). rewrite run_arena_alloc by lia.
  rewrite run_arena_alloc in Hs2 by lia. cbn [fst snd] in *.
  rewrite Hu1 in *. set (s2 := store CArenaUsed _ _) in *. clearbody s2. clear Hg.
  assert (forall s', stage s i (entry s i) (fun m => True /\ holds (used s) val m) (used s + len val) s' ->
    guards (fun _ s' => half_updated s i (Some val) dirty s')
      (storec (CValLen i) 0 ;!
       storec (CValOff i) (used s) ;!
       storec (CValLen i) (u32 (len val)) ;!
       (if dirty then rmwc (CFlags i) (fun f => Z.lor f FL_DIRTY) ;! ret tt else ret tt) ;!
       storec (CState i) ST_LIVE ;!
       ret (Ok tt)) s') as Hpub.
  { intros s' Hs'. eapply guards_publishing; [exact Hs'|apply u32_small; lia|].
    clear s' Hs'. intros e' s' (E1 & E2 & E3 & E) (Ha & <- & (_ & Hh) & Eu).
    split; [done|]. rewrite Eu. split; [lia|]. split; [clear -E; tauto|].
    split_and!; try done. destruct E as [(Es & _ & El & Eo)|(Eo & El & E)].
    - right. left. split_and!; [done..|]. intros El'.
      pose proof (ok_val _ _ (wf_entry s Hwf i Hi) El'). destruct Eo as [->| ->]; lia.
    - right. right. left. exists val. rewrite Eo, El. split_and!; try done; try lia; try (clear -E; tauto). }
  apply guards_bind.
  - apply guards_bind; [done|]. rewrite run_loadc. cbn [fst snd]. apply guards_bind; [|done].
    destruct (load (CState i) s2 =? ST_LIVE); [|done]. apply guards_bind; [done|]. rewrite run_loadc. cbn [fst snd].
    split; [|done]. apply half_updated_book; [done..|]. eapply untouched_updated, Hs2. lia.
  - run_simpl. destruct (load (CState i) s2 =? ST_LIVE); run_simpl; apply Hpub; [|done].
    by apply stage_book.
Qed.

(** A value for a new key. *)
Lemma claiming_guards val s1 :
  used s + (len k + len val) <= ARENA_SIZE -> stage s i (entry s i) (fun _ => True) (used s) s1 ->
  guards (fun _ s' => half_claimed s i k val dirty s')
    (put_locked i false k val (fnv1a k) dirty) s1.
Proof using Hwf Hi.
  intros Hroom Hs1. pose proof (wf_used s Hwf). pose proof (len_nonneg val).
  pose proof (len_nonneg k). assert (ARENA_SIZE < 2 ^ 32) by done.
  destruct (guards_stage_alloc s i (entry s i) (fun _ => True) (used s) val s1)
    as [Hg Hs2]; try done; try lia.
  unfold put_locked. apply guards_bind.
  { revert Hg. apply guards_mono. intros _ s' [H'|H']; eapply untouched_claimed, H'; auto; lia. }
  destruct Hs1 as (_ & _ & _ & Hu1). rewrite run_arena_alloc by lia.
  rewrite run_arena_alloc in Hs2 by lia. cbn [fst snd] in *.
  rewrite Hu1 in *. set (s2 := store CArenaUsed _ _) in *.
  assert (used s2 = used s + len val) as Hu2 by (subst s2; by seg_simpl).
  clearbody s2. clear Hg.
  destruct (guards_stage_alloc s i (entry s i) (fun m => True /\ holds (used s) val m)
    (used s + len val) k s2) as [Hg Hs3]; try done; try lia.
  { apply undisturbed_and; [done|]. apply undisturbed_holds. lia. }
  apply guards_bind.
  - apply guards_bind.
    { revert Hg. apply guards_mono. intros _ s' [H'|H']; eapply untouched_claimed, H'; auto; lia. }
    rewrite run_arena_alloc by lia. rewrite run_arena_alloc in Hs3 by lia. cbn [fst snd] in *.
    assert (used s <= used s + len val + len k <= ARENA_SIZE) by lia.
    eapply guards_entry; [done|exact Hs3|]; clear Hs3; intros s3 Hs3.
    split; [eapply untouched_claimed, Hs3; try done; destruct (entry s i); auto|].
    eapply guards_entry; [done|exact Hs3|]; clear s3 Hs3; intros s3 Hs3.
    split; [eapply untouched_claimed, Hs3; try done; destruct (entry s i); auto|].
    eapply guards_entry; [done|exact Hs3|]; clear s3 Hs3; intros s3 Hs3.
    split; [|done]. eapply untouched_claimed, Hs3; try done; destruct (entry s i); auto.
  - run_simpl. rewrite run_arena_alloc by lia. rewrite run_arena_alloc in Hs3 by lia.
    cbn [fst snd] in *. rewrite Hu2 in *. run_simpl.
    apply (stage_store s i _ _ _ (CKeyOff i) (used s + len val)) in Hs3; [|done].
    apply (stage_store s i _ _ _ (CKeyLen i) (u32 (len k))) in Hs3; [|done].
    apply (stage_store s i _ _ _ (CHash i) (fnv1a k)) in Hs3; [|done].
    eapply guards_publishing; [exact Hs3|apply u32_small; lia|].
    clear Hs3 Hs2 Hg. intros e' s' (E1 & E2 & E3 & E) (Ha & <- & ((_ & Hv) & Hk) & Eu).
    split; [done|]. revert E1 E2 E3 E. rewrite Eu. cbv zeta.
    destruct (entry s i) as [eh ko kl vo vl st fl]. cbn.
    rewrite (u32_small (len k)) by lia. intros E1 E2 E3 E. split; [lia|].
    destruct E as [(Es & _)|(Eo & El & [(Es & _)|(Es & Ef)])]; [left; by auto..|right].
    rewrite E1, E2, E3, Eo, El, Ef. split_and!; try done; lia.
Qed.

(** A value removed. *)
Lemma removing_guards s1 :
  state_of s i = ST_LIVE -> stage s i (entry s i) (fun _ => True) (used s) s1 ->
  guards (fun _ s' => half_updated s i None dirty s') (remove_body i dirty) s1.
Proof using Hwf Hi.
  intros Hl Hs1. unfold remove_body. apply guards_bind; [done|]. rewrite run_loadc. cbn [fst snd].
  pose proof (ok_val _ _ (wf_entry s Hwf i Hi) Hl) as Hov. pose proof (wf_used s Hwf).
  apply (stage_book s i _ _ _ CArenaGarbage (wadd (load CArenaGarbage s1) (load (CValLen i) s1)))
    in Hs1; [|done..].
  split; [eapply untouched_updated, Hs1; lia|].
  set (s2 := store _ _ s1) in *. clearbody s2.
  assert (forall e s', stage s i e (fun _ => True) (used s) s' ->
    e_flags e = e_flags (entry s i) \/ e_flags e = set_dirty dirty (e_flags (entry s i)) ->
    e_hash e = e_hash (entry s i) -> e_key_off e = e_key_off (entry s i) ->
    e_key_len e = e_key_len (entry s i) ->
    (e_state e = e_state (entry s i) /\ e_val_len e = 0 /\ e_val_off e = e_val_off (entry s i) \/
     e_state e = ST_TOMB) -> half_updated s i None dirty s') as HP.
  { intros e s' (Ha & He & _ & Eu) Ef E1 E2 E3 E. split; [done|]. rewrite He, Eu.
    split; [lia|]. split_and!; [done..|]. destruct E as [(Es & El & Eo)|Es]; [|by auto 10].
    right. left. split_and!; [done..|]. intros _. rewrite Eo. lia. }
  clear Hov. destruct (entry s i) as [eh ko kl vo vl st fl]. cbn in *.
  eapply guards_entry; [done|exact Hs1|]; clear Hs1; intros s3 Hs3.
  assert (half_updated s i None dirty s3) as Hs by (eapply HP; [exact Hs3|auto..]).
  split; [done|]. eapply guards_dirty; [exact Hs3|done|..]; clear s3 Hs3 Hs; intros s3 Hs3; cbn [e_flags] in Hs3.
  - eapply HP; [exact Hs3|auto..].
  - split; [|done]. eapply HP; [apply stage_store; [done|exact Hs3]|auto..].
Qed.
End killed.

(** * Whole operations *)

(** [seq_begin], [body] and [seq_end] keep what [body] keeps. *)
Lemma guards_bracket {A} (P : Segment -> Prop) k (body : prog A) s :
  (forall c v s', cell_entry c = None -> c <> CArenaUsed -> P s' -> P (store c v s')) -> P s ->
  guards (fun _ s' => P s') body (store (CSlot k) (next_odd (slot s k)) s) ->
  guards (fun _ s' => P s')
    (seq_begin k ;! (let! a := body in seq_end k ;! ret a)) s.
Proof.
  intros Hbook Hs Hb. set (s1 := store _ _ s) in *.
  assert (P s1) as Hs1 by (by apply Hbook).
  apply guards_bind; [by split|]. rewrite run_seq_begin. cbn [fst snd]. fold s1.
  apply guards_bind; [done|].
  assert (P (snd (run body s1))) as Hs2.
  { by apply (guards_weaken (fun _ s' => P s') (fun _ s' => P s') P body s1 ltac:(auto)). }
  set (s2 := snd (run body s1)) in *. clearbody s2.
  apply guards_bind; [|done]. unfold seq_end. apply guards_bind; [done|].
  rewrite run_loadc. cbn [fst snd]. split; [by apply Hbook|].
  split; [|done]. apply Hbook; [done..|]. by apply Hbook.
Qed.

(** Undisturbed, a key reads as what it is. *)
Lemma reads_wf s key : wf s -> reads s key = read_of (Spec.get (view s) key).
Proof.
  intros Hwf. unfold reads. destruct (run_repair_seq (key_slot key) s) as (_ & Hk & Ha & _ & Hd).
  set (s' := snd (run (repair_seq (key_slot key)) s)) in *. clearbody s'.
  rewrite run_read_value; [by rewrite <- (view_proper _ _ Hd)|by eapply same_data_wf| |].
  - rewrite Hk. apply repaired_even.
  - rewrite Ha. apply repaired_even.
Qed.

(** The keys of [s] and [k] that share the hash of [key] are [key] itself. *)
Definition unambiguous (s : Segment) (k key : bytes) : Prop :=
  (forall j, in_index j -> state_of s j <> ST_EMPTY ->
     fnv1a (key_of s j) = fnv1a key -> key_of s j = key) /\
  (fnv1a k = fnv1a key -> k = key).

(** Where a put of [k] without a compaction may stop: before its first store,
    in the middle of replacing the value of [k], or of a bucket it gives to [k]. *)
Definition halfway_put (s : Segment) (k val : bytes) (dirty : bool) (s' : Segment) : Prop :=
  s' = s \/
  (exists i, in_index i /\ state_of s i <> ST_EMPTY /\ key_of s i = k /\
     half_updated s i (Some val) dirty s') \/
  (exists i, fst (run (probe k (fnv1a k)) s) = Some (i, false) /\
     in_index i /\ claimable s i /\ no_key s k /\ reachable s k i /\
     half_claimed s i k val dirty s').

Definition halfway_remove (s : Segment) (k : bytes) (dirty : bool) (s' : Segment) : Prop :=
  s' = s \/
  (exists i, in_index i /\ state_of s i = ST_LIVE /\ key_of s i = k /\
     half_updated s i None dirty s').

Section halfway.
Variables (s : Segment) (k : bytes) (dirty : bool).
Hypothesis Hwf : wf s.

(** [put] once it has found room. *)
Lemma put_tail_guards val :
  used s + (len k + len val) <= ARENA_SIZE ->
  guards (fun _ s' => halfway_put s k val dirty s')
    (let! r := probe k (fnv1a k) in
     match r with
     | None => ret Err
     | Some (i, found) =>
       seq_begin (slot_of (fnv1a k)) ;!
       let! res := put_locked i found k val (fnv1a k) dirty in
       seq_end (slot_of (fnv1a k)) ;!
       ret res
     end) s.
Proof using Hwf.
  intros Hroom. pose proof (wf_used s Hwf). pose proof (len_nonneg k). pose proof (len_nonneg val).
  destruct (run_probe s k Hwf) as (pr & Hpr & Hpost).
  apply guards_bind; [apply guards_looks, looks_probe|]. rewrite Hpr. cbn [fst snd].
  destruct pr as [[i found]|]; [|done]. fold (key_slot k).
  set (s1 := store (CSlot (key_slot k)) (next_odd (slot s (key_slot k))) s).
  assert (stage s i (entry s i) (fun _ => True) (used s) s1) as Hs1 by by apply stage_start.
  destruct found.
  - destruct Hpost as (Hi & Hne & Hk).
    apply (guards_mono (fun _ s' => half_updated s i (Some val) dirty s')); [|apply guards_bracket].
    + intros _ s' Hs'. right. left. by exists i.
    + intros c v s'. apply half_updated_book.
    + eapply (untouched_updated s i dirty _ (fun _ => True) (used s)); [lia|].
      split; [by apply around_same|done].
    + apply replacing_guards; try done. lia.
  - destruct Hpost as (Hi & Hcl & Hno & Hreach).
    apply (guards_mono (fun _ s' => half_claimed s i k val dirty s')); [|apply guards_bracket].
    + intros _ s' Hs'. right. right. exists i. by rewrite Hpr.
    + intros c v s'. apply half_claimed_book.
    + eapply (untouched_claimed s i k dirty _ _ (fun _ => True) (used s)); [lia|done|by left|].
      split; [by apply around_same|done].
    + by apply claiming_guards.
Qed.

Lemma put_halfway val n :
  needs_compact s (len k + len val) = false ->
  halfway_put s k val dirty (snd (advance n (bytewise (put k val dirty)) s)).
Proof using Hwf.
  intros Hc. pose proof (wf_used s Hwf). pose proof (len_nonneg k). pose proof (len_nonneg val).
  assert (ARENA_SIZE < 2 ^ 32) by done.
  assert (used s + (len k + len val) <= ARENA_SIZE) as Hroom.
  { unfold needs_compact in Hc. destruct (Z.leb_spec (used s + (len k + len val)) ARENA_SIZE); done. }
  set (P s' := halfway_put s k val dirty s').
  assert (P s) as HP by by left.
  apply (prefix P); [done|]. unfold put.
  apply guards_bind; [apply guards_looks, looks_holds_value|].
  rewrite run_holds_value by done. cbn [fst snd]. destruct (bool_decide _); [done|].
  rewrite wadd_small by lia.
  pose proof (ensure_space_segment k (len k + len val) s Hwf ltac:(lia)) as Hseg. rewrite Hc in Hseg.
  apply guards_bind.
  { unfold ensure_space, needs_compact in *. generalize compact as c. intros c.
    apply guards_bind; [done|]. rewrite run_loadc. cbn [fst snd load]. fold (used s).
    rewrite wadd_small by lia. destruct (used s + _ <=? ARENA_SIZE); [|done].
    apply guards_bind; [done|]. rewrite run_loadc. cbn [fst snd load]. fold (garbage s).
    by rewrite Hc. }
  rewrite Hseg. destruct (fst (run (ensure_space _) s)) as [[]|]; [|done].
  by apply put_tail_guards.
Qed.

Lemma remove_halfway n :
  halfway_remove s k dirty (snd (advance n (bytewise (remove k dirty)) s)).
Proof using Hwf.
  set (P s' := halfway_remove s k dirty s').
  assert (P s) as HP by by left. pose proof (wf_used s Hwf).
  apply (prefix P); [done|]. unfold remove.
  destruct (run_probe s k Hwf) as (pr & Hpr & Hpost).
  apply guards_bind; [apply guards_looks, looks_probe|]. rewrite Hpr. cbn [fst snd].
  destruct pr as [[i [|]]|]; [|done..]. destruct Hpost as (Hi & Hne & Hk).
  apply guards_bind; [done|]. rewrite run_loadc. cbn [fst snd load]. fold (state_of s i).
  destruct (Z.eqb_spec (state_of s i) ST_LIVE) as [El|]; [|done]. cbn [negb].
  fold (key_slot k).
  match goal with |- guards _ ?q s => assert (q =
    (seq_begin (key_slot k) ;!
      (let! a := remove_body i dirty ;! ret true in seq_end (key_slot k) ;! ret a))) as ->
    by (by destruct dirty) end.
  apply (guards_mono (fun _ s' => half_updated s i None dirty s')); [|apply guards_bracket].
  - intros _ s' Hs'. right. by exists i.
  - intros c v s'. apply half_updated_book.
  - eapply (untouched_updated s i dirty _ (fun _ => True) (used s)); [lia|].
    split; [by apply around_same|done].
  - apply guards_bind; [|done]. apply removing_guards; try done; by apply stage_start.
Qed.
End halfway.

Section leaves.
Variables (s : Segment) (k key : bytes).
Hypothesis Hwf : wf s.
Hypothesis Hclear : unambiguous s k key.

Lemma halfway_put_reads val dirty s' :
  halfway_put s k val dirty s' -> left_over s k (Value val) key (reads s' key).
Proof using Hwf Hclear.
  intros [->|[(i & Hi & Hne & Hk & H)|(i & H)]].
  - left. by apply reads_wf.
  - by apply (half_reads s i k Hwf Hi (Some val) dirty).
  - destruct H as (_ & Hi & Hcl & Hno & Hreach & H). destruct Hclear as [Hc1 Hc2].
    by apply (claimed_reads s i k Hwf Hi val dirty).
Qed.

Lemma put_leaves val dirty n :
  needs_compact s (len k + len val) = false ->
  left_over s k (Value val) key (reads (snd (advance n (bytewise (put k val dirty)) s)) key).
Proof using Hwf Hclear.
  intros Hc. eapply halfway_put_reads. by apply put_halfway.
Qed.

Lemma remove_leaves dirty n :
  left_over s k Absent key (reads (snd (advance n (bytewise (remove k dirty)) s)) key).
Proof using Hwf.
  destruct (remove_halfway s k dirty Hwf n) as [->|(i & Hi & Hl & Hk & H)].
  - left. by apply reads_wf.
  - apply (half_reads s i k Hwf Hi None dirty); try done. by rewrite Hl.
Qed.
End leaves.

(** C10: a writer killed at any of its memory accesses (its copies into the
    arena byte by byte) loses no other key and mangles none: once the counters
    are repaired every other key reads as before, and the key being written
    reads as before, as the new value, or, the worst case, empty; a key being
    removed reads as before, as absent, or empty.  This is for updates that
    find room without compacting, and for keys whose 64-bit hashes differ. *)
Theorem killed_writer_mangles_nothing (s : Segment) (k val key : bytes) (dirty : bool) (n : nat) :
  wf s -> unambiguous s k key -> needs_compact s (len k + len val) = false ->
  left_over s k (Value val) key (reads (snd (advance n (bytewise (put k val dirty)) s)) key) /\
  left_over s k Absent key (reads (snd (advance n (bytewise (remove k dirty)) s)) key).
Proof.
  intros Hwf Hclear Hc. split; [by apply put_leaves|by apply remove_leaves].
Qed.

(** The hypothesis, computed. *)
Definition hashes_apart (s : Segment) (k key : bytes) : bool :=
  forallb (fun j => (state_of s j =? ST_EMPTY) || negb (fnv1a (key_of s j) =? fnv1a key) ||
                    bool_decide (key_of s j = key)) buckets &&
  (negb (fnv1a k =? fnv1a key) || bool_decide (k = key)).

Lemma hashes_apart_unambiguous s k key : hashes_apart s k key = true -> unambiguous s k key.
Proof.
  unfold hashes_apart. intros [H1 H2]%andb_true_iff. split.
  - intros j Hj Hne Hh. rewrite forallb_forall in H1.
    specialize (H1 j ltac:(by apply list_elem_of_In, buckets_in)).
    rewrite (proj2 (Z.eqb_neq _ _) Hne), Hh, Z.eqb_refl in H1. by apply bool_decide_eq_true in H1.
  - intros Hh. rewrite Hh, Z.eqb_refl in H2. by apply bool_decide_eq_true in H2.
Qed.

(** "al" holding "0" while "11" is put: old, empty and new. *)
Lemma killed_writer_mangles_nothing_witness :
  let at_access n := reads (snd (advance n (bytewise (put key_al [49; 49] true)) seg_al)) key_al in
  wf seg_al /\ at_access 10%nat = Value [48] /\ at_access 27%nat = Value [] /\
  at_access 40%nat = Value [49; 49] /\
  left_over seg_al key_al (Value [49; 49]) key_al (at_access 27%nat).
Proof.
  assert (wf seg_al) as Hwf.
  { apply apply_wf; [apply fresh_wf, zero_segment_fresh|]. vm_compute. done. }
  intros at_access. split; [exact Hwf|]. split_and!.
  - vm_compute. reflexivity.
  - vm_compute. reflexivity.
  - vm_compute. reflexivity.
  - apply (killed_writer_mangles_nothing seg_al key_al [49; 49] key_al true 27).
    + exact Hwf.
    + apply hashes_apart_unambiguous. vm_compute. reflexivity.
    + vm_compute. reflexivity.
Defined.

(** * What is not survived *)

(** At some access of [p] the segment satisfies [P]. *)
Fixpoint passes {A} (P : Segment -> Prop) (p : prog A) (s : Segment) : Prop :=
  P s \/
  match p with
  | PRet _ => False
  | PLoad c k => passes P (k (load c s)) s
  | PStore c v k => passes P k (store c v s)
  | PRmw c f k => passes P (k (load c s)) (store c (f (load c s)) s)
  | PRead off n k => passes P (k (mem_read (arena s) off n)) s
  | PWrite off bs k => passes P k (arena_write off bs s)
  end.

Lemma passes_here {A} P (p : prog A) s : P s -> passes P p s.
Proof. destruct p; by left. Qed.

Lemma passes_bind {A B} P (m : prog A) (f : A -> prog B) s :
  passes P m s -> passes P (bind m f) s.
Proof.
  revert s; induction m as [a|c k IH|c v k IH|c g k IH|off n k IH|off bs k IH]; intros s [Hp|Hp];
    try (by apply passes_here); right; by apply IH.
Qed.

Lemma passes_after {A B} P (m : prog A) (f : A -> prog B) s :
  passes P (f (fst (run m s))) (snd (run m s)) -> passes P (bind m f) s.
Proof.
  revert s; induction m as [a|c k IH|c v k IH|c g k IH|off n k IH|off bs k IH]; intros s Hp;
    [done|right; by apply IH..].
Qed.

Lemma advance_read_each {A} off n (k : bytes -> prog A) s :
  advance n (read_each off n k) s = (k (mem_read_nat (arena s) off n), s).
Proof. revert off k; induction n as [|n IH]; intros off k; [done|]. apply IH. Qed.

Lemma advance_write_each {A} off bs (k : prog A) s :
  advance (length bs) (write_each off bs k) s = (k, arena_write off bs s).
Proof. revert off s; induction bs as [|b bs IH]; intros off s; [by destruct s|]. apply IH. Qed.

Lemma advance_add {A} n m (p : prog A) s :
  advance (n + m) p s = let (q, s') := advance n p s in advance m q s'.
Proof.
  revert p s; induction n as [|n IH]; intros p s; [done|]. cbn [advance Nat.add].
  destruct (pstep p s). apply IH.
Qed.

Lemma passes_advance {A} P (p : prog A) s :
  passes P p s -> exists n, P (snd (advance n (bytewise p) s)).
Proof.
  revert s; induction p as [a|c k IH|c v k IH|c f k IH|off n k IH|off bs k IH]; intros s [Hp|Hp];
    try (by exists O); apply IH in Hp as [m Hm].
  - by exists (S m).
  - by exists (S m).
  - by exists (S m).
  - exists (Z.to_nat n + m)%nat. cbn [bytewise]. by rewrite advance_add, advance_read_each.
  - exists (length bs + m)%nat. cbn [bytewise]. by rewrite advance_add, advance_write_each.
Qed.

(** A compaction empties the index before it re-inserts anything... *)
Lemma compact_passes_empty s : passes (fun s' => forall key, reads s' key = Absent) compact s.
Proof.
  unfold compact. apply passes_after, passes_after. set (s1 := snd (run arena_begin _)).
  apply passes_after, passes_here. intros key. destruct (run_wipe s1) as (Hf & _).
  rewrite reads_wf by by apply fresh_wf. by rewrite fresh_view.
Qed.

(** ... so a writer that is killed in the middle of one takes every setting
    with it, those of other processes and those already committed included. *)
Theorem killed_compaction_forgets_everything (s : Segment) (k val : bytes) (dirty : bool) :
  wf s -> len k + len val < 2 ^ 63 ->
  needs_compact s (len k + len val) = true -> Spec.get (view s) k <> Some val ->
  exists n, forall key, reads (snd (advance n (bytewise (put k val dirty)) s)) key = Absent.
Proof.
  intros Hwf Hlen Hc Hnew. pose proof (wf_used s Hwf). pose proof (len_nonneg k).
  pose proof (len_nonneg val). assert (ARENA_SIZE < 2 ^ 32) by done.
  apply (passes_advance (fun s' => forall key, reads s' key = Absent)). unfold put. apply passes_after. rewrite run_holds_value by done.
  cbn [fst snd]. rewrite bool_decide_eq_false_2 by done. rewrite wadd_small by lia.
  apply passes_bind. pose proof (compact_passes_empty s) as Hp. revert Hp.
  unfold ensure_space, needs_compact in *. generalize compact as c. intros c Hp.
  apply passes_after. rewrite run_loadc. cbn [fst snd load]. fold (used s).
  rewrite wadd_small by lia. destruct (used s + _ <=? ARENA_SIZE).
  - apply passes_after. rewrite run_loadc. cbn [fst snd load]. fold (garbage s). rewrite Hc.
    by apply passes_bind.
  - by apply passes_bind.
Qed.
