(* ===== verification/Locking.v ===== *)
(** Any number of processes at once.

    Every process runs calls of the C interface as trees of system calls (Lib).
    [serves] is what the kernel may answer: the two SysV semaphores with their
    [SEM_UNDO] adjustments and the creation of shared objects are kept here,
    and any other call may be answered anything.  A segment program takes one
    memory access per step, so critical sections really overlap unless the
    locks keep them apart.  A process may end at any step.

    [obeys] is the locking discipline of one process; LockingThms shows that
    the code keeps it and that it is enough. *)

From S2P Require Import Prelude Consts Hash Names Segment Shm Cache ShmTrace World Sem Attach Store Lib Race.

(** * The kernel *)

(** A semaphore set of one semaphore: the key it was created for, its value,
    and what each process's death would add to it. *)
Record semset := mkSet { ss_key : Z; ss_val : Z; ss_undo : gmap Z Z }.

Record Kernel := mkKernel {
  k_keys : gmap Z Z;
  k_sets : gmap Z semset;
  k_nextset : Z;
  (* who created the objects that are not ready yet *)
  k_owner : gmap Z Z;
  k_nextobj : Z
}.

Definition undo_of (s : semset) (p : Z) : Z := default 0 (ss_undo s !! p).

Definition with_sets (f : gmap Z semset -> gmap Z semset) (K : Kernel) : Kernel :=
  mkKernel (k_keys K) (f (k_sets K)) (k_nextset K) (k_owner K) (k_nextobj K).

(** [semget(key, 1, IPC_CREAT | IPC_EXCL)]: the new semaphore is 0. *)
Definition new_set (key : Z) (K : Kernel) : Kernel :=
  let id := k_nextset K in
  mkKernel (<[key := id]> (k_keys K)) (<[id := mkSet key 0 ∅]> (k_sets K)) (id + 1)
    (k_owner K) (k_nextobj K).

(** [SETVAL] clears the adjustments of every process. *)
Definition set_value (id v : Z) : Kernel -> Kernel :=
  with_sets (alter (fun s => mkSet (ss_key s) v ∅) id).

Definition remove_set (id : Z) (K : Kernel) : Kernel :=
  mkKernel (match k_sets K !! id with Some s => delete (ss_key s) (k_keys K) | None => k_keys K end)
    (delete id (k_sets K)) (k_nextset K) (k_owner K) (k_nextobj K).

(** [semop] with [SEM_UNDO] by process [p]. *)
Definition sem_add (p d : Z) (s : semset) : semset :=
  mkSet (ss_key s) (ss_val s + d) (<[p := undo_of s p - d]> (ss_undo s)).

Definition sem_op (p id d : Z) : Kernel -> Kernel := with_sets (alter (sem_add p d) id).

(** What the kernel does for a process that is gone. *)
Definition release_undo (p : Z) (s : semset) : semset :=
  mkSet (ss_key s) (ss_val s + undo_of s p) (delete p (ss_undo s)).

Definition undo_all (p : Z) : Kernel -> Kernel := with_sets (fmap (release_undo p)).

Definition new_obj (p : Z) (K : Kernel) : Kernel :=
  mkKernel (k_keys K) (k_sets K) (k_nextset K) (<[k_nextobj K := p]> (k_owner K)) (k_nextobj K + 1).

(** The creator of an object makes it ready. *)
Definition publish_obj (p o : Z) (K : Kernel) : Kernel :=
  if bool_decide (k_owner K !! o = Some p) then
    mkKernel (k_keys K) (k_sets K) (k_nextset K) (delete o (k_owner K)) (k_nextobj K)
  else K.

Definition no_kernel : Kernel := mkKernel ∅ ∅ 0 ∅ 0.

Section kernel.
(** The device of the store, which [ftok] makes the keys from. *)
Variable dev : Z.

(** What fits in memory: no slice is longer than [isize::MAX], and nothing the
    kernel hands over is near that. *)
Definition short (bs : bytes) : Prop := len bs < 2 ^ 62.

(** Process [p] asks [c] and gets [r]; of [n] more signals that will interrupt
    it [n'] are left.  On a zero semaphore [SemDown] waits: it is not served.
    Releasing a semaphore that exists does not fail. *)
Definition serves (p : Z) {R} (c : call R) : Kernel -> nat -> R -> Kernel -> nat -> Prop :=
  match c in call R return Kernel -> nat -> R -> Kernel -> nat -> Prop with
  | Ftok proj => fun K n r K' n' =>
      (r = None \/ r = Some (ftok_key dev proj)) /\ K' = K /\ n' = n
  | SemgetExcl key => fun K n r K' n' =>
      n' = n /\
      ((r = SemFailed /\ K' = K) \/
       (r = SemExists /\ is_Some (k_keys K !! key) /\ K' = K) \/
       (r = SemOk (k_nextset K) /\ k_keys K !! key = None /\ K' = new_set key K))
  | Semget key => fun K n r K' n' =>
      (r = None \/ r = k_keys K !! key) /\ K' = K /\ n' = n
  | SemSetval id => fun K n r K' n' =>
      n' = n /\ ((r = false /\ K' = K) \/ (r = true /\ K' = set_value id 1 K))
  | SemRmid id => fun K n r K' n' => K' = remove_set id K /\ n' = n
  | SemDown id => fun K n r K' n' =>
      (r = OpIntr /\ n = S n' /\ K' = K) \/
      (n' = n /\
       ((r = OpFailed /\ K' = K) \/
        (exists s, k_sets K !! id = Some s /\ 0 < ss_val s /\ r = OpOk /\ K' = sem_op p id (-1) K)))
  | SemUp id => fun K n r K' n' =>
      (r = OpIntr /\ n = S n' /\ K' = K) \/
      (n' = n /\
       ((k_sets K !! id = None /\ r = OpFailed /\ K' = K) \/
        (is_Some (k_sets K !! id) /\ r = OpOk /\ K' = sem_op p id 1 K)))
  | ShmCreateExcl => fun K n r K' n' =>
      n' = n /\ ((r = None /\ K' = K) \/ (r = Some (k_nextobj K) /\ K' = new_obj p K))
  | ReadDir => fun K n r K' n' =>
      (forall names, r = Some names -> Forall short names) /\ K' = K /\ n' = n
  | FsRead _ => fun K n r K' n' =>
      (forall bs, r = Some bs -> short bs) /\ K' = K /\ n' = n
  | Seg _ _ | SegAsk _ _ => fun _ _ _ _ _ => False
  | _ => fun K n r K' n' => K' = K /\ n' = n
  end.
End kernel.

(** * The processes *)

(** One call of the C interface. *)
Inductive entry : Type :=
| EGet (name : option bytes)
| ESafeGet (name : option bytes)
| EGetInt (name : option bytes)
| ESet (name value : option bytes)
| EUnset (name : option bytes)
| EGetall (buf : option bytes) (count : Z)
| ECommit
| EClear
| EReset
| EInit.

Section system.
Context `{AL : Allocator}.
Variables (fuel : nat) (dev : Z).

Definition call_entry (e : entry) (g : option Store) : io (option Store) :=
  match e with
  | EGet name => do r <- nvram_get fuel name g; iret (snd r)
  | ESafeGet name => do r <- nvram_safe_get fuel name g; iret (snd r)
  | EGetInt name => do r <- nvram_get_int fuel name g; iret (snd r)
  | ESet name value => do r <- nvram_set fuel name value g; iret (snd r)
  | EUnset name => do r <- nvram_unset fuel name g; iret (snd r)
  | EGetall buf count => do r <- nvram_getall fuel buf count g; iret (snd r)
  | ECommit => do r <- nvram_commit fuel g; iret (snd r)
  | EClear => do r <- nvram_clear fuel g; iret (snd r)
  | EReset => do r <- nvram_reset fuel g; iret (snd r)
  | EInit => do r <- nvram_init fuel g; iret (snd r)
  end.

(** A process makes its calls one after the other. *)
Fixpoint calls (es : list entry) (g : option Store) : io unit :=
  match es with
  | [] => iret tt
  | e :: es' => do g <- call_entry e g; calls es' g
  end.

(** What is left of a process's code, and of the signals it will get. *)
Abbreviation proc := (io unit * nat)%type.

Record config := mkConfig {
  c_kernel : Kernel;
  c_objs : gmap Z Segment;
  c_procs : gmap Z proc
}.

(** A program that makes an object ready. *)
Definition publishes {A} (p : prog A) : bool :=
  match p with PStore CReady _ _ => true | _ => false end.

Definition seg_of (c : config) (o : Z) : Segment := default zero_segment (c_objs c !! o).

Inductive step (c : config) : config -> Prop :=
(* a process is started, or forked between two of its parent's calls *)
| step_start p es g n :
    c_procs c !! p = None -> (n < fuel)%nat ->
    step c (mkConfig (c_kernel c) (c_objs c) (<[p := (calls es g, n)]> (c_procs c)))
(* it ends: killed at any point, or done *)
| step_end p x :
    c_procs c !! p = Some x ->
    step c (mkConfig (undo_all p (c_kernel c)) (c_objs c) (delete p (c_procs c)))
| step_call p R (cl : call R) k n r K' n' :
    c_procs c !! p = Some (ICall cl k, n) ->
    serves dev p cl (c_kernel c) n r K' n' ->
    step c (mkConfig K' (c_objs c) (<[p := (k r, n')]> (c_procs c)))
(* one access of a segment program *)
| step_access p A o (pr : prog A) k n :
    c_procs c !! p = Some (ICall (Seg o pr) k, n) ->
    step c (mkConfig (if publishes pr then publish_obj p o (c_kernel c) else c_kernel c)
              (<[o := snd (pstep pr (seg_of c o))]> (c_objs c))
              (<[p := (ICall (Seg o (fst (pstep pr (seg_of c o)))) k, n)]> (c_procs c)))
| step_finish p A o (a : A) k n :
    c_procs c !! p = Some (ICall (Seg o (PRet a)) k, n) ->
    step c (mkConfig (c_kernel c) (c_objs c) (<[p := (k a, n)]> (c_procs c)))
(* the callback of a program is asked what the disk says, whatever that is *)
| step_ask p A o (pr : (bytes -> Z -> bool) -> prog A) k n ask :
    c_procs c !! p = Some (ICall (SegAsk o pr) k, n) ->
    step c (mkConfig (c_kernel c) (c_objs c) (<[p := (ICall (Seg o (pr ask)) k, n)]> (c_procs c))).

(** After a boot there is nothing. *)
Definition boot : config := mkConfig no_kernel ∅ ∅.

Definition reached (c : config) : Prop := rtc step boot c.

(** The process is inside a segment program, or about to begin one. *)
Definition in_segment (m : io unit) : bool :=
  match m with ICall (Seg _ _) _ | ICall (SegAsk _ _) _ => true | _ => false end.

(** Process [p] holds the lock of [proj]: its death would release it. *)
Definition holds (c : config) (p proj : Z) : Prop :=
  exists id s, k_sets (c_kernel c) !! id = Some s /\ ss_key s = ftok_key dev proj /\ undo_of s p = 1.

(** Process [p] is inside a segment program that may write to object [o]. *)
Definition writing (c : config) (p o : Z) : Prop :=
  exists A (pr : prog A) k n, c_procs c !! p = Some (ICall (Seg o pr) k, n) /\ ~ looks pr.

(** The semaphore a process is about to take, or to give its first value. *)
Definition awaits (m : io unit) : option Z :=
  match m with ICall (SemDown id) _ => Some id | _ => None end.
Definition initialises (m : io unit) : option Z :=
  match m with ICall (SemSetval id) _ | ICall (SemRmid id) _ => Some id | _ => None end.

(** Process [p] waits for a semaphore that is 0. *)
Definition stalled (c : config) (p : Z) : Prop :=
  exists m n id s, c_procs c !! p = Some (m, n) /\ awaits m = Some id /\
    k_sets (c_kernel c) !! id = Some s /\ ss_val s = 0.

Definition can_move (c : config) (p : Z) : Prop :=
  exists m n, c_procs c !! p = Some (m, n) /\ (forall a, m <> IRet a) /\ ~ stalled c p.

(** A semaphore that is 0 although nobody has taken it and nobody is about to
    give it its first value. *)
Definition orphan (c : config) (id : Z) : Prop :=
  (exists s, k_sets (c_kernel c) !! id = Some s /\ ss_val s = 0 /\ forall q, undo_of s q = 0) /\
  (forall q m n, c_procs c !! q = Some (m, n) -> initialises m <> Some id).
End system.
