(* ===== verification/LockingInv.v ===== *)
(** The locking discipline of a process.

    A [belief] is what a process may conclude from the answers it has had:
    which locks it holds, which set it is initialising, which objects it has
    created.  [obeys m b Q]: whatever the answers, [m] run with belief [b] asks
    only for what the discipline allows, and ends in a belief that satisfies
    [Q].  The writer lock comes after the commit lock, and nothing is awaited
    by a process that holds it; a segment program that may write is run by the
    holder of the writer lock, or on an object that is not ready yet by its
    creator. *)

From S2P Require Import Prelude Consts Hash Names Segment Shm Cache ShmTrace World Disk Sem Attach Store Lib Race Locking.

Record belief := mkBelief {
  b_writer : option Z;
  b_commit : option Z;
  b_new : option Z;
  (* what the keys and semaphores are for *)
  b_keys : gmap Z Z;
  b_sems : gmap Z Z;
  b_mine : gset Z;
  b_intr : nat
}.

Definition with_writer (w : option Z) (b : belief) : belief :=
  mkBelief w (b_commit b) (b_new b) (b_keys b) (b_sems b) (b_mine b) (b_intr b).
Definition with_commit (w : option Z) (b : belief) : belief :=
  mkBelief (b_writer b) w (b_new b) (b_keys b) (b_sems b) (b_mine b) (b_intr b).
Definition with_new (x : option Z) (b : belief) : belief :=
  mkBelief (b_writer b) (b_commit b) x (b_keys b) (b_sems b) (b_mine b) (b_intr b).
Definition with_key (key proj : Z) (b : belief) : belief :=
  mkBelief (b_writer b) (b_commit b) (b_new b) (<[key := proj]> (b_keys b)) (b_sems b)
    (b_mine b) (b_intr b).
Definition with_sem (id : Z) (proj : option Z) (b : belief) : belief :=
  mkBelief (b_writer b) (b_commit b) (b_new b) (b_keys b) (partial_alter (fun _ => proj) id (b_sems b))
    (b_mine b) (b_intr b).
Definition with_mine (f : gset Z -> gset Z) (b : belief) : belief :=
  mkBelief (b_writer b) (b_commit b) (b_new b) (b_keys b) (b_sems b) (f (b_mine b)) (b_intr b).
Definition interrupted (b : belief) : belief :=
  mkBelief (b_writer b) (b_commit b) (b_new b) (b_keys b) (b_sems b) (b_mine b) (pred (b_intr b)).

Definition took (id : Z) (b : belief) : belief :=
  if bool_decide (b_sems b !! id = Some IPC_KEY) then with_writer (Some id) b
  else with_commit (Some id) b.

Definition gave (id : Z) (b : belief) : belief :=
  if bool_decide (b_writer b = Some id) then with_writer None b else with_commit None b.

(** What answer [r] to [c] adds. *)
Definition after {R} (c : call R) : R -> belief -> belief :=
  match c in call R return R -> belief -> belief with
  | Ftok proj => fun r b => match r with Some key => with_key key proj b | None => b end
  | SemgetExcl key => fun r b =>
      match r with SemOk id => with_new (Some id) (with_sem id (b_keys b !! key) b) | _ => b end
  | Semget key => fun r b =>
      match r with Some id => with_sem id (b_keys b !! key) b | None => b end
  | SemSetval id => fun r b => if r then with_new None b else b
  | SemRmid id => fun _ b => with_new None (with_sem id None b)
  | SemDown id => fun r b =>
      match r with OpOk => took id b | OpIntr => interrupted b | OpFailed => b end
  | SemUp id => fun r b => match r with OpIntr => interrupted b | _ => gave id b end
  | ShmCreateExcl => fun r b =>
      match r with Some o => with_mine (fun m => m ∪ {[o]}) b | None => b end
  | Seg o p => fun _ b => if publishes p then with_mine (fun m => m ∖ {[o]}) b else b
  | _ => fun _ b => b
  end.

(** A program that writes under the writer lock leaves readiness alone. *)
Fixpoint unready {A} (p : prog A) : Prop :=
  match p with
  | PRet _ => True
  | PLoad _ k => forall v, unready (k v)
  | PStore c _ k => c <> CReady /\ unready k
  | PRmw c _ k => c <> CReady /\ forall v, unready (k v)
  | PRead _ _ k => forall bs, unready (k bs)
  | PWrite _ _ k => unready k
  end.

(** On an object of one's own readiness is set last. *)
Definition own_prog {A} (p : prog A) : Prop :=
  unready p \/ exists v a, p = PStore CReady v (PRet a).

Definition touches {A} (o : Z) (p : prog A) (b : belief) : Prop :=
  looks p \/ (is_Some (b_writer b) /\ unready p) \/ (o ∈ b_mine b /\ own_prog p).

Definition allowed {R} (c : call R) (b : belief) : Prop :=
  match c with
  | Ftok proj => proj = IPC_KEY \/ proj = COMMIT_IPC_KEY
  | SemgetExcl key => b_new b = None /\ is_Some (b_keys b !! key)
  | Semget key => is_Some (b_keys b !! key)
  | SemSetval id | SemRmid id => b_new b = Some id
  | SemDown id =>
      b_writer b = None /\ b_new b = None /\
      (b_sems b !! id = Some IPC_KEY \/ (b_sems b !! id = Some COMMIT_IPC_KEY /\ b_commit b = None))
  | SemUp id => b_writer b = Some id \/ (b_writer b = None /\ b_commit b = Some id)
  | Seg o p => touches o p b
  | SegAsk o p => forall ask, touches o (p ask) b /\ publishes (p ask) = false
  | _ => True
  end.

(** No more interruptions than there will be. *)
Definition possible {R} (c : call R) : R -> belief -> Prop :=
  match c in call R return R -> belief -> Prop with
  | SemDown _ | SemUp _ => fun r b => r = OpIntr -> (0 < b_intr b)%nat
  | _ => fun _ _ => True
  end.

Fixpoint obeys {A} (m : io A) (b : belief) (Q : A -> belief -> Prop) : Prop :=
  match m with
  | IRet a => Q a b
  | ICall c k => allowed c b /\ forall r, possible c r b -> obeys (k r) (after c r b) Q
  end.

Section rules.
Context {A B : Type}.

Lemma obeys_bind (m : io A) (f : A -> io B) b Q :
  obeys m b (fun a b' => obeys (f a) b' Q) -> obeys (ibind m f) b Q.
Proof.
  revert b; induction m as [a|R c k IH]; intros b; unfold ibind; fold (@ibind A B); simpl; [done|].
  intros [Hc H]. split; [done|]. auto.
Qed.

Lemma obeys_mono (m : io A) b (Q Q' : A -> belief -> Prop) :
  obeys m b Q -> (forall a b', Q a b' -> Q' a b') -> obeys m b Q'.
Proof.
  intros H HQ. revert b H; induction m as [a|R c k IH]; intros b; simpl; [auto|].
  intros [Hc H]. split; [done|]. auto.
Qed.

Lemma obeys_ret (a : A) b (Q : A -> belief -> Prop) : Q a b -> obeys (iret a) b Q.
Proof. done. Qed.

Lemma obeys_sys {R} (c : call R) b (Q : R -> belief -> Prop) :
  allowed c b -> (forall r, possible c r b -> Q r (after c r b)) -> obeys (sys c) b Q.
Proof. by split. Qed.
End rules.

#[global] Arguments obeys : simpl never.

(** A loop that comes back to the same belief. *)
Lemma obeys_foldM {X St} (l : list X) (st : St) body b :
  (forall x st, obeys (body x st) b (fun _ b' => b' = b)) ->
  obeys (ifoldM l st body) b (fun _ b' => b' = b).
Proof.
  intros H. revert st; induction l as [|x l IH]; intros st; [done|]. cbn [ifoldM].
  apply obeys_bind. eapply obeys_mono; [apply H|]. intros st' b' ->. apply IH.
Qed.

(** * Code that takes no lock and touches no segment *)

Definition plain {R} (c : call R) : bool :=
  match c with
  | ReadDir | FileType _ | FsRead _ | FsCreate _ | FsWrite _ _ | FsSync _ | FsRemove _
  | FsRename _ _ | FsMeta _ | SyncFs | IsDir | StatDev | GetPid | ShmOpen | Ftruncate _ _
  | Fstat _ | Mmap _ | ShmUnlink => true
  | _ => false
  end.

Lemma obeys_plain {R} (c : call R) b : plain c = true -> obeys (sys c) b (fun _ b' => b' = b).
Proof. intros Hc. apply obeys_sys; by destruct c. Qed.

(** Walks such code. *)
Ltac plain_code :=
  repeat match goal with
  | |- obeys (ibind _ _) ?b _ =>
      apply obeys_bind; refine (obeys_mono _ b (fun _ b' => b' = b) _ _ _); [|intros ? ? ->]
  | |- obeys (iret _) _ _ => apply obeys_ret; reflexivity
  | |- obeys (sys _) _ _ => apply obeys_plain; reflexivity
  | |- obeys (ifoldM _ _ _) _ _ => apply obeys_foldM; intros ? ?
  | |- obeys (match ?x with _ => _ end) _ _ => destruct x
  | |- obeys (let (_, _) := ?x in _) _ _ => destruct x
  end.

Section plain.
Variable b : belief.
Abbreviation same := (fun _ b' => b' = b).

Lemma obeys_load_all {St} (f : bytes -> bytes -> St -> io St) (st : St) :
  (forall k v st, obeys (f k v st) b same) -> obeys (load_all f st) b same.
Proof.
  intros Hf. unfold load_all. plain_code. unfold load_entry. plain_code. apply Hf.
Qed.

Lemma obeys_read_one key : obeys (read_one key) b same.
Proof. unfold read_one. plain_code. Qed.

Lemma obeys_write_tmp key val flush : obeys (write_tmp key val flush) b same.
Proof. unfold write_tmp, fill. plain_code. Qed.

Lemma obeys_publish tmp key : obeys (publish tmp key) b same.
Proof. unfold publish. plain_code. Qed.

Lemma obeys_write_atomic key val : obeys (write_atomic key val) b same.
Proof. unfold write_atomic. plain_code; [apply obeys_write_tmp|apply obeys_publish]. Qed.

Lemma obeys_remove key : obeys (Disk.remove key) b same.
Proof. unfold Disk.remove. plain_code. Qed.

Lemma obeys_remove_all : obeys remove_all b same.
Proof. unfold remove_all, remove_entry. plain_code. Qed.

Lemma obeys_write_out ps : obeys (write_out ps) b same.
Proof.
  unfold write_out, sync_store. plain_code.
  - unfold stage_one. plain_code. apply obeys_write_tmp.
  - unfold discard_one, discard. plain_code.
  - unfold publish_one. plain_code; [apply obeys_publish|apply obeys_remove].
Qed.

Lemma obeys_map fd : obeys (Attach.map fd) b (fun r b' => b' = b /\ (r = Ok fd \/ r = Err)).
Proof.
  unfold Attach.map. apply obeys_bind. eapply obeys_mono; [by apply obeys_plain|]. intros size ? ->.
  destruct (negb _); [by split; [|right]|]. apply obeys_bind.
  eapply obeys_mono; [by apply obeys_plain|]. intros ok ? ->. apply obeys_ret.
  split; [done|]. destruct ok; auto.
Qed.

Lemma obeys_looks {A} o (p : prog A) : looks p -> obeys (sys (Seg o p)) b same.
Proof.
  intros Hp. apply obeys_sys; [by left|]. intros r _. cbn [after].
  assert (publishes p = false) as -> by (by destruct p). done.
Qed.
End plain.

(** * The segment programs *)

Lemma unready_bind {A B} (m : prog A) (f : A -> prog B) :
  unready m -> (forall a, unready (f a)) -> unready (bind m f).
Proof.
  intros Hm Hf. induction m; simpl in Hm; unfold bind; fold @bind; simpl;
    repeat match goal with H : _ /\ _ |- _ => destruct H end; auto.
Qed.

Lemma looks_unready {A} (p : prog A) : looks p -> unready p.
Proof. intros Hp. induction p as [a|c k IH| | |off n k IH|]; simpl; try done; intros; apply IH, Hp. Qed.

Lemma unready_publishes {A} (p : prog A) : unready p -> publishes p = false.
Proof. intros Hp. destruct p as [| |c v k| | |]; try done. destruct Hp as [Hc _]. by destruct c. Qed.

#[global] Arguments unready : simpl never.

Lemma unready_storec c v : c <> CReady -> unready (storec c v).
Proof. by split. Qed.
Lemma unready_rmwc c f : c <> CReady -> unready (rmwc c f).
Proof. by split. Qed.

Lemma unready_forM {X} (l : list X) body : (forall x, unready (body x)) -> unready (forM l body).
Proof. intros H. induction l as [|x l IH]; [done|]. cbn [forM]. by apply unready_bind. Qed.

Lemma unready_foldM {X St} (l : list X) (st : St) body :
  (forall x st, unready (body x st)) -> unready (foldM l st body).
Proof.
  intros H. revert st; induction l as [|x l IH]; intros st; [done|]. cbn [foldM].
  by apply unready_bind.
Qed.

Ltac unready_code :=
  repeat match goal with
  | |- unready (bind _ _) => refine (unready_bind _ _ _ _); [|intros ?]
  | |- unready (ret _) => exact I
  | |- unready (loadc _) => by intros ?
  | |- unready (storec _ _) => by apply unready_storec
  | |- unready (rmwc _ _) => by apply unready_rmwc
  | |- unready (write_bytes _ _) => exact I
  | |- unready (forM _ _) => apply unready_forM; intros ?
  | |- unready (foldM _ _ _) => apply unready_foldM; intros ? ?
  | |- unready (arena_slice _ _) => apply looks_unready, looks_arena_slice
  | |- unready (probe _ _) => apply looks_unready, looks_probe
  | |- unready (holds_value _ _ _) => apply looks_unready, looks_holds_value
  | |- unready (keep_entry _ _) => apply looks_unready, looks_keep_entry
  | |- unready (match ?x with _ => _ end) => destruct x
  end.

Lemma unready_alloc bs : unready (arena_alloc bs).
Proof. unfold arena_alloc. unready_code. Qed.

Lemma unready_wipe : unready wipe.
Proof. unfold wipe, wipe_entry. unready_code. Qed.

Lemma unready_compact : unready compact.
Proof.
  unfold compact, arena_begin, arena_end, reinsert.
  unready_code;
    match goal with
    | |- unready wipe => apply unready_wipe
    | |- unready (arena_alloc _) => apply unready_alloc
    end.
Qed.

Lemma unready_ensure_space need : unready (ensure_space need).
Proof.
  unfold ensure_space. generalize unready_compact. generalize compact as c. intros c Hc.
  unready_code; apply Hc.
Qed.

Lemma unready_put_locked i found key val hash dirty :
  unready (put_locked i found key val hash dirty).
Proof. unfold put_locked. unready_code; apply unready_alloc. Qed.

Lemma unready_put key val dirty : unready (Shm.put key val dirty).
Proof.
  unfold Shm.put, seq_begin, seq_end. unready_code.
  - apply unready_ensure_space.
  - apply unready_put_locked.
Qed.

Lemma unready_remove key dirty : unready (Shm.remove key dirty).
Proof. unfold Shm.remove, seq_begin, seq_end. unready_code. Qed.

Lemma unready_clear : unready Shm.clear.
Proof. unfold Shm.clear, arena_begin, arena_end. unready_code; apply unready_wipe. Qed.

Lemma unready_repair k : unready (repair_seq k).
Proof.
  unfold repair_seq. cbn [foldM]. unready_code; unfold repair_cell; unready_code.
Qed.

Lemma unready_writeback ps : unready (commit_writeback ps).
Proof. unfold commit_writeback, writeback_one, slot_value. unready_code. Qed.

Lemma unready_init_header dev : unready (init_header dev).
Proof. unfold init_header. unready_code. Qed.

Lemma looks_read_value key hash : looks (read_value key hash).
Proof.
  unfold read_value. looks_step. looks_step. case_match; [done|].
  refine (looks_bind _ _ _ _); [apply looks_probe|]. intros found.
  refine (looks_bind _ _ _ _).
  - destruct found as [[i []]|]; try done. looks_step. case_match; [|done].
    looks_step. looks_step. refine (looks_bind _ _ _ _); [apply looks_arena_slice|].
    intros r. by destruct r.
  - intros out. destruct out; try done; looks_step; looks_step; by case_match.
Qed.

Lemma looks_for_each_live {St} (f : bytes -> bytes -> St -> St) (st : St) : looks (for_each_live f st).
Proof.
  unfold for_each_live. apply looks_foldM. intros i acc. unfold visit_live.
  looks_step. case_match; [done|]. looks_step. looks_step.
  refine (looks_bind _ _ _ _); [apply looks_arena_slice|]. intros [key|]; [|done].
  looks_step. looks_step. refine (looks_bind _ _ _ _); [apply looks_arena_slice|]. intros v. done.
Qed.

Lemma looks_commit_snapshot ask : looks (commit_snapshot ask).
Proof.
  unfold commit_snapshot. apply looks_foldM. intros i out. unfold snapshot_entry.
  looks_step. case_match; [done|]. looks_step. case_match; [done|].
  looks_step. looks_step. refine (looks_bind _ _ _ _); [apply looks_arena_slice|].
  intros [key|]; [|done]. looks_step. case_match; [|done].
  looks_step. case_match; [done|]. looks_step.
  refine (looks_bind _ _ _ _); [apply looks_arena_slice|]. intros v. by destruct v.
Qed.

(** * The locks *)

(** The same locks and objects: what came in between is forgotten. *)
Record shift (b b' : belief) : Prop := mk_shift {
  sh_writer : b_writer b' = b_writer b;
  sh_commit : b_commit b' = b_commit b;
  sh_new : b_new b' = b_new b;
  sh_mine : b_mine b' = b_mine b;
  sh_intr : (b_intr b' <= b_intr b)%nat
}.

(** The same locks. *)
Record settled (b b' : belief) : Prop := mk_settled {
  st_writer : b_writer b' = b_writer b;
  st_commit : b_commit b' = b_commit b;
  st_new : b_new b' = b_new b;
  st_intr : (b_intr b' <= b_intr b)%nat
}.

#[export] Instance shift_preorder : PreOrder shift.
Proof.
  split; [by intros b; split|]. intros b1 b2 b3 [] []. split; [congruence..|lia].
Qed.

#[export] Instance settled_preorder : PreOrder settled.
Proof.
  split; [by intros b; split|]. intros b1 b2 b3 [] []. split; [congruence..|lia].
Qed.

Lemma shift_settled b b' : shift b b' -> settled b b'.
Proof. intros []. by split. Qed.

#[export] Hint Resolve shift_settled : nvram.

(** Whatever follows from where the locks are. *)
Ltac locks :=
  cbv beta in *;
  repeat match goal with
  | H : shift _ _ |- _ => destruct H
  | H : settled _ _ |- _ => destruct H
  end; cbn in *; try split; cbn; first [congruence | lia].

Section locks.
Context {A : Type}.
Variable fuel : nat.

Lemma obeys_sem_get proj b :
  proj = IPC_KEY \/ proj = COMMIT_IPC_KEY -> b_new b = None ->
  obeys (sem_get proj) b (fun r b' =>
    shift b b' /\ forall id, r = Some id -> b_sems b' !! id = Some proj).
Proof.
  intros Hp Hn. unfold sem_get. apply obeys_bind, obeys_sys; [done|]. intros [key|] _; [|by split].
  cbn [after]. set (b1 := with_key key proj b).
  assert (b_keys b1 !! key = Some proj) as Hk by apply lookup_insert_eq.
  apply obeys_bind, obeys_sys; [by split; [|eexists]|]. intros [id| |] _; cbn [after].
  - rewrite Hk. set (b2 := with_sem id (Some proj) b1).
    apply obeys_bind, obeys_sys; [done|]. intros [] _; cbn [after].
    + apply obeys_ret. split; [by split|]. intros id2 E. assert (id2 = id) as -> by congruence. apply lookup_partial_alter_eq.
    + apply obeys_bind, obeys_sys; [done|]. intros r _. apply obeys_ret. by split; [split|].
  - apply obeys_sys; [by eexists|]. intros [id|] _; cbn [after]; [|by split].
    rewrite Hk. split; [by split|]. intros id2 E. assert (id2 = id) as -> by congruence. apply lookup_partial_alter_eq.
  - apply obeys_ret. by split; [split|].
Qed.

(** A lock may be waited for. *)
Definition awaitable (proj : Z) (b : belief) : Prop :=
  b_writer b = None /\ b_new b = None /\ (b_intr b < fuel)%nat /\
  (proj = IPC_KEY \/ proj = COMMIT_IPC_KEY /\ b_commit b = None).

Definition taken (proj id : Z) (b : belief) : belief :=
  if bool_decide (proj = IPC_KEY) then with_writer (Some id) b else with_commit (Some id) b.

Lemma obeys_lock proj b :
  awaitable proj b ->
  obeys (lock fuel proj) b (fun r b' =>
    shift (match r with Some g => taken proj (g_semid g) b | None => b end) b').
Proof.
  intros (Hw & Hn & Hi & Hp). unfold lock. apply obeys_bind.
  eapply obeys_mono; [apply obeys_sem_get; tauto|].
  intros [id|] b1 [Hs Hsem]; [|done]. specialize (Hsem id eq_refl).
  assert (b_intr b1 < fuel)%nat as Hi1 by locks. clear Hi.
  revert b1 Hs Hsem Hi1. induction fuel as [|n IH]; intros b1 Hs Hsem Hi1; [lia|].
  cbn [lock_loop]. apply obeys_bind, obeys_sys.
  { cbn [allowed]. rewrite Hsem. split_and!; [locks..|].
    destruct Hp as [->|[-> Hc]]; [by left|]. right. split; [done|locks]. }
  intros [] Hr; cbn [after].
  - apply obeys_ret. cbn [g_semid]. unfold took, taken. rewrite Hsem.
    repeat case_bool_decide; try congruence; locks.
  - specialize (Hr eq_refl). apply IH; [locks|done|cbn; lia].
  - by apply obeys_ret.
Qed.

(** Giving one back. *)
Lemma obeys_drop_guard g b :
  (b_intr b < fuel)%nat -> b_writer b = Some (g_semid g) \/
    b_writer b = None /\ b_commit b = Some (g_semid g) ->
  obeys (drop_guard fuel g) b (fun _ b' => shift (gave (g_semid g) b) b').
Proof.
  intros Hi Hg. unfold drop_guard. set (id := g_semid g) in *.
  set (b1 := b) at 1. assert (shift b b1) as Hs by reflexivity.
  assert (b_intr b1 < fuel)%nat as Hi1 by done. clearbody b1. clear Hi.
  revert b1 Hs Hi1; induction fuel as [|n IH]; intros b1 Hs Hi1; [lia|].
  assert (forall b', shift b b' -> shift (gave id b) (gave id b')) as Hgave.
  { intros b' Hb'. unfold gave. rewrite (sh_writer _ _ Hb').
    destruct Hg as [->|[-> _]]; case_bool_decide; locks. }
  cbn [drop_loop]. apply obeys_bind, obeys_sys; [cbn [allowed]; destruct Hs as [-> -> _ _ _]; done|].
  intros [] Hr; cbn [after]; [by apply obeys_ret, Hgave| |by apply obeys_ret, Hgave].
  specialize (Hr eq_refl). apply IH; [locks|cbn; lia].
Qed.

Variable b : belief.
Hypothesis Hfuel : (b_intr b < fuel)%nat.

Lemma obeys_acquire (f : option Guard -> io A) Q :
  b_writer b = None -> b_new b = None ->
  (forall b', shift b b' -> obeys (f None) b' Q) ->
  (forall g b', shift (with_writer (Some (g_semid g)) b) b' -> obeys (f (Some g)) b' Q) ->
  obeys (do g <- acquire fuel; f g) b Q.
Proof using Hfuel.
  intros Hw Hn HN HS. apply obeys_bind. eapply obeys_mono; [apply obeys_lock; split_and!; auto|].
  intros [g|] b' Hs; [by apply HS|by apply HN].
Qed.

Lemma obeys_acquire_commit (f : option Guard -> io A) Q :
  b_writer b = None -> b_commit b = None -> b_new b = None ->
  (forall b', shift b b' -> obeys (f None) b' Q) ->
  (forall g b', shift (with_commit (Some (g_semid g)) b) b' -> obeys (f (Some g)) b' Q) ->
  obeys (do g <- acquire_commit fuel; f g) b Q.
Proof using Hfuel.
  intros Hw Hc Hn HN HS. apply obeys_bind. eapply obeys_mono; [apply obeys_lock; split_and!; auto|].
  intros [g|] b' Hs; [by apply HS|by apply HN].
Qed.

Lemma obeys_drop_writer g (m : io A) Q :
  b_writer b = Some (g_semid g) ->
  (forall b', shift (with_writer None b) b' -> obeys m b' Q) -> obeys (drop_guard fuel g;; m) b Q.
Proof using Hfuel.
  intros Hw H. apply obeys_bind. eapply obeys_mono; [apply obeys_drop_guard; auto|].
  intros u b' Hs. apply H. unfold gave in Hs. by rewrite bool_decide_eq_true_2 in Hs.
Qed.

Lemma obeys_drop_commit g (m : io A) Q :
  b_writer b = None -> b_commit b = Some (g_semid g) ->
  (forall b', shift (with_commit None b) b' -> obeys m b' Q) -> obeys (drop_guard fuel g;; m) b Q.
Proof using Hfuel.
  intros Hw Hc H. apply obeys_bind. eapply obeys_mono; [apply obeys_drop_guard; auto|].
  intros u b' Hs. apply H. unfold gave in Hs. by rewrite bool_decide_eq_false_2 in Hs by congruence.
Qed.

Lemma obeys_drop_opt g (m : io A) Q :
  b_writer b = g_semid <$> g ->
  (forall b', shift (with_writer None b) b' -> obeys m b' Q) -> obeys (drop_opt fuel g;; m) b Q.
Proof using Hfuel.
  intros Hw H. destruct g as [g|]; cbn [drop_opt]; [by apply obeys_drop_writer|].
  apply obeys_bind, obeys_ret, H. locks.
Qed.

(** What leaves the belief alone. *)
Lemma obeys_then {B} (m : io A) (f : A -> io B) Q :
  obeys m b (fun _ b' => b' = b) -> (forall a, obeys (f a) b Q) -> obeys (ibind m f) b Q.
Proof.
  intros Hm Hf. apply obeys_bind. eapply obeys_mono; [exact Hm|]. intros a b' ->. apply Hf.
Qed.

Lemma obeys_write {B} o (p : prog B) :
  is_Some (b_writer b) -> unready p -> obeys (sys (Seg o p)) b (fun _ b' => b' = b).
Proof.
  intros Hw Hp. apply obeys_sys; [cbn; right; by left|].
  intros r _. cbn [after]. by rewrite unready_publishes.
Qed.

Lemma obeys_under {B} o (p : prog A) (f : A -> io B) Q :
  is_Some (b_writer b) -> unready p -> (forall a, obeys (f a) b Q) ->
  obeys (do r <- sys (Seg o p); f r) b Q.
Proof. intros Hw Hp. apply obeys_then. by apply obeys_write. Qed.
End locks.
