(* ===== verification/LockingCode.v ===== *)
(** Every call of the C interface keeps the locking discipline of
    [LockingInv], whatever the system answers. *)

From S2P Require Import Prelude Consts Hash Names Segment Shm Cache ShmTrace World Disk Sem Attach Store Lib Race Locking LockingInv.

Section code.
Context `{AL : Allocator}.
Variable fuel : nat.

(** Holding nothing, and back. *)
Definition idle (b : belief) : Prop :=
  b_writer b = None /\ b_commit b = None /\ b_new b = None /\ (b_intr b < fuel)%nat.

Definition neat {A} (m : io A) : Prop :=
  forall b, b_writer b = None -> b_new b = None -> (b_intr b < fuel)%nat ->
  obeys m b (fun _ b' => settled b b').

Definition tidy {A} (m : io A) : Prop := forall b, idle b -> obeys m b (fun _ b' => settled b b').

Lemma neat_tidy {A} (m : io A) : neat m -> tidy m.
Proof. intros H b (Hw & _ & Hn & Hi). by apply H. Qed.

Lemma neat_ret {A} (a : A) : neat (iret a).
Proof. intros b _ _ _. by apply obeys_ret. Qed.

Lemma neat_bind {A B} (m : io A) (f : A -> io B) : neat m -> (forall a, neat (f a)) -> neat (ibind m f).
Proof.
  intros Hm Hf b Hw Hn Hi. apply obeys_bind. eapply obeys_mono; [by apply Hm|].
  intros a b1 H1. eapply obeys_mono; [apply Hf; locks|]. intros a' b2 H2. locks.
Qed.

Lemma tidy_ret {A} (a : A) : tidy (iret a).
Proof. apply neat_tidy, neat_ret. Qed.

Lemma tidy_bind {A B} (m : io A) (f : A -> io B) : tidy m -> (forall a, tidy (f a)) -> tidy (ibind m f).
Proof.
  intros Hm Hf b (Hw & Hc & Hn & Hi). apply obeys_bind. eapply obeys_mono; [by apply Hm|].
  intros a b1 H1. eapply obeys_mono; [apply Hf; split_and!; locks|]. intros a' b2 H2. locks.
Qed.

Lemma neat_same {A} (m : io A) : (forall b, obeys m b (fun _ b' => b' = b)) -> neat m.
Proof. intros H b _ _ _. eapply obeys_mono; [apply H|]. by intros _ b' ->. Qed.

Lemma neat_plain {R} (c : call R) : plain c = true -> neat (sys c).
Proof. intros Hc. apply neat_same. intros b. by apply obeys_plain. Qed.

Lemma neat_looks {A} o (p : prog A) : looks p -> neat (sys (Seg o p)).
Proof. intros Hp. apply neat_same. intros b. by apply obeys_looks. Qed.

(** Under the writer lock, then without it. *)
Lemma neat_lock {A} (f : option Guard -> io A) :
  neat (f None) ->
  (forall g b, b_writer b = Some (g_semid g) -> b_new b = None -> (b_intr b < fuel)%nat ->
     obeys (f (Some g)) b (fun _ b' => settled (with_writer None b) b')) ->
  neat (do g <- acquire fuel; f g).
Proof.
  intros HN HS b Hw Hn Hi. apply obeys_acquire; [done..| |].
  - intros b1 H1. eapply obeys_mono; [apply HN; locks|]. intros u b2 H2. locks.
  - intros g b1 H1. eapply obeys_mono; [apply HS; locks|]. intros u b2 H2. locks.
Qed.

Lemma looks_loadc_of c : looks (loadc c).
Proof. by intros v. Qed.

Lemma neat_wait {A} (m : io A) : neat m -> neat (do g <- acquire fuel; drop_opt fuel g;; m).
Proof.
  intros Hm. apply neat_lock.
  - apply neat_bind; [apply neat_ret|done].
  - intros g b Hw Hn Hi. cbn [drop_opt]. apply obeys_drop_writer; [done..|]. intros b1 H1.
    eapply obeys_mono; [apply Hm; locks|]. intros u b2 H2. locks.
Qed.

Ltac neat :=
  repeat match goal with
  | |- neat (ibind (acquire _) _) => fail 1
  | |- neat (ibind _ _) => apply neat_bind; [|intros ?]
  | |- neat (iret _) => apply neat_ret
  | |- neat (sys (Seg _ (loadc _))) => apply neat_looks, looks_loadc_of
  | |- neat (sys (Seg _ (slot_value _))) => apply neat_looks, looks_loadc_of
  | |- neat (sys (Seg _ (read_value _ _))) => apply neat_looks, looks_read_value
  | |- neat (sys _) => apply neat_plain; reflexivity
  | |- neat store_dev => apply neat_plain; reflexivity
  | |- neat sync_store => apply neat_plain; reflexivity
  | |- neat store_available => apply neat_plain; reflexivity
  | |- neat unlink => apply neat_plain; reflexivity
  | |- neat (match ?x with _ => _ end) => destruct x
  | |- neat (let (_, _) := ?x in _) => destruct x
  end.

Lemma neat_map fd : neat (Attach.map fd).
Proof. apply neat_same. intros b. eapply obeys_mono; [apply obeys_map|]. by intros r b' [-> _]. Qed.

Lemma neat_validate seg : neat (validate fuel seg).
Proof.
  unfold validate. apply neat_bind; [neat|]. intros ready. apply neat_bind.
  - destruct (ready =? 0); [|neat]. apply neat_wait. neat.
  - intros ready'. neat.
Qed.

Lemma neat_attach : neat (attach fuel).
Proof. unfold attach. neat; [apply neat_map|apply neat_validate]. Qed.

Lemma neat_reattach st : neat (reattach fuel st).
Proof. unfold reattach. neat. apply neat_attach. Qed.

(** A body and the release. *)
Lemma obeys_release {A} g (m : io A) b :
  b_writer b = Some (g_semid g) -> b_new b = None -> (b_intr b < fuel)%nat -> neat m ->
  obeys (drop_guard fuel g;; m) b (fun _ b' => settled (with_writer None b) b').
Proof.
  intros Hw Hn Hi Hm. apply obeys_drop_writer; [done..|]. intros b1 H1.
  eapply obeys_mono; [apply Hm; locks|]. intros u b2 H2. locks.
Qed.

Lemma neat_read_locked seg key slot : neat (read_locked fuel seg key (fnv1a key) slot).
Proof.
  unfold read_locked. apply neat_lock; [neat|]. intros g b Hw Hn Hi.
  apply obeys_under; [by eexists|apply unready_repair|]. intros _.
  apply obeys_then; [apply obeys_looks, looks_read_value|]. intros r.
  apply obeys_then.
  { destruct r; [| |done]; (apply obeys_then; [apply obeys_looks, looks_loadc_of|done]). }
  intros out. apply obeys_release; auto. neat.
Qed.

Lemma neat_read_loop n seg key slot : neat (read_loop n seg key (fnv1a key) slot).
Proof. induction n as [|n IH]; cbn [read_loop]; neat. apply IH. Qed.

Lemma neat_read_one key : neat (read_one key).
Proof. apply neat_same. intros b. apply obeys_read_one. Qed.

Lemma neat_get_degraded st key : neat (get_degraded st key).
Proof. unfold get_degraded. neat. apply neat_read_one. Qed.

Lemma neat_get st key : neat (Store.get fuel st key).
Proof.
  unfold Store.get. apply neat_bind; [apply neat_reattach|]. intros st1.
  assert (forall st seg, neat (get_miss fuel st seg key (fnv1a key) (slot_of (fnv1a key)))) as Hmiss.
  { intros st2 seg. unfold get_miss. neat;
      first [apply neat_read_loop|apply neat_read_locked|apply neat_get_degraded]. }
  neat; first [apply Hmiss|apply neat_get_degraded].
Qed.

Lemma neat_write_atomic key val : neat (write_atomic key val).
Proof. apply neat_same. intros b. apply obeys_write_atomic. Qed.

Lemma neat_remove key : neat (Disk.remove key).
Proof. apply neat_same. intros b. apply obeys_remove. Qed.

(** [do _ <- sys (Seg ...); do seen <- ...; drop] of [set] and [unset]. *)
Lemma neat_update {A B} seg (p : prog B) hash (m0 : io A) (f : B -> Z -> A) :
  unready p -> neat m0 ->
  neat (do guard <- acquire fuel;
        match guard with
        | None => m0
        | Some g =>
          do r <- sys (Seg seg p);
          do seen <- sys (Seg seg (slot_value (slot_of hash)));
          drop_guard fuel g;;
          iret (f r seen)
        end).
Proof.
  intros Hp Hm. apply (neat_lock (fun guard => match guard with None => m0 | Some g => _ end)); [done|].
  intros g b Hw Hn Hi.
  apply obeys_under; [by eexists|done|]. intros r.
  apply obeys_then; [apply obeys_looks, looks_loadc_of|]. intros seen.
  apply obeys_release; auto. neat.
Qed.

Lemma neat_set st key val : neat (Store.set fuel st key val).
Proof.
  unfold Store.set. destruct (negb _); [neat|]. apply neat_bind; [apply neat_reattach|]. intros st1.
  apply neat_bind; [unfold value_matches; neat|]. intros [same st2].
  destruct same; [neat|]. destruct (s_seg st2) as [seg|].
  - apply (neat_update seg (Shm.put key val true) (fnv1a key) (iret (false, st2))
      (fun res seen => if is_ok res then (true, snd (install_ptr st2 key (Some val) seen)) else (false, st2)));
      [apply unready_put|neat].
  - neat. apply neat_write_atomic.
Qed.

Lemma neat_unset st key : neat (Store.unset fuel st key).
Proof.
  unfold Store.unset. destruct (negb _); [neat|]. apply neat_bind; [apply neat_reattach|]. intros st1.
  destruct (s_seg st1) as [seg|].
  - apply (neat_update seg (Shm.remove key true) (fnv1a key) (iret (false, st1))
      (fun _ seen => (true, snd (install_ptr st1 key None seen)))); [apply unready_remove|neat].
  - neat. apply neat_remove.
Qed.

Lemma neat_commit_locked seg : neat (commit_locked fuel seg).
Proof.
  unfold commit_locked. apply neat_lock; [neat|]. intros g b Hw Hn Hi.
  apply obeys_then.
  { apply obeys_sys; [|done]. intros ask. split; [left; apply looks_commit_snapshot|].
    apply unready_publishes, looks_unready, looks_commit_snapshot. }
  intros pending. apply obeys_release; [done..|].
  apply neat_bind; [apply neat_same; intros b1; apply obeys_write_out|].
  intros [[done all_ok]|]; [|neat]. apply neat_bind.
  - destruct (bool_decide _); [neat|]. apply neat_lock; [neat|]. intros g1 b1 Hw1 Hn1 Hi1.
    apply obeys_under; [by eexists|apply unready_writeback|]. intros _.
    apply obeys_release; auto. neat.
  - intros unlocked. neat.
Qed.

Lemma tidy_commit st : tidy (Store.commit fuel st).
Proof.
  unfold Store.commit. apply tidy_bind; [apply neat_tidy, neat_reattach|]. intros st1.
  destruct (s_seg st1) as [seg|]; [|apply neat_tidy; neat].
  intros b (Hw & Hc & Hn & Hi). apply obeys_acquire_commit; [done..| |].
  - intros b1 H1. apply obeys_ret. locks.
  - intros g b1 H1. apply obeys_bind. eapply obeys_mono; [apply neat_commit_locked; locks|].
    intros ok b2 H2. apply obeys_drop_commit; [locks..|]. intros b3 H3. apply obeys_ret. locks.
Qed.

Lemma tidy_clear st : tidy (Store.clear fuel st).
Proof.
  unfold Store.clear. apply tidy_bind; [apply neat_tidy, neat_reattach|]. intros st1.
  intros b (Hw & Hc & Hn & Hi). apply obeys_acquire_commit; [done..| |].
  { intros b1 H1. apply obeys_ret. locks. }
  intros cg b1 H1. apply obeys_acquire; [locks..| |].
  { intros b2 H2. apply obeys_drop_commit; [locks..|]. intros b3 H3. apply obeys_ret. locks. }
  intros g b2 H2. apply obeys_then.
  { destruct (s_seg st1); [|done]. apply obeys_write; [exists (g_semid g); locks|apply unready_clear]. }
  intros _. apply obeys_then; [apply obeys_remove_all|]. intros ok.
  apply obeys_drop_writer; [locks..|]. intros b3 H3.
  apply obeys_then; [by apply obeys_plain|]. intros synced.
  apply obeys_drop_commit; [locks..|]. intros b4 H4. apply obeys_ret. locks.
Qed.

Lemma neat_getall st buf ln : neat (Store.getall fuel st buf ln).
Proof.
  unfold Store.getall. apply neat_bind; [apply neat_reattach|]. intros st1.
  destruct buf as [bs|]; [|neat]. destruct (ln =? 0); [neat|]. apply neat_bind; [|intros r; neat].
  destruct (s_seg st1) as [seg|].
  - apply neat_lock; [neat|]. intros g b Hw Hn Hi.
    apply obeys_then; [apply obeys_looks, looks_for_each_live|]. intros o.
    apply obeys_release; auto. neat.
  - neat. apply neat_same. intros b. apply obeys_load_all. done.
Qed.

(** ** Creating the segment *)

Lemma obeys_own {A B} b o (p : prog A) (f : A -> io B) Q :
  o ∈ b_mine b -> unready p -> (forall a, obeys (f a) b Q) ->
  obeys (do r <- sys (Seg o p); f r) b Q.
Proof.
  intros Ho Hp. apply obeys_then. apply obeys_sys; [cbn; right; right; split; [done|by left]|].
  intros r _. cbn [after]. by rewrite unready_publishes.
Qed.

Lemma obeys_populate b seg : seg ∈ b_mine b -> obeys (populate seg) b (fun _ b' => b' = b).
Proof.
  intros Ho. unfold populate. apply obeys_then; [|intros r; by apply obeys_ret].
  apply obeys_load_all. intros k v failed. unfold preload.
  apply obeys_own; [done|apply unready_put|]. intros r. by apply obeys_ret.
Qed.

Lemma neat_create : neat (create fuel populate).
Proof.
  unfold create. intros b Hw Hn Hi. apply obeys_bind, obeys_sys; [done|].
  intros [fd|] _; cbn [after].
  - set (b1 := with_mine _ b). assert (settled b b1) as Hb1 by by split.
    assert (fd ∈ b_mine b1) as Hm by set_solver. clearbody b1.
    unfold create_fill. apply obeys_bind.
    eapply obeys_mono; [apply obeys_lock; split_and!; try locks; by left|].
    intros guard b2 H2. cbv beta in H2. unfold taken in H2.
    rewrite bool_decide_eq_true_2 in H2 by done.
    assert (b_writer b2 = g_semid <$> guard /\ fd ∈ b_mine b2 /\ settled b (with_writer None b2) /\
      (b_intr b2 < fuel)%nat) as (Hw2 & Hm2 & Hs2 & Hi2).
    { destruct guard as [g|]; destruct H2 as [E1 E2 E3 E4 E5]; cbn in *;
        (split_and!; [rewrite E1; destruct Hb1; simpl; congruence|by rewrite E4|locks|locks]). }
    clear H2 Hb1 Hm. assert (forall r : result Z, obeys (drop_opt fuel guard;; iret r) b2
      (fun _ b' => settled b b')) as Hdrop.
    { intros r. apply obeys_drop_opt; [done..|]. intros b3 H3. apply obeys_ret. locks. }
    assert (obeys (drop_opt fuel guard;; sys ShmUnlink;; iret (Err (A := Z))) b2
      (fun _ b' => settled b b')) as Hdrop'.
    { apply obeys_drop_opt; [done..|]. intros b3 H3.
      apply obeys_then; [by apply obeys_plain|]. intros _. apply obeys_ret. locks. }
    apply obeys_then; [by apply obeys_plain|]. intros sized. destruct (negb sized).
    { apply obeys_then; [by apply obeys_plain|]. done. }
    apply obeys_bind. eapply obeys_mono; [apply obeys_map|]. intros r b3 [-> [->| ->]]; cycle 1.
    { apply obeys_then; [by apply obeys_plain|]. done. }
    apply obeys_then; [by apply obeys_plain|]. intros [d|]; [|done].
    apply obeys_own; [done|apply unready_init_header|]. intros _.
    apply obeys_then; [by apply obeys_populate|]. intros [[]|]; [|done].
    apply obeys_bind, obeys_sys; [right; right; split; [done|right; by eexists _, _]|].
    intros u _. cbn [after publishes]. apply obeys_drop_opt; [done..|]. intros b3 H3.
    apply obeys_ret. locks.
  - eapply obeys_mono; [apply neat_bind; [apply neat_attach| |done..]|done].
    intros [seg|]; [neat|]. apply neat_wait, neat_attach.
Qed.

Lemma neat_init st : neat (Store.init fuel st).
Proof.
  unfold Store.init. neat; first [apply neat_attach|apply neat_create].
Qed.

(** ** The C interface *)

Lemma tidy_with_store {A} (f : Store -> io (A * Store)) g :
  (forall st, tidy (f st)) -> tidy (with_store fuel f g).
Proof.
  intros Hf. unfold with_store. apply tidy_bind.
  - destruct g; [apply tidy_ret|]. apply neat_tidy. unfold new. neat. apply neat_attach.
  - intros st. apply tidy_bind; [apply Hf|]. intros [a st']. apply tidy_ret.
Qed.

Lemma tidy_report (f : Store -> io (bool * Store)) g :
  (forall st, tidy (f st)) -> tidy (report fuel f g).
Proof.
  intros Hf. unfold report. apply tidy_bind; [by apply tidy_with_store|]. intros [ok g'].
  apply tidy_ret.
Qed.

Lemma tidy_call e g : tidy (call_entry fuel e g).
Proof.
  assert (forall name g, tidy (nvram_get fuel name g)) as Hget.
  { intros name g1. unfold nvram_get. destruct (key_bytes name); [|apply tidy_ret].
    apply tidy_with_store. intros st. apply neat_tidy, neat_get. }
  destruct e; cbn [call_entry]; (apply tidy_bind; [|intros r; apply tidy_ret]).
  - apply Hget.
  - unfold nvram_safe_get. apply tidy_bind; [apply Hget|]. intros [p g1]. apply tidy_ret.
  - unfold nvram_get_int. destruct (key_bytes name); [|apply tidy_ret].
    apply tidy_with_store. intros st. apply tidy_bind; [apply neat_tidy, neat_get|].
    intros [p st1]. apply tidy_ret.
  - unfold nvram_set. destruct (key_bytes name), (val_bytes value); try apply tidy_ret.
    apply tidy_report. intros st. apply neat_tidy, neat_set.
  - unfold nvram_unset. destruct (key_bytes name); [|apply tidy_ret].
    apply tidy_report. intros st. apply neat_tidy, neat_unset.
  - unfold nvram_getall. destruct (_ || _); [apply tidy_ret|]. apply tidy_bind.
    + apply tidy_with_store. intros st. apply tidy_bind; [apply neat_tidy, neat_getall|].
      intros [[ok b] st1]. apply tidy_ret.
    + intros [[ok b] g1]. apply tidy_ret.
  - apply tidy_report, tidy_commit.
  - apply tidy_report, tidy_clear.
  - apply tidy_report, tidy_clear.
  - apply tidy_report. intros st. apply neat_tidy, neat_init.
Qed.

Lemma tidy_calls es g : tidy (calls fuel es g).
Proof.
  revert g; induction es as [|e es IH]; intros g; [apply tidy_ret|]. cbn [calls].
  apply tidy_bind; [apply tidy_call|apply IH].
Qed.
End code.
