(* ===== verification/LockingSys.v ===== *)
(** The invariant of the whole system: the kernel's books balance, and every
    process has a belief that agrees with them and that its code obeys.  One
    step of any process keeps it. *)

From S2P Require Import Prelude Consts Hash Names Segment Shm Cache ShmTrace World Disk Sem Attach Store Lib Race Locking LockingInv LockingCode.

(** * What is true of the kernel *)

Definition idle_set (s : semset) : Prop := forall p, undo_of s p = 0.

(** Whom the death of a process would release the semaphore for: nobody, or
    one. *)
Definition held_by (s : semset) (o : option Z) : Prop :=
  forall p, undo_of s p = if decide (o = Some p) then 1 else 0.

Definition balanced (s : semset) : Prop :=
  (ss_val s = 1 /\ held_by s None) \/ (ss_val s = 0 /\ exists o, held_by s o).

Record kernel_ok (K : Kernel) : Prop := mk_kernel_ok {
  ks_key : forall id s, k_sets K !! id = Some s -> k_keys K !! ss_key s = Some id;
  ks_set : forall key id, k_keys K !! key = Some id ->
    exists s, k_sets K !! id = Some s /\ ss_key s = key;
  ks_fresh : forall id s, k_sets K !! id = Some s -> id < k_nextset K;
  ks_unit : forall id s, k_sets K !! id = Some s -> balanced s;
  ks_obj : forall o p, k_owner K !! o = Some p -> o < k_nextobj K
}.

(** * What is true of a process *)

Section agrees.
Variables (dev : Z) (K : Kernel) (p : Z).

(** It holds set [id], which is for [proj]. *)
Definition grasps (proj id : Z) : Prop :=
  exists s, k_sets K !! id = Some s /\ ss_key s = ftok_key dev proj /\ undo_of s p = 1.

Definition lock_proj (proj : Z) : Prop := proj = IPC_KEY \/ proj = COMMIT_IPC_KEY.

Record agrees (b : belief) : Prop := mk_agrees {
  ag_writer : forall id, b_writer b = Some id -> grasps IPC_KEY id;
  ag_commit : forall id, b_commit b = Some id -> grasps COMMIT_IPC_KEY id;
  ag_new : forall id, b_new b = Some id ->
    exists s, k_sets K !! id = Some s /\ ss_val s = 0 /\ held_by s None;
  ag_keys : forall key proj, b_keys b !! key = Some proj ->
    key = ftok_key dev proj /\ lock_proj proj;
  ag_sems : forall id proj, b_sems b !! id = Some proj ->
    id < k_nextset K /\ lock_proj proj /\
    forall s, k_sets K !! id = Some s -> ss_key s = ftok_key dev proj;
  ag_mine : forall o, o ∈ b_mine b -> k_owner K !! o = Some p;
  (* and it knows everything it holds *)
  ag_back : forall id s, k_sets K !! id = Some s -> undo_of s p <> 0 ->
    b_writer b = Some id \/ b_commit b = Some id
}.
End agrees.

(** Holding nothing at the end. *)
Definition over (_ : unit) (b : belief) : Prop :=
  b_writer b = None /\ b_commit b = None /\ b_new b = None.

Definition believes (dev : Z) (c : config) (B : Z -> belief) : Prop :=
  (forall p m n, c_procs c !! p = Some (m, n) ->
     obeys m (B p) over /\ agrees dev (c_kernel c) p (B p) /\ b_intr (B p) = n) /\
  (forall p q id, is_Some (c_procs c !! p) -> is_Some (c_procs c !! q) ->
     b_new (B p) = Some id -> b_new (B q) = Some id -> p = q) /\
  (forall p id s, k_sets (c_kernel c) !! id = Some s -> undo_of s p <> 0 -> is_Some (c_procs c !! p)).

Definition sound (dev : Z) (c : config) : Prop :=
  kernel_ok (c_kernel c) /\ exists B, believes dev c B.

(** * The kernel's operations *)

Lemma undo_of_add p d s q : undo_of (sem_add p d s) q = if decide (q = p) then undo_of s p - d else undo_of s q.
Proof.
  unfold undo_of, sem_add. cbn [ss_undo]. case_decide; [subst; by rewrite lookup_insert_eq|].
  by rewrite lookup_insert_ne.
Qed.

Lemma undo_of_release p s q : undo_of (release_undo p s) q = if decide (q = p) then 0 else undo_of s q.
Proof.
  unfold undo_of at 1, release_undo. cbn [ss_undo]. case_decide; [subst; by rewrite lookup_delete_eq|].
  by rewrite lookup_delete_ne.
Qed.

Lemma balanced_undo s p : balanced s -> undo_of s p = 0 \/ undo_of s p = 1.
Proof. intros [[_ H]|[_ [o H]]]; rewrite H; case_decide; auto. Qed.

(** Whose death would release it has it, and nobody else. *)
Lemma balanced_holder s p :
  balanced s -> undo_of s p = 1 -> ss_val s = 0 /\ held_by s (Some p).
Proof.
  intros [[_ H]|[Hv [o H]]] Hp; rewrite H in Hp; case_decide; try done. subst. done.
Qed.

Lemma balanced_free s : balanced s -> 0 < ss_val s -> ss_val s = 1 /\ held_by s None.
Proof. intros [H|[Hv _]] ?; [done|lia]. Qed.

Lemma kernel_alter K id f :
  kernel_ok K ->
  (forall s, k_sets K !! id = Some s -> ss_key (f s) = ss_key s /\ balanced (f s)) ->
  kernel_ok (with_sets (alter f id) K).
Proof.
  intros [H1 H2 H3 H4 H5] Hf.
  assert (forall id' s', alter f id (k_sets K) !! id' = Some s' ->
    exists s, k_sets K !! id' = Some s /\ ss_key s' = ss_key s /\ balanced s') as Hback.
  { intros id' s' E. destruct (decide (id' = id)) as [->|Hne].
    - rewrite lookup_alter_eq in E. destruct (k_sets K !! id) as [s|] eqn:Es; [|done].
      injection E as <-. destruct (Hf s eq_refl). eauto.
    - rewrite lookup_alter_ne in E by congruence. eauto. }
  split; cbn [k_sets k_keys k_nextset k_owner k_nextobj with_sets]; [| | | |done].
  - intros id' s' E. destruct (Hback _ _ E) as (s & Es & -> & _). auto.
  - intros key id' E. destruct (H2 _ _ E) as (s & Es & Ek).
    destruct (decide (id' = id)) as [->|Hne].
    + exists (f s). rewrite lookup_alter_eq, Es. destruct (Hf s Es). split; [done|congruence].
    + exists s. by rewrite lookup_alter_ne by congruence.
  - intros id' s' E. destruct (Hback _ _ E) as (s & Es & _). eauto.
  - intros id' s' E. destruct (Hback _ _ E) as (s & Es & _ & Hb). done.
Qed.

Section agree.
Variable dev : Z.

Lemma ftok_inj proj proj' :
  lock_proj proj -> lock_proj proj' -> ftok_key dev proj = ftok_key dev proj' -> proj = proj'.
Proof. unfold ftok_key, lock_proj, IPC_KEY, COMMIT_IPC_KEY. lia. Qed.

(** What another process's call leaves of one's own view. *)
Lemma agrees_frame K K' q b :
  agrees dev K q b ->
  (forall id s, k_sets K !! id = Some s -> undo_of s q <> 0 \/ b_new b = Some id ->
     exists s', k_sets K' !! id = Some s' /\ ss_key s' = ss_key s /\ undo_of s' q = undo_of s q /\
       (b_new b = Some id -> ss_val s' = ss_val s /\ (held_by s None -> held_by s' None))) ->
  (forall id s', k_sets K' !! id = Some s' ->
     (exists s, k_sets K !! id = Some s /\ ss_key s' = ss_key s /\ undo_of s' q = undo_of s q) \/
     (k_nextset K <= id /\ undo_of s' q = 0)) ->
  k_nextset K <= k_nextset K' ->
  (forall o, k_owner K !! o = Some q -> k_owner K' !! o = Some q) ->
  agrees dev K' q b.
Proof.
  intros [A1 A2 A3 A4 A5 A6 A7] Hfwd Hback Hnext Hown.
  assert (forall proj id, grasps dev K q proj id -> grasps dev K' q proj id) as Hgr.
  { intros proj id (s & Es & Ek & Eu). destruct (Hfwd id s Es) as (s' & Es' & Ek' & Eu' & _); [left; lia|].
    exists s'. split_and!; congruence. }
  split; auto.
  - intros id E. destruct (A3 id E) as (s & Es & Hs).
    destruct (Hfwd id s Es) as (s' & Es' & _ & _ & Hsame); [by right|].
    destruct (Hsame E) as [Ev Hh]. exists s'. rewrite Ev. split_and!; [done|apply Hs|apply Hh, Hs].
  - intros id proj E. destruct (A5 id proj E) as (Hlt & Hp & Hk). split_and!; [lia|done|].
    intros s' Es'. destruct (Hback _ _ Es') as [(s & Es & -> & _)|[Hge _]]; [auto|lia].
  - intros id s' Es' Hu. destruct (Hback _ _ Es') as [(s & Es & _ & Eu)|[_ Eu]]; [|lia].
    rewrite Eu in Hu. eauto.
Qed.

Lemma agrees_alter K q b id f :
  agrees dev K q b ->
  (forall s, k_sets K !! id = Some s ->
     ss_key (f s) = ss_key s /\ undo_of (f s) q = undo_of s q /\ b_new b <> Some id) ->
  agrees dev (with_sets (alter f id) K) q b.
Proof.
  intros Ha Hf. eapply agrees_frame; [exact Ha|..]; cbn [k_sets with_sets k_nextset k_owner]; [| |lia|done].
  - intros id' s Es _. destruct (decide (id' = id)) as [->|Hne].
    + exists (f s). rewrite lookup_alter_eq, Es. destruct (Hf s Es) as (-> & -> & Hn). by split_and!.
    + exists s. by rewrite lookup_alter_ne by congruence.
  - intros id' s' Es'. left. destruct (decide (id' = id)) as [->|Hne].
    + rewrite lookup_alter_eq in Es'. destruct (k_sets K !! id) as [s|] eqn:Es; [|done].
      injection Es' as <-. destruct (Hf s eq_refl) as (? & ? & _). eauto.
    + rewrite lookup_alter_ne in Es' by congruence. eauto.
Qed.
End agree.

(** * One call *)

Section serve.
Variables (dev : Z) (p : Z).

(** What a served call keeps. *)
Record handled {R} (c : call R) (K : Kernel) (b : belief) (r : R) (K' : Kernel) (n' : nat) : Prop := mk_handled {
  ha_ok : kernel_ok K';
  ha_possible : possible c r b;
  ha_agrees : agrees dev K' p (after c r b);
  ha_intr : b_intr (after c r b) = n';
  ha_others : forall q bq, q <> p -> agrees dev K q bq ->
    (forall id, b_new b = Some id -> b_new bq <> Some id) -> agrees dev K' q bq;
  ha_new : forall id, b_new (after c r b) = Some id -> b_new b = Some id \/ id = k_nextset K;
  ha_undo : forall q id s', k_sets K' !! id = Some s' -> undo_of s' q <> 0 ->
    q = p \/ exists s, k_sets K !! id = Some s /\ undo_of s q <> 0
}.

Lemma handled_same {R} (c : call R) K b r n' :
  kernel_ok K -> possible c r b -> agrees dev K p (after c r b) -> b_intr (after c r b) = n' ->
  (forall id, b_new (after c r b) = Some id -> b_new b = Some id) ->
  handled c K b r K n'.
Proof. split; eauto. Qed.

(** A change of one set. *)
Lemma handled_alter {R} (c : call R) K b r n' id f :
  kernel_ok K -> possible c r b ->
  agrees dev (with_sets (alter f id) K) p (after c r b) -> b_intr (after c r b) = n' ->
  (forall id', b_new (after c r b) = Some id' -> b_new b = Some id') ->
  (forall s, k_sets K !! id = Some s -> ss_key (f s) = ss_key s /\ balanced (f s) /\
     (forall q, q <> p -> undo_of (f s) q = undo_of s q) /\
     (b_new b = Some id \/ ss_val s <> 0 \/ ~ held_by s None)) ->
  handled c K b r (with_sets (alter f id) K) n'.
Proof.
  intros HK Hp Ha Hn Hnew Hf. split; auto.
  - apply kernel_alter; [done|]. intros s Es. by destruct (Hf s Es) as (? & ? & _).
  - intros q bq Hq Haq Hdis. apply agrees_alter; [done|]. intros s Es.
    destruct (Hf s Es) as (? & _ & Hu & Hcase). split_and!; [done|by apply Hu|]. intros E.
    destruct Hcase as [Hb|Hs]; [by apply (Hdis id)|].
    destruct (ag_new _ _ _ _ Haq id E) as (s2 & Es2 & Hv & Hh). replace s2 with s in * by congruence.
    tauto.
  - intros q id' s' Es' Hu. destruct (decide (q = p)) as [|Hq]; [by left|right].
    cbn [k_sets with_sets] in Es'. destruct (decide (id' = id)) as [->|Hne].
    + rewrite lookup_alter_eq in Es'. destruct (k_sets K !! id) as [s|] eqn:Es; [|done].
      injection Es' as <-. destruct (Hf s eq_refl) as (_ & _ & Hsame & _).
      rewrite Hsame in Hu by done. eauto.
    + rewrite lookup_alter_ne in Es' by congruence. eauto.
Qed.

Section known.
Variables (K : Kernel) (b : belief).
Hypothesis HK : kernel_ok K.
Hypothesis Ha : agrees dev K p b.

Lemma agrees_with_key key proj :
  key = ftok_key dev proj -> lock_proj proj -> agrees dev K p (with_key key proj b).
Proof.
  intros Hk Hp. destruct Ha as [A1 A2 A3 A4 A5 A6 A7]. split; auto. cbn [b_keys with_key].
  intros key' proj' E. destruct (decide (key' = key)) as [->|Hne].
  - rewrite lookup_insert_eq in E. by injection E as <-.
  - rewrite lookup_insert_ne in E by done. auto.
Qed.

Lemma agrees_with_sem K' id proj b' :
  (* of the belief only the use of [id] changes *)
  agrees dev K' p b' ->
  id < k_nextset K' -> lock_proj proj ->
  (forall s, k_sets K' !! id = Some s -> ss_key s = ftok_key dev proj) ->
  agrees dev K' p (with_sem id (Some proj) b').
Proof.
  intros [A1 A2 A3 A4 A5 A6 A7] Hlt Hp Hk. split; auto. cbn [b_sems with_sem].
  intros id' proj' E. destruct (decide (id' = id)) as [->|Hne].
  - rewrite lookup_partial_alter_eq in E. injection E as <-. auto.
  - rewrite lookup_partial_alter_ne in E by done. auto.
Qed.

Lemma handled_semgetexcl key r K' :
  b_new b = None -> is_Some (b_keys b !! key) ->
  r = SemOk (k_nextset K) -> k_keys K !! key = None -> K' = new_set key K ->
  handled (SemgetExcl key) K b r K' (b_intr b).
Proof.
  intros Hn [proj Hproj] -> Hfree ->. destruct (ag_keys _ _ _ _ Ha _ _ Hproj) as [-> Hp].
  set (key := ftok_key dev proj) in *.
  assert (k_sets K !! (k_nextset K) = None) as Hid.
  { destruct (k_sets K !! (k_nextset K)) eqn:E; [|done]. pose proof (ks_fresh K HK _ _ E).  lia. }
  assert (forall id' s', <[(k_nextset K) := mkSet key 0 ∅]> (k_sets K) !! id' = Some s' ->
    (id' = (k_nextset K) /\ s' = mkSet key 0 ∅) \/ (id' <> (k_nextset K) /\ k_sets K !! id' = Some s')) as Hcase.
  { intros id' s' E. destruct (decide (id' = (k_nextset K))) as [->|Hne].
    - rewrite lookup_insert_eq in E. left. split; congruence.
    - rewrite lookup_insert_ne in E by done. by right. }
  assert (forall q bq, agrees dev K q bq -> agrees dev (new_set key K) q bq) as Hframe.
  { intros q bq Hq. eapply agrees_frame; [exact Hq|..]; cbn [k_sets k_nextset k_owner new_set]; [| |lia|done].
    - intros id' s Es _. exists s. rewrite lookup_insert_ne by (intros <-; congruence). by split_and!.
    - intros id' s' E. destruct (Hcase _ _ E) as [[-> ->]|[Hne E']]; [right|left; eauto].
      by split. }
  split; cbn [after possible]; rewrite ?Hproj; try done.
  - destruct HK as [H1 H2 H3 H4 H5]. split; cbn [k_sets k_keys k_nextset k_owner k_nextobj new_set]; [| | | |done].
    + intros id' s' E. destruct (Hcase _ _ E) as [[-> ->]|[Hne E']]; [apply lookup_insert_eq|].
      rewrite lookup_insert_ne; [auto|]. intros Hk.
      pose proof (H1 _ _ E'). congruence.
    + intros key' id' E. destruct (decide (key' = key)) as [->|Hne].
      * rewrite lookup_insert_eq in E. injection E as <-. exists (mkSet key 0 ∅).
        by rewrite lookup_insert_eq.
      * rewrite lookup_insert_ne in E by done. destruct (H2 _ _ E) as (s & Es & Ek). exists s.
        by rewrite lookup_insert_ne by (intros <-; congruence).
    + intros id' s' E. destruct (Hcase _ _ E) as [[-> ->]|[Hne E']]; [lia|].
      specialize (H3 _ _ E').  lia.
    + intros id' s' E. destruct (Hcase _ _ E) as [[-> ->]|[Hne E']]; [|eauto].
      right. split; [done|]. by exists None.
  - specialize (Hframe p b Ha). apply (agrees_with_sem (new_set key K) (k_nextset K) proj) in Hframe;
      [|cbn; lia|done|].
    + destruct Hframe as [A1 A2 A3 A4 A5 A6 A7]. split; auto. cbn [b_new with_new].
      intros ? [= <-]. exists (mkSet key 0 ∅). cbn [k_sets new_set]. rewrite lookup_insert_eq.
      by split_and!.
    + intros s E. cbn [k_sets new_set] in E. rewrite lookup_insert_eq in E. by injection E as <-.
  - intros q bq _ Hq _. by apply Hframe.
  - cbn. intros ? [= <-]. by right.
  - intros q id' s' E Hu. destruct (Hcase _ _ E) as [[-> ->]|[Hne E']]; [done|right; eauto].
Qed.

Lemma handled_setval id : b_new b = Some id -> handled (SemSetval id) K b true (set_value id 1 K) (b_intr b).
Proof.
  intros Hn. destruct (ag_new _ _ _ _ Ha id Hn) as (s & Es & Hv & Hh).
  assert (forall q, undo_of (mkSet (ss_key s) 1 ∅) q = undo_of s q) as Hu
    by (intros q; by rewrite Hh).
  unfold set_value. apply handled_alter; try done.
  - cbn [after]. apply (agrees_alter _ _ _ (with_new None b)).
    + destruct Ha as [A1 A2 A3 A4 A5 A6 A7]. by split.
    + intros s2 E2. replace s2 with s in * by congruence. split_and!; [done|apply Hu|done].
  - intros s2 E2. replace s2 with s in * by congruence. split_and!; [done| |intros q _; apply Hu|by left].
    left. by split.
Qed.

Lemma handled_rmid id r : b_new b = Some id -> handled (SemRmid id) K b r (remove_set id K) (b_intr b).
Proof.
  intros Hn. destruct (ag_new _ _ _ _ Ha id Hn) as (s & Es & Hv & Hh).
  assert (forall q bq, agrees dev K q bq -> b_new bq <> Some id -> agrees dev (remove_set id K) q bq) as Hframe.
  { intros q bq Hq Hnq. eapply agrees_frame; [exact Hq|..]; unfold remove_set; cbn [k_sets k_nextset k_owner];
      [| |lia|done].
    - intros id' s' Es' Hc. exists s'. rewrite lookup_delete_ne; [by split_and!|]. intros ->.
      replace s' with s in * by congruence. rewrite Hh in Hc. destruct Hc as [Hc|]; [|done]. by case_decide.
    - intros id' s' E. left. apply lookup_delete_Some in E as [_ E]. eauto. }
  split; cbn [after possible]; try done.
  - destruct HK as [H1 H2 H3 H4 H5]. unfold remove_set. rewrite Es.
    split; cbn [k_sets k_keys k_nextset k_owner k_nextobj]; [| | | |done].
    + intros id' s' E. apply lookup_delete_Some in E as [Hne E]. rewrite lookup_delete_ne; [auto|].
      intros Hk. pose proof (H1 _ _ Es). pose proof (H1 _ _ E). congruence.
    + intros key id' E. apply lookup_delete_Some in E as [Hne E]. destruct (H2 _ _ E) as (s' & Es' & Ek).
      exists s'. split; [|done]. rewrite lookup_delete_ne; [done|]. intros ->. congruence.
    + intros id' s' E. apply lookup_delete_Some in E as [_ E]. eauto.
    + intros id' s' E. apply lookup_delete_Some in E as [_ E]. eauto.
  - assert (agrees dev K p (with_new None (with_sem id None b))) as Ha'.
    { destruct Ha as [A1 A2 A3 A4 A5 A6 A7]. split; auto; [done|]. cbn [b_sems with_new with_sem].
      intros id' proj E. destruct (decide (id' = id)) as [->|Hne].
      - by rewrite lookup_partial_alter_eq in E.
      - rewrite lookup_partial_alter_ne in E by done. auto. }
    by apply Hframe.
  - intros q bq _ Hq Hdis. apply Hframe; [done|]. by apply Hdis.
  - intros q id' s' E Hu. right. unfold remove_set in E. cbn in E.
    apply lookup_delete_Some in E as [_ E]. eauto.
Qed.

(** One semaphore moves, the other sets stay. *)
Lemma sem_op_here d id s :
  k_sets K !! id = Some s -> k_sets (sem_op p id d K) !! id = Some (sem_add p d s).
Proof. intros Es. cbn [k_sets sem_op with_sets]. by rewrite lookup_alter_eq, Es. Qed.

Lemma sem_op_other d id id2 :
  id2 <> id -> k_sets (sem_op p id d K) !! id2 = k_sets K !! id2.
Proof. intros Hne. cbn [k_sets sem_op with_sets]. by rewrite lookup_alter_ne by congruence. Qed.

Lemma grasps_other d id proj id2 :
  id2 <> id -> grasps dev K p proj id2 -> grasps dev (sem_op p id d K) p proj id2.
Proof. intros Hne (s2 & E2 & Hs2). exists s2. by rewrite sem_op_other. Qed.

Lemma sem_op_known d id s id2 proj2 :
  k_sets K !! id = Some s -> b_sems b !! id2 = Some proj2 ->
  id2 < k_nextset (sem_op p id d K) /\ lock_proj proj2 /\
  forall s2, k_sets (sem_op p id d K) !! id2 = Some s2 -> ss_key s2 = ftok_key dev proj2.
Proof using Ha.
  intros Es E2. destruct (ag_sems _ _ _ _ Ha _ _ E2) as (? & ? & Hk2). split_and!; [done..|].
  intros s2 E3. destruct (decide (id2 = id)) as [->|Hne]; [|rewrite sem_op_other in E3; eauto].
  rewrite (sem_op_here d id s Es) in E3. injection E3 as <-. exact (Hk2 _ Es).
Qed.

Lemma agrees_down id s :
  allowed (SemDown id) b -> k_sets K !! id = Some s -> ss_val s = 1 -> held_by s None ->
  agrees dev (sem_op p id (-1) K) p (after (SemDown id) OpOk b).
Proof using Ha.
  intros (Hw & Hn & Hsem) Es Hv Hh. cbn [after].
  pose proof (sem_op_here (-1) id s Es) as Es'.
  assert (is_Some (b_sems b !! id)) as [proj Hproj] by (destruct Hsem as [?|[? _]]; by eexists).
  destruct (ag_sems _ _ _ _ Ha _ _ Hproj) as (Hlt & Hp & Hkey). specialize (Hkey _ Es).
  assert (grasps dev (sem_op p id (-1) K) p proj id) as Hg.
  { exists (sem_add p (-1) s). split_and!; [done|done|]. rewrite undo_of_add, Hh.
    by repeat case_decide. }
  assert (forall proj2 id2, grasps dev K p proj2 id2 -> grasps dev (sem_op p id (-1) K) p proj2 id2) as Hgs.
  { intros proj2 id2 Hg2. apply grasps_other; [|done]. intros ->. destruct Hg2 as (s2 & E2 & _ & Hu2).
    replace s2 with s in * by congruence. rewrite Hh in Hu2. by case_decide. }
  assert (forall id2 s2, k_sets (sem_op p id (-1) K) !! id2 = Some s2 -> undo_of s2 p <> 0 ->
    id2 = id \/ b_commit b = Some id2) as Hback.
  { intros id2 s2 E2 Hu2. destruct (decide (id2 = id)) as [|Hne]; [by left|right].
    rewrite sem_op_other in E2 by done. destruct (ag_back _ _ _ _ Ha id2 s2 E2 Hu2); congruence. }
  pose proof (fun id2 proj2 => sem_op_known (-1) id s id2 proj2 Es) as Hsems.
  destruct Ha as [A1 A2 A3 A4 A5 A6 A7]. unfold took. case_bool_decide as Hc.
  - replace proj with IPC_KEY in * by congruence. split; cbn; auto.
    + by intros ? [= <-].
    + intros id2 E2. congruence.
    + intros id2 s2 E2 Hu2. destruct (Hback id2 s2 E2 Hu2) as [->|]; auto.
  - destruct Hsem as [?|[Hs Hcm]]; [done|]. replace proj with COMMIT_IPC_KEY in * by congruence.
    split; cbn; auto; [by intros ? [= <-]|intros id2 E2; congruence|].
    intros id2 s2 E2 Hu2. destruct (Hback id2 s2 E2 Hu2) as [->|]; [by right|congruence].
Qed.

Lemma handled_down id s :
  allowed (SemDown id) b -> k_sets K !! id = Some s -> 0 < ss_val s ->
  handled (SemDown id) K b OpOk (sem_op p id (-1) K) (b_intr b).
Proof.
  intros Hal Es Hv. destruct (balanced_free s (ks_unit K HK _ _ Es) Hv) as [Hv1 Hh].
  apply handled_alter; try done.
  - by eapply agrees_down.
  - cbn [after]. unfold took. by case_bool_decide.
  - cbn [after]. unfold took. by case_bool_decide.
  - intros s2 E2. replace s2 with s in * by congruence. split_and!; [done| | |by right; left; lia].
    + right. split; [cbn; lia|]. exists (Some p). intros q. rewrite undo_of_add, !Hh.
      repeat case_decide; done || congruence.
    + intros q Hq. rewrite undo_of_add, !Hh. repeat case_decide; done || congruence.
Qed.

(** The lock a release gives back is one the process knows of. *)
Lemma release_of id s :
  allowed (SemUp id) b -> k_sets K !! id = Some s ->
  exists proj, lock_proj proj /\ ss_key s = ftok_key dev proj /\ undo_of s p = 1 /\
    (b_writer b = Some id -> proj = IPC_KEY) /\
    (b_writer b <> Some id -> proj = COMMIT_IPC_KEY /\ b_commit b = Some id).
Proof using Ha.
  intros Hal Es. destruct Hal as [E|[E0 E]].
  - destruct (ag_writer _ _ _ _ Ha id E) as (s2 & E2 & Hk & Hu2). replace s2 with s in * by congruence.
    exists IPC_KEY. split_and!; [by left|done..].
  - destruct (ag_commit _ _ _ _ Ha id E) as (s2 & E2 & Hk & Hu2). replace s2 with s in * by congruence.
    exists COMMIT_IPC_KEY. split_and!; [by right|done|done|congruence|done].
Qed.

Lemma agrees_up id s :
  allowed (SemUp id) b -> k_sets K !! id = Some s -> held_by s (Some p) ->
  agrees dev (sem_op p id 1 K) p (after (SemUp id) OpOk b).
Proof using Ha.
  intros Hal Es Hh. destruct (release_of id s Hal Es) as (proj & Hp & Hkey & Hup & Hpw & Hpc).
  pose proof (sem_op_here 1 id s Es) as Es'. cbn [after].
  assert (forall proj2, lock_proj proj2 -> proj2 <> proj -> ~ grasps dev K p proj2 id) as Hdiff.
  { intros proj2 Hp2 Hne (s2 & E2 & Hk2 & _). apply Hne, (ftok_inj dev); [done..|]. congruence. }
  assert (forall id2 s2, k_sets (sem_op p id 1 K) !! id2 = Some s2 -> undo_of s2 p <> 0 ->
    id2 <> id /\ (b_writer b = Some id2 \/ b_commit b = Some id2)) as Hback.
  { intros id2 s2 E2 Hu2. destruct (decide (id2 = id)) as [->|Hne].
    - rewrite Es' in E2. injection E2 as <-. rewrite undo_of_add, Hh in Hu2. by repeat case_decide.
    - split; [done|]. rewrite sem_op_other in E2 by done. by apply (ag_back _ _ _ _ Ha id2 s2). }
  pose proof (fun id2 proj2 => sem_op_known 1 id s id2 proj2 Es) as Hsems.
  assert (forall id2, b_new b = Some id2 -> exists s2, k_sets (sem_op p id 1 K) !! id2 = Some s2 /\
    ss_val s2 = 0 /\ held_by s2 None) as Hnews.
  { intros id2 E2. destruct (ag_new _ _ _ _ Ha id2 E2) as (s2 & E3 & Hs2). exists s2. split; [|done].
    rewrite sem_op_other; [done|]. intros ->. replace s2 with s in * by congruence.
    destruct Hs2 as [_ Hs2]. rewrite Hs2 in Hup. by case_decide. }
  destruct Ha as [A1 A2 A3 A4 A5 A6 A7]. unfold gave. case_bool_decide as Hc.
  - specialize (Hpw Hc). subst proj. split; cbn; auto; [done| |].
    + intros id2 E2. destruct (decide (id2 = id)) as [->|Hne]; [|by apply grasps_other; auto].
      exfalso. apply (Hdiff COMMIT_IPC_KEY); [by right|done|auto].
    + intros id2 s2 E2 Hu2. destruct (Hback id2 s2 E2 Hu2) as [Hne [E|E]]; [congruence|by right].
  - destruct (Hpc Hc) as [-> Hcm]. split; cbn; auto; [|done|].
    + intros id2 E2. apply grasps_other; [congruence|auto].
    + intros id2 s2 E2 Hu2. destruct (Hback id2 s2 E2 Hu2) as [Hne [E|E]]; [by left|congruence].
Qed.

Lemma handled_up id s :
  allowed (SemUp id) b -> k_sets K !! id = Some s ->
  handled (SemUp id) K b OpOk (sem_op p id 1 K) (b_intr b).
Proof.
  intros Hal Es. destruct (release_of id s Hal Es) as (_ & _ & _ & Hup & _).
  destruct (balanced_holder s p (ks_unit K HK _ _ Es) Hup) as [Hv Hh].
  apply handled_alter; try done.
  - by eapply agrees_up.
  - cbn [after]. unfold gave. by case_bool_decide.
  - cbn [after]. unfold gave. by case_bool_decide.
  - intros s2 E2. replace s2 with s in * by congruence. split_and!; [done| | |].
    + left. split; [cbn; lia|]. intros q. rewrite undo_of_add, !Hh. repeat case_decide; done || congruence.
    + intros q Hq. rewrite undo_of_add, !Hh. repeat case_decide; done || congruence.
    + right. right. intros H. rewrite H in Hup. by case_decide.
Qed.

Lemma handled_shmcreate :
  handled ShmCreateExcl K b (Some (k_nextobj K)) (new_obj p K) (b_intr b).
Proof.
  assert (k_owner K !! k_nextobj K = None) as Hfree.
  { destruct (k_owner K !! k_nextobj K) eqn:E; [|done]. pose proof (ks_obj K HK _ _ E). lia. }
  assert (forall q bq, agrees dev K q bq -> agrees dev (new_obj p K) q bq) as Hframe.
  { intros q bq Hq. eapply agrees_frame; [exact Hq|..]; cbn [k_sets k_nextset k_owner new_obj]; [| |lia|].
    - intros id s Es _. exists s. by split_and!.
    - intros id s Es. left. eauto.
    - intros o E. rewrite lookup_insert_ne; [done|]. intros <-. congruence. }
  split; cbn [after possible]; try done.
  - destruct HK as [H1 H2 H3 H4 H5]. split; cbn [k_sets k_keys k_nextset k_owner k_nextobj new_obj]; auto.
    intros o q E. destruct (decide (o = k_nextobj K)) as [->|Hne]; [lia|].
    rewrite lookup_insert_ne in E by done. specialize (H5 _ _ E). lia.
  - pose proof (Hframe p b Ha) as [A1 A2 A3 A4 A5 A6 A7]. split; auto.
    cbn [b_mine with_mine]. intros o Ho. destruct (decide (o = k_nextobj K)) as [->|Hne].
    + cbn [k_owner new_obj]. apply lookup_insert_eq.
    + apply A6. apply elem_of_union in Ho as [Ho|Ho]; [done|]. by apply elem_of_singleton in Ho.
  - intros q bq _ Hq _. by apply Hframe.
  - intros id Hid. by left.
  - intros q id s Es Hu. right. eauto.
Qed.
End known.
End serve.

(** Every answer the kernel gives. *)
Lemma serves_handled dev p {R} (c : call R) K b n r K' n' :
  kernel_ok K -> agrees dev K p b -> allowed c b -> b_intr b = n ->
  serves dev p c K n r K' n' -> handled dev p c K b r K' n'.
Proof.
  intros HK Ha Hal Hn Hs. destruct c; cbn [serves allowed] in Hs, Hal;
    try (destruct Hs as [-> ->]; by apply handled_same); try done.
  - (* read_dir *)
    destruct Hs as (_ & -> & ->). by apply handled_same.
  - (* read *)
    destruct Hs as (_ & -> & ->). by apply handled_same.
  - (* ftok *)
    destruct Hs as ([->| ->] & -> & ->); apply handled_same; try done.
    by apply agrees_with_key.
  - (* semget, exclusive *)
    destruct Hal as [Hnew Hkey].
    destruct Hs as (-> & [(-> & ->)|[(-> & _ & ->)|(-> & Hfree & ->)]]); [by apply handled_same..|].
    subst n. by apply handled_semgetexcl.
  - (* semget *)
    destruct Hs as (Hr & -> & ->). destruct r as [id|]; [|by apply handled_same].
    destruct Hr as [|Hr]; [done|]. symmetry in Hr. destruct Hal as [proj Hproj].
    apply handled_same; try done. cbn [after]. rewrite Hproj.
    destruct (ag_keys _ _ _ _ Ha _ _ Hproj) as [-> Hp].
    destruct (ks_set K HK _ _ Hr) as (s & Es & Hk).
    apply agrees_with_sem; [done|by eapply ks_fresh|done|].
    intros s2 E2. by replace s2 with s by congruence.
  - (* setval *)
    destruct Hs as (-> & [(-> & ->)|(-> & ->)]); [by apply handled_same|].
    subst n. by apply handled_setval.
  - (* rmid *)
    destruct Hs as (-> & ->). subst n. by apply handled_rmid.
  - (* down *)
    destruct Hs as [(-> & Hn' & ->)|(-> & [(-> & ->)|(s & Es & Hv & -> & ->)])].
    + apply handled_same; cbn [after possible]; try done; [lia| |cbn; lia].
      destruct Ha as [A1 A2 A3 A4 A5 A6 A7]. by split.
    + by apply handled_same.
    + subst n. by apply (handled_down dev p K b HK Ha id s).
  - (* up *)
    destruct Hs as [(-> & Hn' & ->)|(-> & [(Es & -> & ->)|([s Es] & -> & ->)])].
    + apply handled_same; cbn [after possible]; try done; [lia| |cbn; lia].
      destruct Ha as [A1 A2 A3 A4 A5 A6 A7]. by split.
    + exfalso. destruct Hal as [E|[_ E]].
      * destruct (ag_writer _ _ _ _ Ha _ E) as (s & Es' & _). congruence.
      * destruct (ag_commit _ _ _ _ Ha _ E) as (s & Es' & _). congruence.
    + subst n. by apply (handled_up dev p K b HK Ha id s).
  - (* shm_open, exclusive *)
    destruct Hs as (-> & [(-> & ->)|(-> & ->)]); [by apply handled_same|].
    subst n. by apply handled_shmcreate.
Qed.

(** * One step *)

(** A segment program goes on. *)
Lemma touches_access {A} o (pr : prog A) b s :
  touches o pr b ->
  let pr' := fst (pstep pr s) in
  let b' := if publishes pr then with_mine (fun m => m ∖ {[o]}) b else b in
  touches o pr' b' /\ publishes pr' = false /\ (publishes pr = true -> o ∈ b_mine b).
Proof.
  intros Ht. cbv zeta. destruct Ht as [Hl|[[Hw Hu]|[Ho [Hu|(v & a & ->)]]]].
  - assert (publishes pr = false) as -> by by apply unready_publishes, looks_unready.
    assert (looks (fst (pstep pr s))) as Hl' by (destruct pr; try done; apply Hl).
    split_and!; [by left|by apply unready_publishes, looks_unready|done].
  - rewrite unready_publishes by done.
    assert (unready (fst (pstep pr s))) as Hu' by (destruct pr; try done; apply Hu).
    split_and!; [by right; left|by apply unready_publishes|done].
  - rewrite unready_publishes by done.
    assert (unready (fst (pstep pr s))) as Hu' by (destruct pr; try done; apply Hu).
    split_and!; [right; right; split; [done|by left]|by apply unready_publishes|done].
  - cbn. split_and!; [by left|done..].
Qed.

Section step.
Context `{AL : Allocator}.
Variables (fuel : nat) (dev : Z).

Definition believes_next (c c' : config) (B B' : Z -> belief) : Prop :=
  kernel_ok (c_kernel c') /\ believes dev c' B' /\
  (forall p id, is_Some (c_procs c' !! p) -> b_new (B' p) = Some id ->
    (is_Some (c_procs c !! p) /\ b_new (B p) = Some id) \/ id = k_nextset (c_kernel c)) /\
  (forall p m n, c_procs c !! p = Some (m, n) -> in_segment m = true ->
     b_writer (B' p) = b_writer (B p)).

Definition upd (B : Z -> belief) (p : Z) (b : belief) (q : Z) : belief :=
  if decide (q = p) then b else B q.

Lemma upd_same B p b : upd B p b p = b.
Proof. unfold upd. by rewrite decide_True. Qed.

Lemma upd_other B p b q : q <> p -> upd B p b q = B q.
Proof. intros H. unfold upd. by rewrite decide_False. Qed.

(** One process goes on, the others stay. *)
Lemma believes_upd c B p K' objs m' n' b' :
  believes dev c B -> kernel_ok K' ->
  (b_new b' = None \/ is_Some (c_procs c !! p)) ->
  obeys m' b' over -> agrees dev K' p b' -> b_intr b' = n' ->
  (forall q m n, q <> p -> c_procs c !! q = Some (m, n) -> agrees dev K' q (B q)) ->
  (forall id, b_new b' = Some id -> b_new (B p) = Some id \/ id = k_nextset (c_kernel c)) ->
  (forall q id s', k_sets K' !! id = Some s' -> undo_of s' q <> 0 ->
     q = p \/ exists s, k_sets (c_kernel c) !! id = Some s /\ undo_of s q <> 0) ->
  (forall m n, c_procs c !! p = Some (m, n) -> in_segment m = true -> b_writer b' = b_writer (B p)) ->
  kernel_ok (c_kernel c) ->
  believes_next c (mkConfig K' objs (<[p := (m', n')]> (c_procs c))) B (upd B p b').
Proof.
  intros (H1 & H2 & H3) HK' Hlive Hm Ha Hn Hothers Hnew Hundo Hseg HK.
  assert (forall q id, is_Some (c_procs c !! q) -> b_new (B q) = Some id -> id <> k_nextset (c_kernel c))
    as Hold.
  { intros q id [[m n] Eq] E ->. destruct (H1 _ _ _ Eq) as (_ & Haq & _).
    destruct (ag_new _ _ _ _ Haq _ E) as (s & Es & _). pose proof (ks_fresh _ HK _ _ Es). lia. }
  assert (forall q, is_Some (<[p := (m', n')]> (c_procs c) !! q) -> q = p \/ is_Some (c_procs c !! q)) as Hin.
  { intros q. destruct (decide (q = p)) as [->|Hne]; [by left|]. rewrite lookup_insert_ne by done. by right. }
  split; [done|]. split; [split_and!|split]; cbn [c_procs c_kernel].
  - intros q m n E. destruct (decide (q = p)) as [->|Hne].
    + rewrite lookup_insert_eq in E. injection E as <- <-. rewrite upd_same. done.
    + rewrite lookup_insert_ne in E by done. rewrite upd_other by done.
      destruct (H1 _ _ _ E) as (? & _ & ?). split_and!; [done|by eapply Hothers|done].
  - intros q1 q2 id L1 L2. apply Hin in L1, L2.
    destruct (decide (q1 = p)) as [->|N1], (decide (q2 = p)) as [->|N2]; [done|..];
      rewrite ?upd_same, ?upd_other by done; intros E1 E2.
    + destruct L2 as [|L2]; [done|]. destruct (Hnew _ E1) as [E|E]; [|by destruct (Hold _ _ L2 E2)].
      destruct Hlive as [|Hlive]; [congruence|]. by apply (H2 p q2 id).
    + destruct L1 as [|L1]; [done|]. destruct (Hnew _ E2) as [E|E]; [|by destruct (Hold _ _ L1 E1)].
      destruct Hlive as [|Hlive]; [congruence|]. by apply (H2 q1 p id).
    + destruct L1, L2; try done. by apply (H2 q1 q2 id).
  - intros q id s' Es' Hu. destruct (decide (q = p)) as [->|Hne]; [rewrite lookup_insert_eq; by eexists|].
    rewrite lookup_insert_ne by done. destruct (Hundo _ _ _ Es' Hu) as [|(s & Es & Hu')]; [done|eauto].
  - intros q id L E. destruct (decide (q = p)) as [->|Hne].
    + rewrite upd_same in E. destruct (Hnew _ E) as [E'|]; [|by right]. left.
      destruct Hlive as [|Hlive]; [congruence|done].
    + rewrite upd_other in E by done. left. destruct (Hin _ L) as [|L']; done.
  - intros q m n Eq Hq. destruct (decide (q = p)) as [->|Hne]; [|by rewrite upd_other].
    rewrite upd_same. by eapply Hseg.
Qed.

(** What a death does to the kernel's books. *)
Lemma undo_lookup p K id s' :
  k_sets (undo_all p K) !! id = Some s' <->
  exists s, k_sets K !! id = Some s /\ s' = release_undo p s.
Proof.
  unfold undo_all. cbn [k_sets with_sets]. rewrite lookup_fmap.
  destruct (k_sets K !! id) as [s|]; cbn; split; try done.
  - intros [= <-]. eauto.
  - by intros (s2 & [= <-] & ->).
  - by intros (s2 & ? & _).
Qed.

Lemma balanced_release p s : balanced s -> balanced (release_undo p s).
Proof.
  intros Hb. destruct (balanced_undo s p Hb) as [Hu|Hu].
  - destruct Hb as [[Hv Hh]|[Hv [o Hh]]]; [left|right];
      (split; [unfold release_undo; cbn; lia|]); [|exists o];
      intros q; rewrite undo_of_release; case_decide as Hq; auto; subst q;
      rewrite <- Hh; congruence.
  - destruct (balanced_holder s p Hb Hu) as [Hv Hh]. left.
    split; [unfold release_undo; cbn; lia|]. intros q. rewrite undo_of_release, Hh.
    repeat case_decide; done || congruence.
Qed.

Lemma kernel_undo p K : kernel_ok K -> kernel_ok (undo_all p K).
Proof.
  intros [K1 K2 K3 K4 K5]. split; [| | | |done].
  - intros id s' E. apply undo_lookup in E as (s & Es & ->). by apply (K1 _ _ Es).
  - intros key id E. destruct (K2 _ _ E) as (s & Es & Ek). exists (release_undo p s).
    split; [apply undo_lookup; eauto|done].
  - intros id s' E. apply undo_lookup in E as (s & Es & _). eauto.
  - intros id s' E. apply undo_lookup in E as (s & Es & ->). eauto using balanced_release.
Qed.

Lemma agrees_undo p K q b : q <> p -> agrees dev K q b -> agrees dev (undo_all p K) q b.
Proof.
  intros Hq Ha. eapply agrees_frame; [exact Ha|..]; [| |cbn; lia|done].
  - intros id s Es Hc. exists (release_undo p s). rewrite undo_lookup, undo_of_release.
    rewrite decide_False by done. split_and!; [eauto|done..|]. intros E'.
    destruct (ag_new _ _ _ _ Ha _ E') as (s2 & E2 & Hv & Hh).
    replace s2 with s in * by congruence. split.
    + unfold release_undo. cbn. rewrite Hh. case_decide; [done|lia].
    + intros _ y. rewrite undo_of_release, Hh. by case_decide.
  - intros id s' E'. apply undo_lookup in E' as (s & Es & ->).
    left. exists s. rewrite undo_of_release, decide_False by done. done.
Qed.

(** The header says ready: the object is everybody's. *)
Lemma kernel_publish p o K : kernel_ok K -> kernel_ok (publish_obj p o K).
Proof.
  intros HK. unfold publish_obj. case_bool_decide; [|done].
  destruct HK as [K1 K2 K3 K4 K5]. split; cbn; auto.
  intros o' q E. apply lookup_delete_Some in E as [_ E]. eauto.
Qed.

Lemma agrees_publish p o K q b : q <> p -> agrees dev K q b -> agrees dev (publish_obj p o K) q b.
Proof.
  intros Hq Haq. unfold publish_obj. case_bool_decide as Ho; [|done].
  eapply agrees_frame; [exact Haq|..]; cbn [k_sets k_nextset k_owner]; [| |lia|].
  - intros id s Es _. exists s. by split_and!.
  - intros id s Es. left. eauto.
  - intros o' E. rewrite lookup_delete_ne; [done|]. intros <-. congruence.
Qed.

Lemma agrees_published p o K b :
  o ∈ b_mine b -> agrees dev K p b ->
  agrees dev (publish_obj p o K) p (with_mine (fun m => m ∖ {[o]}) b).
Proof.
  intros Ho [A1 A2 A3 A4 A5 A6 A7]. unfold publish_obj.
  rewrite bool_decide_eq_true_2 by auto. split; auto. cbn [b_mine with_mine k_owner].
  intros o' Ho'. apply elem_of_difference in Ho' as [Ho' Hne]. rewrite lookup_delete_ne; [auto|].
  intros <-. by apply Hne, elem_of_singleton.
Qed.

Section one.
Variables (c : config) (B : Z -> belief).
Hypothesis HK : kernel_ok (c_kernel c).
Hypothesis HB : believes dev c B.

Lemma start_believes p es g n :
  c_procs c !! p = None -> (n < fuel)%nat ->
  exists B', believes_next c
    (mkConfig (c_kernel c) (c_objs c) (<[p := (calls fuel es g, n)]> (c_procs c))) B B'.
Proof using HK HB.
  intros Hp Hn. pose proof HB as (H1 & H2 & H3).
  set (b := mkBelief None None None ∅ ∅ ∅ n). exists (upd B p b).
  apply believes_upd; [done|..|done].
  - done.
  - by left.
  - eapply obeys_mono; [by apply tidy_calls|]. intros [] b' []. by split_and!.
  - split; try done. intros id s Es Hu. exfalso. destruct (H3 p id s) as [? ?]; [done..|congruence].
  - done.
  - intros q m n' _ E. by apply (H1 _ _ _ E).
  - done.
  - intros q id s' Es Hu. right. eauto.
  - congruence.
Qed.

Lemma death_believes p :
  exists B', believes_next c
    (mkConfig (undo_all p (c_kernel c)) (c_objs c) (delete p (c_procs c))) B B'.
Proof using HK HB.
  pose proof HB as (H1 & H2 & H3). exists B. unfold believes_next, believes. cbn [c_kernel c_procs].
  split_and!.
  - by apply kernel_undo.
  - intros q m n E. apply lookup_delete_Some in E as [Hq E].
    destruct (H1 _ _ _ E) as (Hm & Ha & Hn). split_and!; [done| |done].
    apply agrees_undo; [congruence|done].
  - intros q1 q2 id [x1 L1] [x2 L2]. apply lookup_delete_Some in L1 as [_ L1], L2 as [_ L2]. eauto.
  - intros q id s' E Hu. apply undo_lookup in E as (s & Es & ->).
    rewrite undo_of_release in Hu. case_decide as Hq; [done|].
    rewrite lookup_delete_ne by done. eauto.
  - intros q id [y L] E. apply lookup_delete_Some in L as [_ L]. left. eauto.
  - done.
Qed.

Lemma call_believes p R (cl : call R) k n r K' n' :
  c_procs c !! p = Some (ICall cl k, n) -> serves dev p cl (c_kernel c) n r K' n' ->
  exists B', believes_next c (mkConfig K' (c_objs c) (<[p := (k r, n')]> (c_procs c))) B B'.
Proof using HK HB.
  intros Hp Hs. pose proof HB as (H1 & H2 & H3).
  destruct (H1 _ _ _ Hp) as (Hm & Ha & Hn). destruct Hm as [Hal Hm].
  destruct (serves_handled dev p cl _ _ _ _ _ _ HK Ha Hal Hn Hs) as [Hok Hpos Ha' Hn' Hoth Hnew Hundo].
  exists (upd B p (after cl r (B p))). apply believes_upd; [done|..|done].
  - done.
  - right. by eexists.
  - by apply Hm.
  - done.
  - done.
  - intros q m n0 Hq Eq. destruct (H1 _ _ _ Eq) as (_ & Haq & _). apply Hoth; [done..|].
    intros id E E'. apply Hq. apply (H2 q p id); [by eexists|by eexists|done..].
  - done.
  - done.
  - intros m n0 E Hin. replace m with (ICall cl k) in Hin by congruence. by destruct cl.
Qed.

Lemma access_believes p A o (pr : prog A) k n :
  c_procs c !! p = Some (ICall (Seg o pr) k, n) ->
  exists B', believes_next c
    (mkConfig (if publishes pr then publish_obj p o (c_kernel c) else c_kernel c)
       (<[o := snd (pstep pr (seg_of c o))]> (c_objs c))
       (<[p := (ICall (Seg o (fst (pstep pr (seg_of c o)))) k, n)]> (c_procs c))) B B'.
Proof using HK HB.
  intros Hp. pose proof HB as (H1 & H2 & H3).
  destruct (H1 _ _ _ Hp) as (Hm & Ha & Hn). destruct Hm as [Hal Hm].
  destruct (touches_access o pr (B p) (seg_of c o) Hal) as (Ht' & Hpub & Hown).
  exists (upd B p (if publishes pr then with_mine (fun m => m ∖ {[o]}) (B p) else B p)).
  apply believes_upd; [done|..|done].
  - destruct (publishes pr); [by apply kernel_publish|done].
  - right. by eexists.
  - split; [exact Ht'|]. intros r _. cbn [after]. rewrite Hpub. apply (Hm r I).
  - destruct (publishes pr); [|done]. apply agrees_published; auto.
  - by destruct (publishes pr).
  - intros q m n0 Hq Eq. destruct (H1 _ _ _ Eq) as (_ & Haq & _).
    destruct (publishes pr); [by apply agrees_publish|done].
  - intros id E. left. by destruct (publishes pr).
  - intros q id s' Es Hu. right. exists s'. split; [|done].
    destruct (publishes pr); [|done]. unfold publish_obj in Es. by case_bool_decide.
  - intros m n0 _ _. by destruct (publishes pr).
Qed.

(** The kernel has no part in it and the belief stays. *)
Lemma quiet_believes p m n m' :
  c_procs c !! p = Some (m, n) -> (obeys m (B p) over -> obeys m' (B p) over) ->
  exists B', believes_next c (mkConfig (c_kernel c) (c_objs c) (<[p := (m', n)]> (c_procs c))) B B'.
Proof using HK HB.
  intros Hp Hm'. pose proof HB as (H1 & H2 & H3). destruct (H1 _ _ _ Hp) as (Hm & Ha & Hn).
  exists (upd B p (B p)). apply believes_upd; [done|..|done].
  - done.
  - right. by eexists.
  - auto.
  - done.
  - done.
  - intros q m0 n0 _ Eq. by apply (H1 _ _ _ Eq).
  - intros id E. by left.
  - intros q id s' Es Hu. right. eauto.
  - done.
Qed.
End one.

Lemma step_believes c c' B :
  kernel_ok (c_kernel c) -> believes dev c B -> step fuel dev c c' ->
  exists B', believes_next c c' B B'.
Proof.
  intros HK HB Hstep.
  destruct Hstep as [p es g n Hp Hn|p x Hp|p R cl k n r K' n' Hp Hs|p A o pr k n Hp|p A o a k n Hp|p A o pr k n ask Hp].
  - by apply start_believes.
  - by apply death_believes.
  - by eapply call_believes.
  - by apply access_believes.
  - eapply quiet_believes; [exact HK|exact HB|exact Hp|]. intros [_ Hm]. apply (Hm a I).
  - eapply quiet_believes; [exact HK|exact HB|exact Hp|]. intros [Hal Hm].
    split; [apply Hal|]. intros r _. cbn [after]. destruct (Hal ask) as [_ ->]. apply (Hm r I).
Qed.
End step.
