(* ===== verification/LockingThms.v ===== *)
(** What the locking discipline is good for, over every interleaving of any
    number of processes, any of which may die at any step. *)

From S2P Require Import Prelude Consts Hash Names Segment Shm Cache ShmTrace World Disk Sem Attach Store Lib Race Locking LockingInv LockingCode LockingSys.

Section reached.
Context `{AL : Allocator}.
Variables (fuel : nat) (dev : Z).

Lemma steps_sound c c' :
  sound dev c -> rtc (step fuel dev) c c' -> sound dev c'.
Proof.
  intros Hc H. induction H as [|c1 c2 c3 Hstep _ IH]; [done|].
  apply IH. destruct Hc as (HK & B & HB). destruct (step_believes _ _ _ _ _ HK HB Hstep) as (B' & HK' & HB' & _).
  split; [done|]. by exists B'.
Qed.

Lemma boot_sound : sound dev boot.
Proof.
  split.
  - split; cbn; intros *; rewrite ?lookup_empty; done.
  - exists (fun _ => mkBelief None None None ∅ ∅ ∅ O). split_and!; cbn.
    + intros p m n. by rewrite lookup_empty.
    + intros p q id [x H]. by rewrite lookup_empty in H.
    + intros p id s. by rewrite lookup_empty.
Qed.

Lemma reached_sound c : reached fuel dev c -> sound dev c.
Proof. apply steps_sound, boot_sound. Qed.

(** ** The locks *)

Lemma held_once K id1 id2 s1 s2 p q :
  kernel_ok K -> k_sets K !! id1 = Some s1 -> k_sets K !! id2 = Some s2 -> ss_key s1 = ss_key s2 ->
  undo_of s1 p = 1 -> undo_of s2 q = 1 -> p = q.
Proof.
  intros HK E1 E2 Ek H1 H2.
  pose proof (ks_key K HK _ _ E1) as K1. pose proof (ks_key K HK _ _ E2) as K2.
  assert (id1 = id2) as -> by congruence. replace s2 with s1 in * by congruence.
  destruct (balanced_holder s1 p (ks_unit K HK _ _ E1) H1) as [_ Hh].
  rewrite Hh in H2. case_decide; congruence.
Qed.

(** C18: each of the two locks is held by one process at most, whatever the
    interleaving of any number of processes, each making any calls of the C
    interface, and whatever the rest of the system answers them; a process
    whose calls have returned holds none; and when the holder dies, at any
    point, the semaphore is free again. *)
Theorem locks_exclude (c : config) (p proj : Z) :
  reached fuel dev c -> holds dev c p proj ->
  (forall q, holds dev c q proj -> q = p) /\
  (forall n, c_procs c !! p <> Some (iret tt, n)) /\
  (forall c' id s, c' = mkConfig (undo_all p (c_kernel c)) (c_objs c) (delete p (c_procs c)) ->
     k_sets (c_kernel c') !! id = Some s -> ss_key s = ftok_key dev proj -> ss_val s = 1).
Proof.
  intros Hr (id & s & Es & Ek & Hu). destruct (reached_sound c Hr) as (HK & B & H1 & H2 & H3).
  split_and!.
  - intros q (id2 & s2 & E2 & Ek2 & Hu2). eapply (held_once (c_kernel c) id2 id); eauto. congruence.
  - intros n E. destruct (H1 _ _ _ E) as ((Hw & Hcm & _) & Ha & _).
    destruct (ag_back _ _ _ _ Ha id s Es) as [|]; congruence || lia.
  - intros c' id2 s2 -> E2 Ek2. cbn [c_kernel] in E2.
    assert (k_sets (undo_all p (c_kernel c)) !! id2 = release_undo p <$> (k_sets (c_kernel c) !! id2)) as Hlk
      by apply lookup_fmap.
    rewrite Hlk in E2. destruct (k_sets (c_kernel c) !! id2) as [s3|] eqn:E3; [|done].
    injection E2 as <-. cbn [ss_key release_undo] in Ek2.
    pose proof (ks_key _ HK _ _ Es) as K1. pose proof (ks_key _ HK _ _ E3) as K2.
    assert (id2 = id) as -> by congruence. replace s3 with s in * by congruence.
    destruct (balanced_holder s p (ks_unit _ HK _ _ Es) Hu) as [Hv _]. cbn. lia.
Qed.

(** C5: shm.rs leaves it to its callers to hold the semaphore around every
    operation that writes, and they do: in every reachable state, a process
    that is inside a segment program that may still write to a ready object
    holds the writer lock, so two processes are never inside two such programs
    at once and each operation runs as if alone.  An object that is not ready
    is written to by its creator only, or by a holder of the lock. *)
Theorem writers_serialised (c : config) (p q o : Z) :
  reached fuel dev c ->
  (writing c p o -> k_owner (c_kernel c) !! o = None -> holds dev c p IPC_KEY) /\
  (writing c p o -> writing c q o -> k_owner (c_kernel c) !! o = None -> p = q) /\
  (writing c p o -> k_owner (c_kernel c) !! o <> None ->
     k_owner (c_kernel c) !! o = Some p \/ holds dev c p IPC_KEY).
Proof.
  intros Hr. destruct (reached_sound c Hr) as (HK & B & H1 & _).
  assert (forall p, writing c p o -> holds dev c p IPC_KEY \/ k_owner (c_kernel c) !! o = Some p) as Hw.
  { intros x (A & pr & k & n & E & Hpr). destruct (H1 _ _ _ E) as ([Hal _] & Ha & _).
    destruct Hal as [|[[[id Hid] _]|[Ho _]]]; [done|left|right].
    - destruct (ag_writer _ _ _ _ Ha _ Hid) as (s & ?). by exists id, s.
    - by apply Ha. }
  split_and!.
  - intros Hp Ho. destruct (Hw p Hp); [done|congruence].
  - intros Hp Hq Ho. destruct (Hw p Hp) as [(id & s & E1 & K1 & U1)|]; [|congruence].
    destruct (Hw q Hq) as [(id2 & s2 & E2 & K2 & U2)|]; [|congruence].
    eapply (held_once (c_kernel c) id id2); eauto. congruence.
  - intros Hp _. destruct (Hw p Hp); auto.
Qed.

(** ** Waiting *)

Lemma obeys_awaits (m : io unit) b Q id :
  obeys m b Q -> awaits m = Some id -> allowed (SemDown id) b.
Proof. intros H E. destruct m as [|R [] k]; try done. injection E as ->. apply H. Qed.

Lemma obeys_initialises (m : io unit) b Q id :
  obeys m b Q -> initialises m = Some id -> b_new b = Some id.
Proof. intros H E. destruct m as [|R [] k]; try done; injection E as ->; apply H. Qed.

#[export] Instance stalled_dec c p : Decision (stalled c p).
Proof.
  unfold stalled. destruct (c_procs c !! p) as [[m n]|] eqn:E;
    [|right; by intros (? & ? & ? & ? & ? & _)].
  destruct (awaits m) as [id|] eqn:Ea;
    [|right; intros (? & ? & ? & ? & ? & ? & _); congruence].
  destruct (k_sets (c_kernel c) !! id) as [s|] eqn:Es;
    [|right; intros (? & ? & ? & ? & ? & ? & ? & _); congruence].
  destruct (decide (ss_val s = 0)); [left; by exists m, n, id, s|].
  right. intros (? & ? & ? & ? & ? & ? & ? & ?). congruence.
Defined.

Section wait.
Variables (c : config) (B : Z -> belief).
Hypothesis HK : kernel_ok (c_kernel c).
Hypothesis HB : believes dev c B.

(** Who is initialising a set is not waiting, nor done. *)
Lemma creator_moves q m n id :
  c_procs c !! q = Some (m, n) -> b_new (B q) = Some id -> can_move c q.
Proof.
  intros Eq Hn. destruct HB as (H1 & _ & _). destruct (H1 _ _ _ Eq) as (Hm & _ & _).
  exists m, n. split_and!; [done| |].
  - intros a ->. destruct Hm as (_ & _ & E). congruence.
  - intros (m' & n' & id' & s & E & Ea & _). replace m' with m in * by congruence.
    destruct (obeys_awaits _ _ _ _ Hm Ea) as (_ & E' & _). congruence.
Qed.

(** Nor is the holder of the writer lock. *)
Lemma writer_moves q m n id :
  c_procs c !! q = Some (m, n) -> b_writer (B q) = Some id -> can_move c q.
Proof.
  intros Eq Hn. destruct HB as (H1 & _ & _). destruct (H1 _ _ _ Eq) as (Hm & _ & _).
  exists m, n. split_and!; [done| |].
  - intros a ->. destruct Hm as (E & _ & _). congruence.
  - intros (m' & n' & id' & s & E & Ea & _). replace m' with m in * by congruence.
    destruct (obeys_awaits _ _ _ _ Hm Ea) as (E' & _). congruence.
Qed.

(** A semaphore that is 0 has a holder, a creator, or neither. *)
Lemma zero_cases id s :
  k_sets (c_kernel c) !! id = Some s -> ss_val s = 0 ->
  (exists q m n, c_procs c !! q = Some (m, n) /\ (b_writer (B q) = Some id \/ b_commit (B q) = Some id)) \/
  (exists q, can_move c q) \/ orphan c id.
Proof.
  intros Es Hv. destruct HB as (H1 & _ & H3).
  destruct (ks_unit _ HK _ _ Es) as [[? _]|[_ [o Hh]]]; [lia|].
  destruct o as [q|].
  - left. assert (undo_of s q <> 0) as Hu by (rewrite Hh, decide_True by done; lia).
    destruct (H3 q id s Es Hu) as [[m n] Eq]. exists q, m, n. split; [done|].
    destruct (H1 _ _ _ Eq) as (_ & Ha & _). by apply (ag_back _ _ _ _ Ha id s).
  - right. destruct (decide (map_Exists (fun q _ => b_new (B q) = Some id) (c_procs c))) as [Hex|Hno].
    + left. destruct Hex as (q & [m n] & Eq & Hq). exists q. by eapply creator_moves.
    + right. split.
      * exists s. split_and!; [done..|]. intros q. by rewrite Hh.
      * intros q m n Eq E. apply Hno. exists q, (m, n). split; [done|].
        destruct (H1 _ _ _ Eq) as (Hm & _ & _). by eapply obeys_initialises.
Qed.
End wait.

(** C13: the two locks cannot deadlock: they are always taken in the same order.
    Whenever a process waits for a semaphore, some process can go on, or the
    semaphore that is waited for in the end was created by a process that has
    died before giving it its first value. *)
Theorem locks_make_progress (c : config) (p : Z) :
  reached fuel dev c -> stalled c p -> (exists q, can_move c q) \/ (exists id, orphan c id).
Proof.
  intros Hr (m & n & id & s & Ep & Ea & Es & Hv).
  destruct (reached_sound c Hr) as (HK & B & HB). pose proof HB as (H1 & _ & _).
  destruct (zero_cases c B HK HB id s Es Hv) as [(q & mq & nq & Eq & Hq)|[|]]; [|by left|eauto].
  destruct (b_writer (B q)) as [w|] eqn:Ew; [left; exists q; by eapply writer_moves|].
  destruct Hq as [|Hq]; [done|].
  destruct (H1 _ _ _ Eq) as (Hmq & Haq & _).
  destruct (decide (stalled c q)) as [Hst|Hns].
  - destruct Hst as (m2 & n2 & id2 & s2 & E2 & Ea2 & Es2 & Hv2). replace m2 with mq in * by congruence.
    destruct (obeys_awaits _ _ _ _ Hmq Ea2) as (_ & _ & [Hs|[_ ?]]); [|congruence].
    destruct (zero_cases c B HK HB id2 s2 Es2 Hv2) as [(r & mr & nr & Er & Hhr)|[|]]; [|by left|eauto].
    left. exists r. destruct Hhr as [Hw|Hc]; [by eapply writer_moves|]. exfalso.
    destruct (H1 _ _ _ Er) as (_ & Har & _).
    destruct (ag_commit _ _ _ _ Har _ Hc) as (s3 & Es3 & Hk3 & _).
    destruct (ag_sems _ _ _ _ Haq _ _ Hs) as (_ & _ & Hk).
    rewrite (Hk s3 Es3) in Hk3. unfold ftok_key, IPC_KEY, COMMIT_IPC_KEY in Hk3. lia.
  - left. exists q, mq, nq. split_and!; [done| |done].
    intros a ->. destruct Hmq as (_ & E & _). congruence.
Qed.
End reached.

(** ** A creator that dies *)

Section orphan.
Context `{AL : Allocator}.
Variables (fuel : nat) (dev : Z).

(** No call gives life to set [id], which nobody holds or initialises. *)
Lemma serves_orphan p {R} (c : call R) K b n r K' n' id s :
  kernel_ok K -> agrees dev K p b -> allowed c b -> serves dev p c K n r K' n' ->
  k_sets K !! id = Some s -> ss_val s = 0 -> held_by s None -> b_new b <> Some id ->
  k_sets K' !! id = Some s.
Proof.
  intros HK Ha Hal Hs Es Hv Hh Hn. pose proof (ks_fresh _ HK _ _ Es) as Hlt.
  destruct c; cbn [serves allowed] in Hs, Hal; try (by destruct Hs as [-> _]);
    try (by destruct Hs as (_ & -> & _)); try done.
  - destruct Hs as (_ & [(_ & ->)|[(_ & _ & ->)|(_ & _ & ->)]]); try done.
    cbn [k_sets new_set]. by rewrite lookup_insert_ne by lia.
  - destruct Hs as (_ & [(_ & ->)|(_ & ->)]); [done|]. cbn [k_sets set_value with_sets].
    by rewrite lookup_alter_ne by congruence.
  - destruct Hs as [-> _]. cbn [k_sets remove_set]. by rewrite lookup_delete_ne by congruence.
  - destruct Hs as [(_ & _ & ->)|(_ & [(_ & ->)|(s2 & E2 & Hv2 & _ & ->)])]; try done.
    cbn [k_sets sem_op with_sets]. rewrite lookup_alter_ne; [done|]. intros ->.
    replace s2 with s in * by congruence. lia.
  - destruct Hs as [(_ & _ & ->)|(_ & [(_ & _ & ->)|(_ & _ & ->)])]; try done.
    cbn [k_sets sem_op with_sets]. rewrite lookup_alter_ne; [done|]. intros ->.
    assert (undo_of s p = 1) as Hu.
    { destruct Hal as [E|[_ E]].
      - destruct (ag_writer _ _ _ _ Ha _ E) as (s2 & E2 & _ & Hu). congruence.
      - destruct (ag_commit _ _ _ _ Ha _ E) as (s2 & E2 & _ & Hu). congruence. }
    rewrite Hh in Hu. by case_decide.
  - by destruct Hs as (_ & [(_ & ->)|(_ & ->)]).
Qed.

(** It stays so for ever. *)
Lemma orphan_for_ever c B id s :
  kernel_ok (c_kernel c) -> believes dev c B ->
  k_sets (c_kernel c) !! id = Some s -> ss_val s = 0 -> held_by s None ->
  (forall p, is_Some (c_procs c !! p) -> b_new (B p) <> Some id) ->
  forall c', rtc (step fuel dev) c c' ->
  exists s', k_sets (c_kernel c') !! id = Some s' /\ ss_key s' = ss_key s /\ held_by s' None /\
    kernel_ok (c_kernel c').
Proof.
  intros HK HB Es Hv Hh Hno c' Hrtc. revert B s HK HB Es Hv Hh Hno.
  induction Hrtc as [|c c1 c' Hstep _ IH]; intros B s HK HB Es Hv Hh Hno; [by exists s|].
  destruct (step_believes _ _ _ _ _ HK HB Hstep) as (B' & HK' & HB' & Hnew & _).
  assert (exists s', k_sets (c_kernel c1) !! id = Some s' /\ ss_key s' = ss_key s /\ ss_val s' = 0 /\
    held_by s' None) as (s' & Es' & Ek & Hv' & Hh').
  { destruct HB as (H1 & _ & _). destruct Hstep as [|p x Hp|p R cl k n r K' n' Hp Hs|p A o pr k n Hp|p A o a k n Hp|p A o pr k n ask Hp];
      cbn [c_kernel]; try (by exists s).
    - exists (release_undo p s). unfold undo_all. cbn [k_sets with_sets]. rewrite lookup_fmap, Es.
      split_and!; [done..| |].
      + unfold release_undo. cbn. rewrite Hh. case_decide; [done|lia].
      + intros q. rewrite undo_of_release, Hh. by case_decide.
    - exists s. destruct (H1 _ _ _ Hp) as ([Hal _] & Ha & _).
      rewrite (serves_orphan p cl (c_kernel c) (B p) n r K' n' id s); auto.
    - exists s. destruct (publishes pr); [|done]. unfold publish_obj. by case_bool_decide. }
  destruct (IH B' s') as (s2 & E2 & Ek2 & Hh2 & HK2); try done.
  - intros p Hp E. destruct (Hnew p id Hp E) as [[Hp0 E0]|E0]; [by apply (Hno p)|].
    pose proof (ks_fresh _ HK _ _ Es). lia.
  - exists s2. split_and!; [done|congruence|done..].
Qed.
End orphan.

(** * Runs *)

(** A machine that runs: [x] tells whether a call goes well.  The store is an
    empty directory. *)
Section drive.
Context `{AL : Allocator}.
Variables (fuel : nat) (dev : Z).

Definition reply (x : fault) (p : Z) {R} (c : call R) (K : Kernel) : option (R * Kernel) :=
  let ok := negb (is_bad x) in
  match c in call R return option (R * Kernel) with
  | Ftok proj => Some (if ok then Some (ftok_key dev proj) else None, K)
  | SemgetExcl key =>
    Some (if ok then match k_keys K !! key with
                     | Some _ => (SemExists, K)
                     | None => (SemOk (k_nextset K), new_set key K)
                     end
          else (SemFailed, K))
  | Semget key => Some (if ok then k_keys K !! key else None, K)
  | SemSetval id => Some (if ok then (true, set_value id 1 K) else (false, K))
  | SemRmid id => Some (tt, remove_set id K)
  | SemDown id =>
    if ok then
      match k_sets K !! id with
      | Some s => if 0 <? ss_val s then Some (OpOk, sem_op p id (-1) K) else None
      | None => None
      end
    else Some (OpFailed, K)
  | SemUp id =>
    Some (match k_sets K !! id with Some _ => (OpOk, sem_op p id 1 K) | None => (OpFailed, K) end)
  | ShmCreateExcl => Some (if ok then (Some (k_nextobj K), new_obj p K) else (None, K))
  | ShmOpen => Some (if ok then Some 0 else None, K)
  | ShmUnlink => Some (tt, K)
  | Ftruncate _ _ | Mmap _ | IsDir | SyncFs => Some (ok, K)
  | Fstat _ => Some (if ok then Some Layout.SEGMENT_SIZE else None, K)
  | StatDev => Some (if ok then Some dev else None, K)
  | ReadDir => Some (if ok then Some [] else None, K)
  | _ => None
  end.

Lemma reply_serves x p {R} (c : call R) K n r K' :
  reply x p c K = Some (r, K') -> serves dev p c K n r K' n.
Proof.
  destruct c; cbn [reply serves]; try done; try (by intros [= <- <-]); destruct (negb (is_bad x)); try done;
    try (intros [= <- <-]; by auto 8);
    try (intros [= <- <-]; split; [intros names [=]; subst; by constructor|done]).
  - destruct (k_keys K !! key) eqn:E; intros [= <- <-]; split; try done; [right; left|right; right];
      rewrite ?E; split_and!; eauto.
  - destruct (k_sets K !! id) as [s|] eqn:E; [|done]. destruct (Z.ltb_spec 0 (ss_val s)); [|done].
    intros [= <- <-]. right. split; [done|]. right. by exists s.
  - destruct (k_sets K !! id) as [s|] eqn:E; intros [= <- <-]; right; split; try done;
      [by right; split; [eexists|]|by left].
  - destruct (k_sets K !! id) as [s|] eqn:E; intros [= <- <-]; right; split; try done;
      [by right; split; [eexists|]|by left].
Qed.

Inductive event : Type :=
| Start (p : Z) (es : list entry)
| End (p : Z)
| Go (p : Z) (x : fault).

(** The next access of a segment program, or its end. *)
Definition go_seg (p : Z) (c : config) (n : nat) {R} (cl : call R) : (R -> io unit) -> option config :=
  match cl in call R return (R -> io unit) -> option config with
  | Seg o pr => fun k =>
    match pr with
    | PRet a => Some (mkConfig (c_kernel c) (c_objs c) (<[p := (k a, n)]> (c_procs c)))
    | _ =>
      Some (mkConfig (if publishes pr then publish_obj p o (c_kernel c) else c_kernel c)
              (<[o := snd (pstep pr (seg_of c o))]> (c_objs c))
              (<[p := (ICall (Seg o (fst (pstep pr (seg_of c o)))) k, n)]> (c_procs c)))
    end
  | _ => fun _ => None
  end.

Definition go (p : Z) (x : fault) (c : config) (m : io unit) (n : nat) : option config :=
  match m with
  | IRet _ => None
  | ICall cl k =>
    match go_seg p c n cl k with
    | Some c' => Some c'
    | None =>
      match reply x p cl (c_kernel c) with
      | Some (r, K') => Some (mkConfig K' (c_objs c) (<[p := (k r, n)]> (c_procs c)))
      | None => None
      end
    end
  end.

Definition drive1 (c : config) (e : event) : option config :=
  match e with
  | Start p es =>
    match c_procs c !! p with
    | None => Some (mkConfig (c_kernel c) (c_objs c) (<[p := (calls (S fuel) es None, O)]> (c_procs c)))
    | Some _ => None
    end
  | End p =>
    match c_procs c !! p with
    | Some _ => Some (mkConfig (undo_all p (c_kernel c)) (c_objs c) (delete p (c_procs c)))
    | None => None
    end
  | Go p x =>
    match c_procs c !! p with
    | Some (m, n) => go p x c m n
    | None => None
    end
  end.

Fixpoint drive (es : list event) (c : config) : option config :=
  match es with
  | [] => Some c
  | e :: es' => match drive1 c e with Some c' => drive es' c' | None => None end
  end.

Lemma go_seg_step p c m n R (cl : call R) k c' :
  c_procs c !! p = Some (m, n) -> m = ICall cl k -> go_seg p c n cl k = Some c' ->
  step (S fuel) dev c c'.
Proof.
  intros Ep -> E. destruct cl; try done. cbn [go_seg] in E.
  destruct p0 as [a| | | | |]; injection E as <-; match type of Ep with
    | context [Seg ?o (PRet _)] => by apply (step_finish _ _ c p _ o a k n)
    | context [Seg ?o ?pr] => by apply (step_access _ _ c p _ o pr k n)
    end.
Qed.

Lemma drive1_step c e c' : drive1 c e = Some c' -> step (S fuel) dev c c'.
Proof.
  destruct e as [p es|p|p x]; cbn [drive1]; destruct (c_procs c !! p) as [[m n]|] eqn:Ep; try done.
  - intros [= <-]. apply step_start; [done|lia].
  - intros [= <-]. by eapply step_end.
  - unfold go. destruct m as [a|R cl k]; [done|].
    destruct (go_seg p c n cl k) as [c1|] eqn:Eg; [intros [= <-]; by eapply go_seg_step|].
    destruct (reply x p cl (c_kernel c)) as [[r K']|] eqn:Er; [|done]. intros [= <-].
    eapply step_call; [done|]. by eapply reply_serves.
Qed.

Lemma drive_steps es c c' : drive es c = Some c' -> rtc (step (S fuel) dev) c c'.
Proof.
  revert c; induction es as [|e es IH]; intros c; cbn [drive]; [by intros [= <-]|].
  destruct (drive1 c e) as [c1|] eqn:E; [|done]. intros H.
  eapply rtc_l; [by eapply drive1_step|by apply IH].
Qed.
End drive.

(** Where a script of events leads. *)
Definition led (es : list event) : config := default boot (drive 2 7 es boot).
Definition leads (es : list event) : bool := match drive 2 7 es boot with Some _ => true | None => false end.

Lemma led_reached es : leads es = true -> reached 3 7 (led es).
Proof.
  unfold leads, led. destruct (drive 2 7 es boot) as [c|] eqn:E; [|done]. intros _.
  by apply drive_steps in E.
Qed.

Definition holds_b (c : config) (p id proj : Z) : bool :=
  match k_sets (c_kernel c) !! id with
  | Some s => (ss_key s =? ftok_key 7 proj) && (undo_of s p =? 1)
  | None => false
  end.

Lemma holds_by c p id proj : holds_b c p id proj = true -> holds 7 c p proj.
Proof.
  unfold holds_b. destruct (k_sets (c_kernel c) !! id) as [s|] eqn:E; [|done].
  intros [H1 H2]%andb_true_iff. exists id, s. split_and!; [done|by apply Z.eqb_eq..].
Qed.

(** About to make a store of a segment program. *)
Definition storing (c : config) (p : Z) : option Z :=
  match c_procs c !! p with
  | Some (ICall (Seg o (PStore _ _ _)) _, _) => Some o
  | _ => None
  end.

Lemma storing_writing c p o : storing c p = Some o -> writing c p o.
Proof.
  unfold storing, writing. destruct (c_procs c !! p) as [[m n]|]; [|done].
  destruct m as [|R [] k]; try done. destruct p0 as [| |cl v k'| | |]; try done.
  intros [= <-]. eexists _, _, _, _. split; [done|]. intros H. exact H.
Qed.

Definition name_a : option bytes := Some [97; 0].

(** Process 1 creates the segment and then sets "a"; it is about to make the
    first store of [put]. *)
Definition setting : list event :=
  Start 1 [EInit; ESet name_a name_a] :: Go 1 Bad :: repeat (Go 1 Good) 2 ++ Go 1 Bad ::
  repeat (Go 1 Good) 31.

(** Process 2 wants to clear the store and waits for process 1. *)
Definition clearing : list event := Start 2 [EClear] :: repeat (Go 2 Bad) 2 ++ repeat (Go 2 Good) 7.

Lemma locks_exclude_witness :
  reached 3 7 (led setting) /\ holds 7 (led setting) 1 IPC_KEY /\
  (forall q, holds 7 (led setting) q IPC_KEY -> q = 1).
Proof.
  assert (reached 3 7 (led setting)) as Hr by (apply led_reached; vm_compute; reflexivity).
  assert (holds 7 (led setting) 1 IPC_KEY) as Hh by (apply (holds_by _ _ 0); vm_compute; reflexivity).
  split; [exact Hr|]. split; [exact Hh|].
  apply (locks_exclude 3 7 (led setting) 1 IPC_KEY); [exact Hr|exact Hh].
Defined.

Lemma writers_serialised_witness :
  reached 3 7 (led setting) /\ writing (led setting) 1 0 /\
  k_owner (c_kernel (led setting)) !! 0 = None /\ holds 7 (led setting) 1 IPC_KEY.
Proof.
  assert (reached 3 7 (led setting)) as Hr by (apply led_reached; vm_compute; reflexivity).
  assert (writing (led setting) 1 0) as Hw by (apply storing_writing; vm_compute; reflexivity).
  assert (k_owner (c_kernel (led setting)) !! 0 = None) as Ho by (vm_compute; reflexivity).
  split; [exact Hr|]. split; [exact Hw|]. split; [exact Ho|].
  apply (writers_serialised 3 7 (led setting) 1 1 0); [exact Hr|exact Hw|exact Ho].
Defined.

Lemma locks_make_progress_witness :
  let c := led (setting ++ clearing) in
  reached 3 7 c /\ stalled c 2 /\ ((exists q, can_move c q) \/ (exists id, orphan c id)).
Proof.
  assert (reached 3 7 (led (setting ++ clearing))) as Hr by (apply led_reached; vm_compute; reflexivity).
  assert (stalled (led (setting ++ clearing)) 2) as Hs.
  { apply (bool_decide_unpack _). vm_compute. exact I. }
  intros c. split; [exact Hr|]. split; [exact Hs|].
  apply (locks_make_progress 3 7 c 2); [exact Hr|exact Hs].
Defined.

(** [init] up to the creation of the writer semaphore, and its death there. *)
Definition aborted : list event :=
  Start 1 [EInit] :: Go 1 Bad :: repeat (Go 1 Good) 2 ++ Go 1 Bad :: repeat (Go 1 Good) 4 ++ [End 1].

(** The creator of a semaphore gives it its first value in a second call.  One
    that is killed in between leaves a semaphore that is 0 and that no death
    will ever release: from then on no process takes the writer lock, for as
    long as the system is up. *)
Theorem dead_creator_wedges_writers :
  exists c, reached 3 7 c /\ c_procs c = ∅ /\
    forall c', rtc (step 3 7) c c' -> forall p, ~ holds 7 c' p IPC_KEY.
Proof.
  assert (reached 3 7 (led aborted)) as Hr by (apply led_reached; vm_compute; reflexivity).
  assert (c_procs (led aborted) = ∅) as Hp by (vm_compute; reflexivity).
  exists (led aborted). split; [exact Hr|]. split; [exact Hp|].
  destruct (reached_sound 3 7 _ Hr) as (HK & B & HB).
  assert (exists s, k_sets (c_kernel (led aborted)) !! 0 = Some s /\ ss_key s = ftok_key 7 IPC_KEY /\
    ss_val s = 0 /\ ss_undo s = ∅) as (s & Es & Ek & Hv & Hu).
  { exists (mkSet (ftok_key 7 IPC_KEY) 0 ∅). split_and!; [vm_compute|..]; reflexivity. }
  assert (held_by s None) as Hh.
  { intros q. unfold undo_of. rewrite Hu, lookup_empty. by case_decide. }
  intros c' Hrtc p (id & s2 & E2 & Ek2 & Hu2).
  destruct (orphan_for_ever 3 7 _ B 0 s HK HB Es Hv Hh) with (c' := c') as (s' & Es' & Ek' & Hh' & HK').
  - intros q [x Hx]. by rewrite Hp, lookup_empty in Hx.
  - done.
  - pose proof (ks_key _ HK' _ _ E2) as K1. pose proof (ks_key _ HK' _ _ Es') as K2.
    assert (id = 0) as -> by congruence. replace s2 with s' in * by congruence.
    rewrite Hh' in Hu2. by case_decide.
Qed.
