(* ===== verification/Typed.v ===== *)
(** Every operation on the segment is well typed and stays inside the mapping.

    The model writes machine words as [Z].  [fits p Q] says that this loses
    nothing: whatever values of their types the loads and copies of [p] return,
    [p] stores in each cell a value of the cell's own type and in the arena
    bytes, every access is inside its array, and the result satisfies [Q].  For
    [arena_used] the type is the range of a bump pointer, for an entry's state
    the three constants, for its flags the one bit in use. *)

From S2P Require Import Prelude Consts Hash Segment Shm ShmInv ShmProbe SeqCount ShmCommit ShmTrace ShmSafety Race RaceInv KilledThms.

(** * Types *)

Definition in_type (c : cell) (v : Z) : Prop :=
  match c with
  | CArenaUsed => 0 <= v <= ARENA_SIZE
  | CState _ => v = ST_EMPTY \/ v = ST_LIVE \/ v = ST_TOMB
  | CFlags _ => v = 0 \/ v = FL_DIRTY
  | _ => 0 <= v < 2 ^ cell_width c
  end.

Definition is_byte (b : Z) : Prop := 0 <= b < 256.

Record typed (s : Segment) : Prop := mk_typed {
  ty_cell : forall c, cell_in c -> in_type c (load c s);
  ty_byte : forall x, is_byte (arr_get 0 (arena s) x)
}.

Fixpoint fits {A} (p : prog A) (Q : A -> Prop) : Prop :=
  match p with
  | PRet a => Q a
  | PLoad c k => cell_in c /\ forall v, in_type c v -> fits (k v) Q
  | PStore c v k => cell_in c /\ in_type c v /\ fits k Q
  | PRmw c f k => cell_in c /\ forall v, in_type c v -> in_type c (f v) /\ fits (k v) Q
  | PRead off n k =>
    (0 <= off /\ 0 <= n /\ off + n <= ARENA_SIZE) /\
    forall bs, Forall is_byte bs -> len bs = n -> fits (k bs) Q
  | PWrite off bs k =>
    (0 <= off /\ off + len bs <= ARENA_SIZE) /\ Forall is_byte bs /\ fits k Q
  end.

Section rules.
Context {A B : Type}.

Lemma fits_bind (m : prog A) (f : A -> prog B) P Q :
  fits m P -> (forall a, P a -> fits (f a) Q) -> fits (bind m f) Q.
Proof.
  intros Hm Hf. induction m as [a|c k IH|c v k IH|c g k IH|off n k IH|off bs k IH];
    unfold bind; fold (@bind A B); cbn [fits] in *.
  - by apply Hf.
  - destruct Hm as [Hc Hm]. split; auto.
  - destruct Hm as (Hc & Hv & Hm). auto.
  - destruct Hm as [Hc Hm]. split; [done|]. intros v Hv. destruct (Hm v Hv). auto.
  - destruct Hm as [Hc Hm]. split; auto.
  - destruct Hm as (Hc & Hv & Hm). auto.
Qed.

Lemma fits_ret (a : A) (Q : A -> Prop) : Q a -> fits (ret a) Q.
Proof. done. Qed.

Lemma fits_weaken (m : prog A) (P Q : A -> Prop) :
  fits m P -> (forall a, P a -> Q a) -> fits m Q.
Proof.
  intros Hm HPQ. induction m as [a|c k IH|c v k IH|c g k IH|off n k IH|off bs k IH]; cbn [fits] in *.
  - by apply HPQ.
  - destruct Hm as [Hc Hm]. split; auto.
  - destruct Hm as (Hc & Hv & Hm). auto.
  - destruct Hm as [Hc Hm]. split; [done|]. intros v Hv. destruct (Hm v Hv). auto.
  - destruct Hm as [Hc Hm]. split; auto.
  - destruct Hm as (Hc & Hv & Hm). auto.
Qed.

(** Without what the first part returns. *)
Lemma fits_then (m : prog A) (p : prog B) Q :
  fits m (fun _ => True) -> fits p Q -> fits (m ;! p) Q.
Proof. intros Hm Hp. by eapply fits_bind. Qed.
End rules.

Lemma fits_load c : cell_in c -> fits (loadc c) (in_type c).
Proof. by split. Qed.

Lemma fits_store c v : cell_in c -> in_type c v -> fits (storec c v) (fun _ => True).
Proof. done. Qed.

Lemma fits_rmw c f :
  cell_in c -> (forall v, in_type c v -> in_type c (f v)) -> fits (rmwc c f) (in_type c).
Proof. intros Hc Hf. split; [done|]. intros v Hv. split; [by apply Hf|done]. Qed.

Lemma fits_forM {X} (l : list X) body :
  (forall x, x ∈ l -> fits (body x) (fun _ => True)) -> fits (forM l body) (fun _ => True).
Proof.
  induction l as [|x l IH]; intros H; [done|]. cbn [forM].
  apply fits_then; [apply H, list_elem_of_here|]. apply IH. intros y Hy. apply H.
  by apply list_elem_of_further.
Qed.

Lemma fits_foldM {X St} (l : list X) (st : St) body (Q : St -> Prop) :
  Q st -> (forall x st, x ∈ l -> Q st -> fits (body x st) Q) -> fits (foldM l st body) Q.
Proof.
  revert st; induction l as [|x l IH]; intros st H0 Hb; [done|]. cbn [foldM].
  eapply fits_bind; [apply Hb; [apply list_elem_of_here|done]|].
  intros st' Hst. apply IH; [done|]. intros y st'' Hy. apply Hb. by apply list_elem_of_further.
Qed.

(** * What it says of the execution *)

Lemma typed_store c v s : typed s -> cell_in c -> in_type c v -> typed (store c v s).
Proof.
  intros [H1 H2] Hc Hv. split; [|intros x; by rewrite arena_store].
  intros c' Hc'. destruct (decide (c' = c)) as [->|Hne].
  - unfold load, store. destruct c; cbn; try done; destruct s as [[] ix ar]; cbn; unfold slot, entry;
      cbn; rewrite ?arr_get_set_eq; try done; by destruct (arr_get zero_entry ix i).
  - assert (load c' (store c v s) = load c' s) as ->; [|by apply H1].
    unfold load, store. destruct s as [[] ix ar]. destruct c, c'; cbn; try done;
      unfold slot, entry; cbn; rewrite ?arr_get_set; try done; try (case_decide; [|done]); subst;
      try congruence; by destruct (arr_get zero_entry ix i0).
Qed.

Lemma typed_write off bs s : typed s -> Forall is_byte bs -> typed (arena_write off bs s).
Proof.
  intros [H1 H2] Hb. split; [exact H1|]. cbn [arena arena_write].
  assert (forall m off, (forall x, is_byte (arr_get 0 m x)) -> forall x, is_byte (arr_get 0 (mem_write m off bs) x))
    as Hw; [|by apply Hw].
  clear H1 H2 off. induction Hb as [|b bs Hb _ IH]; intros m off Hm x; [apply Hm|]. cbn [mem_write].
  apply IH. intros y. rewrite arr_get_set. by case_decide.
Qed.

Lemma typed_read s off n : typed s -> Forall is_byte (mem_read (arena s) off n).
Proof.
  intros [_ H]. unfold mem_read. generalize (Z.to_nat n) as k. intros k. revert off.
  induction k as [|k IH]; intros off; cbn [mem_read_nat]; [done|]. by constructor.
Qed.

(** From a typed segment, every access leads to one. *)
Lemma fits_typed {A} (p : prog A) Q s :
  fits p Q -> typed s ->
  guards (fun _ s' => typed s') p s /\ typed (snd (run p s)) /\ Q (fst (run p s)).
Proof.
  revert s; induction p as [a|c k IH|c v k IH|c g k IH|off n k IH|off bs k IH]; intros s Hp Hs;
    unfold guards, run; fold @guards @run; cbn [fits] in Hp.
  - done.
  - destruct Hp as [Hc Hp]. apply IH; [|done]. by apply Hp, Hs.
  - destruct Hp as (Hc & Hv & Hp). assert (typed (store c v s)) as Hs' by by apply typed_store.
    destruct (IH _ Hp Hs') as (? & ? & ?). done.
  - destruct Hp as [Hc Hp]. destruct (Hp (load c s)) as [Hv Hk]; [by apply Hs|].
    assert (typed (store c (g (load c s)) s)) as Hs' by by apply typed_store.
    destruct (IH _ _ Hk Hs') as (? & ? & ?). done.
  - destruct Hp as [Hb Hp]. apply IH; [|done]. apply Hp; [by apply typed_read|apply mem_read_len; lia].
  - destruct Hp as (Hb & Hbs & Hp). assert (typed (arena_write off bs s)) as Hs' by by apply typed_write.
    destruct (IH _ Hp Hs') as (? & ? & ?). split_and!; try done.
    clear -Hbs Hs. revert off s Hs. induction Hbs as [|b bs Hb _ IH]; intros off s Hs; [done|].
    assert (typed (arena_write off [b] s)) by (apply typed_write; [done|by apply Forall_singleton]).
    split; [done|]. by apply IH.
Qed.

#[global] Arguments fits : simpl never.

(** * The operations *)

Lemma word_lor_1 v : 0 <= v < 2 ^ 64 -> 0 <= Z.lor v 1 < 2 ^ 64.
Proof.
  intros Hv. rewrite lor_1. destruct (Z.odd v) eqn:Ho; [done|].
  assert (v <> 2 ^ 64 - 1) by (by intros ->). lia.
Qed.

Lemma word_next_odd v : 0 <= next_odd v < 2 ^ 64.
Proof. apply word_lor_1, u64_range. Qed.

Lemma word_next_even v : 0 <= next_even v < 2 ^ 64.
Proof. apply u64_range. Qed.

Lemma word_wadd a b : 0 <= wadd a b < 2 ^ 64.
Proof. apply u64_range. Qed.

Lemma word_fnv1a key : 0 <= fnv1a key < 2 ^ 64.
Proof. pose proof (fnv1a_range key). lia. Qed.

#[local] Hint Resolve word_next_odd word_next_even word_wadd word_fnv1a u32_range : nvram.

(** One statement: a load, a store, a read-modify-write, or the end. *)
Ltac fit_store := apply fits_then; [apply fits_store; [try done|cbn [in_type cell_width]; eauto with nvram]|].
Ltac fit_load := eapply fits_bind; [apply fits_load; try done|cbn [in_type cell_width]; intros ? ?].

Definition slice_typed (r : option bytes) : Prop :=
  match r with Some bs => Forall is_byte bs /\ len bs <= ARENA_SIZE | None => True end.

Lemma fits_arena_slice off ln :
  0 <= off < 2 ^ 32 -> 0 <= ln < 2 ^ 32 -> fits (arena_slice off ln) slice_typed.
Proof.
  intros Ho Hl. unfold arena_slice. rewrite wadd_small by lia.
  destruct (Z.ltb_spec ARENA_SIZE off), (Z.ltb_spec ARENA_SIZE ln),
    (Z.ltb_spec ARENA_SIZE (off + ln)); cbn [orb]; try done.
  split; [lia|]. intros bs Hb Hn. split; [done|lia].
Qed.

Lemma fits_arena_eq off ln want :
  0 <= off < 2 ^ 32 -> 0 <= ln < 2 ^ 32 -> fits (arena_eq off ln want) (fun _ => True).
Proof.
  intros Ho Hl. unfold arena_eq. rewrite wadd_small by lia.
  destruct (ln =? len want), (Z.ltb_spec ARENA_SIZE off),
    (Z.ltb_spec ARENA_SIZE (off + ln)); cbn [orb negb]; try done.
  split; [lia|done].
Qed.

Definition offset_typed (r : option Z) : Prop :=
  match r with Some off => 0 <= off < 2 ^ 32 | None => True end.

Lemma fits_arena_alloc bs :
  Forall is_byte bs -> len bs < 2 ^ 63 -> fits (arena_alloc bs) offset_typed.
Proof.
  intros Hb Hl. pose proof (len_nonneg bs). unfold arena_alloc.
  eapply fits_bind; [by apply fits_load|]. cbn [in_type]. intros used Hu.
  rewrite wadd_small by (unfold ARENA_SIZE, NVRAM_SPACE in *; lia).
  destruct (Z.ltb_spec ARENA_SIZE (used + len bs)); [done|].
  apply fits_then; [split; [lia|done]|].
  apply fits_then; [apply fits_store; [done|]|apply fits_ret, u32_range].
  cbn [in_type]. lia.
Qed.

Lemma fits_probe_loop key hash start free j n :
  probe_in ((fun i => (i, false)) <$> free) -> fits (probe_loop key hash start free j n) probe_in.
Proof.
  revert j free; induction n as [|n IH]; intros j free Hf; cbn [probe_loop]; [done|].
  pose proof (index_mod (start + j)) as Hi. set (i := (start + j) mod INDEX_SLOTS) in *.
  fit_load. case_if; [by destruct free|]. fit_load.
  eapply (fits_bind _ _ (fun _ => True)).
  { case_if; [|done]. fit_load. fit_load. by apply fits_arena_eq. }
  intros eq _. case_if; [done|].
  eapply (fits_bind _ _ (fun free => probe_in ((fun i => (i, false)) <$> free)));
    [|intros free' Hf'; by apply IH].
  case_if; [|done]. fit_load. apply fits_ret. by case_if.
Qed.

Lemma fits_probe key hash : fits (probe key hash) probe_in.
Proof. by apply fits_probe_loop. Qed.

Lemma fits_holds_value key val hash : fits (holds_value key val hash) (fun _ => True).
Proof.
  unfold holds_value. eapply fits_bind; [apply fits_probe|]. intros [[i [|]]|] Hi; [|done..].
  fit_load. case_if; [|done]. fit_load. fit_load. by apply fits_arena_eq.
Qed.

(** ** Compaction *)

Lemma fits_wipe : fits wipe (fun _ => True).
Proof.
  unfold wipe. apply fits_then.
  - apply fits_forM. intros i Hi%buckets_in. unfold wipe_entry.
    do 6 (apply fits_then; [apply fits_store; [done|cbn; auto; lia]|]).
    apply fits_store; [done|cbn; lia].
  - apply fits_then; apply fits_store; cbn; try done; unfold ARENA_SIZE, NVRAM_SPACE; lia.
Qed.

Record keep_typed (k : Keep) : Prop := mk_keep_typed {
  kt_key : slice_typed (Some (k_key k));
  kt_val : slice_typed (k_val k);
  kt_flags : in_type (CFlags 0) (k_flags k)
}.

Lemma fits_keep_entry i keep :
  in_index i -> Forall keep_typed keep -> fits (keep_entry i keep) (Forall keep_typed).
Proof.
  intros Hi Hk. unfold keep_entry. fit_load. case_if; [done|]. fit_load. case_if; [done|].
  fit_load. fit_load. eapply fits_bind; [by apply fits_arena_slice|]. intros [key|] Hkey; [|done].
  eapply (fits_bind _ _ slice_typed).
  { case_if; [|done]. fit_load. fit_load. by apply fits_arena_slice. }
  intros val Hval. apply fits_ret, Forall_app_2; [done|]. by apply Forall_singleton.
Qed.

Lemma fits_reinsert k : keep_typed k -> fits (reinsert k) (fun _ => True).
Proof.
  intros [[Hkb Hkl] Hv Hf]. unfold reinsert. assert (ARENA_SIZE < 2 ^ 32) by done.
  eapply fits_bind; [apply fits_probe|]. intros [[i b]|] Hi; [|done].
  eapply fits_bind; [apply fits_arena_alloc; [done|lia]|]. intros [ko|] Hko; [|done].
  cbn [offset_typed in_type] in *. do 4 fit_store.
  destruct (k_val k) as [v|].
  - destruct Hv as [Hvb Hvl]. eapply fits_bind; [apply fits_arena_alloc; [done|lia]|].
    intros [vo|] Hvo; [|done]. cbn [offset_typed] in *. do 2 fit_store.
    apply fits_store; [done|]. cbn. auto.
  - do 2 (apply fits_then; [apply fits_store; [done|cbn; lia]|]).
    apply fits_store; [done|]. cbn. auto.
Qed.

Lemma fits_compact : fits compact (fun _ => True).
Proof.
  unfold compact. eapply (fits_bind _ _ (Forall keep_typed)).
  { apply fits_foldM; [done|]. intros i keep Hi%buckets_in. by apply fits_keep_entry. }
  intros keep Hk. apply fits_then; [unfold arena_begin; fit_load; by apply fits_store, word_next_odd|].
  apply fits_then; [apply fits_wipe|]. apply fits_then.
  - apply fits_forM. intros k Hin. apply fits_reinsert. by eapply Forall_forall in Hk.
  - unfold arena_end. fit_load. by apply fits_store, word_next_even.
Qed.

(** ** Updates *)

Lemma fits_ensure_space need : fits (ensure_space need) (fun _ => True).
Proof.
  unfold ensure_space. pose proof fits_compact as Hc. generalize dependent compact. intros c Hc.
  fit_load. case_if.
  - fit_load. apply fits_then; [by case_if|done].
  - apply fits_then; [done|]. by fit_load.
Qed.

Lemma fits_seq_begin j : 0 <= j < SLOTS -> fits (seq_begin j) (fun _ => True).
Proof. intros Hj. unfold seq_begin. fit_load. by apply fits_store, word_next_odd. Qed.

Lemma fits_seq_end j : 0 <= j < SLOTS -> fits (seq_end j) (fun _ => True).
Proof.
  intros Hj. unfold seq_end. fit_load. fit_store.
  eapply fits_bind; [|done]. apply fits_rmw; [done|]. intros g _. apply word_wadd.
Qed.

Lemma fits_garbage n : fits (rmwc CArenaGarbage (fun g => wadd g n) ;! ret tt) (fun _ => True).
Proof. eapply fits_bind; [|done]. apply fits_rmw; [done|]. intros g _. apply word_wadd. Qed.

Lemma fits_set_dirty (dirty : bool) i :
  in_index i ->
  fits (if dirty then rmwc (CFlags i) (fun f => Z.lor f FL_DIRTY) ;! ret tt else ret tt) (fun _ => True).
Proof.
  intros Hi. destruct dirty; [|done]. eapply fits_bind; [|done]. apply fits_rmw; [done|].
  intros f [->| ->]; by right.
Qed.

Lemma fits_put_locked i found key val dirty :
  in_index i -> Forall is_byte key -> Forall is_byte val -> len key + len val < 2 ^ 63 ->
  fits (put_locked i found key val (fnv1a key) dirty) (fun _ => True).
Proof.
  intros Hi Hk Hv Hl. pose proof (len_nonneg key). pose proof (len_nonneg val). unfold put_locked.
  eapply fits_bind; [apply fits_arena_alloc; [done|lia]|]. intros [vo|] Hvo; [|done].
  eapply (fits_bind _ _ (fun _ => True)).
  { destruct found.
    - fit_load. apply fits_then; [|done]. case_if; [|done]. fit_load. apply fits_garbage.
    - eapply fits_bind; [apply fits_arena_alloc; [done|lia]|]. intros [ko|] Hko; [|done].
      cbn [offset_typed] in *. do 3 fit_store. done. }
  intros [[]|] _; [|done]. cbn [offset_typed] in *.
  apply fits_then; [apply fits_store; [done|cbn; lia]|]. do 2 fit_store.
  apply fits_then; [by apply fits_set_dirty|].
  apply fits_then; [apply fits_store; [done|cbn; auto]|done].
Qed.

Lemma fits_put key val dirty :
  Forall is_byte key -> Forall is_byte val -> len key + len val < 2 ^ 63 ->
  fits (put key val dirty) (fun _ => True).
Proof.
  intros Hk Hv Hl. unfold put. eapply fits_bind; [apply fits_holds_value|]. intros [] _; [done|].
  eapply fits_bind; [apply fits_ensure_space|]. intros [[]|] _; [|done].
  eapply fits_bind; [apply fits_probe|]. intros [[i found]|] Hi; [|done].
  apply fits_then; [apply fits_seq_begin, slot_of_range|].
  eapply fits_bind; [by apply fits_put_locked|]. intros r _.
  apply fits_then; [apply fits_seq_end, slot_of_range|done].
Qed.

Lemma fits_remove key dirty : fits (remove key dirty) (fun _ => True).
Proof.
  unfold remove. eapply fits_bind; [apply fits_probe|]. intros [[i [|]]|] Hi; [|done..].
  fit_load. case_if; [done|]. apply fits_then; [apply fits_seq_begin, slot_of_range|]. fit_load.
  eapply fits_bind; [apply fits_rmw; [done|]; intros g _; apply word_wadd|]. intros _ _.
  apply fits_then; [apply fits_store; [done|cbn; lia]|].
  apply fits_then; [by apply fits_set_dirty|].
  apply fits_then; [apply fits_store; [done|cbn; auto]|].
  apply fits_then; [apply fits_seq_end, slot_of_range|done].
Qed.

Lemma fits_clear : fits clear (fun _ => True).
Proof.
  unfold clear. apply fits_then; [unfold arena_begin; fit_load; by apply fits_store, word_next_odd|].
  apply fits_then; [apply fits_wipe|].
  apply fits_then; [unfold arena_end; fit_load; by apply fits_store, word_next_even|].
  apply fits_then.
  - apply fits_forM. intros i Hi%slots_in. fit_load. apply fits_store; [done|].
    apply word_next_even.
  - eapply fits_bind; [|done]. apply fits_rmw; [done|]. intros g _. apply word_wadd.
Qed.

Lemma fits_repair_seq j : 0 <= j < SLOTS -> fits (repair_seq j) (fun _ => True).
Proof.
  intros Hj. apply fits_foldM; [done|]. intros c b Hc _. unfold repair_cell.
  assert (cell_in c /\ cell_width c = 64 /\ (in_type c = fun v => 0 <= v < 2 ^ 64)) as (Hi & _ & Ht).
  { apply elem_of_cons in Hc as [->|Hc]; [done|]. by apply list_elem_of_singleton in Hc as ->. }
  fit_load. case_if; [|done]. apply fits_then; [|done]. apply fits_store; [done|].
  rewrite Ht. apply word_next_even.
Qed.

Lemma fits_commit_writeback ps : fits (commit_writeback ps) (fun _ => True).
Proof.
  apply fits_forM. intros p _. unfold writeback_one, slot_value. eapply fits_bind;
    [apply fits_load, slot_of_range|]. intros now _. case_if; [done|].
  eapply fits_bind; [apply fits_probe|]. intros [[i [|]]|] Hi; [|done..].
  eapply fits_bind; [|done]. apply fits_rmw; [done|]. intros f [->| ->]; by left.
Qed.

(** What the callers pass are bytes. *)
Definition op_typed (o : op) : Prop :=
  match o with
  | OPut key val _ => Forall is_byte key /\ Forall is_byte val
  | _ => True
  end.

Lemma fits_op o : op_ok o -> op_typed o -> fits (op_prog o) (fun _ => True).
Proof.
  intros Hok Ht. destruct o as [key val d|key d| |j|ps]; cbn [op_prog op_ok op_typed] in *.
  - destruct Ht. apply fits_then; [by apply fits_put|done].
  - apply fits_then; [apply fits_remove|done].
  - apply fits_clear.
  - apply fits_then; [by apply fits_repair_seq|done].
  - apply fits_commit_writeback.
Qed.

Lemma fits_writers os :
  Forall op_ok os -> Forall op_typed os -> fits (writers os) (fun _ => True).
Proof.
  rewrite !Forall_forall. intros Hok Ht. apply fits_forM. intros o Ho. by apply fits_op; auto.
Qed.

Lemma typed_zero : typed zero_segment.
Proof.
  split.
  - intros c _. destruct c; cbn [in_type]; try (split; [|done]; done); by left.
  - intros x. by split.
Qed.

(** * The theorem *)

(** C14: Type soundness of the writers.  In a typed segment every cell holds a
    value of its own type: a word of the cell's width, for [arena_used] a
    pointer into the arena, for an entry's state one of the three constants,
    for its flags the dirty bit or nothing; every arena cell holds a byte.
    Whatever typed values its loads return, every access that a sequence of
    operations on keys and values of bytes makes is inside its array, and
    what it stores is of the cell's type; so a segment that starts typed is
    typed after each access, arena copies taken byte by byte, wherever the
    writer is killed, the middle of a compaction included.  (Of the counters
    this says that they stay words of their width; they may wrap.) *)
Theorem writers_stay_typed os s n :
  typed s -> Forall op_ok os -> Forall op_typed os ->
  fits (writers os) (fun _ => True) /\ typed (snd (advance n (bytewise (writers os)) s)).
Proof.
  intros Hs Hok Ht. pose proof (fits_writers os Hok Ht) as Hf. split; [done|].
  apply (prefix typed); [done|]. by apply (fits_typed _ _ s) in Hf as [Hg _].
Qed.

(** A put of one byte, killed after its hundredth access. *)
Lemma writers_stay_typed_witness :
  let os := [OPut [97] [120] true; ORemove [97] true; OClear] in
  fits (writers os) (fun _ => True) /\
  typed (snd (advance 100 (bytewise (writers os)) zero_segment)).
Proof.
  apply writers_stay_typed; [apply typed_zero|..].
  - repeat (apply Forall_cons_2; [done|]). apply Forall_nil_2.
  - apply Forall_cons_2; [|repeat (apply Forall_cons_2; [done|]); apply Forall_nil_2].
    split; by apply Forall_singleton.
Defined.
