(* ===== verification/Survivors.v ===== *)
(** What the survivors of a killed writer inherit.

    A [put] or [remove] that stops between two accesses leaves a segment that
    is well-formed again, with one key's record between old and new; so do a
    repair and a write-back.  Whole and killed operations then form histories
    whose every segment satisfies [wf], to which all theorems about whole
    operations apply. *)

From S2P Require Import Prelude Consts Hash Spec Segment Shm ShmInv ShmProbe ShmOps SeqCount ShmWrite ShmCompact ShmRefine ShmCommit ShmTrace Race RaceInv RaceOps Killed KilledThms.

(** * One key struck, the others as they were *)

(** A killed update of [k] towards [new]: the value is old, new or empty, and
    the change may or may not be noted for the disk. *)
Record struck (k : bytes) (new : option bytes) (dirty : bool) (m m' : gmap bytes item) : Prop :=
  mk_struck {
  su_other : forall key, key <> k -> m' !! key = m !! key;
  su_get : Spec.get m' k = Spec.get m k \/ Spec.get m' k = new \/
    (is_Some (Spec.get m k) /\ Spec.get m' k = Some []);
  su_dirty : Spec.dirty m' k = Spec.dirty m k \/ Spec.dirty m' k = dirty || Spec.dirty m k
}.

Lemma struck_same k new dirty m : struck k new dirty m m.
Proof. split; auto. Qed.

(** A write-back retires flags and no value. *)
Definition faded (m m' : gmap bytes item) : Prop :=
  forall key, Spec.get m' key = Spec.get m key /\ (Spec.dirty m' key = true -> Spec.dirty m key = true).

#[export] Instance faded_preorder : PreOrder faded.
Proof.
  split; [by intros m key|]. intros m1 m2 m3 H1 H2 key. destruct (H1 key) as [E1 D1], (H2 key) as [E2 D2].
  split; [congruence|auto].
Qed.

Lemma faded_clean (m : gmap bytes item) k : faded m (Spec.clean k m).
Proof.
  intros key. unfold Spec.get, Spec.dirty.
  destruct (clean_cases m k key) as [->|[(_ & v & d & -> & ->)|(_ & d & -> & ->)]]; done.
Qed.

Lemma faded_retire (s : Segment) m ps : faded m (foldl (retire s) m ps).
Proof.
  revert m; induction ps as [|p ps IH]; intros m; [reflexivity|]. simpl. etrans; [|apply IH].
  unfold retire. case_match; [apply faded_clean|reflexivity].
Qed.

(** * The bucket a killed update leaves *)

Section left.
Variables (s s' : Segment) (i : Z) (k : bytes) (dirty : bool).
Hypothesis Hwf : wf s.
Hypothesis Hi : in_index i.

(** Of a key with a bucket: the bucket is in order ... *)
Lemma updated_entry new :
  state_of s i <> ST_EMPTY -> key_of s i = k -> half_updated s i new dirty s' ->
  key_of s' i = k /\ entry_ok s' i /\ footprint s' i + used s <= footprint s i + used s'.
Proof using Hwf Hi.
  intros Hne Hk H. pose proof (half_nonempty s i new dirty Hne s' H) as Hne'.
  destruct H as ([Ho Hb] & Hu & Hf & E1 & E2 & E3 & H). pose proof (wf_used s Hwf) as Hus.
  pose proof (wf_entry s Hwf i Hi) as Hok. pose proof (ok_key _ _ Hok Hne) as Hkey.
  pose proof (ok_val _ _ Hok) as Hval.
  assert (forall off n, 0 <= off -> off + n <= used s ->
    mem_read (arena s') off n = mem_read (arena s) off n) as Hreg.
  { intros off n Hoff Hend. apply mem_read_ext. intros x Hx. apply Hb. lia. }
  assert (key_of s' i = k) as Hk' by (rewrite <- Hk; unfold key_of; rewrite E2, E3; apply Hreg; lia).
  assert (e_flags (entry s' i) = 0 \/ e_flags (entry s' i) = FL_DIRTY) as Hfl.
  { destruct Hf as [->| ->]; [apply (ok_flags _ _ Hok)|].
    apply (has_dirty_set dirty _ (ok_flags _ _ Hok)). }
  assert (entry_ok s' i) as Hok'.
  { split; unfold state_of in *; rewrite ?Hk', ?E1, ?E2, ?E3; try done; try lia.
    - destruct H as [(-> & _)|[(-> & _)|[(v & _ & Hst & _)|(_ & ->)]]]; [apply Hok..| |auto].
      destruct Hst as [->| ->]; [apply Hok|auto].
    - rewrite <- Hk. intros _. by apply (ok_hash _ _ Hok).
    - intros El. destruct H as [(Es & Eo & En)|[(Es & En & Hoff)|[(v & _ & _ & H0 & En & H1 & _)|(_ & E)]]].
      + rewrite Eo, En. rewrite Es in El. specialize (Hval El). lia.
      + rewrite En. rewrite Es in El. specialize (Hoff El). lia.
      + pose proof (len_nonneg v). lia.
      + by rewrite E in El. }
  split_and!; [done|done|].
  unfold footprint, state_of in *. rewrite E3. destruct (Z.eqb_spec (e_state (entry s' i)) ST_EMPTY); [done|].
  destruct (Z.eqb_spec (e_state (entry s i)) ST_EMPTY); [done|].
  destruct H as [(Es & _ & ->)|[(Es & -> & _)|[(v & _ & _ & H0 & -> & H1 & _)|(_ & Es)]]]; rewrite ?Es.
  - lia.
  - destruct (Z.eqb_spec (e_state (entry s i)) ST_LIVE) as [El|]; [specialize (Hval El)|]; lia.
  - pose proof (len_nonneg v). destruct (Z.eqb_spec (e_state (entry s i)) ST_LIVE) as [El|];
      [specialize (Hval El)|]; destruct (_ =? ST_LIVE); lia.
  - change (ST_TOMB =? ST_LIVE) with false. cbn iota.
    destruct (Z.eqb_spec (e_state (entry s i)) ST_LIVE) as [El|]; [specialize (Hval El)|]; lia.
Qed.

(** ... and the key's record is struck. *)
Lemma updated_inherit new :
  state_of s i <> ST_EMPTY -> key_of s i = k -> half_updated s i new dirty s' ->
  wf s' /\ struck k new dirty (view s) (view s').
Proof using Hwf Hi.
  intros Hne Hk H. pose proof (half_nonempty s i new dirty Hne s' H) as Hne'.
  destruct (updated_entry new Hne Hk H) as (Hk' & Hok' & Hfoot).
  destruct H as ([Ho Hb] & Hu & Hf & E1 & E2 & E3 & H).
  pose proof (wf_entry s Hwf i Hi) as Hok. pose proof (ok_val _ _ Hok) as Hval.
  destruct (update_bucket s s' i k) with (r := snd <$> record s' i) as [Hw Hv]; try done.
  { rewrite <- Hk. by apply (wf_chain s Hwf). }
  { by left. }
  pose proof (get_at s' i Hw Hi Hne') as G'. pose proof (get_at s i Hwf Hi Hne) as G.
  pose proof (dirty_at s' i Hw Hi Hne') as D'. pose proof (dirty_at s i Hwf Hi Hne) as D.
  rewrite Hk' in G', D'. rewrite Hk in G, D.
  split; [done|]. split.
  - intros key Hkk. rewrite Hv. by rewrite lookup_partial_alter_ne.
  - rewrite G', G. unfold state_of, val_of in *.
    destruct H as [(Es & Eo & En)|[(Es & En & _)|[(v & -> & Hst & _ & En & _ & Hm)|(-> & ->)]]]; [| | |by auto].
    + left. rewrite Es, Eo, En. destruct (Z.eqb_spec (e_state (entry s i)) ST_LIVE) as [El|]; [|done].
      specialize (Hval El). unfold val_of.
      rewrite (mem_read_ext (arena s') (arena s)); [done|]. intros x Hx. apply Hb. lia.
    + rewrite Es, En, mem_read_zero. destruct (Z.eqb_spec (e_state (entry s i)) ST_LIVE); [|by left].
      right. right. split; [by eexists|done].
    + rewrite En, Hm. destruct Hst as [->| ->]; [|by auto]. destruct (Z.eqb_spec (e_state (entry s i)) ST_LIVE); auto.
  - rewrite D', D. destruct Hf as [->| ->]; [by left|right].
    apply (has_dirty_set dirty _ (ok_flags _ _ Hok)).
Qed.

(** Nothing happened to any bucket but an empty one, which stays empty. *)
Lemma untouched_inherit :
  around s s' i -> used s <= used s' <= ARENA_SIZE ->
  state_of s i = ST_EMPTY -> state_of s' i = ST_EMPTY -> e_flags (entry s' i) = 0 ->
  wf s' /\ view s' = view s.
Proof using Hwf Hi.
  intros [Ho Hb] Hu He He' Hf.
  assert (forall j, state_of s' j = state_of s j) as Hst.
  { intros j. destruct (decide (j = i)) as [->|]; [congruence|]. unfold state_of. by rewrite Ho. }
  assert (forall j, in_index j -> state_of s j <> ST_EMPTY -> key_of s' j = key_of s j) as Hkeys.
  { intros j Hj Hne. apply (update_key s s' i Hwf Ho Hb j Hj); [congruence|done]. }
  split; [split|].
  - pose proof (wf_used s Hwf). lia.
  - rewrite (zsum_ext (footprint s') (footprint s)); [pose proof (wf_account s Hwf); lia|].
    intros j _. destruct (decide (j = i)) as [->|Hj]; [|unfold footprint; by rewrite Ho].
    unfold footprint, state_of in *. by rewrite He, He'.
  - intros j Hj. apply (update_wf_entry s s' i Hwf Ho Hb Hu); [|done].
    split; rewrite ?He', ?Hf; try done; auto.
  - intros j Hj. rewrite Hst. intros Hne. rewrite Hkeys by done.
    destruct (wf_chain s Hwf j Hj Hne) as (x & Hx & E & Hc). exists x. split_and!; [lia..|done|].
    intros y. rewrite Hst. apply Hc.
  - intros j j' Hj Hj'. rewrite !Hst. intros H1 H2. rewrite !Hkeys by done. by apply (wf_unique s Hwf).
  - unfold view. f_equal. apply list_omap_ext.
    apply Forall2_same_length_lookup_2; [done|]. intros n j j' E E'. assert (j' = j) as -> by congruence.
    apply list_elem_of_lookup_2, buckets_in in E. destruct (decide (j = i)) as [->|Hj].
    + by rewrite !record_empty.
    + by apply (update_record s s' i Hwf Ho Hb).
Qed.

(** Of a key that was to have an empty bucket.  The one blemish is the dirty
    bit on a bucket that is still empty. *)
Lemma claimed_inherits v :
  state_of s i = ST_EMPTY -> no_key s k -> reachable s k i -> half_claimed s i k v dirty s' ->
  (state_of s' i = ST_EMPTY -> e_flags (entry s' i) = 0) ->
  wf s' /\ struck k (Some v) dirty (view s) (view s').
Proof using Hwf Hi.
  intros He Hno Hreach ([Ho Hb] & Hu & H) Hclean. pose proof (wf_used s Hwf) as Hus.
  pose proof (wf_entry s Hwf i Hi) as Hok. pose proof (ok_empty _ _ Hok He) as Hf0.
  assert (forall j, in_index j -> j <> i -> state_of s j <> ST_EMPTY -> key_of s' j = key_of s j) as Hkeys
    by (by apply update_key).
  destruct H as [(Es & _)|(Es & Ef & Hroom & Eh & Hk0 & Ekl & Hk1 & Hk & Hv0 & Evl & Hv1 & Hv)].
  - assert (state_of s' i = ST_EMPTY) as He' by (unfold state_of in *; congruence).
    destruct untouched_inherit as [Hw Hview]; auto; [by split|].
    split; [done|]. rewrite Hview. apply struck_same.
  - pose proof (len_nonneg k). pose proof (len_nonneg v).
    assert (key_of s' i = k) as Hk' by (unfold key_of; by rewrite Ekl).
    destruct (update_bucket s s' i k) with (r := Some (Some v, dirty)) as [Hw Hview]; try done.
    { unfold footprint. rewrite Es, Ekl, Evl. pose proof (footprint_nonneg s i Hwf Hi).
      unfold footprint in *. cbn. lia. }
    { split; unfold state_of in *; rewrite ?Es, ?Hk', ?Ef, ?Hf0; try done; auto; try lia.
      destruct dirty; auto. }
    { unfold state_of. by rewrite Es. }
    { right. split; [by left|done]. }
    { unfold record. rewrite Es, Ef, Hf0. unfold val_of. rewrite Evl, Hv. cbn. by destruct dirty. }
    split; [done|]. split.
    + intros key Hkk. rewrite Hview. by rewrite lookup_partial_alter_ne.
    + right. left. unfold Spec.get. by rewrite Hview, lookup_partial_alter_eq.
    + right. unfold Spec.dirty. rewrite Hview, lookup_partial_alter_eq, view_none by done.
      by rewrite orb_false_r.
Qed.
End left.

(** * Killed operations *)

Section killed.
Variables (s : Segment) (dirty : bool).
Hypothesis Hwf : wf s.

(** An empty bucket that carries the dirty bit. *)
Definition blemished (s' : Segment) : Prop :=
  exists i, in_index i /\ state_of s' i = ST_EMPTY /\ e_flags (entry s' i) <> 0.

(** [put k] is to reclaim the tombstone of another key. *)
Definition reclaims (k : bytes) : bool :=
  match fst (run (probe k (fnv1a k)) s) with
  | Some (i, false) => negb (state_of s i =? ST_EMPTY)
  | _ => false
  end.

Lemma killed_put k val n :
  let s' := snd (advance n (bytewise (put k val dirty)) s) in
  needs_compact s (len k + len val) = false -> reclaims k = false -> ~ blemished s' ->
  wf s' /\ struck k (Some val) dirty (view s) (view s').
Proof using Hwf.
  cbv zeta. intros Hc Hre. destruct (put_halfway s k dirty Hwf val n Hc) as [->|[(i & Hi & Hne & Hk & H)|(i & H)]].
  - intros _. split; [done|apply struck_same].
  - intros _. by eapply updated_inherit.
  - destruct H as (Hp & Hi & Hcl & Hno & Hreach & H). intros Hbl.
    unfold reclaims in Hre. rewrite Hp in Hre. apply negb_false_iff, Z.eqb_eq in Hre.
    apply (claimed_inherits s _ i k dirty Hwf Hi val); try done.
    intros He. destruct (decide (e_flags (entry (snd (advance n (bytewise (put k val dirty)) s)) i) = 0)) as [|Hf];
      [done|]. destruct Hbl. by exists i.
Qed.

Lemma killed_remove k n :
  let s' := snd (advance n (bytewise (remove k dirty)) s) in
  wf s' /\ struck k None dirty (view s) (view s').
Proof using Hwf.
  cbv zeta. destruct (remove_halfway s k dirty Hwf n) as [->|(i & Hi & Hl & Hk & H)].
  - split; [done|apply struck_same].
  - apply (updated_inherit s _ i k dirty Hwf Hi None); try done. by rewrite Hl.
Qed.

Lemma killed_repair j n :
  same_data s (snd (advance n (bytewise (repair_seq j)) s)).
Proof using.
  apply (prefix (same_data s)); [reflexivity|].
  assert (forall c b s1, same_data s s1 -> c = CSlot j \/ c = CArenaSeq ->
    guards (fun _ s' => same_data s s') (repair_cell c b) s1 /\
    same_data s (snd (run (repair_cell c b) s1))) as Hcell.
  { intros c b s1 Hd Hc. rewrite run_repair_cell. cbn [snd]. unfold repair_cell.
    assert (same_data s (store c (next_even (load c s1)) s1)) as Hd1.
    { etrans; [exact Hd|]. apply same_data_store. by destruct Hc as [->| ->]. }
    split; [|by case_match]. apply guards_bind; [done|]. rewrite run_loadc. cbn [fst snd].
    case_match; [|done]. by split. }
  unfold repair_seq. cbn [foldM]. destruct (Hcell (CSlot j) false s) as [H1 H2]; [reflexivity|by left|].
  apply guards_bind; [done|]. apply guards_bind; [|done]. apply Hcell; [done|by right].
Qed.

Lemma killed_writeback ps n :
  (forall p, p ∈ ps -> p_hash p = fnv1a (p_key p)) ->
  let s' := snd (advance n (bytewise (commit_writeback ps)) s) in
  wf s' /\ faded (view s) (view s').
Proof using Hwf.
  intros Hps. cbv zeta. set (P s' := wf s' /\ faded (view s) (view s')).
  apply (prefix P); [by split|]. unfold commit_writeback.
  apply (guards_forM _ P); [|by split]. intros p s1 Hp [Hw1 Hf1].
  destruct (run_writeback_one s1 p Hw1 (Hps p Hp)) as (Hw2 & Hv2 & _).
  assert (faded (view s) (retire s1 (view s1) p)) as Hf2.
  { etrans; [exact Hf1|]. unfold retire. case_match; [apply faded_clean|done]. }
  split; [|split; [done|by rewrite Hv2]]. revert Hw2 Hv2. unfold writeback_one, slot_value.
  rewrite run_bind, run_loadc. cbn [fst snd].
  intros Hw2 Hv2. apply guards_bind; [done|]. rewrite run_loadc. cbn [fst snd].
  destruct (negb _); [done|]. revert Hw2 Hv2. rewrite run_bind. intros Hw2 Hv2.
  apply guards_bind; [apply guards_looks, looks_probe|].
  assert (snd (run (probe (p_key p) (p_hash p)) s1) = s1) as Hs by (apply looks_run, looks_probe).
  rewrite Hs in *. destruct (fst (run (probe _ _) s1)) as [[i [|]]|]; [|done..].
  split; [|done]. split; [exact Hw2|]. change (faded (view s) (view (snd (run
    (rmwc (CFlags i) (fun f => Z.land f NOT_FL_DIRTY) ;! ret tt) s1)))). by rewrite Hv2.
Qed.
End killed.

(** * Histories with deaths *)

(** A whole operation, or one that stops after [n] accesses. *)
Inductive act : Type :=
| Whole (o : op)
| KilledPut (key val : bytes) (dirty : bool) (n : nat)
| KilledRemove (key : bytes) (dirty : bool) (n : nat)
| KilledRepair (slot : Z) (n : nat)
| KilledWriteback (ps : list Pending) (n : nat).

Definition next (a : act) (s : Segment) : Segment :=
  match a with
  | Whole o => apply o s
  | KilledPut key val dirty n => snd (advance n (bytewise (put key val dirty)) s)
  | KilledRemove key dirty n => snd (advance n (bytewise (remove key dirty)) s)
  | KilledRepair j n => snd (advance n (bytewise (repair_seq j)) s)
  | KilledWriteback ps n => snd (advance n (bytewise (commit_writeback ps)) s)
  end.

(** Compactions lose nothing, and nobody is killed in one, nor while it
    reclaims a tombstone, nor at the one access between marking the bucket of
    a new key dirty and making it live. *)
Definition fortunate (a : act) (s : Segment) : Prop :=
  match a with
  | Whole o => op_ok o /\ op_safe o s
  | KilledPut key val _ _ =>
    needs_compact s (len key + len val) = false /\ reclaims s key = false /\ ~ blemished (next a s)
  | KilledWriteback ps _ => op_ok (OWriteback ps)
  | _ => True
  end.

Fixpoint fortunate_all (acts : list act) (s : Segment) : Prop :=
  match acts with
  | [] => True
  | a :: acts' => fortunate a s /\ fortunate_all acts' (next a s)
  end.

Definition effect (a : act) (s : Segment) (m' : gmap bytes item) : Prop :=
  let m := view s in
  match a with
  | Whole (OPut key val dirty) =>
    m' = if is_ok (fst (run (put key val dirty) s)) then Spec.put key val dirty m else m
  | Whole (ORemove key dirty) => m' = snd (Spec.remove key dirty m)
  | Whole OClear => m' = ∅
  | Whole (ORepair _) | KilledRepair _ _ => m' = m
  | Whole (OWriteback _) | KilledWriteback _ _ => faded m m'
  | KilledPut key val dirty _ => struck key (Some val) dirty m m'
  | KilledRemove key dirty _ => struck key None dirty m m'
  end.

Lemma next_inherits a s : wf s -> fortunate a s -> wf (next a s) /\ effect a s (view (next a s)).
Proof.
  intros Hwf Hf. destruct a as [[key val d|key d| |j|ps]|key val d n|key d n|j n|ps n];
    cbn [fortunate op_ok op_safe] in Hf; cbn [next apply effect].
  - destruct Hf as [Hok Hs]. destruct (run_put s key val d Hwf Hok) as (m & [Hw _ Hm _ Hv _]).
    rewrite (Hm Hs) in Hv. split; [done|]. rewrite Hv. by destruct (fst (run (put key val d) s)).
  - destruct (run_remove s key d Hwf) as (Hw & Hv & _). split; [done|]. by rewrite <- Hv.
  - destruct (run_clear s) as (Hw & Hv & _). split; [exact Hw|exact Hv].
  - destruct (run_repair_seq j s) as (_ & _ & _ & _ & Hd). split; [by eapply same_data_wf|].
    by rewrite (view_proper _ _ Hd).
  - destruct Hf as [Hok _]. destruct (run_commit_writeback s ps Hwf Hok) as (Hw & -> & _).
    split; [done|]. apply faded_retire.
  - destruct Hf as (? & ? & ?). by apply killed_put.
  - by apply killed_remove.
  - pose proof (killed_repair s j n) as Hd. split; [by eapply same_data_wf|].
    symmetry. by apply view_proper.
  - by apply killed_writeback.
Qed.

(** Along [acts] every segment is well-formed, a read of any key (with the
    repair a reader makes of odd counters) returns what the map has for it, and
    each act changes the map as its operation may. *)
Fixpoint history (acts : list act) (s : Segment) : Prop :=
  wf s /\ (forall key, reads s key = read_of (Spec.get (view s) key)) /\
  match acts with
  | [] => True
  | a :: acts' => effect a s (view (next a s)) /\ history acts' (next a s)
  end.


Definition unblemished (s : Segment) : bool :=
  forallb (fun i => negb (state_of s i =? ST_EMPTY) || (e_flags (entry s i) =? 0)) buckets.

Lemma unblemished_not s : unblemished s = true -> ~ blemished s.
Proof.
  intros H (i & Hi & He & Hf). unfold unblemished in H. rewrite forallb_forall in H.
  specialize (H i ltac:(by apply list_elem_of_In, buckets_in)). rewrite He in H.
  by apply Z.eqb_eq in H.
Qed.

(** "a" is put, a second put of it dies with the value half replaced, so does
    a put of "b" before "b" can be seen, and then "b" is put after all. *)
Definition deadly : list act :=
  [Whole (OPut [97] [120] true); KilledPut [97] [121; 121] true 25;
   KilledPut [98] [122] true 16; Whole (OPut [98] [122] true)].


(** ** A death that outlives the next [set]

    "a" has come from the disk with value "x", so it owes the disk nothing. *)
Definition loaded : Segment := apply (OPut [97] [120] false) zero_segment.

(** A put of "y" that dies with the value in place and the mark not yet. *)
Definition half_put : Segment := next (KilledPut [97] [121] true 27) loaded.

(** [put] publishes the new length before it sets the dirty flag.  Killed in
    between it leaves a clean key with the new value; when a survivor then sets
    the same value, [put] finds nothing to do and reports success without
    marking the key, and the commit, which compares a clean key with its file
    by length only, does not write it: the device keeps the old value. *)
Theorem killed_put_defeats_the_next :
  reads half_put [97] = Value [121] /\
  let r := run (put [97] [121] true) half_put in
  fst r = Ok tt /\ reads (snd r) [97] = Value [121] /\
  fst (run (commit_snapshot (fun key n => negb (n =? len [120]))) (snd r)) = [].
Proof. split; [vm_compute; reflexivity|]. intros r. split_and!; vm_compute; reflexivity. Qed.
