(* ===== verification/KilledDeep.v ===== *)
(** A writer killed anywhere at all.

    Inside a compaction or a [clear] the index is wiped bucket by bucket and,
    in a compaction, filled again record by record.  At every access in between
    a key reads as its value from before or as absent: a writer that dies there
    loses settings, but it leaves no wrong ones. *)

From S2P Require Import Prelude Consts Hash Spec Segment Shm ShmInv ShmProbe ShmOps SeqCount ShmWrite ShmCompact ShmRefine ShmCommit ShmTrace Race RaceInv RaceOps RaceThms Killed KilledThms.

(** No key of [s] shares the hash of [key], save [key]. *)
Definition apart (s : Segment) (key : bytes) : Prop :=
  forall j, in_index j -> state_of s j <> ST_EMPTY ->
    fnv1a (key_of s j) = fnv1a key -> key_of s j = key.

Definition kept (s : Segment) (key : bytes) (r : Read) : Prop :=
  r = read_of (Spec.get (view s) key) \/ r = Absent.

(** [s'] holds nothing that [s] does not. *)
Definition salvaged (s s' : Segment) : Prop :=
  forall key, apart s key -> kept s key (reads s' key).

Lemma salvaged_sub s s' : wf s' -> view s' ⊆ view s -> salvaged s s'.
Proof.
  intros Hwf Hsub key _. unfold kept. rewrite reads_wf by done. unfold Spec.get.
  destruct (view s' !! key) as [r|] eqn:E; [|by right].
  left. by rewrite (lookup_weaken _ _ _ _ E Hsub).
Qed.

(** * While the index is wiped *)

Definition wiping (s s' : Segment) : Prop :=
  (forall j, in_index j -> entry s' j = entry s j \/ state_of s' j = ST_EMPTY) /\
  arena s' = arena s.

Lemma wiping_salvaged s s' : wf s -> wiping s s' -> salvaged s s'.
Proof.
  intros Hwf [He Ha] key _. destruct (reads_any s' key) as (r & (j' & _ & Hend) & ->).
  destruct r as [[b [|]]|]; [|by right..]. destruct Hend as (_ & Eb & Hne & Hhit).
  assert (in_index b) as Hb by (subst b; auto with nvram).
  destruct (He b Hb) as [E|E]; [|done]. left.
  assert (around s s (-1)) as Har by by apply around_same.
  assert (b <> -1) as Hb1 by (unfold in_index in Hb; lia).
  unfold state_of in Hne. rewrite E in Hne.
  apply (hit_local s s') in Hhit; [|done..]. apply (around_hit s s (-1)) in Hhit; [|done..].
  rewrite (bucket_read_local s s') by done.
  rewrite (around_bucket_read s s (-1)) by done. by rewrite Hhit.
Qed.

Lemma wiping_book s s' c v : cell_entry c = None -> wiping s s' -> wiping s (store c v s').
Proof.
  intros Hc [He Ha]. split; [|by rewrite arena_store]. intros j Hj. unfold state_of.
  rewrite entry_store_other by congruence. by apply He.
Qed.

Lemma wiping_same s s' s2 : same_data s' s2 -> wiping s s' -> wiping s s2.
Proof.
  intros [He Ha _ _] [Hw Hx]. split; [|congruence]. intros j Hj. unfold state_of.
  rewrite He. by apply Hw.
Qed.

Lemma wiping_entry s s' i c v :
  cell_entry c = Some i -> (c = CState i /\ v = ST_EMPTY) \/ (c <> CState i /\ state_of s' i = ST_EMPTY) ->
  wiping s s' -> wiping s (store c v s') /\ state_of (store c v s') i = ST_EMPTY.
Proof.
  intros Hc Hi [He Ha].
  assert (state_of (store c v s') i = ST_EMPTY) as Hst.
  { unfold state_of in *. rewrite entry_store_same by done.
    destruct (entry s' i), Hi as [[-> ->]|[Hn Hs]]; [done|]. destruct c; simplify_eq/=; done. }
  split; [|done]. split; [|by rewrite arena_store]. intros j Hj.
  destruct (decide (j = i)) as [->|Hne]; [by right|]. unfold state_of.
  rewrite entry_store_other by congruence. by apply He.
Qed.

(** What every store keeps still holds at the end. *)
Lemma guards_last {A} (P : Segment -> Prop) (p : prog A) s :
  P s -> guards (fun _ s' => P s') p s -> P (snd (run p s)).
Proof.
  intros Hs Hp. by apply (guards_weaken (fun _ s' => P s') (fun _ s' => P s') P p s ltac:(auto)).
Qed.

Lemma wiping_then {B} s s' i c v (rest : prog B) :
  cell_entry c = Some i -> c <> CState i -> wiping s s' -> state_of s' i = ST_EMPTY ->
  (forall s', wiping s s' -> state_of s' i = ST_EMPTY -> guards (fun _ s' => wiping s s') rest s') ->
  guards (fun _ s' => wiping s s') (storec c v ;! rest) s'.
Proof.
  intros Hc Hn Hw He Hrest. destruct (wiping_entry s s' i c v Hc ltac:(by right) Hw) as [H1 H2].
  split; [done|]. by apply Hrest.
Qed.

Lemma guards_wipe_entry s s' i :
  wiping s s' -> guards (fun _ s' => wiping s s') (wipe_entry i) s'.
Proof.
  intros Hw. destruct (wiping_entry s s' i (CState i) ST_EMPTY) as [H1 E1]; auto.
  split; [done|]. revert H1 E1. generalize (store (CState i) ST_EMPTY s'). clear s' Hw.
  do 5 (intros ? ? ?; eapply (wiping_then s); [done|done|done|done|]).
  intros sz Hz Ez. split; [|done]. by apply (wiping_entry s sz i); [done|right|].
Qed.

Lemma guards_wipe s s' : wiping s s' -> guards (fun _ s' => wiping s s') wipe s'.
Proof.
  intros Hw. unfold wipe.
  assert (guards (fun _ s' => wiping s s') (forM buckets wipe_entry) s') as Hg.
  { apply (guards_forM _ (wiping s)); [|done]. intros x s2 _ H2.
    pose proof (guards_wipe_entry s s2 x H2). split; [done|]. by apply guards_last. }
  apply guards_bind; [done|]. apply guards_last in Hg; [|done]. revert Hg.
  generalize (snd (run (forM buckets wipe_entry) s')). intros s2 H2.
  split; [by apply wiping_book|]. split; [|done]. by apply wiping_book; [|apply wiping_book].
Qed.

(** * [clear] *)

Lemma guards_clear s : guards (fun _ s' => wiping s s') clear s.
Proof.
  assert (wiping s s) as Hw by (split; auto). unfold clear.
  assert (forall s', wiping s s' -> guards (fun _ s' => wiping s s') arena_begin s' /\
            guards (fun _ s' => wiping s s') arena_end s') as Ha.
  { intros s' H. split; (split; [by apply wiping_book|done]). }
  apply guards_bind; [by apply Ha|]. apply (guards_last (wiping s) arena_begin) in Hw; [|by apply Ha].
  revert Hw. generalize (snd (run arena_begin s)). intros s1 H1.
  apply guards_bind; [by apply guards_wipe|]. apply (guards_last (wiping s) wipe) in H1; [|by apply guards_wipe].
  revert H1. generalize (snd (run wipe s1)). clear s1. intros s1 H1.
  apply guards_bind; [by apply Ha|]. apply (guards_last (wiping s) arena_end) in H1; [|by apply Ha].
  revert H1. generalize (snd (run arena_end s1)). clear s1. intros s1 H1.
  set (body := fun i => let! v := loadc (CSlot i) in storec (CSlot i) (next_even v)).
  assert (guards (fun _ s' => wiping s s') (forM slots body) s1) as Hg.
  { apply (guards_forM _ (wiping s)); [|done]. intros x s2 _ H2.
    assert (guards (fun _ s' => wiping s s') (body x) s2)
      by (split; [by apply wiping_book|done]).
    split; [done|]. by apply guards_last. }
  apply guards_bind; [done|]. apply guards_last in Hg; [|done].
  revert Hg. generalize (snd (run (forM slots body) s1)). intros s2 H2.
  split; [by apply wiping_book|done].
Qed.

(** * One record on its way back *)

(** Bucket [i], free in [s], is being filled in for the key [k]: nobody looks
    at it before its state is stored. *)
Definition filling (s : Segment) (k : bytes) (s' : Segment) : Prop :=
  exists i, in_index i /\ claimable s i /\ reachable s k i /\ around s s' i /\
    used s <= used s' <= ARENA_SIZE /\ state_of s' i = state_of s i /\
    (e_hash (entry s' i) = e_hash (entry s i) \/ e_hash (entry s' i) = fnv1a k).

Lemma filling_reads s k s' key :
  wf s -> no_key s k -> apart s key -> (fnv1a k = fnv1a key -> k = key) ->
  filling s k s' -> reads s' key = read_of (Spec.get (view s) key).
Proof.
  intros Hwf Hno Hap Hk (i & Hi & Hcl & Hr & Har & Hu & Hst & Hh).
  destruct (decide (key = k)) as [->|Hne].
  - rewrite get_no_key by done. apply (reads_nowhere s s' i); [done|done| |].
    + intros j _. apply Hno.
    + intros _. rewrite Hst. destruct Hcl as [E|[E _]]; rewrite E; done.
  - assert (half_claimed s i k [] true s') as Hhalf by (split; [done|split; [done|by left]]).
    destruct (claimed_reads s i k Hwf Hi [] true Hcl Hno Hr s' key Hap Hk Hhalf) as [E|[E _]];
      [done|congruence].
Qed.

Section reinsert.
Variables (s : Segment) (k : bytes) (i : Z).
Hypothesis Hwf : wf s.
Hypothesis Hi : in_index i.
Hypothesis Hcl : claimable s i.
Hypothesis Hr : reachable s k i.

Lemma stage_filling e A u s' :
  e_state e = state_of s i -> e_hash e = e_hash (entry s i) \/ e_hash e = fnv1a k ->
  used s <= u <= ARENA_SIZE -> stage s i e A u s' -> filling s k s'.
Proof using Hi Hcl Hr.
  intros He Hh Hu (Ha & E & _ & Eu). exists i. unfold state_of at 1. rewrite E, Eu.
  split_and!; try done; apply Hu.
Qed.

(** A store to the bucket, the rest of the program ending in [F]. *)
Lemma filling_store {B} F e A u c v (rest : prog B) s' :
  cell_entry c = Some i -> c <> CState i -> (forall j, c = CHash j -> v = fnv1a k) ->
  stage s i e A u s' ->
  e_state e = state_of s i -> e_hash e = e_hash (entry s i) \/ e_hash e = fnv1a k ->
  used s <= u <= ARENA_SIZE ->
  snd (run (storec c v ;! rest) s') = F ->
  (forall s2 e2, stage s i e2 A u s2 -> e_state e2 = state_of s i ->
     e_hash e2 = e_hash (entry s i) \/ e_hash e2 = fnv1a k -> snd (run rest s2) = F ->
     guards (fun _ s' => filling s k s' \/ s' = F) rest s2) ->
  guards (fun _ s' => filling s k s' \/ s' = F) (storec c v ;! rest) s'.
Proof using Hi Hcl Hr.
  intros Hc Hn Hh Hs He Hhe Hu HF Hrest.
  assert (stage s i (entry_store c v e) A u (store c v s')) as Hs' by by apply stage_store.
  assert (e_state (entry_store c v e) = state_of s i) as He'.
  { destruct e, c; simplify_eq/=; done. }
  assert (e_hash (entry_store c v e) = e_hash (entry s i) \/
          e_hash (entry_store c v e) = fnv1a k) as Hhe'.
  { destruct e, c; simplify_eq/=; try done. right. by eapply Hh. }
  split.
  - left. by eapply stage_filling.
  - by eapply Hrest.
Qed.
End reinsert.

(** Every access of a re-insertion. *)
Lemma guards_reinsert s r :
  wf s -> no_key s (fst r) -> used s + rec_size r <= ARENA_SIZE ->
  guards (fun _ s' => filling s (fst r) s' \/ s' = snd (run (reinsert (keep_of r)) s))
    (reinsert (keep_of r)) s.
Proof.
  destruct r as [key [ov d]]. unfold rec_size. cbn [fst snd].
  intros Hwf Hno Hu. pose proof (wf_used s Hwf) as Hus. pose proof (len_nonneg key).
  assert (ARENA_SIZE < 2 ^ 32) by done.
  assert (0 <= match ov with Some v => len v | None => 0 end)
    by (destruct ov; [apply len_nonneg|done]).
  remember (snd (run (reinsert _) s)) as F eqn:HF. symmetry in HF. revert HF.
  unfold reinsert, keep_of. cbn [fst snd k_key k_val k_flags].
  destruct (run_probe_missing s key Hwf Hno) as (pr & Hpr & Hpost).
  rewrite run_bind, Hpr. cbn [fst snd]. intros HF.
  apply guards_bind; [apply guards_looks, looks_probe|]. rewrite Hpr. cbn [fst snd].
  destruct pr as [[i found]|]; [|done]. destruct Hpost as (_ & Hi & Hcl & Hr).
  assert (stage s i (entry s i) (fun _ => True) (used s) s) as Hs
    by by split_and!; try apply around_same.
  destruct (guards_stage_alloc s i (entry s i) (fun _ => True) (used s) key s)
    as [Hg Hs2]; try done; try lia.
  rewrite run_bind in HF. apply guards_bind.
  { revert Hg. apply guards_mono. intros _ s' [H'|H']; left;
      (eapply (stage_filling s key i Hi Hcl Hr); [| | |exact H']; auto; lia). }
  rewrite run_arena_alloc in HF, Hs2 |- * by lia. cbn [fst snd] in *.
  revert HF Hs2. generalize (store CArenaUsed (used s + len key) (arena_write (used s) key s)).
  clear Hg. intros s2 HF Hs2.
  assert (exists e, stage s i e (fun _ => True) (used s + len key) s2 /\ e_state e = state_of s i /\
    (e_hash e = e_hash (entry s i) \/ e_hash e = fnv1a key)) as (e & Hs' & He & Hh).
  { destruct Hs2 as (? & ? & _ & ?). exists (entry s i). split_and!; auto. by split_and!. }
  clear Hs2. rename Hs' into Hs2.
  do 4 (eapply (filling_store s key i Hi Hcl Hr); [done|done|by intros ??|exact Hs2|done|done|lia|exact HF|];
        clear s2 e HF Hs2 He Hh; intros s2 e Hs2 He Hh HF).
  destruct ov as [v|].
  - destruct (guards_stage_alloc s i e (fun _ => True) (used s + len key) v s2)
      as [Hg Hs3]; try done; try lia.
    rewrite run_bind in HF. apply guards_bind.
    { revert Hg. apply guards_mono. intros _ s' [H'|H']; left;
        (eapply (stage_filling s key i Hi Hcl Hr); [| | |exact H']; auto; lia). }
    destruct Hs2 as (_ & _ & _ & Eu).
    rewrite run_arena_alloc in HF, Hs3 |- * by lia. cbn [fst snd] in *.
    revert HF Hs3. generalize (store CArenaUsed (used s2 + len v) (arena_write (used s2) v s2)).
    clear Hg. intros s3 HF Hs3.
    do 2 (eapply (filling_store s key i Hi Hcl Hr); [done|done|by intros ??|exact Hs3|done|done|lia|exact HF|];
          clear s3 e HF Hs3 He Hh; intros s3 e Hs3 He Hh HF).
    by split; [right|].
  - do 2 (eapply (filling_store s key i Hi Hcl Hr); [done|done|by intros ??|exact Hs2|done|done|lia|exact HF|];
          clear s2 e HF Hs2 He Hh; intros s2 e Hs2 He Hh HF).
    by split; [right|].
Qed.

(** * The whole compaction *)

Section compaction.
Variable s : Segment.
Hypothesis Hwf : wf s.

Lemma seen_index pre post i : buckets = pre ++ post -> i ∈ pre -> in_index i.
Proof using. intros Hb Hi. apply buckets_in. rewrite Hb. apply elem_of_app. by left. Qed.

Lemma progress_salvaged pre post s' : buckets = pre ++ post -> progress s pre s' -> salvaged s s'.
Proof using Hwf.
  intros Hb Hp. apply salvaged_sub; [apply Hp|]. apply map_subseteq_spec. intros k r E.
  destruct (pr_sound _ _ _ Hp k r E) as (i & Hi & E').
  apply view_lookup; [done|]. exists i. split; [by eapply seen_index|done].
Qed.

Lemma progress_apart pre post s' key :
  buckets = pre ++ post -> progress s pre s' -> apart s key -> apart s' key.
Proof using.
  intros Hb Hp Ha j Hj Hne Hh. destruct (pr_keys _ _ _ Hp j Hj Hne) as (i & r & Hi & E).
  pose proof (record_key _ _ _ _ E) as Ek. rewrite <- Ek in *.
  apply Ha; [by eapply seen_index|by eapply record_nonempty|done].
Qed.

Lemma filling_salvaged pre x post r s' s2 :
  buckets = pre ++ x :: post -> record s x = Some r -> progress s pre s' ->
  filling s' (fst r) s2 -> salvaged s s2.
Proof using Hwf.
  intros Hb Hr Hp Hf key Ha. destruct (reinsert_ready s Hwf pre x post r s' Hb Hr Hp) as [Hno _].
  destruct (buckets_split pre x post Hb) as [Hx _].
  rewrite (filling_reads s' (fst r) s2 key (pr_wf _ _ _ Hp) Hno); [|by eapply progress_apart| |done].
  - rewrite <- reads_wf by apply Hp. by eapply progress_salvaged.
  - destruct r as [k it]. apply record_key in Hr as Hk. cbn [fst]. rewrite <- Hk.
    apply Ha; [done|by eapply record_nonempty].
Qed.

Lemma guards_refill post pre s' :
  buckets = pre ++ post -> progress s pre s' ->
  guards (fun _ s' => salvaged s s') (forM (keep_of <$> omap (record s) post) reinsert) s' /\
  progress s buckets (snd (run (forM (keep_of <$> omap (record s) post) reinsert) s')).
Proof using Hwf.
  revert pre s'; induction post as [|x post IH]; intros pre s' Hb Hp.
  { split; [done|]. by rewrite Hb, app_nil_r. }
  assert (buckets = (pre ++ [x]) ++ post) as Hb' by by rewrite <- app_assoc.
  cbn [omap list_omap]. destruct (record s x) as [r|] eqn:Hr.
  - cbn [fmap list_fmap forM].
    destruct (progress_step s Hwf pre x post r s' Hb Hr Hp) as (Hp' & _).
    destruct (reinsert_ready s Hwf pre x post r s' Hb Hr Hp) as [Hno Hroom].
    destruct (IH _ _ Hb' Hp') as [Hg Hl]. rewrite run_bind. split; [|done].
    apply guards_bind; [|done].
    apply (guards_mono (fun _ s2 => filling s' (fst r) s2 \/ s2 = snd (run (reinsert (keep_of r)) s'))).
    + intros _ s2 [Hf| ->]; [by eapply filling_salvaged|by eapply progress_salvaged].
    + by apply guards_reinsert; [apply Hp|..].
  - apply (IH (pre ++ [x])); [done|]. apply progress_weaken; try done.
    + unfold size_at. by rewrite Hr.
    + intros _ k r. by rewrite Hr.
Qed.

Lemma guards_compact : guards (fun _ s' => salvaged s s') compact s.
Proof using Hwf.
  assert (forall s', wiping s s' -> salvaged s s') as Hw by (intros; by apply wiping_salvaged).
  unfold compact.
  apply guards_bind; [apply guards_looks, looks_keeps|]. rewrite run_keep by done. cbn [fst snd].
  assert (wiping s s) as H0 by (split; auto).
  apply guards_bind; [by split; [apply Hw, wiping_book|]|]. rewrite run_arena_begin. cbn [fst snd].
  set (s0 := store CArenaSeq _ s). assert (wiping s s0) as H1 by by apply wiping_book.
  clearbody s0. apply guards_bind.
  { eapply guards_mono; [|by apply guards_wipe]. auto. }
  destruct (run_wipe s0) as (Hf & _). revert Hf. generalize (snd (run wipe s0)). intros s1 Hf.
  destruct (guards_refill buckets [] s1 eq_refl (progress_start s s1 Hf)) as [Hg Hl].
  apply guards_bind; [done|]. revert Hl. generalize (snd (run (forM (keep_of <$> omap (record s) buckets) reinsert) s1)).
  intros s2 Hp. split; [|done]. apply (progress_salvaged buckets []); [by rewrite app_nil_r|].
  eapply progress_proper; [|exact Hp]. by apply same_data_store.
Qed.

Lemma compact_apart key : apart s key -> apart (snd (run compact s)) key.
Proof using Hwf.
  intros Ha. destruct (compact_progress s Hwf) as (Hp & _).
  eapply (progress_apart buckets []); [by rewrite app_nil_r|done..].
Qed.
End compaction.

(** * Whole operations *)

(** What a put of [k] that may compact leaves: everything as before or gone,
    save that [k] itself may have the empty value or the new one. *)
Definition remains (s : Segment) (k val key : bytes) (r : Read) : Prop :=
  kept s key r \/ (key = k /\ (r = Value [] \/ r = Value val)).

Section killed.
Variables (s : Segment) (k val : bytes) (dirty : bool).
Hypothesis Hwf : wf s.
Hypothesis Hlen : len k + len val < 2 ^ 63.

Definition survived (s' : Segment) : Prop :=
  forall key, unambiguous s k key -> remains s k val key (reads s' key).

Lemma salvaged_survived s' : salvaged s s' -> survived s'.
Proof using. intros H key [Ha _]. left. by apply H. Qed.

Lemma guards_ensure_space :
  guards (fun _ s' => survived s') (ensure_space (len k + len val)) s.
Proof using Hwf Hlen.
  pose proof (guards_compact s Hwf) as Hc.
  apply (guards_mono _ (fun _ s' => survived s')) in Hc; [|intros _; apply salvaged_survived].
  revert Hc. unfold ensure_space. generalize compact as c. intros c Hc.
  apply guards_bind; [done|]. rewrite run_loadc. cbn [fst snd load].
  destruct (wadd _ _ <=? ARENA_SIZE).
  - apply guards_bind; [done|]. rewrite run_loadc. cbn [fst snd load].
    apply guards_bind; [|done]. by destruct (_ <? _).
  - apply guards_bind; [done|]. by apply guards_bind.
Qed.

(** What [ensure_space] ends with. *)
Lemma ensured :
  let s1 := snd (run (ensure_space (len k + len val)) s) in
  wf s1 /\ view s1 ⊆ view s /\ (forall key, apart s key -> apart s1 key) /\
  (fst (run (ensure_space (len k + len val)) s) = Ok tt -> used s1 + (len k + len val) <= ARENA_SIZE).
Proof using Hwf Hlen.
  pose proof (len_nonneg k). pose proof (len_nonneg val). cbv zeta.
  pose proof (run_ensure_space s (len k + len val) Hwf ltac:(lia)) as H2.
  pose proof (sp_wf _ _ _ _ H2).
  split_and!; [done|apply H2|..].
  - intros key Ha. rewrite (ensure_space_segment k) by done || lia.
    destruct (needs_compact _ _); [by apply compact_apart|done].
  - apply H2.
Qed.

Lemma put_guards_anywhere : guards (fun _ s' => survived s') (put k val dirty) s.
Proof using Hwf Hlen.
  pose proof (len_nonneg k). pose proof (len_nonneg val). unfold put.
  apply guards_bind; [apply guards_looks, looks_holds_value|].
  rewrite run_holds_value by done. cbn [fst snd]. destruct (bool_decide _); [done|].
  rewrite wadd_small by lia. apply guards_bind; [apply guards_ensure_space|].
  destruct ensured as (Hw1 & Hsub & Hap & Hroom).
  destruct (fst (run (ensure_space _) s)) as [[]|]; [|done]. specialize (Hroom eq_refl).
  revert Hw1 Hsub Hap Hroom. generalize (snd (run (ensure_space (len k + len val)) s)).
  intros s1 Hw1 Hsub Hap Hroom.
  apply (guards_mono (fun _ s' => halfway_put s1 k val dirty s')); [|by apply put_tail_guards].
  intros _ s' Hs' key [Ha Hk].
  destruct (halfway_put_reads s1 k key Hw1 (conj (Hap key Ha) Hk) val dirty s') as [E|E]; [done| |by right].
  left. rewrite E, <- reads_wf by done. by apply salvaged_sub.
Qed.
End killed.

(** C11: a writer killed at any of its accesses, those of a compaction and of a
    [clear] included, leaves no wrong value.  Once the counters are repaired a
    key reads as it did before or as absent; only the key being put may also
    read as its new value or as empty.  The key that is read must not share
    its 64-bit hash with another key, be it one in the index or the one being
    put ([unambiguous]).  (The key and value put are together shorter than
    2^63 bytes.) *)
Theorem killed_anywhere_invents_nothing (s : Segment) (k val key : bytes) (dirty : bool) (n : nat) :
  wf s -> unambiguous s k key -> len k + len val < 2 ^ 63 ->
  remains s k val key (reads (snd (advance n (bytewise (put k val dirty)) s)) key) /\
  kept s key (reads (snd (advance n (bytewise clear) s)) key).
Proof.
  intros Hwf Hclear Hlen. split.
  - apply (prefix (survived s k val) n (put k val dirty) s); [|by apply put_guards_anywhere|done].
    apply salvaged_survived. by apply salvaged_sub.
  - apply (wiping_salvaged s); [done| |exact (proj1 Hclear)].
    apply (prefix (wiping s) n clear s); [by split; auto|apply guards_clear].
Qed.

(** "al" holding "0" while a value as large as the whole arena is put: before
    the wipe, between the wipe and the re-insertion, and after it. *)
Lemma killed_anywhere_invents_nothing_witness :
  let big := repeat 0 (Z.to_nat ARENA_SIZE) in
  let at_access n := reads (snd (advance (Z.to_nat n) (bytewise (put [120] big true)) seg_al)) key_al in
  wf seg_al /\ at_access 8200 = Value [48] /\ at_access 30000 = Absent /\
  at_access 65600 = Value [48] /\ remains seg_al [120] big key_al (at_access 30000).
Proof.
  assert (wf seg_al) as Hwf.
  { apply apply_wf; [apply fresh_wf, zero_segment_fresh|]. vm_compute. done. }
  intros big at_access. split; [exact Hwf|]. split_and!.
  - vm_compute. reflexivity.
  - vm_compute. reflexivity.
  - vm_compute. reflexivity.
  - apply (killed_anywhere_invents_nothing seg_al [120] big key_al true (Z.to_nat 30000)).
    + exact Hwf.
    + apply hashes_apart_unambiguous. vm_compute. reflexivity.
    + unfold big, len. rewrite repeat_length. vm_compute. reflexivity.
Defined.
