(* ===== verification/Custody.v ===== *)
(** What every process owes the shared segments.

    [minds m kn Q]: whatever the answers, the code [m] of a process that knows
    [kn] touches segments with care, and ends knowing something that satisfies
    [Q].  With care means: a program that may write runs on an object known to
    be ready and maps well-formed segments to well-formed ones; an object of
    the process's own is filled from empty and published at the end; and what a
    program is given rests only on what its predecessors can return. *)

From S2P Require Import Prelude Consts Hash Names Segment Shm Cache ShmInv ShmOps SeqCount ShmWrite ShmCompact ShmCommit ShmTrace World Disk Sem SemInv Attach Store Lib Race Locking LockingInv.

(** * What a program can return *)

Fixpoint returns {A} (p : prog A) (a : A) : Prop :=
  match p with
  | PRet b => a = b
  | PLoad _ k => exists v, returns (k v) a
  | PStore _ _ k => returns k a
  | PRmw _ _ k => exists v, returns (k v) a
  | PRead _ _ k => exists bs, returns (k bs) a
  | PWrite _ _ k => returns k a
  end.

Lemma returns_bind {A B} (m : prog A) (f : A -> prog B) b :
  returns (bind m f) b -> exists a, returns m a /\ returns (f a) b.
Proof.
  induction m as [a|c k IH|c v k IH|c g k IH|off n k IH|off bs k IH];
    unfold bind; fold (@bind A B); cbn [returns]; [by eauto|..].
  - intros [v H]. destruct (IH v H) as (a & ? & ?). eauto.
  - apply IH.
  - intros [v H]. destruct (IH v H) as (a & ? & ?). eauto.
  - intros [bs' H]. destruct (IH bs' H) as (a & ? & ?). eauto.
  - apply IH.
Qed.

Lemma returns_ret {A} (a b : A) : returns (ret a) b -> b = a.
Proof. done. Qed.

Lemma returns_pstep {A} (p : prog A) s a : returns (fst (pstep p s)) a -> returns p a.
Proof. destruct p; cbn; eauto. Qed.

Lemma run_pstep {A} (p : prog A) s : run (fst (pstep p s)) (snd (pstep p s)) = run p s.
Proof. by destruct p. Qed.

Lemma returns_foldM {X St} (I : St -> Prop) (l : list X) (st : St) body st' :
  (forall x st st', I st -> returns (body x st) st' -> I st') ->
  I st -> returns (foldM l st body) st' -> I st'.
Proof.
  intros Hb. revert st; induction l as [|x l IH]; intros st Hst; cbn [foldM].
  - by intros ->%returns_ret.
  - intros (st1 & H1 & H2)%returns_bind. eapply IH, H2. by eapply Hb.
Qed.

#[global] Arguments returns : simpl never.

(** The hashes of a snapshot are those of its keys. *)
Definition hashed (ps : list Pending) : Prop := forall p, p ∈ ps -> p_hash p = fnv1a (p_key p).

Lemma returns_commit_snapshot ask ps : returns (commit_snapshot ask) ps -> hashed ps.
Proof.
  unfold commit_snapshot. apply (returns_foldM hashed); [|by intros p Hp%elem_of_nil].
  intros i out out' Hout. unfold snapshot_entry.
  assert (forall x, p_hash x = fnv1a (p_key x) -> hashed (out ++ [x])) as Hadd.
  { intros x Hx p [Hp| ->%list_elem_of_singleton]%elem_of_app; auto. }
  intros (state & _ & H)%returns_bind. destruct (state =? ST_EMPTY); [by apply returns_ret in H as ->|].
  apply returns_bind in H as (fl & _ & H). destruct (_ && _); [by apply returns_ret in H as ->|].
  apply returns_bind in H as (ko & _ & H). apply returns_bind in H as (kl & _ & H).
  apply returns_bind in H as ([key|] & _ & H); [|by apply returns_ret in H as ->].
  apply returns_bind in H as (seen & _ & H). destruct (state =? ST_LIVE).
  - apply returns_bind in H as (vl & _ & H). destruct (_ && _); [by apply returns_ret in H as ->|].
    apply returns_bind in H as (vo & _ & H). apply returns_bind in H as (v & _ & H).
    apply returns_ret in H as ->. destruct v; [by apply Hadd|done].
  - apply returns_ret in H as ->. by apply Hadd.
Qed.

(** * The programs that write *)

(** [p] is the code of operation [o]. *)
Inductive performs : op -> forall {A : Type}, prog A -> Prop :=
| performs_put key val dirty : performs (OPut key val dirty) (Shm.put key val dirty)
| performs_remove key dirty : performs (ORemove key dirty) (Shm.remove key dirty)
| performs_clear : performs OClear Shm.clear
| performs_repair k : performs (ORepair k) (repair_seq k)
| performs_writeback ps : performs (OWriteback ps) (commit_writeback ps).

Definition updates {A} (p : prog A) : Prop := exists o, op_ok o /\ performs o p.

Inductive heads : Z -> forall {A : Type}, prog A -> Prop :=
| heads_intro dev : heads dev (init_header dev).

Lemma performs_run o {A} (p : prog A) s : performs o p -> snd (run p s) = apply o s.
Proof. by destruct 1. Qed.

Lemma performs_unready o {A} (p : prog A) : performs o p -> unready p.
Proof.
  destruct 1; [apply unready_put|apply unready_remove|apply unready_clear|apply unready_repair|
    apply unready_writeback].
Qed.

Lemma updates_put key val dirty : len key + len val < 2 ^ 63 -> updates (Shm.put key val dirty).
Proof. intros Hl. exists (OPut key val dirty). split; [done|constructor]. Qed.

Lemma updates_remove key dirty : updates (Shm.remove key dirty).
Proof. exists (ORemove key dirty). split; [done|constructor]. Qed.

Lemma updates_clear : updates Shm.clear.
Proof. exists OClear. split; [exact I|constructor]. Qed.

Lemma updates_repair hash : updates (repair_seq (slot_of hash)).
Proof. exists (ORepair (slot_of hash)). split; [apply slot_of_range|constructor]. Qed.

Lemma updates_writeback ps : hashed ps -> updates (commit_writeback ps).
Proof. intros Hps. exists (OWriteback ps). split; [exact Hps|constructor]. Qed.

(** * Serial segments *)

Definition headed (dev : Z) : Segment := snd (run (init_header dev) zero_segment).

Lemma headed_fresh dev : fresh (headed dev).
Proof. unfold headed, init_header. run_simpl. split; by seg_simpl. Qed.

(** An object its creator is filling: operations have run on it one after the
    other. *)
Definition drafted (s : Segment) : Prop :=
  exists dev os, Forall op_ok os /\ s = apply_all os (headed dev).

(** What operations run one after the other have made of an object since it
    was opened, those that were cut short without harm included. *)
Inductive serial : Segment -> Prop :=
| serial_open s : drafted s -> serial (store CReady 1 s)
| serial_op o s : op_ok o -> serial s -> serial (apply o s)
| serial_cut o A (p : prog A) n s :
    op_ok o -> performs o p -> serial s -> wf (snd (advance n p s)) -> serial (snd (advance n p s)).

Lemma drafted_wf s : drafted s -> wf s.
Proof. intros (dev & os & Hos & ->). apply apply_all_wf; [apply fresh_wf, headed_fresh|done]. Qed.

Lemma drafted_op o s : op_ok o -> drafted s -> drafted (apply o s).
Proof.
  intros Ho (dev & os & Hos & ->). exists dev, (os ++ [o]). split; [by apply Forall_app_2; [|constructor]|].
  by rewrite apply_all_app.
Qed.

Lemma serial_wf s : serial s -> wf s.
Proof.
  induction 1 as [s Hd|o s Ho _ IH|]; [|by apply apply_wf|done].
  eapply same_data_wf; [|by apply drafted_wf]. split; intros; by seg_simpl.
Qed.

(** * What a process knows *)

Record know := mkKnow {
  (* ready to use *)
  kw_ready : gset Z;
  (* created by this process, with records in them or still empty *)
  kw_mine : gset Z;
  kw_blank : gset Z
}.

Definition admit_ready (o : Z) (kn : know) : know :=
  mkKnow ({[o]} ∪ kw_ready kn) (kw_mine kn) (kw_blank kn).
Definition claim (o : Z) (kn : know) : know :=
  mkKnow (kw_ready kn) (kw_mine kn) ({[o]} ∪ kw_blank kn).
Definition fill_in (o : Z) (kn : know) : know :=
  mkKnow (kw_ready kn) ({[o]} ∪ kw_mine kn) (kw_blank kn ∖ {[o]}).
Definition open_up (o : Z) (kn : know) : know :=
  mkKnow ({[o]} ∪ kw_ready kn) (kw_mine kn ∖ {[o]}) (kw_blank kn).

(** Call [c] is made with care, [K] being what comes after. *)
Definition clause {R} (c : call R) : (R -> know -> Prop) -> know -> Prop :=
  match c in call R return (R -> know -> Prop) -> know -> Prop with
  | ReadDir => fun K kn => forall r, (forall names, r = Some names -> Forall short names) -> K r kn
  | FsRead _ => fun K kn => forall r, (forall bs, r = Some bs -> short bs) -> K r kn
  | ShmCreateExcl => fun K kn => K None kn /\ forall o, K (Some o) (claim o kn)
  | Seg o p => fun K kn =>
      (looks p /\ forall r, returns p r -> K r kn) \/
      (exists f, p = PLoad CReady (fun v => PRet (f v)) /\
         forall v, K (f v) (if v =? 0 then kn else admit_ready o kn)) \/
      ((o ∈ kw_ready kn \/ o ∈ kw_mine kn) /\ updates p /\ forall r, returns p r -> K r kn) \/
      (o ∈ kw_blank kn /\ (exists dev, heads dev p) /\ forall r, K r (fill_in o kn)) \/
      (exists a, o ∈ kw_mine kn /\ p = PStore CReady 1 (PRet a) /\ K a (open_up o kn))
  | SegAsk o p => fun K kn => forall ask, looks (p ask) /\ forall r, returns (p ask) r -> K r kn
  | _ => fun K kn => forall r, K r kn
  end.

Fixpoint minds {A} (m : io A) (kn : know) (Q : A -> know -> Prop) : Prop :=
  match m with
  | IRet a => Q a kn
  | ICall c k => clause c (fun r kn' => minds (k r) kn' Q) kn
  end.

Lemma clause_mono {R} (c : call R) (K K' : R -> know -> Prop) kn :
  (forall r kn', K r kn' -> K' r kn') -> clause c K kn -> clause c K' kn.
Proof.
  intros HK. destruct c; cbn [clause]; auto.
  - intros [H1 H2]. auto.
  - intros [[H1 H2]|[(f & -> & H2)|[(H1 & H2 & H3)|[(H1 & H2 & H3)|(a & H1 & -> & H2)]]]].
    + left. auto.
    + right; left. exists f. auto.
    + do 2 right; left. auto.
    + do 3 right; left. auto.
    + do 4 right. exists a. auto.
  - intros H ask. destruct (H ask). auto.
Qed.

Section rules.
Context {A B : Type}.

Lemma minds_mono (m : io A) kn (Q Q' : A -> know -> Prop) :
  minds m kn Q -> (forall a kn', Q a kn' -> Q' a kn') -> minds m kn Q'.
Proof.
  intros H HQ. revert kn H; induction m as [a|R c k IH]; intros kn; cbn [minds]; [auto|].
  apply clause_mono. auto.
Qed.

Lemma minds_bind (m : io A) (f : A -> io B) kn Q :
  minds m kn (fun a kn' => minds (f a) kn' Q) -> minds (ibind m f) kn Q.
Proof.
  revert kn; induction m as [a|R c k IH]; intros kn; unfold ibind; fold (@ibind A B); cbn [minds]; [done|].
  apply clause_mono. auto.
Qed.

Lemma minds_ret (a : A) kn (Q : A -> know -> Prop) : Q a kn -> minds (iret a) kn Q.
Proof. done. Qed.
End rules.

#[global] Arguments minds : simpl never.

(** * Code that learns nothing *)

(** It ends as it began, with a result that satisfies [P]. *)
Definition keeps {A} (kn : know) (P : A -> Prop) (m : io A) : Prop :=
  minds m kn (fun a kn' => kn' = kn /\ P a).

Definition any {A} (_ : A) : Prop := True.

Section keeps.
Variable kn : know.

Lemma keeps_ret {A} (P : A -> Prop) a : P a -> keeps kn P (iret a).
Proof. intros H. by apply minds_ret. Qed.

Lemma keeps_bind {A B} (P : A -> Prop) (P' : B -> Prop) (m : io A) (f : A -> io B) :
  keeps kn P m -> (forall a, P a -> keeps kn P' (f a)) -> keeps kn P' (ibind m f).
Proof.
  intros Hm Hf. apply minds_bind. eapply minds_mono; [exact Hm|]. intros a ? [-> Ha]. by apply Hf.
Qed.

(** The result of the first part does not matter. *)
Lemma keeps_then {A B} (P : B -> Prop) (m : io A) (f : A -> io B) :
  keeps kn any m -> (forall a, keeps kn P (f a)) -> keeps kn P (ibind m f).
Proof. intros Hm Hf. eapply keeps_bind; [exact Hm|auto]. Qed.

Lemma keeps_any {A} (P : A -> Prop) m : keeps kn P m -> keeps kn any m.
Proof. intros H. eapply minds_mono; [exact H|]. by intros a ? [-> _]. Qed.

(** Calls that have nothing to do with segments. *)
Definition aside {R} (c : call R) : bool :=
  match c with Seg _ _ | SegAsk _ _ | ShmCreateExcl => false | _ => true end.

Lemma keeps_aside {R} (c : call R) : aside c = true -> keeps kn any (sys c).
Proof. intros Hc. destruct c; try done; by intros r. Qed.

Lemma keeps_foldM {X St} (P : St -> Prop) (l : list X) (st : St) body :
  P st -> (forall x st, x ∈ l -> P st -> keeps kn P (body x st)) -> keeps kn P (ifoldM l st body).
Proof.
  revert st; induction l as [|x l IH]; intros st Hst Hb; [by apply keeps_ret|]. cbn [ifoldM].
  eapply keeps_bind; [apply Hb; [apply list_elem_of_here|done]|]. intros st1 H1.
  apply IH; [done|]. intros y st2 Hy. apply Hb. by apply list_elem_of_further.
Qed.

Lemma keeps_looks {A} o (p : prog A) : looks p -> keeps kn (returns p) (sys (Seg o p)).
Proof. intros Hp. left. split; [done|]. intros r Hr. by apply minds_ret. Qed.

Lemma keeps_updates {A} o (p : prog A) :
  o ∈ kw_ready kn \/ o ∈ kw_mine kn -> updates p -> keeps kn any (sys (Seg o p)).
Proof. intros Ho Hp. right; right; left. split_and!; [done..|]. intros r Hr. by apply minds_ret. Qed.
End keeps.

#[global] Arguments keeps : simpl never.
