(* ===== verification/CustodyCode.v ===== *)
(** Every call of the C interface treats the segments with the care of
    [Custody], whatever the system answers. *)

From S2P Require Import Prelude Consts Hash Names Segment Shm Cache ShmInv ShmTrace World Disk Sem Attach Store Lib Race Locking LockingInv Custody.

Section code.
Context `{AL : Allocator}.
Variable fuel : nat.

(** * Code that touches no segment, or one that is known to be ready *)

Ltac kept :=
  repeat match goal with
  | |- keeps _ _ (ibind _ _) => apply keeps_then; [|intros ?]
  | |- keeps _ _ (iret _) => apply keeps_ret
  | |- keeps _ any (sys (Seg _ _)) => eapply keeps_any, keeps_looks; first
      [apply looks_loadc|apply looks_read_value|apply looks_for_each_live]
  | |- keeps _ any (sys _) => apply keeps_aside; reflexivity
  | |- keeps _ any store_dev => apply keeps_aside; reflexivity
  | |- keeps _ any store_available => apply keeps_aside; reflexivity
  | |- keeps _ any sync_store => apply keeps_aside; reflexivity
  | |- keeps _ any unlink => apply keeps_aside; reflexivity
  | |- keeps _ any (ifoldM _ _ _) => apply keeps_foldM; [exact I|intros ? ? _ _]
  | |- keeps _ _ (match ?x with _ => _ end) => destruct x
  | |- keeps _ _ (let (_, _) := ?x in _) => destruct x
  | |- any _ => exact I
  end.

Section kept.
Variable kn : know.

Lemma keeps_lock proj : keeps kn any (lock fuel proj).
Proof.
  unfold lock, sem_get. kept. clear. induction fuel as [|n IH]; cbn [lock_loop]; kept. apply IH.
Qed.

Lemma keeps_drop g : keeps kn any (drop_guard fuel g).
Proof. unfold drop_guard. induction fuel as [|n IH]; cbn [drop_loop]; kept. apply IH. Qed.

Lemma keeps_drop_opt g : keeps kn any (drop_opt fuel g).
Proof. destruct g; [apply keeps_drop|by apply keeps_ret]. Qed.

Lemma keeps_write_tmp key val flush : keeps kn any (write_tmp key val flush).
Proof. unfold write_tmp, fill. kept. Qed.

Lemma keeps_publish tmp key : keeps kn any (publish tmp key).
Proof. unfold publish. kept. Qed.

Lemma keeps_write_atomic key val : keeps kn any (write_atomic key val).
Proof. unfold write_atomic. kept; [apply keeps_write_tmp|apply keeps_publish]. Qed.

Lemma keeps_remove key : keeps kn any (Disk.remove key).
Proof. unfold Disk.remove. kept. Qed.

Lemma keeps_remove_all : keeps kn any remove_all.
Proof. unfold remove_all, remove_entry. kept. Qed.

Lemma keeps_read_one key : keeps kn any (read_one key).
Proof. unfold read_one. kept. Qed.

Lemma keeps_map fd : keeps kn (fun r => r = Ok fd \/ r = Err) (Attach.map fd).
Proof.
  unfold Attach.map. apply keeps_then; [kept|]. intros size. destruct (negb _); kept; auto.
  destruct (_ : bool); auto.
Qed.

(** What a walk hands its callback fits in memory. *)
Lemma keeps_load_all {St} (P : St -> Prop) (f : bytes -> bytes -> St -> io St) (st : St) :
  P st -> (forall k v st, short k -> short v -> P st -> keeps kn P (f k v st)) ->
  keeps kn (fun r => match r with Ok st => P st | Err => True end) (load_all f st).
Proof.
  intros Hst Hf. unfold load_all.
  apply (keeps_bind kn (fun r => forall names, r = Some names -> Forall short names)).
  { by intros r Hr. }
  intros [names|] Hn; [|by apply (keeps_ret kn _ Err)]. specialize (Hn names eq_refl).
  apply (keeps_bind kn P); [|intros st' H'; by apply (keeps_ret kn _ (Ok st'))].
  apply keeps_foldM; [done|]. intros name st1 Hname H1. rewrite Forall_forall in Hn.
  specialize (Hn name Hname). unfold load_entry.
  destruct (negb _); [by apply keeps_ret|]. destruct (_ || _).
  { destruct (starts_with _ _); [|by apply keeps_ret]. kept. done. }
  apply keeps_then; [kept|]. intros [[|]|]; try by apply keeps_ret.
  apply (keeps_bind kn (fun r => forall bs, r = Some bs -> short bs)); [by intros r Hr|].
  intros [bs|] Hbs; [apply Hf; auto|by apply keeps_ret].
Qed.
End kept.

(** A process may go on with a store that maps an object it knows. *)
Definition familiar (st : Store) (kn : know) : Prop := forall o, s_seg st = Some o -> o ∈ kw_ready kn.

Definition grows (kn kn' : know) : Prop := kw_ready kn ⊆ kw_ready kn'.

#[export] Instance grows_preorder : PreOrder grows.
Proof. unfold grows. split; [by intros x|intros x y z; set_solver]. Qed.

Lemma familiar_grows st kn kn' : grows kn kn' -> familiar st kn -> familiar st kn'.
Proof. unfold grows, familiar. set_solver. Qed.

(** * Attaching *)

(** An object whose header says ready is. *)
Lemma minds_ready o kn :
  minds (sys (Seg o (loadc CReady))) kn (fun v kn' =>
    grows kn kn' /\ kw_mine kn' = kw_mine kn /\ (v <> 0 -> o ∈ kw_ready kn')).
Proof.
  right; left. exists (fun v => v). split; [done|]. intros v. apply minds_ret.
  destruct (Z.eqb_spec v 0) as [->|]; split_and!; try done; unfold grows; cbn; set_solver.
Qed.
Lemma keeps_minds {A} kn (P : A -> Prop) (m : io A) (Q : A -> know -> Prop) :
  keeps kn P m -> (forall a, P a -> Q a kn) -> minds m kn Q.
Proof. intros H HQ. eapply minds_mono; [exact H|]. intros a kn' [-> Ha]. auto. Qed.

Lemma minds_then {A B} kn (m : io A) (f : A -> io B) (Q : B -> know -> Prop) :
  keeps kn any m -> (forall a, minds (f a) kn Q) -> minds (ibind m f) kn Q.
Proof. intros Hm Hf. apply minds_bind. eapply keeps_minds; [exact Hm|auto]. Qed.

Definition attached (kn : know) (r : result Z) (kn' : know) : Prop :=
  grows kn kn' /\ forall o, r = Ok o -> o ∈ kw_ready kn'.

Lemma minds_validate seg kn :
  minds (validate fuel seg) kn (fun r kn' => grows kn kn' /\ (r = Ok tt -> seg ∈ kw_ready kn')).
Proof.
  unfold validate. apply minds_bind. eapply minds_mono; [apply minds_ready|].
  intros ready kn1 (H1 & _ & Hr1). apply minds_bind.
  eapply (minds_mono _ _ (fun ready kn2 => grows kn kn2 /\ (ready <> 0 -> seg ∈ kw_ready kn2))).
  - destruct (Z.eqb_spec ready 0) as [->|Hne]; [|by apply minds_ret].
    apply minds_then; [apply keeps_lock|]. intros g. apply minds_then; [apply keeps_drop_opt|]. intros _.
    eapply minds_mono; [apply minds_ready|]. intros v kn2 (H2 & _ & Hr2). split; [by etrans|done].
  - clear ready kn1 H1 Hr1. intros ready kn1 [H1 Hr1].
    destruct (Z.eqb_spec ready 0) as [->|Hne]; [by apply minds_ret|].
    eapply (keeps_minds _ any); [kept|]. intros r _. split; [done|]. intros _. by apply Hr1.
Qed.

Lemma minds_attach kn : minds (attach fuel) kn (attached kn).
Proof.
  unfold attach. apply minds_then; [kept|]. intros [fd|]; [|by apply minds_ret].
  apply minds_bind. eapply keeps_minds; [apply keeps_map|].
  intros r [->| ->]; [|by apply minds_ret]. apply minds_bind.
  eapply minds_mono; [apply minds_validate|]. intros ok kn1 [H1 Hok]. apply minds_ret. split; [done|].
  destruct ok as [[]|]; [|done]. intros o [= <-]. auto.
Qed.

(** * Creating *)

Lemma keeps_populate kn seg : seg ∈ kw_mine kn -> keeps kn any (populate seg).
Proof.
  intros Hm. unfold populate. apply keeps_then; [|intros; by apply keeps_ret].
  eapply keeps_any, (keeps_load_all kn any); [done|]. intros k v failed Hk Hv _. unfold preload.
  apply keeps_then; [|intros; by apply keeps_ret].
  apply keeps_updates; [by right|]. apply updates_put. unfold short in *. lia.
Qed.

Lemma minds_create_fill fd kn :
  fd ∈ kw_blank kn -> minds (create_fill fuel populate fd) kn (attached kn).
Proof.
  intros Hfd. unfold create_fill. apply minds_then; [apply keeps_lock|]. intros guard.
  assert (forall kn', grows kn kn' -> minds (drop_opt fuel guard;; iret (Err (A := Z))) kn' (attached kn)) as Hd.
  { intros kn' H. apply minds_then; [apply keeps_drop_opt|]. intros _. by apply minds_ret. }
  assert (forall kn', grows kn kn' ->
    minds (drop_opt fuel guard;; sys ShmUnlink;; iret (Err (A := Z))) kn' (attached kn)) as Hd'.
  { intros kn' H. apply minds_then; [apply keeps_drop_opt|]. intros _.
    apply minds_then; [kept|]. intros _. by apply minds_ret. }
  apply minds_then; [kept|]. intros sized. destruct (negb sized).
  { apply minds_then; [kept|]. intros _. by apply Hd. }
  apply minds_bind. eapply keeps_minds; [apply keeps_map|]. intros r [->| ->]; cycle 1.
  { apply minds_then; [kept|]. intros _. by apply Hd. }
  apply minds_then; [kept|]. intros [dev|]; [|by apply Hd'].
  set (kn1 := fill_in fd kn). assert (fd ∈ kw_mine kn1) as Hm by (cbn; set_solver).
  assert (grows kn kn1) as H1 by by unfold grows. apply minds_bind.
  right; right; right; left. split_and!; [done|exists dev; constructor|]. intros r. apply minds_ret.
  fold kn1. apply minds_then; [by apply keeps_populate|]. intros [[]|]; [|by apply Hd'].
  apply minds_bind. do 4 right. exists tt. split_and!; [done..|]. apply minds_ret.
  apply minds_then; [apply keeps_drop_opt|]. intros _. apply minds_ret.
  split; [|intros o [= <-]]; unfold grows; cbn; clear; set_solver.
Qed.

Lemma minds_create kn : minds (create fuel populate) kn (attached kn).
Proof.
  unfold create. apply minds_bind. split; [|intros fd]; apply minds_ret.
  - apply minds_bind. eapply minds_mono; [apply minds_attach|]. intros [seg|] kn1 [H1 Ho].
    + by apply minds_ret.
    + apply minds_then; [apply keeps_lock|]. intros g. apply minds_then; [apply keeps_drop_opt|]. intros _.
      eapply minds_mono; [apply minds_attach|]. intros r kn2 [H2 Ho2]. split; [by etrans|done].
  - eapply minds_mono; [apply minds_create_fill; cbn; set_solver|]. intros r kn1 H. exact H.
Qed.

(** * The operations of the store *)

(** They end with a store the process knows. *)
Definition stores {A} (kn : know) (m : io (A * Store)) : Prop :=
  minds m kn (fun r kn' => grows kn kn' /\ familiar (snd r) kn').

Lemma minds_reattach st kn :
  familiar st kn -> minds (reattach fuel st) kn (fun st' kn' => grows kn kn' /\ familiar st' kn').
Proof.
  intros Hst. unfold reattach. destruct (s_seg st) as [o|] eqn:Eo; [by apply minds_ret|].
  assert (forall kn' n, familiar (mkStore None (s_cache st) (s_heap st) n) kn') as Hnone by done.
  destruct (negb _); [by apply minds_ret|]. apply minds_bind.
  eapply minds_mono; [apply minds_attach|]. intros [o|] kn1 [H1 Ho]; apply minds_ret; (split; [done|]).
  - unfold adopt, familiar. destruct (invalidate_all _ _). intros o' [= <-]. auto.
  - done.
Qed.

Lemma stores_reattached {A} (f : Store -> io (A * Store)) st kn :
  familiar st kn ->
  (forall st1 kn1, familiar st1 kn1 -> keeps kn1 (fun r => s_seg (snd r) = s_seg st1) (f st1)) ->
  stores kn (do st <- reattach fuel st; f st).
Proof.
  intros Hst Hf. apply minds_bind. eapply minds_mono; [by apply minds_reattach|].
  intros st1 kn1 [H1 Hst1]. eapply keeps_minds; [by apply Hf|]. intros r E. split; [done|].
  unfold familiar in *. by rewrite E.
Qed.

Lemma seg_install_ptr st key fresh seen : s_seg (snd (install_ptr st key fresh seen)) = s_seg st.
Proof. unfold install_ptr. destruct (Cache.entry _ _), (install _ _ _ _). done. Qed.
Abbreviation same_seg st := (fun r => s_seg (snd r) = s_seg st).

Lemma keeps_get_degraded kn st key : keeps kn (same_seg st) (get_degraded st key).
Proof. unfold get_degraded. kept; [apply keeps_read_one|done]. Qed.

Lemma keeps_read_loop kn n seg key hash slot : keeps kn any (read_loop n seg key hash slot).
Proof. induction n as [|n IH]; cbn [read_loop]; kept. apply IH. Qed.

Section mapped.
Variables (kn : know) (seg : Z).
Hypothesis Hseg : seg ∈ kw_ready kn.

Lemma keeps_write {A} (p : prog A) : updates p -> keeps kn any (sys (Seg seg p)).
Proof using Hseg. intros Hp. apply keeps_updates; auto. Qed.

Lemma keeps_read_locked key hash : keeps kn any (read_locked fuel seg key hash (slot_of hash)).
Proof using Hseg.
  unfold read_locked. apply keeps_then; [apply keeps_lock|]. intros [g|]; [|by apply keeps_ret].
  apply keeps_then; [apply keeps_write, updates_repair|]. intros _.
  apply keeps_then; [kept|]. intros r. apply keeps_then; [kept|]. intros out.
  apply keeps_then; [apply keeps_drop|]. intros _. by apply keeps_ret.
Qed.

Lemma keeps_get_miss st key hash :
  keeps kn (same_seg st) (get_miss fuel st seg key hash (slot_of hash)).
Proof using Hseg.
  unfold get_miss. apply keeps_then; [apply keeps_read_loop|]. intros r.
  apply keeps_then; [destruct r; [by apply keeps_ret|apply keeps_read_locked]|].
  intros [[fresh seen]|]; [apply keeps_ret, seg_install_ptr|apply keeps_get_degraded].
Qed.

(** [set] and [unset]: an update and what the counter then is. *)
Lemma keeps_update {A B} (p : prog B) slot (Q : A -> Prop) (m : io A) (f : B -> Z -> A) :
  updates p -> keeps kn Q m -> (forall r seen, Q (f r seen)) ->
  keeps kn Q (do guard <- acquire fuel;
              match guard with
              | None => m
              | Some g =>
                do r <- sys (Seg seg p);
                do seen <- sys (Seg seg (slot_value slot));
                drop_guard fuel g;;
                iret (f r seen)
              end).
Proof using Hseg.
  intros Hp Hm Hf. apply keeps_then; [apply keeps_lock|]. intros [g|]; [|done].
  apply keeps_then; [by apply keeps_write|]. intros r. apply keeps_then; [kept|]. intros seen.
  apply keeps_then; [apply keeps_drop|]. intros _. by apply keeps_ret.
Qed.

(** What is published is part of what was to be written. *)
Lemma keeps_write_out ps :
  keeps kn (fun r => forall done all_ok, r = Some (done, all_ok) -> done ⊆ ps) (write_out ps).
Proof.
  unfold write_out.
  apply (keeps_bind kn (fun acc => let '(st, _, _) := acc in forall x, x ∈ st -> fst x ∈ ps)).
  { apply keeps_foldM; [by intros x Hx%elem_of_nil|]. intros p [[done any] all_ok] Hp Hacc.
    unfold stage_one. destruct (p_val p) as [v|].
    - apply keeps_then; [apply keeps_write_tmp|]. intros [tmp|]; apply keeps_ret; [|done].
      intros x [Hx| ->%list_elem_of_singleton]%elem_of_app; auto.
    - apply keeps_ret. intros x [Hx| ->%list_elem_of_singleton]%elem_of_app; auto. }
  intros [[st any] all_ok] Hst. apply keeps_then; [destruct any; kept|]. intros flushed.
  destruct (negb flushed).
  { apply keeps_then; [unfold discard_one, discard; kept|]. intros _. by apply keeps_ret. }
  apply (keeps_bind kn (fun acc => fst acc ⊆ ps)).
  - apply keeps_foldM; [apply list_subseteq_nil|]. intros [p tmp] acc Hx Hacc. unfold publish_one.
    apply keeps_then; [destruct tmp; [apply keeps_publish|apply keeps_remove]|]. intros ok.
    apply keeps_ret. destruct (is_ok ok); cbn [fst]; [|done].
    intros y [Hy| ->%list_elem_of_singleton]%elem_of_app; [by apply Hacc|by apply (Hst _ Hx)].
  - intros [done ok] Hd. apply keeps_ret. by intros ? ? [= <- <-].
Qed.

Lemma keeps_commit_locked : keeps kn any (commit_locked fuel seg).
Proof using Hseg.
  unfold commit_locked. apply keeps_then; [apply keeps_lock|]. intros [g|]; [|by apply keeps_ret].
  apply (keeps_bind kn hashed).
  { intros ask. split; [apply looks_commit_snapshot|]. intros ps Hps. apply minds_ret.
    split; [done|]. by eapply returns_commit_snapshot. }
  intros ps Hps. apply keeps_then; [apply keeps_drop|]. intros _.
  eapply keeps_bind; [apply keeps_write_out|]. intros [[done all_ok]|] Hd; [|by apply keeps_ret].
  specialize (Hd done all_ok eq_refl). apply keeps_then.
  - destruct (bool_decide _); [by apply keeps_ret|]. apply keeps_then; [apply keeps_lock|].
    intros [g2|]; [|by apply keeps_ret]. apply keeps_then.
    { apply keeps_write, updates_writeback. intros p Hp. by apply Hps, Hd. }
    intros _. apply keeps_then; [apply keeps_drop|]. intros _. by apply keeps_ret.
  - intros unlocked. kept.
Qed.
End mapped.

Section operations.
Variables (st : Store) (kn : know).
Hypothesis Hst : familiar st kn.

Lemma stores_get key : stores kn (Store.get fuel st key).
Proof using Hst.
  unfold Store.get. apply stores_reattached; [done|]. clear st kn Hst. intros st kn Hst.
  destruct (s_seg st) as [seg|] eqn:Eo; [|rewrite <- Eo; apply keeps_get_degraded].
  specialize (Hst seg Eo). destruct (Cache.entry key (s_cache st)) as [e c].
  assert (keeps kn (fun r => s_seg (snd r) = Some seg)
    (get_miss fuel (with_cache st (c, s_heap st)) seg key (fnv1a key) (slot_of (fnv1a key)))) as Hmiss.
  { rewrite <- Eo. by apply (keeps_get_miss kn seg Hst (with_cache st (c, s_heap st))). }
  destruct (ce_valid e); [|apply Hmiss]. apply keeps_then; [kept|]. intros cur.
  destruct (_ =? cur); [by apply keeps_ret|apply Hmiss].
Qed.

Lemma stores_set key val : short val -> stores kn (Store.set fuel st key val).
Proof using Hst.
  intros Hval. unfold Store.set. destruct (valid_key key) eqn:Hkey; [|by apply minds_ret].
  cbn [negb]. apply stores_reattached; [done|]. clear st kn Hst. intros st kn Hst.
  apply (keeps_bind kn (same_seg st)).
  { unfold value_matches. destruct (s_seg st) eqn:E; [|by apply keeps_ret].
    apply keeps_then; [kept|]. intros cur. destruct (Cache.entry _ _). by apply keeps_ret. }
  intros [same st2] E2. cbn [snd] in E2. rewrite <- E2. destruct same; [by apply keeps_ret|].
  destruct (s_seg st2) as [seg|] eqn:Eo.
  - apply (keeps_update kn seg (Hst seg (eq_sym E2)) (Shm.put key val true) _ _ (iret (false, st2))
      (fun res seen => if is_ok res then (true, snd (install_ptr st2 key (Some val) seen)) else (false, st2))).
    + apply updates_put. unfold valid_key, short in *. rewrite !andb_true_iff, Z.leb_le in Hkey.
      destruct Hkey as [[[_ Hl] _] _]. change MAX_KEY_LEN with 239 in Hl. lia.
    + by apply keeps_ret.
    + intros res seen. destruct (is_ok res); [|done]. cbn [snd]. by rewrite seg_install_ptr.
  - apply keeps_then; [apply keeps_write_atomic|]. intros [[]|]; apply keeps_ret; [|done].
    cbn [snd]. by rewrite seg_install_ptr.
Qed.

Lemma stores_unset key : stores kn (Store.unset fuel st key).
Proof using Hst.
  unfold Store.unset. destruct (negb _); [by apply minds_ret|].
  apply stores_reattached; [done|]. clear st kn Hst. intros st kn Hst.
  destruct (s_seg st) as [seg|] eqn:Eo.
  - apply (keeps_update kn seg (Hst seg Eo) (Shm.remove key true) _ _ (iret (false, st))
      (fun _ seen => (true, snd (install_ptr st key None seen)))).
    + apply updates_remove.
    + by apply keeps_ret.
    + intros r seen. cbn [snd]. by rewrite seg_install_ptr.
  - apply keeps_then; [apply keeps_remove|]. intros [[]|]; apply keeps_ret; [|done].
    cbn [snd]. by rewrite seg_install_ptr.
Qed.

Lemma stores_commit : stores kn (Store.commit fuel st).
Proof using Hst.
  unfold Store.commit. apply stores_reattached; [done|]. clear st kn Hst. intros st kn Hst.
  destruct (s_seg st) as [seg|] eqn:Eo; [|kept; done].
  apply keeps_then; [apply keeps_lock|]. intros [g|]; [|by apply keeps_ret].
  apply keeps_then; [apply keeps_commit_locked; auto|]. intros ok.
  apply keeps_then; [apply keeps_drop|]. intros _. by apply keeps_ret.
Qed.

Lemma stores_clear : stores kn (Store.clear fuel st).
Proof using Hst.
  unfold Store.clear. apply stores_reattached; [done|]. clear st kn Hst. intros st kn Hst.
  apply keeps_then; [apply keeps_lock|]. intros [cg|]; [|by apply keeps_ret].
  apply keeps_then; [apply keeps_lock|]. intros [g|];
    [|apply keeps_then; [apply keeps_drop|]; intros _; by apply keeps_ret].
  apply keeps_then.
  { destruct (s_seg st) as [seg|] eqn:Eo; [|by apply keeps_ret].
    apply keeps_write; [by apply Hst|apply updates_clear]. }
  intros _. apply keeps_then; [apply keeps_remove_all|]. intros ok.
  apply keeps_then; [apply keeps_drop|]. intros _. apply keeps_then; [kept|]. intros synced.
  apply keeps_then; [apply keeps_drop|]. intros _. by apply keeps_ret.
Qed.

Lemma stores_getall buf ln : stores kn (Store.getall fuel st buf ln).
Proof using Hst.
  unfold Store.getall. apply stores_reattached; [done|]. clear st kn Hst. intros st kn Hst.
  destruct buf as [bs|]; [|by apply keeps_ret]. destruct (ln =? 0); [by apply keeps_ret|].
  apply keeps_then; [|intros r; kept; done]. destruct (s_seg st) as [seg|].
  - apply keeps_then; [apply keeps_lock|]. intros [g|]; [|by apply keeps_ret].
    apply keeps_then; [kept|]. intros o. apply keeps_then; [apply keeps_drop|]. intros _. by apply keeps_ret.
  - apply keeps_then; [|intros r; by apply keeps_ret].
    eapply keeps_any, (keeps_load_all kn any); [done|]. intros. by apply keeps_ret.
Qed.

Lemma stores_init : stores kn (Store.init fuel st).
Proof using Hst.
  unfold Store.init. destruct (s_seg st) as [seg|] eqn:Eo; [by apply minds_ret|].
  apply minds_then; [kept|]. intros avail. apply minds_then; [destruct (negb avail); kept|].
  intros [dev|]; [|by apply minds_ret].
  assert (forall r kn1 kn', grows kn kn1 -> attached kn1 r kn' ->
    grows kn kn' /\ familiar (snd (match r with Ok s => (true, adopt st s) | Err => (false, st) end)) kn') as Hadopt.
  { intros r kn1 kn' H1 [H2 Ho]. split; [by etrans|]. destruct r as [o|]; cbn [snd].
    - unfold adopt, familiar. destruct (invalidate_all _ _). intros o' [= <-]. auto.
    - unfold familiar. by rewrite Eo. }
  apply minds_bind. eapply minds_mono; [apply minds_attach|]. intros r kn1 H1. destruct r as [o|].
  - apply minds_ret. by apply (Hadopt (Ok o) kn).
  - apply minds_then; [kept|]. intros _. apply minds_bind.
    eapply minds_mono; [apply minds_create|]. intros r kn2 H2. apply minds_ret.
    apply (Hadopt r kn1); [apply H1|done].
Qed.
End operations.

(** * The C interface *)

Definition acquainted (g : option Store) (kn : know) : Prop := forall st, g = Some st -> familiar st kn.

Definition goes_on {A} (kn : know) (m : io (A * option Store)) : Prop :=
  minds m kn (fun r kn' => grows kn kn' /\ acquainted (snd r) kn').

Lemma goes_on_ret {A} kn (a : A) g : acquainted g kn -> goes_on kn (iret (a, g)).
Proof. intros Hg. by apply minds_ret. Qed.

Lemma goes_on_with_store {A} kn (f : Store -> io (A * Store)) g :
  acquainted g kn -> (forall st kn, familiar st kn -> stores kn (f st)) ->
  goes_on kn (with_store fuel f g).
Proof.
  intros Hg Hf. unfold with_store. apply minds_bind.
  apply (minds_mono _ _ (fun st kn' => grows kn kn' /\ familiar st kn')).
  - destruct g as [st|]; [apply minds_ret; split; [done|by apply Hg]|].
    unfold new. apply minds_bind. eapply minds_mono; [apply minds_attach|].
    intros r kn1 [H1 Ho]. apply minds_ret. split; [done|]. intros o. destruct r; cbn; [|done].
    intros [= <-]. auto.
  - intros st kn1 [H1 Hst]. apply minds_bind. eapply minds_mono; [by apply Hf|].
    intros [a st'] kn2 [H2 Hst']. apply minds_ret. split; [by etrans|]. by intros ? [= <-].
Qed.

Lemma goes_on_report kn (f : Store -> io (bool * Store)) g :
  acquainted g kn -> (forall st kn, familiar st kn -> stores kn (f st)) ->
  goes_on kn (report fuel f g).
Proof.
  intros Hg Hf. unfold report. apply minds_bind.
  eapply minds_mono; [by apply goes_on_with_store|]. intros [ok g'] kn' H. by apply minds_ret.
Qed.

(** The arguments fit in memory. *)
Definition modest (e : entry) : Prop :=
  match e with ESet _ (Some value) => short value | _ => True end.

Lemma cstr_short mem : short mem -> short (cstr mem).
Proof.
  unfold short. enough (len (cstr mem) <= len mem) by lia. unfold len.
  induction mem as [|b mem IH]; [done|]. cbn [cstr]. destruct (b =? 0); cbn [length]; lia.
Qed.

Lemma goes_on_get kn name g : acquainted g kn -> goes_on kn (nvram_get fuel name g).
Proof.
  intros Hg. unfold nvram_get. destruct (key_bytes name); [|by apply goes_on_ret].
  apply goes_on_with_store; [done|]. intros st kn1 Hst. by apply stores_get.
Qed.

Lemma minds_call e g kn :
  modest e -> acquainted g kn ->
  minds (call_entry fuel e g) kn (fun g' kn' => grows kn kn' /\ acquainted g' kn').
Proof.
  intros He Hg. destruct e; cbn [call_entry]; apply minds_bind;
    (eapply minds_mono; [|intros r kn' H; apply minds_ret; exact H]).
  - by apply goes_on_get.
  - unfold nvram_safe_get. apply minds_bind. eapply minds_mono; [by apply goes_on_get|].
    intros [p g1] kn1 H. by apply minds_ret.
  - unfold nvram_get_int. destruct (key_bytes name); [|by apply goes_on_ret].
    apply goes_on_with_store; [done|]. intros st kn1 Hst. apply minds_bind.
    eapply minds_mono; [by apply stores_get|]. intros [p st1] kn2 H. by apply minds_ret.
  - unfold nvram_set. destruct (key_bytes name), value as [value|]; cbn [val_bytes fmap option_fmap option_map];
      try by apply goes_on_ret.
    apply goes_on_report; [done|]. intros st kn1 Hst. apply stores_set; [done|by apply cstr_short].
  - unfold nvram_unset. destruct (key_bytes name); [|by apply goes_on_ret].
    apply goes_on_report; [done|]. intros st kn1 Hst. by apply stores_unset.
  - unfold nvram_getall. destruct (_ || _); [by apply minds_ret|]. apply minds_bind.
    eapply minds_mono; [apply (goes_on_with_store kn); [done|]|].
    + intros st kn1 Hst. apply minds_bind. eapply minds_mono; [by apply stores_getall|].
      intros [[ok b] st1] kn2 H. by apply minds_ret.
    + intros [[ok b] g1] kn1 H. by apply minds_ret.
  - apply goes_on_report; [done|]. intros st kn1 Hst. by apply stores_commit.
  - apply goes_on_report; [done|]. intros st kn1 Hst. by apply stores_clear.
  - apply goes_on_report; [done|]. intros st kn1 Hst. by apply stores_clear.
  - apply goes_on_report; [done|]. intros st kn1 Hst. by apply stores_init.
Qed.

Lemma minds_calls es g kn :
  Forall modest es -> acquainted g kn -> minds (calls fuel es g) kn (fun _ _ => True).
Proof.
  intros Hes. revert g kn; induction Hes as [|e es He Hes IH]; intros g kn Hg; [by apply minds_ret|].
  cbn [calls]. apply minds_bind. eapply minds_mono; [by apply minds_call|].
  intros g' kn' [_ Hg']. by apply IH.
Qed.
End code.
