(* ===== verification/CustodySys.v ===== *)
(** The shared segments in the whole system.

    At any moment every object whose header says ready is well-formed, or one
    process is in the middle of an update of it which, left to itself, ends
    with a well-formed segment.  Every step of every process keeps this, as
    long as no process dies in the middle of an update that cannot be left
    where it is. *)

From S2P Require Import Prelude Consts Hash Names Spec Segment Shm Cache ShmInv ShmOps SeqCount ShmCompact ShmRefine ShmTrace World Disk Sem Attach Store Lib Race RaceInv Killed KilledThms Locking LockingInv LockingSys LockingThms Custody CustodyCode.

(** No assumption on the contents of the objects. *)
Definition anything (_ : Z) (_ : Segment) : Prop := True.

Section system.
Context `{AL : Allocator}.
Variables (fuel : nat) (dev : Z).
(** What is assumed of the contents of an object all may use. *)
Variable fit : Z -> Segment -> Prop.

(** * The runs considered *)

(** Free for all to use. *)
Definition common (c : config) (o : Z) : Prop :=
  k_owner (c_kernel c) !! o = None /\ load CReady (seg_of c o) <> 0.

(** A death that does not leave a shared segment in pieces. *)
Definition spares (c : config) (m : io unit) : Prop :=
  match m with
  | ICall (Seg o pr) _ => looks pr \/ k_owner (c_kernel c) !! o <> None \/ wf (seg_of c o)
  | _ => True
  end.

Definition all_fit (c : config) : Prop := forall o, common c o -> fit o (seg_of c o).

(** A step of the system in which new processes map what is ready, are given
    arguments that fit in memory, and nobody dies in the middle of an update
    of a shared segment unless that leaves it well-formed. *)
Definition gentle (c c' : config) : Prop :=
  step fuel dev c c' /\ all_fit c /\
  (forall p m n, c_procs c !! p = None -> c_procs c' !! p = Some (m, n) ->
     exists es g, m = calls fuel es g /\ Forall modest es /\
       forall st o, g = Some st -> s_seg st = Some o -> common c o) /\
  (forall p m n, c_procs c !! p = Some (m, n) -> c_procs c' !! p = None -> spares c m).

Definition gently_reached (c : config) : Prop := rtc gentle boot c.

(** * The invariant *)

(** What process [p], at work on object [x], knows is true. *)
Record knows (c : config) (p : Z) (x : option Z) (kn : know) : Prop := mk_knows {
  kn_ready : forall o, o ∈ kw_ready kn -> common c o;
  kn_mine : forall o, o ∈ kw_mine kn ->
    k_owner (c_kernel c) !! o = Some p /\ (x = Some o \/ drafted (seg_of c o));
  kn_blank : forall o, o ∈ kw_blank kn ->
    k_owner (c_kernel c) !! o = Some p /\ seg_of c o = zero_segment /\ o ∉ kw_mine kn
}.

Definition goes (m : io unit) (kn : know) : Prop := minds m kn (fun _ _ => True).

(** It may write to [o], [w] being the writer lock it holds. *)
Definition entitled (w : option Z) (kn : know) (o : Z) : Prop :=
  (o ∈ kw_ready kn /\ is_Some w) \/ o ∈ kw_mine kn.

(** [pr] and [s] are where an operation has come to that started on a segment
    that satisfies [S] and was left alone since. *)
Definition underway (S : Segment -> Prop) {A} (pr : prog A) (s : Segment) : Prop :=
  exists o p0 s0 j, op_ok o /\ performs o p0 /\ S s0 /\ advance j p0 s0 = (pr, s).

Definition heading {A} (pr : prog A) (s : Segment) : Prop :=
  exists dev p0 j, heads dev p0 /\ advance j p0 zero_segment = (pr, s).

Definition doing {A} (kn : know) (o : Z) (pr : prog A) (s : Segment) : Prop :=
  (o ∈ kw_ready kn /\ underway (fun s => serial s /\ fit o s) pr s) \/
  (o ∈ kw_mine kn /\ (underway drafted pr s \/ heading pr s)).

(** In the middle of an update of [o]. *)
Definition working (c : config) (o : Z) (kn : know) (m : io unit) : Prop :=
  match m with
  | ICall cl k =>
    match cl in call R return (R -> io unit) -> Prop with
    | Seg o' pr => fun k =>
        o' = o /\ unready pr /\ doing kn o pr (seg_of c o) /\
        forall r, returns pr r -> goes (k r) kn
    | _ => fun _ => False
    end k
  | IRet _ => False
  end.

Definition proc_ok (c : config) (w : option Z) (p : Z) (x : option Z) (m : io unit) : Prop :=
  exists kn, knows c p x kn /\
    match x with
    | None => goes m kn
    | Some o => entitled w kn o /\ working c o kn m
    end.

Record objects_ok (c : config) (X : Z -> option Z) : Prop := mk_objects_ok {
  ob_serial : forall o, common c o ->
    serial (seg_of c o) \/ exists p, is_Some (c_procs c !! p) /\ X p = Some o;
  ob_flag : forall o, load CReady (seg_of c o) <> 0 -> k_owner (c_kernel c) !! o = None;
  ob_new : forall o, k_nextobj (c_kernel c) <= o -> seg_of c o = zero_segment
}.

(** [B] is what the processes believe of the locks, [X] what each is at work
    on. *)
Record custody_with (c : config) (B : Z -> belief) (X : Z -> option Z) : Prop := mk_custody_with {
  cu_kernel : kernel_ok (c_kernel c);
  cu_believes : believes dev c B;
  cu_proc : forall p m n, c_procs c !! p = Some (m, n) -> proc_ok c (b_writer (B p)) p (X p) m;
  cu_objects : objects_ok c X
}.

Definition custody (c : config) : Prop := exists B X, custody_with c B X.

Definition at_work (X : Z -> option Z) (p : Z) (x : option Z) (q : Z) : option Z :=
  if decide (q = p) then x else X q.

Lemma at_work_same X p x : at_work X p x p = x.
Proof. unfold at_work. by rewrite decide_True. Qed.

Lemma at_work_other X p x q : q <> p -> at_work X p x q = X q.
Proof. intros H. unfold at_work. by rewrite decide_False. Qed.

(** ** Operations under way *)

Lemma advance_snoc {A} n (p : prog A) s p' s' :
  advance n p s = (p', s') -> advance (S n) p s = pstep p' s'.
Proof.
  intros E. rewrite <- Nat.add_1_r, advance_add, E. cbn. by destruct (pstep p' s').
Qed.

Lemma advance_run {A} n (p : prog A) s p' s' : advance n p s = (p', s') -> run p s = run p' s'.
Proof.
  revert p s; induction n as [|n IH]; intros p s; cbn [advance]; [by intros [= <- <-]|].
  destruct (pstep p s) as [p1 s1] eqn:E. intros H%IH. rewrite <- H. rewrite <- (run_pstep p s).
  by rewrite E.
Qed.

Lemma underway_start S o A (p : prog A) s : op_ok o -> performs o p -> S s -> underway S p s.
Proof. intros Ho Hp Hs. by exists o, p, s, O. Qed.

Lemma underway_step S {A} (pr : prog A) s :
  underway S pr s -> underway S (fst (pstep pr s)) (snd (pstep pr s)).
Proof.
  intros (o & p0 & s0 & j & Ho & Hp & Hs & E). exists o, p0, s0, (Datatypes.S j).
  split_and!; [done..|]. rewrite (advance_snoc _ _ _ _ _ E). by destruct (pstep pr s).
Qed.

Lemma underway_ends S {A} (pr : prog A) s :
  (forall o s, op_ok o -> S s -> S (apply o s)) -> underway S pr s -> S (snd (run pr s)).
Proof.
  intros HS (o & p0 & s0 & j & Ho & Hp & Hs & E). rewrite <- (advance_run _ _ _ _ _ E).
  rewrite (performs_run o) by done. auto.
Qed.

Lemma underway_mono (S S' : Segment -> Prop) {A} (pr : prog A) s :
  (forall s, S s -> S' s) -> underway S pr s -> underway S' pr s.
Proof. intros HS (o & p0 & s0 & j & Ho & Hp & Hs & E). exists o, p0, s0, j. auto. Qed.

Lemma underway_serial o {A} (pr : prog A) s :
  underway (fun s => serial s /\ fit o s) pr s -> underway serial pr s.
Proof. apply underway_mono. by intros ? [? _]. Qed.

(** Cut short, or done. *)
Lemma underway_cut {A} (pr : prog A) s : underway serial pr s -> looks pr \/ wf s -> serial s.
Proof.
  intros Hu [Hl|Hwf].
  - apply underway_ends in Hu; [|intros; by apply serial_op]. by rewrite looks_run in Hu.
  - destruct Hu as (o & p0 & s0 & j & Ho & Hp & Hs & E).
    assert (s = snd (advance j p0 s0)) as -> by by rewrite E. by eapply serial_cut.
Qed.

Lemma doing_step {A} kn o (pr : prog A) s :
  doing kn o pr s -> doing kn o (fst (pstep pr s)) (snd (pstep pr s)).
Proof.
  intros [[Ho H]|[Ho [H|(d & p0 & j & Hh & E)]]].
  - left. split; [done|by apply underway_step].
  - right. split; [done|left; by apply underway_step].
  - right. split; [done|right]. exists d, p0, (Datatypes.S j). split; [done|].
    rewrite (advance_snoc _ _ _ _ _ E). by destruct (pstep pr s).
Qed.

Lemma heading_ends {A} (pr : prog A) s : heading pr s -> drafted (snd (run pr s)).
Proof.
  intros (d & p0 & j & Hh & E). rewrite <- (advance_run _ _ _ _ _ E). destruct Hh as [d].
  by exists d, [].
Qed.

(** Where it ends. *)
Lemma doing_ends {A} kn o (pr : prog A) s :
  doing kn o pr s ->
  (o ∈ kw_ready kn /\ serial (snd (run pr s))) \/ (o ∈ kw_mine kn /\ drafted (snd (run pr s))).
Proof.
  intros [[Ho H]|[Ho [H|H]]]; [left|right..]; (split; [done|]).
  - apply (underway_ends serial); [intros; by apply serial_op|by eapply underway_serial].
  - apply (underway_ends drafted); [|done]. intros. by apply drafted_op.
  - by apply heading_ends.
Qed.

(** * What a step leaves alone *)

(** [c'] has [c]'s objects as far as process [q], at work on [x], is
    concerned. *)
Record undisturbed_for (c c' : config) (q : Z) (x : option Z) : Prop := mk_undisturbed_for {
  ud_common : forall o, common c o -> common c' o;
  ud_own : forall o, k_owner (c_kernel c) !! o = Some q ->
    k_owner (c_kernel c') !! o = Some q /\ seg_of c' o = seg_of c o;
  ud_work : forall o, x = Some o -> seg_of c' o = seg_of c o
}.

Lemma knows_undisturbed c c' q x kn : undisturbed_for c c' q x -> knows c q x kn -> knows c' q x kn.
Proof.
  intros [U1 U2 U3] [K1 K2 K3]. split.
  - auto.
  - intros o Ho. destruct (K2 o Ho) as [E H]. destruct (U2 o E) as [E' ->]. auto.
  - intros o Ho. destruct (K3 o Ho) as (E & H & Hn). destruct (U2 o E) as [E' ->]. auto.
Qed.

Lemma working_same c c' o kn m : seg_of c' o = seg_of c o -> working c o kn m -> working c' o kn m.
Proof. intros E. unfold working. destruct m as [|R [] k]; try done. by rewrite E. Qed.

Lemma working_in_segment c o kn m : working c o kn m -> in_segment m = true.
Proof. by destruct m as [|R [] k]. Qed.

Lemma proc_undisturbed c c' w w' q x m :
  undisturbed_for c c' q x -> (is_Some x -> in_segment m = true -> w' = w) ->
  proc_ok c w q x m -> proc_ok c' w' q x m.
Proof.
  intros Hu Hw (kn & Hkn & Hm). exists kn. split; [by eapply knows_undisturbed|].
  destruct x as [o|]; [|done]. destruct Hm as [He Hm]. rewrite Hw; [|done|by eapply working_in_segment].
  split; [done|]. eapply working_same; [|done]. by apply (ud_work _ _ _ _ Hu).
Qed.

(** One process goes on, the others stay. *)
Lemma custody_upd c B X p K' objs m' n' x' B' :
  let c' := mkConfig K' objs (<[p := (m', n')]> (c_procs c)) in
  custody_with c B X -> believes_next dev c c' B B' ->
  (forall q m n, q <> p -> c_procs c !! q = Some (m, n) -> undisturbed_for c c' q (X q)) ->
  proc_ok c' (b_writer (B' p)) p x' m' -> objects_ok c' (at_work X p x') ->
  custody_with c' B' (at_work X p x').
Proof.
  intros c' [HK HB HP HO] (HK' & HB' & _ & Hw) Hothers Hp' HO'. split; [done..| |done].
  intros q m n E. cbn in E. destruct (decide (q = p)) as [->|Hq].
  - rewrite lookup_insert_eq in E. injection E as <- <-. by rewrite at_work_same.
  - rewrite lookup_insert_ne in E by done. rewrite at_work_other by done.
    eapply proc_undisturbed; [by eapply Hothers| |by eapply HP]. intros _ Hs. by eapply Hw.
Qed.

(** The kernel's list of objects and their contents stay. *)
Definition same_objects (c c' : config) : Prop :=
  k_owner (c_kernel c') = k_owner (c_kernel c) /\ k_nextobj (c_kernel c') = k_nextobj (c_kernel c) /\
  forall o, seg_of c' o = seg_of c o.

Lemma same_objects_undisturbed c c' q x : same_objects c c' -> undisturbed_for c c' q x.
Proof.
  intros (E1 & E2 & E3). split; unfold common; rewrite ?E1; auto.
  intros o. by rewrite E3.
Qed.

Lemma same_objects_ok c c' X X' :
  same_objects c c' -> objects_ok c X ->
  (forall p o, is_Some (c_procs c !! p) -> X p = Some o -> common c o ->
     serial (seg_of c o) \/ exists q, is_Some (c_procs c' !! q) /\ X' q = Some o) ->
  objects_ok c' X'.
Proof.
  intros (E1 & E2 & E3) [O1 O2 O3] HX. split; unfold common; rewrite ?E1, ?E2.
  - intros o. rewrite E3. intros Ho. destruct (O1 o Ho) as [|(p & Hp & Ex)]; [by left|]. by apply (HX p).
  - intros o. rewrite E3. apply O2.
  - intros o. rewrite E3. apply O3.
Qed.

(** * Steps that write to no object *)

Lemma proc_ok_same c c' w p x m : same_objects c c' -> proc_ok c w p x m -> proc_ok c' w p x m.
Proof. intros E. apply proc_undisturbed; [by apply same_objects_undisturbed|done]. Qed.

Lemma knows_same c c' p x kn : same_objects c c' -> knows c p x kn -> knows c' p x kn.
Proof. intros E. by apply knows_undisturbed, same_objects_undisturbed. Qed.

(** Process [p], at work on nothing afterwards, is all that changes. *)
Lemma custody_quiet c B X p K' objs m' n' B' :
  let c' := mkConfig K' objs (<[p := (m', n')]> (c_procs c)) in
  custody_with c B X -> believes_next dev c c' B B' -> same_objects c c' ->
  (exists kn, knows c p None kn /\ goes m' kn) ->
  (forall o, is_Some (c_procs c !! p) -> X p = Some o -> common c o -> serial (seg_of c o)) ->
  custody_with c' B' (at_work X p None).
Proof.
  intros c' HC HB' HE (kn & Hkn & Hm) Hp. apply custody_upd with (B := B); [done..| | |].
  - intros q m n _ _. by apply same_objects_undisturbed.
  - exists kn. split; [by eapply knows_same|done].
  - eapply same_objects_ok; [exact HE|apply HC|]. intros q o Hq Hx Ho.
    destruct (decide (q = p)) as [->|Hne]; [left; by apply Hp|right].
    exists q. rewrite at_work_other by done. split; [|done]. cbn. by rewrite lookup_insert_ne.
Qed.

Lemma start_custody c B X p es g n B' :
  let c' := mkConfig (c_kernel c) (c_objs c) (<[p := (calls fuel es g, n)]> (c_procs c)) in
  custody_with c B X -> believes_next dev c c' B B' -> c_procs c !! p = None ->
  (exists es' g', calls fuel es g = calls fuel es' g' /\ Forall modest es' /\
     forall st o, g' = Some st -> s_seg st = Some o -> common c o) ->
  custody c'.
Proof.
  intros c' HC HB' Hp (es' & g' & E & Hes & Hg). exists B', (at_work X p None).
  apply custody_quiet with (B := B); [done..| |].
  - set (kn := mkKnow (match g' with
                       | Some st => match s_seg st with Some o => {[o]} | None => ∅ end
                       | None => ∅
                       end) ∅ ∅).
    exists kn. split.
    + split; [|intros o Ho; cbn in Ho; set_solver..]. intros o Ho. cbn in Ho.
      destruct g' as [st|]; [|set_solver]. destruct (s_seg st) as [o'|] eqn:Eo; [|set_solver].
      apply elem_of_singleton in Ho as ->. by apply (Hg st).
    + rewrite E. apply minds_calls; [done|]. intros st -> o Ho. cbn. rewrite Ho. set_solver.
  - intros o [y Hy]. congruence.
Qed.

(** ** Calls *)

(** The kernel's list of objects is changed by their creation only. *)
Lemma clause_served p {R} (cl : call R) K n r K' n' C kn :
  serves dev p cl K n r K' n' -> clause cl C kn ->
  (C r kn /\ k_owner K' = k_owner K /\ k_nextobj K' = k_nextobj K) \/
  (C r (claim (k_nextobj K) kn) /\ K' = new_obj p K).
Proof.
  intros Hs Hc. destruct cl; cbn [serves clause] in Hs, Hc; try done;
    try (destruct Hs as [-> ->]; by left; auto).
  - destruct Hs as (Hr & -> & _). left. auto.
  - destruct Hs as (Hr & -> & _). left. auto.
  - destruct Hs as (_ & -> & _). left. auto.
  - destruct Hs as (_ & [(_ & ->)|[(_ & _ & ->)|(_ & _ & ->)]]); left; auto.
  - destruct Hs as (_ & -> & _). left. auto.
  - destruct Hs as (_ & [(_ & ->)|(_ & ->)]); left; auto.
  - destruct Hs as [(_ & _ & ->)|(_ & [(_ & ->)|(s2 & _ & _ & _ & ->)])]; left; auto.
  - destruct Hs as [(_ & _ & ->)|(_ & [(_ & _ & ->)|(_ & _ & ->)])]; left; auto.
  - destruct Hc as [H1 H2]. destruct Hs as (_ & [(-> & ->)|(-> & ->)]); [by left|right; auto].
Qed.

Lemma call_custody c B X p R (cl : call R) k n r K' n' B' :
  let c' := mkConfig K' (c_objs c) (<[p := (k r, n')]> (c_procs c)) in
  custody_with c B X -> believes_next dev c c' B B' ->
  c_procs c !! p = Some (ICall cl k, n) -> serves dev p cl (c_kernel c) n r K' n' -> custody c'.
Proof.
  intros c' HC HB' Hp Hs. exists B', (at_work X p None).
  destruct (cu_proc _ _ _ HC _ _ _ Hp) as (kn & Hkn & Hm).
  destruct (X p) as [o|] eqn:Ex.
  { destruct Hm as [_ Hm]. apply working_in_segment in Hm. by destruct cl. }
  destruct (clause_served _ _ _ _ _ _ _ _ _ Hs Hm) as [(Hk & E1 & E2)|(Hk & ->)].
  - apply custody_quiet with (B := B); [done..|by split_and!| |congruence]. by exists kn.
  - set (o := k_nextobj (c_kernel c)) in *. pose proof (cu_kernel _ _ _ HC) as HK.
    assert (forall o', k_owner (c_kernel c) !! o' <> None -> o' < o) as Hold.
    { intros o' Ho'. destruct (k_owner (c_kernel c) !! o') eqn:E; [by eapply ks_obj|done]. }
    assert (forall o', o' <> o -> k_owner (c_kernel c') !! o' = k_owner (c_kernel c) !! o') as Hother.
    { intros o' Hne. cbn. by rewrite lookup_insert_ne. }
    assert (k_owner (c_kernel c') !! o = Some p) as Hnew by apply lookup_insert_eq.
    assert (k_owner (c_kernel c) !! o = None) as Hfree.
    { destruct (k_owner (c_kernel c) !! o) eqn:E; [|done]. specialize (Hold o ltac:(by rewrite E)). lia. }
    destruct (cu_objects _ _ _ HC) as [O1 O2 O3].
    assert (seg_of c o = zero_segment) as Hz by (apply O3; unfold o; lia).
    assert (forall o', common c o' <-> common c' o') as Hcom.
    { intros o'. unfold common. change (seg_of c' o') with (seg_of c o').
      destruct (decide (o' = o)) as [->|Hne]; [|by rewrite Hother].
      rewrite Hz. split; intros [_ Hn]; by destruct Hn. }
    assert (forall q x, undisturbed_for c c' q x) as Hud.
    { intros q x. split; [intros o'; apply Hcom| |done]. intros o' E. split; [|done].
      rewrite Hother; [done|]. intros ->. congruence. }
    apply custody_upd with (B := B); [done..|by intros| |].
    + exists (claim o kn). split; [|done]. destruct (knows_undisturbed _ _ _ _ _ (Hud p None) Hkn) as [K1 K2 K3].
      split; [done|done|]. cbn [claim kw_blank kw_mine]. intros o' [->%elem_of_singleton|Ho']%elem_of_union; [|by apply K3].
      split_and!; [exact Hnew|exact Hz|]. intros Ho.
      destruct (kn_mine _ _ _ _ Hkn o Ho). congruence.
    + split.
      * intros o' Ho'. destruct (O1 o' (proj2 (Hcom o') Ho')) as [|(q & Hq & Hx)]; [by left|right].
        exists q. destruct (decide (q = p)) as [->|Hne]; [congruence|].
        rewrite at_work_other by done. split; [|done]. cbn. by rewrite lookup_insert_ne.
      * intros o' Ho'. change (load CReady (seg_of c o') <> 0) in Ho'.
        rewrite Hother; [by apply O2|]. intros ->. by rewrite Hz in Ho'.
      * intros o' Ho'. apply O3. cbn in Ho'. lia.
Qed.

(** * Steps of a segment program *)

Lemma one_writer c B p q (m m' : io unit) (n n' : nat) :
  kernel_ok (c_kernel c) -> believes dev c B ->
  c_procs c !! p = Some (m, n) -> c_procs c !! q = Some (m', n') ->
  is_Some (b_writer (B p)) -> is_Some (b_writer (B q)) -> p = q.
Proof.
  intros HK (H1 & _) Ep Eq [id Hp] [id2 Hq].
  destruct (H1 _ _ _ Ep) as (_ & Ha & _). destruct (H1 _ _ _ Eq) as (_ & Ha2 & _).
  destruct (ag_writer _ _ _ _ Ha _ Hp) as (s & E1 & K1 & U1).
  destruct (ag_writer _ _ _ _ Ha2 _ Hq) as (s2 & E2 & K2 & U2).
  eapply (held_once (c_kernel c) id id2); eauto. congruence.
Qed.

Section entitled.
Variables (c : config) (B : Z -> belief) (X : Z -> option Z).
Hypothesis HC : custody_with c B X.
Hypothesis Hfit : all_fit c.

(** An update has its object to itself. *)
Lemma work_alone p q o kn (m : io unit) (n : nat) :
  c_procs c !! p = Some (m, n) -> knows c p (Some o) kn -> entitled (b_writer (B p)) kn o -> q <> p ->
  k_owner (c_kernel c) !! o <> Some q /\
  forall m' n', c_procs c !! q = Some (m', n') -> X q <> Some o.
Proof using HC.
  intros Ep Hkn He Hq. split.
  - intros E. destruct He as [[Hr _]|Hm].
    + destruct (kn_ready _ _ _ _ Hkn o Hr). congruence.
    + destruct (kn_mine _ _ _ _ Hkn o Hm). congruence.
  - intros m' n' Eq Ex. destruct (cu_proc _ _ _ HC _ _ _ Eq) as (kn' & Hkn' & Hw).
    rewrite Ex in Hkn', Hw. destruct Hw as [He' _].
    destruct He as [[Hr Hw]|Hm], He' as [[Hr' Hw']|Hm'].
    + apply Hq. eapply one_writer; [apply HC|apply HC|..]; eauto.
    + destruct (kn_ready _ _ _ _ Hkn o Hr), (kn_mine _ _ _ _ Hkn' o Hm'). congruence.
    + destruct (kn_mine _ _ _ _ Hkn o Hm), (kn_ready _ _ _ _ Hkn' o Hr'). congruence.
    + destruct (kn_mine _ _ _ _ Hkn o Hm), (kn_mine _ _ _ _ Hkn' o Hm'). congruence.
Qed.

Lemma entitled_old p x o kn : knows c p x kn -> o ∈ kw_ready kn \/ o ∈ kw_mine kn -> o < k_nextobj (c_kernel c).
Proof using HC.
  intros Hkn [Ho|Ho].
  - destruct (kn_ready _ _ _ _ Hkn o Ho) as [_ Hf].
    destruct (Z.lt_ge_cases o (k_nextobj (c_kernel c))) as [|Hge]; [done|].
    by rewrite (ob_new _ _ (cu_objects _ _ _ HC) o Hge) in Hf.
  - destruct (kn_mine _ _ _ _ Hkn o Ho) as [E _]. by eapply (ks_obj _ (cu_kernel _ _ _ HC)).
Qed.

(** A program that is about to start: it looks, asks whether the object is
    ready, publishes it, or sets to work. *)
Definition starts_work p o : Prop := custody_with c B (at_work X p (Some o)).

Lemma enter p o A (pr : prog A) k n kn :
  c_procs c !! p = Some (ICall (Seg o pr) k, n) -> X p = None ->
  knows c p (Some o) kn -> entitled (b_writer (B p)) kn o ->
  unready pr -> doing kn o pr (seg_of c o) -> (forall r, returns pr r -> goes (k r) kn) ->
  starts_work p o.
Proof using HC.
  intros Ep Hx Hkn He Hu Hd Hk. destruct HC as [HK HB HP [O1 O2 O3]]. split; [done..| |].
  - intros q m n' Eq. destruct (decide (q = p)) as [->|Hne].
    + rewrite at_work_same. replace m with (ICall (Seg o pr) k) by congruence.
      exists kn. split; [done|]. split; [done|]. by split_and!.
    + rewrite at_work_other by done. by eapply HP.
  - split; [|done..]. intros o' Ho'. destruct (O1 o' Ho') as [|(q & Hq & Ex)]; [by left|right].
    exists q. destruct (decide (q = p)) as [->|Hne]; [congruence|]. by rewrite at_work_other.
Qed.

Lemma attitude p o A (pr : prog A) k n :
  c_procs c !! p = Some (ICall (Seg o pr) k, n) ->
  (exists kn, X p = None /\ knows c p None kn /\ looks pr /\ forall r, returns pr r -> goes (k r) kn) \/
  (exists kn f, X p = None /\ knows c p None kn /\ pr = PLoad CReady (fun v => PRet (f v)) /\
     forall v, goes (k (f v)) (if v =? 0 then kn else admit_ready o kn)) \/
  (exists kn a, X p = None /\ knows c p None kn /\ o ∈ kw_mine kn /\ pr = PStore CReady 1 (PRet a) /\
     goes (k a) (open_up o kn)) \/
  exists X', X' p = Some o /\ custody_with c B X'.
Proof using HC Hfit.
  intros Ep. destruct (cu_proc _ _ _ HC _ _ _ Ep) as (kn & Hkn & Hm).
  destruct (X p) as [o'|] eqn:Ex.
  { destruct Hm as [He (<- & _)]. do 3 right. by exists X. }
  destruct Hm as [[Hl Hk]|[(f & -> & Hk)|[(Ho & (w & Hw & Hpr) & Hk)|[(Ho & [d Hd] & Hk)|(a & Ho & -> & Hk)]]]].
  - left. by exists kn.
  - right; left. by exists kn, f.
  - destruct (cu_believes _ _ _ HC) as (H1 & _). destruct (H1 _ _ _ Ep) as ([Hal _] & Ha & _).
    assert (looks pr \/ entitled (b_writer (B p)) kn o) as [Hl|He].
    { destruct Ho as [Ho|Ho]; [|by right; right]. destruct Hal as [Hl|[[Hlk _]|[Hmine _]]].
      - by left.
      - right. by left.
      - apply Ha in Hmine. destruct (kn_ready _ _ _ _ Hkn o Ho). congruence. }
    { left. by exists kn. }
    assert (knows c p (Some o) kn) as Hkn'.
    { destruct Hkn as [K1 K2 K3]. split; [done| |done]. intros o' Ho'. destruct (K2 o' Ho') as [? [?|?]]; [done|auto]. }
    do 3 right. exists (at_work X p (Some o)). split; [apply at_work_same|].
    eapply enter; try done; [by eapply performs_unready|]. destruct Ho as [Ho|Ho].
    + left. split; [done|]. eapply underway_start; [done..|].
      split; [|by apply Hfit, (kn_ready _ _ _ _ Hkn)].
      destruct (ob_serial _ _ (cu_objects _ _ _ HC) o (kn_ready _ _ _ _ Hkn o Ho)) as [|(q & [[m' n'] Eq] & Hx)]; [done|].
      destruct (decide (q = p)) as [->|Hne]; [congruence|].
      destruct (work_alone p q o kn _ _ Ep Hkn' He Hne) as [_ Hn]. by destruct (Hn m' n').
    + right. split; [done|left]. eapply underway_start; [done..|].
      by destruct (kn_mine _ _ _ _ Hkn o Ho) as [_ [|]].
  - destruct (kn_blank _ _ _ _ Hkn o Ho) as (E & Hf & Hn).
    do 3 right. exists (at_work X p (Some o)). split; [apply at_work_same|].
    assert (o ∈ kw_mine (fill_in o kn)) as Hm by (cbn; set_solver).
    eapply (enter p o A pr k n (fill_in o kn)); try done; [|by right|..|intros r _; apply Hk].
    2: { destruct Hd as [d]. apply unready_init_header. }
    2: { right. split; [done|right]. exists d, pr, O. split; [done|]. by rewrite Hf. }
    destruct Hkn as [K1 K2 K3]. split; [done|..]; cbn [fill_in kw_mine kw_blank].
    + intros o' [->%elem_of_singleton|Ho']%elem_of_union; [auto|]. destruct (K2 o' Ho') as [? [?|?]]; [done|auto].
    + intros o' [Ho' Hne]%elem_of_difference. destruct (K3 o' Ho') as (? & ? & Hn'). split_and!; [done..|].
      by intros [->%elem_of_singleton|Hx']%elem_of_union; [apply Hne, elem_of_singleton|].
  - do 2 right; left. by exists kn, a.
Qed.
End entitled.

(** ** One access *)

Lemma seg_of_insert c K o s procs o' :
  seg_of (mkConfig K (<[o := s]> (c_objs c)) procs) o' = if decide (o' = o) then s else seg_of c o'.
Proof.
  unfold seg_of. cbn [c_objs]. destruct (decide (o' = o)) as [->|Hne]; [by rewrite lookup_insert_eq|].
  by rewrite lookup_insert_ne.
Qed.

Lemma unready_access {A} (pr : prog A) s :
  unready pr -> unready (fst (pstep pr s)) /\ load CReady (snd (pstep pr s)) = load CReady s.
Proof.
  intros Hu. destruct pr as [a|cl k|cl v k|cl f k|off n k|off bs k]; cbn [pstep fst snd]; try done;
    try (split; [apply Hu|done]).
  - destruct Hu as [Hc Hu]. split; [done|]. by destruct s as [[]], cl.
  - destruct Hu as [Hc Hu]. split; [apply Hu|]. by destruct s as [[]], cl.
Qed.

Section access.
Variables (c : config) (B : Z -> belief) (p o : Z) (A : Type) (pr : prog A) (k : A -> io unit) (n : nat).
Hypothesis Hp : c_procs c !! p = Some (ICall (Seg o pr) k, n).

Let s' : Segment := snd (pstep pr (seg_of c o)).
Let c' : config :=
  mkConfig (if publishes pr then publish_obj p o (c_kernel c) else c_kernel c) (<[o := s']> (c_objs c))
    (<[p := (ICall (Seg o (fst (pstep pr (seg_of c o)))) k, n)]> (c_procs c)).

(** In the middle of an update. *)
Lemma work_custody X B' :
  custody_with c B X -> X p = Some o -> believes_next dev c c' B B' -> custody c'.
Proof using Hp.
  intros HC Hx HB'. exists B', (at_work X p (Some o)).
  destruct (cu_proc _ _ _ HC _ _ _ Hp) as (kn & Hkn & Hm). rewrite Hx in Hkn, Hm.
  destruct Hm as (He & _ & Hu & Hd & Hk).
  destruct (unready_access pr (seg_of c o) Hu) as [Hu' Hflag]. fold s' in Hflag.
  assert (c_kernel c' = c_kernel c) as EK by (cbn; by rewrite unready_publishes).
  assert (forall o', o' <> o -> seg_of c' o' = seg_of c o') as Hseg.
  { intros o' Hne. unfold c'. rewrite seg_of_insert. by rewrite decide_False. }
  assert (seg_of c' o = s') as Hsegp by (unfold c'; rewrite seg_of_insert; by rewrite decide_True).
  assert (forall o', load CReady (seg_of c' o') = load CReady (seg_of c o')) as Hready.
  { intros o'. destruct (decide (o' = o)) as [->|Hne]; [by rewrite Hsegp|by rewrite Hseg]. }
  assert (forall o', common c' o' <-> common c o') as Hcom by (intros o'; unfold common; by rewrite EK, Hready).
  assert (o ∈ kw_ready kn \/ o ∈ kw_mine kn) as Hold by (destruct He as [[? _]|?]; auto).
  apply custody_upd with (B := B); [done..| | |]; fold c'.
  - intros q m n' Hq Eq. destruct (work_alone c B X HC p q o kn _ _ Hp Hkn He Hq) as [Ho1 Ho2].
    split.
    + intros o'. apply Hcom.
    + intros o' E. rewrite EK. split; [done|]. apply Hseg. intros ->. congruence.
    + intros o' E. apply Hseg. intros ->. by eapply Ho2.
  - exists kn. split.
    + destruct Hkn as [K1 K2 K3]. split.
      * intros o' Ho'. by apply Hcom, K1.
      * intros o' Ho'. rewrite EK. destruct (K2 o' Ho') as [E H]. split; [done|].
        destruct (decide (o' = o)) as [->|Hne]; [by left|]. rewrite Hseg by done. exact H.
      * intros o' Ho'. rewrite EK. destruct (K3 o' Ho') as (E & H & Hn). split_and!; [done| |done].
        rewrite Hseg; [done|]. intros ->. destruct He as [[Hr _]|Hm]; [|done]. destruct (K1 o Hr). congruence.
    + assert (b_writer (B' p) = b_writer (B p)) as -> by (destruct HB' as (_ & _ & _ & Hw); by eapply Hw).
      split; [done|]. split_and!; [done|done| |].
      * rewrite Hsegp. by apply doing_step.
      * intros r Hr. by eapply Hk, returns_pstep.
  - destruct (cu_objects _ _ _ HC) as [O1 O2 O3]. split.
    + intros o' Ho'%Hcom. destruct (decide (o' = o)) as [->|Hne].
      * right. exists p. rewrite at_work_same. cbn. by rewrite lookup_insert_eq.
      * rewrite Hseg by done. destruct (O1 o' Ho') as [|(q & Hq & Ex)]; [by left|right].
        exists q. destruct (decide (q = p)) as [->|Hqp]; [congruence|].
        rewrite at_work_other by done. split; [|done]. cbn. by rewrite lookup_insert_ne.
    + intros o'. rewrite Hready, EK. apply O2.
    + intros o' Ho'. rewrite EK in Ho'. rewrite Hseg; [by apply O3|]. intros ->.
      pose proof (entitled_old c B X HC p _ o kn Hkn Hold). lia.
Qed.

(** Nothing is written. *)
Lemma look_custody X B' :
  custody_with c B X -> X p = None -> believes_next dev c c' B B' ->
  publishes pr = false -> s' = seg_of c o ->
  (exists kn, knows c p None kn /\ goes (ICall (Seg o (fst (pstep pr (seg_of c o)))) k) kn) ->
  custody c'.
Proof using Hp.
  intros HC Hx HB' Hpub Hs Hm. exists B', (at_work X p None).
  apply custody_quiet with (B := B); [done..| |done|congruence].
  split_and!; [cbn; by rewrite Hpub..|]. intros o'. rewrite seg_of_insert, Hs.
  by destruct (decide (o' = o)) as [->|].
Qed.

(** The creator opens its object to all. *)
Lemma publish_custody X B' a kn :
  custody_with c B X -> X p = None -> believes_next dev c c' B B' ->
  knows c p None kn -> o ∈ kw_mine kn -> pr = PStore CReady 1 (PRet a) -> goes (k a) (open_up o kn) ->
  custody c'.
Proof using Hp.
  intros HC Hx HB' Hkn Ho Epr Hk. exists B', (at_work X p None).
  destruct (kn_mine _ _ _ _ Hkn o Ho) as [Eo [|Hdr]]; [done|].
  assert (o < k_nextobj (c_kernel c)) as Hlt by (by eapply (ks_obj _ (cu_kernel _ _ _ HC))).
  assert (c_kernel c' = mkKernel (k_keys (c_kernel c)) (k_sets (c_kernel c)) (k_nextset (c_kernel c))
    (delete o (k_owner (c_kernel c))) (k_nextobj (c_kernel c))) as EK.
  { cbn. rewrite Epr. cbn. unfold publish_obj. by rewrite bool_decide_eq_true_2. }
  assert (forall o', o' <> o -> k_owner (c_kernel c') !! o' = k_owner (c_kernel c) !! o' /\
            seg_of c' o' = seg_of c o') as Hother.
  { intros o' Hne. rewrite EK. cbn [k_owner]. rewrite lookup_delete_ne by done. split; [done|].
    unfold c'. rewrite seg_of_insert. by rewrite decide_False. }
  assert (forall o', o' <> o -> common c' o' <-> common c o') as Hcom'.
  { intros o' Hne. unfold common. by destruct (Hother o' Hne) as [-> ->]. }
  assert (seg_of c' o = store CReady 1 (seg_of c o)) as Hsegp.
  { unfold c'. rewrite seg_of_insert, decide_True by done. unfold s'. by rewrite Epr. }
  assert (common c' o) as Hcom by (unfold common; rewrite EK, Hsegp; split; [apply lookup_delete_eq|];
    by destruct (seg_of c o) as [[]]).
  assert (forall o', common c o' -> common c' o') as Hup.
  { intros o' H. destruct (decide (o' = o)) as [->|Hne]; [done|]. by apply Hcom'. }
  apply custody_upd with (B := B); [done..| | |]; fold c'.
  - intros q m n' Hq Eq. split; [done|..].
    + intros o' E. assert (o' <> o) as Hne by congruence. destruct (Hother o' Hne) as [-> ->]. done.
    + intros o' E. apply Hother. intros ->. destruct (cu_proc _ _ _ HC _ _ _ Eq) as (kn' & Hkn' & Hm).
      rewrite E in Hkn', Hm. destruct Hm as [[[Hr _]|Hm] _].
      * destruct (kn_ready _ _ _ _ Hkn' o Hr). congruence.
      * destruct (kn_mine _ _ _ _ Hkn' o Hm). congruence.
  - exists (open_up o kn). split.
    + destruct Hkn as [K1 K2 K3]. split; cbn [open_up kw_ready kw_mine kw_blank].
      * intros o' [->%elem_of_singleton|Ho']%elem_of_union; auto.
      * intros o' [Ho' Hne]%elem_of_difference. rewrite elem_of_singleton in Hne.
        destruct (Hother o' Hne) as [-> ->]. auto.
      * intros o' Ho'. destruct (K3 o' Ho') as (E & Hf & Hn). assert (o' <> o) as Hne by (by intros ->).
        destruct (Hother o' Hne) as [-> ->]. split_and!; [done..|]. by intros [? _]%elem_of_difference.
    + left. rewrite Epr. split; [done|]. by intros r ->.
  - destruct (cu_objects _ _ _ HC) as [O1 O2 O3]. split.
    + intros o' Ho'. destruct (decide (o' = o)) as [->|Hne]; [left; rewrite Hsegp; by apply serial_open|].
      apply Hcom' in Ho'; [|done]. destruct (Hother o' Hne) as [_ ->].
      destruct (O1 o' Ho') as [|(q & Hq & Ex)]; [by left|right]. exists q.
      destruct (decide (q = p)) as [->|Hqp]; [congruence|].
      rewrite at_work_other by done. split; [|done]. cbn. by rewrite lookup_insert_ne.
    + intros o'. destruct (decide (o' = o)) as [->|Hne]; [intros _; apply Hcom|].
      destruct (Hother o' Hne) as [-> ->]. apply O2.
    + intros o'. rewrite EK. cbn [k_nextobj]. intros Ho'. destruct (Hother o' ltac:(lia)) as [_ ->]. by apply O3.
Qed.

Lemma access_custody X B' :
  custody_with c B X -> all_fit c -> believes_next dev c c' B B' -> custody c'.
Proof using Hp.
  intros HC Hfit HB'. destruct (attitude c B X HC Hfit p o A pr k n Hp) as
    [(kn & Hx & Hkn & Hl & Hk)|[(kn & f & Hx & Hkn & Epr & Hk)|[(kn & a & Hx & Hkn & Ho & Epr & Hk)|(X' & Hx & HC')]]].
  - eapply look_custody; [exact HC|exact Hx|exact HB'|..].
    + by apply unready_publishes, looks_unready.
    + unfold s'. by destruct pr.
    + exists kn. split; [done|]. left. split.
      * destruct pr; try done; apply Hl.
      * intros r Hr. by eapply Hk, returns_pstep.
  - eapply look_custody; [exact HC|exact Hx|exact HB'|..].
    + by rewrite Epr.
    + unfold s'. by rewrite Epr.
    + set (v := load CReady (seg_of c o)). exists (if v =? 0 then kn else admit_ready o kn). split.
      * destruct (Z.eqb_spec v 0) as [|Hv]; [done|]. destruct Hkn as [K1 K2 K3]. split; [|done..].
        cbn [admit_ready kw_ready]. intros o' [->%elem_of_singleton|Ho']%elem_of_union; [|auto].
        split; [by apply (ob_flag _ _ (cu_objects _ _ _ HC))|done].
      * left. rewrite Epr. split; [done|]. intros r ->. apply Hk.
  - by eapply publish_custody.
  - by eapply work_custody.
Qed.
End access.

(** ** The end of a program, and of a process *)

Lemma finish_custody c B X p A o (a : A) k n B' :
  let c' := mkConfig (c_kernel c) (c_objs c) (<[p := (k a, n)]> (c_procs c)) in
  c_procs c !! p = Some (ICall (Seg o (PRet a)) k, n) ->
  custody_with c B X -> all_fit c -> believes_next dev c c' B B' -> custody c'.
Proof.
  intros c' Hp HC Hfit HB'. destruct (attitude c B X HC Hfit p o A _ k n Hp) as
    [(kn & Hx & Hkn & _ & Hk)|[(kn & f & _ & _ & [=] & _)|[(kn & b & _ & _ & _ & [=] & _)|(X' & Hx & HC')]]].
  - exists B', (at_work X p None). apply custody_quiet with (B := B); [done..| |congruence].
    exists kn. split; [done|]. by apply Hk.
  - exists B', (at_work X' p None).
    destruct (cu_proc _ _ _ HC' _ _ _ Hp) as (kn & Hkn & Hm). rewrite Hx in Hkn, Hm.
    destruct Hm as (_ & _ & _ & Hd & Hk). apply doing_ends in Hd. cbn [run snd] in Hd.
    apply custody_quiet with (B := B); [done..| |].
    + exists kn. split; [|by apply Hk]. destruct Hkn as [K1 K2 K3]. split; [done| |done].
      intros o' Ho'. destruct (K2 o' Ho') as [E [[= <-]|H]]; [|auto]. split; [done|right].
      destruct Hd as [[Hr _]|[_ Hd]]; [|done]. destruct (K1 _ Hr). congruence.
    + intros o' _ E Ho'. assert (o' = o) as -> by congruence.
      destruct Hd as [[_ Hd]|[Hm _]]; [done|]. destruct (kn_mine _ _ _ _ Hkn _ Hm), Ho'. congruence.
Qed.

Lemma ask_custody c B X p A o (pr : (bytes -> Z -> bool) -> prog A) k n ask B' :
  let c' := mkConfig (c_kernel c) (c_objs c) (<[p := (ICall (Seg o (pr ask)) k, n)]> (c_procs c)) in
  c_procs c !! p = Some (ICall (SegAsk o pr) k, n) ->
  custody_with c B X -> believes_next dev c c' B B' -> custody c'.
Proof.
  intros c' Hp HC HB'. destruct (cu_proc _ _ _ HC _ _ _ Hp) as (kn & Hkn & Hm).
  destruct (X p) as [o'|] eqn:Hx; [by destruct Hm|].
  exists B', (at_work X p None). apply custody_quiet with (B := B); [done..| |congruence].
  exists kn. split; [done|]. left. apply Hm.
Qed.

Lemma death_custody c B X p m n B' :
  let c' := mkConfig (undo_all p (c_kernel c)) (c_objs c) (delete p (c_procs c)) in
  c_procs c !! p = Some (m, n) -> spares c m ->
  custody_with c B X -> believes_next dev c c' B B' -> custody c'.
Proof.
  intros c' Hp Hsp HC (HK' & HB' & _ & Hw). exists B', X.
  assert (same_objects c c') as HE by done. split; [done..| |].
  - intros q m' n' E. cbn in E. apply lookup_delete_Some in E as [Hq E].
    eapply proc_undisturbed; [by apply same_objects_undisturbed| |by eapply (cu_proc _ _ _ HC)].
    intros _ Hs. by eapply Hw.
  - eapply same_objects_ok; [exact HE|apply HC|]. intros q o Hq Hx Ho.
    destruct (decide (q = p)) as [->|Hne]; [left|right; exists q; cbn; by rewrite lookup_delete_ne].
    destruct (cu_proc _ _ _ HC _ _ _ Hp) as (kn & Hkn & Hm). rewrite Hx in Hkn, Hm. destruct Hm as [_ Hm].
    destruct m as [|R [] k]; try done. destruct Hm as (-> & _ & Hd & _). cbn [spares] in Hsp.
    destruct Hd as [[_ Hd]|[Hm _]]; [|destruct (kn_mine _ _ _ _ Hkn _ Hm), Ho; congruence].
    apply (underway_cut p0); [by eapply underway_serial|]. destruct Hsp as [Hl|[Hn|Hs]]; [by left|by destruct Ho|by right].
Qed.

(** * Any step *)

Lemma step_custody c c' : custody c -> gentle c c' -> custody c'.
Proof.
  intros (B & X & HC) (Hstep & Hfit & Hstart & Hend).
  destruct (step_believes _ _ _ _ _ (cu_kernel _ _ _ HC) (cu_believes _ _ _ HC) Hstep) as (B' & HB').
  destruct Hstep as [p es g n Hp Hn|p [m n] Hp|p R cl k n r K' n' Hp Hs|p A o pr k n Hp|p A o a k n Hp|p A o pr k n ask Hp].
  - eapply start_custody; [exact HC|exact HB'|exact Hp|].
    apply (Hstart p _ n Hp). apply lookup_insert_eq.
  - eapply death_custody; [exact Hp| |exact HC|exact HB'].
    apply (Hend p m n Hp). apply lookup_delete_eq.
  - eapply call_custody; [exact HC|exact HB'|exact Hp|exact Hs].
  - eapply access_custody; [exact Hp|exact HC|exact Hfit|exact HB'].
  - eapply finish_custody; [exact Hp|exact HC|exact Hfit|exact HB'].
  - eapply ask_custody; [exact Hp|exact HC|exact HB'].
Qed.

Lemma boot_custody : custody boot.
Proof.
  destruct (boot_sound dev) as (HK & B & HB). exists B, (fun _ => None). split; [done..| |].
  - intros p m n E. cbn in E. by rewrite lookup_empty in E.
  - assert (forall o, seg_of boot o = zero_segment) as Hz by (intros o; unfold seg_of; cbn; by rewrite lookup_empty).
    split; intros o; unfold common; rewrite Hz; [|done..]. intros [_ H]. by destruct H.
Qed.

Lemma steps_custody c c' : rtc gentle c c' -> custody c -> custody c'.
Proof. induction 1 as [|c1 c2 c3 Hstep _ IH]; [done|]. intros Hc. apply IH. by eapply step_custody. Qed.

Lemma reached_custody c : gently_reached c -> custody c.
Proof. intros H. by apply (steps_custody boot); [|apply boot_custody]. Qed.
End system.
