(* ===== verification/CustodyThms.v ===== *)
(** What the care of every process amounts to: the shared segments of a running
    system are serial, and whatever is shown of operations that run one after
    the other holds there. *)

From S2P Require Import Prelude Consts Hash Names Spec Segment Shm Cache ShmInv ShmOps SeqCount ShmCompact ShmRefine ShmTrace World Disk Sem Attach Store Lib Race RaceInv Killed KilledThms Locking LockingInv LockingSys LockingThms Survivors Custody CustodyCode CustodySys.

(** ** Operations that may be cut short *)

(** Where [w], run from [s0], may stop at [s]: anywhere in a removal, a repair
    or a write-back; in a put that does not compact, does not take over the
    bucket of a deleted key, and has not marked a bucket it is yet to publish. *)
Definition harmless (w : op) (s0 s : Segment) : Prop :=
  match w with
  | OPut key val _ =>
    needs_compact s0 (len key + len val) = false /\ reclaims s0 key = false /\ ~ blemished s
  | OClear => False
  | _ => True
  end.

Lemma advance_bytewise {A} n (p : prog A) s :
  exists m, advance m (bytewise p) s = (bytewise (fst (advance n p s)), snd (advance n p s)).
Proof.
  revert p s; induction n as [|n IH]; intros p s; [by exists O|]. cbn [advance].
  assert (exists m, advance m (bytewise p) s = (bytewise (fst (pstep p s)), snd (pstep p s))) as [m1 E1].
  { destruct p as [a|c k|c v k|c f k|off n' k|off bs k]; [by exists O|by exists 1%nat..| |].
    - exists (Z.to_nat n'). cbn [bytewise pstep fst snd]. by rewrite advance_read_each.
    - exists (length bs). cbn [bytewise pstep fst snd]. by rewrite advance_write_each. }
  destruct (pstep p s) as [p1 s1]. cbn [fst snd] in E1. destruct (IH p1 s1) as [m2 E2].
  exists (m1 + m2)%nat. by rewrite advance_add, E1.
Qed.

Lemma harmless_wf w A (p : prog A) n s :
  performs w p -> op_ok w -> wf s -> harmless w s (snd (advance n p s)) -> wf (snd (advance n p s)).
Proof.
  intros Hp Hok Hwf. destruct (advance_bytewise n p s) as [m E].
  apply (f_equal snd) in E. cbn [snd] in E. rewrite <- E. clear E.
  destruct Hp as [key val dirty|key dirty| |j|ps]; cbn [harmless].
  - intros (H1 & H2 & H3). by apply (killed_put s dirty Hwf key val m).
  - intros _. by apply killed_remove.
  - done.
  - intros _. eapply same_data_wf; [apply killed_repair|done].
  - intros _. by apply killed_writeback.
Qed.

(** ** The system *)

Section system.
Context `{AL : Allocator}.
Variables (fuel : nat) (dev : Z).

(** A process is in the middle of an operation on [o] that started on [s0] and
    has been left alone since. *)
Definition in_hand (c : config) (o : Z) : Prop :=
  exists p A (pr : prog A) k n w p0 s0 j,
    c_procs c !! p = Some (ICall (Seg o pr) k, n) /\ holds dev c p IPC_KEY /\
    op_ok w /\ performs w p0 /\ serial s0 /\ advance j p0 s0 = (pr, seg_of c o) /\
    (harmless w s0 (seg_of c o) -> wf (seg_of c o)).

(** C6: the shared segments of the running system are serial.  Any number of
    processes, each making any calls of the C interface, its memory accesses
    interleaved with those of the others in any way, forked and killed at any
    step that does not tear an update apart: an object whose header says ready
    is at every moment what operations run one after the other have made of a
    blank one, or it is in the middle of one such operation, made by a process
    that holds the writer lock and undisturbed since it began.  When all segment
    programs in progress only look, the object is well-formed, and every key
    reads as the map it stands for.  In the middle of an operation it is
    well-formed too, unless the operation is a clear, or a put that compacts,
    takes over the bucket of a deleted key or has just marked a new one: only
    there a death does harm. *)
Theorem segments_are_serial (c : config) (o : Z) :
  gently_reached fuel dev anything c -> load CReady (seg_of c o) <> 0 ->
  (serial (seg_of c o) \/ in_hand c o) /\
  ((forall p A (pr : prog A) k n, c_procs c !! p = Some (ICall (Seg o pr) k, n) -> looks pr) ->
     serial (seg_of c o) /\ wf (seg_of c o) /\
     forall key, reads (seg_of c o) key = read_of (Spec.get (view (seg_of c o)) key)).
Proof.
  intros Hr Hready. destruct (reached_custody fuel dev anything c Hr) as (B & X & HC).
  pose proof (ob_flag _ _ (cu_objects _ _ _ _ _ HC) o Hready) as Ho.
  assert (serial (seg_of c o) \/ in_hand c o) as Hcase.
  { destruct (ob_serial _ _ (cu_objects _ _ _ _ _ HC) o (conj Ho Hready)) as [|(p & [[m n] Ep] & Hx)]; [by left|right].
    destruct (cu_proc _ _ _ _ _ HC _ _ _ Ep) as (kn & Hkn & Hm). rewrite Hx in Hkn, Hm. destruct Hm as [He Hm].
    destruct m as [|R [] k]; try done. destruct Hm as (-> & _ & Hd & _).
    assert (o ∉ kw_mine kn) as Hn by (intros Hm; destruct (kn_mine _ _ _ _ Hkn o Hm); congruence).
    destruct Hd as [[_ (w & p1 & s0 & j & Hok & Hp & [Hs _] & E)]|[Hm _]]; [|done].
    eexists p, _, _, k, n, w, p1, s0, j. split_and!; [exact Ep| |done..|].
    - destruct He as [[_ [id Hid]]|]; [|done].
      destruct (cu_believes _ _ _ _ _ HC) as (H1 & _). destruct (H1 _ _ _ Ep) as (_ & Ha & _).
      destruct (ag_writer _ _ _ _ Ha _ Hid) as (s & ?). by exists id, s.
    - pose proof (harmless_wf w _ p1 j s0 Hp Hok (serial_wf _ Hs)) as Hw. by rewrite E in Hw. }
  split; [done|]. intros Hq. assert (serial (seg_of c o)) as Hs.
  { destruct Hcase as [|(p & A & pr & k & n & w & p0 & s0 & j & Ep & _ & Hok & Hp & Hs & E & _)]; [done|].
    apply (underway_cut pr); [by exists w, p0, s0, j|]. left. by eapply Hq. }
  split; [done|]. pose proof (serial_wf _ Hs) as Hwf. split; [done|]. intros key. by apply reads_wf.
Qed.
End system.

(** * A run *)

Section drive.
Context `{AL : Allocator}.
Variables (fuel : nat) (dev : Z).
Variables (fit : Z -> Segment -> Prop) (fit_b : config -> bool).

Definition modest_b (e : entry) : bool :=
  match e with ESet _ (Some value) => len value <? 2 ^ 62 | _ => true end.

(** Nobody is killed inside a segment program. *)
Definition polite (c : config) (e : event) : bool :=
  match e with
  | Start _ es => forallb modest_b es
  | End p => match c_procs c !! p with Some (m, _) => negb (in_segment m) | None => true end
  | Go _ _ => true
  end.

Fixpoint polite_all (es : list event) (c : config) : bool :=
  match es with
  | [] => true
  | e :: es' =>
    fit_b c && polite c e && match drive1 fuel dev c e with Some c' => polite_all es' c' | None => true end
  end.

(** [Go] changes one process that is there. *)
Lemma go_procs p x c m n c' q :
  c_procs c !! p = Some (m, n) -> go dev p x c m n = Some c' ->
  is_Some (c_procs c' !! q) <-> is_Some (c_procs c !! q).
Proof.
  intros Ep E. assert (exists y, c_procs c' = <[p := y]> (c_procs c)) as [y ->].
  { unfold go in E. destruct m as [|R cl k]; [done|].
    destruct (go_seg p c n cl k) as [c1|] eqn:Eg.
    - injection E as <-. destruct cl; try done. cbn [go_seg] in Eg.
      match type of Eg with match ?pr with _ => _ end = _ => destruct pr end;
        injection Eg as <-; cbn; eauto.
    - destruct (reply dev x p cl (c_kernel c)) as [[r K']|]; [|done]. injection E as <-. cbn. eauto. }
  destruct (decide (q = p)) as [->|Hne]; [rewrite lookup_insert_eq, Ep; split; eauto|].
  by rewrite lookup_insert_ne.
Qed.

Lemma drive1_gentle c e c' :
  drive1 fuel dev c e = Some c' -> polite c e = true -> all_fit fit c -> gentle (S fuel) dev fit c c'.
Proof.
  intros E Hpol Hfit. split; [by eapply drive1_step|]. split; [done|].
  destruct e as [p es|p|p x]; cbn [drive1 polite] in *; destruct (c_procs c !! p) as [[m n]|] eqn:Ep; try done.
  - injection E as <-. cbn [c_procs]. split; intros q m n E1 E2.
    + destruct (decide (q = p)) as [->|Hne]; [|rewrite lookup_insert_ne in E2 by done; congruence].
      rewrite lookup_insert_eq in E2. injection E2 as <- <-. exists es, None. split_and!; [done| |done].
      apply Forall_forall. intros e He. rewrite forallb_forall in Hpol.
      specialize (Hpol e ltac:(by apply list_elem_of_In)). destruct e as [| | |name [value|]| | | | | |]; try done.
      by apply Z.ltb_lt in Hpol.
    + destruct (decide (q = p)) as [->|Hne]; [congruence|]. rewrite lookup_insert_ne in E2 by done. congruence.
  - injection E as <-. cbn [c_procs]. split; intros q m' n' E1 E2.
    + apply lookup_delete_Some in E2 as [_ E2]. congruence.
    + destruct (decide (q = p)) as [->|Hne]; [|rewrite lookup_delete_ne in E2 by done; congruence].
      replace m' with m by congruence. destruct m as [|R [] k]; done.
  - split; intros q m' n' E1 E2; pose proof (go_procs p x c m n c' q Ep E) as Hin; exfalso.
    + destruct (proj1 Hin) as [? ?]; [by eexists|congruence].
    + destruct (proj2 Hin) as [? ?]; [by eexists|congruence].
Qed.

Lemma drive_gentle es c c' :
  (forall c, fit_b c = true -> all_fit fit c) ->
  drive fuel dev es c = Some c' -> polite_all es c = true -> rtc (gentle (S fuel) dev fit) c c'.
Proof.
  intros Hfit. revert c; induction es as [|e es IH]; intros c; cbn [drive polite_all]; [by intros [= <-]|].
  destruct (drive1 fuel dev c e) as [c1|] eqn:E; [|done]. intros H [[H0 H1]%andb_true_iff H2]%andb_true_iff.
  eapply rtc_l; [by eapply drive1_gentle; auto|by apply IH].
Qed.
End drive.

Lemma led_gently es :
  leads es = true -> polite_all 2 7 (fun _ => true) es boot = true -> gently_reached 3 7 anything (led es).
Proof.
  unfold leads, led. destruct (drive 2 7 es boot) as [c|] eqn:E; [|done]. intros _ Hp.
  by apply (drive_gentle _ _ anything (fun _ => true)) in E.
Qed.

(** Process 1 has created the segment, set "a" and ended; before that it was in
    the middle of its [put]. *)
Definition set_and_gone : list event := setting ++ repeat (Go 1 Good) 22 ++ [End 1].

Lemma segments_are_serial_witness :
  let c := led set_and_gone in
  gently_reached 3 7 anything c /\ load CReady (seg_of c 0) <> 0 /\ c_procs c = ∅ /\
  reads (seg_of c 0) [97] = Value [97] /\ Spec.get (view (seg_of c 0)) [97] = Some [97] /\
  serial (seg_of c 0) /\
  writing (led (setting ++ repeat (Go 1 Good) 8)) 1 0 /\
  (serial (seg_of (led (setting ++ repeat (Go 1 Good) 8)) 0) \/ in_hand 7 (led (setting ++ repeat (Go 1 Good) 8)) 0).
Proof.
  assert (gently_reached 3 7 anything (led set_and_gone)) as Hr by (apply led_gently; vm_compute; reflexivity).
  assert (load CReady (seg_of (led set_and_gone) 0) <> 0) as Hf by (vm_compute; discriminate).
  assert (c_procs (led set_and_gone) = ∅) as Hp by (vm_compute; reflexivity).
  destruct (segments_are_serial 3 7 _ 0 Hr Hf) as [_ (Hs & _ & Hreads)].
  { intros p A pr k n E. rewrite Hp, lookup_empty in E. discriminate E. }
  intros c. split; [exact Hr|]. split; [exact Hf|]. split; [exact Hp|].
  assert (reads (seg_of c 0) [97] = Value [97]) as Hv by (vm_compute; reflexivity).
  split; [exact Hv|]. split.
  { specialize (Hreads [97]). fold c in Hreads. rewrite Hv in Hreads.
    destruct (Spec.get (view (seg_of c 0)) [97]); [|discriminate Hreads].
    injection Hreads as <-. reflexivity. }
  split; [exact Hs|]. split; [apply storing_writing; vm_compute; reflexivity|].
  apply (segments_are_serial 3 7).
  - apply led_gently; vm_compute; reflexivity.
  - vm_compute. discriminate.
Defined.
