(* ===== verification/Reads.v ===== *)
(** Lock-free reads in the running system.

    Race proves the read of src/src/shm.rs linearizable against one writer.
    Here the reader is one of any number of processes, and what the others do
    to the object meanwhile is what Custody leaves them. *)

From S2P Require Import Prelude Consts Hash Names Spec Segment Shm Cache ShmInv ShmProbe ShmOps SeqCount ShmCompact ShmRefine ShmTrace World Disk Sem Attach Store Lib Race RaceInv RaceOps RaceThms Locking LockingInv LockingSys LockingThms Custody CustodyCode CustodySys CustodyThms.

(** * One access at a time *)

Section accesses.
Variables (key : bytes) (V : Read -> Prop).

Lemma later_refl s : anchored key V s -> later key V s s.
Proof. by split. Qed.

Lemma later_trans s1 s2 s3 : later key V s1 s2 -> later key V s2 s3 -> later key V s1 s3.
Proof. intros [H1 _] [H2 Ha]. split; [by etrans|done]. Qed.

(** ** The reader *)

Lemma sees_bytes_later off n (C : bytes -> Segment -> Prop) s s' :
  (forall bs s s', later key V s s' -> C bs s -> C bs s') -> later key V s s' ->
  sees_bytes key V off n C s -> sees_bytes key V off n C s'.
Proof.
  intros HC Hl. destruct n as [|n]; [by apply HC|]. intros Hs s2 H2. apply Hs. by eapply later_trans.
Qed.

Lemma sees_later {A} (p : prog A) (P : A -> Prop) s s' :
  later key V s s' -> sees key V p (fun a _ => P a) s -> sees key V p (fun a _ => P a) s'.
Proof.
  revert s s'; induction p as [a|c k IH| | |off n k IH|]; intros s s' Hl Hp; try done.
  - intros s2 H2. apply Hp. by eapply later_trans.
  - eapply (sees_bytes_later off _ (fun bs s => sees key V (k bs) (fun a _ => P a) s)); [|exact Hl|exact Hp].
    intros bs s1 s2 H12. by apply IH.
Qed.

Lemma sees_bytes_now off n (C : bytes -> Segment -> Prop) s :
  anchored key V s -> sees_bytes key V off n C s -> C (mem_read_nat (arena s) off n) s.
Proof.
  intros Ha. revert off C; induction n as [|n IH]; intros off C Hs; [done|].
  apply (IH (off + 1) (fun bs => C (arr_get 0 (arena s) off :: bs))). by apply Hs, later_refl.
Qed.

Lemma sees_pstep {A} (p : prog A) (P : A -> Prop) s :
  anchored key V s -> sees key V p (fun a _ => P a) s ->
  sees key V (fst (pstep p s)) (fun a _ => P a) s.
Proof.
  intros Ha Hp. destruct p as [a|c k| | |off n k|]; try done.
  - by apply Hp, later_refl.
  - by apply (sees_bytes_now off _ (fun bs s => sees key V (k bs) (fun a _ => P a) s)).
Qed.

(** ** The writer *)

Lemma guards_write_later off bs s :
  anchored key V s -> guards_write (fair key V) off bs s -> later key V s (arena_write off bs s).
Proof.
  revert off s; induction bs as [|b bs IH]; intros off s Ha; [destruct s; by intros _; apply later_refl|].
  intros [H Hw]. eapply later_trans; [exact H|].
  change (arena_write off (b :: bs) s) with (arena_write (off + 1) bs (arena_write off [b] s)).
  apply IH; [apply H|done].
Qed.

Lemma guards_pstep {A} (p : prog A) s :
  anchored key V s -> guards (fair key V) p s ->
  later key V s (snd (pstep p s)) /\ guards (fair key V) (fst (pstep p s)) (snd (pstep p s)).
Proof.
  intros Ha. destruct p as [a|c k|c v k|c f k|off n k|off bs k]; cbn [pstep fst snd]; intros Hg;
    try (split; [by apply later_refl|done]); try exact Hg.
  destruct Hg as [Hw Hk]. split; [by apply guards_write_later|done].
Qed.

Lemma guards_advance {A} n (p p' : prog A) s s' :
  advance n p s = (p', s') -> anchored key V s -> guards (fair key V) p s ->
  later key V s s' /\ guards (fair key V) p' s'.
Proof.
  revert p s; induction n as [|n IH]; intros p s; cbn [advance].
  - intros [= <- <-] Ha Hg. split; [by apply later_refl|done].
  - intros E Ha Hg. destruct (guards_pstep p s Ha Hg) as [Hl Hg'].
    destruct (pstep p s) as [p1 s1]. destruct (IH p1 s1 E (proj2 Hl) Hg') as [Hl' Hg''].
    split; [by eapply later_trans|done].
Qed.

Lemma guards_bind_l {A B} G (m : prog A) (f : A -> prog B) s : guards G (bind m f) s -> guards G m s.
Proof.
  revert s; induction m as [a|c k IH|c v k IH|c g k IH|off n k IH|off bs k IH]; intros s H; [done|..].
  - by apply IH.
  - destruct H as [H Hk]. split; [done|by apply IH].
  - destruct H as [H Hk]. split; [done|by apply IH].
  - by apply IH.
  - destruct H as [H Hk]. split; [done|by apply IH].
Qed.

Lemma performs_guards w A (p : prog A) s :
  performs w p -> wf s -> racing key w s -> V (read_of (Spec.get (view s) key)) ->
  V (read_of (Spec.get (view (apply w s)) key)) -> guards (fair key V) p s.
Proof.
  intros Hp Hwf Hr H1 H2. pose proof (op_guards key V w s Hwf Hr H1 H2) as Hg.
  destruct Hp; cbn [op_prog] in Hg; try done; by apply guards_bind_l in Hg.
Qed.
End accesses.

(** * When a key can be read without a lock *)

(** What the reader of [key] needs of the segments writers start from: no
    compaction would lose a record, the counters are far from their end, and
    no deletion of a key with its hash has been committed. *)
Record calm (key : bytes) (s : Segment) : Prop := mk_calm {
  ca_wrap : no_wrap s;
  ca_slot : 0 <= slot s (key_slot key) < 2 ^ 64 - 4;
  ca_aseq : 0 <= aseq s < 2 ^ 64 - 4;
  ca_tomb : forall i, in_index i -> state_of s i = ST_TOMB -> e_hash (Segment.entry s i) = fnv1a key ->
    has_dirty (e_flags (Segment.entry s i)) = true
}.

Lemma calm_racing key w s : wf s -> calm key s -> op_ok w -> racing key w s.
Proof.
  intros Hwf [Hw Hs Ha Ht] Hok. split; try done.
  - destruct w; try done. by intros _.
  - destruct w as [k val d| | | |]; try done. cbn [reuses].
    destruct (run_probe s k Hwf) as (pr & -> & Hpost). cbn [fst].
    destruct pr as [[i [|]]|]; try done. destruct Hpost as (Hi & Hcl & _).
    destruct Hcl as [->|[Htomb Hcl]]; [done|].
    destruct (Z.eqb_spec (e_hash (Segment.entry s i)) (fnv1a key)) as [E|]; [|by rewrite andb_false_r].
    by rewrite Ht in Hcl.
Qed.

(** * The object of the read *)

Section object.
Context `{AL : Allocator}.
Variables (fuel : nat) (dev : Z) (o : Z).

(** No process is in the middle of writing to it. *)
Definition idle (c : config) : Prop :=
  forall p A (pr : prog A) k n, c_procs c !! p = Some (ICall (Seg o pr) k, n) -> looks pr.

(** Nobody has begun to change it and has still something to change. *)
Definition at_rest (c : config) : Prop :=
  forall p A (pr : prog A) k n, c_procs c !! p = Some (ICall (Seg o pr) k, n) ->
    snd (run pr (seg_of c o)) = seg_of c o \/ updates pr.

(** ** Assumptions on its contents *)

Lemma custody_mono (fit fit' : Z -> Segment -> Prop) c :
  (forall o s, fit o s -> fit' o s) -> custody dev fit c -> custody dev fit' c.
Proof.
  intros Hfit (B & X & [HK HB HP HO]). exists B, X. split; [done..| |done].
  intros p m n Ep. destruct (HP _ _ _ Ep) as (kn & Hkn & Hm). exists kn. split; [done|].
  destruct (X p) as [o'|]; [|done]. destruct Hm as [He Hm]. split; [done|].
  destruct m as [|R [] k]; try done. destruct Hm as (-> & Hu & Hd & Hk). split_and!; [done..| |done].
  destruct Hd as [[Hr Hd]|Hd]; [left; split; [done|]|by right].
  eapply underway_mono; [|exact Hd]. intros s [Hs Hf]. auto.
Qed.

(** They may be made from any moment at which nobody writes. *)
Lemma watch_from (fit : Z -> Segment -> Prop) c :
  (forall o' s, o' <> o -> fit o' s) -> custody dev anything c -> common c o -> idle c ->
  custody dev fit c.
Proof.
  intros Hfit (B & X & HC) Ho Hidle.
  assert (forall p (m : io unit) (n : nat), c_procs c !! p = Some (m, n) -> X p = Some o ->
    serial (seg_of c o) /\ proc_ok anything c (b_writer (B p)) p None m) as Hfree.
  { intros p m n Ep Hx. destruct (cu_proc _ _ _ _ _ HC _ _ _ Ep) as (kn & Hkn & Hm). rewrite Hx in Hkn, Hm.
    destruct Hm as [_ Hm]. destruct m as [|R [] k]; try done. destruct Hm as (-> & _ & Hd & Hk).
    pose proof (Hidle _ _ _ _ _ Ep) as Hl.
    assert (o ∉ kw_mine kn) as Hn by (intros Hm; destruct (kn_mine _ _ _ _ Hkn o Hm), Ho; congruence).
    split.
    - destruct Hd as [[_ Hd]|[Hm _]]; [|done]. eapply underway_cut; [by eapply underway_serial|by left].
    - exists kn. split; [|by left]. destruct Hkn as [K1 K2 K3]. split; [done| |done].
      intros o' Ho'. destruct (K2 o' Ho') as [E [[= ->]|H]]; [done|auto]. }
  exists B, (fun p => if decide (X p = Some o) then None else X p).
  destruct HC as [HK HB HP [O1 O2 O3]]. split; [done..| |split; [|done..]].
  - intros p m n Ep. destruct (decide (X p = Some o)) as [Hx|Hx]; [by eapply Hfree|].
    destruct (HP _ _ _ Ep) as (kn & Hkn & Hm). exists kn. split; [done|].
    destruct (X p) as [o'|] eqn:Ex; [|done]. destruct Hm as [He Hm]. split; [done|].
    destruct m as [|R [] k]; try done. destruct Hm as (-> & Hu & Hd & Hk). split_and!; [done..| |done].
    destruct Hd as [[Hr Hd]|Hd]; [left; split; [done|]|by right].
    eapply underway_mono; [|exact Hd]. intros s [Hs _]. split; [done|]. apply Hfit. congruence.
  - intros o' Ho'. destruct (O1 o' Ho') as [|(p & [[m n] Ep] & Hx)]; [by left|].
    destruct (decide (o' = o)) as [->|Hne]; [left; by eapply Hfree|right].
    exists p. split; [by eexists|]. rewrite decide_False by congruence. done.
Qed.

(** ** A step of anybody *)

Lemma serves_owner p {R} (cl : call R) K n r K' n' :
  serves dev p cl K n r K' n' -> o < k_nextobj K -> k_owner K !! o = None -> k_owner K' !! o = None.
Proof.
  intros Hs Hlt Ho. destruct cl; cbn [serves] in Hs; try done;
    repeat match goal with
    | H : _ /\ _ |- _ => destruct H
    | H : _ \/ _ |- _ => destruct H
    | H : ex _ |- _ => destruct H
    end; subst; try done.
  cbn [new_obj k_owner]. by rewrite lookup_insert_ne by lia.
Qed.

Section fit.
Variable fit : Z -> Segment -> Prop.

(** An access that may change the object is one of an operation on it. *)
Definition stepped (c c' : config) : Prop :=
  exists A (pr : prog A),
    seg_of c' o = snd (pstep pr (seg_of c o)) /\ underway (fun s => serial s /\ fit o s) pr (seg_of c o).

Lemma step_common c c' :
  custody dev fit c -> gentle fuel dev fit c c' -> common c o ->
  common c' o /\ (seg_of c' o = seg_of c o \/ stepped c c').
Proof.
  intros (B & X & HC) (Hstep & Hfit & _) [Ho Hready].
  assert (o < k_nextobj (c_kernel c)) as Hlt.
  { destruct (Z.lt_ge_cases o (k_nextobj (c_kernel c))) as [|Hge]; [done|].
    by rewrite (ob_new _ _ (cu_objects _ _ _ _ _ HC) o Hge) in Hready. }
  destruct Hstep as [p es g n Hp Hn|p x Hp|p R cl k n r K' n' Hp Hs|p A o' pr k n Hp|p A o' a k n Hp|p A o' pr k n ask Hp];
    unfold common; cbn [c_kernel].
  1,2,5,6: (split; [by split|by left]).
  - split; [|by left]. split; [by eapply serves_owner|done].
  - assert (k_owner (if publishes pr then publish_obj p o' (c_kernel c) else c_kernel c) !! o = None) as Hown.
    { destruct (publishes pr); [|done]. unfold publish_obj. case_bool_decide; [|done].
      cbn [k_owner]. destruct (decide (o' = o)) as [->|]; [apply lookup_delete_eq|by rewrite lookup_delete_ne]. }
    rewrite !seg_of_insert. destruct (decide (o = o')) as [<-|Hne]; [|split; [by split|by left]].
    destruct (attitude dev fit c B X HC Hfit p o A pr k n Hp) as
      [(kn & _ & _ & Hl & _)|[(kn & f & _ & _ & -> & _)|[(kn & a & _ & Hkn & Hm & _)|(X' & Hx & HC')]]].
    + assert (snd (pstep pr (seg_of c o)) = seg_of c o) as -> by (by destruct pr).
      split; [by split|by left].
    + split; [by split|by left].
    + destruct (kn_mine _ _ _ _ Hkn o Hm). congruence.
    + destruct (cu_proc _ _ _ _ _ HC' _ _ _ Hp) as (kn & Hkn & Hm). rewrite Hx in Hkn, Hm.
      destruct Hm as (_ & _ & Hu & Hd & _).
      destruct (unready_access pr (seg_of c o) Hu) as [_ Hflag]. rewrite Hflag.
      split; [by split|right]. exists A, pr. rewrite seg_of_insert, decide_True by done. split; [done|].
      destruct Hd as [[_ Hd]|[Hm _]]; [done|]. destruct (kn_mine _ _ _ _ Hkn o Hm). congruence.
Qed.

(** ** Where the object stands *)

Lemma not_at_work c B X p A (pr : prog A) k n :
  custody_with dev fit c B X -> common c o -> c_procs c !! p = Some (ICall (Seg o pr) k, n) ->
  X p <> Some o -> looks pr \/ updates pr.
Proof.
  intros HC Ho Ep Hx. destruct (cu_proc _ _ _ _ _ HC _ _ _ Ep) as (kn & Hkn & Hm).
  assert (o ∉ kw_mine kn) as Hn by (intros Hm'; destruct (kn_mine _ _ _ _ Hkn o Hm'), Ho; congruence).
  destruct (X p) as [o'|] eqn:Ex; [by destruct Hm as (_ & <- & _)|].
  destruct Hm as [[Hl _]|[(f & -> & _)|[(_ & Hu & _)|[(Hb & _)|(a & Hm & _)]]]]; [by left|by left|by right| |done].
  destruct (kn_blank _ _ _ _ Hkn o Hb) as [E _], Ho. congruence.
Qed.

(** All is quiet if the one process at work on it, if any, is about to begin or
    has nothing more to change. *)
Lemma rest_but_for c B X p :
  custody_with dev fit c B X -> common c o ->
  (forall q x, c_procs c !! q = Some x -> q <> p -> X q <> Some o) ->
  (forall A (pr : prog A) k n, c_procs c !! p = Some (ICall (Seg o pr) k, n) ->
     snd (run pr (seg_of c o)) = seg_of c o \/ updates pr) -> at_rest c.
Proof.
  intros HC Ho Hq Hp q A pr k n Eq. destruct (decide (q = p)) as [->|Hne]; [by eapply Hp|].
  destruct (not_at_work c B X q A pr k n HC Ho Eq) as [Hl|Hu]; [by eapply Hq| |by right].
  left. by apply looks_run.
Qed.

Lemma rest_or_work c :
  custody dev fit c -> common c o ->
  (at_rest c /\ serial (seg_of c o)) \/
  exists p A (pr : prog A) k n w p0 s0 j,
    c_procs c !! p = Some (ICall (Seg o pr) k, n) /\ op_ok w /\ performs w p0 /\ serial s0 /\ fit o s0 /\
    advance (S j) p0 s0 = (pr, seg_of c o) /\ seg_of c o <> apply w s0.
Proof.
  intros (B & X & HC) Ho.
  destruct (decide (map_Exists (fun p _ => X p = Some o) (c_procs c))) as [Hw|Hw].
  - apply map_Exists_lookup_1 in Hw as (p & [m n] & Ep & Hx).
    destruct (cu_proc _ _ _ _ _ HC _ _ _ Ep) as (kn & Hkn & Hm). rewrite Hx in Hkn, Hm.
    destruct Hm as [He Hm]. destruct m as [|R [] k]; try done. destruct Hm as (-> & _ & Hd & _).
    destruct Hd as [[_ Hd]|[Hm _]]; [|destruct (kn_mine _ _ _ _ Hkn o Hm), Ho; congruence].
    destruct Hd as (w & p1 & s0 & j & Hok & Hp & [Hs Hf] & E).
    pose proof (advance_run _ _ _ _ _ E) as Erun. apply (f_equal snd) in Erun.
    rewrite (performs_run w) in Erun by done.
    assert ((at_rest c /\ serial (seg_of c o)) \/ (seg_of c o <> apply w s0 /\ j <> O)) as Hcase.
    { assert (forall P : io unit -> Prop, P (ICall (Seg o p0) k) ->
        forall A (pr : prog A) k' n', c_procs c !! p = Some (ICall (Seg o pr) k', n') -> P (ICall (Seg o pr) k')) as Hat
        by congruence.
      assert (forall q x, c_procs c !! q = Some x -> q <> p -> X q <> Some o) as Hq.
      { intros q [m' n'] Eq Hne. destruct (work_alone dev fit c B X HC p q o kn _ _ Ep Hkn He Hne) as [_ Hn]. by eapply Hn. }
      destruct (decide (seg_of c o = apply w s0)) as [Eq|Hne]; [left|destruct j as [|j]; [left|by right]];
        (split; [apply (rest_but_for c B X p HC Ho Hq)|]).
      - apply (Hat (fun m => match m with
          | ICall (Seg _ pr) _ => snd (run pr (seg_of c o)) = seg_of c o \/ updates pr | _ => True end)).
        left. congruence.
      - rewrite Eq. by apply serial_op.
      - apply (Hat (fun m => match m with
          | ICall (Seg _ pr) _ => snd (run pr (seg_of c o)) = seg_of c o \/ updates pr | _ => True end)).
        right. injection E as <- _. by exists w.
      - by injection E as _ <-. }
    destruct Hcase as [Hr|[Hne Hj]]; [by left|right].
    destruct j as [|j]; [done|]. eexists p, _, _, k, n, w, p1, s0, j. by split_and!.
  - left. assert (forall p x, c_procs c !! p = Some x -> X p <> Some o) as Hno.
    { intros p x Ep Hx. apply Hw. by apply (map_Exists_lookup_2 _ _ p x). }
    split; [apply (rest_but_for c B X 0 HC Ho); [eauto|]; intros A pr k n Ep|].
    + destruct (not_at_work c B X 0 A pr k n HC Ho Ep) as [Hl|Hu]; [by eapply Hno|left; by apply looks_run|by right].
    + destruct (ob_serial _ _ (cu_objects _ _ _ _ _ HC) o Ho) as [|(p & [x Ep] & Hx)]; [done|].
      by destruct (Hno _ _ Ep).
Qed.
End fit.
End object.

(** * One process on its own *)

(** Process [q] has moved and nothing else. *)
Definition only (q : Z) (c c' : config) : Prop :=
  k_owner (c_kernel c') = k_owner (c_kernel c) /\ (forall o, seg_of c' o = seg_of c o) /\
  (forall p, p <> q -> c_procs c' !! p = c_procs c !! p).

Lemma only_trans q c1 c2 c3 : only q c1 c2 -> only q c2 c3 -> only q c1 c3.
Proof.
  intros (A1 & A2 & A3) (B1 & B2 & B3). split_and!; [congruence|congruence|].
  intros p Hp. rewrite B3 by done. auto.
Qed.

Lemma only_common q c c' o : only q c c' -> common c' o <-> common c o.
Proof. intros (E1 & E2 & _). unfold common. by rewrite E1, E2. Qed.

Lemma only_fit q fit c c' : only q c c' -> all_fit fit c -> all_fit fit c'.
Proof.
  intros Ho Hfit o Hc. rewrite (proj1 (proj2 Ho)). apply Hfit. by apply (only_common q c c').
Qed.

Section alone.
Context `{AL : Allocator}.
Variables (fuel : nat) (dev : Z) (fit : Z -> Segment -> Prop) (c : config) (q : Z).

Lemma only_upd objs x :
  (forall o, default zero_segment (objs !! o) = seg_of c o) ->
  only q c (mkConfig (c_kernel c) objs (<[q := x]> (c_procs c))).
Proof. intros H. split_and!; [done|exact H|]. intros p Hp. cbn. by rewrite lookup_insert_ne. Qed.

(** A process that is there moves. *)
Lemma gentle_go x y K objs :
  c_procs c !! q = Some x -> all_fit fit c ->
  step fuel dev c (mkConfig K objs (<[q := y]> (c_procs c))) ->
  gentle fuel dev fit c (mkConfig K objs (<[q := y]> (c_procs c))).
Proof.
  intros Ep Hfit Hs. split; [done|]. split; [done|]. cbn. split; intros p m m' E1 E2; exfalso;
    (destruct (decide (p = q)) as [->|Hne];
      [rewrite ?lookup_insert_eq in E2; congruence|rewrite lookup_insert_ne in E2 by done; congruence]).
Qed.

Lemma look_step o A (pr : prog A) k n :
  c_procs c !! q = Some (ICall (Seg o pr) k, n) -> looks pr -> all_fit fit c ->
  exists c', gentle fuel dev fit c c' /\ only q c c' /\
    c_procs c' !! q = Some (ICall (Seg o (fst (pstep pr (seg_of c o)))) k, n).
Proof.
  intros Ep Hl Hfit. pose proof (step_access fuel dev c q A o pr k n Ep) as Hs.
  rewrite (unready_publishes pr) in Hs by (by apply looks_unready).
  assert (snd (pstep pr (seg_of c o)) = seg_of c o) as Es by (by destruct pr). rewrite Es in Hs.
  eexists. split; [by eapply gentle_go|]. split; [|apply lookup_insert_eq].
  apply only_upd. intros o'. destruct (decide (o' = o)) as [->|Hne]; [by rewrite lookup_insert_eq|].
  by rewrite lookup_insert_ne.
Qed.

Lemma done_step o A (a : A) k n :
  c_procs c !! q = Some (ICall (Seg o (PRet a)) k, n) -> all_fit fit c ->
  exists c', gentle fuel dev fit c c' /\ only q c c' /\ c_procs c' !! q = Some (k a, n).
Proof.
  intros Ep Hfit. eexists. split; [eapply gentle_go; [done..|by apply (step_finish _ _ c q A o a k n)]|].
  split; [by apply only_upd|apply lookup_insert_eq].
Qed.

(** A new process with the objects of the store [g] mapped. *)
Lemma fork_step es g :
  c_procs c !! q = None -> all_fit fit c -> (0 < fuel)%nat -> Forall modest es ->
  (forall st o, g = Some st -> s_seg st = Some o -> common c o) ->
  exists c', gentle fuel dev fit c c' /\ only q c c' /\ c_procs c' !! q = Some (calls fuel es g, O).
Proof.
  intros Eq Hfit Hf Hes Hg. eexists. split; [|split; [by apply (only_upd (c_objs c))|apply lookup_insert_eq]].
  split; [by apply step_start|]. split; [done|]. cbn. split; intros p m n E1 E2.
  - destruct (decide (p = q)) as [->|Hne]; [|rewrite lookup_insert_ne in E2 by done; congruence].
    rewrite lookup_insert_eq in E2. injection E2 as <- <-. by exists es, g.
  - exfalso. destruct (decide (p = q)) as [->|Hne]; [congruence|]. rewrite lookup_insert_ne in E2 by done. congruence.
Qed.
End alone.

(** * The answers of a run *)

Section walk.
Context `{AL : Allocator}.
Variables (fuel : nat) (dev : Z) (o : Z) (key : bytes).

(** Object [o] is fit for readers of [key]. *)
Definition watched (o' : Z) (s : Segment) : Prop := o' = o -> calm key s.

Abbreviation walk := (rtc (gentle fuel dev watched)).

(** At [c], after a run from [c0], [r] is what [o] holds for the key, nobody
    being in the middle of a change; or an operation that began on what [o] was
    at an earlier moment has come to what it is now and is to change it
    further, and [r] is what [o] held then, or what it will hold. *)
Definition shows (c0 c : config) (r : Read) : Prop :=
  (at_rest o c /\ r = read_of (Spec.get (view (seg_of c o)) key)) \/
  exists p A (pr : prog A) k n w p0 cb j,
    c_procs c !! p = Some (ICall (Seg o pr) k, n) /\ op_ok w /\ performs w p0 /\
    walk c0 cb /\ walk cb c /\ advance (S j) p0 (seg_of cb o) = (pr, seg_of c o) /\
    seg_of c o <> apply w (seg_of cb o) /\
    (r = read_of (Spec.get (view (seg_of cb o)) key) \/
     r = read_of (Spec.get (view (apply w (seg_of cb o))) key)).

(** Operations start from what the object was in the course of the run. *)
Definition past (c0 c : config) (o' : Z) (s : Segment) : Prop :=
  o' = o -> calm key s /\ exists cb, walk c0 cb /\ walk cb c /\ seg_of cb o = s.

Lemma walk_custody c0 c :
  gently_reached fuel dev anything c0 -> common c0 o -> idle o c0 -> walk c0 c ->
  custody dev (past c0 c) c /\ common c o.
Proof.
  intros H0 Ho Hidle Hw. pattern c. eapply rtc_ind_r; [| |exact Hw].
  - split; [|done]. apply (watch_from dev o); [|by apply (reached_custody fuel)|done..]. intros o' s Hne E. by destruct Hne.
  - clear c Hw. intros c c' Hw Hg [HC Hc].
    assert (gentle fuel dev (past c0 c) c c') as Hg'.
    { destruct Hg as (Hs & Hfit & Hrest). split; [done|]. split; [|done]. intros o' Ho' ->.
      split; [by apply Hfit|]. exists c. split; [done|]. split; [done|done]. }
    split; [|by eapply step_common].
    eapply (custody_mono _ (past c0 c)); [|by eapply step_custody].
    intros o' s Hp E. destruct (Hp E) as [Hcalm (cb & H1 & H2 & H3)]. split; [done|].
    exists cb. split_and!; [done| |done]. by eapply rtc_r.
Qed.

Section answers.
Variables (V : Read -> Prop) (c0 : config).

Lemma walk_anchored c :
  custody dev (past c0 c) c -> common c o -> (forall r, shows c0 c r -> V r) ->
  anchored key V (seg_of c o).
Proof.
  intros HC Ho HV. destruct (rest_or_work dev o _ c HC Ho) as [[Hr Hs]|H].
  { apply anchored_at; [by apply serial_wf|]. apply HV. by left. }
  destruct H as (p & A & pr & k & n & w & p0 & s0 & j & Ep & Hok & Hp & Hs & Hf & E & Hne).
  destruct (Hf eq_refl) as [Hcalm (cb & H1 & H2 & <-)].
  assert (forall r, r = read_of (Spec.get (view (seg_of cb o)) key) \/
    r = read_of (Spec.get (view (apply w (seg_of cb o))) key) -> V r) as HVw.
  { intros r Hr. apply HV. right. exists p, A, pr, k, n, w, p0, cb, j. by split_and!. }
  pose proof (serial_wf _ Hs) as Hwf.
  destruct (guards_advance key V _ _ _ _ _ E) as [[_ Ha] _]; [by apply anchored_at; auto| |done].
  eapply performs_guards; [done|done|by apply calm_racing|auto|auto].
Qed.

(** Whatever the answers, the counters only advance. *)
Lemma walk_settled c c' :
  custody dev (past c0 c) c -> common c o -> gentle fuel dev (past c0 c) c c' ->
  RaceInv.settled key (seg_of c o) (seg_of c' o).
Proof.
  intros HC Ho Hg. destruct (step_common fuel dev o _ c c' HC Hg Ho) as [_ [->|H]]; [done|].
  destruct H as (A & pr & -> & (w & p0 & s0 & j & Hok & Hp & [Hs Hf] & E)).
  destruct (Hf eq_refl) as [Hcalm _]. pose proof (serial_wf _ Hs) as Hwf.
  assert (anchored key (fun _ => True) s0) as Ha by by apply anchored_at.
  assert (guards (fair key (fun _ => True)) p0 s0) as Hgu
    by (eapply performs_guards; [done|done|by apply calm_racing|done|done]).
  destruct (guards_advance key _ _ _ _ _ _ E Ha Hgu) as [[_ Ha'] Hg'].
  apply (guards_pstep key _ pr _ Ha' Hg').
Qed.
End answers.

(** * The read of process [q] *)

Section reading.
Variables (q : Z) (k : Read -> io unit) (n : nat).

(** Process [q] is inside the read, [pr] being what is left of it. *)
Definition reading (pr : prog Read) (c : config) : Prop := c_procs c !! q = Some (ICall (Seg o pr) k, n).

(** A step of the system during the read: another process's, or the reader's
    next access. *)
Definition turn (x y : prog Read * config) : Prop :=
  gentle fuel dev watched (snd x) (snd y) /\ reading (fst y) (snd y) /\
  (fst y = fst x \/ fst y = fst (pstep (fst x) (seg_of (snd x) o))).

Lemma turns_walk x y : rtc turn x y -> walk (snd x) (snd y).
Proof. induction 1 as [|x y z (Hg & _) _ IH]; [done|]. by eapply rtc_l. Qed.

Lemma turns_see c0 x y :
  let V r := exists z, rtc turn x z /\ rtc turn z y /\ shows c0 (snd z) r in
  gently_reached fuel dev anything c0 -> common c0 o -> idle o c0 -> walk c0 (snd x) ->
  rtc turn x y ->
  sees key V (fst x) (fun r _ => r = Torn \/ V r) (seg_of (snd x) o) ->
  sees key V (fst y) (fun r _ => r = Torn \/ V r) (seg_of (snd y) o).
Proof.
  intros V H0 Ho Hidle H0x Hxy Hx.
  assert (forall z, rtc turn x z -> rtc turn z y ->
    sees key V (fst z) (fun r _ => r = Torn \/ V r) (seg_of (snd z) o)) as H; [|by apply H].
  assert (forall z, rtc turn x z -> custody dev (past c0 (snd z)) (snd z) /\ common (snd z) o) as HC.
  { intros z Hz. apply walk_custody; [done..|]. etrans; [exact H0x|by apply turns_walk]. }
  intros z Hxz. pattern z. eapply rtc_ind_r; [|..|exact Hxz]; [done|].
  clear z Hxz. intros z z' Hxz Hzz' IH Hz'y.
  assert (rtc turn z y) as Hzy by (by eapply rtc_l).
  assert (rtc turn x z') as Hxz' by (by eapply rtc_r).
  destruct (HC z Hxz) as [HCz Hoz], (HC z' Hxz') as [HCz' Hoz']. specialize (IH Hzy).
  assert (anchored key V (seg_of (snd z) o)) as Ha
    by (apply (walk_anchored V c0); [done..|]; intros r Hr; by exists z).
  destruct Hzz' as (Hg & _ & Hpr).
  assert (later key V (seg_of (snd z) o) (seg_of (snd z') o)) as Hl.
  { split; [|apply (walk_anchored V c0); [done..|]; intros r Hr; by exists z'].
    apply (walk_settled c0); [done..|]. destruct Hg as (Hs & Hfit & Hrest). split; [done|]. split; [|done].
    intros o' Ho' ->. split; [by apply Hfit|]. exists (snd z). split_and!; [|done..].
    etrans; [exact H0x|by apply turns_walk]. }
  eapply sees_later; [exact Hl|]. destruct Hpr as [->| ->]; [done|by apply sees_pstep].
Qed.

(** The reader waits for nobody. *)
Lemma reader_alone pr c :
  looks pr -> reading pr c -> all_fit watched c ->
  exists c', rtc turn (pr, c) (PRet (fst (run pr (seg_of c o))), c').
Proof.
  revert c; induction pr as [r|cl f IH| | |off m f IH|]; intros d Hl Hr Hfit; try done; [by exists d|..].
  all: destruct (look_step fuel dev watched d q o _ _ k n Hr Hl Hfit) as (c1 & Hg & Ho & Hr1).
  all: destruct (Ho) as (_ & Es & _); cbn [pstep fst] in Hr1.
  - destruct (IH (load cl (seg_of d o)) c1) as (c2 & Ht2); [apply Hl|done|by eapply only_fit|].
    exists c2. rewrite Es in Ht2. eapply rtc_l; [|exact Ht2]. split; [done|]. split; [done|by right].
  - destruct (IH (mem_read (arena (seg_of d o)) off m) c1) as (c2 & Ht2); [apply Hl|done|by eapply only_fit|].
    exists c2. rewrite Es in Ht2. eapply rtc_l; [|exact Ht2]. split; [done|]. split; [done|by right].
Qed.

Lemma turns_reading x y : looks (fst x) -> reading (fst x) (snd x) -> rtc turn x y ->
  looks (fst y) /\ reading (fst y) (snd y).
Proof.
  intros Hl Hr. induction 1 as [|x y z (_ & Hy & Hpr) _ IH]; [done|]. apply IH; [|done].
  destruct Hpr as [->| ->]; [done|]. destruct (fst x); try done; apply Hl.
Qed.

(** C3: lock-free reads are linearizable in the running system.  A process looks
    a key up in a shared object, its accesses interleaved in any way with those
    of any number of processes, each making any calls of the C interface, forked
    and killed at any step that does not tear an update apart.  The answer is
    [Torn], or at some moment between the read's first access and its last it is
    what the object holds for the key, be it from before or from after an
    operation that is half done at that moment.  And the reader waits for
    nobody: at any moment its own accesses alone take it to an answer.  From
    some moment before the read at which nobody wrote to it, the object must be
    fit for readers of the key ([calm]): no record has wrapped around the end
    of the index, no counter is at its end, no deletion of a key with the same
    hash has been committed. *)
Theorem system_reads_linearizable (c0 c1 c2 : config) (r : Read) :
  gently_reached fuel dev anything c0 -> common c0 o -> idle o c0 -> walk c0 c1 ->
  let read := read_value key (fnv1a key) in
  reading read c1 ->
  (rtc turn (read, c1) (PRet r, c2) ->
     r = Torn \/
     exists pr c, rtc turn (read, c1) (pr, c) /\ rtc turn (pr, c) (PRet r, c2) /\ shows c0 c r) /\
  (forall pr c, rtc turn (read, c1) (pr, c) -> all_fit watched c ->
     exists r' c', rtc turn (pr, c) (PRet r', c')).
Proof.
  intros H0 Ho Hidle H01 read Hread. assert (looks read) as Hl by apply looks_read_value. split.
  - intros Hrun.
    pose proof (turns_see c0 (read, c1) (PRet r, c2) H0 Ho Hidle H01 Hrun (sees_read_value key _ _)) as
      [->|(x & H1 & H2 & Hs)]; [by left|right]. exists (fst x), (snd x). by destruct x.
  - intros pr c Hrun Hfit. destruct (turns_reading (read, c1) (pr, c) Hl Hread Hrun) as [Hl' Hr'].
    destruct (reader_alone pr c Hl' Hr' Hfit) as (c' & Hc'). eauto.
Qed.
End reading.
End walk.

(** * A run *)

Definition calm_b (key : bytes) (s : Segment) : bool :=
  forallb (fun i =>
    if state_of s i =? ST_EMPTY then true
    else ((fnv1a (key_of s i) mod INDEX_SLOTS <=? i) &&
     (negb (state_of s i =? ST_TOMB) || negb (e_hash (Segment.entry s i) =? fnv1a key) ||
      has_dirty (e_flags (Segment.entry s i))))) buckets &&
  ((0 <=? slot s (key_slot key)) && (slot s (key_slot key) <? 2 ^ 64 - 4)) &&
  ((0 <=? aseq s) && (aseq s <? 2 ^ 64 - 4)).

Lemma calm_b_calm key s : calm_b key s = true -> calm key s.
Proof.
  unfold calm_b. rewrite !andb_true_iff, !Z.leb_le, !Z.ltb_lt, forallb_forall. intros [[H Hs] Ha].
  assert (forall i, in_index i -> state_of s i <> ST_EMPTY ->
    fnv1a (key_of s i) mod INDEX_SLOTS <= i /\
    (state_of s i = ST_TOMB -> e_hash (Segment.entry s i) = fnv1a key -> has_dirty (e_flags (Segment.entry s i)) = true))
    as Hb.
  { intros i Hi Hne. specialize (H i ltac:(by apply list_elem_of_In, buckets_in)).
    rewrite (proj2 (Z.eqb_neq _ _) Hne) in H. apply andb_true_iff in H as [H1 H2].
    split; [by apply Z.leb_le|]. intros E1 E2. rewrite E1, E2, !Z.eqb_refl in H2. exact H2. }
  split; [|done|done|].
  - intros i Hi Hr. apply (Hb i Hi). intros He. apply Hr. unfold record, state_of in *. by rewrite He.
  - intros i Hi Ht Hh. apply (Hb i Hi); [by rewrite Ht|done..].
Qed.

(** A process forked from one that has the object mapped reads the key. *)
Section fork.
Context `{AL : Allocator}.
Variables (fuel : nat) (dev : Z) (o : Z).

Definition mapped : Store := mkStore (Some o) ∅ ∅ 0.

Lemma fork_reads fit c q :
  c_procs c !! q = None -> common c o -> all_fit fit c -> (0 < fuel)%nat ->
  exists k n c', rtc (gentle fuel dev fit) c c' /\ only q c c' /\
    reading o q k n (read_value [97] (fnv1a [97])) c'.
Proof.
  intros Hq Ho Hfit Hf. set (v := slot (seg_of c o) (key_slot [97])).
  assert (exists k0, calls fuel [EGet name_a] (Some mapped) = ICall (Seg o (slot_value (slot_of (fnv1a [97])))) k0 /\
    exists k1, k0 v = ICall (Seg o (read_value [97] (fnv1a [97]))) k1) as (k0 & E0 & k1 & E1).
  { eexists. split; [reflexivity|]. eexists. reflexivity. }
  destruct (fork_step fuel dev fit c q [EGet name_a] (Some mapped)) as (ca & G1 & O1 & P1); [done..| | |].
  { by repeat constructor. }
  { by intros st o' [= <-] [= <-]. }
  rewrite E0 in P1. pose proof (only_fit _ _ _ _ O1 Hfit) as F1.
  destruct (look_step fuel dev fit ca q o _ _ _ _ P1 (looks_loadc _) F1) as (cb & G2 & O2 & P2).
  cbn [slot_value loadc pstep fst] in P2. rewrite (proj1 (proj2 O1)) in P2. fold v in P2.
  pose proof (only_fit _ _ _ _ O2 F1) as F2.
  destruct (done_step fuel dev fit cb q o _ _ _ _ P2 F2) as (cc & G3 & O3 & P3).
  exists k1, O, cc. split; [|split].
  - eapply rtc_l; [exact G1|]. eapply rtc_l; [exact G2|]. by apply rtc_once.
  - eapply only_trans; [exact O1|]. by eapply only_trans.
  - unfold reading. rewrite P3. do 2 f_equal. exact E1.
Qed.
End fork.

Definition idle_b (o : Z) (c : config) : bool :=
  forallb (fun px : Z * (io unit * nat) =>
    match fst (snd px) with ICall (Seg o' _) _ => negb (o' =? o) | _ => true end) (map_to_list (c_procs c)).

Lemma idle_b_idle o c : idle_b o c = true -> idle o c.
Proof.
  unfold idle_b. rewrite forallb_forall. intros H p A pr k n Ep.
  specialize (H _ ltac:(by apply list_elem_of_In, elem_of_map_to_list, Ep)). cbn in H.
  by rewrite Z.eqb_refl in H.
Qed.

Lemma drive_app {AL : Allocator} fuel dev es es' c :
  drive fuel dev (es ++ es') c = match drive fuel dev es c with Some c' => drive fuel dev es' c' | None => None end.
Proof.
  revert c; induction es as [|e es IH]; intros c; [done|]. cbn [app drive].
  by destruct (drive1 fuel dev c e).
Qed.

(** From the end of one script to the end of a longer one. *)
Lemma led_walk fit fit_b es es' :
  (forall c, fit_b c = true -> all_fit fit c) -> leads (es ++ es') = true ->
  polite_all 2 7 fit_b es' (led es) = true -> rtc (gentle 3 7 fit) (led es) (led (es ++ es')).
Proof.
  intros Hfit. unfold leads, led. rewrite drive_app.
  destruct (drive 2 7 es boot) as [c|]; [|done]. cbn [default from_option id].
  destruct (drive 2 7 es' c) as [c'|] eqn:E; [|done]. intros _ Hp. by eapply drive_gentle.
Qed.

(** Process 1 has created the segment and set "a", and waits for the lock to set
    it once more; then it is inside that second [put], about to make the counter
    odd.  Process 2 reads "a" there. *)
Definition set_once : list event :=
  Start 1 [EInit; ESet name_a name_a; ESet name_a (Some [98])] :: Go 1 Bad :: repeat (Go 1 Good) 2 ++ Go 1 Bad ::
  repeat (Go 1 Good) 58.

Lemma system_reads_linearizable_witness :
  let read := read_value [97] (fnv1a [97]) in
  let c0 := led set_once in
  exists k n c1 c2, gently_reached 3 7 anything c0 /\ common c0 0 /\ idle 0 c0 /\
    rtc (gentle 3 7 (watched 0 [97])) c0 c1 /\ writing c1 1 0 /\ reading 0 2 k n read c1 /\
    rtc (turn 3 7 0 [97] 2 k n) (read, c1) (PRet (Value [97]), c2) /\
    (Value [97] = Torn \/ exists pr c, rtc (turn 3 7 0 [97] 2 k n) (read, c1) (pr, c) /\
       rtc (turn 3 7 0 [97] 2 k n) (pr, c) (PRet (Value [97]), c2) /\ shows 3 7 0 [97] c0 c (Value [97])).
Proof.
  intros read c0. set (c := led (set_once ++ repeat (Go 1 Good) 18)).
  assert (forall c, calm_b [97] (seg_of c 0) = true -> all_fit (watched 0 [97]) c) as Hfit.
  { intros c' H o Ho ->. by apply calm_b_calm. }
  assert (gently_reached 3 7 anything c0) as H0 by (apply led_gently; vm_compute; reflexivity).
  assert (common c0 0) as Ho by (split; [vm_compute; reflexivity|vm_compute; discriminate]).
  assert (idle 0 c0) as Hi by (apply idle_b_idle; vm_compute; reflexivity).
  assert (rtc (gentle 3 7 (watched 0 [97])) c0 c) as Hw.
  { apply (led_walk _ (fun c => calm_b [97] (seg_of c 0))); [exact Hfit|vm_compute; reflexivity..]. }
  assert (common c 0) as Hoc by (split; [vm_compute; reflexivity|vm_compute; discriminate]).
  assert (all_fit (watched 0 [97]) c) as Hfc by (apply Hfit; vm_compute; reflexivity).
  destruct (fork_reads 3 7 0 (watched 0 [97]) c 2) as (k & n & c1 & H1 & Honly & Hread);
    [vm_compute; reflexivity|exact Hoc|exact Hfc|lia|].
  destruct (reader_alone 3 7 0 [97] 2 k n read c1) as (c2 & Hrun);
    [apply looks_read_value|exact Hread|by eapply only_fit|].
  assert (fst (run read (seg_of c1 0)) = Value [97]) as E.
  { destruct Honly as (_ & -> & _). vm_compute. reflexivity. }
  rewrite E in Hrun. assert (rtc (gentle 3 7 (watched 0 [97])) c0 c1) as H01
    by (etransitivity; [exact Hw|exact H1]).
  exists k, n, c1, c2. split; [exact H0|]. split; [exact Ho|]. split; [exact Hi|]. split; [exact H01|]. split.
  { assert (writing c 1 0) as (A & pr & k' & n' & Ep & Hl) by (apply storing_writing; vm_compute; reflexivity).
    exists A, pr, k', n'. split; [|exact Hl]. destruct Honly as (_ & _ & Hp). rewrite Hp by (intros [=]). exact Ep. }
  split; [exact Hread|]. split; [exact Hrun|].
  apply (system_reads_linearizable 3 7 0 [97] 2 k n c0 c1 c2 (Value [97])).
  - exact H0.
  - exact Ho.
  - exact Hi.
  - exact H01.
  - exact Hread.
  - exact Hrun.
Defined.
